(* ===== verification/_CoqProject ===== *)
-Q . S2P
Prelude.v
Wire.v
Marker.v
Tmux.v
Output.v
Token.v
Pacer.v
Rekey.v
ProxyAuth.v
GoStrings.v
Decimal.v
Ports.v
Process.v
Config.v
Forward.v
Start.v
Requests.v
Xauth.v
Socket.v
Query.v
Main.v
Datagram.v
Life.v
Server.v
Transport.v
Frontend.v
ProxyIO.v
Relay.v
Packets.v
Checker.v
Attach.v
Path.v
Bus.v
Middleware.v
Handler.v
Examples.v
Windows.v
Boot.v
Client.v
Inbox.v
Leave.v
Remote.v
Setup.v
Traffic.v
