(* ===== verification/Prelude.v ===== *)
(** * A verification of tsshd

    tsshd is an SSH session server whose clients talk to it over UDP (KCP or
    QUIC) or TCP and may lose their connection, change address and come back,
    or be replaced by another client, while the sessions go on.  This
    development models the parts of [src/tsshd] on which that promise rests,
    and the example programs of [src/examples], and proves what they guarantee.

    ** Files

    - [Prelude]: bytes, machine integers, big-endian numbers, searching in byte
      strings, Go errors, and the lemmas the other files share.
    - [Wire]: framing of commands, messages, errors and packets ([proto.go],
      [sendUdpPacket] and [recvUdpPacket] of [proxy.go], [IsClosedError] of
      [comm.go]).  Readers and writers may split data in any way.
    - [Marker]: the markers that let both ends skip stale input and output
      ([getNextDiscardMarkerIndex], [discardPendingInput], [forwardInput] of
      [session.go], [SshUdpSession.forwardInput] of [client.go],
      [clientOutputForwarder] of [output.go]).
    - [Tmux]: tmux control mode output ([tmuxcc.go]).
    - [Output]: the session output forwarder ([serverOutputForwarder] of
      [output.go], [SetSize] and [newOutputForwarder] of [session.go]).  The
      other goroutines are a list of ticks: what they do until the handler
      looks again, resizes, discards, clients that attach and leave and the end
      of the session included.
    - [Token]: the mutex and the processing token by which the goroutines of
      that forwarder keep apart, as steps of the reader and of any number of
      reconnections.
    - [Pacer]: the token bucket that keeps output under the wire budget
      ([wireRatePacer] of [output.go]).
    - [Rekey]: rotation of traffic keys ([rekey.go]); two parties and a network
      that loses, repeats and reorders as a step relation.
    - [ProxyAuth]: client states, address maps, authentication and roaming
      ([proxy_server.go], [proxy_client.go], [aesEncrypt] and [aesDecrypt] of
      [proxy.go], the cleanup of [initClientChecker] in [server.go]).
    - [Frontend]: the probing of the UDP sockets and the TCP front end with its
      read loops and frame signals ([proxy_server.go]).
    - [ProxyIO]: the accept loop, and reading and writing between front end and
      transport with the cipher of a client, while it is closed
      ([proxy_server.go]).
    - [GoStrings], [Decimal], [Config]: Go's [strings] and [strconv] functions,
      and the parser of sshd_config with its [Match] blocks and wildcards, and
      the search for the file ([sshd_config.go]).
    - [Ports]: the port option, the local addresses and the search for a free
      port ([service.go]).
    - [Process]: the process table and the foreground process of a session
      ([utils_unix.go], [comm.go]).
    - [Forward]: policy of the forwarding handlers and the accepted
      connections parked for the client ([forward.go], [handleChannelAccept]
      of [session.go]); it reads the configuration of [Config].
    - [Relay]: the copy loops of forwarded connections and packets, and the
      handlers around them with the sockets they open ([forward.go],
      [datagram.go]).
    - [Start]: environment, command and forwarding requests of a new session,
      standard error streams ([session.go]), subsystems ([sshd_config.go]).
    - [Requests]: how the client prepares and starts a session ([client.go]),
      up to the environment of [Start].
    - [Xauth]: finding xauth and what it is told ([session.go]).
    - [Socket]: the local socket, its directory and its removal
      ([utils_unix.go], [newFileUnlinker] of [comm.go], [socket.go]), and the
      socket of the agent ([session.go]).
    - [Query]: the requests over the local socket, at both ends ([socket.go]).
    - [Main]: the command line, the order of [RunMain], exit codes and
      functions, the watchdog ([main.go]), version numbers ([comm.go]); it uses
      [Config] and [Pacer].
    - [Boot]: the launcher and the daemon as two processes with their
      environments, the exit functions
      and the debug log, signals ([main.go], [initDebugLogging] of [comm.go]),
      the text of the version ([version.go]); it runs [RunMain] of [Main].
    - [Transport]: the secrets of the transports, accepting clients, the queue
      of datagrams ([service.go], [proto.go]).
    - [Setup]: certificates and the QUIC configuration of both ends, the start of
      the server with what it publishes, and of a client that is given it
      ([initServer], [listenQUIC] and [generateCertKeyPair] of [service.go],
      [newQuicClient] of [proto.go], [startServerProxy] and
      [startClientProxy]); it joins [Ports], [Transport] and [ProxyAuth].
    - [Traffic]: the counters of packets, their log line and the client's
      statistics ([proxy.go], [stats.go]), over [Path].
    - [Windows]: pseudo consoles, named pipes and the foreground process on
      Windows ([utils_windows.go]), over the search of [Process].
    - [Datagram]: UDP forwarding ([datagram.go]).
    - [Packets]: reading from a packet connection ([Read] and [Consume] of
      [datagram.go]).
    - [Life]: a session from its start to its end: [Wait] beside the process,
      its two outputs and their forwarders, closing, the message of the day
      ([session.go]).
    - [Server]: client servers, sessions, who owns which, and replaceable
      streams ([server.go], [bus.go], [attach.go], [session.go]).
    - [Attach]: the replaceable checker with the goroutines that wait on it, and
      the interruptible stream ([attach.go]).
    - [Checker]: detection of a lost peer ([timeoutChecker] of [comm.go]).
    - [Path]: the client's connection to the server and its renewal, while other
      goroutines read, write and close
      ([proxy_client.go], [tryToReconnect] of [client.go]), over the
      authentication of [ProxyAuth] and the checker of [Checker].
    - [Bus]: the control stream of a client ([bus.go], the resize handler of
      [session.go], the log queues of [comm.go]), from the bytes of [Wire] to
      the sessions of [Server] and the sizes of [Output].
    - [Middleware]: sessions served by a handler of the embedding program, their
      sizes and exit codes ([middleware.go]).
    - [Handler]: such a handler as a program of finitely many operations that
      runs beside the forwarders, joined to them by pipes, and beside resizes and
      the closing of its session, over [Middleware] ([middleware.go],
      [StartMiddleware] of [session.go]).
    - [Examples]: the handlers of the example programs ([src/examples]), on
      [Handler]; the tsshd that one of them launches is that of [Main].
    - [Client]: sessions, connections and listeners of the client library and
      what it writes to the bus ([client.go]), read by [Bus].  A sender first
      checks that the client is not detached and then waits for the bus, as two
      steps.
    - [Inbox]: the client's loop over what the server writes to the bus, and
      its heartbeats ([client.go]).
    - [Leave]: detaching, closing and setting up a client, with the time each
      wait may take ([client.go]).
    - [Remote]: remote forwarding from the server's listener to the client's
      [Accept] ([forward.go], [client.go]).

    Definitions keep the names of the source.  State is a record per Go struct,
    operations are functions on it, and a lock-protected section is one step.
    What the environment decides (results of I/O, the clock, which ready branch
    a select takes) is an argument or part of an event, so a theorem over all
    lists of events is a theorem over all interleavings of the steps.  Fields
    called history in the comments record what happened and are read by no
    operation.

    ** What is shown

    - Data arrives as sent: [Wire], [Marker], [Tmux], [Output] (complete and in
      order unless lines were dropped, and every drop is counted), [Frontend]
      (the frames of each connection, whole and in order), [Relay],
      [Datagram] and [Packets] (packets reach their own channel, those of an
      accepted peer in order), [Transport] (a queue of datagrams loses only
      what does not fit), [Remote] (connections are accepted in order),
      [Handler] (what a handler writes reaches the forwarders, and its exit code
      is reported).
    - Clients are who they are and stay reachable: [Rekey] (no interleaving of
      packets and rekeys locks an end out), [ProxyAuth] (only authenticated
      addresses are served, replays move nobody, roaming works), [ProxyIO] (no
      packet leaves unsealed while a client is closed, forged packets are
      skipped), [Transport] (both ends derive the same secret), [Setup] (a client
      that is given what the server publishes can authenticate itself, and the
      two ends of a QUIC connection authenticate each other, by the keys of
      their certificates).
    - Goroutines exclude each other and none is left behind: [Token] (one
      handler at a time, no send on a closed channel, and the forwarder can
      always end), [Attach], [Checker], [Datagram], [Handler] (closing a session
      releases its handler), [Windows] (a console is not used after it was closed).
    - Sessions and resources are accounted for: [Server] (sessions follow the
      active client, a takeover can attach them), [Forward] and [Relay] (no
      accepted connection is lost or closed twice, a listener leaves no file),
      [Path] (a renewal leaves at most the installed connection open),
      [Client] (the wait group is zero exactly when everything has ended, and
      a detached session survives its client), [Life] (when the output of a
      process survives its end), [Leave] (a detached client has all output, and
      closing takes bounded time once the bus is free).
    - The control stream does what was asked: the loops of [Bus] and [Inbox] on
      bytes refine specifications on commands, and that of [Bus] ends on any
      input.  [Query] states the answers to the requests over the local socket.
    - The daemon starts once and ends as it should: [Boot] (when there is a
      child, which serves and has none itself; the log is deleted exactly if the
      client is still there).
      [Traffic] states what is counted.
    - Loops end: [Pacer] (with its budget), [Process] and [Windows] (exactly when
      the process table does not make the server its own descendant, and then
      they find what a plain description says), [Ports], [Bus], the reconnection of
      [Path] and the watchdog of [Main].
    - Configuration is read as meant: [Config], [Forward], [Ports], [Main]; the
      local socket is private ([Socket]), and a session gets the variables of
      its client that the configuration accepts ([Start], and [Requests] from
      the client's call on).
    - Some theorems state where the code falls short of its comments or of
      what it means to do:
      [silent_client_panics], [late_session_orphaned],
      [racing_write_lands_twice], [reflected_response_authenticates],
      [timeout_cleanup_unobserved], [unacked_accept_starves_peer],
      [stream_local_networks_unchecked], [valueless_criterion_matches],
      [udp_packet_overlong_desync], [pacer_wait_spins],
      [replaced_socket_unlinked], [refused_session_blocks_wait],
      [failed_accept_leaks_channel], [refused_reads_leak],
      [expired_handshake_installs], [subsystem_environment],
      [equals_sign_smuggles], [stalled_frame_blocks],
      [closing_read_unopened], [unready_dial_leaks], [udp_unclaimed_kept],
      [session_output_kept], [detach_waits_for_output], [size_waits],
      [motd_lines], [failed_start_leaks],
      [unsent_heartbeat_waits], [xauth_two_commands_iff],
      [view_command_answer], [untitled_sessions_share],
      [sshd_pty_output_kept_iff], [subsystem_command],
      [foreground_process_newest], [reused_pid_hangs] and
      [bytes_dropped].

    ** Fuel and bounds

    Loops over a buffer take the length of the buffer as fuel, each pass
    consuming a byte; loops that wait take one tick of the environment per
    pass, and their theorems state how many ticks are enough.  The pacer's fuel
    is one per second of deficit and one more, the search for descendants takes
    one per process, as does the walk up from a console host, the bus loop one
    per command (or per byte, for arbitrary input) and one for the end.  Random
    identities are drawn from a list; a theorem that an identity is found asks
    for one draw that is not zero.  Counters of 64
    bits wrap; theorems that need fresh ids assume fewer than 2^64 events.

    ** What is not modelled

    AES-GCM, ECDH and the key derivation are parameters with their laws as
    hypotheses ([Crypto], [CryptoOk] in [Rekey]), instantiated by a toy cipher
    for the examples.  So are signatures, which verify only under the public key
    of the key that made them ([Pki], [PkiOk] in [Setup]).  JSON encoding is a parameter of [Wire], splitting and
    quoting of command lines are parameters of [Start], [ssh.Unmarshal] is one of
    [Requests], and the layout of the server information one of [Query].  The
    encoding of certificates and keys, which keeps whole seconds, and the
    calendar, are parameters of [Setup] as well; quoting an argument for Windows is one of
    [Windows], reading a line from a terminal one of [Examples].  KCP,
    QUIC, smux and the terminal emulator are third-party packages, and
    terminals, processes, signals and the rest of the operating system are
    outside; the file system of [Socket] and the sockets of [Ports] are as much
    of it as those files need: [MkdirAll] does not record the parents it
    creates, and the addresses of [Ports] are distinct.  The pacer counts
    exactly, not in floating point, and without the bounds of [time.Duration].
    [Accept] of [Remote] is one step with the server's answer.  The goroutines
    that a handler of [Handler] starts itself are outside.  Not modelled either: the dummy packets on a new path, the layout of
    printed tables and of the help, the logging of heartbeats, what is written
    to the debug log, the macOS utilities, and wrappers that only pass a call
    on (addresses of streams, the methods of the stream adapters).  The scripts
    under [src/benchmarks] measure latency and are no part of the program. *)

From Stdlib Require Import ZArith Lia Ascii String.
From stdpp Require Import base list strings gmap.

Open Scope Z_scope.

(** ** Bytes

    Go's [byte] is [ascii] here: eight bits, no more.  A Go [[]byte] is a
    [list ascii]; a Go [string] is a Rocq [string], which is also a sequence
    of bytes, and [bs] converts a literal. *)

Declare Scope go_scope.
Delimit Scope go_scope with go.

Abbreviation byte := ascii.
Abbreviation bytes := (list ascii).

Definition LF : byte := "010"%char.
Definition CR : byte := "013"%char.

Definition bs (s : string) : bytes := list_ascii_of_string s.

Definition Z_of_byte (b : byte) : Z := Z.of_N (N_of_ascii b).
Definition byte_of_Z (z : Z) : byte := ascii_of_N (Z.to_N (z mod 256)).

(** Unsigned machine integers are [Z] values; a conversion or an addition
    that can leave the range wraps explicitly. *)
Definition uwrap (w : Z) (z : Z) : Z := z mod 2 ^ w.
Abbreviation u16 := (uwrap 16).
Abbreviation u32 := (uwrap 32).
Abbreviation u64 := (uwrap 64).

(** [encoding/binary]'s [BigEndian.PutUint]{16,32,64} and [Uint]{16,32,64}
    with the number of bytes as a parameter. *)
Fixpoint be_put (k : nat) (v : Z) : bytes :=
  match k with
  | O => []
  | S k' => byte_of_Z (Z.shiftr v (8 * Z.of_nat k')) :: be_put k' v
  end.

Fixpoint be_get_from (acc : Z) (l : bytes) : Z :=
  match l with
  | [] => acc
  | b :: l' => be_get_from (acc * 256 + Z_of_byte b) l'
  end.

Definition be_get (l : bytes) : Z := be_get_from 0 l.

(** ** Go's [bytes] package, as far as the sources use it *)

Fixpoint has_prefix (s p : bytes) {struct p} : bool :=
  match p, s with
  | [], _ => true
  | b :: p', c :: s' => if ascii_dec b c then has_prefix s' p' else false
  | _ :: _, [] => false
  end.

(** [bytes.Index s sep]: the position of the first occurrence; [None] is -1. *)
Fixpoint bytes_Index (s sep : bytes) : option nat :=
  if has_prefix s sep then Some O
  else match s with
       | [] => None
       | _ :: s' => S <$> bytes_Index s' sep
       end.

(** [bytes.IndexByte s c]. *)
Fixpoint bytes_IndexByte (s : bytes) (c : byte) : option nat :=
  match s with
  | [] => None
  | b :: s' => if ascii_dec b c then Some O else S <$> bytes_IndexByte s' c
  end.

(** [bytes.Count s []byte{c}]. *)
Fixpoint bytes_Count (s : bytes) (c : byte) : nat :=
  match s with
  | [] => O
  | b :: s' => if ascii_dec b c then S (bytes_Count s' c) else bytes_Count s' c
  end.

(** [bytes.ReplaceAll s old ""] for a nonempty [old]: scan left to right and
    drop each occurrence; the fuel is the length of the input. *)
Fixpoint remove_all_fuel (fuel : nat) (s old : bytes) : bytes :=
  match fuel with
  | O => s
  | S fuel' =>
      match s with
      | [] => []
      | b :: s' => if has_prefix s old
                   then remove_all_fuel fuel' (drop (length old) s) old
                   else b :: remove_all_fuel fuel' s' old
      end
  end.

Definition remove_all (s old : bytes) : bytes := remove_all_fuel (length s) s old.

(** ** Errors

    The error values the sources create or test.  [Wrap pre e] is
    [fmt.Errorf("pre: %w", e)], which keeps [e] in the chain that
    [errors.Is] walks; [Plain] is an error made of text only (also what
    [%v] leaves of an error it formats). *)
Inductive goerr :=
  | EOF
  | ErrUnexpectedEOF
  | ErrShortBuffer
  | ErrShortWrite
  | ErrClosedPipe
  | NetErrClosed
  | StreamError (code : Z) (text : string)
  | Plain (msg : string)
  | Wrap (pre : string) (e : goerr)
  | TsshdError (code : Z) (msg : string).

#[export] Instance goerr_eq_dec : EqDecision goerr.
Proof. solve_decision. Defined.

Inductive res (A : Type) :=
  | Ok (a : A)
  | Err (e : goerr).
Arguments Ok {A} a.
Arguments Err {A} e.

Notation "'do' x <- c ; k" :=
  (match c with Ok x => k | Err e => Err e end)
  (at level 10, x pattern, c at level 100, k at level 200) : go_scope.

(** ** Tactics and hints *)

Create HintDb tsshd.

(** Decide which branch of a [switch] over strings is taken. *)
Ltac dispatch :=
  repeat first [ rewrite (bool_decide_eq_true_2 (_ = _)) by done
               | rewrite (bool_decide_eq_false_2 (_ = _)) by done ].

(** Case analysis on the [match]es and [if]s of the goal, from the outside
    in, keeping an equation for each. *)
Ltac crunch_match :=
  repeat (match goal with
          | |- context [match ?x with _ => _ end] => destruct x eqn:?
          end; simplify_eq/=; try done).

(** Turn the boolean tests of the context into propositions for [lia]. *)
Ltac bool_to_prop :=
  repeat match goal with
         | H : (_ <? _)%Z = true |- _ => apply Z.ltb_lt in H
         | H : (_ <? _)%Z = false |- _ => apply Z.ltb_ge in H
         | H : (_ <=? _)%Z = true |- _ => apply Z.leb_le in H
         | H : (_ <=? _)%Z = false |- _ => apply Z.leb_gt in H
         | H : (_ =? _)%Z = true |- _ => apply Z.eqb_eq in H
         | H : (_ =? _)%Z = false |- _ => apply Z.eqb_neq in H
         | H : (_ <? _)%nat = true |- _ => apply Nat.ltb_lt in H
         | H : (_ <? _)%nat = false |- _ => apply Nat.ltb_ge in H
         | H : (_ <=? _)%nat = true |- _ => apply Nat.leb_le in H
         | H : (_ <=? _)%nat = false |- _ => apply Nat.leb_gt in H
         | H : (_ =? _)%nat = true |- _ => apply Nat.eqb_eq in H
         | H : (_ =? _)%nat = false |- _ => apply Nat.eqb_neq in H
         | H : _ && _ = true |- _ => apply andb_true_iff in H; destruct H
         | H : _ || _ = false |- _ => apply orb_false_iff in H; destruct H
         | H : negb _ = true |- _ => apply negb_true_iff in H
         | H : negb _ = false |- _ => apply negb_false_iff in H
         | H : bool_decide _ = true |- _ => apply bool_decide_eq_true in H
         | H : bool_decide _ = false |- _ => apply bool_decide_eq_false in H
         end.

(** ** Bytes and integers: lemmas *)

Lemma Z_of_byte_range b : 0 <= Z_of_byte b < 256.
Proof.
  unfold Z_of_byte. pose proof (N_ascii_bounded b) as H.
  split; [lia |]. apply N2Z.inj_lt in H. exact H.
Qed.

Lemma Z_of_byte_of_Z z : Z_of_byte (byte_of_Z z) = z mod 256.
Proof.
  unfold Z_of_byte, byte_of_Z.
  pose proof (Z.mod_pos_bound z 256 ltac:(lia)).
  rewrite N_ascii_embedding by lia. lia.
Qed.

Lemma byte_of_Z_of_byte b : byte_of_Z (Z_of_byte b) = b.
Proof.
  unfold byte_of_Z. pose proof (Z_of_byte_range b).
  rewrite Z.mod_small by lia. unfold Z_of_byte.
  rewrite N2Z.id. apply ascii_N_embedding.
Qed.

Lemma Z_of_byte_inj a b : Z_of_byte a = Z_of_byte b -> a = b.
Proof.
  intros H. rewrite <- (byte_of_Z_of_byte a), <- (byte_of_Z_of_byte b).
  by rewrite H.
Qed.

Lemma uwrap_range w z : 0 <= w -> 0 <= uwrap w z < 2 ^ w.
Proof. intros. apply Z.mod_pos_bound. apply Z.pow_pos_nonneg; lia. Qed.

Lemma uwrap_small w z : 0 <= z < 2 ^ w -> uwrap w z = z.
Proof. intros. by apply Z.mod_small. Qed.

Lemma length_be_put k v : length (be_put k v) = k.
Proof. induction k; simpl; congruence. Qed.

Lemma be_get_from_eq acc l :
  be_get_from acc l = acc * 256 ^ Z.of_nat (length l) + be_get l.
Proof.
  unfold be_get. revert acc. induction l as [|b l IH]; intros acc.
  - cbn [be_get_from length]. change (Z.of_nat 0) with 0. lia.
  - cbn [be_get_from length]. rewrite IH, (IH (0 * 256 + _)).
    rewrite Nat2Z.inj_succ, Z.pow_succ_r by lia. ring.
Qed.

Lemma be_get_cons b l :
  be_get (b :: l) = Z_of_byte b * 256 ^ Z.of_nat (length l) + be_get l.
Proof.
  unfold be_get at 1. cbn [be_get_from].
  rewrite be_get_from_eq. f_equal.
Qed.

Lemma be_get_put k v : be_get (be_put k v) = v mod 256 ^ Z.of_nat k.
Proof.
  induction k as [|k IH].
  - simpl. by rewrite Z.mod_1_r.
  - cbn [be_put]. rewrite be_get_cons, length_be_put, IH, Z_of_byte_of_Z.
    rewrite Z.shiftr_div_pow2 by lia.
    replace (2 ^ (8 * Z.of_nat k)) with (256 ^ Z.of_nat k)
      by (rewrite Z.pow_mul_r by lia; reflexivity).
    rewrite Nat2Z.inj_succ, Z.pow_succ_r by lia.
    rewrite (Z.mul_comm 256), Z.rem_mul_r by lia. lia.
Qed.

Lemma be_get_put_small k v :
  0 <= v < 256 ^ Z.of_nat k -> be_get (be_put k v) = v.
Proof. intros. rewrite be_get_put. by apply Z.mod_small. Qed.

Lemma be_get_range l : 0 <= be_get l < 256 ^ Z.of_nat (length l).
Proof.
  induction l as [|b l IH]; [simpl; unfold be_get; simpl; lia |].
  rewrite be_get_cons. cbn [length].
  rewrite Nat2Z.inj_succ, Z.pow_succ_r by lia.
  pose proof (Z_of_byte_range b).
  assert (0 < 256 ^ Z.of_nat (length l)) by (apply Z.pow_pos_nonneg; lia).
  nia.
Qed.

(** ** Searching: lemmas *)

Lemma has_prefix_spec s p : has_prefix s p = true <-> exists t, s = p ++ t.
Proof.
  revert s. induction p as [|b p IH]; intros s; simpl.
  - split; [intros _; by exists s | done].
  - destruct s as [|c s]; [naive_solver |].
    destruct (ascii_dec b c) as [->|Hne].
    + rewrite IH. naive_solver.
    + naive_solver.
Qed.

Lemma has_prefix_app p t : has_prefix (p ++ t) p = true.
Proof. apply has_prefix_spec. by exists t. Qed.

Lemma has_prefix_app_l s t p :
  (length p <= length s)%nat -> has_prefix (s ++ t) p = has_prefix s p.
Proof.
  revert s. induction p as [|b p IH]; intros [|c s] Hl; simpl in *; try done; try lia.
  destruct (ascii_dec b c); [apply IH; lia | done].
Qed.

Lemma has_prefix_length s p : has_prefix s p = true -> (length p <= length s)%nat.
Proof. intros [t ->]%has_prefix_spec. rewrite length_app. lia. Qed.

(** The first occurrence: the text splits there, and no proper prefix of
    the split ends in another occurrence. *)
Lemma bytes_Index_Some s sep n :
  bytes_Index s sep = Some n ->
  s = take n s ++ sep ++ drop (n + length sep) s /\ (n + length sep <= length s)%nat.
Proof.
  revert n. induction s as [|b s IH]; intros n; cbn [bytes_Index];
    destruct (has_prefix _ sep) eqn:Hp.
  - intros [= <-]. apply has_prefix_spec in Hp as [t Ht].
    destruct sep; [by simpl |]. done.
  - done.
  - intros [= <-]. apply has_prefix_spec in Hp as [t Ht]. rewrite Ht.
    rewrite take_0, Nat.add_0_l, drop_app_length, length_app. simpl. split; [done | lia].
  - destruct (bytes_Index s sep) as [m|] eqn:Hm; simpl; [|done].
    intros [= <-]. destruct (IH m eq_refl) as [Heq Hl]. simpl.
    split; [by f_equal | lia].
Qed.

Lemma bytes_Index_None s sep i :
  bytes_Index s sep = None -> (i <= length s)%nat -> has_prefix (drop i s) sep = false.
Proof.
  revert i. induction s as [|b s IH]; intros i; cbn [bytes_Index];
    destruct (has_prefix _ sep) eqn:Hp; try done.
  - intros _ Hi. simpl in Hi. by replace i with 0%nat by lia.
  - destruct (bytes_Index s sep) eqn:Hm; simpl; [done|]. intros _ Hi.
    destruct i; [done|]. simpl in *. apply IH; [done | lia].
Qed.

Lemma bytes_Index_min s sep n i :
  bytes_Index s sep = Some n -> (i < n)%nat -> has_prefix (drop i s) sep = false.
Proof.
  revert n i. induction s as [|b s IH]; intros n i; cbn [bytes_Index];
    destruct (has_prefix _ sep) eqn:Hp; try done.
  - intros [= <-]. lia.
  - intros [= <-]. lia.
  - destruct (bytes_Index s sep) as [m|] eqn:Hm; simpl; [|done]. intros [= <-] Hi.
    destruct i; [done|]. simpl. apply (IH m); [done | lia].
Qed.

Lemma bytes_Index_cons b s m :
  bytes_Index (b :: s) m = None -> has_prefix (b :: s) m = false /\ bytes_Index s m = None.
Proof.
  cbn [bytes_Index]. destruct (has_prefix (b :: s) m); [done|].
  by destruct (bytes_Index s m).
Qed.

(** A text without an occurrence has none in any of its parts. *)
Lemma bytes_Index_None_app_r a b m : bytes_Index (a ++ b) m = None -> bytes_Index b m = None.
Proof. induction a as [|c a IH]; [done|]. intros [_ H]%bytes_Index_cons. auto. Qed.

Lemma bytes_Index_None_app_l a b m : bytes_Index (a ++ b) m = None -> bytes_Index a m = None.
Proof.
  induction a as [|c a IH]; simpl app.
  - destruct m; [|done]. by destruct b.
  - intros [Hp H]%bytes_Index_cons. cbn [bytes_Index]. rewrite (IH H).
    destruct (has_prefix (c :: a) m) eqn:Hpa; [|done].
    apply has_prefix_spec in Hpa as [u Hu]. exfalso.
    assert (has_prefix (c :: a ++ b) m = true); [|congruence].
    apply has_prefix_spec. exists (u ++ b). rewrite app_assoc, <- Hu. done.
Qed.

Lemma remove_all_absent s old : bytes_Index s old = None -> remove_all s old = s.
Proof.
  unfold remove_all. induction s as [|b s IH]; intros H; [done|].
  apply bytes_Index_cons in H as [Hp H]. cbn [length remove_all_fuel]. rewrite Hp. by rewrite IH.
Qed.

Lemma bytes_IndexByte_Some s c n :
  bytes_IndexByte s c = Some n ->
  s !! n = Some c /\ (n < length s)%nat /\ bytes_IndexByte (take n s) c = None.
Proof.
  revert n. induction s as [|b s IH]; intros n; simpl; [done|].
  destruct (ascii_dec b c) as [->|Hne].
  - intros [= <-]. simpl. split_and!; [done | lia | done].
  - destruct (bytes_IndexByte s c) as [m|]; simpl; [|done]. intros [= <-].
    destruct (IH m eq_refl) as (?&?&Ht). simpl. destruct (ascii_dec b c); [done|].
    rewrite Ht. split_and!; [done | lia | done].
Qed.

Lemma bytes_IndexByte_None s c : bytes_IndexByte s c = None <-> c ∉ s.
Proof.
  induction s as [|b s IH]; simpl; [set_solver|].
  destruct (ascii_dec b c) as [->|Hne]; [set_solver|].
  destruct (bytes_IndexByte s c); simpl; set_solver.
Qed.

Lemma bytes_IndexByte_split s c n :
  bytes_IndexByte s c = Some n -> s = take n s ++ c :: drop (S n) s /\ c ∉ take n s.
Proof.
  intros H. apply bytes_IndexByte_Some in H as (Hl & _ & Hn%bytes_IndexByte_None).
  split; [|done]. by rewrite take_drop_middle.
Qed.

Lemma bytes_Count_app s t c : bytes_Count (s ++ t) c = (bytes_Count s c + bytes_Count t c)%nat.
Proof. induction s as [|b s IH]; simpl; [done|]. destruct (ascii_dec b c); simpl; lia. Qed.

#[export] Hint Resolve Z_of_byte_range length_be_put : tsshd.
