(* ===== verification/Wire.v ===== *)
(** * Wire: the framing of tsshd's streams

    Models [proto.go] (errors, [writeAll], the length-prefixed command and
    message frames, the error/response exchange), the packet frames of
    [proxy.go] ([sendUdpPacket], [recvUdpPacket]) and [IsClosedError] of
    [comm.go].

    A reader is the list of chunks its [Read] calls will return and the
    error after the last chunk, so every statement about receiving holds for
    every way the transport may cut the byte stream into reads.  A writer is
    an instance of the class [Sink], which states what the code relies on:
    the bytes accepted are a prefix of the argument, and a call that reports
    no error accepts at least one byte.  JSON is a parameter, the class
    [Codec]. *)

From Stdlib Require Import ZArith Lia Ascii String.
From stdpp Require Import base list strings gmap pretty.
From S2P Require Import Prelude.
Open Scope Z_scope.

(** ** Error codes and error text ([proto.go], [comm.go]) *)

Definition kNoErrorMsg : string := "_TSSHD_NO_ERROR_".

Definition ErrProhibited : Z := 101.
Definition ErrNotPty : Z := 102.

Definition ErrCode_String (c : Z) : string :=
  if c =? ErrProhibited then "ErrProhibited"
  else if c =? ErrNotPty then "ErrNotPty"
  else "ErrCode(" +:+ pretty c +:+ ")".

Definition Error_Error (code : Z) (msg : string) : string :=
  if code =? 0 then msg else ErrCode_String code +:+ ": " +:+ msg.

(** [err.Error()] for the errors of the model. *)
Fixpoint error_text (e : goerr) : string :=
  match e with
  | EOF => "EOF"
  | ErrUnexpectedEOF => "unexpected EOF"
  | ErrShortBuffer => "short buffer"
  | ErrShortWrite => "short write"
  | ErrClosedPipe => "io: read/write on closed pipe"
  | NetErrClosed => "use of closed network connection"
  | StreamError _ text => text
  | Plain msg => msg
  | Wrap pre e => pre +:+ ": " +:+ error_text e
  | TsshdError code msg => Error_Error code msg
  end.

(** The chain [errors.Is] and [errors.As] walk. *)
Fixpoint error_chain (e : goerr) : list goerr :=
  match e with
  | Wrap _ e' => e :: error_chain e'
  | _ => [e]
  end.

Definition errors_Is (e target : goerr) : bool := bool_decide (target ∈ error_chain e).

(** [errors.As(err, &qse)]: the first [*quic.StreamError] of the chain. *)
Fixpoint errors_As_StreamError (e : goerr) : option Z :=
  match e with
  | StreamError code _ => Some code
  | Wrap _ e' => errors_As_StreamError e'
  | _ => None
  end.

Definition strings_Contains (s sub : string) : bool :=
  match bytes_Index (bs s) (bs sub) with Some _ => true | None => false end.

Definition IsClosedError (err : option goerr) : bool :=
  match err with
  | None => false
  | Some e =>
      if errors_Is e EOF then true
      else if errors_Is e NetErrClosed then true
      else if errors_Is e ErrClosedPipe then true
      else if match errors_As_StreamError e with Some code => code =? 0 | None => false end then true
      else if strings_Contains (error_text e) "io: read/write on closed pipe" then true
      else false
  end.

(** ** Readers *)

Record reader := Reader { rd_chunks : list bytes; rd_end : goerr }.

(** One [Read] call with a buffer of [k] bytes. *)
Definition read (r : reader) (k : nat) : reader * (bytes * option goerr) :=
  match rd_chunks r with
  | [] => (r, ([], Some (rd_end r)))
  | c :: cs =>
      if (length c <=? k)%nat then (Reader cs (rd_end r), (c, None))
      else (Reader (drop k c :: cs) (rd_end r), (take k c, None))
  end.

(** [io.ReadFull] on a buffer of [n] bytes: [Read] until it is full. *)
Fixpoint ReadFull_loop (cs : list bytes) (n : nat) (got : bytes) : list bytes * bytes :=
  match n with
  | O => (cs, got)
  | _ =>
      match cs with
      | [] => ([], got)
      | c :: cs' =>
          if (length c <=? n)%nat then ReadFull_loop cs' (n - length c) (got ++ c)
          else (drop n c :: cs', got ++ take n c)
      end
  end.

Definition ReadFull (r : reader) (n : nat) : reader * res bytes :=
  let '(cs, got) := ReadFull_loop (rd_chunks r) n [] in
  (Reader cs (rd_end r),
   if (length got =? n)%nat then Ok got
   else match got, rd_end r with
        | _ :: _, EOF => Err ErrUnexpectedEOF
        | _, e => Err e
        end).

(** The bytes a reader will deliver. *)
Definition rd_bytes (r : reader) : bytes := concat (rd_chunks r).

(** ** Writers *)

Class Sink (W : Type) := {
  sk_write : W -> bytes -> W * (nat * option goerr);
  sk_out : W -> bytes;
  sk_write_out : forall w b w' n e,
    sk_write w b = (w', (n, e)) ->
    (n <= length b)%nat /\ sk_out w' = sk_out w ++ take n b;
  sk_progress : forall w b w' n,
    sk_write w b = (w', (n, None)) -> b <> [] -> (0 < n)%nat
}.

(** ** JSON *)

Class Codec (M : Type) := {
  json_Marshal : M -> res bytes;
  json_Unmarshal : bytes -> res M
}.

(** What the code relies on: a marshalled message decodes to itself. *)
Class CodecOk (M : Type) `{Codec M} :=
  json_roundtrip : forall m b, json_Marshal m = Ok b -> json_Unmarshal b = Ok m.

(** ** Sending *)

Section Send.
Context {W : Type} `{Sink W}.

(** [None] stands for a loop that has not ended within the fuel. *)
Fixpoint writeAll_loop (fuel : nat) (w : W) (data : bytes) : option (W * option goerr) :=
  match data with
  | [] => Some (w, None)
  | _ =>
      match fuel with
      | O => None
      | S fuel' =>
          match sk_write w data with
          | (w', (_, Some e)) => Some (w', Some e)
          | (w', (n, None)) => writeAll_loop fuel' w' (drop n data)
          end
      end
  end.

Definition writeAll (w : W) (data : bytes) : option (W * option goerr) :=
  writeAll_loop (length data) w data.

Definition wrap_result (pre : string) (r : option (W * option goerr)) : option (W * option goerr) :=
  match r with
  | Some (w, Some e) => Some (w, Some (Wrap pre e))
  | _ => r
  end.

Definition sendCommand (stream : W) (command : string) : option (W * option goerr) :=
  if (String.length command =? 0)%nat then Some (stream, Some (Plain "send command is empty"))
  else if (255 <? String.length command)%nat
  then Some (stream, Some (Plain ("send command too long: " +:+ command)))
  else
    let buffer := byte_of_Z (Z.of_nat (String.length command)) :: bs command in
    wrap_result "send command write buffer failed" (writeAll stream buffer).

Definition sendMessage {M} `{Codec M} (stream : W) (msg : M) : option (W * option goerr) :=
  match json_Marshal msg with
  | Err e => Some (stream, Some (Wrap "send message marshal failed" e))
  | Ok msgBuf =>
      let buffer := be_put 4 (u32 (Z.of_nat (length msgBuf))) ++ msgBuf in
      wrap_result "send message write buffer failed" (writeAll stream buffer)
  end.

Definition sendCommandAndMessage {M} `{Codec M} (stream : W) (command : string) (msg : M)
  : option (W * option goerr) :=
  if (String.length command =? 0)%nat then Some (stream, Some (Plain "send command is empty"))
  else if (255 <? String.length command)%nat
  then Some (stream, Some (Plain ("send command too long: " +:+ command)))
  else
    match json_Marshal msg with
    | Err e => Some (stream, Some (Wrap "send message marshal failed" e))
    | Ok msgBuf =>
        let buffer := (byte_of_Z (Z.of_nat (String.length command)) :: bs command)
                        ++ be_put 4 (u32 (Z.of_nat (length msgBuf))) ++ msgBuf in
        wrap_result "send command and message failed" (writeAll stream buffer)
    end.

(** A packet is written with one [Write]; a short write is an error, never a
    retry. *)
Definition sendUdpPacket (conn : W) (data : bytes) : W * option goerr :=
  let buf := be_put 2 (u16 (Z.of_nat (length data))) ++ data in
  match sk_write conn buf with
  | (w, (_, Some e)) => (w, Some e)
  | (w, (n, None)) => if (n =? length buf)%nat then (w, None) else (w, Some ErrShortWrite)
  end.

End Send.

(** ** Receiving *)

Definition recvCommand (stream : reader) : reader * res string :=
  let '(r1, (b, err)) := read stream 1 in
  match err with
  | Some e => (r1, Err (Wrap "recv command read length failed" e))
  | None =>
      (* the one-byte buffer keeps its zero when [Read] returns no byte *)
      let length0 := match b with [] => 0 | c :: _ => Z_of_byte c end in
      match ReadFull r1 (Z.to_nat length0) with
      | (r2, Err e) => (r2, Err (Wrap "recv command read buffer failed" e))
      | (r2, Ok command) => (r2, Ok (string_of_list_ascii command))
      end
  end.

Definition recvMessage {M} `{Codec M} (stream : reader) : reader * res M :=
  match ReadFull stream 4 with
  | (r1, Err e) => (r1, Err (Wrap "recv message read length failed" e))
  | (r1, Ok lenBuf) =>
      match ReadFull r1 (Z.to_nat (be_get lenBuf)) with
      | (r2, Err e) => (r2, Err (Wrap "recv message read buffer failed" e))
      | (r2, Ok msgBuf) =>
          match json_Unmarshal msgBuf with
          | Err e => (r2, Err (Wrap "recv message unmarshal failed" e))
          | Ok msg => (r2, Ok msg)
          end
      end
  end.

(** [recvUdpPacket conn data] with [len(data) = size]; the result is the
    packet, whose length is the [n] the code returns. *)
Definition recvUdpPacket (conn : reader) (size : nat) : reader * res bytes :=
  match ReadFull conn 2 with
  | (r1, Err e) => (r1, Err e)
  | (r1, Ok buf) =>
      let n := be_get buf in
      if (n <? 0) || (Z.of_nat size <? n)
      then (r1, Err (Plain ("decoded frame length out of range: length=" +:+ pretty n
                            +:+ ", buffer=" +:+ pretty (Z.of_nat size))))
      else ReadFull r1 (Z.to_nat n)
  end.

(** ** The error exchange *)

Record errorMessage := ErrorMessage { em_Code : Z; em_Msg : string }.

Definition sendError {W} `{Sink W} `{Codec errorMessage} (stream : W) (err : goerr) :=
  sendMessage stream (ErrorMessage 0 (error_text err)).

Definition sendErrorCode {W} `{Sink W} `{Codec errorMessage} (stream : W) (code : Z) (msg : string) :=
  sendMessage stream (ErrorMessage code msg).

Definition sendSuccess {W} `{Sink W} `{Codec errorMessage} (stream : W) :=
  sendMessage stream (ErrorMessage 0 kNoErrorMsg).

(** [None] is a nil error: the peer reported success. *)
Definition recvError `{Codec errorMessage} (stream : reader) : reader * option goerr :=
  match recvMessage (M := errorMessage) stream with
  | (r, Err e) => (r, Some (Wrap "recv error failed" e))
  | (r, Ok errMsg) =>
      if decide (em_Msg errMsg <> kNoErrorMsg)
      then (r, Some (TsshdError (em_Code errMsg) (em_Msg errMsg)))
      else (r, None)
  end.

(** [errorResponder]: a response embeds an [errorMessage]. *)
Class errorResponder (R : Type) := {
  getErrorMessage : R -> errorMessage;
  setErrorMsg : R -> string -> R;
  get_setErrorMsg : forall r s, em_Msg (getErrorMessage (setErrorMsg r s)) = s
}.

Definition sendResponse {W R} `{Sink W} `{errorResponder R} `{Codec R} (stream : W) (resp : R) :=
  sendMessage stream (setErrorMsg resp kNoErrorMsg).

Definition recvResponse {R} `{errorResponder R} `{Codec R} (stream : reader) : reader * res R :=
  match recvMessage (M := R) stream with
  | (r, Err e) => (r, Err (Wrap "recv response failed" e))
  | (r, Ok resp) =>
      let errMsg := getErrorMessage resp in
      if decide (em_Msg errMsg <> kNoErrorMsg)
      then (r, Err (TsshdError (em_Code errMsg) (em_Msg errMsg)))
      else (r, Ok resp)
  end.

(** ** Frames: what the senders put on the wire *)

Definition command_frame (command : string) : bytes :=
  byte_of_Z (Z.of_nat (String.length command)) :: bs command.

Definition message_frame (msgBuf : bytes) : bytes :=
  be_put 4 (u32 (Z.of_nat (length msgBuf))) ++ msgBuf.

Definition packet_frame (data : bytes) : bytes :=
  be_put 2 (u16 (Z.of_nat (length data))) ++ data.

(** No chunk is empty: [Read] returns at least one byte or an error. *)
Definition proper (r : reader) : Prop := Forall (fun c => c <> []) (rd_chunks r).

#[export] Instance proper_dec r : Decision (proper r).
Proof. unfold proper. apply _. Defined.

(** ** Lemmas *)

Lemma length_bs s : length (bs s) = String.length s.
Proof. unfold bs. induction s; simpl; congruence. Qed.

Lemma string_of_bs s : string_of_list_ascii (bs s) = s.
Proof. apply string_of_list_ascii_of_string. Qed.

Lemma rd_bytes_single b e : rd_bytes (Reader [b] e) = b.
Proof. apply app_nil_r. Qed.

Lemma ReadFull_loop_enough cs n got :
  (n <= length (concat cs))%nat ->
  exists cs', ReadFull_loop cs n got = (cs', got ++ take n (concat cs))
    /\ concat cs' = drop n (concat cs)
    /\ (Forall (fun c => c <> []) cs -> Forall (fun c => c <> []) cs').
Proof.
  revert n got. induction cs as [|c cs IH]; intros n got Hn; destruct n as [|n].
  - exists []. simpl. by rewrite app_nil_r.
  - simpl in Hn. lia.
  - exists (c :: cs). simpl. by rewrite app_nil_r.
  - cbn [ReadFull_loop]. set (m := S n) in *. destruct (length c <=? m)%nat eqn:Hc; bool_to_prop.
    + simpl in Hn. rewrite length_app in Hn.
      destruct (IH (m - length c)%nat (got ++ c)) as (cs' & -> & Hrest & Hp); [lia|].
      exists cs'. simpl. rewrite take_app_ge, drop_app_ge by lia.
      split_and!; [by rewrite app_assoc | done |]. intros Hf. inv Hf. auto.
    + exists (drop m c :: cs). simpl.
      rewrite take_app_le, drop_app_le by lia. split_and!; [done.. |].
      intros Hf. inv Hf. constructor; [|done]. intros Hd.
      apply (f_equal length) in Hd. rewrite length_drop in Hd. simpl in Hd. lia.
Qed.

Lemma ReadFull_loop_short cs n got :
  (length (concat cs) < n)%nat -> ReadFull_loop cs n got = ([], got ++ concat cs).
Proof.
  revert n got. induction cs as [|c cs IH]; intros n got Hn.
  - destruct n; [simpl in Hn; lia |]. simpl. by rewrite app_nil_r.
  - destruct n as [|n]; [lia |]. cbn [ReadFull_loop]. simpl in Hn. rewrite length_app in Hn.
    destruct (length c <=? S n)%nat eqn:Hc; bool_to_prop; [|lia].
    rewrite IH by lia. simpl. by rewrite app_assoc.
Qed.

Lemma ReadFull_enough r n :
  (n <= length (rd_bytes r))%nat ->
  exists r', ReadFull r n = (r', Ok (take n (rd_bytes r)))
    /\ rd_bytes r' = drop n (rd_bytes r) /\ rd_end r' = rd_end r
    /\ (proper r -> proper r').
Proof.
  intros Hn. unfold ReadFull, rd_bytes, proper in *.
  destruct (ReadFull_loop_enough (rd_chunks r) n [] Hn) as (cs' & -> & Hrest & Hp).
  exists (Reader cs' (rd_end r)). cbn [rd_chunks rd_end app].
  rewrite length_take_le by lia. rewrite Nat.eqb_refl. done.
Qed.

Lemma ReadFull_short r n :
  (length (rd_bytes r) < n)%nat ->
  ReadFull r n =
    (Reader [] (rd_end r),
     Err (match rd_bytes r, rd_end r with _ :: _, EOF => ErrUnexpectedEOF | _, e => e end)).
Proof.
  intros Hn. unfold ReadFull, rd_bytes in *.
  rewrite (ReadFull_loop_short _ _ _ Hn). cbn [app].
  destruct (Nat.eqb_spec (length (concat (rd_chunks r))) n); [lia |].
  destruct (concat (rd_chunks r)), (rd_end r); done.
Qed.

(** A reader whose next bytes are [a] reads exactly [a]. *)
Lemma ReadFull_app r a rest :
  rd_bytes r = a ++ rest ->
  exists r', ReadFull r (length a) = (r', Ok a)
    /\ rd_bytes r' = rest /\ (proper r -> proper r').
Proof.
  intros Hr. destruct (ReadFull_enough r (length a)) as (r' & Heq & Hb & _ & Hp).
  - rewrite Hr, length_app. lia.
  - exists r'. rewrite Heq, Hb, Hr. by rewrite take_app_length, drop_app_length.
Qed.

Lemma read_one r b rest :
  rd_bytes r = b :: rest -> proper r ->
  exists r', read r 1 = (r', ([b], None)) /\ rd_bytes r' = rest /\ proper r'.
Proof.
  unfold rd_bytes, proper, read. destruct r as [cs e]. cbn [rd_chunks rd_end].
  destruct cs as [|c cs]; [done|]. intros Hr Hp. inv Hp.
  destruct c as [|b' c]; [done|]. simpl in Hr. simplify_eq.
  destruct c as [|b2 c]; simpl.
  - by exists (Reader cs e).
  - exists (Reader ((b2 :: c) :: cs) e). split_and!; [done.. |]. by constructor.
Qed.

Lemma recvCommand_frame r command rest :
  rd_bytes r = command_frame command ++ rest -> proper r ->
  (String.length command <= 255)%nat ->
  exists r', recvCommand r = (r', Ok command) /\ rd_bytes r' = rest /\ proper r'.
Proof.
  intros Hr Hp Hlen. unfold recvCommand.
  destruct (read_one r _ _ Hr Hp) as (r1 & -> & Hb & Hp1).
  rewrite Z_of_byte_of_Z, Z.mod_small, Nat2Z.id, <- length_bs by lia.
  destruct (ReadFull_app r1 _ _ Hb) as (r2 & -> & Hb2 & Hp2).
  exists r2. rewrite string_of_bs. auto.
Qed.

Lemma recvMessage_frame `{CodecOk M} r (msg : M) msgBuf rest :
  json_Marshal msg = Ok msgBuf -> Z.of_nat (length msgBuf) < 2 ^ 32 ->
  rd_bytes r = message_frame msgBuf ++ rest ->
  exists r', recvMessage r = (r', Ok msg) /\ rd_bytes r' = rest /\ (proper r -> proper r').
Proof.
  intros Hm Hlen Hr. unfold recvMessage, message_frame in *.
  rewrite <- app_assoc in Hr.
  destruct (ReadFull_app r _ _ Hr) as (r1 & Heq & Hb1 & Hp1).
  rewrite length_be_put in Heq. rewrite Heq.
  rewrite be_get_put_small by (rewrite uwrap_small by lia; change (256 ^ Z.of_nat 4) with (2 ^ 32); lia).
  rewrite uwrap_small, Nat2Z.id by lia.
  destruct (ReadFull_app r1 _ _ Hb1) as (r2 & -> & Hb2 & Hp2).
  rewrite (json_roundtrip _ _ Hm). exists r2. auto.
Qed.

Lemma recvUdpPacket_frame r data rest size :
  (length data <= size)%nat -> Z.of_nat (length data) < 2 ^ 16 ->
  rd_bytes r = packet_frame data ++ rest ->
  exists r', recvUdpPacket r size = (r', Ok data) /\ rd_bytes r' = rest.
Proof.
  intros Hsize Hlen Hr. unfold recvUdpPacket, packet_frame in *. rewrite <- app_assoc in Hr.
  destruct (ReadFull_app r _ _ Hr) as (r1 & Heq & Hb1 & _). rewrite length_be_put in Heq.
  rewrite Heq.
  rewrite be_get_put_small by (rewrite uwrap_small by lia; change (256 ^ Z.of_nat 2) with (2 ^ 16); lia).
  rewrite uwrap_small by lia.
  destruct (Z.ltb_spec (Z.of_nat (length data)) 0); [lia|].
  destruct (Z.ltb_spec (Z.of_nat size) (Z.of_nat (length data))); [lia|]. simpl.
  rewrite Nat2Z.id. destruct (ReadFull_app r1 _ _ Hb1) as (r2 & -> & Hb2 & _). eauto.
Qed.

Section SendLemmas.
Context {W : Type} `{HS : Sink W}.

Lemma writeAll_loop_spec fuel w data :
  (length data <= fuel)%nat ->
  exists w' e, writeAll_loop fuel w data = Some (w', e)
    /\ (e = None -> sk_out w' = sk_out w ++ data)
    /\ exists k, (k <= length data)%nat /\ sk_out w' = sk_out w ++ take k data.
Proof.
  revert w data. induction fuel as [|fuel IH]; intros w data Hf.
  { destruct data; simpl in Hf; [|lia]. exists w, None. simpl. rewrite app_nil_r.
    split_and!; [done.. |]. exists 0%nat. by rewrite app_nil_r. }
  destruct data as [|b data].
  { exists w, None. simpl. rewrite app_nil_r. split_and!; [done..|]. exists 0%nat. by rewrite app_nil_r. }
  cbn [writeAll_loop]. set (d := b :: data) in *.
  destruct (sk_write w d) as [w1 [n [e|]]] eqn:Hw;
    destruct (sk_write_out _ _ _ _ _ Hw) as [Hn Hout].
  - exists w1, (Some e). split_and!; [done|done|]. by exists n.
  - assert (0 < n)%nat by (apply (sk_progress _ _ _ _ Hw); done).
    destruct (IH w1 (drop n d)) as (w' & e & -> & Hok & k & Hk & Hpre).
    { rewrite length_drop. lia. }
    rewrite length_drop in Hk. rewrite Hout, <- app_assoc in Hpre.
    exists w', e. split_and!; [done | |].
    + intros ->. rewrite Hok, Hout, <- app_assoc by done. by rewrite take_drop.
    + exists (n + k)%nat. split; [lia |]. rewrite Hpre. by rewrite take_take_drop.
Qed.

Lemma writeAll_ok w data w' :
  writeAll w data = Some (w', None) -> sk_out w' = sk_out w ++ data.
Proof.
  intros Hw. destruct (writeAll_loop_spec (length data) w data) as (w1 & e & Heq & Hok & _); [lia|].
  unfold writeAll in Hw. simplify_eq. auto.
Qed.

Lemma wrap_result_ok pre (r : option (W * option goerr)) w : wrap_result pre r = Some (w, None) <-> r = Some (w, None).
Proof. destruct r as [[? [?|]]|]; simpl; naive_solver. Qed.

Lemma sendCommand_ok w command w' :
  sendCommand w command = Some (w', None) ->
  (0 < String.length command <= 255)%nat /\ sk_out w' = sk_out w ++ command_frame command.
Proof.
  unfold sendCommand. repeat case_match; try done; bool_to_prop.
  intros Hw%wrap_result_ok%writeAll_ok. split; [lia | done].
Qed.

Lemma sendMessage_ok `{Codec M} w (msg : M) w' :
  sendMessage w msg = Some (w', None) ->
  exists msgBuf, json_Marshal msg = Ok msgBuf /\ sk_out w' = sk_out w ++ message_frame msgBuf.
Proof.
  unfold sendMessage. destruct (json_Marshal msg) as [b|]; [|done].
  intros Hw%wrap_result_ok%writeAll_ok. eauto.
Qed.

Lemma sendCommandAndMessage_ok `{Codec M} w command (msg : M) w' :
  sendCommandAndMessage w command msg = Some (w', None) ->
  (0 < String.length command <= 255)%nat /\
  exists msgBuf, json_Marshal msg = Ok msgBuf
    /\ sk_out w' = sk_out w ++ command_frame command ++ message_frame msgBuf.
Proof.
  unfold sendCommandAndMessage. repeat case_match; try done; bool_to_prop.
  intros Hw%wrap_result_ok%writeAll_ok. split; [lia|]. eauto.
Qed.

Lemma sendUdpPacket_ok w data w' :
  sendUdpPacket w data = (w', None) -> sk_out w' = sk_out w ++ packet_frame data.
Proof.
  unfold sendUdpPacket. change (be_put 2 _ ++ data) with (packet_frame data).
  destruct (sk_write _ _) as [w1 [n [e|]]] eqn:Hw; [done|].
  destruct (Nat.eqb_spec n (length (packet_frame data))) as [->|]; [|done]. intros [= <-].
  apply sk_write_out in Hw as [_ ->]. by rewrite firstn_all.
Qed.

(** Sending a list of packets one after the other. *)
Fixpoint sendUdpPackets (w : W) (ps : list bytes) : W * option goerr :=
  match ps with
  | [] => (w, None)
  | p :: ps' =>
      match sendUdpPacket w p with
      | (w', None) => sendUdpPackets w' ps'
      | (w', Some e) => (w', Some e)
      end
  end.

Lemma sendUdpPackets_ok ps w w' :
  sendUdpPackets w ps = (w', None) -> sk_out w' = sk_out w ++ concat (packet_frame <$> ps).
Proof.
  revert w. induction ps as [|p ps IH]; intros w; simpl.
  - intros [= <-]. by rewrite app_nil_r.
  - destruct (sendUdpPacket w p) as [w1 [e|]] eqn:Hp; [done|].
    intros ->%IH. apply sendUdpPacket_ok in Hp. by rewrite Hp, <- app_assoc.
Qed.
End SendLemmas.

(** Receiving [k] packets with a buffer of [size] bytes each time. *)
Fixpoint recvUdpPackets (r : reader) (size k : nat) : reader * res (list bytes) :=
  match k with
  | O => (r, Ok [])
  | S k' =>
      match recvUdpPacket r size with
      | (r', Err e) => (r', Err e)
      | (r', Ok p) =>
          match recvUdpPackets r' size k' with
          | (r2, Ok ps) => (r2, Ok (p :: ps))
          | (r2, Err e) => (r2, Err e)
          end
      end
  end.

Lemma recvUdpPackets_frames r ps rest size :
  Forall (fun p => (length p <= size)%nat /\ Z.of_nat (length p) < 2 ^ 16) ps ->
  rd_bytes r = concat (packet_frame <$> ps) ++ rest ->
  exists r', recvUdpPackets r size (length ps) = (r', Ok ps) /\ rd_bytes r' = rest.
Proof.
  revert r. induction ps as [|p ps IH]; intros r Hf Hr; simpl in *; [by exists r |].
  inv Hf. rewrite <- app_assoc in Hr.
  destruct (recvUdpPacket_frame r p _ size ltac:(tauto) ltac:(tauto) Hr) as (r1 & -> & Hr1).
  destruct (IH r1) as (r2 & -> & ?); eauto.
Qed.

(** ** A concrete transport for the witnesses

    [chunk_writer] accepts at most [S cw_max] bytes per call, [raw_codec]
    sends a byte string as it is, and [errorMessage_codec] is a fixed-width
    encoding of an error message. *)
Module Loopback.
Record chunk_writer := ChunkWriter { cw_max : nat; cw_out : bytes }.

#[export,refine] Instance chunk_writer_sink : Sink chunk_writer := {
  sk_write w b :=
    (ChunkWriter (cw_max w) (cw_out w ++ take (S (cw_max w)) b),
     (Nat.min (S (cw_max w)) (length b), None));
  sk_out := cw_out
}.
Proof.
  - intros w b w' n e [<- [<- _]%pair_eq]%pair_eq. cbn [cw_out]. split; [lia |].
    f_equal. destruct (decide (length b <= S (cw_max w))%nat).
    + rewrite Nat.min_r by done. by rewrite firstn_all, take_ge.
    + by rewrite Nat.min_l by lia.
  - intros w b w' n [= <- <-] Hb. destruct b; [done|]. simpl. lia.
Defined.

Lemma sendUdpPacket_unsplit m data :
  (length (packet_frame data) <= S m)%nat ->
  sendUdpPacket (ChunkWriter m []) data = (ChunkWriter m (packet_frame data), None).
Proof.
  intros Hm. unfold sendUdpPacket. change (be_put 2 _ ++ data) with (packet_frame data).
  unfold sk_write, chunk_writer_sink. cbn [cw_max cw_out].
  rewrite Nat.min_r, take_ge by lia. by rewrite Nat.eqb_refl.
Qed.

#[export] Instance raw_codec : Codec bytes := {
  json_Marshal b := Ok b;
  json_Unmarshal b := Ok b
}.

#[export] Instance raw_codec_ok : CodecOk bytes.
Proof. intros m b [= <-]. done. Qed.

#[export] Instance errorMessage_codec : Codec errorMessage := {
  json_Marshal m :=
    if (0 <=? em_Code m) && (em_Code m <? 2 ^ 64)
    then Ok (be_put 8 (em_Code m) ++ bs (em_Msg m)) else Err (Plain "code");
  json_Unmarshal b :=
    Ok (ErrorMessage (be_get (take 8 b)) (string_of_list_ascii (drop 8 b)))
}.

#[export] Instance errorMessage_codec_ok : CodecOk errorMessage.
Proof.
  intros [c m] b. cbn [json_Marshal json_Unmarshal errorMessage_codec em_Code em_Msg].
  destruct ((0 <=? c) && (c <? 2 ^ 64)) eqn:Hc; [|discriminate].
  apply andb_true_iff in Hc as [H1%Z.leb_le H2%Z.ltb_lt]. intros Hb.
  assert (b = be_put 8 c ++ bs m) as -> by congruence.
  rewrite take_app_length', drop_app_length' by (symmetry; apply length_be_put).
  rewrite string_of_bs, be_get_put_small; [done|]. change (256 ^ Z.of_nat 8) with (2 ^ 64). lia.
Qed.
End Loopback.

(** ** Properties *)

(** [writeAll] always returns, whatever partial writes the transport
    makes.  When it reports no error every byte of the buffer has been
    accepted, in order and once; when it reports an error, what was accepted
    is a prefix of the buffer. *)
Theorem writeAll_total {W} `{Sink W} (w : W) (data : bytes) :
  exists w' e, writeAll w data = Some (w', e)
    /\ (e = None -> sk_out w' = sk_out w ++ data)
    /\ exists k, (k <= length data)%nat /\ sk_out w' = sk_out w ++ take k data.
Proof. apply writeAll_loop_spec. lia. Qed.

(** A command and message sent with [sendCommandAndMessage] are read back
    by [recvCommand] followed by [recvMessage], however the transport splits
    the bytes into reads, and the reader is left exactly at the end of the
    frame.  The JSON text must be shorter than 4 GiB, the width of its length
    field. *)
Theorem command_message_roundtrip {W M} `{Sink W} `{CodecOk M}
  (w w' : W) (command : string) (msg : M) (msgBuf rest : bytes) (r : reader) :
  sendCommandAndMessage w command msg = Some (w', None) ->
  json_Marshal msg = Ok msgBuf -> Z.of_nat (length msgBuf) < 2 ^ 32 ->
  sk_out w ++ rd_bytes r = sk_out w' ++ rest -> proper r ->
  exists r1 r2, recvCommand r = (r1, Ok command) /\ recvMessage r1 = (r2, Ok msg)
    /\ rd_bytes r2 = rest /\ proper r2.
Proof.
  intros (Hlen & b & Hb & Hout)%sendCommandAndMessage_ok Hm Hsz Hr Hp.
  rewrite Hout, <- !app_assoc in Hr. apply app_inv_head in Hr.
  destruct (recvCommand_frame r command _ Hr Hp ltac:(lia)) as (r1 & ? & Hr1 & Hp1).
  assert (b = msgBuf) as -> by congruence.
  destruct (recvMessage_frame r1 msg msgBuf rest Hm Hsz Hr1) as (r2 & ? & ? & ?).
  exists r1, r2. auto.
Qed.

(** Packets sent with [sendUdpPacket] over a byte stream come back one by
    one from [recvUdpPacket], in order and unchanged, for every splitting of
    the stream into reads, when each fits the receive buffer and the 16-bit
    length field. *)
Theorem udp_packets_roundtrip {W} `{Sink W} (w w' : W) (ps : list bytes)
  (rest : bytes) (size : nat) (r : reader) :
  sendUdpPackets w ps = (w', None) ->
  Forall (fun p => (length p <= size)%nat /\ Z.of_nat (length p) < 2 ^ 16) ps ->
  sk_out w ++ rd_bytes r = sk_out w' ++ rest ->
  exists r', recvUdpPackets r size (length ps) = (r', Ok ps) /\ rd_bytes r' = rest.
Proof.
  intros Hs%sendUdpPackets_ok Hf Hr. rewrite Hs, <- app_assoc in Hr.
  apply app_inv_head in Hr. by apply recvUdpPackets_frames.
Qed.

(** The length field of a packet frame is 16 bits wide and
    [sendUdpPacket] does not check the length: a packet of 65536 + k bytes is
    sent without an error, and the receiver gets its first k bytes as a packet
    and then reads the remaining 65536 bytes as the next frames. *)
Theorem udp_packet_overlong_desync {W} `{Sink W} (w w' : W) (data : bytes) (k size : nat) (r : reader) :
  sendUdpPacket w data = (w', None) ->
  length data = (Z.to_nat 65536 + k)%nat -> Z.of_nat k < 2 ^ 16 -> (k <= size)%nat ->
  sk_out w ++ rd_bytes r = sk_out w' ->
  exists r', recvUdpPacket r size = (r', Ok (take k data))
    /\ rd_bytes r' = drop k data /\ length (rd_bytes r') = Z.to_nat 65536.
Proof.
  intros Hs%sendUdpPacket_ok Hlen Hk Hsz Hr. rewrite Hs in Hr. apply app_inv_head in Hr.
  assert (Hf : rd_bytes r = packet_frame (take k data) ++ drop k data).
  { rewrite Hr. unfold packet_frame. rewrite <- app_assoc, take_drop. f_equal. f_equal.
    rewrite length_take_le, Hlen by lia. unfold uwrap.
    rewrite Nat2Z.inj_add, Z2Nat.id by lia. change 65536 with (1 * 2 ^ 16).
    by rewrite Z.add_comm, Z.mod_add by lia. }
  destruct (recvUdpPacket_frame r (take k data) (drop k data) size) as (r' & ? & Hb); [| | exact Hf |].
  1, 2: rewrite length_take_le; lia.
  exists r'. rewrite Hb, length_drop. split_and!; [done | done | lia].
Qed.

(** The error exchange.  After [sendSuccess] the peer's [recvError] returns
    nil; after [sendErrorCode] it returns an [Error] with the same code and
    message, unless the message is the reserved success string, which is read
    as success. *)
Theorem error_exchange {W} `{Sink W} `{CodecOk errorMessage} (w w' : W) (code : Z) (msg : string)
  (msgBuf rest : bytes) (r : reader) :
  json_Marshal (ErrorMessage code msg) = Ok msgBuf -> Z.of_nat (length msgBuf) < 2 ^ 32 ->
  sendErrorCode w code msg = Some (w', None) ->
  sk_out w ++ rd_bytes r = sk_out w' ++ rest ->
  exists r', rd_bytes r' = rest /\
    recvError r = (r', if decide (msg = kNoErrorMsg) then None else Some (TsshdError code msg)).
Proof.
  intros Hm Hsz (b & Hb & Hout)%sendMessage_ok Hr.
  rewrite Hout, <- app_assoc in Hr. apply app_inv_head in Hr.
  assert (b = msgBuf) as -> by congruence.
  destruct (recvMessage_frame r _ _ _ Hm Hsz Hr) as (r' & Heq & Hrest & _).
  exists r'. split; [done|]. unfold recvError. rewrite Heq. simpl.
  repeat case_decide; done || tauto.
Qed.

(** ** Witnesses: the properties at concrete inputs *)

Import Loopback.

Lemma command_message_roundtrip_witness :
  exists r1 r2,
    recvCommand (Reader [byte_of_Z 6 :: bs "re"; bs "size"; be_put 4 6; bs "{id:"; bs "7}tail"] EOF)
      = (r1, Ok "resize"%string)
    /\ recvMessage (M := bytes) r1 = (r2, Ok (bs "{id:7}")) /\ rd_bytes r2 = bs "tail".
Proof.
  destruct (command_message_roundtrip (Loopback.ChunkWriter 2 [])
    (Loopback.ChunkWriter 2 (command_frame "resize" ++ message_frame (bs "{id:7}")))
    "resize" (bs "{id:7}") (bs "{id:7}") (bs "tail")
    (Reader [byte_of_Z 6 :: bs "re"; bs "size"; be_put 4 6; bs "{id:"; bs "7}tail"] EOF))
    as (r1 & r2 & H1 & H2 & H3 & _).
  - vm_compute. reflexivity.
  - reflexivity.
  - simpl. lia.
  - vm_compute. reflexivity.
  - vm_compute. repeat constructor; discriminate.
  - exists r1, r2. auto.
Defined.

Lemma udp_packets_roundtrip_witness :
  exists r', recvUdpPackets (Reader [be_put 2 3 ++ bs "a"; bs "bc"; be_put 2 0; be_put 2 1 ++ bs "dX"] EOF) 10 3
             = (r', Ok [bs "abc"; []; bs "d"]) /\ rd_bytes r' = bs "X".
Proof.
  apply (udp_packets_roundtrip (Loopback.ChunkWriter 99 [])
           (Loopback.ChunkWriter 99 (concat (packet_frame <$> [bs "abc"; []; bs "d"])))
           [bs "abc"; []; bs "d"]).
  - vm_compute. reflexivity.
  - repeat constructor; simpl; lia.
  - vm_compute. reflexivity.
Defined.

Lemma udp_packet_overlong_desync_witness :
  let data := repeat LF (Z.to_nat 65536 + 2) in
  exists r', recvUdpPacket (Reader [packet_frame data] EOF) 100 = (r', Ok (take 2 data))
    /\ rd_bytes r' = drop 2 data /\ length (rd_bytes r') = Z.to_nat 65536.
Proof.
  intros data.
  apply (udp_packet_overlong_desync (ChunkWriter (length (packet_frame data)) [])
           (ChunkWriter (length (packet_frame data)) (packet_frame data)) data 2 100).
  - apply sendUdpPacket_unsplit, Nat.le_succ_diag_r.
  - apply repeat_length.
  - reflexivity.
  - lia.
  - exact (rd_bytes_single (packet_frame data) EOF).
Defined.

Lemma error_exchange_witness :
  exists r', rd_bytes r' = [] /\
    recvError (Reader [message_frame (be_put 8 102 ++ bs "not a pty session")] EOF)
    = (r', Some (TsshdError 102 "not a pty session")).
Proof.
  destruct (error_exchange (Loopback.ChunkWriter 0 [])
    (Loopback.ChunkWriter 0 (message_frame (be_put 8 102 ++ bs "not a pty session")))
    102 "not a pty session" (be_put 8 102 ++ bs "not a pty session") []
    (Reader [message_frame (be_put 8 102 ++ bs "not a pty session")] EOF)) as (r' & H1 & H2).
  - vm_compute. reflexivity.
  - vm_compute. reflexivity.
  - vm_compute. reflexivity.
  - vm_compute. reflexivity.
  - exists r'. split; [exact H1 | exact H2].
Defined.
