(* ===== verification/Marker.v ===== *)
(** * Marker: discarding stale input and output up to a marker

    After a reconnect both directions of a session are resynchronised with a
    marker.  Output: [SshUdpSession.RedrawScreen] stores a marker in the
    client's [clientOutputForwarder], which drops everything up to it
    ([output.go]).  Input: [sshUdpServer.enablePendingInputDiscard] stores a
    marker in the session, the client's [forwardInput] sends it ahead of the
    next input ([client.go]) and the server's [forwardInput] and
    [discardPendingInput] drop everything up to it ([session.go]).

    A run is a list of reads, each with what the environment does during it;
    the theorems hold for every way the transport cuts the stream into reads. *)

From Stdlib Require Import ZArith Lia Ascii String.
From stdpp Require Import base list strings gmap.
From S2P Require Import Prelude.
Open Scope Z_scope.

(** ** The client's output forwarder ([output.go]) *)

Record clientOutputForwarder := ClientOutputForwarder {
  cof_marker : option bytes;
  cof_cacheBuf : bytes;
  cof_discardLines : Z;
  cof_discardBytes : Z
}.

(** One pass of the loop of [forward]: the result of [Read], the marker a
    concurrent [RedrawScreen] stores between the [Load] and the
    [CompareAndSwap], and whether [writeAll] to the session pipe succeeds. *)
Record cof_read := CofRead {
  cr_buf : bytes;
  cr_err : option goerr;
  cr_race : option bytes;
  cr_writeOk : bool
}.

(** What one pass does to the outside: bytes handed to the session pipe and
    the discard callback, [discardCallback(nil, lines, bytes)]. *)
Record cof_out := CofOut { co_written : bytes; co_callback : list (Z * Z) }.

Definition cof_none : cof_out := CofOut [] [].

(** The boolean of the result is false when the loop ends ([break]). *)
Definition cof_step (hasCallback : bool) (f : clientOutputForwarder) (r : cof_read)
  : clientOutputForwarder * cof_out * bool :=
  let onErr := match cr_err r with Some _ => false | None => true end in
  match cr_buf r with
  | [] => (f, cof_none, onErr)
  | buf =>
      match cof_marker f with
      | Some marker =>
          let cacheBuf := cof_cacheBuf f ++ buf in
          match bytes_Index cacheBuf marker with
          | Some pos =>
              let lines := if hasCallback
                then u64 (cof_discardLines f + Z.of_nat (bytes_Count (take pos cacheBuf) LF))
                else cof_discardLines f in
              let nbytes := if hasCallback
                then u64 (cof_discardBytes f + Z.of_nat pos) else cof_discardBytes f in
              let rest := drop (pos + length marker) cacheBuf in
              match cr_race r with
              | Some marker2 =>
                  (* CompareAndSwap fails: the new marker stays *)
                  (ClientOutputForwarder (Some marker2) rest lines nbytes, cof_none, true)
              | None =>
                  (ClientOutputForwarder None [] 0 0,
                   CofOut rest (if hasCallback then [(u64 (lines + 1), nbytes)] else []),
                   cr_writeOk r)
              end
          | None =>
              let keepLen := (length marker - 1)%nat in
              if (keepLen <? length cacheBuf)%nat then
                let pos := (length cacheBuf - keepLen)%nat in
                let lines := if hasCallback
                  then u64 (cof_discardLines f + Z.of_nat (bytes_Count (take pos cacheBuf) LF))
                  else cof_discardLines f in
                let nbytes := if hasCallback
                  then u64 (cof_discardBytes f + Z.of_nat pos) else cof_discardBytes f in
                (ClientOutputForwarder (cof_marker f) (drop pos cacheBuf) lines nbytes,
                 cof_none, true)
              else
                (ClientOutputForwarder (cof_marker f) cacheBuf
                   (cof_discardLines f) (cof_discardBytes f), cof_none, true)
          end
      | None =>
          (f, CofOut buf [], if cr_writeOk r then onErr else false)
      end
  end.

(** The loop over the reads of a run; it ends at the first [break]. *)
Fixpoint cof_forward (hasCallback : bool) (f : clientOutputForwarder) (rs : list cof_read)
  : clientOutputForwarder * cof_out :=
  match rs with
  | [] => (f, cof_none)
  | r :: rs' =>
      let '(f1, o1, go) := cof_step hasCallback f r in
      if go then
        let '(f2, o2) := cof_forward hasCallback f1 rs' in
        (f2, CofOut (co_written o1 ++ co_written o2) (co_callback o1 ++ co_callback o2))
      else (f1, o1)
  end.

(** ** The discard marker index ([session.go]) *)

Definition marker_byte (idx : Z) (i : Z) : Z := Z.land (Z.shiftr idx (i * 8)) 255.

Definition bad_byte (b : Z) : bool := (b =? 59) || (b =? 13).

(** The loop of [getNextDiscardMarkerIndex], from byte [i] down to byte 0. *)
Fixpoint marker_skip (i : nat) (idx : Z) : Z :=
  let shift := Z.of_nat i * 8 in
  if bad_byte (marker_byte idx (Z.of_nat i))
  then u32 (Z.shiftl (u32 (Z.shiftr idx shift + 1)) shift)
  else match i with O => idx | S i' => marker_skip i' idx end.

(** The global [discardMarkerCurrentIndex] before and after: the result is
    both the new global and what is returned. *)
Definition getNextDiscardMarkerIndex (cur : Z) : Z := marker_skip 3 (u32 (cur + 1)).

(** The marker [enablePendingInputDiscard] builds from the index. *)
Definition discard_marker (idx : Z) : bytes :=
  (byte_of_Z <$> [255; 192; 193; 255])
    ++ (byte_of_Z <$> [Z.shiftr idx 24; Z.shiftr idx 16; Z.shiftr idx 8; idx]).

(** ** The server's input side ([session.go]) *)

Record session_input := SessionInput {
  si_server : bool;                 (* c.server.Load() != nil *)
  si_discardMarker : option bytes;
  si_discardedInput : bytes
}.

(** Effects: bytes handed to the session's stdin, and the [DiscardedInput]
    field of the bus messages sent to the client. *)
Record si_out := SiOut { so_stdin : bytes; so_discarded : list bytes }.

Definition si_none : si_out := SiOut [] [].

(** One read of [forwardInput] with the result of the [writeAll] to stdin.
    [race] is the marker another [enablePendingInputDiscard] stores before
    the final [CompareAndSwap]. *)
Definition discardPendingInput (c : session_input) (buf marker : bytes) (race : option bytes)
  (writeOk : bool) : session_input * si_out * bool :=
  let all := si_discardedInput c ++ buf in
  match bytes_Index all marker with
  | None => (SessionInput (si_server c) (si_discardMarker c) all, si_none, true)
  | Some pos =>
      let remainingBuffer := drop (pos + length marker) all in
      if match remainingBuffer with [] => false | _ => negb writeOk end
      then (SessionInput (si_server c) (si_discardMarker c) all,
            SiOut remainingBuffer [], false)
      else
        (SessionInput (si_server c) race [],
         SiOut remainingBuffer (if (0 <? pos)%nat then [take pos all] else []), true)
  end.

Record si_read := SiRead {
  sr_buf : bytes;
  sr_err : option goerr;
  sr_race : option bytes;
  sr_writeOk : bool
}.

Definition forwardInput_step (c : session_input) (r : si_read) : session_input * si_out * bool :=
  let onErr := match sr_err r with Some _ => false | None => true end in
  match sr_buf r with
  | [] => (c, si_none, onErr)
  | buf =>
      if negb (si_server c) then (c, si_none, true)
      else match si_discardMarker c with
           | Some marker => discardPendingInput c buf marker (sr_race r) (sr_writeOk r)
           | None => (c, SiOut buf [], if sr_writeOk r then onErr else false)
           end
  end.

Fixpoint forwardInput (c : session_input) (rs : list si_read) : session_input * si_out :=
  match rs with
  | [] => (c, si_none)
  | r :: rs' =>
      let '(c1, o1, go) := forwardInput_step c r in
      if go then
        let '(c2, o2) := forwardInput c1 rs' in
        (c2, SiOut (so_stdin o1 ++ so_stdin o2) (so_discarded o1 ++ so_discarded o2))
      else (c1, o1)
  end.

(** ** The client's input side ([client.go], [SshUdpSession.forwardInput]) *)

(** One read of the local stdin: the bytes, whether the server checker is in
    timeout, whether pending input is kept, whether waiting for the reconnect
    fails, and whether the two writes to the stream succeed. *)
Record ci_read := CiRead {
  ci_buf : bytes;
  ci_err : option goerr;
  ci_timeout : bool;
  ci_keepPendingInput : bool;
  ci_waitErr : bool;
  ci_markerWriteOk : bool;
  ci_writeOk : bool
}.

(** Effects: bytes handed to the stream, and input reported as discarded. *)
Record ci_out := CiOut { cio_stream : bytes; cio_discarded : list bytes }.

Definition ci_none : ci_out := CiOut [] [].

Definition client_forwardInput_step (hasCallback : bool) (inputMarker : option bytes) (r : ci_read)
  : option bytes * ci_out * bool :=
  let onErr := match ci_err r with Some _ => false | None => true end in
  match ci_buf r with
  | [] => (inputMarker, ci_none, onErr)
  | buf =>
      if ci_timeout r && negb (ci_keepPendingInput r)
      then (inputMarker, CiOut [] (if hasCallback then [buf] else []), true)
      else if ci_timeout r && ci_waitErr r then (inputMarker, ci_none, false)
      else match inputMarker with
           | Some marker =>
               if ci_markerWriteOk r
               then (None, CiOut (marker ++ buf) [], if ci_writeOk r then onErr else false)
               else (None, CiOut marker [], false)
           | None => (None, CiOut buf [], if ci_writeOk r then onErr else false)
           end
  end.

Fixpoint client_forwardInput (hasCallback : bool) (inputMarker : option bytes) (rs : list ci_read)
  : option bytes * ci_out :=
  match rs with
  | [] => (inputMarker, ci_none)
  | r :: rs' =>
      let '(m1, o1, go) := client_forwardInput_step hasCallback inputMarker r in
      if go then
        let '(m2, o2) := client_forwardInput hasCallback m1 rs' in
        (m2, CiOut (cio_stream o1 ++ cio_stream o2) (cio_discarded o1 ++ cio_discarded o2))
      else (m1, o1)
  end.

(** ** Searching across the seam of two reads *)

Lemma bytes_Index_app_skip a b m :
  (forall i, (i < length a)%nat -> has_prefix (drop i (a ++ b)) m = false) ->
  bytes_Index (a ++ b) m = (fun p => (length a + p)%nat) <$> bytes_Index b m.
Proof.
  induction a as [|c a IH]; intros Hi; simpl app.
  - by destruct (bytes_Index b m).
  - cbn [bytes_Index].
    pose proof (Hi 0%nat ltac:(simpl; lia)) as H0. simpl in H0. rewrite H0.
    rewrite IH.
    + by destruct (bytes_Index b m).
    + intros i Hlt. apply (Hi (S i)). simpl. lia.
Qed.

Lemma bytes_Index_app_Some s t m p :
  bytes_Index s m = Some p -> bytes_Index (s ++ t) m = Some p.
Proof.
  revert p. induction s as [|b s IH]; intros p; cbn [bytes_Index app].
  - destruct m; simpl; [|done]. intros [= <-]. by destruct t.
  - destruct (has_prefix (b :: s) m) eqn:Hp.
    + intros [= <-]. apply has_prefix_spec in Hp as [u Hu].
      rewrite (proj2 (has_prefix_spec (b :: s ++ t) m)); [done|].
      exists (u ++ t). change (b :: s ++ t) with ((b :: s) ++ t). by rewrite Hu, app_assoc.
    + destruct (bytes_Index s m) as [q|] eqn:Hq; [|done]. simpl. intros [= <-].
      pose proof (bytes_Index_Some _ _ _ Hq) as [_ Hl].
      change (b :: s ++ t) with ((b :: s) ++ t).
      rewrite has_prefix_app_l by (simpl; lia). rewrite Hp, (IH q eq_refl). done.
Qed.

(** Keeping the last [length m - 1] bytes of a text without an occurrence of
    [m] is enough to find every occurrence that ends in later text. *)
Lemma bytes_Index_carry s t m :
  bytes_Index s m = None ->
  let n := (length s - (length m - 1))%nat in
  bytes_Index (s ++ t) m = (fun p => (n + p)%nat) <$> bytes_Index (drop n s ++ t) m.
Proof.
  intros Hn n. rewrite <- (take_drop n s) at 1. rewrite <- app_assoc.
  rewrite bytes_Index_app_skip.
  - rewrite length_take_le by lia. done.
  - intros i Hi. rewrite length_take_le in Hi by lia.
    rewrite app_assoc, take_drop, drop_app_le by lia.
    rewrite has_prefix_app_l by (rewrite length_drop; lia).
    apply bytes_Index_None; [done | lia].
Qed.

(** ** The client's output forwarder *)

Definition plain_read (buf : bytes) : cof_read := CofRead buf None None true.

(** The state after the text [s] when no marker has been found in it: the
    last [length m - 1] bytes are cached, the rest is counted. *)
Definition cof_scanning (hasCallback : bool) (m s : bytes) : clientOutputForwarder :=
  let n := (length s - (length m - 1))%nat in
  ClientOutputForwarder (Some m) (drop n s)
    (if hasCallback then u64 (Z.of_nat (bytes_Count (take n s) LF)) else 0)
    (if hasCallback then u64 (Z.of_nat n) else 0).

Definition cof_passing : clientOutputForwarder := ClientOutputForwarder None [] 0 0.

Lemma uwrap_add_l w a b : uwrap w (uwrap w a + b) = uwrap w (a + b).
Proof. unfold uwrap. by rewrite Zplus_mod_idemp_l. Qed.

Lemma take_app_skip {A} (s t : list A) n k :
  (n <= length s)%nat -> take (n + k) (s ++ t) = take n s ++ take k (drop n s ++ t).
Proof.
  intros Hn. rewrite <- (take_drop n s) at 1. rewrite <- app_assoc.
  rewrite take_app_ge by (rewrite length_take_le; lia).
  rewrite length_take_le by lia. do 2 f_equal. lia.
Qed.

Lemma drop_app_skip {A} (s t : list A) n k :
  (n <= length s)%nat -> drop (n + k) (s ++ t) = drop k (drop n s ++ t).
Proof.
  intros Hn. rewrite <- (take_drop n s) at 1. rewrite <- app_assoc.
  rewrite drop_app_ge by (rewrite length_take_le; lia).
  rewrite length_take_le by lia. f_equal. lia.
Qed.

Lemma cof_step_scan cb m s buf :
  m <> [] -> bytes_Index s m = None ->
  cof_step cb (cof_scanning cb m s) (plain_read buf) =
  match bytes_Index (s ++ buf) m with
  | Some p => (cof_passing,
      CofOut (drop (p + length m) (s ++ buf))
        (if cb then [(u64 (Z.of_nat (bytes_Count (take p (s ++ buf)) LF) + 1), u64 (Z.of_nat p))]
         else []), true)
  | None => (cof_scanning cb m (s ++ buf), cof_none, true)
  end.
Proof.
  intros Hm Hs. destruct buf as [|b buf].
  { rewrite app_nil_r, Hs. done. }
  set (t := b :: buf). assert (Ht : (0 < length t)%nat) by (simpl; lia). clearbody t.
  unfold cof_step, plain_read. cbn [cr_buf].
  destruct t as [|b' t'] eqn:Heq; [simpl in Ht; lia|]. rewrite <- Heq in *. clear Heq b' t'.
  cbn [cof_marker cof_scanning cof_cacheBuf cof_discardLines cof_discardBytes cr_race cr_err cr_writeOk].
  rewrite (bytes_Index_carry s t m Hs).
  set (n := (length s - (length m - 1))%nat).
  assert (Hn : n = (length s - (length m - 1))%nat) by done.
  destruct (bytes_Index (drop n s ++ t) m) as [p|] eqn:Hp; simpl fmap; cbn [option_fmap option_map].
  - rewrite <- Nat.add_assoc, (drop_app_skip s t n), (take_app_skip s t n) by lia.
    destruct cb; [|done]. rewrite !uwrap_add_l, bytes_Count_app.
    by rewrite <- Z.add_assoc, uwrap_add_l, Z.add_assoc, !Nat2Z.inj_add.
  - assert (Hlen : length (s ++ t) = (n + length (drop n s ++ t))%nat).
    { rewrite !length_app, length_drop. lia. }
    unfold cof_scanning.
    destruct (Nat.ltb_spec (length m - 1) (length (drop n s ++ t))) as [Hlt|Hge].
    + rewrite Hlen.
      replace (n + length (drop n s ++ t) - (length m - 1))%nat
        with (n + (length (drop n s ++ t) - (length m - 1)))%nat by lia.
      rewrite (drop_app_skip s t n), (take_app_skip s t n) by lia.
      destruct cb; [|done]. rewrite !uwrap_add_l, bytes_Count_app, !Nat2Z.inj_add. done.
    + rewrite length_app, length_drop in Hge.
      replace n with 0%nat by lia.
      replace (length (s ++ t) - (length m - 1))%nat with 0%nat
        by (rewrite length_app; lia).
      by destruct cb.
Qed.

Lemma cof_forward_passing cb chunks :
  cof_forward cb cof_passing (plain_read <$> chunks) = (cof_passing, CofOut (concat chunks) []).
Proof.
  induction chunks as [|c chunks IH]; [done|].
  cbn [fmap list_fmap cof_forward concat]. destruct c as [|b c]; simpl; by rewrite IH.
Qed.

Lemma cof_forward_scan cb m s chunks :
  m <> [] -> bytes_Index s m = None ->
  let all := s ++ concat chunks in
  cof_forward cb (cof_scanning cb m s) (plain_read <$> chunks) =
  match bytes_Index all m with
  | Some p => (cof_passing,
      CofOut (drop (p + length m) all)
        (if cb then [(u64 (Z.of_nat (bytes_Count (take p all) LF) + 1), u64 (Z.of_nat p))] else []))
  | None => (cof_scanning cb m all, cof_none)
  end.
Proof.
  intros Hm. revert s. induction chunks as [|c chunks IH]; intros s Hs.
  { cbv zeta. cbn [fmap list_fmap concat cof_forward]. rewrite app_nil_r, Hs. done. }
  cbv zeta. cbn [fmap list_fmap cof_forward concat]. rewrite cof_step_scan by done.
  rewrite app_assoc. destruct (bytes_Index (s ++ c) m) as [p|] eqn:Hp.
  - rewrite cof_forward_passing. cbn [co_written co_callback].
    rewrite (bytes_Index_app_Some _ _ _ _ Hp).
    apply bytes_Index_Some in Hp as [_ Hl].
    rewrite (drop_app_le (s ++ c)), (take_app_le (s ++ c)), app_nil_r by lia. done.
  - pose proof (IH _ Hp) as Hih. cbv zeta in Hih. rewrite Hih.
    destruct (bytes_Index (_ ++ concat chunks) m); reflexivity.
Qed.

(** ** The server's input side *)

Definition plain_input (buf : bytes) : si_read := SiRead buf None None true.

Lemma forwardInput_passing chunks :
  forwardInput (SessionInput true None []) (plain_input <$> chunks)
  = (SessionInput true None [], SiOut (concat chunks) []).
Proof.
  induction chunks as [|c chunks IH]; [done|].
  cbn [fmap list_fmap forwardInput concat]. destruct c as [|b c]; simpl; by rewrite IH.
Qed.

Lemma forwardInput_discarding m s chunks :
  m <> [] -> bytes_Index s m = None ->
  let all := s ++ concat chunks in
  forwardInput (SessionInput true (Some m) s) (plain_input <$> chunks) =
  match bytes_Index all m with
  | Some p => (SessionInput true None [],
      SiOut (drop (p + length m) all) (if (0 <? p)%nat then [take p all] else []))
  | None => (SessionInput true (Some m) all, si_none)
  end.
Proof.
  intros Hm. revert s. induction chunks as [|c chunks IH]; intros s Hs; cbv zeta.
  { cbn [fmap list_fmap concat forwardInput]. rewrite app_nil_r, Hs. done. }
  cbn [fmap list_fmap forwardInput concat]. unfold forwardInput_step, plain_input at 1.
  cbn [sr_buf sr_err sr_race sr_writeOk]. destruct c as [|b c].
  { simpl negb. simpl app. rewrite (IH s Hs).
    destruct (bytes_Index (s ++ concat chunks) m); reflexivity. }
  set (t := b :: c). cbn [si_server si_discardMarker negb]. unfold discardPendingInput.
  cbn [si_server si_discardMarker si_discardedInput]. rewrite app_assoc.
  destruct (bytes_Index (s ++ t) m) as [p|] eqn:Hp.
  - rewrite (bytes_Index_app_Some _ _ _ _ Hp).
    apply bytes_Index_Some in Hp as [_ Hl].
    change (sr_writeOk (plain_input t)) with true. change (sr_race (plain_input t)) with (@None bytes).
    replace (match drop (p + length m) (s ++ t) with [] => false | _ => negb true end) with false
      by (by destruct (drop _ _)).
    rewrite forwardInput_passing. cbn [so_stdin so_discarded].
    rewrite (drop_app_le (s ++ t)), (take_app_le (s ++ t)), app_nil_r by lia. done.
  - pose proof (IH _ Hp) as Hih. cbv zeta in Hih. rewrite Hih.
    destruct (bytes_Index (_ ++ concat chunks) m); reflexivity.
Qed.

(** ** The marker index *)

(** The four bytes of the index avoid [';'] and ['\r'], which tmux's control
    mode would interpret. *)
Definition marker_index_ok (idx : Z) : bool :=
  negb (bad_byte (marker_byte idx 3)) && negb (bad_byte (marker_byte idx 2))
  && negb (bad_byte (marker_byte idx 1)) && negb (bad_byte (marker_byte idx 0)).

Definition of_bytes4 (b3 b2 b1 b0 : Z) : Z := ((b3 * 256 + b2) * 256 + b1) * 256 + b0.

Lemma bytes4_decompose idx :
  0 <= idx < 2 ^ 32 ->
  exists b3 b2 b1 b0, idx = of_bytes4 b3 b2 b1 b0 /\
    0 <= b3 < 256 /\ 0 <= b2 < 256 /\ 0 <= b1 < 256 /\ 0 <= b0 < 256.
Proof.
  intros Hi.
  exists (idx / 256 / 256 / 256), (idx / 256 / 256 mod 256), (idx / 256 mod 256), (idx mod 256).
  unfold of_bytes4.
  pose proof (Z.div_mod idx 256 ltac:(lia)).
  pose proof (Z.div_mod (idx / 256) 256 ltac:(lia)).
  pose proof (Z.div_mod (idx / 256 / 256) 256 ltac:(lia)).
  repeat match goal with |- context [?a mod 256] => pose proof (Z.mod_pos_bound a 256 ltac:(lia));
    generalize dependent (a mod 256); intros end.
  lia.
Qed.

Lemma shiftr_bytes4 b3 b2 b1 b0 :
  0 <= b3 < 256 -> 0 <= b2 < 256 -> 0 <= b1 < 256 -> 0 <= b0 < 256 ->
  Z.shiftr (of_bytes4 b3 b2 b1 b0) 24 = b3 /\
  Z.shiftr (of_bytes4 b3 b2 b1 b0) 16 = b3 * 256 + b2 /\
  Z.shiftr (of_bytes4 b3 b2 b1 b0) 8 = (b3 * 256 + b2) * 256 + b1.
Proof.
  intros. unfold of_bytes4. rewrite !Z.shiftr_div_pow2 by lia.
  repeat split; symmetry.
  - apply Z.div_unique with (r := (b2 * 256 + b1) * 256 + b0); lia.
  - apply Z.div_unique with (r := b1 * 256 + b0); lia.
  - apply Z.div_unique with (r := b0); lia.
Qed.

Lemma marker_byte_bytes4 b3 b2 b1 b0 :
  0 <= b3 < 256 -> 0 <= b2 < 256 -> 0 <= b1 < 256 -> 0 <= b0 < 256 ->
  marker_byte (of_bytes4 b3 b2 b1 b0) 3 = b3 /\ marker_byte (of_bytes4 b3 b2 b1 b0) 2 = b2 /\
  marker_byte (of_bytes4 b3 b2 b1 b0) 1 = b1 /\ marker_byte (of_bytes4 b3 b2 b1 b0) 0 = b0.
Proof.
  intros H3 H2 H1 H0. destruct (shiftr_bytes4 b3 b2 b1 b0) as (E3 & E2 & E1); [done..|].
  assert (Hmod : forall a b, 0 <= b < 256 -> Z.land (a * 256 + b) 255 = b).
  { intros a b Hb. change 255 with (Z.ones 8). rewrite Z.land_ones by lia.
    rewrite Z.add_comm, Z_mod_plus_full. apply Z.mod_small. lia. }
  unfold marker_byte. change (3 * 8) with 24. change (2 * 8) with 16. change (1 * 8) with 8.
  change (0 * 8) with 0. rewrite E3, E2, E1, Z.shiftr_0_r. unfold of_bytes4.
  rewrite !Hmod by done. rewrite <- (Hmod 0 b3) at 2 by done. done.
Qed.

Lemma marker_index_ok_bytes4 b3 b2 b1 b0 :
  0 <= b3 < 256 -> 0 <= b2 < 256 -> 0 <= b1 < 256 -> 0 <= b0 < 256 ->
  marker_index_ok (of_bytes4 b3 b2 b1 b0) =
  negb (bad_byte b3) && negb (bad_byte b2) && negb (bad_byte b1) && negb (bad_byte b0).
Proof.
  intros. unfold marker_index_ok.
  destruct (marker_byte_bytes4 b3 b2 b1 b0) as (-> & -> & -> & ->); done.
Qed.

Lemma bad_byte_succ b : bad_byte b = true -> bad_byte (b + 1) = false /\ 0 <= b < 255.
Proof. unfold bad_byte. lia. Qed.

Lemma u32_shl a k :
  0 <= a -> 0 <= k -> a * 2 ^ k < 2 ^ 32 -> u32 (Z.shiftl (u32 a) k) = a * 2 ^ k.
Proof.
  intros Ha Hk Hlt. pose proof (Z.pow_pos_nonneg 2 k ltac:(lia) Hk).
  rewrite (uwrap_small 32 a) by nia.
  rewrite Z.shiftl_mul_pow2 by lia. apply uwrap_small. nia.
Qed.

(** The loop of [getNextDiscardMarkerIndex] in terms of the bytes. *)
Lemma marker_skip_bytes4 b3 b2 b1 b0 :
  0 <= b3 < 256 -> 0 <= b2 < 256 -> 0 <= b1 < 256 -> 0 <= b0 < 256 ->
  marker_skip 3 (of_bytes4 b3 b2 b1 b0) =
  if bad_byte b3 then of_bytes4 (b3 + 1) 0 0 0
  else if bad_byte b2 then of_bytes4 b3 (b2 + 1) 0 0
  else if bad_byte b1 then of_bytes4 b3 b2 (b1 + 1) 0
  else if bad_byte b0 then of_bytes4 b3 b2 b1 (b0 + 1)
  else of_bytes4 b3 b2 b1 b0.
Proof.
  intros H3 H2 H1 H0. destruct (shiftr_bytes4 b3 b2 b1 b0) as (E3 & E2 & E1); [done..|].
  cbn [marker_skip].
  change (Z.of_nat 3) with 3. change (Z.of_nat 2) with 2. change (Z.of_nat 1) with 1.
  change (Z.of_nat 0) with 0.
  destruct (marker_byte_bytes4 b3 b2 b1 b0) as (-> & -> & -> & ->); [done..|].
  change (3 * 8) with 24. change (2 * 8) with 16. change (1 * 8) with 8. change (0 * 8) with 0.
  rewrite E3, E2, E1, Z.shiftr_0_r.
  repeat (case_match; [match goal with H : bad_byte _ = true |- _ => apply bad_byte_succ in H as [_ ?] end;
    unfold of_bytes4; rewrite u32_shl by lia; lia|]).
  done.
Qed.

(** For every current index below the last one, the next discard marker
    index is the least larger index none of whose four bytes is [';'] or
    ['\r']; it does not overflow. *)
Theorem getNextDiscardMarkerIndex_least cur :
  0 <= cur < 2 ^ 32 - 1 ->
  let n := getNextDiscardMarkerIndex cur in
  cur < n < 2 ^ 32 /\ marker_index_ok n = true /\
  (forall k, cur < k < n -> marker_index_ok k = false).
Proof.
  intros Hcur n.
  destruct (bytes4_decompose (cur + 1)) as (b3 & b2 & b1 & b0 & Hd & H3 & H2 & H1 & H0); [lia|].
  assert (Hn : n = marker_skip 3 (of_bytes4 b3 b2 b1 b0)).
  { unfold n, getNextDiscardMarkerIndex. by rewrite Hd, uwrap_small by lia. }
  rewrite marker_skip_bytes4 in Hn by done. clearbody n.
  enough (cur < n < 2 ^ 32 /\ marker_index_ok n = true /\
    (forall c3 c2 c1 c0, 0 <= c3 < 256 -> 0 <= c2 < 256 -> 0 <= c1 < 256 -> 0 <= c0 < 256 ->
       cur < of_bytes4 c3 c2 c1 c0 < n -> marker_index_ok (of_bytes4 c3 c2 c1 c0) = false))
    as (Hr & Hok & Hmin).
  { split_and!; [lia..|done|]. intros k Hk.
    destruct (bytes4_decompose k) as (c3 & c2 & c1 & c0 & -> & ? & ? & ? & ?); [lia|].
    by apply Hmin. }
  assert (Hcur' : cur = of_bytes4 b3 b2 b1 b0 - 1) by lia. clear Hd Hcur. subst cur.
  repeat case_match; subst n;
    repeat match goal with H : bad_byte ?b = true |- _ =>
      pose proof (bad_byte_succ b H) as [? ?]; revert H end; intros;
    (split; [unfold of_bytes4; lia|]);
    rewrite marker_index_ok_bytes4 by lia;
    (split; [by repeat match goal with H : bad_byte _ = false |- _ => rewrite H end|]);
    intros c3 c2 c1 c0 ? ? ? ? Hk; rewrite marker_index_ok_bytes4 by done;
    unfold of_bytes4 in Hk.
  - replace c3 with b3 by lia. by rewrite H.
  - replace c2 with b2 by lia. rewrite H4. by destruct (bad_byte c3).
  - replace c1 with b1 by lia. rewrite H5. by destruct (bad_byte c3), (bad_byte c2).
  - replace c0 with b0 by lia. rewrite H6. by destruct (bad_byte c3), (bad_byte c2), (bad_byte c1).
  - lia.
Qed.

Lemma getNextDiscardMarkerIndex_least_witness :
  let n := getNextDiscardMarkerIndex 12 in
  12 < n < 2 ^ 32 /\ marker_index_ok n = true /\
  (forall k, 12 < k < n -> marker_index_ok k = false).
Proof. apply (getNextDiscardMarkerIndex_least 12). lia. Defined.

(** Whatever the chunking of the stream, the client's output forwarder
    started with marker [m] writes exactly the bytes after the first
    occurrence of [m] and reports the skipped lines and bytes in one callback;
    while no occurrence has arrived it writes nothing. *)
Theorem client_output_after_marker cb m chunks :
  m <> [] ->
  let all := concat chunks in
  cof_forward cb (ClientOutputForwarder (Some m) [] 0 0) (plain_read <$> chunks) =
  match bytes_Index all m with
  | Some p => (ClientOutputForwarder None [] 0 0,
      CofOut (drop (p + length m) all)
        (if cb then [(u64 (Z.of_nat (bytes_Count (take p all) LF) + 1), u64 (Z.of_nat p))] else []))
  | None => (cof_scanning cb m all, cof_none)
  end.
Proof.
  intros Hm all.
  assert (Hinit : ClientOutputForwarder (Some m) [] 0 0 = cof_scanning cb m [])
    by (unfold cof_scanning; by destruct cb).
  rewrite Hinit, (cof_forward_scan cb m []); [done | done |].
  by destruct m.
Qed.

Lemma client_output_after_marker_witness :
  cof_forward true (ClientOutputForwarder (Some (bs "MARK")) [] 0 0)
    (plain_read <$> [bs "old"; [LF]; bs "xMA"; bs "RKne"; bs "w"])
  = (ClientOutputForwarder None [] 0 0, CofOut (bs "new") [(2, 5)]).
Proof.
  rewrite (client_output_after_marker true (bs "MARK")); [reflexivity | done].
Defined.

(** ** Both ends of the input resynchronisation *)

Definition plain_typed (buf : bytes) : ci_read := CiRead buf None false false false true true.

Lemma client_forwardInput_plain cb chunks :
  client_forwardInput cb None (plain_typed <$> chunks) = (None, CiOut (concat chunks) []).
Proof.
  induction chunks as [|c chunks IH]; [done|].
  cbn [fmap list_fmap client_forwardInput concat]. destruct c as [|b c]; simpl; by rewrite IH.
Qed.

Lemma client_forwardInput_marker cb m chunks :
  concat chunks <> [] ->
  client_forwardInput cb (Some m) (plain_typed <$> chunks) = (None, CiOut (m ++ concat chunks) []).
Proof.
  induction chunks as [|c chunks IH]; [done|]. intros Hne.
  cbn [fmap list_fmap client_forwardInput concat]. destruct c as [|b c].
  - simpl. by rewrite (IH Hne).
  - unfold client_forwardInput_step. cbn.
    change (list_fmap _ _ plain_typed chunks) with (plain_typed <$> chunks).
    rewrite client_forwardInput_plain. cbn. by rewrite <- app_assoc.
Qed.

Lemma discard_marker_head idx : exists t, discard_marker idx = byte_of_Z 255 :: t.
Proof. eexists. reflexivity. Qed.

(** A text without the byte 0xFF, which no UTF-8 text contains, holds no part
    of a marker. *)
Lemma discard_marker_after_text X idx :
  (byte_of_Z 255 ∉ X) ->
  bytes_Index (X ++ discard_marker idx) (discard_marker idx) = Some (length X).
Proof.
  intros Hx. rewrite bytes_Index_app_skip.
  - replace (bytes_Index (discard_marker idx) (discard_marker idx)) with (Some 0%nat);
      [simpl; f_equal; lia|].
    destruct (discard_marker idx) as [|b t] eqn:E; [done|]. cbn [bytes_Index].
    rewrite (proj2 (has_prefix_spec (b :: t) (b :: t))); [done|]. exists []. by rewrite app_nil_r.
  - intros i Hi. destruct (discard_marker_head idx) as [t ->].
    destruct (lookup_lt_is_Some_2 X i Hi) as [b Hb].
    rewrite (drop_app_le X) by lia. erewrite drop_S by done. cbn [app has_prefix].
    destruct (ascii_dec (byte_of_Z 255) b) as [<-|]; [|done].
    apply list_elem_of_lookup_2 in Hb. done.
Qed.

Lemma discard_marker_found X idx :
  exists p, bytes_Index (X ++ discard_marker idx) (discard_marker idx) = Some p /\ (p <= length X)%nat.
Proof.
  destruct (bytes_Index (X ++ discard_marker idx) (discard_marker idx)) as [p|] eqn:E.
  - exists p. split; [done|]. destruct (le_lt_dec p (length X)) as [|Hlt]; [done|].
    pose proof (bytes_Index_min _ _ _ (length X) E Hlt) as Hf. rewrite drop_app_length in Hf.
    rewrite (proj2 (has_prefix_spec _ _)) in Hf; [done|]. exists []. by rewrite app_nil_r.
  - pose proof (bytes_Index_None _ _ (length X) E ltac:(rewrite length_app; lia)) as Hf. rewrite drop_app_length in Hf.
    rewrite (proj2 (has_prefix_spec _ _)) in Hf; [done|]. exists []. by rewrite app_nil_r.
Qed.

(** C20: after [enablePendingInputDiscard] everything typed arrives, whatever
    stale input [X] is still in flight: the client, which is connected, puts
    the marker in front of what is typed, and however the transport cuts [X],
    the marker and the typed bytes into reads, with writes that succeed and no
    further marker meanwhile, the server's stdin receives what follows the first
    occurrence of the marker, and what precedes it is reported back, once and
    unless it is empty.  When the marker does not occur before its place, as
    in any [X] without the byte 0xFF, that is exactly the typed bytes, and
    exactly [X]. *)
Theorem input_resync cb idx X typed chunks :
  concat typed <> [] ->
  let m := discard_marker idx in
  let '(_, sent) := client_forwardInput cb (Some m) (plain_typed <$> typed) in
  concat chunks = X ++ cio_stream sent ->
  let r := forwardInput (SessionInput true (Some m) []) (plain_input <$> chunks) in
  (exists p, bytes_Index (X ++ m) m = Some p /\ (p <= length X)%nat /\
     r = (SessionInput true None [],
          SiOut (drop (p + length m) (X ++ m) ++ concat typed) (if (0 <? p)%nat then [take p X] else []))) /\
  (bytes_Index (X ++ m) m = Some (length X) ->
     r = (SessionInput true None [], SiOut (concat typed) (match X with [] => [] | _ => [X] end))) /\
  (byte_of_Z 255 ∉ X -> bytes_Index (X ++ m) m = Some (length X)).
Proof.
  intros Hne m. rewrite client_forwardInput_marker by done. cbn [cio_stream]. intros Hc.
  set (r := forwardInput _ _).
  assert (Hr : exists p, bytes_Index (X ++ m) m = Some p /\ (p <= length X)%nat /\
    r = (SessionInput true None [],
         SiOut (drop (p + length m) (X ++ m) ++ concat typed) (if (0 <? p)%nat then [take p X] else []))).
  { destruct (discard_marker_found X idx) as (p & Hi & Hp). exists p. split_and!; [done..|]. unfold r.
    rewrite forwardInput_discarding; [|by destruct (discard_marker_head idx) as [t E]; unfold m; rewrite E..].
    rewrite app_nil_l, Hc, app_assoc, (bytes_Index_app_Some _ _ _ _ Hi).
    rewrite drop_app_le by (rewrite length_app; lia). by rewrite <- app_assoc, take_app_le. }
  split_and!; [done| |apply discard_marker_after_text].
  intros Hlen. destruct Hr as (p & Hi & _ & ->). rewrite Hi in Hlen. injection Hlen as ->.
  rewrite drop_ge by (rewrite length_app; lia). rewrite take_ge by lia. by destruct X.
Qed.

(** The stale input has an older marker, and the new one follows a byte 0xFF. *)
Definition stale_input : bytes := bs "sta" ++ discard_marker 6 ++ bs "le" ++ [byte_of_Z 255].

Lemma input_resync_witness :
  forwardInput (SessionInput true (Some (discard_marker 7)) [])
    (plain_input <$> [bs "sta"; drop 3 stale_input ++ take 3 (discard_marker 7);
                      drop 3 (discard_marker 7) ++ bs "l"; bs "s"])
  = (SessionInput true None [], SiOut (bs "ls") [stale_input]).
Proof.
  apply (input_resync false 7 stale_input [bs "l"; bs "s"]).
  - done.
  - vm_compute. reflexivity.
  - vm_compute. reflexivity.
Defined.
