(* ===== verification/Tmux.v ===== *)
(** * Tmux: messages injected into a tmux control-mode stream ([tmuxcc.go])

    When output has been dropped while a client was away, the warning the
    server injects must not break a tmux control-mode conversation.  The
    server guesses the pane from the cached lines
    ([extractTmuxOutputPrefix]) and octal-escapes its text
    ([encodeTmuxOutput]).  [tmux_decode] is tmux's unescaping, the reference
    the encoder is proved against. *)

From Stdlib Require Import ZArith Lia Ascii String.
From stdpp Require Import base list strings gmap.
From S2P Require Import Prelude.
Open Scope Z_scope.

Definition maxPendingOutputLines : Z := 1000.

Definition SPACE : byte := " "%char.
Definition PERCENT : byte := "%"%char.
Definition BACKSLASH : byte := "\"%char.

(** The index where the pane id starts; 0 when the line is not an output
    message. *)
Definition tmux_output_idx (line : bytes) : nat :=
  match line with
  | c :: _ =>
      if ascii_dec c PERCENT then
        if has_prefix line (bs "%output %") then 8%nat
        else if has_prefix line (bs "%extended-output %") then 17%nat
        else 0%nat
      else 0%nat
  | [] => 0%nat
  end.

(** The loop over the lines, with [tmuxOutputCount] as state. *)
Fixpoint extractTmuxOutputPrefix_loop (count : Z) (cacheLines : list bytes) : bytes :=
  match cacheLines with
  | [] => []
  | line :: more =>
      let idx := tmux_output_idx line in
      if (0 <? idx)%nat then
        let count := count + 1 in
        if Z.min 10 maxPendingOutputLines <=? count then
          let rest := drop idx line in
          match bytes_IndexByte rest SPACE with
          | Some (S pos) => bs "%output " ++ take (S pos + 1) rest
          | _ => extractTmuxOutputPrefix_loop count more
          end
        else extractTmuxOutputPrefix_loop count more
      else extractTmuxOutputPrefix_loop count more
  end.

Definition extractTmuxOutputPrefix (cacheLines : list bytes) : bytes :=
  extractTmuxOutputPrefix_loop 0 cacheLines.

(** [fmt.Fprintf("\\%03o", b)] for a byte. *)
Definition octal_digit (z : Z) : byte := byte_of_Z (48 + z).

Definition octal3 (b : byte) : bytes :=
  let z := Z_of_byte b in
  [octal_digit (z / 64); octal_digit (z / 8 mod 8); octal_digit (z mod 8)].

Definition tmux_escaped (b : byte) : bool :=
  (Z_of_byte b <? 32) || (Z_of_byte b =? 92) || (126 <? Z_of_byte b).

Definition encode_byte (b : byte) : bytes :=
  if tmux_escaped b then BACKSLASH :: octal3 b else [b].

Definition encodeTmuxOutput (prefix output : bytes) : bytes :=
  prefix ++ (output ≫= encode_byte) ++ [CR; LF].

(** ** The reference: what a control-mode client makes of the text *)

Definition octal_value (b : byte) : option Z :=
  let z := Z_of_byte b - 48 in if (0 <=? z) && (z <? 8) then Some z else None.

Fixpoint tmux_decode (l : bytes) : bytes :=
  match l with
  | [] => []
  | c :: l1 =>
      if ascii_dec c BACKSLASH then
        match l1 with
        | a :: b :: d :: l2 =>
            match octal_value a, octal_value b, octal_value d with
            | Some x, Some y, Some z => byte_of_Z (x * 64 + y * 8 + z) :: tmux_decode l2
            | _, _, _ => c :: tmux_decode l1
            end
        | _ => c :: tmux_decode l1
        end
      else c :: tmux_decode l1
  end.

Lemma octal_value_digit z : 0 <= z < 8 -> octal_value (octal_digit z) = Some z.
Proof.
  intros Hz. unfold octal_value, octal_digit. rewrite Z_of_byte_of_Z.
  rewrite Z.mod_small by lia. replace (48 + z - 48) with z by lia.
  destruct (Z.leb_spec 0 z), (Z.ltb_spec z 8); simpl; (done || lia).
Qed.

Lemma tmux_decode_escape b l : tmux_decode (encode_byte b ++ l) = b :: tmux_decode l.
Proof.
  unfold encode_byte. destruct (tmux_escaped b) eqn:He.
  - pose proof (Z_of_byte_range b). unfold octal3. cbn [app tmux_decode].
    destruct (ascii_dec BACKSLASH BACKSLASH); [|done].
    rewrite !octal_value_digit by (try apply Z.mod_pos_bound; try split;
      try apply Z.div_pos; try apply Z.div_lt_upper_bound; lia).
    rewrite <- (byte_of_Z_of_byte b) at 4. do 2 f_equal.
    pose proof (Z.div_mod (Z_of_byte b) 8 ltac:(lia)).
    pose proof (Z.div_mod (Z_of_byte b / 8) 8 ltac:(lia)) as H2.
    rewrite Z.div_div in H2 by lia. change (8 * 8) with 64 in H2. lia.
  - cbn [app tmux_decode]. destruct (ascii_dec b BACKSLASH) as [->|]; [|done].
    by vm_compute in He.
Qed.

(** A byte of the escaped text is printable ASCII. *)
Definition tmux_printable (b : byte) : Prop := 32 <= Z_of_byte b <= 126.

Lemma octal_digit_printable z : 0 <= z < 8 -> tmux_printable (octal_digit z).
Proof.
  intros Hz. unfold tmux_printable, octal_digit. rewrite Z_of_byte_of_Z, Z.mod_small by lia. lia.
Qed.

Lemma encode_byte_printable b : Forall tmux_printable (encode_byte b).
Proof.
  unfold encode_byte, tmux_escaped. pose proof (Z_of_byte_range b).
  destruct ((_ <? 32) || (_ =? 92) || (126 <? _)) eqn:He.
  - repeat constructor; try (apply octal_digit_printable); try (by vm_compute);
      try apply Z.mod_pos_bound; try split; try apply Z.div_pos; try apply Z.div_lt_upper_bound; lia.
  - constructor; [|done]. unfold tmux_printable. lia.
Qed.

(** The text injected into a tmux control-mode stream is one line of
    printable ASCII after its prefix, terminated by CR LF, and tmux's
    unescaping gives back exactly the injected bytes. *)
Theorem encodeTmuxOutput_roundtrip prefix output :
  exists body, encodeTmuxOutput prefix output = prefix ++ body ++ [CR; LF] /\
    Forall tmux_printable body /\ tmux_decode body = output.
Proof.
  exists (output ≫= encode_byte). split_and!; [done|..].
  - apply Forall_bind, Forall_true. apply encode_byte_printable.
  - induction output as [|b output IH]; [done|].
    rewrite bind_cons, tmux_decode_escape. by f_equal.
Qed.

(** [prefix] names the pane of the output message [line]. *)
Definition names_pane (line prefix : bytes) : Prop :=
  exists pane rest,
    prefix = bs "%output " ++ pane ++ [SPACE] /\ head pane = Some PERCENT /\ (SPACE ∉ pane) /\
    (line = bs "%output " ++ pane ++ SPACE :: rest \/
     line = bs "%extended-output " ++ pane ++ SPACE :: rest).

Lemma tmux_output_idx_spec line idx :
  tmux_output_idx line = idx -> (0 < idx)%nat ->
  head (drop idx line) = Some PERCENT /\
  (line = bs "%output " ++ drop idx line \/ line = bs "%extended-output " ++ drop idx line).
Proof.
  unfold tmux_output_idx. intros <-. destruct line as [|c line]; [simpl; lia|].
  destruct (ascii_dec c PERCENT); [|lia].
  destruct (has_prefix (c :: line) (bs "%output %")) eqn:H1.
  { apply has_prefix_spec in H1 as [u ->]. intros _. split; [done | by left]. }
  destruct (has_prefix (c :: line) (bs "%extended-output %")) eqn:H2; [|lia].
  apply has_prefix_spec in H2 as [u ->]. intros _. split; [done | by right].
Qed.

Lemma extract_loop_sound cacheLines count :
  extractTmuxOutputPrefix_loop count cacheLines <> [] ->
  exists line, line ∈ cacheLines /\ names_pane line (extractTmuxOutputPrefix_loop count cacheLines).
Proof.
  revert count. induction cacheLines as [|line more IH]; intros count; [done|].
  assert (Hskip : forall c, extractTmuxOutputPrefix_loop c more <> [] ->
    exists l, l ∈ line :: more /\ names_pane l (extractTmuxOutputPrefix_loop c more)).
  { intros c Hc. destruct (IH c Hc) as (l & Hl & Hp). exists l. split; [by constructor | done]. }
  cbn [extractTmuxOutputPrefix_loop].
  destruct (Nat.ltb_spec 0 (tmux_output_idx line)) as [Hidx|]; [|apply Hskip].
  destruct (_ <=? _); [|apply Hskip].
  destruct (bytes_IndexByte _ SPACE) as [[|pos]|] eqn:Hsp; [apply Hskip| |apply Hskip].
  intros _. exists line. split; [by constructor|].
  destruct (tmux_output_idx_spec line _ eq_refl Hidx) as [Hhd Hline].
  pose proof (bytes_IndexByte_split _ _ _ Hsp) as [Hsplit Hno].
  exists (take (S pos) (drop (tmux_output_idx line) line)),
    (drop (S (S pos)) (drop (tmux_output_idx line) line)).
  apply bytes_IndexByte_Some in Hsp as (Hget & Hlt & _).
  split_and!; [| |done|rewrite <- Hsplit; done].
  - rewrite Nat.add_1_r. by erewrite take_S_r by done.
  - by destruct (drop (tmux_output_idx line) line).
Qed.


(** A prefix extracted from the cached lines names a pane that the cache
    really holds output for: it is [%output ] followed by a pane id, which
    starts with [%], is followed by one space, and is the pane field of one
    of the cached output messages. *)
Theorem extractTmuxOutputPrefix_sound cacheLines prefix :
  extractTmuxOutputPrefix cacheLines = prefix -> prefix <> [] ->
  exists line, line ∈ cacheLines /\ names_pane line prefix.
Proof. intros <- Hne. by apply extract_loop_sound. Qed.

Lemma extractTmuxOutputPrefix_sound_witness :
  exists line, line ∈ replicate 10 (bs "%output %3 x") /\ names_pane line (bs "%output %3 ").
Proof.
  apply extractTmuxOutputPrefix_sound; [vm_compute; reflexivity | done].
Defined.
