(* ===== verification/Output.v ===== *)
(** * Output: the server's output forwarder ([output.go], [session.go])

    [serverOutputForwarder] moves a session's output to the client.  While
    the client is away it keeps the output that follows a complete line in
    [cacheLines], bounded, and replays it when the client is back.  The
    writer goroutine drains [writeBufCh], a channel of one buffer.

    What the other goroutines do is a schedule, a list of [tick]s: every
    point where the code consults the shared state (an attempt of a [select],
    a call of [isTimeout]) consumes one.  A tick may also change the session:
    clients attach and leave, set the size and ask to discard output.  A handler
    that is still waiting when its schedule ends has no result ([None]). *)

From Stdlib Require Import ZArith Lia Ascii String.
From stdpp Require Import base list strings pretty gmap relations.
From S2P Require Import Prelude Tmux.
Open Scope Z_scope.

(** ** The session, as far as the forwarder uses it *)

Record sess_view := SessView {
  sv_closed : bool;
  sv_pty : bool;           (* a resize function exists *)
  sv_attached : bool;      (* sess.server.Load() != nil *)
  sv_id : Z;
  sv_cols : Z;
  sv_rows : Z
}.

(** What [SetSize] stores into both forwarders. *)
Inductive discard_request := NoRequest | StoreMarker (m : bytes) | StoreDiscard.

(** [sessionContext.SetSize]; [resize] tells whether a resize succeeds.  The
    result holds the calls of [resize] in order. *)
Definition SetSize (c : sess_view) (cols rows : Z) (redraw discardOutput : bool)
  (discardMarker : option bytes) (resize : Z -> Z -> bool)
  : sess_view * option goerr * discard_request * list (Z * Z) :=
  if sv_closed c then (c, None, NoRequest, [])
  else if negb (sv_pty c)
  then (c, Some (Plain ("session [" +:+ pretty (sv_id c) +:+ "] is not pty")), NoRequest, [])
  else
    let '(cols, rows) := if (cols =? 0) && (rows =? 0) then (sv_cols c, sv_rows c) else (cols, rows) in
    let same := (cols =? sv_cols c) && (rows =? sv_rows c) in
    if same && negb redraw then (c, None, NoRequest, [])
    else
      let calls := (if same then [(cols + 1, rows)] else []) ++ [(cols, rows)] in
      let request := match discardMarker with
                     | Some m => StoreMarker m
                     | None => if discardOutput then StoreDiscard else NoRequest
                     end in
      if resize cols rows
      then (SessView (sv_closed c) (sv_pty c) (sv_attached c) (sv_id c) cols rows,
            None, request, calls)
      else (c, Some (Plain ("session [" +:+ pretty (sv_id c) +:+ "] resize to (" +:+ pretty cols
                            +:+ ", " +:+ pretty rows +:+ ") failed")), request, calls).

(** ** The forwarder *)

(** [of_chan] is the content of [writeBufCh]; [of_written] the buffers the
    writer goroutine has taken from it, in order.  [of_lost] and [of_reports]
    are history: the cached lines that were dropped, and the (lines, bytes)
    counts the client has been told, by a bus message or by the warning
    line.  [of_silent] holds the counts [clearOutput] resets while no server
    is attached to tell. *)
Record serverOutputForwarder := OF {
  of_sess : sess_view;
  of_reconnectPending : bool;
  of_returned : bool;
  of_writeError : bool;
  of_chan : option bytes;
  of_written : list bytes;
  of_cacheLines : list bytes;
  of_tmuxOutputPrefix : bytes;
  of_chHasNewLine : bool;
  of_noNewLineCount : Z;
  of_discardLines : Z;
  of_discardBytes : Z;
  of_voidedCapacity : Z;
  of_discardOutput : bool;
  of_discardMarker : option bytes;
  of_lost : list bytes;
  of_reports : list (Z * Z);
  of_silent : list (Z * Z)
}.

Definition newOutputForwarder (c : sess_view) : serverOutputForwarder :=
  OF c false false false None [] [] [] false 0 0 0 0 false None [] [] [].

(** What the goroutines of the clients do to the session: [SetSize] stores its
    request first and the size later; [attachSession] and [detachAllSessions]
    set its server; it is closed. *)
Inductive sess_event :=
| StoreRequest (r : discard_request)
| StoreSize (cols rows : Z)
| SetServer (attached : bool)
| SessClosed.

(** What the other goroutines do until the next time the handler looks. *)
Record tick := Tick {
  tk_drain : bool;        (* the writer takes the queued buffer *)
  tk_timeout : bool;      (* clientChecker.isTimeout() *)
  tk_keep : bool;         (* isKeepPendingOutput() *)
  tk_waitErr : bool;      (* waitUntilReconnected() fails *)
  tk_drain2 : bool;       (* the writer takes the buffer between two selects *)
  tk_writeError : bool;   (* the writer fails and exits *)
  tk_returned : bool;     (* forward() returns *)
  tk_reconnect : bool;    (* onReconnected() is called *)
  tk_resizeOk : bool;     (* the PTY accepts a resize *)
  tk_session : list sess_event
}.

Definition drain (f : serverOutputForwarder) : serverOutputForwarder :=
  match f with OF s rp re we ch wr cl tp nl nn dl db vc dd dm lo rep si =>
    OF s rp re we None (wr ++ match ch with Some b => [b] | None => [] end)
      cl tp nl nn dl db vc dd dm lo rep si
  end.

Definition apply_request (f : serverOutputForwarder) (s : sess_view) (r : discard_request)
  : serverOutputForwarder :=
  match f with OF _ rp re we ch wr cl tp nl nn dl db vc dd dm lo rep si =>
    let '(dd, dm) := match r with
                     | NoRequest => (dd, dm)
                     | StoreMarker m => (dd, Some m)
                     | StoreDiscard => (true, dm)
                     end in
    OF s rp re we ch wr cl tp nl nn dl db vc dd dm lo rep si
  end.

Definition sess_step (f : serverOutputForwarder) (e : sess_event) : serverOutputForwarder :=
  let c := of_sess f in
  match e with
  | StoreRequest r => apply_request f c r
  | StoreSize cols rows => apply_request f (SessView (sv_closed c) (sv_pty c) (sv_attached c) (sv_id c) cols rows) NoRequest
  | SetServer attached =>
      apply_request f (SessView (sv_closed c) (sv_pty c) attached (sv_id c) (sv_cols c) (sv_rows c)) NoRequest
  | SessClosed =>
      apply_request f (SessView true (sv_pty c) (sv_attached c) (sv_id c) (sv_cols c) (sv_rows c)) NoRequest
  end.

(** While a handler owns the processing token, [onReconnected] only sets
    [reconnectPending], and does nothing once [forward] has returned. *)
Definition set_flags (f : serverOutputForwarder) (t : tick) : serverOutputForwarder :=
  match f with OF s rp re we ch wr cl tp nl nn dl db vc dd dm lo rep si =>
    OF s (rp || (tk_reconnect t && negb re)) (re || tk_returned t) (we || tk_writeError t)
      ch wr cl tp nl nn dl db vc dd dm lo rep si
  end.

Definition env_step (f : serverOutputForwarder) (t : tick) : serverOutputForwarder :=
  set_flags (fold_left sess_step (tk_session t) (if tk_drain t then drain f else f)) t.

Definition set_chan (f : serverOutputForwarder) (c : option bytes) : serverOutputForwarder :=
  match f with OF s rp re we ch wr cl tp nl nn dl db vc dd dm lo rep si =>
    OF s rp re we c wr cl tp nl nn dl db vc dd dm lo rep si
  end.

Definition set_cacheLines (f : serverOutputForwarder) (c : list bytes) : serverOutputForwarder :=
  match f with OF s rp re we ch wr cl tp nl nn dl db vc dd dm lo rep si =>
    OF s rp re we ch wr c tp nl nn dl db vc dd dm lo rep si
  end.

Definition set_lineState (f : serverOutputForwarder) (hasNewLine : bool) (count : Z)
  : serverOutputForwarder :=
  match f with OF s rp re we ch wr cl tp nl nn dl db vc dd dm lo rep si =>
    OF s rp re we ch wr cl tp hasNewLine count dl db vc dd dm lo rep si
  end.

Definition set_pending (f : serverOutputForwarder) (b : bool) : serverOutputForwarder :=
  match f with OF s rp re we ch wr cl tp nl nn dl db vc dd dm lo rep si =>
    OF s b re we ch wr cl tp nl nn dl db vc dd dm lo rep si
  end.

Definition set_discard (f : serverOutputForwarder) (d : bool) (m : option bytes)
  : serverOutputForwarder :=
  match f with OF s rp re we ch wr cl tp nl nn dl db vc dd dm lo rep si =>
    OF s rp re we ch wr cl tp nl nn dl db vc d m lo rep si
  end.

(** *** [cacheOutput] *)

(** The end of the first line: a line feed, or without any a carriage return. *)
Definition line_end (buf : bytes) : option nat :=
  match bytes_IndexByte buf LF with Some pos => Some pos | None => bytes_IndexByte buf CR end.

(** The first line of a buffer that is not empty, and the rest. *)
Definition next_line (buf : bytes) : bytes * bytes :=
  match line_end buf with
  | Some pos => (take (pos + 1) buf, drop (pos + 1) buf)
  | None => (buf, [])
  end.

(** Whether [line] continues the last cached line.  A cached line is never
    empty, so [last] has a last byte. *)
Definition joins (lastLine line : bytes) : bool :=
  match last lastLine with
  | Some b =>
      negb (bool_decide (b = LF))
      && (negb (bool_decide (b = CR)) || bool_decide (head line = Some LF))
      && (length lastLine <? 1000)%nat
  | None => false
  end.

Definition cache_line (cacheLines : list bytes) (line : bytes) : list bytes :=
  match last cacheLines with
  | Some lastLine =>
      if joins lastLine line
      then take (length cacheLines - 1) cacheLines ++ [lastLine ++ line]
      else cacheLines ++ [line]
  | None => [line]
  end.

(** Each pass takes at least one byte, so the length of the buffer is enough
    fuel. *)
Fixpoint cache_loop (fuel : nat) (cacheLines : list bytes) (buf : bytes) : list bytes :=
  match fuel, buf with
  | _, [] => cacheLines
  | O, _ => cacheLines
  | S fuel', _ =>
      let '(line, rest) := next_line buf in
      cache_loop fuel' (cache_line cacheLines line) rest
  end.

Definition total_length (ls : list bytes) : Z := Z.of_nat (length (concat ls)).

Definition maxLines (c : sess_view) : Z := Z.max maxPendingOutputLines (sv_rows c * 2).

Definition cacheOutput (f : serverOutputForwarder) (buf : bytes) : serverOutputForwarder :=
  match f with OF s rp re we ch wr cl tp nl nn dl db vc dd dm lo rep si =>
    let cl := cache_loop (length buf) cl buf in
    let maxL := maxLines s in
    if maxL <? Z.of_nat (length cl) then
      let tp := if dl =? 0 then extractTmuxOutputPrefix cl else tp in
      let dropLines := Z.of_nat (length cl) - maxL in
      let dropped := take (Z.to_nat dropLines) cl in
      let vc := u64 (vc + dropLines) in
      OF s rp re we ch wr (drop (Z.to_nat dropLines) cl) tp nl nn
        (u64 (dl + dropLines)) (u64 (db + total_length dropped))
        (if maxL <? vc then 0 else vc) dd dm (lo ++ dropped) rep si
    else OF s rp re we ch wr cl tp nl nn dl db vc dd dm lo rep si
  end.

(** *** [clearOutput] *)

Definition clearOutput (f : serverOutputForwarder) : serverOutputForwarder :=
  match f with OF s rp re we ch wr cl tp nl nn dl db vc dd dm lo rep si =>
    let dl := u64 (dl + Z.of_nat (length cl)) in
    let db := u64 (db + total_length cl) in
    let told := 0 <? dl in
    OF s rp re we ch wr [] tp false 0 0 0 vc dd dm (lo ++ cl)
      (rep ++ if told && sv_attached s then [(dl, db)] else [])
      (si ++ if told && sv_attached s then [] else [(dl, db)])
  end.

(** *** [flushOutput] *)

Definition ESC6n : bytes := byte_of_Z 27 :: bs "[6n".

Definition warning_line (f : serverOutputForwarder) : bytes :=
  let newline := match of_cacheLines f with
                 | l :: _ => if bool_decide (last l = Some CR) then [CR] else [CR; LF]
                 | [] => [CR; LF]
                 end in
  let line := [CR; byte_of_Z 27]
    ++ bs ("[0;33mWarning: tsshd discarded " +:+ pretty (of_discardLines f) +:+ " lines "
           +:+ pretty (of_discardBytes f)
           +:+ " bytes of output during client disconnection at this point!")
    ++ [byte_of_Z 27] ++ bs "[0m" ++ [byte_of_Z 27] ++ bs "[K" ++ newline in
  match of_tmuxOutputPrefix f with
  | [] => line
  | prefix => encodeTmuxOutput prefix line
  end.

Inductive send_status := Sent | TimedOut | Dead.

(** The loop labelled [out] of [flushOutput]. *)
Fixpoint flush_send (f : serverOutputForwarder) (line : bytes) (ts : list tick)
  : option (serverOutputForwarder * send_status * list tick) :=
  match ts with
  | [] => None
  | t :: ts' =>
      let f := env_step f t in
      match of_chan f with
      | None => Some (set_chan f (Some line), Sent, ts')
      | Some _ =>
          if tk_timeout t then Some (f, TimedOut, ts')
          else if of_returned f || of_writeError f then Some (f, Dead, ts')
          else flush_send f line ts'
      end
  end.

(** The loop over [cacheLines] from index [i] on; [todo] is [cacheLines[i:]]. *)
Fixpoint flush_lines (f : serverOutputForwarder) (i : nat) (todo : list bytes) (ts : list tick)
  : option (serverOutputForwarder * list tick) :=
  match todo with
  | [] => Some (set_lineState (set_cacheLines f []) false 0, ts)
  | l :: todo' =>
      match remove_all l ESC6n with
      | [] => flush_lines f (S i) todo' ts
      | line =>
          match flush_send f line ts with
          | None => None
          | Some (f, Sent, ts) => flush_lines f (S i) todo' ts
          | Some (f, TimedOut, ts) =>
              Some (if (0 <? i)%nat then set_cacheLines f (drop i (of_cacheLines f)) else f, ts)
          | Some (f, Dead, ts) => Some (f, ts)
          end
      end
  end.

Definition reset_discards (f : serverOutputForwarder) : serverOutputForwarder :=
  match f with OF s rp re we ch wr cl tp nl nn dl db vc dd dm lo rep si =>
    OF s rp re we ch wr cl tp nl nn 0 0 vc dd dm lo (rep ++ [(dl, db)]) si
  end.

Definition flushOutput (f : serverOutputForwarder) (ts : list tick)
  : option (serverOutputForwarder * list tick) :=
  match of_cacheLines f with
  | [] => Some (f, ts)
  | _ =>
      match ts with
      | [] => None
      | t :: ts =>
          let f := env_step f t in
          if tk_timeout t then Some (f, ts)
          else if 0 <? of_discardLines f then
            let '(s, err, request, _) :=
              SetSize (of_sess f) 0 0 true true None (fun _ _ => tk_resizeOk t) in
            let f := apply_request f s request in
            match err with
            | None => Some (clearOutput f, ts)
            | Some _ =>
                match flush_send f (warning_line f) ts with
                | None => None
                | Some (f, Sent, ts) => flush_lines (reset_discards f) 0 (of_cacheLines f) ts
                | Some (f, _, ts) => Some (f, ts)
                end
            end
          else flush_lines f 0 (of_cacheLines f) ts
      end
  end.

(** *** The processing token *)

(** [endProcessing]: a reconnect that arrived meanwhile is replayed before
    the token is given back.  A pass with a cache that is not empty consumes
    a tick, one with an empty cache is the last: [S (length ts)] is enough
    fuel. *)
Fixpoint endProcessing (fuel : nat) (f : serverOutputForwarder) (ts : list tick)
  : option (serverOutputForwarder * list tick) :=
  if of_reconnectPending f && negb (of_returned f) then
    match fuel with
    | O => None
    | S fuel' =>
        match flushOutput (set_pending f false) ts with
        | None => None
        | Some (f, ts) => endProcessing fuel' f ts
        end
    end
  else Some (f, ts).

Definition finish (r : option (serverOutputForwarder * list tick))
  : option (serverOutputForwarder * list tick) :=
  match r with
  | None => None
  | Some (f, ts) => endProcessing (S (length ts)) f ts
  end.

(** [onReconnected] while no handler owns the token. *)
Definition onReconnected (f : serverOutputForwarder) (ts : list tick)
  : option (serverOutputForwarder * list tick) :=
  if of_returned f then Some (f, ts) else finish (flushOutput f ts).

(** *** [handleBuffer] *)

Fixpoint enqueueWhileDisconnected (f : serverOutputForwarder) (buf : bytes) (ts : list tick)
  : option (serverOutputForwarder * bool * list tick) :=
  match ts with
  | [] => None
  | t :: ts' =>
      let f := env_step f t in
      match of_chan f with
      | None => Some (set_chan f (Some buf), true, ts')
      | Some _ =>
          if of_returned f || of_writeError f then Some (f, false, ts')
          else enqueueWhileDisconnected f buf ts'
      end
  end.

Definition cache_nonempty (f : serverOutputForwarder) (buf : bytes) : serverOutputForwarder :=
  match buf with [] => f | _ => cacheOutput f buf end.

(** The branch of the loop [out] taken while the client is away: the queued
    buffer is taken back, and what follows the first line end is cached. *)
Definition send_disconnected (f : serverOutputForwarder) (buf remaining : bytes) (ts : list tick)
  : option (serverOutputForwarder * list tick) :=
  let '(f, buf) := match of_chan f with
                   | Some b => (set_chan f None, b ++ buf)
                   | None => (f, buf)
                   end in
  match bytes_IndexByte buf LF with
  | None =>
      match enqueueWhileDisconnected f buf ts with
      | None => None
      | Some (f, false, ts) => Some (f, ts)
      | Some (f, true, ts) =>
          let f := if of_noNewLineCount f <? 3
                   then set_lineState f (of_chHasNewLine f) (of_noNewLineCount f + 1)
                   else set_lineState f true (of_noNewLineCount f) in
          Some (cache_nonempty f remaining, ts)
      end
  | Some pos =>
      match enqueueWhileDisconnected f (take (pos + 1) buf) ts with
      | None => None
      | Some (f, false, ts) => Some (f, ts)
      | Some (f, true, ts) =>
          let f := cache_nonempty f (drop (pos + 1) buf) in
          let f := set_lineState f true (of_noNewLineCount f) in
          Some (cache_nonempty f remaining, ts)
      end
  end.

(** The loop labelled [out] of [handleBuffer] and what follows it. *)
Fixpoint send_buffer (f : serverOutputForwarder) (buf remaining : bytes) (ts : list tick)
  : option (serverOutputForwarder * list tick) :=
  match ts with
  | [] => None
  | t :: ts' =>
      let f := env_step f t in
      match of_chan f with
      | None => Some (cache_nonempty (set_chan f (Some buf)) remaining, ts')
      | Some _ =>
          if tk_timeout t then
            if tk_keep t then
              if tk_waitErr t then Some (f, ts') else send_buffer f buf remaining ts'
            else send_disconnected (if tk_drain2 t then drain f else f) buf remaining ts'
          else if of_returned f || of_writeError f then Some (f, ts')
          else send_buffer f buf remaining ts'
      end
  end.

(** The two discards at the start of [handleBuffer]. *)
Definition take_marker (f : serverOutputForwarder) (buf : bytes) : serverOutputForwarder * bytes :=
  match of_discardMarker f with
  | Some m => (clearOutput (set_discard f false None), m ++ buf)
  | None => (f, buf)
  end.

Definition take_discard (f : serverOutputForwarder) : serverOutputForwarder :=
  if of_discardOutput f then clearOutput (set_discard f false (of_discardMarker f)) else f.

(** [handleBuffer] after the discards. *)
Definition handleBuffer_rest (f : serverOutputForwarder) (buf : bytes) (ts : list tick)
  : option (serverOutputForwarder * list tick) :=
  match ts with
  | t1 :: t2 :: ts =>
      let f := env_step f t1 in
      if of_chHasNewLine f && tk_timeout t1 && negb (tk_keep t1)
      then Some (cacheOutput f buf, t2 :: ts)
      else match of_cacheLines f with
           | _ :: _ => flushOutput (cacheOutput f buf) (t2 :: ts)
           | [] =>
               let f := env_step f t2 in
               if tk_timeout t2 && negb (tk_keep t2) then
                 match bytes_IndexByte buf LF with
                 | Some pos =>
                     send_buffer (set_lineState f true (of_noNewLineCount f))
                       (take (pos + 1) buf) (drop (pos + 1) buf) ts
                 | None =>
                     if of_noNewLineCount f <? 3
                     then send_buffer (set_lineState f (of_chHasNewLine f) (of_noNewLineCount f + 1))
                            buf [] ts
                     else Some (cacheOutput (set_lineState f true (of_noNewLineCount f)) buf, ts)
                 end
               else send_buffer f buf [] ts
           end
  | _ => None
  end.

(** [handleBuffer] between [beginProcessing] and [endProcessing]. *)
Definition handleBuffer_body (f : serverOutputForwarder) (buf : bytes) (ts : list tick)
  : option (serverOutputForwarder * list tick) :=
  let '(f, buf) := take_marker f buf in
  match ts with
  | t :: ts => handleBuffer_rest (take_discard (env_step f t)) buf ts
  | [] => None
  end.

Definition handleBuffer (f : serverOutputForwarder) (buf : bytes) (ts : list tick)
  : option (serverOutputForwarder * list tick) := finish (handleBuffer_body f buf ts).

(** *** [handleError] and [forward] *)

(** A pass consumes a tick, and another one in [flushOutput]. *)
Fixpoint handleError_loop (fuel : nat) (f : serverOutputForwarder) (ts : list tick)
  : option (serverOutputForwarder * list tick) :=
  match of_cacheLines f with
  | [] => Some (f, ts)
  | _ =>
      if of_writeError f then Some (f, ts)
      else match fuel, ts with
           | S fuel', t :: ts =>
               let f := env_step f t in
               if tk_timeout t && tk_waitErr t then Some (f, ts)
               else match flushOutput f ts with
                    | None => None
                    | Some (f, ts) => handleError_loop fuel' f ts
                    end
           | _, _ => None
           end
  end.

Definition handleError (f : serverOutputForwarder) (ts : list tick)
  : option (serverOutputForwarder * list tick) := finish (handleError_loop (length ts) f ts).

(** The events of a forwarder's life: a buffer that was read, a reconnect while
    it is idle, and the read error that ends [forward], each with its schedule;
    a change of the session while it is idle. *)
Inductive out_event :=
| ReadBuf (buf : bytes) (ts : list tick)
| Reconnect (ts : list tick)
| ReadErr (ts : list tick)
| Session (e : sess_event).

Definition out_step (f : serverOutputForwarder) (e : out_event) : option serverOutputForwarder :=
  match e with
  | ReadBuf buf ts => match buf with [] => Some f | _ => fst <$> handleBuffer f buf ts end
  | Reconnect ts => fst <$> onReconnected f ts
  | ReadErr ts => fst <$> handleError f ts
  | Session e => Some (sess_step f e)
  end.

Fixpoint forward (f : serverOutputForwarder) (es : list out_event) : option serverOutputForwarder :=
  match es with
  | [] => Some f
  | e :: es' => match out_step f e with None => None | Some f' => forward f' es' end
  end.

(** ** Invariants *)

(** Everything handed to the transport and not yet sent, in order. *)
Definition flow (f : serverOutputForwarder) : bytes :=
  concat (of_written f) ++ default [] (of_chan f) ++ concat (of_cacheLines f).

(** Cached lines are never empty and their number is bounded, for a session that
    has had at most [R] rows. *)
Definition cache_ok (R : Z) (f : serverOutputForwarder) : Prop :=
  Forall (fun l => l <> []) (of_cacheLines f) /\
  Z.of_nat (length (of_cacheLines f)) <= Z.max maxPendingOutputLines (R * 2) /\ sv_rows (of_sess f) <= R.

Definition event_input (e : out_event) : bytes :=
  match e with ReadBuf buf _ => buf | _ => [] end.

Definition event_ticks (e : out_event) : list tick :=
  match e with ReadBuf _ ts | Reconnect ts | ReadErr ts => ts | Session _ => [] end.

(** What is done to the session in the course of a run. *)
Definition event_session (e : out_event) : list sess_event :=
  match e with Session e => [e] | _ => event_ticks e ≫= tk_session end.

Definition session_events (es : list out_event) : list sess_event := es ≫= event_session.

(** *** [cacheOutput] *)

Lemma next_line_app buf line rest :
  next_line buf = (line, rest) -> buf = line ++ rest.
Proof.
  unfold next_line. destruct (line_end buf); intros [= <- <-];
    [by rewrite take_drop | by rewrite app_nil_r].
Qed.

Lemma next_line_nonempty buf line rest :
  buf <> [] -> next_line buf = (line, rest) -> line <> [].
Proof.
  unfold next_line. intros Hb.
  destruct (line_end buf) as [p|]; intros [= <- <-]; [|done].
  rewrite Nat.add_1_r. by destruct buf.
Qed.

Lemma removelast_last {A} (l : list A) x :
  last l = Some x -> l = take (length l - 1) l ++ [x].
Proof.
  intros Hl. apply last_Some in Hl as [l' ->].
  rewrite length_app, Nat.add_sub, take_app_le, take_ge by (simpl; lia). done.
Qed.

Lemma concat_cache_line cl line : concat (cache_line cl line) = concat cl ++ line.
Proof.
  unfold cache_line. destruct (last cl) as [l|] eqn:Hl.
  - destruct (joins l line); [|by rewrite concat_app; simpl; rewrite app_nil_r].
    rewrite concat_app. simpl. rewrite app_nil_r, app_assoc. f_equal.
    pose proof (f_equal (@concat _) (removelast_last _ _ Hl)) as E.
    rewrite concat_app in E. simpl in E. by rewrite app_nil_r in E.
  - apply last_None in Hl as ->. simpl. by rewrite app_nil_r.
Qed.

Lemma cache_line_nonempty cl line :
  Forall (fun l => l <> []) cl -> line <> [] -> Forall (fun l => l <> []) (cache_line cl line).
Proof.
  intros Hcl Hl. unfold cache_line. destruct (last cl) as [l|] eqn:E; [|by apply Forall_singleton].
  destruct (joins l line); apply Forall_app; split; auto.
  - by apply Forall_take.
  - apply Forall_singleton. by destruct l, line.
Qed.

Lemma cache_loop_spec fuel cl buf :
  (length buf <= fuel)%nat ->
  concat (cache_loop fuel cl buf) = concat cl ++ buf /\
  (Forall (fun l => l <> []) cl -> Forall (fun l => l <> []) (cache_loop fuel cl buf)).
Proof.
  revert cl buf. induction fuel as [|fuel IH]; intros cl [|b buf] Hlen; simpl in Hlen; try lia;
    try (simpl; by rewrite app_nil_r).
  cbn [cache_loop]. destruct (next_line (b :: buf)) as [line rest] eqn:Hn.
  pose proof (next_line_app _ _ _ Hn) as Happ.
  assert (Hne : line <> []) by (by eapply (next_line_nonempty (b :: buf))).
  assert (length rest <= fuel)%nat.
  { apply (f_equal length) in Happ. rewrite length_app in Happ. simpl in Happ.
    assert (length line <> 0)%nat by (by rewrite length_zero_iff_nil). lia. }
  destruct (IH (cache_line cl line) rest) as [Hc Hf]; [done|]. split.
  - by rewrite Hc, concat_cache_line, <- app_assoc, <- Happ.
  - intros Hcl. apply Hf. by apply cache_line_nonempty.
Qed.

(** *** Predicates that every operation preserves *)

Lemma SetSize_redraw_same c resize s err req calls :
  SetSize c 0 0 true true None resize = (s, err, req, calls) -> s = c.
Proof.
  unfold SetSize. destruct c as [cl pt at_ id co ro]; cbn [sv_closed sv_pty sv_cols sv_rows].
  destruct cl, pt; cbn [negb]; try (by intros [= <- _ _ _]).
  cbn [Z.eqb andb]. rewrite !Z.eqb_refl. cbn [andb negb].
  destruct (resize co ro); by intros [= <- _ _ _].
Qed.

Create HintDb stable.

(** [P] is preserved by all operations on schedules whose changes of the session
    satisfy [Q]. *)
Section Stable.
Variable P : serverOutputForwarder -> Prop.
Variable Q : sess_event -> Prop.
Hypothesis P_drain : forall f, P f -> P (drain f).
Hypothesis P_flags : forall f t, P f -> P (set_flags f t).
Hypothesis P_sess : forall f e, Q e -> P f -> P (sess_step f e).
Hypothesis P_chan : forall f c, P f -> P (set_chan f c).
Hypothesis P_drop : forall f i, P f -> P (set_cacheLines f (drop i (of_cacheLines f))).
Hypothesis P_lineState : forall f b n, P f -> P (set_lineState f b n).
Hypothesis P_pending : forall f b, P f -> P (set_pending f b).
Hypothesis P_taken : forall f, P f -> P (set_discard f false None) /\ P (set_discard f false (of_discardMarker f)).
Hypothesis P_cache : forall f buf, P f -> P (cacheOutput f buf).
Hypothesis P_clear : forall f, P f -> P (clearOutput f).
Hypothesis P_reset : forall f, P f -> P (reset_discards f).
Hypothesis P_redraw : forall f, P f -> P (apply_request f (of_sess f) StoreDiscard) /\ P (apply_request f (of_sess f) NoRequest).

Definition okt (t : tick) : Prop := Forall Q (tk_session t).

(** What an operation leaves: a forwarder, and the rest of the schedule. *)
Definition kept (r : serverOutputForwarder * list tick) : Prop := P r.1 /\ Forall okt r.2.

Lemma P_env f t : okt t -> P f -> P (env_step f t).
Proof.
  intros Ht Hf. unfold env_step. apply P_flags.
  assert (H : P (if tk_drain t then drain f else f)) by (destruct (tk_drain t); auto).
  revert H. generalize (if tk_drain t then drain f else f). induction Ht as [|e es He _ IH]; intros g Hg; simpl; auto.
Qed.

#[local] Hint Resolve P_env P_drain P_chan P_drop P_lineState P_pending P_cache P_clear P_reset : stable.

Lemma flush_send_stable f line ts f' st ts' :
  P f -> Forall okt ts -> flush_send f line ts = Some (f', st, ts') -> kept (f', ts').
Proof.
  intros Hf Hts. revert f Hf. induction Hts as [|t ts Ht Hts IH]; intros f Hf; [done|].
  cbn [flush_send]. repeat case_match; intros; simplify_eq;
    first [by eapply IH; [|done]; auto with stable|split; simpl; auto with stable].
Qed.

Lemma flush_lines_stable f i todo ts f' ts' :
  P f -> Forall okt ts -> flush_lines f i todo ts = Some (f', ts') -> kept (f', ts').
Proof.
  revert f i ts. induction todo as [|l todo IH]; intros f i ts Hf Hts; cbn [flush_lines].
  - intros [= <- <-]. split; [|done]. apply P_lineState.
    rewrite <- (drop_all (of_cacheLines f)). auto with stable.
  - destruct (remove_all l ESC6n) eqn:?; [eauto|].
    destruct (flush_send f _ ts) as [[[g st] us]|] eqn:Hs; [|done].
    destruct (flush_send_stable _ _ _ _ _ _ Hf Hts Hs) as [Hg Hus].
    destruct st; [eauto|..]; intros [= <- <-]; (split; [|done]); [simpl; case_match|]; auto with stable.
Qed.

Lemma SetSize_redraw_request c resize s err req calls :
  SetSize c 0 0 true true None resize = (s, err, req, calls) -> req = StoreDiscard \/ req = NoRequest.
Proof. unfold SetSize. intros H. repeat case_match; simplify_eq; auto. Qed.

Lemma flushOutput_stable f ts f' ts' :
  P f -> Forall okt ts -> flushOutput f ts = Some (f', ts') -> kept (f', ts').
Proof.
  intros Hf Hts. unfold flushOutput. destruct (of_cacheLines f); [by intros [= <- <-]|].
  destruct Hts as [|t ts Ht Hts]; [done|]. pose proof (P_env f t Ht Hf) as He. set (g := env_step f t) in *.
  destruct (tk_timeout t); [by intros [= <- <-]|].
  destruct (0 <? _); [|intros Hfl; by apply flush_lines_stable in Hfl].
  destruct (SetSize _ _ _ _ _ _ _) as [[[s err] req] calls] eqn:HS.
  assert (Hr : P (apply_request g s req)).
  { pose proof (SetSize_redraw_request _ _ _ _ _ _ HS). apply SetSize_redraw_same in HS as ->.
    destruct (P_redraw g He). by destruct_or!; subst. }
  destruct err as [e|]; [|intros [= <- <-]; split; simpl; auto with stable].
  destruct (flush_send _ _ ts) as [[[h st] us]|] eqn:Hs; [|done].
  apply flush_send_stable in Hs as [Hh Hus]; [|done..]. simpl in Hh, Hus.
  destruct st; [intros Hfl; apply flush_lines_stable in Hfl; auto with stable|..]; by intros [= <- <-].
Qed.

Lemma endProcessing_stable fuel f ts f' ts' :
  P f -> Forall okt ts -> endProcessing fuel f ts = Some (f', ts') -> kept (f', ts').
Proof.
  revert f ts. induction fuel as [|fuel IH]; intros f ts Hf Hts; cbn [endProcessing];
    (destruct (_ && _); [|by intros [= <- <-]]); [done|].
  destruct (flushOutput _ ts) as [[g us]|] eqn:Hfl; [|done].
  apply flushOutput_stable in Hfl as [Hg Hus]; eauto with stable.
Qed.

Lemma finish_stable r f' ts' :
  (forall f ts, r = Some (f, ts) -> kept (f, ts)) -> finish r = Some (f', ts') -> kept (f', ts').
Proof.
  intros Hr. destruct r as [[f ts]|]; [|done].
  unfold finish. destruct (Hr f ts eq_refl). by apply endProcessing_stable.
Qed.

Lemma enqueue_stable f buf ts f' b ts' :
  P f -> Forall okt ts -> enqueueWhileDisconnected f buf ts = Some (f', b, ts') -> kept (f', ts').
Proof.
  intros Hf Hts. revert f Hf. induction Hts as [|t ts Ht Hts IH]; intros f Hf; [done|].
  cbn [enqueueWhileDisconnected]. repeat case_match; intros; simplify_eq;
    first [by eapply IH; [|done]; auto with stable|split; simpl; auto with stable].
Qed.

Lemma cache_nonempty_stable f buf : P f -> P (cache_nonempty f buf).
Proof. destruct buf; simpl; auto with stable. Qed.

#[local] Hint Resolve cache_nonempty_stable : stable.

Lemma send_disconnected_stable f buf remaining ts f' ts' :
  P f -> Forall okt ts -> send_disconnected f buf remaining ts = Some (f', ts') -> kept (f', ts').
Proof.
  intros Hf Hts. unfold send_disconnected.
  assert (exists g b2, P g /\ (match of_chan f with Some b => (set_chan f None, b ++ buf)
    | None => (f, buf) end) = (g, b2)) as (g & b2 & Hg & ->)
    by (destruct (of_chan f); eauto with stable).
  destruct (bytes_IndexByte b2 LF);
    (destruct (enqueueWhileDisconnected g _ ts) as [[[h b] us]|] eqn:He; [|done]);
    apply enqueue_stable in He as [Hh Hus]; auto; simpl in Hh, Hus;
    destruct b; intros [= <- <-]; (split; [|done]); simpl; auto with stable.
  case_match; auto with stable.
Qed.

Lemma send_buffer_stable f buf remaining ts f' ts' :
  P f -> Forall okt ts -> send_buffer f buf remaining ts = Some (f', ts') -> kept (f', ts').
Proof.
  intros Hf Hts. revert f Hf. induction Hts as [|t ts Ht Hts IH]; intros f Hf; [done|]. cbn [send_buffer].
  pose proof (P_env f t Ht Hf) as He.
  destruct (of_chan _); [|intros [= <- <-]; split; simpl; auto with stable].
  destruct (tk_timeout t); [destruct (tk_keep t); [destruct (tk_waitErr t)|]|destruct (_ || _)];
    try (by intros [= <- <-]); try (by apply IH).
  apply send_disconnected_stable; [|done]. case_match; auto with stable.
Qed.

Lemma take_discards_stable f t buf g b :
  P f -> okt t -> take_marker f buf = (g, b) -> P (take_discard (env_step g t)).
Proof.
  intros Hf Ht. unfold take_marker, take_discard. intros Hm.
  assert (Hg : P (env_step g t)).
  { apply P_env; [done|]. destruct (of_discardMarker f); simplify_eq; [|done]. apply P_clear. by destruct (P_taken f Hf). }
  destruct (of_discardOutput (env_step g t)); [|exact Hg]. apply P_clear. by destruct (P_taken _ Hg).
Qed.

Lemma handleBuffer_rest_stable f buf ts f' ts' :
  P f -> Forall okt ts -> handleBuffer_rest f buf ts = Some (f', ts') -> kept (f', ts').
Proof.
  intros Hf Hts. unfold handleBuffer_rest. destruct ts as [|t1 [|t2 ts]]; try done.
  inv Hts as [|? ? H1 Hts2]. inv Hts2 as [|? ? H2 Hts3]. cbv zeta.
  destruct (_ && _ && _); [intros [= <- <-]; split; [|by constructor]; simpl; auto with stable|].
  destruct (of_cacheLines _); [|apply flushOutput_stable; [auto with stable|by constructor]].
  destruct (_ && _); [|apply send_buffer_stable; auto with stable].
  destruct (bytes_IndexByte buf LF); [apply send_buffer_stable; auto with stable|].
  destruct (_ <? 3); [apply send_buffer_stable; auto with stable|].
  intros [= <- <-]; split; simpl; auto with stable.
Qed.

Lemma handleBuffer_body_stable f buf ts f' ts' :
  P f -> Forall okt ts -> handleBuffer_body f buf ts = Some (f', ts') -> kept (f', ts').
Proof.
  intros Hf Hts. unfold handleBuffer_body. destruct (take_marker f buf) as [g b] eqn:Hd.
  destruct Hts as [|t ts Ht Hts]; [done|]. apply handleBuffer_rest_stable; [|done]. by eapply take_discards_stable.
Qed.

Lemma handleError_loop_stable fuel f ts f' ts' :
  P f -> Forall okt ts -> handleError_loop fuel f ts = Some (f', ts') -> kept (f', ts').
Proof.
  revert f ts. induction fuel as [|fuel IH]; intros f ts Hf Hts; cbn [handleError_loop];
    (destruct (of_cacheLines f); [by intros [= <- <-]|]);
    (destruct (of_writeError f); [by intros [= <- <-]|]); [done|].
  destruct Hts as [|t ts Ht Hts]; [done|].
  destruct (_ && _); [intros [= <- <-]; split; simpl; auto with stable|].
  destruct (flushOutput _ ts) as [[g us]|] eqn:Hfl; [|done].
  apply flushOutput_stable in Hfl as [Hg Hus]; eauto with stable.
Qed.

Lemma okt_ticks ts : Forall Q (ts ≫= tk_session) -> Forall okt ts.
Proof. induction ts as [|t ts IH]; [constructor|]. intros [? ?]%Forall_app. constructor; auto. Qed.

Lemma out_step_stable f e f' : P f -> Forall Q (event_session e) -> out_step f e = Some f' -> P f'.
Proof.
  intros Hf HQ. destruct e as [buf ts|ts|ts|e]; cbn [out_step event_session event_ticks] in *; try apply okt_ticks in HQ.
  - destruct buf; [by intros [= <-]|]. intros (x & Hx & ->)%fmap_Some. destruct x as [g us].
    eapply finish_stable in Hx; [apply Hx|].
    intros ?? Hb. by eapply handleBuffer_body_stable in Hb.
  - intros (x & Hx & ->)%fmap_Some. destruct x as [g us]. unfold onReconnected in Hx.
    destruct (of_returned f); [simplify_eq; done|].
    eapply finish_stable in Hx; [apply Hx|]. intros ?? Hb. by eapply flushOutput_stable in Hb.
  - intros (x & Hx & ->)%fmap_Some. destruct x as [g us].
    eapply finish_stable in Hx; [apply Hx|]. intros ?? Hb. by eapply handleError_loop_stable in Hb.
  - intros [= <-]. inv HQ. auto.
Qed.

Lemma forward_stable es f f' : P f -> Forall Q (session_events es) -> forward f es = Some f' -> P f'.
Proof.
  revert f. induction es as [|e es IH]; intros f Hf HQ; cbn [forward]; [by intros [= <-]|].
  apply Forall_app in HQ as [HQ1 HQ2].
  destruct (out_step f e) eqn:He; [|done]. apply IH; [|done]. by eapply out_step_stable.
Qed.

End Stable.

(** *** Bounded memory *)

Lemma cache_ok_cacheOutput R f buf : cache_ok R f -> cache_ok R (cacheOutput f buf).
Proof.
  intros (Hne & _ & HR). destruct f as [s rp re we ch wr cl tp nl nn dl db vc dd dm lo rep si].
  simpl in Hne, HR. unfold cacheOutput, cache_ok.
  destruct (cache_loop_spec (length buf) cl buf) as [_ Hl]; [lia|]. specialize (Hl Hne).
  unfold maxLines, maxPendingOutputLines in *.
  destruct (Z.ltb_spec (Z.max 1000 (sv_rows s * 2)) (Z.of_nat (length (cache_loop (length buf) cl buf)))) as [Hlt|Hge];
    cbn [of_cacheLines of_sess]; [|split_and!; [done|lia|done]].
  split_and!; [by apply Forall_drop| |done]. rewrite length_drop. lia.
Qed.

Definition rows_within (R : Z) (e : sess_event) : Prop :=
  match e with StoreSize _ rows => rows <= R | _ => True end.

Lemma cache_ok_stable R es f f' :
  cache_ok R f -> Forall (rows_within R) (session_events es) -> forward f es = Some f' -> cache_ok R f'.
Proof.
  apply forward_stable; clear; intros f.
  - by destruct f.
  - by destruct f.
  - intros e He (Hne & Hl & HR). destruct f, e as [[]| | |]; by split_and!.
  - by destruct f.
  - intros i (Hne & Hl & HR). destruct f; split_and!; simpl in *; [by apply Forall_drop| |done].
    rewrite length_drop. lia.
  - by destruct f.
  - by destruct f.
  - by destruct f.
  - intros buf. apply cache_ok_cacheOutput.
  - intros (_ & Hl & HR). destruct f; split_and!; simpl in *; [done|lia|done].
  - by destruct f.
  - by destruct f.
Qed.

(** *** Accounting of dropped lines *)

Definition zsum (l : list Z) : Z := foldr Z.add 0 l.

(** The counts reported, reset silently and still pending add up to what was
    dropped, as 64-bit counters. *)
Definition accounted (f : serverOutputForwarder) : Prop :=
  u64 (zsum (fst <$> of_reports f) + zsum (fst <$> of_silent f) + of_discardLines f)
    = u64 (Z.of_nat (length (of_lost f))) /\
  u64 (zsum (snd <$> of_reports f) + zsum (snd <$> of_silent f) + of_discardBytes f)
    = u64 (total_length (of_lost f)).

Lemma zsum_app l k : zsum (l ++ k) = zsum l + zsum k.
Proof. unfold zsum. rewrite foldr_app. induction l as [|x l IH]; simpl; lia. Qed.

Lemma total_length_app l k : total_length (l ++ k) = total_length l + total_length k.
Proof. unfold total_length. rewrite concat_app, length_app. lia. Qed.

Lemma u64_add_r a b : u64 (a + u64 b) = u64 (a + b).
Proof. unfold uwrap. apply Zplus_mod_idemp_r. Qed.

Lemma u64_congr a b c : u64 a = u64 b -> u64 (a + c) = u64 (b + c).
Proof. unfold uwrap. intros H. rewrite Zplus_mod, H, <- Zplus_mod. done. Qed.

Lemma accounted_cacheOutput f buf : accounted f -> accounted (cacheOutput f buf).
Proof.
  destruct f as [s rp re we ch wr cl tp nl nn dl db vc dd dm lo rep si]. unfold cacheOutput.
  set (c2 := cache_loop _ _ _). assert (0 <= maxLines s) by (unfold maxLines, maxPendingOutputLines; lia).
  destruct (Z.ltb_spec (maxLines s) (Z.of_nat (length c2))) as [Hlt|Hge]; [|done].
  unfold accounted. cbn [of_reports of_silent of_discardLines of_discardBytes of_lost]. intros [Hl Hb].
  rewrite length_app, Nat2Z.inj_add, total_length_app, !u64_add_r, !Z.add_assoc.
  rewrite length_take_le, Z2Nat.id by lia. split; by apply u64_congr.
Qed.

Lemma accounted_clearOutput f : accounted f -> accounted (clearOutput f).
Proof.
  destruct f as [s rp re we ch wr cl tp nl nn dl db vc dd dm lo rep si]. unfold clearOutput, accounted.
  cbn [of_reports of_silent of_discardLines of_discardBytes of_lost]. intros [Hl Hb].
  rewrite length_app, Nat2Z.inj_add, total_length_app, !fmap_app, !zsum_app, !Z.add_0_r.
  assert (Hsum : forall a b c d : Z, u64 (a + b + d) = u64 c -> forall k,
    u64 (a + u64 (d + k) + b) = u64 (c + k) /\ u64 (a + (b + u64 (d + k))) = u64 (c + k)).
  { intros a b c d H k.
    replace (a + u64 (d + k) + b) with (a + b + u64 (d + k)) by lia.
    replace (a + (b + u64 (d + k))) with (a + b + u64 (d + k)) by lia.
    rewrite u64_add_r, Z.add_assoc. split; by apply u64_congr. }
  destruct (_ && sv_attached s); cbn [fmap list_fmap zsum foldr fst snd];
    rewrite ?Z.add_0_r; split; first [apply (Hsum _ _ _ dl Hl) | apply (Hsum _ _ _ db Hb)].
Qed.

Lemma accounted_stable es f f' : accounted f -> forward f es = Some f' -> accounted f'.
Proof.
  intros Hf Hrun. apply (forward_stable accounted (fun _ => True)) in Hrun; [done|..|done|by apply Forall_true];
    clear; intros f; try (by destruct f).
  - intros e _. by destruct f, e as [[]| | |].
  - intros buf. apply accounted_cacheOutput.
  - apply accounted_clearOutput.
  - destruct f. unfold accounted. simpl. rewrite !fmap_app, !zsum_app.
    cbn [fmap list_fmap zsum foldr fst snd]. rewrite !Z.add_0_r. intros [<- <-].
    split; f_equal; lia.
Qed.

(** *** Cursor position requests

    On replay [flushOutput] takes the requests [ESC6n] out of the cached lines.
    Output that is taken back from the queue may go through it twice. *)

Inductive strip1 : bytes -> bytes -> Prop := Strip a b : strip1 (a ++ ESC6n ++ b) (a ++ b).

Definition strips : bytes -> bytes -> Prop := rtc strip1.

Definition clean (s : bytes) : Prop := bytes_Index s ESC6n = None.

Lemma strips_app s s' t t' : strips s s' -> strips t t' -> strips (s ++ t) (s' ++ t').
Proof.
  intros Hs Ht. trans (s' ++ t).
  - induction Hs as [|s1 s2 s3 [a b] _ IH]; [done|]. eapply rtc_l; [|exact IH].
    rewrite <- !app_assoc. apply (Strip a (b ++ t)).
  - clear Hs. induction Ht as [|s1 s2 s3 [a b] _ IH]; [done|]. eapply rtc_l; [|exact IH].
    rewrite !(app_assoc s'). apply (Strip (s' ++ a) b).
Qed.

Lemma strips_remove_all s : strips s (remove_all s ESC6n).
Proof.
  unfold remove_all. generalize (le_n (length s)). generalize (length s) at 2 3.
  intros fuel. revert s. induction fuel as [|fuel IH]; intros s Hlen; [by destruct s; [|simpl in Hlen; lia]|].
  destruct s as [|b s]; [done|]. cbn [remove_all_fuel]. destruct (has_prefix (b :: s) ESC6n) eqn:Hp.
  - apply has_prefix_spec in Hp as [k Hk]. rewrite Hk, drop_app_length. eapply rtc_l; [apply (Strip [] k)|].
    apply IH. apply (f_equal length) in Hk. rewrite length_app in Hk. simpl in Hk, Hlen. lia.
  - apply (strips_app [b] [b]); [done|]. apply IH. simpl in Hlen. lia.
Qed.

Lemma strips_clean s t : clean s -> strips s t -> t = s.
Proof.
  intros Hc Hs. destruct Hs as [|s1 s2 s3 [a b] _]; [done|]. exfalso.
  apply bytes_Index_None_app_r, bytes_Index_None_app_l in Hc. by vm_compute in Hc.
Qed.

Lemma clean_lines l : clean (concat l) -> Forall clean l.
Proof.
  induction l as [|x l IH]; [done|]. cbn [concat]. unfold clean. intros H. constructor.
  - by eapply bytes_Index_None_app_l.
  - apply IH. by eapply bytes_Index_None_app_r.
Qed.

(** *** In-order delivery

    [wire] is what has been handed to the writer.  On a schedule without
    failures ([live]), and as long as nothing is dropped, every operation
    appends its input to [flow], strips it, and changes nothing else. *)

Definition wire (f : serverOutputForwarder) : bytes :=
  concat (of_written f) ++ default [] (of_chan f).

Definition live (t : tick) : bool :=
  negb (tk_writeError t) && negb (tk_returned t) && negb (tk_waitErr t).

Record calm (f : serverOutputForwarder) : Prop := {
  calm_returned : of_returned f = false;
  calm_writeError : of_writeError f = false;
  calm_lines : of_discardLines f = 0
}.

Lemma flow_wire f : flow f = wire f ++ concat (of_cacheLines f).
Proof. unfold flow, wire. by rewrite app_assoc. Qed.

Lemma wire_drain f : wire (drain f) = wire f.
Proof.
  destruct f as [s rp re we ch wr cl tp nl nn dl db vc dd dm lo rep si].
  unfold wire. simpl. rewrite concat_app, app_nil_r. destruct ch; simpl; by rewrite ?app_nil_r.
Qed.

Lemma wire_set_chan f b : of_chan f = None -> wire (set_chan f (Some b)) = wire f ++ b.
Proof. destruct f. simpl. intros ->. unfold wire. simpl. by rewrite app_nil_r. Qed.

(** What [env_step] and [set_chan] leave alone. *)
Definition same_core (f f' : serverOutputForwarder) : Prop :=
  (calm f -> calm f') /\ of_cacheLines f' = of_cacheLines f /\ of_lost f' = of_lost f.

Lemma same_core_refl f : same_core f f.
Proof. by split_and!. Qed.

Lemma same_core_trans f g h : same_core f g -> same_core g h -> same_core f h.
Proof. intros (?&?&?) (?&?&?). split_and!; [auto|congruence..]. Qed.

Lemma sess_steps_core es f :
  same_core f (fold_left sess_step es f) /\ wire (fold_left sess_step es f) = wire f.
Proof.
  revert f. induction es as [|e es IH]; intros f; [by split; [apply same_core_refl|]|].
  destruct (IH (sess_step f e)) as [H1 H2]. simpl. rewrite H2. split; [eapply same_core_trans; [|exact H1]|].
  - destruct f, e as [[]| | |]; split_and!; try done; by intros [].
  - by destruct f, e as [[]| | |].
Qed.

Lemma env_step_live f t : live t = true -> same_core f (env_step f t) /\ wire (env_step f t) = wire f.
Proof.
  unfold live. intros Hl. bool_to_prop. unfold env_step.
  set (g := if tk_drain t then drain f else f).
  assert (Hg : same_core f g /\ wire g = wire f).
  { unfold g. destruct (tk_drain t); [|by split; [apply same_core_refl|]]. split; [|apply wire_drain].
    destruct f. split_and!; try done. by intros []. }
  destruct Hg as [Hg Hwg]. destruct (sess_steps_core (tk_session t) g) as [Hh Hwh].
  set (h := fold_left _ _ _) in *. rewrite <- Hwg, <- Hwh. split; [|by destruct h].
  eapply same_core_trans; [exact Hg|]. eapply same_core_trans; [exact Hh|].
  destruct h. split_and!; try done. intros []; simpl in *; subst.
  constructor; simpl; by destruct (tk_returned t), (tk_writeError t).
Qed.

Lemma same_core_set_chan f c : same_core f (set_chan f c).
Proof. destruct f. split_and!; try done. by intros []. Qed.

Lemma flush_send_flow f line ts f' st ts' :
  calm f -> Forall (fun t => live t = true) ts ->
  flush_send f line ts = Some (f', st, ts') ->
  same_core f f' /\ Forall (fun t => live t = true) ts' /\
  match st with Sent => wire f' = wire f ++ line | TimedOut => wire f' = wire f | Dead => False end.
Proof.
  revert f. induction ts as [|t ts IH]; intros f Hc Hl; [done|].
  inv Hl as [|? ? Ht Hts]. cbn [flush_send].
  destruct (env_step_live f t Ht) as [Hsc Hw]. destruct Hsc as (Hc' & Hcl & Hlo).
  destruct (of_chan (env_step f t)) eqn:Hch.
  - destruct (tk_timeout t); [intros [= <- <- <-]; by split_and!|].
    destruct (Hc' Hc) as [-> -> _]. simpl. intros Hs.
    destruct (IH _ (Hc' Hc) Hts Hs) as (Hsc2 & ? & Hst). split_and!; [|done|].
    + by eapply same_core_trans.
    + by rewrite Hw in Hst.
  - intros [= <- <- <-]. split_and!; [|done|].
    + by eapply same_core_trans; [|apply same_core_set_chan].
    + by rewrite wire_set_chan, Hw.
Qed.

Lemma flush_lines_flow f i todo ts f' ts' :
  calm f -> Forall (fun t => live t = true) ts ->
  todo = drop i (of_cacheLines f) ->
  flush_lines f i todo ts = Some (f', ts') ->
  calm f' /\ Forall (fun t => live t = true) ts' /\ strips (wire f ++ concat todo) (flow f').
Proof.
  revert f i ts. induction todo as [|l todo IH]; intros f i ts Hc Hl Htodo; cbn [flush_lines].
  - intros [= <- <-]. split_and!; [by destruct f, Hc|done|]. rewrite flow_wire. by destruct f.
  - pose proof (strips_remove_all l) as Hstrip.
    assert (Hnext : todo = drop (S i) (of_cacheLines f)).
    { rewrite <- Nat.add_1_r, <- drop_drop, <- Htodo. done. }
    cbn [concat]. destruct (remove_all l ESC6n) as [|b line].
    { intros Hfl. destruct (IH f (S i) ts Hc Hl Hnext Hfl) as (? & ? & Hf). split_and!; [done..|].
      etrans; [|exact Hf]. apply strips_app; [done|]. by apply (strips_app l [] (concat todo)). }
    destruct (flush_send f (b :: line) ts) as [[[g st] us]|] eqn:Hs; [|done].
    destruct (flush_send_flow _ _ _ _ _ _ Hc Hl Hs) as ((Hcg & Hcache & _) & Hus & Hst).
    destruct st; [|intros [= <- <-]|done].
    + intros Hfl. destruct (IH g (S i) us) as (? & ? & Hflow); auto; [congruence|].
      split_and!; [done..|]. etrans; [|exact Hflow]. rewrite Hst, <- app_assoc.
      apply strips_app; [done|]. by apply strips_app.
    + split_and!; [|done|].
      * destruct (0 <? i)%nat; [|auto]. destruct g, (Hcg Hc); by constructor.
      * change (l ++ concat todo) with (concat (l :: todo)). rewrite flow_wire. destruct (Nat.ltb_spec 0 i).
        -- rewrite <- Hst. destruct g. simpl in *. by rewrite Hcache, <- Htodo.
        -- replace i with 0%nat in * by lia. rewrite Hst, Hcache, Htodo. done.
Qed.

Lemma flushOutput_flow f ts f' ts' :
  calm f -> Forall (fun t => live t = true) ts ->
  flushOutput f ts = Some (f', ts') ->
  calm f' /\ Forall (fun t => live t = true) ts' /\ strips (flow f) (flow f').
Proof.
  intros Hc Hl. unfold flushOutput.
  destruct (of_cacheLines f) eqn:Hcache; [by intros [= <- <-]|]. clear Hcache.
  destruct ts as [|t ts]; [done|]. inv Hl as [|? ? Ht Hts].
  destruct (env_step_live f t Ht) as [(Hc' & Hca & Hlo) Hw]. specialize (Hc' Hc).
  assert (Hflow : flow (env_step f t) = flow f) by (by rewrite !flow_wire, Hca, Hw).
  rewrite <- Hflow. destruct (tk_timeout t); [by intros [= <- <-]|].
  rewrite (calm_lines _ Hc'). cbn [Z.ltb Z.compare]. intros Hfl.
  apply flush_lines_flow in Hfl as (? & ? & Hf'); [|done..].
  split_and!; [done..|]. by rewrite flow_wire.
Qed.

Lemma calm_set_pending f b : calm f -> calm (set_pending f b) /\ flow (set_pending f b) = flow f.
Proof. intros []. destruct f. by split. Qed.

Lemma endProcessing_flow fuel f ts f' ts' :
  calm f -> Forall (fun t => live t = true) ts ->
  endProcessing fuel f ts = Some (f', ts') ->
  calm f' /\ Forall (fun t => live t = true) ts' /\ strips (flow f) (flow f').
Proof.
  revert f ts. induction fuel as [|fuel IH]; intros f ts Hc Hl; cbn [endProcessing];
    (destruct (_ && _); [|by intros [= <- <-]]); [done|].
  destruct (calm_set_pending f false Hc) as [Hc1 Hf1].
  destruct (flushOutput _ ts) as [[g us]|] eqn:Hfl; [|done].
  apply flushOutput_flow in Hfl as (Hc2 & Hus & Hf2); [|done..].
  intros Hend. apply IH in Hend as (? & ? & Hf3); [|done..].
  split_and!; [done..|]. rewrite <- Hf1. by etrans.
Qed.

Lemma cacheOutput_flow f buf :
  calm f -> of_lost (cacheOutput f buf) = [] ->
  calm (cacheOutput f buf) /\ flow (cacheOutput f buf) = flow f ++ buf.
Proof.
  intros []. destruct f as [s rp re we ch wr cl tp nl nn dl db vc dd dm lo rep si]. unfold cacheOutput.
  set (c2 := cache_loop (length buf) cl buf).
  assert (0 <= maxLines s) by (unfold maxLines, maxPendingOutputLines; lia).
  destruct (Z.ltb_spec (maxLines s) (Z.of_nat (length c2))) as [Hlt|Hge]; cbn [of_lost].
  - intros [_ Hd]%app_nil. apply (f_equal length) in Hd. rewrite length_take in Hd. simpl in Hd. lia.
  - intros _. split; [by constructor|]. unfold flow. cbn [of_written of_chan of_cacheLines].
    unfold c2. destruct (cache_loop_spec (length buf) cl buf) as [-> _]; [lia|].
    by rewrite !app_assoc.
Qed.

Lemma cache_nonempty_flow f buf :
  calm f -> of_lost (cache_nonempty f buf) = [] ->
  calm (cache_nonempty f buf) /\ flow (cache_nonempty f buf) = flow f ++ buf.
Proof. destruct buf; [by rewrite app_nil_r | apply cacheOutput_flow]. Qed.

Lemma set_lineState_flow f b n : calm f -> calm (set_lineState f b n) /\ flow (set_lineState f b n) = flow f
  /\ of_lost (set_lineState f b n) = of_lost f.
Proof. intros []. destruct f. by split_and!. Qed.

Lemma lost_cache_nonempty f buf : of_lost (cache_nonempty f buf) = [] -> of_lost f = [].
Proof.
  destruct buf as [|b buf]; [done|]. simpl. destruct f. unfold cacheOutput.
  destruct (_ <? _); cbn [of_lost]; [|done]. by intros [? _]%app_nil.
Qed.

Lemma enqueue_flow f buf ts f' b ts' :
  calm f -> Forall (fun t => live t = true) ts ->
  enqueueWhileDisconnected f buf ts = Some (f', b, ts') ->
  b = true /\ same_core f f' /\ Forall (fun t => live t = true) ts' /\ wire f' = wire f ++ buf.
Proof.
  revert f. induction ts as [|t ts IH]; intros f Hc Hl; [done|].
  inv Hl as [|? ? Ht Hts]. cbn [enqueueWhileDisconnected].
  destruct (env_step_live f t Ht) as [Hsc Hw]. pose proof (proj1 Hsc Hc) as Hc'.
  destruct (of_chan (env_step f t)) eqn:Hch.
  - destruct Hc' as [Hr He ?]. rewrite Hr, He. simpl. intros Hs.
    destruct (IH _ ltac:(by constructor) Hts Hs) as (-> & Hsc2 & ? & Hst). split_and!; [done| |done|].
    + by eapply same_core_trans.
    + by rewrite Hst, Hw.
  - intros [= <- <- <-]. split_and!; [done| |done|].
    + by eapply same_core_trans; [|apply same_core_set_chan].
    + by rewrite wire_set_chan, Hw.
Qed.

(** The end of [handleBuffer] once [buf] is on the wire and the rest is
    cached. *)
Lemma send_tail f g buf left b n remaining :
  calm f -> of_cacheLines f = [] -> same_core f g -> wire g = wire f ++ buf ->
  let h := cache_nonempty (set_lineState (cache_nonempty g left) b n) remaining in
  of_lost h = [] -> calm h /\ flow h = wire f ++ buf ++ left ++ remaining.
Proof.
  intros Hc Hnil (Hcg & Hca & _) Hw h Hlost. specialize (Hcg Hc).
  assert (Hlost1 : of_lost (cache_nonempty g left) = []).
  { apply lost_cache_nonempty in Hlost. by destruct (cache_nonempty g left). }
  destruct (cache_nonempty_flow g left Hcg Hlost1) as [Hc1 Hf1].
  destruct (set_lineState_flow (cache_nonempty g left) b n Hc1) as (Hc2 & Hf2 & _).
  destruct (cache_nonempty_flow _ remaining Hc2 Hlost) as [Hc3 Hf3].
  split; [done|]. unfold h. rewrite Hf3, Hf2, Hf1, flow_wire, Hca, Hnil, Hw.
  simpl. by rewrite app_nil_r, <- !app_assoc.
Qed.

Lemma send_disconnected_flow f buf remaining ts f' ts' :
  calm f -> of_cacheLines f = [] -> Forall (fun t => live t = true) ts ->
  send_disconnected f buf remaining ts = Some (f', ts') -> of_lost f' = [] ->
  calm f' /\ Forall (fun t => live t = true) ts' /\ flow f' = wire f ++ buf ++ remaining.
Proof.
  intros Hc Hnil Hl. unfold send_disconnected.
  assert (exists g b2, same_core f g /\ wire g ++ b2 = wire f ++ buf /\
    (match of_chan f with Some b => (set_chan f None, b ++ buf) | None => (f, buf) end) = (g, b2))
    as (g & b2 & Hsc & Hw & ->).
  { destruct (of_chan f) eqn:Hch; [|by exists f, buf].
    eexists _, _; split_and!; [apply same_core_set_chan| |done].
    destruct f. simpl in *. subst. unfold wire. simpl. by rewrite app_nil_r, <- app_assoc. }
  pose proof (proj1 Hsc Hc) as Hcg.
  assert (Hnilg : of_cacheLines g = []) by (by rewrite (proj1 (proj2 Hsc))).
  destruct (bytes_IndexByte b2 LF) as [pos|];
    (destruct (enqueueWhileDisconnected g _ ts) as [[[h b] us]|] eqn:He; [|done]);
    destruct (enqueue_flow _ _ _ _ _ _ Hcg Hl He) as (-> & Hsch & Hus & Hwh); intros [= <- <-] Hlost.
  - destruct (send_tail g h _ _ _ _ remaining Hcg Hnilg Hsch Hwh Hlost) as [? Hf].
    split_and!; [done..|]. by rewrite Hf, (app_assoc (take _ _)), take_drop, app_assoc, Hw, <- app_assoc.
  - set (b := if of_noNewLineCount h <? 3 then of_chHasNewLine h else true) in *.
    set (n := if of_noNewLineCount h <? 3 then of_noNewLineCount h + 1 else of_noNewLineCount h) in *.
    assert (Heq : (if of_noNewLineCount h <? 3
      then set_lineState h (of_chHasNewLine h) (of_noNewLineCount h + 1)
      else set_lineState h true (of_noNewLineCount h)) = set_lineState (cache_nonempty h []) b n)
      by (unfold b, n; by destruct (_ <? 3)).
    rewrite Heq in *.
    destruct (send_tail g h _ _ _ _ remaining Hcg Hnilg Hsch Hwh Hlost) as [? Hf].
    split_and!; [done..|]. rewrite Hf. simpl. by rewrite app_assoc, Hw, <- app_assoc.
Qed.

Lemma send_buffer_flow f buf remaining ts f' ts' :
  calm f -> of_cacheLines f = [] -> Forall (fun t => live t = true) ts ->
  send_buffer f buf remaining ts = Some (f', ts') -> of_lost f' = [] ->
  calm f' /\ Forall (fun t => live t = true) ts' /\ flow f' = wire f ++ buf ++ remaining.
Proof.
  revert f. induction ts as [|t ts IH]; intros f Hc Hnil Hl; [done|].
  inv Hl as [|? ? Ht Hts]. cbn [send_buffer].
  destruct (env_step_live f t Ht) as [Hsc Hw]. pose proof (proj1 Hsc Hc) as Hc'.
  assert (Hnil' : of_cacheLines (env_step f t) = []) by (by rewrite (proj1 (proj2 Hsc))).
  destruct (of_chan (env_step f t)) eqn:Hch.
  - rewrite <- Hw. destruct (tk_timeout t).
    + destruct (tk_keep t).
      * replace (tk_waitErr t) with false by (unfold live in Ht; destruct (tk_waitErr t); bool_to_prop; done).
        by apply IH.
      * destruct (tk_drain2 t); [|by apply send_disconnected_flow].
        rewrite <- (wire_drain (env_step f t)). apply send_disconnected_flow; [| |done].
        -- destruct (env_step f t). destruct Hc'; by constructor.
        -- by destruct (env_step f t).
    + rewrite (calm_returned _ Hc'), (calm_writeError _ Hc'). by apply IH.
  - intros [= <- <-] Hlost.
    pose proof (wire_set_chan _ buf Hch) as Hw2.
    destruct (same_core_set_chan (env_step f t) (Some buf)) as (Hc2 & Hca & _).
    destruct (cache_nonempty_flow _ remaining (Hc2 Hc') Hlost) as [? Hf].
    split_and!; [done..|]. rewrite Hf, flow_wire, Hca, Hnil', Hw2, Hw. simpl.
    by rewrite app_nil_r, app_assoc.
Qed.

(** Dropped lines stay dropped. *)
Lemma of_lost_sess f e : of_lost (sess_step f e) = of_lost f.
Proof. by destruct f, e as [[]| | |]. Qed.

Section Lost.
Context (f : serverOutputForwarder).

Definition lost_from (g : serverOutputForwarder) : Prop := of_lost f `prefix_of` of_lost g.

Ltac lost_mono :=
  let f := fresh "f" in unfold lost_from; intros f; intros; rewrite ?of_lost_sess;
  first [done | destruct f; unfold cacheOutput in *; repeat case_match; simpl in *; by auto using prefix_app_r].

Lemma lost_refl : lost_from f.
Proof. by unfold lost_from. Qed.

Lemma okt_any ts : Forall (okt (fun _ => True)) ts.
Proof. apply Forall_true. intros t. by apply Forall_true. Qed.

Lemma lost_flushOutput ts f' ts' : flushOutput f ts = Some (f', ts') -> lost_from f'.
Proof. intros H. apply (flushOutput_stable lost_from (fun _ => True)) in H as [? _]; [done|lost_mono..|exact lost_refl|apply okt_any]. Qed.

Lemma lost_endProcessing fuel ts f' ts' : endProcessing fuel f ts = Some (f', ts') -> lost_from f'.
Proof. intros H. apply (endProcessing_stable lost_from (fun _ => True)) in H as [? _]; [done|lost_mono..|exact lost_refl|apply okt_any]. Qed.

Lemma lost_rest buf ts f' ts' : handleBuffer_rest f buf ts = Some (f', ts') -> lost_from f'.
Proof. intros H. apply (handleBuffer_rest_stable lost_from (fun _ => True)) in H as [? _]; [done|lost_mono..|exact lost_refl|apply okt_any]. Qed.

Lemma lost_forward es f' : forward f es = Some f' -> lost_from f'.
Proof. intros H. apply (forward_stable lost_from (fun _ => True)) in H; [done|lost_mono..|exact lost_refl|by apply Forall_true]. Qed.

Lemma lost_from_nil g : lost_from g -> of_lost g = [] -> of_lost f = [].
Proof. unfold lost_from. intros Hp E. rewrite E in Hp. by apply prefix_nil_inv in Hp. Qed.

End Lost.

Lemma clearOutput_flow f :
  calm f -> of_lost (clearOutput f) = [] -> calm (clearOutput f) /\ flow (clearOutput f) = flow f /\ of_lost f = [].
Proof.
  intros []. destruct f as [s rp re we ch wr cl tp nl nn dl db vc dd dm lo rep si]. simpl.
  intros [-> ->]%app_nil. by split_and!.
Qed.

Lemma take_discard_flow f :
  calm f -> of_lost (take_discard f) = [] -> calm (take_discard f) /\ flow (take_discard f) = flow f /\ of_lost f = [].
Proof.
  intros Hc. unfold take_discard. destruct (of_discardOutput f); [|done]. intros Hl.
  destruct (clearOutput_flow (set_discard f false (of_discardMarker f))) as (? & ? & ?); [by destruct f, Hc|done|].
  by destruct f.
Qed.

Lemma take_marker_flow f buf g b :
  calm f -> take_marker f buf = (g, b) -> of_lost g = [] ->
  calm g /\ flow g = flow f /\ b = default [] (of_discardMarker f) ++ buf.
Proof.
  intros Hc. unfold take_marker. destruct (of_discardMarker f) as [m|] eqn:Em; intros [= <- <-] Hl; [|done].
  destruct (clearOutput_flow (set_discard f false None)) as (? & ? & ?); [by destruct f, Hc|done|]. by destruct f.
Qed.

Lemma finish_flow r f' ts' :
  finish r = Some (f', ts') -> of_lost f' = [] ->
  exists f ts, r = Some (f, ts) /\ of_lost f = [] /\
    (calm f -> Forall (fun t => live t = true) ts -> calm f' /\ strips (flow f) (flow f')).
Proof.
  destruct r as [[f ts]|]; [|done]. unfold finish. intros Hend Hlost. exists f, ts.
  split_and!; [done|by eapply lost_from_nil; [eapply lost_endProcessing|]|].
  intros Hc Hl. by apply endProcessing_flow in Hend as (? & ? & ?).
Qed.

Lemma handleBuffer_rest_flow f buf ts f' ts' :
  calm f -> Forall (fun t => live t = true) ts ->
  handleBuffer_rest f buf ts = Some (f', ts') -> of_lost f' = [] ->
  calm f' /\ Forall (fun t => live t = true) ts' /\ strips (flow f ++ buf) (flow f').
Proof.
  intros Hc Hl. unfold handleBuffer_rest.
  destruct ts as [|t1 [|t2 ts]]; try done. inv Hl as [|? ? H1 Hl2]. inv Hl2 as [|? ? H2 Hts].
  destruct (env_step_live f t1 H1) as [(Hc1' & Hca1 & _) Hw1]. specialize (Hc1' Hc). cbv zeta.
  set (f1 := env_step f t1) in *.
  assert (Hf1 : flow f1 = flow f) by (by rewrite !flow_wire, Hca1, Hw1). rewrite <- Hf1.
  destruct (_ && _ && _).
  { intros [= <- <-] Hlost. destruct (cacheOutput_flow f1 buf Hc1' Hlost) as [? ->].
    split_and!; [done|by constructor|done]. }
  destruct (of_cacheLines f1) as [|l ls] eqn:Hnil.
  2:{ intros Hfl Hlost. pose proof (lost_from_nil _ _ (lost_flushOutput _ _ _ _ Hfl) Hlost) as Hcl1.
      destruct (cacheOutput_flow f1 buf Hc1' Hcl1) as [Hc2 <-].
      by apply flushOutput_flow in Hfl as (? & ? & Hf3); [|done|by constructor]. }
  destruct (env_step_live f1 t2 H2) as [(Hc2' & Hca2 & _) Hw2]. specialize (Hc2' Hc1').
  set (f2 := env_step f1 t2) in *.
  assert (Hnil2 : of_cacheLines f2 = []) by congruence.
  assert (Hf2 : wire f2 = flow f1) by (by rewrite flow_wire, Hnil, Hw2; simpl; rewrite app_nil_r).
  assert (Hgoal : forall b n x y, x ++ y = buf ->
    send_buffer (set_lineState f2 b n) x y ts = Some (f', ts') -> of_lost f' = [] ->
    calm f' /\ Forall (fun t => live t = true) ts' /\ strips (flow f1 ++ buf) (flow f')).
  { intros b n x y Hxy Hs Hlost. destruct (set_lineState_flow f2 b n Hc2') as (Hc3 & Hf3 & _).
    apply send_buffer_flow in Hs as (? & ? & Hf4); [|done|by destruct f2|done..].
    split_and!; [done..|]. rewrite Hf4, Hxy, <- Hf2. by destruct f2. }
  destruct (_ && _).
  - destruct (bytes_IndexByte buf LF) as [pos|].
    + apply Hgoal. by rewrite take_drop.
    + destruct (_ <? 3); [apply Hgoal; by rewrite app_nil_r|].
      intros [= <- <-] Hlost. destruct (set_lineState_flow f2 true (of_noNewLineCount f2) Hc2') as (Hc3 & Hf3 & _).
      destruct (cacheOutput_flow _ buf Hc3 Hlost) as [? Hf4]. split_and!; [done..|].
      rewrite Hf4, Hf3, (flow_wire f2), Hnil2, Hf2. simpl. by rewrite app_nil_r.
  - intros Hs. apply (Hgoal (of_chHasNewLine f2) (of_noNewLineCount f2) buf []); [by rewrite app_nil_r|].
    by destruct f2.
Qed.

Lemma handleBuffer_body_flow f buf ts f' ts' :
  calm f -> Forall (fun t => live t = true) ts ->
  handleBuffer_body f buf ts = Some (f', ts') -> of_lost f' = [] ->
  calm f' /\ Forall (fun t => live t = true) ts' /\
  strips (flow f ++ default [] (of_discardMarker f) ++ buf) (flow f').
Proof.
  intros Hc Hl. unfold handleBuffer_body. destruct (take_marker f buf) as [g b] eqn:Em.
  destruct Hl as [|t ts Ht Hts]; [done|]. intros Hrest Hlost.
  pose proof (lost_from_nil _ _ (lost_rest _ _ _ _ _ Hrest) Hlost) as Hlh.
  destruct (env_step_live g t Ht) as [(Hc' & Hca & Hlo) Hw].
  assert (Hlg : of_lost g = []).
  { rewrite <- Hlo. unfold take_discard in Hlh. destruct (of_discardOutput _); [|done].
    destruct (env_step g t). by apply app_nil in Hlh as [? _]. }
  destruct (take_marker_flow f buf g b Hc Em Hlg) as (Hcg & Hfg & ->).
  destruct (take_discard_flow (env_step g t) (Hc' Hcg) Hlh) as (Hch & Hfh & _).
  apply handleBuffer_rest_flow in Hrest as (? & ? & Hf); [|done..].
  split_and!; [done..|]. by rewrite Hfh, flow_wire, Hca, Hw, <- flow_wire, Hfg in Hf.
Qed.

Lemma handleError_loop_flow fuel f ts f' ts' :
  calm f -> Forall (fun t => live t = true) ts ->
  handleError_loop fuel f ts = Some (f', ts') ->
  calm f' /\ Forall (fun t => live t = true) ts' /\ strips (flow f) (flow f').
Proof.
  revert f ts. induction fuel as [|fuel IH]; intros f ts Hc Hl; cbn [handleError_loop];
    (destruct (of_cacheLines f); [by intros [= <- <-]|]); rewrite (calm_writeError _ Hc); [done|].
  destruct ts as [|t ts]; [done|]. inv Hl as [|? ? Ht Hts].
  destruct (env_step_live f t Ht) as [(Hc' & Hca & _) Hw]. specialize (Hc' Hc).
  assert (Hf1 : flow (env_step f t) = flow f) by (by rewrite !flow_wire, Hca, Hw). rewrite <- Hf1.
  destruct (_ && _); [by intros [= <- <-]|].
  destruct (flushOutput _ ts) as [[g us]|] eqn:Hfl; [|done].
  apply flushOutput_flow in Hfl as (? & ? & Hf2); [|done..].
  intros Hloop. apply IH in Hloop as (? & ? & Hf3); [|done..].
  split_and!; [done..|]. by etrans.
Qed.

(** What was read, and the markers clients asked for. *)
Definition reads (es : list out_event) : list bytes :=
  omap (fun e => match e with ReadBuf buf _ => Some buf | _ => None end) es.

Definition requested (es : list out_event) : list bytes :=
  omap (fun e => match e with StoreRequest (StoreMarker m) => Some m | _ => None end) (session_events es).

Definition asks (M : list bytes) (e : sess_event) : Prop := forall m, e = StoreRequest (StoreMarker m) -> m ∈ M.

Definition marker_in (M : list bytes) (f : serverOutputForwarder) : Prop := forall m, of_discardMarker f = Some m -> m ∈ M.

Lemma marker_in_step M f e f' :
  marker_in M f -> Forall (asks M) (event_session e) -> out_step f e = Some f' -> marker_in M f'.
Proof.
  intros Hf HQ Hs. apply (out_step_stable (marker_in M) (asks M)) in Hs; [done|..|done|done];
    clear; intros f; try (by destruct f).
  - intros e He. destruct f, e as [[]| | |]; try done. intros _ m' [= <-]. by apply He.
  - intros buf. destruct f. unfold marker_in, cacheOutput. by destruct (_ <? _).
Qed.

(** The marker that goes in front of what is read. *)
Definition taken (f : serverOutputForwarder) (e : out_event) : bytes :=
  match e with ReadBuf (_ :: _) _ => default [] (of_discardMarker f) | _ => [] end.

Lemma out_step_flow f e f' :
  calm f -> Forall (fun t => live t = true) (event_ticks e) ->
  out_step f e = Some f' -> of_lost f' = [] ->
  calm f' /\ strips (flow f ++ taken f e ++ event_input e) (flow f').
Proof.
  intros Hc Hl. destruct e as [buf ts|ts|ts|e]; cbn [out_step event_input event_ticks taken] in *; rewrite ?app_nil_r.
  - destruct buf as [|b buf]; [intros [= <-]; by rewrite !app_nil_r|].
    intros ([g us] & Hx & ->)%fmap_Some Hlost. unfold handleBuffer in Hx.
    apply finish_flow in Hx as (h & vs & Hb & Hlh & Hfin); [|done].
    apply handleBuffer_body_flow in Hb as (Hch & Hvs & Hfh); [|done..].
    destruct (Hfin Hch Hvs) as [? Hf]. split; [done|]. by etrans.
  - intros ([g us] & Hx & ->)%fmap_Some Hlost. unfold onReconnected in Hx. rewrite (calm_returned _ Hc) in Hx.
    apply finish_flow in Hx as (h & vs & Hb & Hlh & Hfin); [|done].
    apply flushOutput_flow in Hb as (Hch & Hvs & Hfh); [|done..].
    destruct (Hfin Hch Hvs) as [? Hf]. split; [done|]. by etrans.
  - intros ([g us] & Hx & ->)%fmap_Some Hlost. unfold handleError in Hx.
    apply finish_flow in Hx as (h & vs & Hb & Hlh & Hfin); [|done].
    apply handleError_loop_flow in Hb as (Hch & Hvs & Hfh); [|done..].
    destruct (Hfin Hch Hvs) as [? Hf]. split; [done|]. by etrans.
  - intros [= <-] _. destruct (sess_steps_core [e] f) as [(Hc' & Hca & _) Hw]. cbn [fold_left] in *.
    split; [auto|]. by rewrite !flow_wire, Hca, Hw.
Qed.

Lemma reads_cons e es : reads (e :: es) = (match e with ReadBuf buf _ => [buf] | _ => [] end) ++ reads es.
Proof. by destruct e. Qed.

Lemma forward_flow M es f f' :
  calm f -> marker_in M f -> Forall (asks M) (session_events es) ->
  Forall (fun e => Forall (fun t => live t = true) (event_ticks e)) es ->
  forward f es = Some f' -> of_lost f' = [] ->
  exists ms, length ms = length (reads es) /\ Forall (fun m => m = [] \/ m ∈ M) ms /\
    strips (flow f ++ concat (zip_with app ms (reads es))) (flow f').
Proof.
  revert f. induction es as [|e es IH]; intros f Hc HM HQ Hl; cbn [forward].
  { intros [= <-] _. exists []. split_and!; [done..|]. by rewrite app_nil_r. }
  apply Forall_app in HQ as [HQ1 HQ2]. inv Hl as [|? ? He Hes].
  destruct (out_step f e) as [g|] eqn:Hs; [|done]. intros Hf Hlost.
  pose proof (lost_from_nil _ _ (lost_forward _ _ _ Hf) Hlost) as Hlg.
  pose proof (marker_in_step M f e g HM HQ1 Hs) as HMg.
  destruct (out_step_flow f e g Hc He Hs Hlg) as [Hcg Hfg].
  destruct (IH g Hcg HMg HQ2 Hes Hf Hlost) as (ms & Hlen & Hms & Hrest). rewrite reads_cons.
  assert (Hadd : strips ((flow f ++ taken f e ++ event_input e) ++ concat (zip_with app ms (reads es))) (flow f'))
    by (etrans; [apply strips_app; [exact Hfg|done]|done]).
  destruct e as [buf ts|ts|ts|e]; try (exists ms; split_and!; [done..|by rewrite app_nil_r in Hadd]).
  exists (taken f (ReadBuf buf ts) :: ms). split_and!; [simpl; by rewrite Hlen| |].
  - constructor; [|done]. destruct buf; [by left|]. cbn [taken].
    destruct (of_discardMarker f) as [m|] eqn:Em; [right; by apply HM|by left].
  - by rewrite <- app_assoc in Hadd.
Qed.

Lemma asks_requested es : Forall (asks (requested es)) (session_events es).
Proof.
  apply Forall_forall. intros e He m ->. apply list_elem_of_omap. by eexists.
Qed.

(** Without requests nothing is added. *)
Lemma unmarked es ms :
  length ms = length (reads es) -> Forall (fun m => m = []) ms -> concat (zip_with app ms (reads es)) = concat (reads es).
Proof.
  generalize (reads es). intros l Hlen Hms. revert l Hlen. induction Hms as [|m ms -> _ IH]; intros [|b l] Hlen; try done.
  simpl. f_equal. apply IH. by injection Hlen.
Qed.

Lemma newOutputForwarder_calm c : calm (newOutputForwarder c).
Proof. by constructor. Qed.

(** *** Progress while the client is connected *)

Definition serving (t : tick) : bool :=
  tk_drain t && negb (tk_timeout t) && negb (tk_writeError t) && negb (tk_returned t) && negb (tk_waitErr t).

(** Nothing is to be discarded. *)
Definition undisturbed (f : serverOutputForwarder) : Prop := of_discardOutput f = false /\ of_discardMarker f = None.

Lemma undisturbed_step f t : tk_session t = [] -> undisturbed f -> undisturbed (env_step f t).
Proof. unfold env_step. intros -> []. destruct f, (tk_drain t); by split. Qed.

Lemma serving_step f t :
  serving t = true -> of_chan (env_step f t) = None /\ tk_timeout t = false /\ live t = true.
Proof.
  destruct t as [d to k w d2 we re rc ro se]. unfold serving, live, env_step. simpl. intros Hs.
  destruct d, to, we, re, w; try done. split_and!; try done.
  assert (Hg : of_chan (drain f) = None) by (by destruct f). revert Hg. generalize (drain f).
  induction se as [|e se IH]; intros g Hg; [by destruct g|]. simpl. apply IH. by destruct g, e as [[]| | |].
Qed.

Lemma flush_lines_serving f i todo ts :
  calm f -> Forall clean todo -> Forall (fun t => serving t = true) ts ->
  (length todo <= length ts)%nat ->
  exists f' ts', flush_lines f i todo ts = Some (f', ts') /\
    of_cacheLines f' = [] /\ wire f' = wire f ++ concat todo /\ calm f' /\
    Forall (fun t => serving t = true) ts'.
Proof.
  revert f i ts. induction todo as [|l todo IH]; intros f i ts Hc Hcl Hs Hlen; cbn [flush_lines].
  { eexists _, _. split_and!; [done|by destruct f| |by destruct f, Hc|done].
    destruct f. unfold wire. simpl. by rewrite app_nil_r. }
  inv Hcl as [|? ? Hl Hcl']. rewrite (remove_all_absent _ _ Hl).
  destruct l as [|b l].
  { destruct (IH f (S i) ts) as (f' & ts' & ? & ? & ? & ? & ?); [done..|simpl in Hlen; lia|].
    by exists f', ts'. }
  destruct ts as [|t ts]; [simpl in Hlen; lia|]. inv Hs as [|? ? Ht Hts]. cbn [flush_send].
  destruct (serving_step f t Ht) as (Hch & Hto & Hlv). rewrite Hch.
  destruct (env_step_live f t Hlv) as [Hsc Hw].
  pose proof (same_core_set_chan (env_step f t) (Some (b :: l))) as Hsc2.
  destruct (IH (set_chan (env_step f t) (Some (b :: l))) (S i) ts) as (f' & ts' & E & ? & Hw' & ? & ?);
    [by apply Hsc2, Hsc|done..|simpl in Hlen; lia|].
  exists f', ts'. split_and!; [done..| |done|done].
  rewrite Hw', wire_set_chan, Hw by done. by rewrite <- app_assoc.
Qed.

Lemma endProcessing_idle fuel f ts :
  of_cacheLines f = [] -> calm f ->
  exists f', endProcessing (S fuel) f ts = Some (f', ts) /\
    of_cacheLines f' = [] /\ wire f' = wire f /\ calm f' /\ (undisturbed f -> undisturbed f').
Proof.
  intros Hnil Hc. cbn [endProcessing]. destruct (of_reconnectPending f && negb (of_returned f)).
  - unfold flushOutput. replace (of_cacheLines (set_pending f false)) with (@nil bytes) by (by destruct f).
    exists (set_pending f false). split_and!; [|by destruct f|by destruct f|by apply calm_set_pending|by destruct f].
    replace (endProcessing fuel (set_pending f false) ts) with (Some (set_pending f false, ts)); [done|].
    by destruct fuel, f.
  - by exists f.
Qed.

Lemma flushOutput_serving f ts :
  calm f -> clean (flow f) -> Forall (fun t => serving t = true) ts ->
  (length (of_cacheLines f) < length ts)%nat ->
  exists f' ts', flushOutput f ts = Some (f', ts') /\
    of_cacheLines f' = [] /\ wire f' = flow f /\ calm f'.
Proof.
  intros Hc Hcl Hs Hlen. unfold flushOutput. destruct ts as [|t ts]; [simpl in Hlen; lia|].
  inv Hs as [|? ? Ht Hts]. destruct (of_cacheLines f) as [|l ls] eqn:Hnil.
  { exists f, (t :: ts). split_and!; [done..| |done]. rewrite flow_wire, Hnil. simpl. by rewrite app_nil_r. }
  rewrite <- Hnil in Hlen. destruct (serving_step f t Ht) as (_ & -> & Hlv).
  destruct (env_step_live f t Hlv) as [(Hc' & Hca & _) Hw]. specialize (Hc' Hc).
  rewrite (calm_lines _ Hc'). cbn [Z.ltb Z.compare].
  destruct (flush_lines_serving (env_step f t) 0 (of_cacheLines (env_step f t)) ts)
    as (f' & ts' & ? & ? & Hw' & ? & ?); [done| |done| |].
  - rewrite Hca. apply clean_lines. rewrite flow_wire in Hcl. by eapply bytes_Index_None_app_r.
  - rewrite Hca. simpl in Hlen. lia.
  - exists f', ts'. split_and!; [done..| |done]. by rewrite Hw', Hca, Hw, flow_wire.
Qed.

Lemma handleBuffer_serving f buf t0 t1 t2 t3 ts :
  calm f -> undisturbed f -> of_cacheLines f = [] ->
  Forall (fun t => serving t = true /\ tk_session t = []) [t0; t1; t2; t3] ->
  exists f' ts', handleBuffer f buf (t0 :: t1 :: t2 :: t3 :: ts) = Some (f', ts') /\
    of_cacheLines f' = [] /\ wire f' = wire f ++ buf /\ calm f' /\ undisturbed f'.
Proof.
  intros Hc Hu Hnil Hs. inv Hs as [|? ? [H0 S0] Hs1]. inv Hs1 as [|? ? [H1 S1] Hs2].
  inv Hs2 as [|? ? [H2 S2] Hs3]. inv Hs3 as [|? ? [H3 S3] _].
  unfold handleBuffer, handleBuffer_body, take_marker. rewrite (proj2 Hu).
  pose proof (undisturbed_step f t0 S0 Hu) as Hu0. unfold take_discard. rewrite (proj1 Hu0).
  destruct (env_step_live f t0 ltac:(by apply serving_step)) as [(Hc0 & Hca0 & _) Hw0]. specialize (Hc0 Hc).
  set (f0 := env_step f t0) in *. unfold handleBuffer_rest. cbv zeta.
  destruct (serving_step f0 t1 H1) as (_ & -> & Hl1).
  destruct (env_step_live f0 t1 Hl1) as [(Hc1 & Hca1 & _) Hw1]. specialize (Hc1 Hc0).
  rewrite andb_false_r. simpl andb. rewrite Hca1, Hca0, Hnil.
  destruct (serving_step (env_step f0 t1) t2 H2) as (_ & -> & Hl2).
  destruct (env_step_live (env_step f0 t1) t2 Hl2) as [(Hc2 & Hca2 & _) Hw2]. specialize (Hc2 Hc1).
  pose proof (undisturbed_step _ t2 S2 (undisturbed_step _ t1 S1 Hu0)) as Hu2.
  simpl andb. cbn [send_buffer].
  set (f2 := env_step (env_step f0 t1) t2) in *.
  destruct (serving_step f2 t3 H3) as (Hch & _ & Hl3). rewrite Hch.
  destruct (env_step_live f2 t3 Hl3) as [(Hc3 & Hca3 & _) Hw3]. specialize (Hc3 Hc2).
  destruct (same_core_set_chan (env_step f2 t3) (Some buf)) as (Hc4 & Hca4 & _).
  cbn [cache_nonempty finish].
  destruct (endProcessing_idle (length ts) (set_chan (env_step f2 t3) (Some buf)) ts)
    as (f' & E & ? & Hw & ? & Hu'); [congruence|auto|].
  exists f', ts. split_and!; [done..| |done|].
  - rewrite Hw, wire_set_chan by done. congruence.
  - apply Hu'. pose proof (undisturbed_step f2 t3 S3 Hu2). by destruct (env_step f2 t3).
Qed.

(** ** Properties *)

(** C1: in every run of the forwarder in which the writer does not fail,
    [forward] does not return meanwhile and the wait for the client is not
    given up, whatever clients attach, leave, resize and ask to discard: as long
    as no line had to be dropped, for lack of space or on request, the bytes
    handed to the transport followed by the queued and the cached ones are the
    session's output, each read with a requested marker or nothing in front,
    complete and in order, but for cursor position requests [ESC6n], of which a
    replay takes occurrences out; they are exactly that when it has none.
    Disconnects, replays, take-backs from the queue and reconnects during a
    handler neither lose, duplicate nor reorder output. *)
Theorem output_in_order c es f' :
  Forall (fun e => Forall (fun t => live t = true) (event_ticks e)) es ->
  forward (newOutputForwarder c) es = Some f' ->
  of_lost f' = [] ->
  exists ms,
    let output := concat (zip_with app ms (reads es)) in
    let delivered := concat (of_written f') ++ default [] (of_chan f') ++ concat (of_cacheLines f') in
    length ms = length (reads es) /\ Forall (fun m => m = [] \/ m ∈ requested es) ms /\
    (requested es = [] -> output = concat (reads es)) /\
    strips output delivered /\ (bytes_Index output ESC6n = None -> delivered = output).
Proof.
  intros Hl Hf Hlost. apply (forward_flow (requested es)) in Hf as (ms & Hlen & Hms & Hflow);
    [|apply newOutputForwarder_calm|done|apply asks_requested|done..].
  exists ms. cbv zeta. split_and!; [done..| |done|intros Hcl; by apply strips_clean].
  intros Hno. rewrite Hno in Hms. apply unmarked; [done|]. eapply Forall_impl; [exact Hms|].
  intros m [->|Hin]; [done|by apply not_elem_of_nil in Hin].
Qed.

(** Whatever the schedule, including failures of the writer and discards
    requested by clients, the cache never holds more than max(1000, 2 * rows)
    lines, for the largest number of rows the session has had, and never an
    empty one. *)
Theorem output_cache_bounded c es f' R :
  sv_rows c <= R -> Forall (rows_within R) (session_events es) ->
  forward (newOutputForwarder c) es = Some f' ->
  (Z.of_nat (length (of_cacheLines f')) <= Z.max maxPendingOutputLines (R * 2)) /\
  Forall (fun l => l <> []) (of_cacheLines f').
Proof.
  intros HR HQ Hf. apply (cache_ok_stable R) in Hf as (? & ? & ?); [done| |done].
  split_and!; [done| |done]. unfold maxPendingOutputLines. simpl. lia.
Qed.

(** C16: no cached line disappears unaccounted: whatever the schedule, with
    failures of the writer, clients that come and go and discards they ask for,
    the line and byte counts reported to the client, plus those reset while no
    client was attached, plus those still pending, are those of the dropped
    lines, as 64-bit counters. *)
Theorem output_loss_accounted c es f' :
  forward (newOutputForwarder c) es = Some f' ->
  u64 (zsum (fst <$> of_reports f') + zsum (fst <$> of_silent f') + of_discardLines f')
    = u64 (Z.of_nat (length (of_lost f'))) /\
  u64 (zsum (snd <$> of_reports f') + zsum (snd <$> of_silent f') + of_discardBytes f')
    = u64 (total_length (of_lost f')).
Proof. apply accounted_stable. done. Qed.

(** A reconnect replays everything: with a connected client and a writer
    that keeps draining, [onReconnected] terminates, empties the cache and
    leaves exactly the cached output, in order, on the wire. *)
Theorem onReconnected_replays f ts :
  calm f -> bytes_Index (flow f) ESC6n = None -> Forall (fun t => serving t = true) ts ->
  (length (of_cacheLines f) < length ts)%nat ->
  exists f' ts', onReconnected f ts = Some (f', ts') /\ of_cacheLines f' = [] /\ wire f' = flow f.
Proof.
  intros Hc Hcl Hs Hlen. unfold onReconnected. rewrite (calm_returned _ Hc).
  destruct (flushOutput_serving f ts) as (g & us & -> & Hnil & Hw & Hcg); [done..|].
  unfold finish. destruct (endProcessing_idle (length us) g us) as (f' & -> & ? & ? & _ & _); [done..|].
  exists f', us. split_and!; [done..|congruence].
Qed.

(** While the client stays connected and the writer drains, and nobody
    changes the session, every buffer read is on the wire, in order, after four
    looks at the shared state, and nothing is ever cached. *)
Theorem connected_output_direct c (inputs : list (bytes * list tick)) :
  Forall (fun r => Forall (fun t => serving t = true /\ tk_session t = []) r.2 /\ (4 <= length r.2)%nat) inputs ->
  exists f', forward (newOutputForwarder c) ((fun r => ReadBuf r.1 r.2) <$> inputs) = Some f' /\
    of_cacheLines f' = [] /\ wire f' = concat (fst <$> inputs).
Proof.
  intros Hr.
  enough (forall f, calm f -> undisturbed f -> of_cacheLines f = [] ->
    exists f', forward f ((fun r => ReadBuf r.1 r.2) <$> inputs) = Some f' /\
      of_cacheLines f' = [] /\ wire f' = wire f ++ concat (fst <$> inputs)) as Hgen
    by (apply Hgen; [apply newOutputForwarder_calm | done | done]).
  induction Hr as [|[buf ts] inputs [Hs Hlen] _ IH]; intros f Hc Hu Hnil.
  { exists f. simpl. by rewrite app_nil_r. }
  destruct ts as [|t0 [|t1 [|t2 [|t3 ts]]]]; simpl in Hlen; try lia.
  cbn [fmap list_fmap forward out_step fst snd concat]. destruct buf as [|b buf].
  { destruct (IH f Hc Hu Hnil) as (f' & ? & ? & ?). by exists f'. }
  destruct (handleBuffer_serving f (b :: buf) t0 t1 t2 t3 ts) as (g & us & -> & Hng & Hwg & Hcg & Hug); [done..| |].
  { apply (Forall_app _ [t0; t1; t2; t3] ts), Hs. }
  cbn [fmap option_fmap option_map fst].
  destruct (IH g Hcg Hug Hng) as (f' & ? & ? & Hw'). exists f'. split_and!; [done..|].
  by rewrite Hw', Hwg, <- app_assoc.
Qed.

(** ** The properties at work *)

Module Runs.

Definition sess : sess_view := SessView false true true 1 80 24.

(** The client is away, the writer idle. *)
Definition away : tick := Tick false true false false false false false false true [].

(** The client is connected, the writer drains. *)
Definition here : tick := Tick true false false false false false false false true [].

(** Output while connected, while away, with a cursor position request and a
    client that leaves and another that asks for a marker, and the replay. *)
Definition events : list out_event :=
  [ReadBuf (bs "one" ++ [LF]) [here; here; here; here];
   Session (SetServer false);
   ReadBuf (bs "two" ++ [LF] ++ bs "th") [away; away; away; away; Tick true true false false false false false false true [SetServer true]];
   ReadBuf (bs "ree" ++ ESC6n ++ [LF]) [away; away; away];
   Reconnect [here; here; here];
   Session (StoreSize 100 30); Session (StoreRequest (StoreMarker (bs "mark")));
   ReadBuf (bs "four") [here; here; here; here]].

Definition after : serverOutputForwarder := default (newOutputForwarder sess) (forward (newOutputForwarder sess) events).

(** The client is away for 1003 lines of output; it comes back and asks to
    discard what is there. *)
Definition lossy_events : list out_event :=
  [ReadBuf [LF] [away; away; away; away];
   ReadBuf (repeat LF 1003) [away; away; away];
   Session (StoreRequest StoreDiscard);
   ReadBuf (bs "x" ++ [LF]) [here; here; here; here]].

Definition lossy_after : serverOutputForwarder :=
  default (newOutputForwarder sess) (forward (newOutputForwarder sess) lossy_events).

End Runs.

Import Runs.

Lemma output_in_order_witness :
  exists ms, length ms = 4%nat /\ Forall (fun m => m = [] \/ m ∈ [bs "mark"]) ms /\
    strips (concat (zip_with app ms (reads events)))
      (bs "one" ++ [LF] ++ bs "two" ++ [LF] ++ bs "three" ++ [LF] ++ bs "markfour").
Proof.
  destruct (output_in_order sess events after) as (ms & Hlen & Hms & _ & Hs & _).
  - by repeat constructor.
  - vm_compute. reflexivity.
  - vm_compute. reflexivity.
  - exists ms. split; [exact Hlen|]. split; [exact Hms|]. exact Hs.
Defined.

Lemma output_cache_bounded_witness :
  (Z.of_nat (length (of_cacheLines after)) <= Z.max maxPendingOutputLines 60) /\
  Forall (fun l => l <> []) (of_cacheLines after).
Proof.
  apply (output_cache_bounded sess events after 30).
  - vm_compute. discriminate.
  - vm_compute. repeat constructor; discriminate.
  - vm_compute. reflexivity.
Defined.

(** Three of the 1003 lines went for lack of space, the rest on request: one
    report. *)
Lemma output_loss_accounted_witness :
  of_reports lossy_after = [(1003, 1003)] /\ of_silent lossy_after = [] /\ of_discardLines lossy_after = 0 /\
  u64 (zsum (fst <$> of_reports lossy_after) + zsum (fst <$> of_silent lossy_after) + of_discardLines lossy_after)
    = u64 (Z.of_nat (length (of_lost lossy_after))) /\
  u64 (zsum (snd <$> of_reports lossy_after) + zsum (snd <$> of_silent lossy_after) + of_discardBytes lossy_after)
    = u64 (total_length (of_lost lossy_after)).
Proof.
  split; [vm_compute; reflexivity|]. split; [vm_compute; reflexivity|]. split; [vm_compute; reflexivity|].
  apply (output_loss_accounted sess lossy_events). vm_compute. reflexivity.
Defined.

Lemma onReconnected_replays_witness :
  exists f' ts', onReconnected (set_cacheLines (newOutputForwarder sess) [bs "a" ++ [LF]; bs "b"])
    [here; here; here] = Some (f', ts') /\ of_cacheLines f' = [] /\ wire f' = bs "a" ++ [LF] ++ bs "b".
Proof.
  apply (onReconnected_replays (set_cacheLines (newOutputForwarder sess) [bs "a" ++ [LF]; bs "b"])
    [here; here; here]).
  - by constructor.
  - vm_compute. reflexivity.
  - by repeat constructor.
  - simpl. lia.
Defined.

Lemma connected_output_direct_witness :
  exists f', forward (newOutputForwarder sess) [ReadBuf (bs "x") [here; here; here; here]] = Some f' /\
    of_cacheLines f' = [] /\ wire f' = bs "x".
Proof.
  apply (connected_output_direct sess [(bs "x", [here; here; here; here])]).
  repeat constructor.
Defined.
