(* ===== verification/Token.v ===== *)
(** * Token: the processing token of an output forwarder ([output.go])

    [Output] runs the handlers of a forwarder one after the other.  Here is why it
    may: the protocol of [handleMutex], [processing] and [processDone] under which
    the goroutine of [forward] and any number of calls of [onReconnected] run at
    the same time.  A step is what one of them does while it holds the mutex, or
    between two points where it may release it. *)

From Stdlib Require Import ZArith Lia.
From stdpp Require Import base list gmap.
From S2P Require Import Prelude.

(** ** State *)

(** Where the goroutine of [forward] is: reading; in [beginProcessing], waiting
    for the mutex or for a [processDone]; a handler with the mutex, or without it
    (in [waitForQueue] or waiting for a reconnection); in the deferred function,
    waiting for the mutex or for a [processDone]; past it. *)
Inductive rpc := RIdle | RBegin | RWait (d : nat) | ROwn | ROut | RFin | RFinWait (d : nat) | REnded.

(** A call of [onReconnected]. *)
Inductive cpc := CStart | COwn | COut | CGone.

(** [tk_made] counts the channels made: the last is [processDone].  [tk_closed]
    are the closed ones; [tk_chClosed]: [writeBufCh] is closed. *)
Record token := Token {
  tk_mutex : bool;
  tk_processing : bool;
  tk_made : nat;
  tk_closed : gset nat;
  tk_pending : bool;
  tk_returned : bool;
  tk_chClosed : bool;
  tk_reader : rpc;
  tk_conns : list cpc
}.

Definition set_reader (r : rpc) (t : token) : token :=
  Token (tk_mutex t) (tk_processing t) (tk_made t) (tk_closed t) (tk_pending t) (tk_returned t) (tk_chClosed t) r (tk_conns t).

Definition set_conn (i : nat) (c : cpc) (t : token) : token :=
  Token (tk_mutex t) (tk_processing t) (tk_made t) (tk_closed t) (tk_pending t) (tk_returned t) (tk_chClosed t) (tk_reader t)
    (<[i := c]> (tk_conns t)).

Definition set_mutex (b : bool) (t : token) : token :=
  Token b (tk_processing t) (tk_made t) (tk_closed t) (tk_pending t) (tk_returned t) (tk_chClosed t) (tk_reader t) (tk_conns t).

(** ** The protocol *)

(** [processing = true] and a new [processDone], with the mutex. *)
Definition take_token (t : token) : token :=
  Token true true (S (tk_made t)) (tk_closed t) (tk_pending t) (tk_returned t) (tk_chClosed t) (tk_reader t) (tk_conns t).

(** A write to [writeBufCh]: [None] is the panic on a closed channel. *)
Definition enqueue (t : token) : option token := if tk_chClosed t then None else Some t.

(** One round of [endProcessing]: a reconnection noted meanwhile is replayed
    first, and the handler goes on; [true] when the token is given back.  [None] is
    the panic of closing a closed channel. *)
Definition endProcessing_round (t : token) : option (bool * token) :=
  if tk_pending t && negb (tk_returned t)
  then Some (false, Token (tk_mutex t) (tk_processing t) (tk_made t) (tk_closed t) false (tk_returned t) (tk_chClosed t)
                      (tk_reader t) (tk_conns t))
  else if bool_decide (tk_made t ∈ tk_closed t) then None
  else Some (true, Token false false (tk_made t) ({[tk_made t]} ∪ tk_closed t) (tk_pending t) (tk_returned t) (tk_chClosed t)
                     (tk_reader t) (tk_conns t)).

(** What a handler with the mutex does next. *)
Inductive act := Enqueue | Release | Finish.

(** The last lines of [forward]: the goroutine has read its last buffer. *)
Definition finish_forward (t : token) : option token :=
  let t := Token (tk_mutex t) (tk_processing t) (tk_made t) (tk_closed t) (tk_pending t) true (tk_chClosed t) (tk_reader t) (tk_conns t) in
  if tk_processing t then Some (set_reader (RFinWait (tk_made t)) t)
  else if tk_chClosed t then None
  else Some (Token (tk_mutex t) (tk_processing t) (tk_made t) (tk_closed t) (tk_pending t) true true REnded (tk_conns t)).

(** A step of the goroutine of [forward]; [more]: it has another buffer, or the
    error of the reader, to handle.  A step that must wait changes nothing. *)
Definition forward_step (a : act) (more : bool) (t : token) : option token :=
  match tk_reader t with
  | RIdle => Some (set_reader (if more then RBegin else RFin) t)
  | RBegin =>
      if tk_mutex t then Some t
      else if tk_processing t then Some (set_reader (RWait (tk_made t)) t)
      else Some (set_reader ROwn (take_token t))
  | RWait d => Some (if bool_decide (d ∈ tk_closed t) then set_reader RBegin t else t)
  | ROwn =>
      match a with
      | Enqueue => enqueue t
      | Release => Some (set_reader ROut (set_mutex false t))
      | Finish => match endProcessing_round t with
                  | None => None
                  | Some (true, t') => Some (set_reader RIdle t')
                  | Some (false, t') => Some t'
                  end
      end
  | ROut => Some (if tk_mutex t then t else set_reader ROwn (set_mutex true t))
  | RFin => if tk_mutex t then Some t else finish_forward t
  | RFinWait d => Some (if bool_decide (d ∈ tk_closed t) then set_reader RFin t else t)
  | REnded => Some t
  end.

(** A step of the [i]th call of [onReconnected]. *)
Definition conn_step (a : act) (i : nat) (t : token) : option token :=
  match tk_conns t !! i with
  | None | Some CGone => Some t
  | Some CStart =>
      if tk_mutex t then Some t
      else if tk_returned t then Some (set_conn i CGone t)
      else if tk_processing t
      then Some (set_conn i CGone (Token (tk_mutex t) true (tk_made t) (tk_closed t) true (tk_returned t) (tk_chClosed t)
                                     (tk_reader t) (tk_conns t)))
      else Some (set_conn i COwn (take_token t))
  | Some COwn =>
      match a with
      | Enqueue => enqueue t
      | Release => Some (set_conn i COut (set_mutex false t))
      | Finish => match endProcessing_round t with
                  | None => None
                  | Some (true, t') => Some (set_conn i CGone t')
                  | Some (false, t') => Some t'
                  end
      end
  | Some COut => Some (if tk_mutex t then t else set_conn i COwn (set_mutex true t))
  end.

Inductive token_event := TReader (a : act) (more : bool) | TConn (a : act) (i : nat) | TReconnected.

Definition token_step (t : token) (e : token_event) : option token :=
  match e with
  | TReader a more => forward_step a more t
  | TConn a i => conn_step a i t
  | TReconnected => Some (Token (tk_mutex t) (tk_processing t) (tk_made t) (tk_closed t) (tk_pending t) (tk_returned t) (tk_chClosed t)
                            (tk_reader t) (tk_conns t ++ [CStart]))
  end.

Fixpoint token_run (es : list token_event) (t : token) : option token :=
  match es with
  | [] => Some t
  | e :: es => match token_step t e with Some t' => token_run es t' | None => None end
  end.

Definition new_token : token := Token false false 0 ∅ false false false RIdle [].

(** ** Who has the token *)

Definition reader_owns (r : rpc) : nat := match r with ROwn | ROut => 1 | _ => 0 end.
Definition reader_holds (r : rpc) : nat := match r with ROwn => 1 | _ => 0 end.
Definition conn_owns (c : cpc) : nat := match c with COwn | COut => 1 | _ => 0 end.
Definition conn_holds (c : cpc) : nat := match c with COwn => 1 | _ => 0 end.

(** How many are in the middle of a handler, and how many of those have the mutex. *)
Definition owners (t : token) : nat := reader_owns (tk_reader t) + sum_list_with conn_owns (tk_conns t).
Definition holders (t : token) : nat := reader_holds (tk_reader t) + sum_list_with conn_holds (tk_conns t).

(** ** The invariant *)

Record token_ok (t : token) : Prop := {
  to_owners : owners t = Nat.b2n (tk_processing t);
  to_holders : holders t = Nat.b2n (tk_mutex t);
  to_closed : forall d, d ∈ tk_closed t <-> (1 <= d < tk_made t \/ d = tk_made t /\ 1 <= d /\ tk_processing t = false)%nat;
  to_made : tk_processing t = true -> (1 <= tk_made t)%nat;
  to_wait : forall d, tk_reader t = RWait d \/ tk_reader t = RFinWait d -> (1 <= d <= tk_made t)%nat;
  to_returned : match tk_reader t with
                | RFinWait _ | REnded => tk_returned t = true
                | RFin => True
                | _ => tk_returned t = false
                end;
  to_ended : tk_chClosed t = true <-> tk_reader t = REnded;
  to_over : tk_reader t = REnded -> tk_processing t = false;
  to_pending : tk_pending t = true -> tk_processing t = true \/ tk_returned t = true
}.

Lemma sum_insert (f : cpc -> nat) l i c c' :
  l !! i = Some c -> (sum_list_with f (<[i := c']> l) + f c = sum_list_with f l + f c')%nat.
Proof.
  revert i. induction l as [|x l IH]; intros [|i] H; try done.
  - injection H as ->. simpl. lia.
  - change (<[S i := c']> (x :: l)) with (x :: <[i := c']> l). specialize (IH i H). cbn [sum_list_with]. lia.
Qed.

Lemma sum_ex (f : cpc -> nat) l : (0 < sum_list_with f l)%nat -> exists i c, l !! i = Some c /\ (0 < f c)%nat.
Proof.
  induction l as [|x l IH]; simpl; [lia|]. intros H. destruct (decide (0 < f x)%nat); [by exists 0%nat, x|].
  destruct IH as (i & c & ? & ?); [lia|]. by exists (S i), c.
Qed.

Lemma conn_holds_owns l : (sum_list_with conn_holds l <= sum_list_with conn_owns l)%nat.
Proof. induction l as [|[] l IH]; simpl; lia. Qed.

Lemma new_token_ok : token_ok new_token.
Proof.
  split; try done; [|by intros d []]. intros d. simpl. rewrite elem_of_empty. split; [done|]. intros [?|(? & ? & _)]; lia.
Qed.

(** The counts after a step. *)
Ltac counts :=
  unfold owners, holders in *; cbn [tk_reader tk_conns tk_mutex tk_processing tk_made tk_closed tk_pending tk_returned tk_chClosed
    set_reader set_conn set_mutex take_token reader_owns reader_holds Nat.b2n] in *.

(** A step that keeps the channels, the token and the flags: only where the
    reader is changes. *)
Lemma ok_reader r t :
  token_ok t -> reader_owns r = reader_owns (tk_reader t) -> reader_holds r = reader_holds (tk_reader t) ->
  (forall d, r = RWait d \/ r = RFinWait d -> (1 <= d <= tk_made t)%nat) ->
  match r with RFinWait _ | REnded => tk_returned t = true | RFin => True | _ => tk_returned t = false end ->
  tk_reader t <> REnded -> r <> REnded -> token_ok (set_reader r t).
Proof.
  intros [Ho Hh Hc Hm Hw Hr He Hv Hp] H1 H2 H3 H4 H5 H6. split; counts; rewrite ?H1, ?H2; try done.
  rewrite He. split; intros; contradiction.
Qed.

(** One that has the mutex releases it, or takes it back, without giving the
    token back. *)
Lemma ok_out_reader b r t :
  token_ok t -> tk_mutex t = negb b -> (if b then tk_reader t = ROut /\ r = ROwn else tk_reader t = ROwn /\ r = ROut) ->
  token_ok (set_reader r (set_mutex b t)).
Proof.
  intros [Ho Hh Hc Hm Hw Hr He Hv Hp] Hb Hpc. destruct b; destruct Hpc as [Hpc ->]; rewrite Hpc in *;
    split; counts; rewrite ?Hpc, ?Hb in *; cbn in *; try done; try lia; try (intros d [?|?]; done);
    try (rewrite He; split; intros; done).
Qed.

Lemma ok_out_conn b i c c' t :
  token_ok t -> tk_mutex t = negb b -> tk_conns t !! i = Some c ->
  (if b then c = COut /\ c' = COwn else c = COwn /\ c' = COut) -> token_ok (set_conn i c' (set_mutex b t)).
Proof.
  intros [Ho Hh Hc Hm Hw Hr He Hv Hp] Hb Hi Hpc.
  pose proof (sum_insert conn_owns _ i c c' Hi). pose proof (sum_insert conn_holds _ i c c' Hi).
  destruct b; destruct Hpc as [-> ->]; split; counts; rewrite ?Hb in *; cbn in *; try done; lia.
Qed.

(** Making a channel: all the earlier ones are closed. *)
Lemma closed_take t :
  token_ok t -> tk_processing t = false ->
  forall d, d ∈ tk_closed t <-> (1 <= d < S (tk_made t) \/ d = S (tk_made t) /\ 1 <= d /\ true = false)%nat.
Proof.
  intros Hok Hp d. rewrite (to_closed t Hok), Hp. split.
  - intros [?|(? & ? & _)]; left; lia.
  - intros [?|(_ & _ & ?)]; [|done]. destruct (decide (d = tk_made t)); [right; split_and!; lia || done|left; lia].
Qed.

Lemma ok_take_reader t : token_ok t -> tk_mutex t = false -> tk_processing t = false -> tk_reader t = RBegin -> token_ok (set_reader ROwn (take_token t)).
Proof.
  intros Hok Hm Hp Hpc. pose proof (closed_take t Hok Hp) as Hcl. destruct Hok as [Ho Hh Hc Hmd Hw Hr He Hv Hpd].
  rewrite Hpc in *. split; counts; rewrite ?Hm, ?Hp, ?Hpc in *; cbn in *; try done; try lia.
  - intros d [?|?]; done.
  - rewrite He. split; done.
Qed.

Lemma ok_take_conn i t :
  token_ok t -> tk_mutex t = false -> tk_processing t = false -> tk_returned t = false -> tk_conns t !! i = Some CStart ->
  token_ok (set_conn i COwn (take_token t)).
Proof.
  intros Hok Hm Hp Hret Hi. pose proof (closed_take t Hok Hp) as Hcl. destruct Hok as [Ho Hh Hc Hmd Hw Hr He Hv Hpd].
  pose proof (sum_insert conn_owns _ i CStart COwn Hi). pose proof (sum_insert conn_holds _ i CStart COwn Hi).
  split; counts; rewrite ?Hm, ?Hp in *; cbn in *; try done; try lia.
  - intros d Hd. specialize (Hw d Hd). lia.
  - intros Hend. rewrite Hend in Hr. congruence.
Qed.

(** What giving the token back does to the channels. *)
Lemma closed_give t :
  token_ok t -> tk_processing t = true ->
  forall d, d ∈ {[tk_made t]} ∪ tk_closed t <-> (1 <= d < tk_made t \/ d = tk_made t /\ 1 <= d /\ false = false)%nat.
Proof.
  intros Hok Hp d. rewrite elem_of_union, elem_of_singleton, (to_closed t Hok), Hp. pose proof (to_made t Hok Hp). split.
  - intros [->|[?|(_ & _ & ?)]]; [right; done|left; done|done].
  - intros [?|(? & _)]; auto.
Qed.

Lemma endProcessing_round_ok t :
  token_ok t -> tk_processing t = true ->
  exists b t', endProcessing_round t = Some (b, t') /\
    (b = false -> token_ok t' /\ tk_processing t' = true /\ tk_mutex t' = tk_mutex t /\ tk_reader t' = tk_reader t /\ tk_conns t' = tk_conns t) /\
    (b = true -> (tk_pending t = false \/ tk_returned t = true) /\
       t' = Token false false (tk_made t) ({[tk_made t]} ∪ tk_closed t) (tk_pending t) (tk_returned t) (tk_chClosed t)
              (tk_reader t) (tk_conns t)).
Proof.
  intros Hok Hp. unfold endProcessing_round. destruct (tk_pending t && negb (tk_returned t)) eqn:E.
  - eexists _, _. split; [done|]. split; [|done]. intros _. destruct Hok. split; [by split|done].
  - rewrite bool_decide_eq_false_2.
    + eexists _, _. split; [done|]. split; [done|]. intros _. split; [|done].
      apply andb_false_iff in E as [?|?]; [by left|right]. by destruct (tk_returned t).
    + rewrite (to_closed t Hok), Hp. intros [?|(_ & _ & ?)]; [lia|done].
Qed.

Lemma owner_processing t : token_ok t -> (0 < owners t)%nat -> tk_processing t = true.
Proof. intros Hok H. rewrite (to_owners t Hok) in H. destruct (tk_processing t); [done|simpl in H; lia]. Qed.

Lemma holder_mutex t : token_ok t -> (0 < holders t)%nat -> tk_mutex t = true.
Proof. intros Hok H. rewrite (to_holders t Hok) in H. destruct (tk_mutex t); [done|simpl in H; lia]. Qed.

Lemma ok_give_reader t t' :
  token_ok t -> tk_reader t = ROwn -> tk_pending t = false \/ tk_returned t = true ->
  t' = Token false false (tk_made t) ({[tk_made t]} ∪ tk_closed t) (tk_pending t) (tk_returned t) (tk_chClosed t) (tk_reader t) (tk_conns t) ->
  token_ok (set_reader RIdle t').
Proof.
  intros Hok Hpc Hpend ->.
  assert (Hp : tk_processing t = true) by (apply owner_processing; [done|]; unfold owners; rewrite Hpc; simpl; lia).
  assert (Hm : tk_mutex t = true) by (apply holder_mutex; [done|]; unfold holders; rewrite Hpc; simpl; lia).
  pose proof (closed_give t Hok Hp) as Hcl. destruct Hok as [Ho Hh Hc Hmd Hw Hr He Hv Hpd]. rewrite Hpc in *.
  split; counts; rewrite ?Hm, ?Hp, ?Hpc in *; cbn in *; try done; try lia.
  - intros d [?|?]; done.
  - rewrite He. split; done.
  - intros Hpn. destruct Hpend; [congruence|by right].
Qed.

Lemma ok_give_conn i t t' :
  token_ok t -> tk_conns t !! i = Some COwn -> tk_pending t = false \/ tk_returned t = true ->
  t' = Token false false (tk_made t) ({[tk_made t]} ∪ tk_closed t) (tk_pending t) (tk_returned t) (tk_chClosed t) (tk_reader t) (tk_conns t) ->
  token_ok (set_conn i CGone t').
Proof.
  intros Hok Hi Hpend ->.
  pose proof (sum_insert conn_owns _ i COwn CGone Hi) as H1. pose proof (sum_insert conn_holds _ i COwn CGone Hi) as H2. cbn in H1, H2.
  assert (Hp : tk_processing t = true) by (apply owner_processing; [done|]; unfold owners; lia).
  assert (Hm : tk_mutex t = true) by (apply holder_mutex; [done|]; unfold holders; lia).
  pose proof (closed_give t Hok Hp) as Hcl. destruct Hok as [Ho Hh Hc Hmd Hw Hr He Hv Hpd].
  split; counts; rewrite ?Hm, ?Hp in *; cbn in *; try done; try lia.
  intros Hpn. destruct Hpend; [congruence|by right].
Qed.

Lemma finish_forward_ok t :
  token_ok t -> tk_reader t = RFin -> exists t', finish_forward t = Some t' /\ token_ok t'.
Proof.
  intros [Ho Hh Hc Hmd Hw Hr He Hv Hpd] Hpc. unfold finish_forward. cbn [tk_processing tk_chClosed].
  destruct (tk_processing t) eqn:Hp.
  - eexists. split; [done|]. specialize (Hmd eq_refl).
    split; counts; rewrite ?Hpc, ?Hp in *; cbn in *; try done; [|rewrite He; done|by right].
    intros d [?|[= <-]]; [done|lia].
  - destruct (tk_chClosed t) eqn:Ec; [by rewrite (proj1 He eq_refl) in Hpc|].
    eexists. split; [done|]. split; counts; rewrite ?Hpc, ?Hp in *; cbn in *; try done; [by intros d [?|?]|by right].
Qed.

Lemma reader_step_ok a more t : token_ok t -> exists t', forward_step a more t = Some t' /\ token_ok t'.
Proof.
  intros Hok. pose proof (to_returned t Hok) as Hr. pose proof (to_ended t Hok) as He. pose proof (to_wait t Hok) as Hw.
  unfold forward_step. destruct (tk_reader t) as [| |d| | | |d|] eqn:Hpc.
  - eexists. split; [done|]. apply ok_reader; rewrite ?Hpc; destruct more; try done; by intros d [?|?].
  - destruct (tk_mutex t) eqn:Hm; [eauto|]. destruct (tk_processing t) eqn:Hp; eexists; (split; [done|]).
    + apply ok_reader; rewrite ?Hpc; try done. intros d [[= <-]|?]; [|done]. by pose proof (to_made t Hok Hp).
    + by apply ok_take_reader.
  - eexists. split; [done|]. case_bool_decide; [|done]. apply ok_reader; rewrite ?Hpc; try done. by intros d' [?|?].
  - assert (Hm : tk_mutex t = true) by (apply holder_mutex; [done|]; unfold holders; rewrite Hpc; simpl; lia).
    assert (Hp : tk_processing t = true) by (apply owner_processing; [done|]; unfold owners; rewrite Hpc; simpl; lia).
    destruct a.
    + unfold enqueue. destruct (tk_chClosed t); [by specialize (proj1 He eq_refl)|eauto].
    + eexists. split; [done|]. by apply ok_out_reader.
    + destruct (endProcessing_round_ok t Hok Hp) as (b & t' & -> & Hf & Ht). destruct b; eexists; (split; [done|]).
      * destruct (Ht eq_refl) as [? ?]. by eapply ok_give_reader.
      * by apply Hf.
  - eexists. split; [done|]. destruct (tk_mutex t) eqn:Hm; [done|]. by apply ok_out_reader.
  - destruct (tk_mutex t); [eauto|]. by apply finish_forward_ok.
  - eexists. split; [done|]. case_bool_decide; [|done]. apply ok_reader; rewrite ?Hpc; try done. by intros d' [?|?].
  - eauto.
Qed.

Lemma ok_conn_gone i pending t :
  token_ok t -> tk_conns t !! i = Some CStart -> tk_processing t = true \/ pending = tk_pending t ->
  token_ok (set_conn i CGone (Token (tk_mutex t) (tk_processing t) (tk_made t) (tk_closed t) pending (tk_returned t)
                                (tk_chClosed t) (tk_reader t) (tk_conns t))).
Proof.
  intros [Ho Hh Hc Hmd Hw Hr He Hv Hpd] Hi Hpend.
  pose proof (sum_insert conn_owns _ i CStart CGone Hi). pose proof (sum_insert conn_holds _ i CStart CGone Hi).
  split; counts; cbn in *; try done; try lia. intros Hx. destruct Hpend as [?| ->]; auto.
Qed.

Lemma conn_step_ok a i t : token_ok t -> exists t', conn_step a i t = Some t' /\ token_ok t'.
Proof.
  intros Hok. unfold conn_step. destruct (tk_conns t !! i) as [[]|] eqn:Hi; [| | |eauto|eauto].
  - destruct (tk_mutex t) eqn:Hm; [eauto|]. destruct (tk_returned t) eqn:Hr.
    { eexists. split; [done|]. pose proof (ok_conn_gone i (tk_pending t) t Hok Hi (or_intror eq_refl)) as H. by destruct t. }
    destruct (tk_processing t) eqn:Hp; eexists; (split; [done|]).
    + pose proof (ok_conn_gone i true t Hok Hi (or_introl Hp)) as H. rewrite Hm, Hp, Hr in H. exact H.
    + by apply ok_take_conn.
  - pose proof (sum_insert conn_owns _ i COwn CGone Hi) as H1. pose proof (sum_insert conn_holds _ i COwn CGone Hi) as H2. cbn in H1, H2.
    assert (Hp : tk_processing t = true) by (apply owner_processing; [done|]; unfold owners; lia).
    assert (Hm : tk_mutex t = true) by (apply holder_mutex; [done|]; unfold holders; lia).
    destruct a.
    + unfold enqueue. destruct (tk_chClosed t) eqn:Ec; [|eauto].
      pose proof (to_over t Hok (proj1 (to_ended t Hok) Ec)). congruence.
    + eexists. split; [done|]. by eapply ok_out_conn.
    + destruct (endProcessing_round_ok t Hok Hp) as (b & t' & -> & Hf & Ht). destruct b; eexists; (split; [done|]).
      * destruct (Ht eq_refl) as [? ?]. by eapply ok_give_conn.
      * by apply Hf.
  - eexists. split; [done|]. destruct (tk_mutex t) eqn:Hm; [done|]. by eapply ok_out_conn.
Qed.

Lemma token_step_ok t e : token_ok t -> exists t', token_step t e = Some t' /\ token_ok t'.
Proof.
  intros Hok. destruct e as [a more|a i|]; [by apply reader_step_ok|by apply conn_step_ok|].
  eexists. split; [done|]. destruct Hok as [Ho Hh Hc Hmd Hw Hr He Hv Hpd].
  split; counts; rewrite ?sum_list_with_app; cbn in *; try done; lia.
Qed.

Lemma token_run_ok es t : token_ok t -> exists t', token_run es t = Some t' /\ token_ok t'.
Proof.
  revert t. induction es as [|e es IH]; intros t Hok; [by exists t|]. cbn [token_run].
  destruct (token_step_ok t e Hok) as (t' & -> & Hok'). by apply IH.
Qed.

(** C5: however the goroutine of [forward] and any calls of [onReconnected]
    interleave, nothing is written to the closed queue and no channel is closed
    twice; at most one of them is in the middle of a handler, also while it has
    released the mutex; and a reconnection that was noted is still to be replayed
    by the one that has the token, unless the forwarder has returned. *)
Theorem token_excludes es :
  exists t, token_run es new_token = Some t /\ (owners t <= 1)%nat /\ (holders t <= 1)%nat /\
    (tk_chClosed t = true -> owners t = 0%nat) /\
    (tk_pending t = true -> owners t = 1%nat \/ tk_returned t = true).
Proof.
  destruct (token_run_ok es new_token new_token_ok) as (t & -> & Hok). exists t. split; [done|].
  pose proof (to_owners t Hok) as Ho. pose proof (to_holders t Hok) as Hh. rewrite Ho, Hh.
  split_and!; [destruct (tk_processing t); simpl; lia|destruct (tk_mutex t); simpl; lia| |].
  - intros Hc. by rewrite (to_over t Hok (proj1 (to_ended t Hok) Hc)).
  - intros Hp. destruct (to_pending t Hok Hp) as [->|?]; [by left|by right].
Qed.

(** ** No one waits for ever *)

(** The goroutine of [forward] can come to its end. *)
Definition can_end (t : token) : Prop := exists es t', token_run es t = Some t' /\ tk_reader t' = REnded.

Lemma token_run_app es es' t : token_run (es ++ es') t = token_run es t ≫= token_run es'.
Proof. revert t. induction es as [|e es IH]; intros t; [done|]. cbn [app token_run]. by destruct (token_step t e). Qed.

Lemma can_end_run es t t' : token_run es t = Some t' -> can_end t' -> can_end t.
Proof.
  intros Hr (es' & t'' & Hr' & He). exists (es ++ es'), t''. split; [|done]. by rewrite token_run_app, Hr.
Qed.

(** The state after a step is again a good one. *)
Lemma token_step_good t e t' : token_ok t -> token_step t e = Some t' -> token_ok t'.
Proof. intros Hok H. destruct (token_step_ok t e Hok) as (t1 & ? & ?). congruence. Qed.

(** Two rounds of [endProcessing] are enough: the first may replay. *)
Lemma conn_gives_back i t :
  token_ok t -> tk_conns t !! i = Some COwn ->
  exists es t', token_run es t = Some t' /\ token_ok t' /\ tk_processing t' = false /\ tk_reader t' = tk_reader t.
Proof.
  intros Hok Hi.
  pose proof (sum_insert conn_owns _ i COwn CGone Hi) as H1. cbn in H1.
  assert (Hp : tk_processing t = true) by (apply owner_processing; [done|]; unfold owners; lia).
  assert (Hgive : forall u, token_ok u -> tk_conns u !! i = Some COwn -> tk_processing u = true -> tk_pending u && negb (tk_returned u) = false ->
    exists u', token_run [TConn Finish i] u = Some u' /\ token_ok u' /\ tk_processing u' = false /\ tk_reader u' = tk_reader u).
  { intros u Hu Hiu Hpu Hn. destruct (token_step_ok u (TConn Finish i) Hu) as (u' & Hs & Hu'). exists u'. split; [cbn [token_run]; by rewrite Hs|].
    split; [done|]. cbn [token_step] in Hs. unfold conn_step, endProcessing_round in Hs. rewrite Hiu, Hn in Hs.
    case_bool_decide; [done|]. by injection Hs as <-. }
  destruct (tk_pending t && negb (tk_returned t)) eqn:E; [|exists [TConn Finish i]; by apply Hgive].
  destruct (token_step_ok t (TConn Finish i) Hok) as (u & Hs & Hu). pose proof Hs as Hs'.
  cbn [token_step] in Hs. unfold conn_step, endProcessing_round in Hs. rewrite Hi, E in Hs. injection Hs as Hs.
  destruct (Hgive u) as (u' & ? & ? & ? & Hrd); [done|by rewrite <- Hs|by rewrite <- Hs|by rewrite <- Hs|].
  exists [TConn Finish i; TConn Finish i], u'. cbn [token_run] in *. rewrite Hs'. rewrite <- Hs in Hrd. done.
Qed.

(** When the goroutine of [forward] has not the token, whoever has it can give it
    back. *)
Lemma others_give_back t :
  token_ok t -> reader_owns (tk_reader t) = 0%nat ->
  exists es t', token_run es t = Some t' /\ token_ok t' /\ tk_processing t' = false /\ tk_mutex t' = false /\ tk_reader t' = tk_reader t.
Proof.
  intros Hok Hr0.
  assert (Hfree : forall u, token_ok u -> reader_owns (tk_reader u) = 0%nat -> tk_processing u = false -> tk_mutex u = false).
  { intros u [Ho Hh _ _ _ _ _ _ _] Hu Hp. unfold owners, holders in *. rewrite Hp, Hu in Ho. pose proof (conn_holds_owns (tk_conns u)).
    destruct (tk_mutex u), (tk_reader u); simpl in *; lia || done. }
  assert (Hdo : forall u i, token_ok u -> tk_reader u = tk_reader t -> tk_conns u !! i = Some COwn ->
    exists es t', token_run es u = Some t' /\ token_ok t' /\ tk_processing t' = false /\ tk_mutex t' = false /\ tk_reader t' = tk_reader t).
  { intros u i Hu Hru Hi. destruct (conn_gives_back i u Hu Hi) as (es & t' & Hrun & Hok' & Hp' & Hr').
    exists es, t'. split_and!; try done; [|congruence]. apply Hfree; [done|congruence|done]. }
  destruct (tk_processing t) eqn:Hp; [|exists [], t; split_and!; try done; by apply Hfree].
  pose proof (to_owners t Hok) as Ho. pose proof (to_holders t Hok) as Hh. unfold owners, holders in Ho, Hh. rewrite Hp, Hr0 in Ho.
  assert (Hrh : reader_holds (tk_reader t) = 0%nat) by (by destruct (tk_reader t)). rewrite Hrh in Hh.
  destruct (tk_mutex t) eqn:Hm; simpl in Ho, Hh.
  - destruct (sum_ex conn_holds (tk_conns t)) as (i & c & Hi & Hc); [lia|]. destruct c; simpl in Hc; try lia. by apply (Hdo t i).
  - destruct (sum_ex conn_owns (tk_conns t)) as (i & c & Hi & Hc); [lia|].
    pose proof (sum_insert conn_holds _ i c CGone Hi) as H2. destruct c; simpl in Hc, H2; try lia.
    destruct (token_step_ok t (TConn Release i) Hok) as (u & Hs & Hu). pose proof Hs as Hs'.
    cbn [token_step] in Hs. unfold conn_step in Hs. rewrite Hi, Hm in Hs. injection Hs as Hs.
    destruct (Hdo u i) as (es & t' & Hrun & Hrest); [done|by rewrite <- Hs| |].
    { rewrite <- Hs. cbn. apply list_lookup_insert_eq. by eapply lookup_lt_Some. }
    exists (TConn Release i :: es), t'. cbn [token_run]. by rewrite Hs'.
Qed.

(** One step of the goroutine of [forward], then the rest. *)
Lemma can_end_step e t t' : token_ok t -> token_step t e = Some t' -> (token_ok t' -> can_end t') -> can_end t.
Proof.
  intros Hok Hs H. apply (can_end_run [e] t t'); [cbn [token_run]; by rewrite Hs|]. apply H. by eapply token_step_good.
Qed.

Lemma fin_can_end t : token_ok t -> tk_reader t = RFin -> can_end t.
Proof.
  intros Hok Hpc. destruct (others_give_back t Hok) as (es & u & Hrun & Hu & Hp & Hm & Hr); [by rewrite Hpc|].
  apply (can_end_run es t u Hrun). destruct (token_step_ok u (TReader Finish false) Hu) as (u' & Hs & _).
  exists [TReader Finish false], u'. cbn [token_run]. rewrite Hs. split; [done|].
  cbn [token_step] in Hs. unfold forward_step, finish_forward in Hs. rewrite Hr, Hpc, Hm in Hs.
  cbn [tk_processing tk_chClosed] in Hs. rewrite Hp in Hs. case_match; [done|]. by injection Hs as <-.
Qed.

Lemma idle_can_end t : token_ok t -> tk_reader t = RIdle -> can_end t.
Proof.
  intros Hok Hpc. eapply (can_end_step (TReader Finish false) t); [done|cbn; unfold forward_step; by rewrite Hpc|].
  intros Hu. by apply fin_can_end.
Qed.

(** The goroutine of [forward] has the token and the mutex. *)
Lemma own_can_end t : token_ok t -> tk_reader t = ROwn -> can_end t.
Proof.
  intros Hok Hpc.
  assert (Hgive : forall u, token_ok u -> tk_reader u = ROwn -> tk_pending u && negb (tk_returned u) = false -> can_end u).
  { intros u Hu Hpu Hn. destruct (token_step_ok u (TReader Finish false) Hu) as (u' & Hs & Hu').
    eapply (can_end_step (TReader Finish false) u u'); [done|done|]. intros _. apply idle_can_end; [done|].
    cbn [token_step] in Hs. unfold forward_step, endProcessing_round in Hs. rewrite Hpu, Hn in Hs. case_bool_decide; [done|].
    by injection Hs as <-. }
  destruct (tk_pending t && negb (tk_returned t)) eqn:E; [|by apply Hgive].
  destruct (token_step_ok t (TReader Finish false) Hok) as (u & Hs & Hu).
  eapply (can_end_step (TReader Finish false) t u); [done|done|]. intros _.
  cbn [token_step] in Hs. unfold forward_step, endProcessing_round in Hs. rewrite Hpc, E in Hs. injection Hs as <-. by apply Hgive.
Qed.

Lemma begin_can_end t : token_ok t -> tk_reader t = RBegin -> can_end t.
Proof.
  intros Hok Hpc. destruct (others_give_back t Hok) as (es & u & Hrun & Hu & Hp & Hm & Hr); [by rewrite Hpc|].
  apply (can_end_run es t u Hrun). eapply (can_end_step (TReader Finish false) u); [done| |].
  - cbn. unfold forward_step. by rewrite Hr, Hpc, Hm, Hp.
  - intros Hu'. by apply own_can_end.
Qed.

(** Once the token is free, the channel that is waited for is closed. *)
Lemma waited_closed t d : token_ok t -> tk_processing t = false -> tk_reader t = RWait d \/ tk_reader t = RFinWait d -> d ∈ tk_closed t.
Proof.
  intros Hok Hp Hw. apply (to_closed t Hok). pose proof (to_wait t Hok d Hw).
  destruct (decide (d = tk_made t)); [right; split_and!; lia || done|left; lia].
Qed.

(** C18: in every state that the goroutines can come to, the goroutine of
    [forward] can still be brought to its end by them alone, whoever has the
    token and whoever waits for it: no wake-up is lost and there is no deadlock. *)
Theorem token_can_end es t : token_run es new_token = Some t -> can_end t.
Proof.
  intros Hrun. destruct (token_run_ok es new_token new_token_ok) as (t' & Hrun' & Hok).
  rewrite Hrun' in Hrun. injection Hrun as ->.
  destruct (tk_reader t) as [| |d| | | |d|] eqn:Hpc.
  - by apply idle_can_end.
  - by apply begin_can_end.
  - destruct (others_give_back t Hok) as (es' & u & Hrun & Hu & Hp & _ & Hr); [by rewrite Hpc|]. apply (can_end_run es' t u Hrun).
    eapply (can_end_step (TReader Finish false) u); [done| |].
    + cbn. unfold forward_step. rewrite Hr, Hpc. rewrite bool_decide_eq_true_2; [done|]. apply waited_closed; [done|done|left; congruence].
    + intros Hu'. by apply begin_can_end.
  - by apply own_can_end.
  - assert (Hm : tk_mutex t = false).
    { pose proof (to_owners t Hok) as Ho. pose proof (to_holders t Hok) as Hh. unfold owners, holders in *. rewrite Hpc in *.
      pose proof (conn_holds_owns (tk_conns t)). destruct (tk_mutex t), (tk_processing t); simpl in *; lia || done. }
    eapply (can_end_step (TReader Finish false) t); [done|cbn; unfold forward_step; by rewrite Hpc, Hm|].
    intros Hu. by apply own_can_end.
  - by apply fin_can_end.
  - destruct (others_give_back t Hok) as (es' & u & Hrun & Hu & Hp & _ & Hr); [by rewrite Hpc|]. apply (can_end_run es' t u Hrun).
    eapply (can_end_step (TReader Finish false) u); [done| |].
    + cbn. unfold forward_step. rewrite Hr, Hpc. rewrite bool_decide_eq_true_2; [done|]. apply waited_closed; [done|done|right; congruence].
    + intros Hu'. by apply fin_can_end.
  - by exists [], t.
Qed.

(** ** Example: a reconnection while a handler waits for the queue, and one as
    the forwarder ends *)

Definition example_schedule : list token_event :=
  [TReader Enqueue true; TReader Enqueue true; TReader Release true; TReconnected; TConn Enqueue 0; TReader Enqueue true; TReader Finish true;
   TReader Finish true; TReconnected; TConn Enqueue 1; TReader Enqueue false; TReader Enqueue false; TConn Release 1; TReader Enqueue false].

Lemma token_can_end_witness :
  exists t, token_run example_schedule new_token = Some t /\ tk_reader t = RFinWait 2 /\ can_end t.
Proof.
  eexists. split; [vm_compute; reflexivity|]. split; [reflexivity|].
  apply (token_can_end example_schedule). vm_compute. reflexivity.
Defined.
