(* ===== verification/Pacer.v ===== *)
(** * Pacer: keeping output under the wire budget ([wireRatePacer], [output.go])

    A token bucket shared by the sessions of a KCP connection.  The code counts
    in floating point; the model counts exactly, in a unit that makes every
    quantity an integer.  With a wire rate of [w] bytes per second the payload
    rate is [w / 2.6] bytes per second, that is [5 w / (13 * 10^9)] bytes per
    nanosecond, so with [13 * 10^9] units to the byte a nanosecond is worth
    [5 w] units.  The rounding errors of floating point are not modelled; they
    are far below the half byte that the code tolerates.  Nor is the width of
    [int] and [time.Duration]: the deficit of a call is the length of a buffer in
    memory, and a sleep would overflow only at a deficit of 292 years. *)

From Stdlib Require Import ZArith Lia.
From stdpp Require Import base list.
From S2P Require Import Prelude.
Open Scope Z_scope.

Definition unit : Z := 13 * 10 ^ 9.

Definition half_byte : Z := 65 * 10 ^ 8.

(** Nanoseconds. *)
Definition kPacerTokenInterval : Z := 10 ^ 8.

Definition kPacerMaxSleep : Z := 10 ^ 9.

(** [p_rate] in units per nanosecond, [p_tok] in units, [p_last] the time of
    the last refill. *)
Record wireRatePacer := Pacer {
  p_rate : Z;
  p_tok : Z;
  p_last : option Z
}.

(** [None] is nil: pacing is off. *)
Definition newWireRatePacer (wireRateBPS : Z) : option wireRatePacer :=
  if wireRateBPS =? 0 then None else Some (Pacer (5 * wireRateBPS) 0 None).

Definition p_burst (p : wireRatePacer) : Z := p_rate p * kPacerTokenInterval.

(** The refill at the beginning of [wait]. *)
Definition refill (p : wireRatePacer) (now : Z) : Z :=
  match p_last p with
  | None => p_burst p
  | Some last => Z.min (p_burst p) (p_tok p + (now - last) * p_rate p)
  end.

(** One slice of the deficit: how long to sleep, and the new balance.  The
    conversion to [time.Duration] drops fractions of a nanosecond. *)
Definition slice_sleep (rate tok : Z) : Z := Z.min kPacerMaxSleep (- tok / rate).

Definition slice_tok (rate tok : Z) : Z := tok + Z.min (slice_sleep rate tok * rate) (- tok).

(** The loop that sleeps the deficit off, at the time [t].  A sleep never ends
    early; [late] says how much later each one ends.  [None]: out of fuel. *)
Fixpoint pay_deficit (fuel : nat) (rate tok t : Z) (late : nat -> Z) : option (Z * Z) :=
  if tok <? - half_byte then
    match fuel with
    | O => None
    | S fuel' =>
        pay_deficit fuel' rate (slice_tok rate tok) (t + slice_sleep rate tok + late fuel) late
    end
  else Some (tok, t).

(** [wait] called at [now]; the result has the time at which it returns. *)
Definition wait (fuel : nat) (p : wireRatePacer) (n now : Z) (late : nat -> Z) : option (wireRatePacer * Z) :=
  if n <=? 0 then Some (p, now)
  else
    match pay_deficit fuel (p_rate p) (refill p now - n * unit) now late with
    | None => None
    | Some (tok, t) => Some (Pacer (p_rate p) (if tok <? 0 then 0 else tok) (Some t), t)
    end.

(** A nil pacer does not hold anybody up: no session server, QUIC, or rate 0. *)
Definition pacer_wait (fuel : nat) (p : option wireRatePacer) (n now : Z) (late : nat -> Z) :
    option (option wireRatePacer * Z) :=
  match p with
  | None => Some (None, now)
  | Some p => match wait fuel p n now late with Some (p', t) => Some (Some p', t) | None => None end
  end.

(** A sequence of calls: the bytes, the idle time since the last return, and
    how late the sleeps end.  The mutex held across [wait] makes the calls of all forwarders one
    sequence.  The result has the time of each return. *)
Record call := Call { c_bytes : Z; c_idle : Z; c_late : nat -> Z }.

Definition call_ok (c : call) : Prop := 0 < c_bytes c /\ 0 <= c_idle c /\ forall k, 0 <= c_late c k.

Fixpoint waits (fuel : nat) (p : wireRatePacer) (t : Z) (cs : list call) : option (wireRatePacer * Z) :=
  match cs with
  | [] => Some (p, t)
  | c :: cs' =>
      match wait fuel p (c_bytes c) (t + c_idle c) (c_late c) with
      | None => None
      | Some (p', t') => waits fuel p' t' cs'
      end
  end.

Definition total_bytes (cs : list call) : Z := foldr (fun c acc => c_bytes c + acc) 0 cs.

(** ** [wait] returns *)

Lemma slice_sleep_bounds rate tok :
  0 < rate -> tok <= 0 ->
  0 <= slice_sleep rate tok /\ slice_sleep rate tok * rate <= - tok.
Proof.
  intros Hr Ht. unfold slice_sleep, kPacerMaxSleep.
  pose proof (Z.div_pos (- tok) rate ltac:(lia) Hr). pose proof (Z.mul_div_le (- tok) rate Hr).
  split; [lia|]. destruct (Z.min_spec (10 ^ 9) (- tok / rate)) as [[? ->]|[? ->]]; nia.
Qed.

Lemma slice_tok_eq rate tok :
  0 < rate -> tok <= 0 -> slice_tok rate tok = tok + slice_sleep rate tok * rate.
Proof. intros Hr Ht. unfold slice_tok. destruct (slice_sleep_bounds rate tok Hr Ht). lia. Qed.

(** A slice pays a full second's worth, or leaves less than a nanosecond's. *)
Lemma slice_progress rate tok :
  0 < rate -> tok <= 0 ->
  slice_tok rate tok = tok + kPacerMaxSleep * rate \/ - rate < slice_tok rate tok <= 0.
Proof.
  intros Hr Ht. rewrite slice_tok_eq by done. unfold slice_sleep.
  destruct (Z.min_spec kPacerMaxSleep (- tok / rate)) as [[Hlt ->]|[_ ->]]; [by left|right].
  pose proof (Z.div_mod (- tok) rate ltac:(lia)). pose proof (Z.mod_pos_bound (- tok) rate Hr). lia.
Qed.

Lemma pay_deficit_returns fuel rate tok t late :
  0 < rate <= half_byte -> tok <= 0 -> - tok <= Z.of_nat fuel * (kPacerMaxSleep * rate) ->
  exists r, pay_deficit (S fuel) rate tok t late = Some r.
Proof.
  revert tok t. induction fuel as [|fuel IH]; intros tok t Hr Ht Hf; cbn [pay_deficit].
  - destruct (Z.ltb_spec tok (- half_byte)); [unfold half_byte in *; lia|eauto].
  - destruct (Z.ltb_spec tok (- half_byte)) as [Hlt|]; [|eauto].
    destruct (slice_progress rate tok) as [E|[Hlo Hhi]]; [lia|lia| |].
    + destruct (Z.le_gt_cases (tok + kPacerMaxSleep * rate) 0) as [Hle|Hgt].
      * apply IH; [done| |]; rewrite E; lia.
      * pose proof (slice_sleep_bounds rate tok ltac:(lia) Ht) as [_ Hb].
        rewrite slice_tok_eq in E by lia. lia.
    + destruct (Z.ltb_spec (slice_tok rate tok) (- half_byte)); [unfold half_byte in *; lia|eauto].
Qed.

(** C22: at any wire rate up to 1.3 GB/s, [wait] returns: it needs one slice of
    sleep for each second that the deficit is worth, and one more. *)
Theorem pacer_wait_returns wire p n now late fuel :
  0 < wire <= 13 * 10 ^ 8 -> p_rate p = 5 * wire ->
  n * unit - refill p now <= Z.of_nat fuel * (kPacerMaxSleep * p_rate p) ->
  exists p' t, wait (S fuel) p n now late = Some (p', t).
Proof.
  intros Hw Hrate Hf. unfold wait. destruct (n <=? 0); [eauto|].
  destruct (Z.le_gt_cases (refill p now - n * unit) 0) as [Hle|Hgt].
  - edestruct (pay_deficit_returns fuel (p_rate p) (refill p now - n * unit) now late) as [[tok t] E];
      [unfold half_byte; lia|done|lia|]. rewrite E. eauto.
  - cbn [pay_deficit]. destruct (Z.ltb_spec (refill p now - n * unit) (- half_byte)); [unfold half_byte in *; lia|eauto].
Qed.

(** Above one payload byte per nanosecond it may not.  When the credit runs
    out with a deficit of one byte, the sleep that would pay it is rounded
    down to nothing, the deficit stays and the loop spins, holding the mutex
    of the connection. *)
Theorem pacer_wait_spins wire p k now late fuel :
  26 * 10 ^ 8 < wire -> p_rate p = 5 * wire -> refill p now = k * unit -> 0 <= k ->
  wait fuel p (k + 1) now late = None.
Proof.
  intros Hw Hrate Hre Hk. unfold wait. rewrite (proj2 (Z.leb_gt (k + 1) 0)) by lia.
  rewrite Hre. replace (k * unit - (k + 1) * unit) with (- unit) by lia.
  assert (Hsleep : slice_sleep (p_rate p) (- unit) = 0).
  { unfold slice_sleep, kPacerMaxSleep. rewrite Z.opp_involutive, Z.div_small by (unfold unit; lia). lia. }
  assert (Htok : slice_tok (p_rate p) (- unit) = - unit).
  { unfold slice_tok. rewrite Hsleep. unfold unit. lia. }
  assert (Hpay : forall t, pay_deficit fuel (p_rate p) (- unit) t late = None); [|by rewrite Hpay].
  induction fuel as [|fuel IH]; intros t; [done|]. cbn [pay_deficit]. rewrite Htok. apply IH.
Qed.

(** ** The budget *)

(** Balance and time together: what the loop adds to the balance it has slept
    for. *)
Lemma pay_deficit_rate fuel rate tok t late tok' t' :
  0 < rate -> (forall k, 0 <= late k) -> pay_deficit fuel rate tok t late = Some (tok', t') ->
  tok' - tok <= rate * (t' - t) /\ t <= t' /\ - half_byte <= tok' /\ (0 < tok' -> tok' = tok).
Proof.
  intros Hr Hl. revert tok t. induction fuel as [|fuel IH]; intros tok t; cbn [pay_deficit];
    destruct (Z.ltb_spec tok (- half_byte)) as [Hlt|Hge]; try done; try (intros [= <- <-]; split_and!; lia).
  intros Hp. specialize (IH _ _ Hp).
  assert (Ht : tok <= 0) by (unfold half_byte in *; lia).
  destruct (slice_sleep_bounds rate tok Hr Ht). specialize (Hl (S fuel)).
  rewrite (slice_tok_eq rate tok Hr Ht) in IH. destruct IH as (H1 & H2 & H3 & H4). split_and!; [nia|lia|done|].
  intros Hpos. specialize (H4 Hpos). lia.
Qed.

Definition tok_ok (p : wireRatePacer) : Prop := 0 < p_rate p /\ 0 <= p_tok p <= p_burst p.

(** The balance plus what was released grows at most at the payload rate; each
    call is forgiven at most half a byte. *)
Lemma wait_budget fuel p last n now late p' t' :
  tok_ok p -> p_last p = Some last -> last <= now -> 0 < n -> (forall k, 0 <= late k) ->
  wait fuel p n now late = Some (p', t') ->
  tok_ok p' /\ p_rate p' = p_rate p /\ p_last p' = Some t' /\ now <= t' /\
  n * unit + p_tok p' <= p_tok p + p_rate p * (t' - last) + half_byte.
Proof.
  intros [Hr Ht] Hlast Hnow Hn Hl. unfold wait. rewrite (proj2 (Z.leb_gt n 0)) by lia.
  destruct (pay_deficit _ _ _ _ _) as [[tok t]|] eqn:E; [|done]. intros [= <- <-].
  apply pay_deficit_rate in E as (H1 & H2 & H3 & H4); [|done..].
  assert (Href : refill p now <= p_tok p + (now - last) * p_rate p /\ refill p now <= p_burst p).
  { unfold refill. rewrite Hlast. lia. }
  assert (Hu : 0 < unit) by done. assert (Hh : 0 <= half_byte) by done.
  assert (Hb : 0 <= p_burst p) by lia.
  unfold tok_ok. change (p_burst (Pacer (p_rate p) _ _)) with (p_burst p). simpl.
  destruct (Z.ltb_spec tok 0) as [Hneg|Hpos]; split_and!; try done; try lia; try nia.
Qed.

Lemma waits_budget fuel cs p last p' t' :
  tok_ok p -> p_last p = Some last -> Forall call_ok cs -> waits fuel p last cs = Some (p', t') ->
  tok_ok p' /\ last <= t' /\
  total_bytes cs * unit + p_tok p' <=
    p_tok p + p_rate p * (t' - last) + Z.of_nat (length cs) * half_byte.
Proof.
  revert p last. induction cs as [|c cs IH]; intros p last Hp Hlast Hcs Hw; simpl in *.
  { simplify_eq. split_and!; [done|lia|lia]. }
  apply Forall_cons in Hcs as [(Hn & Hi & Hl) Hcs].
  destruct (wait fuel p (c_bytes c) (last + c_idle c) (c_late c)) as [[p1 t1]|] eqn:E; [|done].
  apply (wait_budget _ _ last) in E as (Hp1 & Hr1 & Hlast1 & Hge & Hb1); [|done|done|lia|done..].
  destruct (IH _ _ Hp1 Hlast1 Hcs Hw) as (Hp' & Hge' & Hb'). rewrite Hr1 in Hb'.
  split_and!; [done|lia|]. rewrite Nat2Z.inj_succ. nia.
Qed.

(** The clock starts with the first call, not when the pacer is made. *)
Lemma wait_first fuel p n now late :
  p_last p = None -> wait fuel p n now late = wait fuel (Pacer (p_rate p) (p_burst p) (Some now)) n now late \/ n <= 0.
Proof.
  intros Hp. unfold wait. destruct (Z.leb_spec n 0); [by right|left].
  assert (E : refill (Pacer (p_rate p) (p_burst p) (Some now)) now = refill p now).
  { unfold refill, p_burst. rewrite Hp. simpl. rewrite Z.sub_diag. lia. }
  by rewrite E.
Qed.

Lemma newWireRatePacer_fresh wire p :
  0 < wire -> newWireRatePacer wire = Some p -> p = Pacer (5 * wire) 0 None.
Proof. intros Hw. unfold newWireRatePacer. destruct (Z.eqb_spec wire 0); [lia|congruence]. Qed.

(** A run of a new pacer that has made a call is in a good state. *)
Lemma waits_fresh fuel wire p t c cs p' t' :
  0 < wire -> newWireRatePacer wire = Some p -> Forall call_ok (c :: cs) ->
  waits fuel p t (c :: cs) = Some (p', t') ->
  tok_ok p' /\ p_rate p' = 5 * wire /\ p_last p' = Some t'.
Proof.
  intros Hw Hp [(Hn & Hi & Hl) Hcs]%Forall_cons. apply newWireRatePacer_fresh in Hp as ->; [|done].
  cbn [waits]. destruct (wait_first fuel (Pacer (5 * wire) 0 None) (c_bytes c) (t + c_idle c) (c_late c) eq_refl)
    as [->|]; [|lia].
  destruct (wait _ _ _ _ _) as [[p1 t1]|] eqn:E; [|done].
  apply (wait_budget _ _ (t + c_idle c)) in E as (Hp1 & Hr1 & Hl1 & _); [|split; simpl|..]; try done; try lia.
  2: { unfold p_burst, kPacerTokenInterval. simpl. lia. }
  intros Hws. clear Hn Hi Hl. change (p_rate (Pacer (5 * wire) _ _)) with (5 * wire) in Hr1.
  revert p1 t1 Hp1 Hr1 Hl1 Hws. induction cs as [|c' cs IH]; intros p1 t1 Hp1 Hr1 Hl1 Hws; simpl in Hws.
  { by simplify_eq. }
  apply Forall_cons in Hcs as [(Hn & Hi & Hl) Hcs].
  destruct (wait fuel p1 _ _ _) as [[p2 t2]|] eqn:E; [|done].
  apply (wait_budget _ _ t1) in E as (Hp2 & Hr2 & Hl2 & _); [|done|done|lia|done..].
  eapply IH; [done..|congruence|done|done].
Qed.

(** From the moment one chunk is released to the moment a later one is, the
    sessions of a connection are given at most the burst plus the payload rate
    times the time, and half a byte for each chunk. *)
Theorem pacer_window_budget fuel wire p t pre p1 t1 win p2 t2 :
  0 < wire -> newWireRatePacer wire = Some p -> pre <> [] -> Forall call_ok pre -> Forall call_ok win ->
  waits fuel p t pre = Some (p1, t1) -> waits fuel p1 t1 win = Some (p2, t2) ->
  t1 <= t2 /\
  total_bytes win * unit <=
    p_burst p + 5 * wire * (t2 - t1) + Z.of_nat (length win) * half_byte.
Proof.
  intros Hw Hp Hpre Hok Hok' H1 H2. destruct pre as [|c cs]; [done|].
  pose proof (newWireRatePacer_fresh _ _ Hw Hp) as Hfresh.
  destruct (waits_fresh _ _ _ _ _ _ _ _ Hw Hp Hok H1) as (Hgood & Hr & Hl).
  destruct (waits_budget _ _ _ _ _ _ Hgood Hl Hok' H2) as ([_ Hp2] & Hge & Hb).
  destruct Hgood as [_ Hg]. unfold p_burst in Hg. rewrite Hr in Hb, Hg.
  rewrite Hfresh. unfold p_burst. simpl. lia.
Qed.

(** ** Concrete runs *)

Definition prompt : nat -> Z := fun _ => 0.

Definition chunk : call := Call 32768 0 prompt.

Lemma chunk_ok : call_ok chunk.
Proof. unfold call_ok, chunk, prompt. simpl. split_and!; try lia. Qed.

Lemma pacer_wait_returns_witness :
  exists p' t, wait 2 (Pacer (5 * 175000) 0 (Some 0)) 32768 0 prompt = Some (p', t).
Proof. apply (pacer_wait_returns 175000); [split; [reflexivity|vm_compute; discriminate]|reflexivity|vm_compute; discriminate]. Defined.

(** At 3 GB/s, with one byte of credit left and two to send. *)
Lemma pacer_wait_spins_witness :
  wait 1000 (Pacer (5 * 3000000000) unit (Some 0)) 2 0 prompt = None.
Proof. apply (pacer_wait_spins 3000000000 _ 1); [vm_compute; reflexivity..|discriminate]. Defined.

(** The rate of the documented recipe. *)
Definition recipe : wireRatePacer := Pacer (5 * 175000) 0 None.

Definition after (p : wireRatePacer) (t : Z) (cs : list call) : wireRatePacer * Z :=
  default (p, t) (waits 2 p t cs).

Lemma pacer_window_budget_witness :
  let '(p1, t1) := after recipe 0 [chunk] in
  let '(p2, t2) := after p1 t1 [chunk; chunk] in
  t1 < t2 /\ total_bytes [chunk; chunk] = 65536 /\
  total_bytes [chunk; chunk] * unit <=
    p_burst recipe + 5 * 175000 * (t2 - t1) + Z.of_nat (length [chunk; chunk]) * half_byte.
Proof.
  destruct (after recipe 0 [chunk]) as [p1 t1] eqn:E1. destruct (after p1 t1 [chunk; chunk]) as [p2 t2] eqn:E2.
  assert (H1 : waits 2 recipe 0 [chunk] = Some (p1, t1)) by (rewrite <- E1; vm_compute; reflexivity).
  assert (H2 : waits 2 p1 t1 [chunk; chunk] = Some (p2, t2)).
  { rewrite <- E2. vm_compute in E1. injection E1 as <- <-. vm_compute. reflexivity. }
  split; [|split; [reflexivity|]].
  - vm_compute in E1. injection E1 as <- <-. vm_compute in E2. injection E2 as <- <-. reflexivity.
  - refine (proj2 (pacer_window_budget 2 175000 recipe 0 [chunk] p1 t1 [chunk; chunk] p2 t2 _ _ _ _ _ H1 H2));
      [reflexivity|reflexivity|discriminate|auto using chunk_ok..].
Defined.

(** A window that contains the release it starts with may exceed the budget of
    the comment of [wait], [burst + rate * window]: two chunks are released
    within the time that pays for one. *)
Example window_with_its_first_release :
  let '(p1, t1) := after recipe 0 [chunk] in
  let '(p2, t2) := after p1 t1 [chunk] in
  p_burst recipe + 5 * 175000 * (t2 - t1) < total_bytes [chunk; chunk] * unit.
Proof. vm_compute. reflexivity. Qed.
