(* ===== verification/Rekey.v ===== *)
(** * Rekey: the rotating traffic keys of a KCP connection ([rekey.go])

    [rotatingCrypto] holds the traffic keys of one end.  A key exchange adds
    a key at both ends; the client uses it at once, the server when it has
    opened a packet sealed with it, and an end drops the older keys when a
    packet sealed with a newer one arrives.

    AES-GCM, HKDF and ECDH are parameters ([Crypto], with the documented
    behaviour the code relies on in [CryptoOk]).  The second half runs the
    two ends against each other over a network that loses, repeats and
    reorders packets. *)

From Stdlib Require Import ZArith Lia Ascii String.
From stdpp Require Import base list strings gmap.
From S2P Require Import Prelude.
Open Scope Z_scope.

Class Crypto := {
  key : Type;
  priv : Type;
  pub : Type;
  key_eq :: EqDecision key;
  pub_eq :: EqDecision pub;
  gcm_Seal : key -> bytes -> bytes -> bytes;            (* key, nonce, plaintext *)
  gcm_Open : key -> bytes -> bytes -> option bytes;     (* key, nonce, ciphertext *)
  gcm_nonceSize : nat;
  gcm_overhead : nat;
  PublicKey : priv -> pub;
  pub_Bytes : pub -> bytes;
  NewPublicKey : bytes -> option pub;
  ECDH : priv -> pub -> option bytes;
  derive : bytes -> bytes -> key                        (* hkdf, aes: secret, salt *)
}.

Class CryptoOk `{Crypto} := {
  gcm_open_seal : forall k n p, gcm_Open k n (gcm_Seal k n p) = Some p;
  gcm_open_other : forall k k' n p, k <> k' -> gcm_Open k' n (gcm_Seal k n p) = None;
  gcm_length : forall k n p, length (gcm_Seal k n p) = (length p + gcm_overhead)%nat;
  NewPublicKey_Bytes : forall p, NewPublicKey (pub_Bytes p) = Some p;
  ECDH_agree : forall a b, ECDH a (PublicKey b) = ECDH b (PublicKey a)
}.

Section Code.
Context `{Crypto}.

Record rotatingCrypto := RC {
  rc_client : bool;                (* r.client != nil *)
  rc_keySalt : bytes;
  rc_gcmList : list key;
  rc_activeIdx : nat;
  rc_timeThreshold : Z;
  rc_bytesConsumed : Z;
  rc_bytesThreshold : Z;
  rc_bytesTriggered : bool;
  rc_rekeyInFlight : bool;
  rc_lastRekeyTime : option Z;     (* None is the zero time *)
  rc_clientPriKey : option priv;
  rc_closed : bool;
  rc_delegatedToProxy : bool
}.

(** The boolean is true when [go r.startRekey()] runs. *)
Definition consumeBytes (r : rotatingCrypto) (n : Z) : rotatingCrypto * bool :=
  match r with RC cl sa gl ai th bc bt tr fl lt pk cd de =>
    if bt =? 0 then (r, false)
    else
      let bc := u64 (bc + n) in
      if (bt <=? bc) && negb tr
      then (RC cl sa gl ai th bc bt true fl lt pk cd de, true)
      else (RC cl sa gl ai th bc bt tr fl lt pk cd de, false)
  end.

(** [None] is the panic of an index out of range. *)
Definition Seal (r : rotatingCrypto) (dst nonce plaintext : bytes) : option (rotatingCrypto * bytes) :=
  if rc_delegatedToProxy r then Some (r, dst ++ plaintext)
  else match rc_gcmList r !! rc_activeIdx r with
       | None => None
       | Some gcm =>
           let '(r, _) := consumeBytes r (Z.of_nat (length plaintext)) in
           Some (r, dst ++ gcm_Seal gcm nonce plaintext)
       end.

Definition sealPacket (r : rotatingCrypto) (buf : bytes) : option (rotatingCrypto * res bytes) :=
  if (length buf <? gcm_nonceSize)%nat then Some (r, Err ErrShortBuffer)
  else
    let nonce := take gcm_nonceSize buf in
    let plaintext := drop gcm_nonceSize buf in
    match Seal r nonce nonce plaintext with
    | None => None
    | Some (r, out) => Some (r, Ok out)
    end.

Definition promoteKey (r : rotatingCrypto) (idx : nat) : rotatingCrypto :=
  match r with RC cl sa gl ai th bc bt tr fl lt pk cd de =>
    if (length gl <=? idx)%nat then r
    else RC cl sa (drop idx gl) 0 th bc bt tr fl lt pk cd de
  end.

(** The loop of [Open] over the keys from index [i] on. *)
Fixpoint Open_loop (r : rotatingCrypto) (i : nat) (gcmList : list key) (nonce ciphertext : bytes)
  : rotatingCrypto * res bytes :=
  match gcmList with
  | [] => (r, Err (Plain "gcm open failed"))
  | gcm :: more =>
      match gcm_Open gcm nonce ciphertext with
      | None => Open_loop r (S i) more nonce ciphertext
      | Some plaintext =>
          (if (0 <? i)%nat then promoteKey r i
           else fst (consumeBytes r (Z.of_nat (length plaintext))), Ok plaintext)
      end
  end.

Definition Open (r : rotatingCrypto) (nonce ciphertext : bytes) : rotatingCrypto * res bytes :=
  if rc_delegatedToProxy r then (r, Ok ciphertext)
  else Open_loop r 0 (rc_gcmList r) nonce ciphertext.

(** The packet in the buffer after [openPacket]: the nonce and the plaintext. *)
Definition openPacket (r : rotatingCrypto) (buf : bytes) : rotatingCrypto * res bytes :=
  if (length buf <? gcm_nonceSize + gcm_overhead)%nat then (r, Err ErrShortBuffer)
  else
    let nonce := take gcm_nonceSize buf in
    match Open r nonce (drop gcm_nonceSize buf) with
    | (r, Err e) => (r, Err e)
    | (r, Ok plaintext) => (r, Ok (nonce ++ plaintext))
    end.

Definition installKey (r : rotatingCrypto) (secret : bytes) (active : bool) (now : Z)
  : rotatingCrypto :=
  match r with RC cl sa gl ai th bc bt tr fl lt pk cd de =>
    let gl := gl ++ [derive secret sa] in
    RC cl sa gl (if active then (length gl - 1)%nat else ai) th 0 bt false false
      (if (1 <? length gl)%nat then Some now else lt) pk cd de
  end.

(** The boolean is true when [doRekey] is started. *)
Definition startRekey (r : rotatingCrypto) (now : Z) : rotatingCrypto * bool :=
  match r with RC cl sa gl ai th bc bt tr fl lt pk cd de =>
    if cd then (r, false)
    else if fl then (r, false)
    else if (match lt with Some t => now - t <? th / 2 | None => false end) && (bc <? bt)
    then (r, false)
    else (RC cl sa gl ai th bc bt tr true lt pk cd de, true)
  end.

(** [doRekey] and the failure branch of [startRekey]: [gen] is the generated
    key, [sendOk] whether the bus message could be sent. *)
Definition doRekey (r : rotatingCrypto) (gen : option priv) (sendOk : bool)
  : rotatingCrypto * option bytes :=
  match r with RC cl sa gl ai th bc bt tr fl lt pk cd de =>
    match gen with
    | None => (RC cl sa gl ai th bc bt tr false lt pk cd de, None)
    | Some p =>
        if sendOk
        then (RC cl sa gl ai th bc bt tr fl lt (Some p) cd de, Some (pub_Bytes (PublicKey p)))
        else (RC cl sa gl ai th bc bt tr false lt (Some p) cd de, None)
    end
  end.

Definition set_priKey (r : rotatingCrypto) (p : option priv) : rotatingCrypto :=
  match r with RC cl sa gl ai th bc bt tr fl lt pk cd de =>
    RC cl sa gl ai th bc bt tr fl lt p cd de
  end.

Definition handleClientRekey (r : rotatingCrypto) (PubKey : bytes) (now : Z)
  : rotatingCrypto * option goerr :=
  match NewPublicKey PubKey with
  | None => (r, Some (Plain "new public key failed"))
  | Some serverPubKey =>
      match rc_clientPriKey r with
      | None => (r, Some (Plain "client private key is nil"))
      | Some clientPriKey =>
          match ECDH clientPriKey serverPubKey with
          | None => (r, Some (Plain "ecdh failed"))
          | Some secret => (set_priKey (installKey r secret true now) None, None)
          end
      end
  end.

(** The result is the message sent back, or the error. *)
Definition handleServerRekey (r : rotatingCrypto) (gen : option priv) (PubKey : bytes) (now : Z)
  : rotatingCrypto * res bytes :=
  match gen with
  | None => (r, Err (Plain "generate key failed"))
  | Some serverPriKey =>
      match NewPublicKey PubKey with
      | None => (r, Err (Plain "new public key failed"))
      | Some clientPubKey =>
          match ECDH serverPriKey clientPubKey with
          | None => (r, Err (Plain "ecdh failed"))
          | Some secret => (installKey r secret false now, Ok (pub_Bytes (PublicKey serverPriKey)))
          end
      end
  end.

Definition crypto_Close (r : rotatingCrypto) : rotatingCrypto :=
  match r with RC cl sa gl ai th bc bt tr fl lt pk cd de =>
    RC cl sa gl ai th bc bt tr fl lt pk true de
  end.

(** The boolean is true when the time-based rekey goroutine is started. *)
Definition newRotatingCrypto (client : bool) (pass salt : bytes) (bytesThreshold timeThreshold : Z)
  (delegToProxy : bool) (now : Z) : rotatingCrypto * bool :=
  (installKey (RC client salt [] 0 timeThreshold 0 bytesThreshold false false None None false delegToProxy)
     pass true now,
   client && (0 <? timeThreshold)).

(** ** One end *)

(** The active index names a key. *)
Definition rc_wf (r : rotatingCrypto) : Prop := (rc_activeIdx r < length (rc_gcmList r))%nat.

Definition activeKey (r : rotatingCrypto) : option key := rc_gcmList r !! rc_activeIdx r.

(** What counting bytes does not touch. *)
Definition same_keys (r r' : rotatingCrypto) : Prop :=
  rc_gcmList r' = rc_gcmList r /\ rc_activeIdx r' = rc_activeIdx r /\ rc_keySalt r' = rc_keySalt r /\
  rc_clientPriKey r' = rc_clientPriKey r /\ rc_rekeyInFlight r' = rc_rekeyInFlight r /\
  rc_delegatedToProxy r' = rc_delegatedToProxy r.

Lemma consumeBytes_same r n : same_keys r (fst (consumeBytes r n)).
Proof. destruct r. unfold consumeBytes, same_keys. repeat case_match; naive_solver. Qed.

Lemma Seal_spec r dst nonce p k :
  rc_delegatedToProxy r = false -> activeKey r = Some k ->
  exists r', Seal r dst nonce p = Some (r', dst ++ gcm_Seal k nonce p) /\ same_keys r r'.
Proof.
  intros Hd Hk. unfold Seal. rewrite Hd. unfold activeKey in Hk. rewrite Hk.
  destruct (consumeBytes r _) as [r' b] eqn:E. exists r'. split; [done|].
  pose proof (consumeBytes_same r (Z.of_nat (length p))) as Hs. by rewrite E in Hs.
Qed.

End Code.

Section Ends.
Context `{CryptoOk}.

(** Everything but the keys and the byte counters. *)
Definition same_rest (r r' : rotatingCrypto) : Prop :=
  rc_keySalt r' = rc_keySalt r /\ rc_clientPriKey r' = rc_clientPriKey r /\
  rc_rekeyInFlight r' = rc_rekeyInFlight r /\ rc_delegatedToProxy r' = rc_delegatedToProxy r.

Lemma Open_loop_spec r j gl nonce k p :
  (k ∈ gl ->
    exists pre post, gl = pre ++ k :: post /\ (k ∉ pre) /\
      Open_loop r j gl nonce (gcm_Seal k nonce p) =
      (if (0 <? j + length pre)%nat then promoteKey r (j + length pre)
       else fst (consumeBytes r (Z.of_nat (length p))), Ok p)) /\
  (k ∉ gl -> Open_loop r j gl nonce (gcm_Seal k nonce p) = (r, Err (Plain "gcm open failed"))).
Proof.
  revert j. induction gl as [|g gl IH]; intros j; [split; [intros []%not_elem_of_nil|done]|].
  cbn [Open_loop]. destruct (decide (g = k)) as [->|Hne].
  - rewrite gcm_open_seal. split; [|set_solver]. intros _. exists [], gl.
    simpl. rewrite Nat.add_0_r. split_and!; [done|set_solver|done].
  - rewrite gcm_open_other by done. destruct (IH (S j)) as [IHin IHout]. split; [|set_solver].
    intros Hin. destruct IHin as (pre & post & -> & Hpre & ->); [set_solver|].
    exists (g :: pre), post. simpl. rewrite Nat.add_succ_r. split_and!; [done|set_solver|done].
Qed.

Lemma openPacket_sealed r k nonce p :
  rc_delegatedToProxy r = false -> length nonce = gcm_nonceSize ->
  openPacket r (nonce ++ gcm_Seal k nonce p) =
    match Open_loop r 0 (rc_gcmList r) nonce (gcm_Seal k nonce p) with
    | (r, Err e) => (r, Err e)
    | (r, Ok plaintext) => (r, Ok (nonce ++ plaintext))
    end.
Proof.
  intros Hd Hn. unfold openPacket, Open. rewrite length_app, gcm_length, Hn, Hd.
  replace (gcm_nonceSize + (length p + gcm_overhead) <? gcm_nonceSize + gcm_overhead)%nat with false
    by (symmetry; apply Nat.ltb_ge; lia).
  rewrite <- Hn, take_app_length, drop_app_length. done.
Qed.

Lemma first_split_unique (k : key) pre pre' post post' :
  pre ++ k :: post = pre' ++ k :: post' -> (k ∉ pre) -> (k ∉ pre') -> pre = pre' /\ post = post'.
Proof.
  revert pre'. induction pre as [|x pre IH]; intros [|y pre'] Heq Hp Hp'; simplify_eq/=.
  - done.
  - by destruct Hp'; constructor.
  - by destruct Hp; constructor.
  - destruct (IH pre') as [-> ->]; [done| |..|done];
      intros Hin; [apply Hp | apply Hp']; by constructor.
Qed.

Lemma promoteKey_spec r i :
  (i < length (rc_gcmList r))%nat ->
  rc_gcmList (promoteKey r i) = drop i (rc_gcmList r) /\ rc_activeIdx (promoteKey r i) = 0%nat /\
  same_rest r (promoteKey r i).
Proof.
  intros Hi. destruct r. unfold promoteKey, same_rest. simpl in *.
  destruct (Nat.leb_spec (length rc_gcmList0) i); [lia|]. naive_solver.
Qed.

(** Opening a packet sealed with a known key: the older keys go. *)
Lemma openPacket_known r k nonce p pre post :
  rc_delegatedToProxy r = false -> length nonce = gcm_nonceSize ->
  rc_gcmList r = pre ++ k :: post -> (k ∉ pre) ->
  exists r', openPacket r (nonce ++ gcm_Seal k nonce p) = (r', Ok (nonce ++ p)) /\ rc_gcmList r' = k :: post /\ same_rest r r' /\
    rc_activeIdx r' = (if (0 <? length pre)%nat then 0 else rc_activeIdx r)%nat.
Proof.
  intros Hd Hn Hgl Hpre. rewrite openPacket_sealed by done.
  destruct (proj1 (Open_loop_spec r 0 (rc_gcmList r) nonce k p)) as (pre' & post' & Heq & Hpre' & ->);
    [rewrite Hgl; set_solver|]. simpl.
  rewrite Hgl in Heq. apply first_split_unique in Heq as [<- <-]; [|done..].
  destruct (Nat.ltb_spec 0 (length pre)).
  - destruct (promoteKey_spec r (length pre)) as (Hg & Ha & Hs); [rewrite Hgl, length_app; simpl; lia|].
    eexists _. split_and!; [done| |done|done]. rewrite Hg, Hgl. apply drop_app_length.
  - destruct pre; [|simpl in *; lia].
    destruct (consumeBytes_same r (Z.of_nat (length p))) as (Hg & Ha & Hsalt & Hpk & Hfl & Hde).
    eexists _. split_and!; [done| | |done]; [by rewrite Hg|done].
Qed.

(** A packet sealed with a key that is not held is refused. *)
Lemma openPacket_unknown r k nonce p :
  rc_delegatedToProxy r = false -> length nonce = gcm_nonceSize -> (k ∉ rc_gcmList r) ->
  exists e, openPacket r (nonce ++ gcm_Seal k nonce p) = (r, Err e).
Proof.
  intros Hd Hn Hk. rewrite openPacket_sealed by done.
  rewrite (proj2 (Open_loop_spec r 0 (rc_gcmList r) nonce k p)) by done. eauto.
Qed.

Lemma sealPacket_spec r buf k :
  rc_delegatedToProxy r = false -> activeKey r = Some k -> (gcm_nonceSize <= length buf)%nat ->
  exists r' nonce p, buf = nonce ++ p /\ length nonce = gcm_nonceSize /\
    sealPacket r buf = Some (r', Ok (nonce ++ gcm_Seal k nonce p)) /\ same_keys r r'.
Proof.
  intros Hd Hk Hlen. unfold sealPacket. destruct (Nat.ltb_spec (length buf) gcm_nonceSize); [lia|].
  destruct (Seal_spec r (take gcm_nonceSize buf) (take gcm_nonceSize buf) (drop gcm_nonceSize buf) k Hd Hk)
    as (r' & -> & Hs).
  exists r', (take gcm_nonceSize buf), (drop gcm_nonceSize buf).
  rewrite take_drop, length_take_le by done. done.
Qed.

(** A packet sealed by one end is opened by an end that holds the sealing
    key, with the same nonce and plaintext; the opening end forgets exactly
    the keys older than that one. *)
Theorem packet_roundtrip r1 r2 buf k pre post :
  rc_delegatedToProxy r1 = false -> rc_delegatedToProxy r2 = false ->
  activeKey r1 = Some k -> rc_gcmList r2 = pre ++ k :: post -> (k ∉ pre) ->
  (gcm_nonceSize <= length buf)%nat ->
  exists r1' r2' wire, sealPacket r1 buf = Some (r1', Ok wire) /\
    openPacket r2 wire = (r2', Ok buf) /\ rc_gcmList r2' = k :: post.
Proof.
  intros Hd1 Hd2 Hk Hgl Hpre Hlen.
  destruct (sealPacket_spec r1 buf k Hd1 Hk Hlen) as (r1' & nonce & p & -> & Hn & Hs & _).
  destruct (openPacket_known r2 k nonce p pre post Hd2 Hn Hgl Hpre) as (r2' & Ho & Hg & _).
  by exists r1', r2', (nonce ++ gcm_Seal k nonce p).
Qed.

End Ends.

(** ** Two ends and a network

    The bus messages of a key exchange travel on the connection itself, as
    packets sealed by the traffic keys.  The stream layer (KCP and smux,
    third-party) delivers a message once, when a packet that carries it is
    opened; a packet can carry only a message written before it was sealed.
    The network keeps every packet ever sent, so each may arrive any number
    of times, in any order, or never.  [pk_key] and [ln_keys] are history:
    the key a packet was sealed with, and all traffic keys, newest first. *)

Section Link.
Context `{CryptoOk}.

Record packet := Packet { pk_wire : bytes; pk_carries : option (nat * bytes); pk_key : key }.

Record link := Link {
  ln_c : rotatingCrypto;                (* the client's end *)
  ln_s : rotatingCrypto;                (* the server's end *)
  ln_n : nat;                           (* number of exchanges started *)
  ln_req : option (nat * bytes);        (* rekey message to the server, not delivered *)
  ln_resp : option (nat * bytes);       (* rekey message to the client, not delivered *)
  ln_keys : list key;
  ln_cs : list packet;                  (* packets sent by the client *)
  ln_sc : list packet                   (* packets sent by the server *)
}.

Inductive rk_step : link -> link -> Prop :=
| step_start c s n req resp ks cs sc now c1 p c2 pb :
    startRekey c now = (c1, true) -> doRekey c1 (Some p) true = (c2, Some pb) ->
    rk_step (Link c s n req resp ks cs sc) (Link c2 s (S n) (Some (S n, pb)) resp ks cs sc)
| step_start_fail c s n req resp ks cs sc now c1 gen ok c2 :
    startRekey c now = (c1, true) -> doRekey c1 gen ok = (c2, None) ->
    rk_step (Link c s n req resp ks cs sc) (Link c2 s n req resp ks cs sc)
| step_client_seal c s n req resp ks cs sc buf c1 wire k m :
    sealPacket c buf = Some (c1, Ok wire) -> activeKey c = Some k -> m = None \/ m = req ->
    rk_step (Link c s n req resp ks cs sc) (Link c1 s n req resp ks (Packet wire m k :: cs) sc)
| step_server_seal c s n req resp ks cs sc buf s1 wire k m :
    sealPacket s buf = Some (s1, Ok wire) -> activeKey s = Some k -> m = None \/ m = resp ->
    rk_step (Link c s n req resp ks cs sc) (Link c s1 n req resp ks cs (Packet wire m k :: sc))
| step_server_recv c s n req resp ks cs sc pk s1 out :
    pk ∈ cs -> openPacket s (pk_wire pk) = (s1, out) ->
    rk_step (Link c s n req resp ks cs sc) (Link c s1 n req resp ks cs sc)
| step_server_rekey c s n m resp ks cs sc pk s1 buf gen now s2 pb k :
    pk ∈ cs -> openPacket s (pk_wire pk) = (s1, Ok buf) -> pk_carries pk = Some m ->
    handleServerRekey s1 gen (snd m) now = (s2, Ok pb) ->
    last (rc_gcmList s2) = Some k -> (k ∉ ks) ->
    rk_step (Link c s n (Some m) resp ks cs sc) (Link c s2 n None (Some (fst m, pb)) (k :: ks) cs sc)
| step_server_rekey_fail c s n m resp ks cs sc pk s1 buf gen now s2 e :
    pk ∈ cs -> openPacket s (pk_wire pk) = (s1, Ok buf) -> pk_carries pk = Some m ->
    handleServerRekey s1 gen (snd m) now = (s2, Err e) ->
    rk_step (Link c s n (Some m) resp ks cs sc) (Link c s2 n None resp ks cs sc)
| step_client_recv c s n req resp ks cs sc pk c1 out :
    pk ∈ sc -> openPacket c (pk_wire pk) = (c1, out) ->
    rk_step (Link c s n req resp ks cs sc) (Link c1 s n req resp ks cs sc)
| step_client_rekey c s n req m ks cs sc pk c1 buf now c2 err :
    pk ∈ sc -> openPacket c (pk_wire pk) = (c1, Ok buf) -> pk_carries pk = Some m ->
    handleClientRekey c1 (snd m) now = (c2, err) ->
    rk_step (Link c s n req (Some m) ks cs sc) (Link c2 s n req None ks cs sc).

(** Both ends start with the key of the server's pass and salt; the server's
    thresholds are 0 and it never starts an exchange. *)
Definition rk_init (pass salt : bytes) (bytesThreshold timeThreshold now : Z) : link :=
  Link (fst (newRotatingCrypto true pass salt bytesThreshold timeThreshold false now))
       (fst (newRotatingCrypto false pass salt 0 0 false now))
       0 None None [derive pass salt] [] [].

Definition rk_reachable (pass salt : bytes) (bt th now : Z) : link -> Prop :=
  rtc rk_step (rk_init pass salt bt th now).

(** *** The invariant *)

(** The client's keys: the newest it knows is last and active. *)
Definition client_keys (c : rotatingCrypto) (k : key) (older : list key) : Prop :=
  (rc_gcmList c = [k] /\ rc_activeIdx c = 0%nat) \/
  (exists k' rest, older = k' :: rest /\ rc_gcmList c = [k'; k] /\ rc_activeIdx c = 1%nat).

(** The server holds the client's active key: it has promoted it, or it still
    uses the previous one, which the client still holds. *)
Definition server_settled (c s : rotatingCrypto) (sc : list packet) (k : key) (older : list key) : Prop :=
  (rc_gcmList s = [k]) \/
  (exists k' rest, older = k' :: rest /\ rc_gcmList s = [k'; k] /\ rc_gcmList c = [k'; k] /\
     Forall (fun pk => pk_key pk <> k) sc).

Definition carries_at_most (n : nat) (pks : list packet) : Prop :=
  Forall (fun pk => forall i b, pk_carries pk = Some (i, b) -> (i <= n)%nat) pks.

Definition carrier_keys (m : nat * bytes) (k : key) (pks : list packet) : Prop :=
  Forall (fun pk => pk_carries pk = Some m -> pk_key pk = k) pks.

Definition authentic (ks : list key) (pk : packet) : Prop :=
  (pk_key pk ∈ ks) /\
  exists nonce p, length nonce = gcm_nonceSize /\ pk_wire pk = nonce ++ gcm_Seal (pk_key pk) nonce p.

Record rk_common (l : link) : Prop := {
  rk_salt : rc_keySalt (ln_s l) = rc_keySalt (ln_c l);
  rk_cdirect : rc_delegatedToProxy (ln_c l) = false;
  rk_sdirect : rc_delegatedToProxy (ln_s l) = false;
  rk_idle : rc_activeIdx (ln_s l) = 0%nat;
  rk_nodup : NoDup (ln_keys l);
  rk_auth_cs : Forall (authentic (ln_keys l)) (ln_cs l);
  rk_auth_sc : Forall (authentic (ln_keys l)) (ln_sc l);
  rk_num_cs : carries_at_most (ln_n l) (ln_cs l);
  rk_num_sc : carries_at_most (ln_n l) (ln_sc l)
}.

(** No response is under way.  A request under way has the number of the
    exchange, is carried only by packets sealed with the active key, and the
    client still has the private key it was made from. *)
Definition rk_settled (l : link) : Prop :=
  exists k older, ln_keys l = k :: older /\ ln_resp l = None /\
    client_keys (ln_c l) k older /\ server_settled (ln_c l) (ln_s l) (ln_sc l) k older /\
    forall m, ln_req l = Some m ->
      fst m = ln_n l /\ rc_rekeyInFlight (ln_c l) = true /\
      carrier_keys m k (ln_cs l) /\
      Forall (fun pk => forall i b, pk_carries pk = Some (i, b) -> (i < ln_n l)%nat) (ln_sc l) /\
      exists p, rc_clientPriKey (ln_c l) = Some p /\ snd m = pub_Bytes (PublicKey p).

(** The server has installed a new key and the response is under way. *)
Definition rk_responding (l : link) : Prop :=
  exists k2 k older m p pb secret, ln_keys l = k2 :: k :: older /\ ln_req l = None /\ ln_resp l = Some m /\
    fst m = ln_n l /\ client_keys (ln_c l) k older /\ rc_gcmList (ln_s l) = [k; k2] /\
    rc_rekeyInFlight (ln_c l) = true /\ carrier_keys m k (ln_sc l) /\
    Forall (fun pk => pk_key pk <> k2) (ln_cs l) /\ Forall (fun pk => pk_key pk <> k2) (ln_sc l) /\
    rc_clientPriKey (ln_c l) = Some p /\ snd m = pub_Bytes pb /\
    ECDH p pb = Some secret /\ k2 = derive secret (rc_keySalt (ln_c l)).

Definition rk_inv (l : link) : Prop := rk_common l /\ (rk_settled l \/ rk_responding l).

Lemma open_effect ks r pk r' out :
  authentic ks pk -> rc_delegatedToProxy r = false -> openPacket r (pk_wire pk) = (r', out) ->
  same_rest r r' /\
  ((rc_gcmList r' = rc_gcmList r /\ rc_activeIdx r' = rc_activeIdx r /\
    (forall buf, out = Ok buf -> head (rc_gcmList r) = Some (pk_key pk))) \/
   (exists x pre post, rc_gcmList r = (x :: pre) ++ pk_key pk :: post /\
      rc_gcmList r' = pk_key pk :: post /\ rc_activeIdx r' = 0%nat)).
Proof.
  intros (_ & nonce & p & Hn & ->) Hd Ho. destruct (decide (pk_key pk ∈ rc_gcmList r)) as [Hin|Hout].
  - destruct (proj1 (Open_loop_spec r 0 (rc_gcmList r) nonce (pk_key pk) p) Hin) as (pre & post & Hgl & Hpre & _).
    destruct (openPacket_known r (pk_key pk) nonce p pre post Hd Hn Hgl Hpre) as (r2 & Ho2 & Hg & Hs & Ha).
    rewrite Ho2 in Ho. simplify_eq. split; [done|]. destruct pre as [|x pre].
    + left. rewrite Hgl, Hg. naive_solver.
    + right. exists x, pre, post. naive_solver.
  - destruct (openPacket_unknown r (pk_key pk) nonce p Hd Hn Hout) as [e He].
    rewrite He in Ho. simplify_eq. split; [done|]. left. naive_solver.
Qed.

Lemma authentic_cons k ks pk : authentic ks pk -> authentic (k :: ks) pk.
Proof. intros [Hin ?]. split; [by constructor|done]. Qed.

Lemma authentic_fresh k ks pks :
  (k ∉ ks) -> Forall (authentic ks) pks -> Forall (fun pk => pk_key pk <> k) pks.
Proof. intros Hk Hall. eapply Forall_impl; [done|]. intros pk [Hin _] <-. done. Qed.

(** Sealing adds an authentic packet and changes nothing the invariant sees. *)
Lemma seal_effect r buf r' wire k m ks :
  rc_delegatedToProxy r = false -> activeKey r = Some k -> (k ∈ ks) ->
  sealPacket r buf = Some (r', Ok wire) ->
  same_keys r r' /\ authentic ks (Packet wire m k).
Proof.
  intros Hd Hk Hin Hs. assert (gcm_nonceSize <= length buf)%nat as Hlen.
  { unfold sealPacket in Hs. destruct (Nat.ltb_spec (length buf) gcm_nonceSize); [simplify_eq|lia]. }
  destruct (sealPacket_spec r buf k Hd Hk Hlen) as (r2 & nonce & p & -> & Hn & Hs2 & Hsame).
  rewrite Hs2 in Hs. simplify_eq. split; [done|]. split; [done|]. by eexists _, _.
Qed.

Lemma client_active c k older : client_keys c k older -> activeKey c = Some k.
Proof. unfold activeKey. intros [[-> ->]|(k' & rest & _ & -> & ->)]; done. Qed.

Lemma client_keys_same c c' k older : same_keys c c' -> client_keys c k older -> client_keys c' k older.
Proof. intros (Hg & Ha & _). unfold client_keys. by rewrite Hg, Ha. Qed.

(** The client's keys after a packet: unchanged, or only the newest is left. *)
Lemma client_open ks c pk c' out k older :
  client_keys c k older -> NoDup (k :: older) -> authentic ks pk -> rc_delegatedToProxy c = false ->
  openPacket c (pk_wire pk) = (c', out) ->
  client_keys c' k older /\ same_rest c c' /\
  (rc_gcmList c' = rc_gcmList c \/ (pk_key pk = k /\ rc_gcmList c' = [k])) /\
  (forall buf, out = Ok buf -> pk_key pk = k -> rc_gcmList c' = [k]).
Proof.
  intros Hck Hnd Hau Hd Ho. destruct (open_effect ks c pk c' out Hau Hd Ho) as [Hrest Heff].
  destruct Heff as [(Hg & Ha & Hhd)|(x & pre & post & Hg & Hg' & Ha)].
  - split_and!; [unfold client_keys; by rewrite Hg, Ha|done|by left|].
    intros buf Hok Hk. specialize (Hhd buf Hok). rewrite Hg.
    destruct Hck as [[-> _]|(k' & rest & -> & Hgl & _)]; [done|].
    rewrite Hgl in Hhd. simpl in Hhd. simplify_eq. apply NoDup_cons in Hnd as [Hnd _].
    destruct Hnd. by constructor.
  - destruct Hck as [[Hgl _]|(k' & rest & -> & Hgl & _)]; rewrite Hgl in Hg.
    + destruct pre; simplify_eq/=.
    + destruct pre as [|y pre]; simplify_eq/=; [|by destruct pre].
      rewrite Hg' in *. split_and!; [by left|done|by right|done].
Qed.

Lemma server_open_settled ks c s pk s' out k older sc :
  server_settled c s sc k older -> NoDup (k :: older) -> authentic ks pk ->
  rc_delegatedToProxy s = false -> openPacket s (pk_wire pk) = (s', out) ->
  server_settled c s' sc k older /\ same_rest s s' /\
  (rc_activeIdx s = 0%nat -> rc_activeIdx s' = 0%nat) /\
  (forall buf, out = Ok buf -> pk_key pk = k -> rc_gcmList s' = [k]).
Proof.
  intros Hss Hnd Hau Hd Ho. destruct (open_effect ks s pk s' out Hau Hd Ho) as [Hrest Heff].
  destruct Heff as [(Hg & Ha & Hhd)|(x & pre & post & Hg & Hg' & Ha)].
  - split_and!; [unfold server_settled; by rewrite Hg|done|congruence|].
    intros buf Hok Hk. specialize (Hhd buf Hok). rewrite Hg.
    destruct Hss as [->|(k' & rest & -> & Hgl & _)]; [done|].
    rewrite Hgl in Hhd. simpl in Hhd. simplify_eq. apply NoDup_cons in Hnd as [Hnd _].
    destruct Hnd. by constructor.
  - destruct Hss as [Hgl|(k' & rest & -> & Hgl & _)]; rewrite Hgl in Hg.
    + destruct pre; simplify_eq/=.
    + destruct pre as [|y pre]; simplify_eq/=; [|by destruct pre].
      rewrite Hg' in *. split_and!; [by left|done..].
Qed.

Lemma startRekey_spec c now c1 :
  startRekey c now = (c1, true) ->
  rc_rekeyInFlight c = false /\ rc_rekeyInFlight c1 = true /\ rc_gcmList c1 = rc_gcmList c /\
  rc_activeIdx c1 = rc_activeIdx c /\ rc_keySalt c1 = rc_keySalt c /\
  rc_delegatedToProxy c1 = rc_delegatedToProxy c.
Proof. destruct c. unfold startRekey. repeat case_match; intros; simplify_eq; done. Qed.

Lemma doRekey_spec c gen ok c2 out :
  doRekey c gen ok = (c2, out) ->
  rc_gcmList c2 = rc_gcmList c /\ rc_activeIdx c2 = rc_activeIdx c /\ rc_keySalt c2 = rc_keySalt c /\
  rc_delegatedToProxy c2 = rc_delegatedToProxy c /\
  (forall pb, out = Some pb -> rc_rekeyInFlight c2 = rc_rekeyInFlight c /\
     exists p, rc_clientPriKey c2 = Some p /\ pb = pub_Bytes (PublicKey p)).
Proof.
  destruct c. unfold doRekey. repeat case_match; intros; simplify_eq; split_and!; try done.
  intros pb [= <-]. eauto.
Qed.

Lemma rk_common_client c c' s n req req' resp ks cs sc :
  rc_keySalt c' = rc_keySalt c -> rc_delegatedToProxy c' = rc_delegatedToProxy c ->
  rk_common (Link c s n req resp ks cs sc) -> rk_common (Link c' s n req' resp ks cs sc).
Proof. intros Hs Hd []. constructor; simpl in *; congruence || done. Qed.

Lemma carries_lt n pks :
  carries_at_most n pks ->
  Forall (fun pk => forall i b, pk_carries pk = Some (i, b) -> (i < S n)%nat) pks.
Proof. intros Hn. eapply Forall_impl; [done|]. intros pk Hi i b Hc. specialize (Hi i b Hc). lia. Qed.

Lemma carries_fresh n b k pks : carries_at_most n pks -> carrier_keys (S n, b) k pks.
Proof.
  intros Hn. eapply Forall_impl; [done|]. intros pk Hi Hc. specialize (Hi _ _ Hc). lia.
Qed.

Lemma client_keys_eq c c' k older :
  rc_gcmList c' = rc_gcmList c -> rc_activeIdx c' = rc_activeIdx c ->
  client_keys c k older -> client_keys c' k older.
Proof. intros Hg Ha. unfold client_keys. by rewrite Hg, Ha. Qed.

Lemma server_settled_eq c c' s s' sc k older :
  rc_gcmList c' = rc_gcmList c -> rc_gcmList s' = rc_gcmList s ->
  server_settled c s sc k older -> server_settled c' s' sc k older.
Proof. intros Hc Hs. unfold server_settled. by rewrite Hc, Hs. Qed.

Lemma inv_start c s n req resp ks cs sc now c1 gen ok c2 out :
  rk_inv (Link c s n req resp ks cs sc) ->
  startRekey c now = (c1, true) -> doRekey c1 gen ok = (c2, out) ->
  rk_inv (match out with
          | Some pb => Link c2 s (S n) (Some (S n, pb)) resp ks cs sc
          | None => Link c2 s n req resp ks cs sc
          end).
Proof.
  intros [Hcom Hph] Hst Hdo.
  apply startRekey_spec in Hst as (Hfl & Hfl1 & Hg1 & Ha1 & Hs1 & Hd1).
  apply doRekey_spec in Hdo as (Hg2 & Ha2 & Hs2 & Hd2 & Hout).
  destruct Hph as [(k & older & Hk & Hr & Hck & Hss & Hreq)|(k2 & k & older & m & p & pb & sec & Hresp)].
  2:{ destruct Hresp as (_ & _ & _ & _ & _ & _ & Hf & _). simpl in Hf. congruence. }
  simpl in *. destruct req as [m|]; [destruct (Hreq m eq_refl) as (_ & Hf & _); congruence|].
  assert (Hck2 : client_keys c2 k older) by (eapply client_keys_eq; [..|done]; congruence).
  assert (Hss2 : server_settled c2 s sc k older) by (eapply server_settled_eq; [..|done]; congruence).
  destruct out as [pb|].
  - destruct (Hout pb eq_refl) as (Hf2 & p & Hp & ->). split.
    + destruct Hcom. constructor; simpl in *; try congruence; try done;
        (eapply Forall_impl; [done|]; intros pk Hi i b Hc; specialize (Hi i b Hc); lia).
    + left. exists k, older. simpl. split_and!; [done..|]. intros m [= <-]. simpl.
      destruct Hcom. split_and!; [done|congruence|by apply carries_fresh|by apply carries_lt|eauto].
  - split; [by eapply (rk_common_client c); [congruence..|]|].
    left. exists k, older. simpl. by split_and!.
Qed.

Lemma inv_client_seal c s n req resp ks cs sc buf c1 wire k m :
  rk_inv (Link c s n req resp ks cs sc) ->
  sealPacket c buf = Some (c1, Ok wire) -> activeKey c = Some k -> m = None \/ m = req ->
  rk_inv (Link c1 s n req resp ks (Packet wire m k :: cs) sc).
Proof.
  intros [Hcom Hph] Hseal Hact Hm. pose proof Hcom as []. simpl in *.
  assert (Hin : k ∈ ks).
  { destruct Hph as [(k0 & older & Hk & _ & Hck & _)|(k2 & k0 & older & ? & ? & ? & ? & Hk & _ & _ & _ & Hck & _)];
      simpl in *; subst ks; apply client_active in Hck; rewrite Hck in Hact; simplify_eq; set_solver. }
  destruct (seal_effect c buf c1 wire k m ks rk_cdirect0 Hact Hin Hseal)
    as [(Hg & Ha & Hsa & Hpk & Hfl & Hde) Hau].
  assert (Hnum : forall i b, m = Some (i, b) -> (i <= n)%nat).
  { intros i b ->. destruct Hm as [|<-]; [done|].
    destruct Hph as [(k0 & older & _ & _ & _ & _ & Hreq)|(k2 & k0 & older & ? & ? & ? & ? & _ & Hr & _)];
      [|done]. destruct (Hreq _ eq_refl) as [Hi _]. simpl in Hi. lia. }
  split.
  - constructor; simpl; try congruence; try done; by constructor.
  - destruct Hph as [(k0 & older & Hk & Hr & Hck & Hss & Hreq)
      |(k2 & k0 & older & m0 & p & pb & sec & Hk & Hrq & Hrp & Hmn & Hck & Hsg & Hf & Hcar & Hcs & Hsc & Hpr & Hpb & Hec & Hd)];
      simpl in *; pose proof (client_active _ _ _ Hck) as Hact'; rewrite Hact in Hact'; simplify_eq.
    + left. exists k0, older. simpl. split_and!; [done..| | |].
      * by eapply client_keys_eq.
      * by eapply server_settled_eq.
      * intros m' Hm'. destruct (Hreq m' Hm') as (? & ? & ? & ? & p & ? & ?). split_and!; [done|congruence| |done|].
        -- by constructor.
        -- exists p. split; [congruence|done].
    + right. exists (derive sec (rc_keySalt c)), k0, older, m0, p, pb, sec. simpl. rewrite Hsa. split_and!; try done; try congruence.
      * by eapply client_keys_eq.
      * constructor; [|done]. simpl. intros ->. apply NoDup_cons in rk_nodup0 as [Hn _]. set_solver.
Qed.

Lemma server_active c s sc k older :
  server_settled c s sc k older -> rc_activeIdx s = 0%nat ->
  exists ka, activeKey s = Some ka /\ (ka ∈ k :: older) /\ (ka ∈ rc_gcmList c \/ ka = k) /\
    (ka = k -> NoDup (k :: older) -> rc_gcmList s = [k]).
Proof.
  unfold activeKey. intros [Hg|(k' & rest & -> & Hg & Hc & _)] ->; rewrite Hg; simpl.
  - exists k. split_and!; [done|set_solver|by right|done].
  - exists k'. rewrite Hc. split_and!; [done|set_solver|left; set_solver|].
    intros ->. intros [Hn _]%NoDup_cons. set_solver.
Qed.

Lemma inv_server_seal c s n req resp ks cs sc buf s1 wire k m :
  rk_inv (Link c s n req resp ks cs sc) ->
  sealPacket s buf = Some (s1, Ok wire) -> activeKey s = Some k -> m = None \/ m = resp ->
  rk_inv (Link c s1 n req resp ks cs (Packet wire m k :: sc)).
Proof.
  intros [Hcom Hph] Hseal Hact Hm. pose proof Hcom as []. simpl in *.
  assert (Hcar : forall i b, m = Some (i, b) -> resp = Some (i, b)) by naive_solver.
  destruct Hph as [(k0 & older & Hk & Hr & Hck & Hss & Hreq)
    |(k2 & k0 & older & m0 & p & pb & sec & Hk & Hrq & Hrp & Hmn & Hck & Hsg & Hf & Hcarr & Hcs & Hsc & Hpr & Hpb & Hec & Hd)];
    simpl in *; subst ks.
  - destruct (server_active _ _ _ _ _ Hss rk_idle0) as (ka & Hka & Hin & _ & Hprom).
    rewrite Hact in Hka. simplify_eq.
    destruct (seal_effect s buf s1 wire ka m _ rk_sdirect0 Hact Hin Hseal)
      as [(Hg & Ha & Hsa & Hpk & Hfl & Hde) Hau].
    assert (Hnone : forall i b, m <> Some (i, b)) by (intros i b Hi; specialize (Hcar i b Hi); done).
    split; [constructor; simpl; try congruence; try done; constructor; try done; naive_solver|].
    left. exists k0, older. simpl. split_and!; [done..| |].
    + destruct Hss as [Hg0|(k' & rest & -> & Hg0 & Hc0 & Hall)]; [left; congruence|].
      destruct (decide (ka = k0)) as [->|Hne]; [left; rewrite Hg; auto|].
      right. exists k', rest. split_and!; [done|congruence|done|]. by constructor.
    + intros m' Hm'. destruct (Hreq m' Hm') as (? & ? & ? & ? & ?). split_and!; [done..| |done].
      constructor; [|done]. simpl. naive_solver.
  - assert (k = k0) as ->.
    { unfold activeKey in Hact. rewrite rk_idle0, Hsg in Hact. by simplify_eq/=. }
    destruct (seal_effect s buf s1 wire k0 m (k2 :: k0 :: older) rk_sdirect0 Hact) as [(Hg & Ha & Hsa & Hpk & Hfl & Hde) Hau];
      [set_solver|done|].
    split.
    + constructor; simpl; try congruence; try done; constructor; try done. simpl.
      intros i b Hi. specialize (Hcar i b Hi). rewrite Hrp in Hcar. simplify_eq/=. lia.
    + right. exists k2, k0, older, m0, p, pb, sec. simpl. split_and!; try done; try congruence.
      * by constructor.
      * constructor; [|done]. simpl. intros ->. apply NoDup_cons in rk_nodup0 as [Hn _]. set_solver.
Qed.

Lemma inv_server_recv c s n req resp ks cs sc pk s1 out :
  rk_inv (Link c s n req resp ks cs sc) ->
  pk ∈ cs -> openPacket s (pk_wire pk) = (s1, out) ->
  rk_inv (Link c s1 n req resp ks cs sc) /\
  (forall buf k older, out = Ok buf -> resp = None -> ks = k :: older -> pk_key pk = k -> rc_gcmList s1 = [k]).
Proof.
  intros [Hcom Hph] Hpk Hopen. pose proof Hcom as []. simpl in *.
  pose proof (proj1 (Forall_forall _ _) rk_auth_cs0 pk Hpk) as Hau.
  destruct Hph as [(k0 & older & Hk & Hr & Hck & Hss & Hreq)
    |(k2 & k0 & older & m0 & p & pb & sec & Hk & Hrq & Hrp & Hmn & Hck & Hsg & Hf & Hcarr & Hcs & Hsc & Hpr & Hpb & Hec & Hd)];
    simpl in *; subst ks.
  - destruct (server_open_settled _ _ _ _ _ _ _ _ _ Hss rk_nodup0 Hau rk_sdirect0 Hopen)
      as (Hss1 & (Hsa & Hpk1 & Hfl & Hde) & Ha1 & Hprom).
    split; [|naive_solver]. split; [constructor; simpl; try congruence; try done; auto|].
    left. exists k0, older. simpl. by split_and!.
  - destruct (open_effect _ s pk s1 out Hau rk_sdirect0 Hopen) as [(Hsa & Hpk1 & Hfl & Hde) Heff].
    split; [|naive_solver].
    assert (rc_gcmList s1 = [k0; k2] /\ rc_activeIdx s1 = 0%nat) as [Hg1 Ha1].
    { destruct Heff as [(Hg & Ha & _)|(x & pre & post & Hg & _ & _)]; [split; congruence|].
      rewrite Hsg in Hg. pose proof (proj1 (Forall_forall _ _) Hcs pk Hpk) as Hne. simpl in Hne.
      destruct pre as [|y pre]; simplify_eq/=. by destruct pre. }
    split; [constructor; simpl; try congruence; done|].
    right. exists k2, k0, older, m0, p, pb, sec. simpl. split_and!; try done; congruence.
Qed.

Lemma inv_client_recv c s n req resp ks cs sc pk c1 out :
  rk_inv (Link c s n req resp ks cs sc) ->
  pk ∈ sc -> openPacket c (pk_wire pk) = (c1, out) ->
  rk_inv (Link c1 s n req resp ks cs sc).
Proof.
  intros [Hcom Hph] Hpk Hopen. pose proof Hcom as []. simpl in *.
  pose proof (proj1 (Forall_forall _ _) rk_auth_sc0 pk Hpk) as Hau.
  destruct Hph as [(k0 & older & Hk & Hr & Hck & Hss & Hreq)
    |(k2 & k0 & older & m0 & p & pb & sec & Hk & Hrq & Hrp & Hmn & Hck & Hsg & Hf & Hcarr & Hcs & Hsc & Hpr & Hpb & Hec & Hd)];
    simpl in *; subst ks.
  - destruct (client_open _ _ _ _ _ _ _ Hck rk_nodup0 Hau rk_cdirect0 Hopen)
      as (Hck1 & (Hsa & Hpk1 & Hfl & Hde) & Hkeys & _).
    split; [by eapply (rk_common_client c)|]. left. exists k0, older. simpl. split_and!; [done..| |].
    + destruct Hkeys as [Hg|[Hkk Hg]]; [by eapply server_settled_eq|].
      destruct Hss as [?|(k' & rest & -> & _ & _ & Hall)]; [by left|].
      pose proof (proj1 (Forall_forall _ _) Hall pk Hpk). done.
    + intros m Hm. destruct (Hreq m Hm) as (? & ? & ? & ? & p & ? & ?).
      split_and!; [done|congruence|done..|]. exists p. split; [congruence|done].
  - assert (Hnd : NoDup (k0 :: older)) by (by apply NoDup_cons in rk_nodup0 as [_ ?]).
    destruct (client_open _ _ _ _ _ _ _ Hck Hnd Hau rk_cdirect0 Hopen)
      as (Hck1 & (Hsa & Hpk1 & Hfl & Hde) & _ & _).
    split; [by eapply (rk_common_client c)|].
    right. exists k2, k0, older, m0, p, pb, sec. simpl. split_and!; try done; congruence.
Qed.

Lemma installKey_spec r secret active now :
  rc_gcmList (installKey r secret active now) = rc_gcmList r ++ [derive secret (rc_keySalt r)] /\
  rc_activeIdx (installKey r secret active now)
    = (if active then length (rc_gcmList r) else rc_activeIdx r) /\
  rc_keySalt (installKey r secret active now) = rc_keySalt r /\
  rc_clientPriKey (installKey r secret active now) = rc_clientPriKey r /\
  rc_delegatedToProxy (installKey r secret active now) = rc_delegatedToProxy r /\
  rc_rekeyInFlight (installKey r secret active now) = false.
Proof.
  destruct r. simpl. split_and!; try done. destruct active; [|done]. rewrite length_app. simpl. lia.
Qed.

(** A request opened by the server was sealed with the client's active key,
    so the server is left with that key alone. *)
Lemma server_request c s n m resp ks cs sc pk s1 buf :
  rk_inv (Link c s n (Some m) resp ks cs sc) ->
  pk ∈ cs -> openPacket s (pk_wire pk) = (s1, Ok buf) -> pk_carries pk = Some m ->
  rk_inv (Link c s1 n (Some m) resp ks cs sc) /\
  exists k older, ks = k :: older /\ rc_gcmList s1 = [k].
Proof.
  intros Hinv Hpk Hopen Hcar.
  destruct (inv_server_recv _ _ _ _ _ _ _ _ _ _ _ Hinv Hpk Hopen) as [Hinv1 Hprom]. split; [done|].
  destruct Hinv as [_ [(k & older & Hk & Hr & _ & _ & Hreq)|(? & ? & ? & ? & ? & ? & ? & _ & ? & _)]];
    simpl in *; [|done].
  destruct (Hreq m eq_refl) as (_ & _ & Hcarr & _).
  pose proof (proj1 (Forall_forall _ _) Hcarr pk Hpk Hcar). exists k, older. split; [done|]. eauto.
Qed.

Lemma inv_server_rekey c s n m resp ks cs sc pk s1 buf gen now s2 pb k :
  rk_inv (Link c s n (Some m) resp ks cs sc) ->
  pk ∈ cs -> openPacket s (pk_wire pk) = (s1, Ok buf) -> pk_carries pk = Some m ->
  handleServerRekey s1 gen (snd m) now = (s2, Ok pb) ->
  last (rc_gcmList s2) = Some k -> (k ∉ ks) ->
  rk_inv (Link c s2 n None (Some (fst m, pb)) (k :: ks) cs sc).
Proof.
  intros Hinv Hpk Hopen Hcar Hhan Hlast Hfresh.
  destruct (server_request _ _ _ _ _ _ _ _ _ _ _ Hinv Hpk Hopen Hcar)
    as [[Hcom Hph] (k0 & older & -> & Hg1)].
  destruct Hph as [(k0' & older' & Hk & Hr & Hck & _ & Hreq)|(? & ? & ? & ? & ? & ? & ? & _ & ? & _)];
    simpl in *; [|done]. simplify_eq.
  destruct (Hreq m eq_refl) as (Hmn & Hf & Hcarr & Hlt & p & Hp & Hpub).
  unfold handleServerRekey in Hhan. destruct gen as [sp|]; [|done].
  rewrite Hpub, NewPublicKey_Bytes in Hhan.
  destruct (ECDH sp (PublicKey p)) as [secret|] eqn:Hec; [|done]. simplify_eq.
  destruct (installKey_spec s1 secret false now) as (Hg2 & Ha2 & Hsa2 & _ & Hde2 & _).
  destruct Hcom. simpl in *.
  rewrite Hg2, last_app in Hlast. simpl in Hlast. simplify_eq.
  set (k2 := derive secret (rc_keySalt s1)) in *.
  split.
  - constructor; simpl; try congruence; try done.
    + by constructor.
    + eapply Forall_impl; [exact rk_auth_cs0|]. intros ?. apply authentic_cons.
    + eapply Forall_impl; [exact rk_auth_sc0|]. intros ?. apply authentic_cons.
  - right. exists k2, k0', older', (fst m, pub_Bytes (PublicKey sp)), p, (PublicKey sp), secret. simpl.
    split_and!; try done.
    + by rewrite Hg2, Hg1.
    + eapply Forall_impl; [exact Hlt|]. intros pk' Hi Hc. specialize (Hi _ _ Hc). lia.
    + by eapply authentic_fresh.
    + by eapply authentic_fresh.
    + by rewrite ECDH_agree.
    + unfold k2. congruence.
Qed.

Lemma inv_server_rekey_fail c s n m resp ks cs sc pk s1 buf gen now s2 e :
  rk_inv (Link c s n (Some m) resp ks cs sc) ->
  pk ∈ cs -> openPacket s (pk_wire pk) = (s1, Ok buf) -> pk_carries pk = Some m ->
  handleServerRekey s1 gen (snd m) now = (s2, Err e) ->
  rk_inv (Link c s2 n None resp ks cs sc).
Proof.
  intros Hinv Hpk Hopen Hcar Hhan.
  destruct (server_request _ _ _ _ _ _ _ _ _ _ _ Hinv Hpk Hopen Hcar) as [[Hcom Hph] _].
  assert (s2 = s1) as ->.
  { unfold handleServerRekey in Hhan. repeat case_match; by simplify_eq. }
  split; [destruct Hcom; by constructor|].
  destruct Hph as [(k & older & Hk & Hr & Hck & Hss & _)|(? & ? & ? & ? & ? & ? & ? & _ & ? & _)];
    simpl in *; [|done].
  left. exists k, older. simpl. by split_and!.
Qed.

Lemma inv_client_rekey c s n req m ks cs sc pk c1 buf now c2 err :
  rk_inv (Link c s n req (Some m) ks cs sc) ->
  pk ∈ sc -> openPacket c (pk_wire pk) = (c1, Ok buf) -> pk_carries pk = Some m ->
  handleClientRekey c1 (snd m) now = (c2, err) ->
  rk_inv (Link c2 s n req None ks cs sc).
Proof.
  intros [Hcom Hph] Hpk Hopen Hcar Hhan.
  destruct Hph as [(? & ? & _ & ? & _)
    |(k2 & k0 & older & m0 & p & pb & sec & Hk & Hrq & Hrp & Hmn & Hck & Hsg & Hf & Hcarr & Hcs & Hsc & Hpr & Hpb & Hec & Hd)];
    simpl in *; [done|]. subst ks req. simplify_eq. destruct Hcom. simpl in *.
  pose proof (proj1 (Forall_forall _ _) rk_auth_sc0 pk Hpk) as Hau.
  pose proof (proj1 (Forall_forall _ _) Hcarr pk Hpk Hcar) as Hkey.
  assert (Hnd : NoDup (k0 :: older)) by (by apply NoDup_cons in rk_nodup0 as [_ ?]).
  destruct (client_open _ _ _ _ _ _ _ Hck Hnd Hau rk_cdirect0 Hopen)
    as (_ & (Hsa & Hpk1 & Hfl & Hde) & _ & Hone).
  specialize (Hone buf eq_refl Hkey).
  unfold handleClientRekey in Hhan.
  rewrite Hpb, NewPublicKey_Bytes, Hpk1, Hpr, Hec in Hhan. simplify_eq.
  destruct (installKey_spec c1 sec true now) as (Hg2 & Ha2 & Hsa2 & _ & Hde2 & _).
  set (c3 := installKey c1 sec true now) in *.
  assert (rc_gcmList (set_priKey c3 None) = rc_gcmList c3 /\ rc_activeIdx (set_priKey c3 None) = rc_activeIdx c3
    /\ rc_keySalt (set_priKey c3 None) = rc_keySalt c3 /\
    rc_delegatedToProxy (set_priKey c3 None) = rc_delegatedToProxy c3) as (Hg3 & Ha3 & Hs3 & Hd3)
    by (by destruct c3).
  split; [constructor; simpl; try congruence; done|].
  left. exists (derive sec (rc_keySalt c)), (pk_key pk :: older). simpl. split_and!; [done..| | |done].
  - right. exists (pk_key pk), older. rewrite Hg3, Hg2, Ha3, Ha2, Hone, Hsa. done.
  - right. exists (pk_key pk), older. rewrite Hg3, Hg2, Hone, Hsa. by split_and!.
Qed.

Lemma inv_step l l' : rk_inv l -> rk_step l l' -> rk_inv l'.
Proof.
  intros Hinv Hstep. destruct Hstep.
  - by apply (inv_start _ _ _ _ _ _ _ _ _ _ _ _ _ _ Hinv H1 H2).
  - by apply (inv_start _ _ _ _ _ _ _ _ _ _ _ _ _ _ Hinv H1 H2).
  - by eapply inv_client_seal.
  - by eapply inv_server_seal.
  - by eapply inv_server_recv.
  - by eapply inv_server_rekey.
  - by eapply inv_server_rekey_fail.
  - by eapply inv_client_recv.
  - by eapply inv_client_rekey.
Qed.

Lemma inv_init pass salt bt th now : rk_inv (rk_init pass salt bt th now).
Proof.
  split.
  - constructor; simpl; try done; try by constructor. apply NoDup_singleton.
  - left. exists (derive pass salt), []. simpl. split_and!; try done; by left.
Qed.

Lemma inv_reachable pass salt bt th now l : rk_reachable pass salt bt th now l -> rk_inv l.
Proof.
  unfold rk_reachable. intros Hr. assert (Hi := inv_init pass salt bt th now).
  induction Hr; [done|]. eauto using inv_step.
Qed.

(** The keys of the two ends in any state of the invariant. *)
Lemma inv_keys l :
  rk_inv l ->
  (length (rc_gcmList (ln_c l)) <= 2)%nat /\ (length (rc_gcmList (ln_s l)) <= 2)%nat /\
  (exists kc, activeKey (ln_c l) = Some kc /\ (kc ∈ rc_gcmList (ln_s l))) /\
  (exists ka, activeKey (ln_s l) = Some ka /\ (ka ∈ rc_gcmList (ln_c l))).
Proof.
  intros [[] Hph]. assert (Hcl : forall k older, client_keys (ln_c l) k older ->
    (length (rc_gcmList (ln_c l)) <= 2)%nat /\ k ∈ rc_gcmList (ln_c l)).
  { intros k older [[-> _]|(k' & rest & _ & -> & _)]; split; simpl; try lia; set_solver. }
  destruct Hph as [(k & older & Hk & _ & Hck & Hss & _)
    |(k2 & k & older & m & p & pb & sec & Hk & _ & _ & _ & Hck & Hsg & _)].
  - destruct (Hcl _ _ Hck) as [Hlen Hin].
    destruct (server_active _ _ _ _ _ Hss rk_idle0) as (ka & Hka & _ & Hkc & _).
    split_and!; [done| | |].
    + destruct Hss as [->|(? & ? & _ & -> & _)]; simpl; lia.
    + exists k. split; [by eapply client_active|]. destruct Hss as [->|(? & ? & _ & -> & _)]; set_solver.
    + exists ka. split; [done|]. destruct Hkc as [?| ->]; done.
  - destruct (Hcl _ _ Hck) as [Hlen Hin]. rewrite Hsg. split_and!; [done|simpl; lia| |].
    + exists k. split; [by eapply client_active|set_solver].
    + exists k. split; [|done]. unfold activeKey. by rewrite rk_idle0, Hsg.
Qed.

Lemma first_occurrence (k : key) l : k ∈ l -> exists pre post, l = pre ++ k :: post /\ (k ∉ pre).
Proof.
  induction l as [|x l IH]; [set_solver|]. destruct (decide (x = k)) as [->|Hne].
  - exists [], l. set_solver.
  - intros Hin. destruct IH as (pre & post & -> & Hp); [set_solver|].
    exists (x :: pre), post. set_solver.
Qed.

(** C3: in every reachable state of a connection, whatever the network has
    lost, repeated or reordered, a packet sealed now by either end is opened
    by the other end with its nonce and plaintext intact, and neither end
    holds more than two traffic keys. *)
Theorem rekey_never_locks_out pass salt bt th now l buf :
  rk_reachable pass salt bt th now l -> (gcm_nonceSize <= length buf)%nat ->
  (exists c' s' wire, sealPacket (ln_c l) buf = Some (c', Ok wire) /\
     openPacket (ln_s l) wire = (s', Ok buf)) /\
  (exists s' c' wire, sealPacket (ln_s l) buf = Some (s', Ok wire) /\
     openPacket (ln_c l) wire = (c', Ok buf)) /\
  (length (rc_gcmList (ln_c l)) <= 2)%nat /\ (length (rc_gcmList (ln_s l)) <= 2)%nat.
Proof.
  intros Hr%inv_reachable Hlen.
  destruct (inv_keys l Hr) as (H2c & H2s & (kc & Hkc & Hins) & (ka & Hka & Hinc)).
  destruct Hr as [[] _].
  assert (Hround : forall r1 r2 k, rc_delegatedToProxy r1 = false -> rc_delegatedToProxy r2 = false ->
    activeKey r1 = Some k -> k ∈ rc_gcmList r2 ->
    exists r1' r2' wire, sealPacket r1 buf = Some (r1', Ok wire) /\ openPacket r2 wire = (r2', Ok buf)).
  { intros r1 r2 k Hd1 Hd2 Hk Hin. apply first_occurrence in Hin as (pre & post & Hgl & Hpre).
    destruct (sealPacket_spec r1 buf k Hd1 Hk Hlen) as (r1' & nonce & p & -> & Hn & Hs & _).
    destruct (openPacket_known r2 k nonce p pre post Hd2 Hn Hgl Hpre) as (r2' & Ho & _).
    by exists r1', r2', (nonce ++ gcm_Seal k nonce p). }
  split_and!; [|by eapply Hround|done..]. by eapply Hround.
Qed.

(** Packets do not close an end. *)
Lemma consumeBytes_closed r n : rc_closed (fst (consumeBytes r n)) = rc_closed r.
Proof. destruct r. unfold consumeBytes. by repeat case_match. Qed.

Lemma sealPacket_closed r buf r' w : sealPacket r buf = Some (r', w) -> rc_closed r' = rc_closed r.
Proof.
  unfold sealPacket, Seal. pose proof (consumeBytes_closed r (Z.of_nat (length (drop gcm_nonceSize buf)))) as Hc.
  destruct (consumeBytes r _) as [r1 b]. simpl in Hc. repeat case_match; intros; by simplify_eq.
Qed.

Lemma openPacket_closed r buf r' w : openPacket r buf = (r', w) -> rc_closed r' = rc_closed r.
Proof.
  unfold openPacket, Open. destruct (_ <? _)%nat; [by intros [= <- _]|].
  destruct (rc_delegatedToProxy r); [by intros [= <- _]|].
  assert (Hl : forall gl i n c, rc_closed (fst (Open_loop r i gl n c)) = rc_closed r).
  { induction gl as [|g gl IH]; intros i n c; [done|]. cbn [Open_loop]. destruct (gcm_Open g n c); [|apply IH]. simpl.
    destruct (0 <? i)%nat; [|apply consumeBytes_closed]. destruct r. unfold promoteKey. by case_match. }
  specialize (Hl (rc_gcmList r) 0%nat (take gcm_nonceSize buf) (drop gcm_nonceSize buf)).
  destruct (Open_loop _ _ _ _ _) as [r1 []]; intros [= <- _]; exact Hl.
Qed.

(** Both ends hold one common key, and no exchange is under way. *)
Definition settled (c s : rotatingCrypto) (k : key) : Prop :=
  rc_delegatedToProxy c = false /\ rc_delegatedToProxy s = false /\
  rc_gcmList c = [k] /\ rc_gcmList s = [k] /\ rc_activeIdx s = 0%nat /\ rc_keySalt s = rc_keySalt c /\
  rc_closed c = false /\ rc_rekeyInFlight c = false.

(** The guard of [startRekey] on the time and the bytes since the last exchange. *)
Definition rekey_due (r : rotatingCrypto) (now : Z) : Prop :=
  match rc_lastRekeyTime r with
  | None => True
  | Some t => rc_timeThreshold r / 2 <= now - t \/ rc_bytesThreshold r <= rc_bytesConsumed r
  end.

Lemma startRekey_due c now :
  rc_closed c = false -> rc_rekeyInFlight c = false -> rekey_due c now ->
  startRekey c now = (match c with RC cl sa gl ai th bc bt tr fl lt pk cd de => RC cl sa gl ai th bc bt tr true lt pk cd de end, true).
Proof.
  destruct c as [cl sa gl ai th bc bt tr fl lt pk cd de]. unfold rekey_due. simpl. intros -> -> Hdue.
  destruct lt as [t|]; [|done]. destruct (Z.ltb_spec (now - t) (th / 2)), (Z.ltb_spec bc bt); try done; lia.
Qed.

(** C35: a key exchange reaches its goal, the first one and every later one:
    from a state where both ends hold one common key, none is under way and the
    next is due, its two messages and then one packet in each direction leave
    both ends with the agreed new key alone, in such a state again.  [now],
    [snow] and [now2] are the times of the start, of the server and of the
    answer. *)
Theorem rekey_exchange_completes c s k p sp secret now snow now2 buf :
  settled c s k -> rekey_due c now ->
  ECDH sp (PublicKey p) = Some secret -> derive secret (rc_keySalt c) <> k ->
  (gcm_nonceSize <= length buf)%nat ->
  exists c1 c2 s1 c3 c4 s2 s3 c5 req resp w1 w2,
    startRekey c now = (c1, true) /\ doRekey c1 (Some p) true = (c2, Some req) /\
    handleServerRekey s (Some sp) req snow = (s1, Ok resp) /\
    handleClientRekey c2 resp now2 = (c3, None) /\
    sealPacket c3 buf = Some (c4, Ok w1) /\ openPacket s1 w1 = (s2, Ok buf) /\
    sealPacket s2 buf = Some (s3, Ok w2) /\ openPacket c4 w2 = (c5, Ok buf) /\
    settled c5 s3 (derive secret (rc_keySalt c)).
Proof.
  intros (Hdc & Hds & Hgc & Hgs & Has & Hsalt & Hcl & Hfl) Hdue Hec Hne Hlen.
  set (k2 := derive secret (rc_keySalt c)) in *. pose proof (startRekey_due c now Hcl Hfl Hdue) as Hstart.
  destruct c as [cl sa gl ai th bc bt tr fl lt pk cd de]. simpl in *. subst.
  set (c2 := RC cl (rc_keySalt s) [k] ai th bc bt tr true lt (Some p) false false).
  destruct (installKey_spec s secret false snow) as (Hg1 & Ha1 & Hs1 & _ & Hd1 & _).
  set (s1 := installKey s secret false snow) in *. rewrite Hgs in Hg1. fold k2 in Hg1.
  set (c3 := set_priKey (installKey c2 secret true now2) None).
  assert (Hk3 : activeKey c3 = Some k2) by done.
  destruct (sealPacket_spec c3 buf k2 eq_refl Hk3 Hlen) as (c4 & nonce & q & Hbuf & Hn & Hseal & Hg4 & Ha4 & Hs4 & _ & Hf4 & Hd4).
  rewrite Hds in Hd1.
  destruct (openPacket_known s1 k2 nonce q [k] [] Hd1 Hn Hg1) as (s2 & Ho & Hg2 & (Hsa2 & _ & _ & Hd2) & Ha2);
    [by apply not_elem_of_cons; split; [done|apply not_elem_of_nil]|]. rewrite Hd1 in Hd2.
  assert (Hk2 : activeKey s2 = Some k2) by (unfold activeKey; by rewrite Ha2, Hg2).
  destruct (sealPacket_spec s2 buf k2 Hd2 Hk2 Hlen) as (s3 & nonce2 & q2 & Hbuf2 & Hn2 & Hseal2 & Hg3 & Ha3 & Hsa3 & _ & _ & Hd3).
  destruct (openPacket_known c4 k2 nonce2 q2 [k] [] Hd4 Hn2 Hg4) as (c5 & Ho2 & Hg5 & (Hsa5 & _ & Hf5 & Hd5) & _);
    [by apply not_elem_of_cons; split; [done|apply not_elem_of_nil]|].
  pose proof (openPacket_closed _ _ _ _ Ho2) as Hcl5. rewrite (sealPacket_closed _ _ _ _ Hseal) in Hcl5.
  eexists _, c2, s1, c3, c4, s2, s3, c5, _, _, _, _. split_and!; try done.
  - simpl. by rewrite NewPublicKey_Bytes, Hec.
  - unfold handleClientRekey. rewrite NewPublicKey_Bytes. simpl. by rewrite ECDH_agree, Hec.
  - by rewrite Ho, <- Hbuf.
  - by rewrite Ho2, <- Hbuf2.
  - unfold settled. split_and!; try congruence.
    + by rewrite Hd5, Hd4.
    + by rewrite Ha3, Ha2.
    + by rewrite Hsa3, Hsa2, Hs1, Hsa5, Hs4.
    + by rewrite Hcl5.
    + by rewrite Hf5, Hf4.
Qed.

(** The byte threshold triggers at most one rekey per installed key: of
    any sequence of sealed or opened lengths counted since the last
    [installKey], at most one starts a rekey. *)
Theorem byte_rekey_once (r : rotatingCrypto) secret active now (ns : list Z) :
  let count := fold_left (fun '(r, k) n => let '(r', b) := consumeBytes r n in
                 (r', if b : bool then S k else k)) ns (installKey r secret active now, 0%nat) in
  (snd count <= 1)%nat.
Proof.
  cbv zeta. set (step := fun '(r, k) n => _).
  enough (forall ns r k, (k + (if rc_bytesTriggered r then 0 else 1) <= 1)%nat ->
    (snd (fold_left step ns (r, k)) <= 1)%nat) as Hgen.
  { apply Hgen. by destruct r. }
  clear. intros ns. induction ns as [|n ns IH]; intros r k Hk; simpl.
  - destruct (rc_bytesTriggered r); lia.
  - destruct (consumeBytes r n) as [r' b] eqn:E. apply IH.
    destruct r. unfold consumeBytes in E. simpl in *. repeat case_match; simplify_eq/=; try lia.
Qed.

End Link.

(** ** A concrete instance *)

Module Toy.

(** One-byte keys; a sealed text is the key and the text. *)
#[export] Instance toy_crypto : Crypto := {
  key := byte; priv := bytes; pub := bytes;
  gcm_Seal k n p := k :: p;
  gcm_Open k n c := match c with b :: p => if ascii_dec b k then Some p else None | [] => None end;
  gcm_nonceSize := 1; gcm_overhead := 1;
  PublicKey p := p; pub_Bytes p := p; NewPublicKey b := Some b;
  ECDH a b := Some [byte_of_Z (be_get a * be_get b)];
  derive secret salt := default LF (head secret)
}.

#[export] Instance toy_ok : CryptoOk.
Proof.
  split; simpl.
  - intros k n p. by destruct (ascii_dec k k).
  - intros k k' n p Hne. by destruct (ascii_dec k k').
  - intros. lia.
  - done.
  - intros. by rewrite Z.mul_comm.
Qed.

Definition client : rotatingCrypto := fst (newRotatingCrypto true (bs "k") (bs "salt") 100 3600 false 0).
Definition server : rotatingCrypto := fst (newRotatingCrypto false (bs "k") (bs "salt") 0 0 false 0).

End Toy.

Import Toy.

Lemma packet_roundtrip_witness :
  exists r1' r2' wire, sealPacket client (bs "n-data") = Some (r1', Ok wire) /\
    openPacket server wire = (r2', Ok (bs "n-data")) /\ rc_gcmList r2' = ["k"%char].
Proof.
  apply (packet_roundtrip client server (bs "n-data") "k"%char [] []); try done; try (simpl; lia).
  apply not_elem_of_nil.
Defined.

Lemma rekey_never_locks_out_witness :
  let l := rk_init (bs "k") (bs "salt") 100 3600 0 in
  (exists c' s' wire, sealPacket (ln_c l) (bs "n-data") = Some (c', Ok wire) /\
    openPacket (ln_s l) wire = (s', Ok (bs "n-data"))) /\
    (exists s' c' wire, sealPacket (ln_s l) (bs "n-data") = Some (s', Ok wire) /\
    openPacket (ln_c l) wire = (c', Ok (bs "n-data"))) /\
    (length (rc_gcmList (ln_c l)) <= 2)%nat /\ (length (rc_gcmList (ln_s l)) <= 2)%nat.
Proof.
  apply (rekey_never_locks_out (bs "k") (bs "salt") 100 3600 0); [apply rtc_refl | simpl; lia].
Defined.

(** A client whose last exchange was an hour ago. *)
Definition old_client : rotatingCrypto :=
  RC (rc_client client) (rc_keySalt client) (rc_gcmList client) 0 3600 5 100 false false (Some 0) None false false.

Lemma rekey_exchange_completes_witness :
  exists c1 c2 s1 c3 c4 s2 s3 c5 req resp w1 w2,
    startRekey old_client 3600 = (c1, true) /\ doRekey c1 (Some (bs "a")) true = (c2, Some req) /\
    handleServerRekey server (Some (bs "b")) req 3601 = (s1, Ok resp) /\
    handleClientRekey c2 resp 3602 = (c3, None) /\
    sealPacket c3 (bs "n-data") = Some (c4, Ok w1) /\ openPacket s1 w1 = (s2, Ok (bs "n-data")) /\
    sealPacket s2 (bs "n-data") = Some (s3, Ok w2) /\ openPacket c4 w2 = (c5, Ok (bs "n-data")) /\
    settled c5 s3 (byte_of_Z 34).
Proof.
  apply (rekey_exchange_completes old_client server "k"%char (bs "a") (bs "b") [byte_of_Z 34] 3600 3601 3602 (bs "n-data")).
  - repeat split.
  - left. vm_compute. discriminate.
  - done.
  - done.
  - simpl. lia.
Defined.
