(* ===== verification/ProxyAuth.v ===== *)
(** * ProxyAuth: who may send packets to the server ([proxy_server.go],
    [proxy_client.go], [proxy.go], the timeout cleanup of [server.go])

    All QUIC or KCP packets of a client pass the server proxy.  A client
    authenticates an address with a packet sealed by the proxy key that holds
    its id and a serial number; the first other packet from that address makes
    it the client's effective address.  Serial numbers only grow, so an old
    authentication packet cannot move a client.

    A [*clientState] is named by its client id: states are never removed.  An
    address value in a client state is a pointer (a number, for the
    comparisons of [CompareAndSwap]) with the address it points to. *)

From Stdlib Require Import ZArith Lia Ascii String.
From stdpp Require Import base list strings gmap.
From S2P Require Import Prelude Rekey.
Open Scope Z_scope.

(** An IP address, port and zone; [addr.String()] is a key of the address. *)
Abbreviation addr := (Z * Z * string)%type.
Abbreviation aptr := (Z * addr)%type.

Definition kSafeToDropPacketLen : nat := 16.

Record clientState := CS {
  cs_closed : bool;
  cs_sealed : bool;
  cs_serialNumber : Z;
  cs_clientConn : option Z;
  cs_clientAddr : option aptr;
  cs_authedAddr : option aptr;
  cs_udpFrontConn : bool
}.

(** The proxy and its UDP frontend.  When not attachable, [soleClient] is the
    entry of [px_clients] for [px_clientID]. *)
Record serverProxy := Proxy {
  px_attachable : bool;
  px_clientID : Z;
  px_serverID : Z;
  px_clients : gmap Z clientState;
  px_clientMap : gmap addr Z;
  px_authedMap : gmap addr Z;
  px_cacheClient : option Z;
  px_nextPtr : Z
}.

Section Code.
Context `{Crypto}.

(** ** Sealing ([proxy.go]); [None] is [nil] *)

Definition aesEncrypt (k : key) (nonce : option bytes) (buf : bytes) : option bytes :=
  match nonce with
  | None => None
  | Some nonce => Some (nonce ++ gcm_Seal k nonce buf)
  end.

Definition aesDecrypt (k : key) (buf : bytes) : option bytes :=
  if (length buf <? gcm_nonceSize)%nat then None
  else gcm_Open k (take gcm_nonceSize buf) (drop gcm_nonceSize buf).

(** ** Client states *)

Definition newClientState : clientState := CS false false 0 None None None false.

Definition getClient (p : serverProxy) (id : Z) : serverProxy * clientState :=
  match px_clients p !! id with
  | Some c => (p, c)
  | None =>
      (Proxy (px_attachable p) (px_clientID p) (px_serverID p)
         (<[id := newClientState]> (px_clients p))
         (px_clientMap p) (px_authedMap p) (px_cacheClient p) (px_nextPtr p), newClientState)
  end.

Definition set_client (p : serverProxy) (id : Z) (c : clientState) : serverProxy :=
  Proxy (px_attachable p) (px_clientID p) (px_serverID p) (<[id := c]> (px_clients p))
    (px_clientMap p) (px_authedMap p) (px_cacheClient p) (px_nextPtr p).

Definition set_maps (p : serverProxy) (cm am : gmap addr Z) : serverProxy :=
  Proxy (px_attachable p) (px_clientID p) (px_serverID p) (px_clients p)
    cm am (px_cacheClient p) (px_nextPtr p).

Definition addClientMap (p : serverProxy) (id : Z) (a : option aptr) : serverProxy :=
  if px_attachable p then
    match a with
    | Some (_, a) => set_maps p (<[a := id]> (px_clientMap p)) (px_authedMap p)
    | None => p
    end
  else p.

Definition delClientMap (p : serverProxy) (a : addr) : serverProxy :=
  if px_attachable p then set_maps p (delete a (px_clientMap p)) (px_authedMap p) else p.

Definition addAuthedMap (p : serverProxy) (id : Z) (a : option aptr) : serverProxy :=
  if px_attachable p then
    match a with
    | Some (_, a) => set_maps p (px_clientMap p) (<[a := id]> (px_authedMap p))
    | None => p
    end
  else p.

Definition delAuthedMap (p : serverProxy) (a : addr) : serverProxy :=
  if px_attachable p then set_maps p (px_clientMap p) (delete a (px_authedMap p)) else p.

(** The swap at the start of [setClientConn], [setClientAddr] and
    [setAuthedAddr]: the new content of the field and the old value to clean
    up. *)
Definition swap_ptr {A} `{EqDecision A} (cur old new : option A) : option A * option A :=
  match old with
  | None => (new, cur)
  | Some _ => if decide (cur = old) then (new, old) else (cur, None)
  end.

Definition setClientAddr (p : serverProxy) (id : Z) (oldAddr newAddr : option aptr) : serverProxy :=
  match px_clients p !! id with
  | None => p
  | Some c =>
      let '(cur, old) := swap_ptr (cs_clientAddr c) oldAddr newAddr in
      let p := set_client p id (CS (cs_closed c) (cs_sealed c) (cs_serialNumber c) (cs_clientConn c)
                 cur (cs_authedAddr c) (cs_udpFrontConn c)) in
      let p := match newAddr with
               | Some _ => if cs_udpFrontConn c then addClientMap p id cur else p
               | None => p
               end in
      match old with
      | Some (_, a) => if cs_udpFrontConn c then delClientMap p a else p
      | None => p
      end
  end.

Definition setAuthedAddr (p : serverProxy) (id : Z) (oldAddr newAddr : option aptr) : serverProxy :=
  match px_clients p !! id with
  | None => p
  | Some c =>
      let '(cur, old) := swap_ptr (cs_authedAddr c) oldAddr newAddr in
      let p := set_client p id (CS (cs_closed c) (cs_sealed c) (cs_serialNumber c) (cs_clientConn c)
                 (cs_clientAddr c) cur (cs_udpFrontConn c)) in
      let p := match newAddr with
               | Some _ => if cs_udpFrontConn c then addAuthedMap p id cur else p
               | None => p
               end in
      match old with
      | Some (_, a) => if cs_udpFrontConn c then delAuthedMap p a else p
      | None => p
      end
  end.

(** The connection that is closed, if any, is the second result. *)
Definition setClientConn (p : serverProxy) (id : Z) (oldConn newConn : option Z)
  : serverProxy * option Z :=
  match px_clients p !! id with
  | None => (p, None)
  | Some c =>
      let '(cur, old) := swap_ptr (cs_clientConn c) oldConn newConn in
      (set_client p id (CS (cs_closed c) (cs_sealed c) (cs_serialNumber c) cur
         (cs_clientAddr c) (cs_authedAddr c) (cs_udpFrontConn c)), old)
  end.

Definition modify_client (p : serverProxy) (id : Z) (f : clientState -> clientState) : serverProxy :=
  match px_clients p !! id with
  | None => p
  | Some c => set_client p id (f c)
  end.

Definition with_closed (c : clientState) : clientState :=
  CS true (cs_sealed c) (cs_serialNumber c) (cs_clientConn c) (cs_clientAddr c) (cs_authedAddr c)
    (cs_udpFrontConn c).

Definition with_front (b : bool) (c : clientState) : clientState :=
  CS (cs_closed c) (cs_sealed c) (cs_serialNumber c) (cs_clientConn c) (cs_clientAddr c)
    (cs_authedAddr c) b.

Definition with_serial (n : Z) (c : clientState) : clientState :=
  CS (cs_closed c) (cs_sealed c) n (cs_clientConn c) (cs_clientAddr c) (cs_authedAddr c)
    (cs_udpFrontConn c).

Definition with_sealed (c : clientState) : clientState :=
  CS (cs_closed c) true (cs_serialNumber c) (cs_clientConn c) (cs_clientAddr c) (cs_authedAddr c)
    (cs_udpFrontConn c).

(** [clientState.Close]. *)
Definition client_Close (p : serverProxy) (id : Z) : serverProxy :=
  match px_clients p !! id with
  | None => p
  | Some c =>
      if cs_closed c then p
      else
        let p := modify_client p id with_closed in
        let '(p, _) := setClientConn p id None None in
        let p := setClientAddr p id None None in
        let p := setAuthedAddr p id None None in
        modify_client p id (with_front false)
  end.

(** The cleanup at the end of the timeout callback of [initClientChecker],
    with the transports it loaded before its wait. *)
Definition clearTransport (p : serverProxy) (id : Z)
  (oldAuthedAddr oldClientAddr : option aptr) (oldClientConn : option Z) : serverProxy :=
  let p := setAuthedAddr p id oldAuthedAddr None in
  let p := setClientAddr p id oldClientAddr None in
  fst (setClientConn p id oldClientConn None).

(** A client is bound to one server, once ([newSshUdpServer]). *)
Definition bindServer (p : serverProxy) (id : Z) : serverProxy * bool :=
  let '(p, c) := getClient p id in
  if cs_closed c then (p, false)
  else if cs_sealed c then (p, false)
  else (set_client p id (with_sealed c), true).

(** ** Authentication packets *)

Definition sealAuthPacket (k : key) (p : serverProxy) (nonce : option bytes) (serialNumber : Z)
  : option bytes :=
  aesEncrypt k nonce (be_put 8 (px_serverID p) ++ be_put 8 serialNumber).

(** [None] is [isAuthPacket = false]. *)
Definition openAuthPacket (k : key) (p : serverProxy) (buf : bytes) : option (Z * Z) :=
  match aesDecrypt k buf with
  | None => None
  | Some data =>
      if negb (length data =? 16)%nat then None
      else
        let clientID := be_get (take 8 data) in
        if negb (px_attachable p) && negb (clientID =? px_clientID p) then None
        else Some (clientID, be_get (take 8 (drop 8 data)))
  end.

(** ** The UDP frontend *)

Definition isSameAddr (a : option aptr) (b : addr) : bool :=
  match a with
  | Some (_, a) => bool_decide (a = b)
  | None => false
  end.

Inductive addr_class := IsClientAddr (id : Z) | IsAuthedAddr (id : Z) | Unknown.

Definition classify (p : serverProxy) (id : Z) (a : addr) : addr_class :=
  match px_clients p !! id with
  | Some c => if isSameAddr (cs_clientAddr c) a then IsClientAddr id
              else if isSameAddr (cs_authedAddr c) a then IsAuthedAddr id
              else Unknown
  | None => Unknown
  end.

Definition set_cache (p : serverProxy) (id : Z) : serverProxy :=
  Proxy (px_attachable p) (px_clientID p) (px_serverID p) (px_clients p)
    (px_clientMap p) (px_authedMap p) (Some id) (px_nextPtr p).

(** The lookups in the two maps, after the cache has missed. *)
Definition lookup_maps (p : serverProxy) (a : addr) : serverProxy * addr_class :=
  let byClient := match px_clientMap p !! a with
                  | Some id => match px_clients p !! id with
                               | Some c => if isSameAddr (cs_clientAddr c) a then Some id else None
                               | None => None
                               end
                  | None => None
                  end in
  match byClient with
  | Some id => (set_cache p id, IsClientAddr id)
  | None =>
      match px_authedMap p !! a with
      | Some id => match px_clients p !! id with
                   | Some c => if isSameAddr (cs_authedAddr c) a then (p, IsAuthedAddr id) else (p, Unknown)
                   | None => (p, Unknown)
                   end
      | None => (p, Unknown)
      end
  end.

(** [udpFrontendConn.getClient]. *)
Definition front_getClient (p : serverProxy) (a : addr) : serverProxy * addr_class :=
  if negb (px_attachable p) then (p, classify p (px_clientID p) a)
  else match px_cacheClient p with
       | Some id => match classify p id a with
                    | Unknown => lookup_maps p a
                    | cls => (p, cls)
                    end
       | None => lookup_maps p a
       end.

(** What one datagram makes the frontend do. *)
Record front_out := FrontOut {
  fo_deliver : option Z;               (* the packet is returned for this client *)
  fo_newConn : option Z;               (* onNewClientConn *)
  fo_send : option (bytes * addr)      (* authentication response *)
}.

Definition fo_none : front_out := FrontOut None None None.

Definition respond (k : key) (p : serverProxy) (nonce : option bytes) (serial : Z) (a : addr)
  : front_out :=
  match sealAuthPacket k p nonce serial with
  | Some b => FrontOut None None (Some (b, a))
  | None => fo_none
  end.

Definition deliver_if (len : nat) (id : Z) : option Z :=
  if (len <=? kSafeToDropPacketLen)%nat then None else Some id.

Definition alloc_addr (p : serverProxy) (a : addr) : serverProxy * aptr :=
  (Proxy (px_attachable p) (px_clientID p) (px_serverID p) (px_clients p)
     (px_clientMap p) (px_authedMap p) (px_cacheClient p) (px_nextPtr p + 1), (px_nextPtr p, a)).

(** One pass of the loop of [udpFrontendConn.readFrom]. *)
Definition readFrom_step (k : key) (p : serverProxy) (nonce : option bytes) (a : addr) (pkt : bytes)
  : serverProxy * front_out :=
  match front_getClient p a with
  | (p, IsClientAddr id) => (p, FrontOut (deliver_if (length pkt) id) None None)
  | (p, IsAuthedAddr id) =>
      match openAuthPacket k p pkt with
      | None =>
          match cs_authedAddr <$> (px_clients p !! id) with
          | Some (Some ap) =>
              let p := setClientAddr p id None (Some ap) in
              let p := setAuthedAddr p id None None in
              (p, FrontOut (deliver_if (length pkt) id) (Some id) None)
          | _ => (p, fo_none)
          end
      | Some (clientID, newSerialNumber) =>
          if negb (clientID =? id) then (setAuthedAddr p id None None, fo_none)
          else match px_clients p !! id with
               | None => (p, fo_none)
               | Some c =>
                   if newSerialNumber <? cs_serialNumber c then (p, fo_none)
                   else let p := set_client p id (with_serial newSerialNumber c) in
                        (p, respond k p nonce newSerialNumber a)
               end
      end
  | (p, Unknown) =>
      match openAuthPacket k p pkt with
      | None => (p, fo_none)
      | Some (clientID, newSerialNumber) =>
          let '(p, c) := getClient p clientID in
          if cs_closed c then (p, fo_none)
          else
            let p := set_client p clientID (with_front true c) in
            if newSerialNumber <=? cs_serialNumber c then (p, fo_none)
            else
              let p := modify_client p clientID (with_serial newSerialNumber) in
              let '(p, ap) := alloc_addr p a in
              let p := setAuthedAddr p clientID None (Some ap) in
              (p, respond k p nonce newSerialNumber a)
      end
  end.

(** [udpFrontendConn.writeTo]: the address a packet for the client goes to. *)
Definition writeTo (p : serverProxy) (id : Z) : option addr :=
  match px_clients p !! id with
  | Some c => snd <$> cs_clientAddr c
  | None => None
  end.

(** ** The TCP frontend: [tcpFrontendConn.handshake] on an accepted connection.
    The response is the packet sent back; the handshake has succeeded when
    the client's connection is replaced. *)
Definition handshake (k : key) (p : serverProxy) (nonce : option bytes) (conn : Z) (pkt : bytes)
  (sendOk : bool) : serverProxy * option bytes * bool :=
  match openAuthPacket k p pkt with
  | None => (p, None, false)
  | Some (clientID, newSerialNumber) =>
      let '(p, c) := getClient p clientID in
      if cs_closed c then (p, None, false)
      else if newSerialNumber <=? cs_serialNumber c then (p, None, false)
      else
        let p := set_client p clientID (with_serial newSerialNumber c) in
        match sealAuthPacket k p nonce newSerialNumber with
        | None => (p, None, false)
        | Some b =>
            if negb sendOk then (p, Some b, false)
            else (fst (setClientConn p clientID None (Some conn)), Some b, true)
        end
  end.

(** ** The client ([proxy_client.go]) *)

Record clientProxy := ClientProxy {
  cp_clientID : Z;
  cp_serverID : Z;
  cp_serialNumber : Z
}.

(** The serial number taken by [renewTransportPath]. *)
Definition renew_serial (c : clientProxy) : clientProxy :=
  ClientProxy (cp_clientID c) (cp_serverID c) (u64 (cp_serialNumber c + 1)).

Definition sendAuthPacket (k : key) (c : clientProxy) (nonce : option bytes) : option bytes :=
  aesEncrypt k nonce (be_put 8 (cp_clientID c) ++ be_put 8 (cp_serialNumber c)).

Definition isAuthSuccessful (k : key) (c : clientProxy) (buf : bytes) : clientProxy * bool :=
  match aesDecrypt k buf with
  | None => (c, false)
  | Some data =>
      if negb (length data =? 16)%nat then (c, false)
      else if negb (be_get (take 8 data) =? cp_serverID c) then (c, false)
      else
        let serialNumber := be_get (take 8 (drop 8 data)) in
        if cp_serialNumber c <? serialNumber
        then (ClientProxy (cp_clientID c) (cp_serverID c) serialNumber, false)
        else (c, cp_serialNumber c =? serialNumber)
  end.

(** ** Runs of the UDP frontend *)

(** A datagram, the end of a client's server, and the cleanup of a timeout
    with the transports it observed. *)
Inductive front_event :=
| Datagram (nonce : option bytes) (a : addr) (pkt : bytes)
| CloseClient (id : Z)
| TimeoutCleanup (id : Z) (oldAuthed oldClient : option aptr) (oldConn : option Z).

Definition front_step (k : key) (p : serverProxy) (e : front_event) : serverProxy * front_out :=
  match e with
  | Datagram nonce a pkt => readFrom_step k p nonce a pkt
  | CloseClient id => (client_Close p id, fo_none)
  | TimeoutCleanup id oa oc cn => (clearTransport p id oa oc cn, fo_none)
  end.

Fixpoint front_run (k : key) (p : serverProxy) (es : list front_event)
  : serverProxy * list front_out :=
  match es with
  | [] => (p, [])
  | e :: es' =>
      let '(p1, o) := front_step k p e in
      let '(p2, os) := front_run k p1 es' in (p2, o :: os)
  end.

(** [startServerProxy]: the sole client exists from the start. *)
Definition newServerProxy (attachable : bool) (clientID serverID : Z) : serverProxy :=
  Proxy attachable clientID serverID
    (if attachable then ∅ else {[clientID := newClientState]}) ∅ ∅ None 0.

End Code.

(** ** The invariant of the address maps *)

Definition client_at (p : serverProxy) (a : addr) (id : Z) : Prop :=
  exists c q, px_clients p !! id = Some c /\ cs_clientAddr c = Some (q, a).

Definition authed_at (p : serverProxy) (a : addr) (id : Z) : Prop :=
  exists c q, px_clients p !! id = Some c /\ cs_authedAddr c = Some (q, a).

(** Every address in use is found through its map, no address is both
    effective and waiting, and without [Attachable] only the sole client has
    addresses. *)
Record proxy_wf (p : serverProxy) : Prop := {
  wf_client : forall a id, client_at p a id -> px_attachable p = true -> px_clientMap p !! a = Some id;
  wf_authed : forall a id, authed_at p a id -> px_attachable p = true -> px_authedMap p !! a = Some id;
  wf_excl : forall a i j, client_at p a i -> authed_at p a j -> False;
  wf_front : forall id c, px_clients p !! id = Some c ->
    cs_clientAddr c <> None \/ cs_authedAddr c <> None -> cs_udpFrontConn c = true;
  wf_sole : forall a id, client_at p a id \/ authed_at p a id -> px_attachable p = false ->
    id = px_clientID p
}.

Lemma client_at_unique p a i j : proxy_wf p -> client_at p a i -> client_at p a j -> i = j.
Proof.
  intros [Hc _ _ _ Hs] Hi Hj. destruct (px_attachable p) eqn:E.
  - apply Hc in Hi; [|done]. apply Hc in Hj; [|done]. congruence.
  - rewrite (Hs a i), (Hs a j); auto.
Qed.

Lemma authed_at_unique p a i j : proxy_wf p -> authed_at p a i -> authed_at p a j -> i = j.
Proof.
  intros [_ Hc _ _ Hs] Hi Hj. destruct (px_attachable p) eqn:E.
  - apply Hc in Hi; [|done]. apply Hc in Hj; [|done]. congruence.
  - rewrite (Hs a i), (Hs a j); auto.
Qed.

(** Two states that differ in at most the cache and the pointer counter. *)
Definition same_view (p p' : serverProxy) : Prop :=
  px_attachable p' = px_attachable p /\ px_clientID p' = px_clientID p /\
  px_serverID p' = px_serverID p /\ px_clients p' = px_clients p /\
  px_clientMap p' = px_clientMap p /\ px_authedMap p' = px_authedMap p.

Lemma proxy_wf_view p p' : same_view p p' -> proxy_wf p -> proxy_wf p'.
Proof.
  intros (Ha & Hi & _ & Hc & Hm & Hu) []. unfold client_at, authed_at in *.
  constructor; unfold client_at, authed_at; rewrite ?Ha, ?Hi, ?Hc, ?Hm, ?Hu; eauto.
Qed.

Lemma isSameAddr_spec oa a : isSameAddr oa a = true <-> exists q, oa = Some (q, a).
Proof.
  destruct oa as [[q b]|]; simpl; [|naive_solver]. rewrite bool_decide_eq_true. naive_solver.
Qed.

(** What [getClient] of the frontend finds is the truth about the address. *)
Definition class_ok (p : serverProxy) (a : addr) (cls : addr_class) : Prop :=
  match cls with
  | IsClientAddr id => client_at p a id
  | IsAuthedAddr id => authed_at p a id
  | Unknown => forall id, ~ client_at p a id /\ ~ authed_at p a id
  end.

Lemma classify_ok p id a :
  match classify p id a with
  | IsClientAddr i => i = id /\ client_at p a id
  | IsAuthedAddr i => i = id /\ authed_at p a id
  | Unknown => ~ client_at p a id /\ ~ authed_at p a id
  end.
Proof.
  unfold classify, client_at, authed_at. destruct (px_clients p !! id) as [c|] eqn:Hc; [|naive_solver].
  destruct (isSameAddr (cs_clientAddr c) a) eqn:H1.
  { apply isSameAddr_spec in H1 as [q ?]. eauto. }
  destruct (isSameAddr (cs_authedAddr c) a) eqn:H2.
  { apply isSameAddr_spec in H2 as [q ?]. eauto. }
  apply not_true_iff_false in H1, H2. rewrite isSameAddr_spec in H1, H2. naive_solver.
Qed.

Lemma lookup_maps_ok p a p' cls :
  proxy_wf p -> px_attachable p = true -> lookup_maps p a = (p', cls) ->
  same_view p p' /\ class_ok p a cls.
Proof.
  intros Hwf Hatt. unfold lookup_maps.
  destruct (match px_clientMap p !! a with Some _ => _ | None => _ end) as [id|] eqn:Hcm.
  - intros [= <- <-]. split; [done|]. unfold client_at. simpl.
    repeat case_match; simplify_eq. apply isSameAddr_spec in H1 as [q ?]. unfold client_at. eauto.
  - assert (Hnc : forall id, ~ client_at p a id).
    { intros id Hat. pose proof (wf_client _ Hwf _ _ Hat Hatt) as Hm. destruct Hat as (c & q & Hc & Ha).
      rewrite Hm, Hc in Hcm. rewrite (proj2 (isSameAddr_spec _ a)) in Hcm; eauto. done. }
    assert (Hna : (forall id, px_authedMap p !! a = Some id -> ~ authed_at p a id) -> forall id, ~ authed_at p a id).
    { intros Hno id Hat. by apply (Hno id); [apply wf_authed|]. }
    destruct (px_authedMap p !! a) as [id|] eqn:Ham.
    + destruct (px_clients p !! id) as [c|] eqn:Hc.
      * destruct (isSameAddr (cs_authedAddr c) a) eqn:Hs; intros [= <- <-]; (split; [done|]); simpl.
        -- apply isSameAddr_spec in Hs as [q ?]. unfold authed_at. eauto.
        -- intros i. split; [apply Hnc|]. apply Hna. intros j [= <-] (c' & q & Hc' & Ha').
           apply not_true_iff_false in Hs. rewrite isSameAddr_spec in Hs. naive_solver.
      * intros [= <- <-]. split; [done|]. intros i. split; [apply Hnc|]. apply Hna.
        intros j [= <-] (c' & q & Hc' & _). congruence.
    + intros [= <- <-]. split; [done|]. intros i. split; [apply Hnc|]. apply Hna. done.
Qed.

Lemma front_getClient_ok p a p' cls :
  proxy_wf p -> front_getClient p a = (p', cls) -> same_view p p' /\ class_ok p a cls.
Proof.
  intros Hwf. unfold front_getClient. destruct (px_attachable p) eqn:Hatt; simpl.
  - destruct (px_cacheClient p) as [id|]; [|by apply lookup_maps_ok].
    pose proof (classify_ok p id a) as Hcl. destruct (classify p id a); [..|by apply lookup_maps_ok];
      destruct Hcl as [-> Hat]; by intros [= <- <-].
  - pose proof (classify_ok p (px_clientID p) a) as Hcl. intros [= <- <-]. split; [done|].
    destruct (classify p (px_clientID p) a); simpl; [by destruct Hcl as [-> ?]..|].
    intros id. split; intros Hat;
      (assert (id = px_clientID p) as -> by (eapply wf_sole; eauto)); naive_solver.
Qed.

(** ** What the setters change *)

Definition with_clientAddr (a : option aptr) (c : clientState) : clientState :=
  CS (cs_closed c) (cs_sealed c) (cs_serialNumber c) (cs_clientConn c) a (cs_authedAddr c) (cs_udpFrontConn c).

Definition with_authedAddr (a : option aptr) (c : clientState) : clientState :=
  CS (cs_closed c) (cs_sealed c) (cs_serialNumber c) (cs_clientConn c) (cs_clientAddr c) a (cs_udpFrontConn c).

Definition drop_key (o : option aptr) (m : gmap addr Z) : gmap addr Z :=
  match o with Some (_, a) => delete a m | None => m end.

Definition put_key (o : option aptr) (id : Z) (m : gmap addr Z) : gmap addr Z :=
  match o with Some (_, a) => <[a := id]> m | None => m end.

Lemma setClientAddr_spec p id c old new cur gone :
  px_clients p !! id = Some c -> swap_ptr (cs_clientAddr c) old new = (cur, gone) ->
  let p' := setClientAddr p id old new in
  px_attachable p' = px_attachable p /\ px_clientID p' = px_clientID p /\ px_serverID p' = px_serverID p /\
  px_clients p' = <[id := with_clientAddr cur c]> (px_clients p) /\
  px_authedMap p' = px_authedMap p /\
  px_clientMap p' = (if px_attachable p && cs_udpFrontConn c
    then drop_key gone (match new with Some _ => put_key cur id (px_clientMap p) | None => px_clientMap p end)
    else px_clientMap p).
Proof.
  intros Hc Hs. cbv zeta. unfold setClientAddr. rewrite Hc, Hs.
  destruct p as [at_ ci si cl cm am ca np], c as [cd se sn cc caddr aa fr]. simpl in *.
  destruct gone as [[? ?]|], new as [[? ?]|], cur as [[? ?]|], fr, at_; done.
Qed.

Lemma setAuthedAddr_spec p id c old new cur gone :
  px_clients p !! id = Some c -> swap_ptr (cs_authedAddr c) old new = (cur, gone) ->
  let p' := setAuthedAddr p id old new in
  px_attachable p' = px_attachable p /\ px_clientID p' = px_clientID p /\ px_serverID p' = px_serverID p /\
  px_clients p' = <[id := with_authedAddr cur c]> (px_clients p) /\
  px_clientMap p' = px_clientMap p /\
  px_authedMap p' = (if px_attachable p && cs_udpFrontConn c
    then drop_key gone (match new with Some _ => put_key cur id (px_authedMap p) | None => px_authedMap p end)
    else px_authedMap p).
Proof.
  intros Hc Hs. cbv zeta. unfold setAuthedAddr. rewrite Hc, Hs.
  destruct p as [at_ ci si cl cm am ca np], c as [cd se sn cc caddr aa fr]. simpl in *.
  destruct gone as [[? ?]|], new as [[? ?]|], cur as [[? ?]|], fr, at_; done.
Qed.

Lemma swap_ptr_clear (cur old : option aptr) :
  (swap_ptr cur old None = (None, cur)) \/ swap_ptr cur old None = (cur, None).
Proof.
  unfold swap_ptr. destruct old; [|by left]. destruct (decide _) as [->|]; [by left | by right].
Qed.

(** Replacing a client's record without touching its addresses. *)
Lemma proxy_wf_set_client p id c c' :
  proxy_wf p -> px_clients p !! id = Some c ->
  cs_clientAddr c' = cs_clientAddr c -> cs_authedAddr c' = cs_authedAddr c ->
  (cs_udpFrontConn c = true -> cs_udpFrontConn c' = true) ->
  proxy_wf (set_client p id c').
Proof.
  intros [] Hc Ha Hu Hf.
  assert (Hcl : forall a j, client_at (set_client p id c') a j -> client_at p a j).
  { intros a j (x & q & Hx & Hq). simpl in Hx. destruct (decide (j = id)) as [->|Hne].
    - rewrite lookup_insert_eq in Hx. simplify_eq. exists c, q. by rewrite <- Ha.
    - rewrite lookup_insert_ne in Hx by done. by exists x, q. }
  assert (Hau : forall a j, authed_at (set_client p id c') a j -> authed_at p a j).
  { intros a j (x & q & Hx & Hq). simpl in Hx. destruct (decide (j = id)) as [->|Hne].
    - rewrite lookup_insert_eq in Hx. simplify_eq. exists c, q. by rewrite <- Hu.
    - rewrite lookup_insert_ne in Hx by done. by exists x, q. }
  constructor; simpl; eauto; [|naive_solver].
  intros j x Hx Hor. destruct (decide (j = id)) as [->|Hne].
  - rewrite lookup_insert_eq in Hx. simplify_eq. apply Hf. eapply wf_front0; [done|]. by rewrite <- Ha, <- Hu.
  - rewrite lookup_insert_ne in Hx by done. eauto.
Qed.

(** A client whose record has no address can be added. *)
Lemma proxy_wf_new_client p id :
  proxy_wf p -> px_clients p !! id = None -> proxy_wf (set_client p id newClientState).
Proof.
  intros [] Hn.
  assert (Hcl : forall a j, client_at (set_client p id newClientState) a j -> client_at p a j).
  { intros a j (x & q & Hx & Hq). simpl in Hx. destruct (decide (j = id)) as [->|Hne].
    - rewrite lookup_insert_eq in Hx. by simplify_eq.
    - rewrite lookup_insert_ne in Hx by done. by exists x, q. }
  assert (Hau : forall a j, authed_at (set_client p id newClientState) a j -> authed_at p a j).
  { intros a j (x & q & Hx & Hq). simpl in Hx. destruct (decide (j = id)) as [->|Hne].
    - rewrite lookup_insert_eq in Hx. by simplify_eq.
    - rewrite lookup_insert_ne in Hx by done. by exists x, q. }
  constructor; simpl; eauto; [|naive_solver].
  intros j x Hx Hor. destruct (decide (j = id)) as [->|Hne].
  - rewrite lookup_insert_eq in Hx. simplify_eq. simpl in Hor. naive_solver.
  - rewrite lookup_insert_ne in Hx by done. eauto.
Qed.

Lemma proxy_wf_clear_client p id old : proxy_wf p -> proxy_wf (setClientAddr p id old None).
Proof.
  intros Hwf. destruct (px_clients p !! id) as [c|] eqn:Hc.
  2:{ unfold setClientAddr. by rewrite Hc. }
  destruct (swap_ptr_clear (cs_clientAddr c) old) as [Hs|Hs];
    destruct (setClientAddr_spec p id c old None _ _ Hc Hs) as (Ha & Hi & Hsv & Hcl & Hm & Hcm);
    set (p' := setClientAddr p id old None) in *; clearbody p'.
  - assert (H1 : forall a j, client_at p' a j -> client_at p a j /\ j <> id).
    { intros a j (x & q & Hx & Hq). rewrite Hcl in Hx. destruct (decide (j = id)) as [->|Hne].
      - rewrite lookup_insert_eq in Hx. by simplify_eq.
      - rewrite lookup_insert_ne in Hx by done. split; [by exists x, q|done]. }
    assert (H2 : forall a j, authed_at p' a j -> authed_at p a j).
    { intros a j (x & q & Hx & Hq). rewrite Hcl in Hx. destruct (decide (j = id)) as [->|Hne].
      - rewrite lookup_insert_eq in Hx. simplify_eq. by exists c, q.
      - rewrite lookup_insert_ne in Hx by done. by exists x, q. }
    constructor; rewrite ?Ha, ?Hi, ?Hm.
    + intros a j [Hat Hne]%H1 Hatt. rewrite Hcm, Hatt.
      pose proof (wf_client _ Hwf _ _ Hat Hatt) as Hl.
      destruct (cs_udpFrontConn c); [|done]. simpl. destruct (cs_clientAddr c) as [[q b]|] eqn:Hb; [|done].
      simpl. rewrite lookup_delete_ne; [done|]. intros ->. apply Hne. symmetry.
      eapply (client_at_unique p); [done| |done]. by exists c, q.
    + intros a j Hat%H2. by apply wf_authed.
    + intros a i j [Hi1 _]%H1 Hj%H2. by eapply (wf_excl p).
    + intros j x Hx Hor. rewrite Hcl in Hx. destruct (decide (j = id)) as [->|Hne].
      * rewrite lookup_insert_eq in Hx. simplify_eq. change (cs_udpFrontConn c = true).
        apply (wf_front p Hwf id c Hc). simpl in Hor. naive_solver.
      * rewrite lookup_insert_ne in Hx by done. by eapply (wf_front p Hwf).
    + intros a j Hor. apply (wf_sole p Hwf a). destruct Hor as [[? _]%H1|?%H2]; auto.
  - apply (proxy_wf_view (set_client p id c)).
    + unfold same_view. rewrite Ha, Hi, Hsv, Hcl, Hm, Hcm.
      split_and!; try done; [by destruct c | by destruct (_ && _)].
    + by eapply proxy_wf_set_client.
Qed.

Lemma proxy_wf_clear_authed p id old : proxy_wf p -> proxy_wf (setAuthedAddr p id old None).
Proof.
  intros Hwf. destruct (px_clients p !! id) as [c|] eqn:Hc.
  2:{ unfold setAuthedAddr. by rewrite Hc. }
  destruct (swap_ptr_clear (cs_authedAddr c) old) as [Hs|Hs];
    destruct (setAuthedAddr_spec p id c old None _ _ Hc Hs) as (Ha & Hi & Hsv & Hcl & Hm & Hcm);
    set (p' := setAuthedAddr p id old None) in *; clearbody p'.
  - assert (H1 : forall a j, authed_at p' a j -> authed_at p a j /\ j <> id).
    { intros a j (x & q & Hx & Hq). rewrite Hcl in Hx. destruct (decide (j = id)) as [->|Hne].
      - rewrite lookup_insert_eq in Hx. by simplify_eq.
      - rewrite lookup_insert_ne in Hx by done. split; [by exists x, q|done]. }
    assert (H2 : forall a j, client_at p' a j -> client_at p a j).
    { intros a j (x & q & Hx & Hq). rewrite Hcl in Hx. destruct (decide (j = id)) as [->|Hne].
      - rewrite lookup_insert_eq in Hx. simplify_eq. by exists c, q.
      - rewrite lookup_insert_ne in Hx by done. by exists x, q. }
    constructor; rewrite ?Ha, ?Hi, ?Hm.
    + intros a j Hat%H2. by apply wf_client.
    + intros a j [Hat Hne]%H1 Hatt. rewrite Hcm, Hatt.
      pose proof (wf_authed _ Hwf _ _ Hat Hatt) as Hl.
      destruct (cs_udpFrontConn c); [|done]. simpl. destruct (cs_authedAddr c) as [[q b]|] eqn:Hb; [|done].
      simpl. rewrite lookup_delete_ne; [done|]. intros ->. apply Hne. symmetry.
      eapply (authed_at_unique p); [done| |done]. by exists c, q.
    + intros a i j Hi1%H2 [Hj _]%H1. by eapply (wf_excl p).
    + intros j x Hx Hor. rewrite Hcl in Hx. destruct (decide (j = id)) as [->|Hne].
      * rewrite lookup_insert_eq in Hx. simplify_eq. change (cs_udpFrontConn c = true).
        apply (wf_front p Hwf id c Hc). simpl in Hor. naive_solver.
      * rewrite lookup_insert_ne in Hx by done. by eapply (wf_front p Hwf).
    + intros a j Hor. apply (wf_sole p Hwf a). destruct Hor as [?%H2|[? _]%H1]; auto.
  - apply (proxy_wf_view (set_client p id c)).
    + unfold same_view. rewrite Ha, Hi, Hsv, Hcl, Hm, Hcm.
      split_and!; try done; [by destruct c | by destruct (_ && _)].
    + by eapply proxy_wf_set_client.
Qed.

Definition unknown_addr (p : serverProxy) (a : addr) : Prop :=
  forall id, ~ client_at p a id /\ ~ authed_at p a id.

(** Authenticating a new address. *)
Lemma proxy_wf_new_authed p id c q a :
  proxy_wf p -> px_clients p !! id = Some c -> cs_udpFrontConn c = true -> unknown_addr p a ->
  (px_attachable p = false -> id = px_clientID p) ->
  proxy_wf (setAuthedAddr p id None (Some (q, a))).
Proof.
  intros Hwf Hc Hf Hun Hsole.
  destruct (setAuthedAddr_spec p id c None (Some (q, a)) _ _ Hc eq_refl) as (Ha & Hi & _ & Hcl & Hm & Hcm).
  set (p' := setAuthedAddr p id None (Some (q, a))) in *. clearbody p'.
  assert (H1 : forall b j, authed_at p' b j -> (j = id /\ b = a) \/ (authed_at p b j /\ j <> id)).
  { intros b j (x & r & Hx & Hr). rewrite Hcl in Hx. destruct (decide (j = id)) as [->|Hne].
    - rewrite lookup_insert_eq in Hx. simplify_eq. left. split; [done|]. by simplify_eq/=.
    - rewrite lookup_insert_ne in Hx by done. right. split; [by exists x, r|done]. }
  assert (H2 : forall b j, client_at p' b j -> client_at p b j).
  { intros b j (x & r & Hx & Hr). rewrite Hcl in Hx. destruct (decide (j = id)) as [->|Hne].
    - rewrite lookup_insert_eq in Hx. simplify_eq. by exists c, r.
    - rewrite lookup_insert_ne in Hx by done. by exists x, r. }
  assert (Hold : forall r b, cs_authedAddr c = Some (r, b) -> authed_at p b id) by (intros r b ?; by exists c, r).
  constructor; rewrite ?Ha, ?Hi, ?Hm.
  - intros b j Hat%H2. by apply wf_client.
  - intros b j Hor%H1 Hatt. rewrite Hcm, Hatt, Hf. simpl.
    assert (Hput : <[a := id]> (px_authedMap p) !! b = Some j).
    { destruct Hor as [[-> ->]|[Hat _]]; [apply lookup_insert_eq|].
      rewrite lookup_insert_ne; [by apply wf_authed|]. intros ->. by destruct (Hun j). }
    destruct (cs_authedAddr c) as [[r b']|] eqn:Hb; [|done]. simpl.
    rewrite lookup_delete_ne; [done|]. intros ->. destruct Hor as [[-> ->]|[Hat Hne]].
    + destruct (Hun id) as [_ []]. by apply (Hold r).
    + apply Hne. eapply (authed_at_unique p); eauto.
  - intros b i j Hi1%H2 [[-> ->]|[Hj _]]%H1; [by destruct (Hun i)|by eapply (wf_excl p)].
  - intros j x Hx Hor. rewrite Hcl in Hx. destruct (decide (j = id)) as [->|Hne].
    + rewrite lookup_insert_eq in Hx. by simplify_eq.
    + rewrite lookup_insert_ne in Hx by done. by eapply (wf_front p Hwf).
  - intros b j [?%H2|[[-> ->]|[? _]]%H1] Hatt; eauto using wf_sole.
Qed.

(** Promoting the authenticated address of a client to its effective one. *)
Lemma proxy_wf_promote p id c ap a :
  proxy_wf p -> px_clients p !! id = Some c -> cs_authedAddr c = Some (ap, a) ->
  proxy_wf (setAuthedAddr (setClientAddr p id None (Some (ap, a))) id None None).
Proof.
  intros Hwf Hc Hau.
  assert (Hat : authed_at p a id) by (by exists c, ap).
  assert (Hf : cs_udpFrontConn c = true) by (eapply (wf_front p Hwf); [done|]; right; congruence).
  destruct (setClientAddr_spec p id c None (Some (ap, a)) _ _ Hc eq_refl) as (Ha & Hi & _ & Hcl & Hm & Hcm).
  set (p1 := setClientAddr p id None (Some (ap, a))) in *. clearbody p1.
  assert (Hc1 : px_clients p1 !! id = Some (with_clientAddr (Some (ap, a)) c)) by (by rewrite Hcl, lookup_insert_eq).
  destruct (setAuthedAddr_spec p1 id _ None None None (Some (ap, a)) Hc1) as (Ha2 & Hi2 & _ & Hcl2 & Hm2 & Hcm2).
  { simpl. by rewrite Hau. }
  set (p2 := setAuthedAddr p1 id None None) in *. clearbody p2.
  assert (Hcl3 : px_clients p2 = <[id := with_authedAddr None (with_clientAddr (Some (ap, a)) c)]> (px_clients p))
    by (by rewrite Hcl2, Hcl, insert_insert_eq).
  clear Hc1 Hcl2. rewrite Hm in Hcm2. rewrite Ha in *. simpl in Hcm2.
  assert (H1 : forall b j, client_at p2 b j -> (j = id /\ b = a) \/ (client_at p b j /\ j <> id)).
  { intros b j (x & r & Hx & Hr). rewrite Hcl3 in Hx. destruct (decide (j = id)) as [->|Hne].
    - rewrite lookup_insert_eq in Hx. simplify_eq. left. split; [done|]. by simplify_eq/=.
    - rewrite lookup_insert_ne in Hx by done. right. split; [by exists x, r|done]. }
  assert (H2 : forall b j, authed_at p2 b j -> authed_at p b j /\ j <> id).
  { intros b j (x & r & Hx & Hr). rewrite Hcl3 in Hx. destruct (decide (j = id)) as [->|Hne].
    - rewrite lookup_insert_eq in Hx. by simplify_eq.
    - rewrite lookup_insert_ne in Hx by done. split; [by exists x, r|done]. }
  constructor; rewrite ?Ha2, ?Hi2, ?Hi.
  - intros b j Hor%H1 Hatt. rewrite Hm2, Hcm, Hatt, Hf. simpl.
    assert (Hput : <[a := id]> (px_clientMap p) !! b = Some j).
    { destruct Hor as [[-> ->]|[Hcat _]]; [apply lookup_insert_eq|].
      rewrite lookup_insert_ne; [by apply wf_client|]. intros ->. by eapply (wf_excl p). }
    destruct (cs_clientAddr c) as [[r b']|] eqn:Hb; [|done]. simpl.
    assert (client_at p b' id) by (by exists c, r).
    rewrite lookup_delete_ne; [done|]. intros ->. destruct Hor as [[-> ->]|[Hcat Hne]].
    + by eapply (wf_excl p).
    + apply Hne. by eapply (client_at_unique p).
  - intros b j [Hb Hne]%H2 Hatt. rewrite Hcm2, Hatt, Hf. simpl.
    rewrite lookup_delete_ne; [by apply wf_authed|]. intros ->. apply Hne. by eapply (authed_at_unique p).
  - intros b i j [[-> ->]|[Hcat _]]%H1 [Hb Hne]%H2; [|by eapply (wf_excl p)].
    apply Hne. by eapply (authed_at_unique p).
  - intros j x Hx Hor. rewrite Hcl3 in Hx. destruct (decide (j = id)) as [->|Hne].
    + rewrite lookup_insert_eq in Hx. by simplify_eq.
    + rewrite lookup_insert_ne in Hx by done. by eapply (wf_front p Hwf).
  - intros b j [[[-> ->]|[? _]]%H1|[? _]%H2] Hatt; eauto using wf_sole.
Qed.

Lemma proxy_wf_getClient p id p' c :
  proxy_wf p -> getClient p id = (p', c) ->
  proxy_wf p' /\ px_clients p' !! id = Some c /\ px_attachable p' = px_attachable p /\
  px_clientID p' = px_clientID p /\ px_serverID p' = px_serverID p /\
  (forall a, unknown_addr p a -> unknown_addr p' a) /\
  (forall j, j <> id -> px_clients p' !! j = px_clients p !! j).
Proof.
  intros Hwf. unfold getClient. destruct (px_clients p !! id) as [x|] eqn:Hx.
  - intros [= <- <-]. by split_and!.
  - intros [= <- <-]. split_and!; try done.
    + by apply proxy_wf_new_client.
    + simpl. apply lookup_insert_eq.
    + intros a Hun j. destruct (decide (j = id)) as [->|Hne].
      * split; intros (c & q & Hc & Hq); simpl in Hc; rewrite lookup_insert_eq in Hc; by simplify_eq.
      * destruct (Hun j) as [H1 H2].
        split; intros (c & q & Hc & Hq); simpl in Hc; rewrite lookup_insert_ne in Hc by done;
          [apply H1|apply H2]; by exists c, q.
    + intros j Hne. simpl. by rewrite lookup_insert_ne.
Qed.

(** ** Every step *)

Definition serialOf (p : serverProxy) (id : Z) : Z :=
  match px_clients p !! id with Some c => cs_serialNumber c | None => 0 end.

(** [p'] has no address that [p] does not have. *)
Definition no_new_addr (p p' : serverProxy) : Prop :=
  (forall a j, client_at p' a j -> client_at p a j) /\ (forall a j, authed_at p' a j -> authed_at p a j).

Definition same_config (p p' : serverProxy) : Prop :=
  px_attachable p' = px_attachable p /\ px_clientID p' = px_clientID p /\ px_serverID p' = px_serverID p.

(** An update of one client's record that keeps or clears its addresses and
    does not decrease its serial number. *)
Lemma step_set_client p p' id c c' :
  px_clients p !! id = Some c -> px_clients p' = <[id := c']> (px_clients p) ->
  (forall q a, cs_clientAddr c' = Some (q, a) -> cs_clientAddr c = Some (q, a)) ->
  (forall q a, cs_authedAddr c' = Some (q, a) -> cs_authedAddr c = Some (q, a)) ->
  cs_serialNumber c <= cs_serialNumber c' ->
  no_new_addr p p' /\ (forall j, serialOf p j <= serialOf p' j).
Proof.
  intros Hc Hcl Ha Hu Hs. split_and!.
  - split; intros a j (x & q & Hx & Hq); rewrite Hcl in Hx; (destruct (decide (j = id)) as [->|Hne];
      [rewrite lookup_insert_eq in Hx; simplify_eq; exists c, q; eauto
      |rewrite lookup_insert_ne in Hx by done; by exists x, q]).
  - intros j. unfold serialOf. rewrite Hcl. destruct (decide (j = id)) as [->|Hne].
    + by rewrite lookup_insert_eq, Hc.
    + rewrite lookup_insert_ne by done. lia.
Qed.

Lemma step_clear_client p id old :
  no_new_addr p (setClientAddr p id old None) /\ (forall j, serialOf (setClientAddr p id old None) j = serialOf p j) /\
  same_config p (setClientAddr p id old None).
Proof.
  destruct (px_clients p !! id) as [c|] eqn:Hc.
  2:{ unfold setClientAddr. rewrite Hc. by split_and!. }
  destruct (swap_ptr_clear (cs_clientAddr c) old) as [Hs|Hs];
    destruct (setClientAddr_spec p id c old None _ _ Hc Hs) as (Ha & Hi & Hsv & Hcl & _);
    (destruct (step_set_client p _ id c _ Hc Hcl) as [Hn _]; [done..|]); (split; [done|]);
    (split; [|done]); intros j; unfold serialOf; rewrite Hcl;
    (destruct (decide (j = id)) as [->|Hne]; [by rewrite lookup_insert_eq, Hc|by rewrite lookup_insert_ne]).
Qed.

Lemma step_clear_authed p id old :
  no_new_addr p (setAuthedAddr p id old None) /\ (forall j, serialOf (setAuthedAddr p id old None) j = serialOf p j) /\
  same_config p (setAuthedAddr p id old None).
Proof.
  destruct (px_clients p !! id) as [c|] eqn:Hc.
  2:{ unfold setAuthedAddr. rewrite Hc. by split_and!. }
  destruct (swap_ptr_clear (cs_authedAddr c) old) as [Hs|Hs];
    destruct (setAuthedAddr_spec p id c old None _ _ Hc Hs) as (Ha & Hi & Hsv & Hcl & _);
    (destruct (step_set_client p _ id c _ Hc Hcl) as [Hn _]; [done..|]); (split; [done|]);
    (split; [|done]); intros j; unfold serialOf; rewrite Hcl;
    (destruct (decide (j = id)) as [->|Hne]; [by rewrite lookup_insert_eq, Hc|by rewrite lookup_insert_ne]).
Qed.

(** A "quiet" step keeps the invariant and the configuration, adds no address
    and decreases no serial number. *)
Definition quiet (p p' : serverProxy) : Prop :=
  (proxy_wf p -> proxy_wf p') /\ no_new_addr p p' /\ (forall j, serialOf p j <= serialOf p' j) /\
  same_config p p'.

Lemma quiet_refl p : quiet p p.
Proof. split_and!; try done. Qed.

Lemma quiet_trans p q r : quiet p q -> quiet q r -> quiet p r.
Proof.
  intros (W1 & [C1 A1] & S1 & (X1 & Y1 & Z1)) (W2 & [C2 A2] & S2 & (X2 & Y2 & Z2)).
  split_and!; [auto|split; auto| |split_and!; congruence].
  intros j. specialize (S1 j). specialize (S2 j). lia.
Qed.

Lemma quiet_clear_client p id old : quiet p (setClientAddr p id old None).
Proof.
  destruct (step_clear_client p id old) as (? & Hs & ?). split_and!; auto using proxy_wf_clear_client.
  intros j. rewrite Hs. lia.
Qed.

Lemma quiet_clear_authed p id old : quiet p (setAuthedAddr p id old None).
Proof.
  destruct (step_clear_authed p id old) as (? & Hs & ?). split_and!; auto using proxy_wf_clear_authed.
  intros j. rewrite Hs. lia.
Qed.

Lemma quiet_set_client p id c c' :
  px_clients p !! id = Some c ->
  cs_clientAddr c' = cs_clientAddr c -> cs_authedAddr c' = cs_authedAddr c ->
  (cs_udpFrontConn c = true -> cs_udpFrontConn c' = true) -> cs_serialNumber c <= cs_serialNumber c' ->
  quiet p (set_client p id c').
Proof.
  intros Hc Ha Hu Hf Hs. destruct (step_set_client p (set_client p id c') id c c' Hc eq_refl) as [Hn Hse];
    [intros ? ?; by rewrite Ha|intros ? ?; by rewrite Hu|done|].
  refine (conj _ (conj Hn (conj Hse _))); [|done]. intros ?. by eapply proxy_wf_set_client.
Qed.

Lemma quiet_conn p id old new : quiet p (fst (setClientConn p id old new)).
Proof.
  unfold setClientConn. destruct (px_clients p !! id) as [c|] eqn:Hc; [|apply quiet_refl].
  destruct (swap_ptr _ _ _) as [cur gone]. by apply (quiet_set_client p id c).
Qed.

Lemma quiet_view p p' : same_view p p' -> quiet p p'.
Proof.
  intros Hv. pose proof (proxy_wf_view p p' Hv). destruct Hv as (Ha & Hi & Hs & Hc & _).
  refine (conj _ (conj _ (conj _ _))); [done| | |done].
  - split; intros a j; unfold client_at, authed_at; by rewrite Hc.
  - intros j. unfold serialOf. rewrite Hc. lia.
Qed.

Lemma quiet_clearTransport p id oa oc cn : quiet p (clearTransport p id oa oc cn).
Proof.
  unfold clearTransport. eapply quiet_trans; [apply quiet_clear_authed|].
  eapply quiet_trans; [apply quiet_clear_client|]. apply quiet_conn.
Qed.

Lemma modify_client_eq p id c f :
  px_clients p !! id = Some c -> modify_client p id f = set_client p id (f c).
Proof. unfold modify_client. by intros ->. Qed.

Lemma quiet_Close p id : quiet p (client_Close p id).
Proof.
  unfold client_Close. destruct (px_clients p !! id) as [c|] eqn:Hc; [|apply quiet_refl].
  destruct (cs_closed c); [apply quiet_refl|].
  rewrite (modify_client_eq p id c) by done. set (p1 := set_client p id (with_closed c)).
  assert (Hq1 : quiet p p1) by (by apply (quiet_set_client p id c)).
  assert (Hc1 : px_clients p1 !! id = Some (with_closed c)) by (simpl; apply lookup_insert_eq).
  pose proof (quiet_conn p1 id None None) as Hq2. unfold setClientConn in *. rewrite Hc1 in *.
  simpl swap_ptr in *. cbn [fst] in Hq2. set (p2 := set_client p1 id _) in *.
  assert (exists c2, px_clients p2 !! id = Some c2) as [c2 Hc2] by (simpl; rewrite lookup_insert_eq; eauto).
  destruct (setClientAddr_spec p2 id c2 None None _ _ Hc2 eq_refl) as (_ & _ & _ & Hcl3 & _).
  pose proof (quiet_clear_client p2 id None) as Hq3. set (p3 := setClientAddr p2 id None None) in *.
  assert (Hc3 : px_clients p3 !! id = Some (with_clientAddr None c2)) by (by rewrite Hcl3, lookup_insert_eq).
  destruct (setAuthedAddr_spec p3 id _ None None _ _ Hc3 eq_refl) as (_ & _ & _ & Hcl4 & _).
  pose proof (quiet_clear_authed p3 id None) as Hq4. set (p4 := setAuthedAddr p3 id None None) in *.
  set (c4 := with_authedAddr None (with_clientAddr None c2)) in *.
  assert (Hc4 : px_clients p4 !! id = Some c4) by (by rewrite Hcl4, lookup_insert_eq).
  rewrite (modify_client_eq p4 id c4) by done.
  assert (Hq5 : quiet p4 (set_client p4 id (with_front false c4))).
  { destruct (step_set_client p4 (set_client p4 id (with_front false c4)) id c4 _ Hc4 eq_refl) as [Hn Hs]; [done..|].
    refine (conj _ (conj Hn (conj Hs _))); [|done]. intros Hwf4. pose proof Hwf4 as [].
    destruct Hn as [Hn1 Hn2]. constructor; simpl; eauto; [|naive_solver].
    intros j x Hx Hor. destruct (decide (j = id)) as [->|Hne].
    - rewrite lookup_insert_eq in Hx. simplify_eq. simpl in Hor. naive_solver.
    - rewrite lookup_insert_ne in Hx by done. eauto. }
  eauto using quiet_trans.
Qed.

Section Steps.
Context `{Crypto}.

(** Every step of the frontend: the invariant, the configuration and the
    serial numbers are kept, an effective address was effective or waiting
    before, and a waiting address was waiting or has just been authenticated
    with a newer serial number. *)
Definition front_progress (k : key) (p p' : serverProxy) (e : front_event) : Prop :=
  proxy_wf p' /\ same_config p p' /\ (forall j, serialOf p j <= serialOf p' j) /\
  (forall a j, client_at p' a j -> client_at p a j \/ authed_at p a j) /\
  (forall a j, authed_at p' a j -> authed_at p a j \/
     exists nonce pkt s, e = Datagram nonce a pkt /\ openAuthPacket k p pkt = Some (j, s) /\ serialOf p j < s).

Lemma quiet_progress k p p' e : proxy_wf p -> quiet p p' -> front_progress k p p' e.
Proof.
  intros Hwf (Hw & [Hc Ha] & Hs & Hcfg). split_and!; auto; apply Hcfg.
Qed.

Lemma openAuthPacket_config k p p' pkt :
  same_config p p' -> openAuthPacket k p' pkt = openAuthPacket k p pkt.
Proof. intros (Ha & Hi & _). unfold openAuthPacket. by rewrite Ha, Hi. Qed.

Lemma openAuthPacket_sole k p pkt id s :
  openAuthPacket k p pkt = Some (id, s) -> px_attachable p = false -> id = px_clientID p.
Proof.
  unfold openAuthPacket. intros Ho Hatt. rewrite Hatt in Ho.
  destruct (aesDecrypt k pkt) as [data|]; [|done]. destruct (negb (length data =? 16)%nat); [done|].
  simpl in Ho. destruct (Z.eqb_spec (be_get (take 8 data)) (px_clientID p)); simplify_eq/=. done.
Qed.

(** The packet that makes a waiting address effective. *)
Lemma progress_promote k p id c ap a e :
  proxy_wf p -> px_clients p !! id = Some c -> cs_authedAddr c = Some (ap, a) ->
  front_progress k p (setAuthedAddr (setClientAddr p id None (Some (ap, a))) id None None) e.
Proof.
  intros Hwf Hc Hau.
  destruct (setClientAddr_spec p id c None (Some (ap, a)) _ _ Hc eq_refl) as (Ha1 & Hi1 & Hs1 & Hcl1 & _).
  set (p1 := setClientAddr p id None (Some (ap, a))) in *.
  assert (Hc1 : px_clients p1 !! id = Some (with_clientAddr (Some (ap, a)) c)) by (by rewrite Hcl1, lookup_insert_eq).
  destruct (setAuthedAddr_spec p1 id _ None None None (Some (ap, a)) Hc1) as (Ha2 & Hi2 & Hs2 & Hcl2 & _);
    [simpl; by rewrite Hau|].
  rewrite Hcl1, insert_insert_eq in Hcl2.
  split; [by eapply proxy_wf_promote|]. set (p2 := setAuthedAddr p1 id None None) in *. clearbody p1 p2.
  split; [split_and!; congruence|].
  split_and!.
  - intros j. unfold serialOf. rewrite Hcl2. destruct (decide (j = id)) as [->|Hne].
    + rewrite lookup_insert_eq, Hc. simpl. lia.
    + rewrite lookup_insert_ne by done. lia.
  - intros b j (x & r & Hx & Hr). rewrite Hcl2 in Hx. destruct (decide (j = id)) as [->|Hne].
    + rewrite lookup_insert_eq in Hx. simplify_eq/=. right. by exists c, r.
    + rewrite lookup_insert_ne in Hx by done. left. by exists x, r.
  - intros b j (x & r & Hx & Hr). rewrite Hcl2 in Hx. destruct (decide (j = id)) as [->|Hne].
    + rewrite lookup_insert_eq in Hx. by simplify_eq/=.
    + rewrite lookup_insert_ne in Hx by done. left. by exists x, r.
Qed.

(** The packet that authenticates a new address. *)
Lemma progress_auth k p id c q a nonce pkt s :
  proxy_wf p -> px_clients p !! id = Some c -> cs_udpFrontConn c = true -> unknown_addr p a ->
  openAuthPacket k p pkt = Some (id, s) -> cs_serialNumber c < s ->
  front_progress k p (setAuthedAddr (set_client p id (with_serial s c)) id None (Some (q, a)))
    (Datagram nonce a pkt).
Proof.
  intros Hwf Hc Hf Hun Ho Hs.
  set (p1 := set_client p id (with_serial s c)).
  assert (Hc1 : px_clients p1 !! id = Some (with_serial s c)) by (simpl; apply lookup_insert_eq).
  assert (Hq1 : quiet p p1) by (apply (quiet_set_client p id c); simpl; try done; lia).
  assert (Hwf1 : proxy_wf p1) by (by apply Hq1).
  assert (Hun1 : unknown_addr p1 a).
  { intros j. destruct Hq1 as (_ & [Hn1 Hn2] & _). destruct (Hun j). split; auto. }
  destruct (setAuthedAddr_spec p1 id _ None (Some (q, a)) _ _ Hc1 eq_refl) as (Ha2 & Hi2 & Hs2 & Hcl2 & _).
  simpl in Hcl2. rewrite insert_insert_eq in Hcl2.
  split; [eapply proxy_wf_new_authed; [done..|]; intros; by eapply openAuthPacket_sole|].
  set (p2 := setAuthedAddr p1 id None (Some (q, a))) in *. clearbody p2.
  split; [done|]. split_and!.
  - intros j. unfold serialOf. rewrite Hcl2. destruct (decide (j = id)) as [->|Hne].
    + rewrite lookup_insert_eq, Hc. simpl. lia.
    + rewrite lookup_insert_ne by done. lia.
  - intros b j (x & r & Hx & Hr). rewrite Hcl2 in Hx. destruct (decide (j = id)) as [->|Hne].
    + rewrite lookup_insert_eq in Hx. simplify_eq/=. left. by exists c, r.
    + rewrite lookup_insert_ne in Hx by done. left. by exists x, r.
  - intros b j (x & r & Hx & Hr). rewrite Hcl2 in Hx. destruct (decide (j = id)) as [->|Hne].
    + rewrite lookup_insert_eq in Hx. simplify_eq/=. right. exists nonce, pkt, s.
      split_and!; [done..|]. unfold serialOf. by rewrite Hc.
    + rewrite lookup_insert_ne in Hx by done. left. by exists x, r.
Qed.

(** A quiet prefix before a progressing step. *)
Lemma progress_after_quiet k p q p' e :
  quiet p q -> (forall j, serialOf q j = serialOf p j) -> front_progress k q p' e -> front_progress k p p' e.
Proof.
  intros (_ & [Hc Ha] & _ & Hcfg) Hser (Hwf & Hcfg2 & Hs & Hca & Hau).
  split; [done|]. split; [destruct Hcfg as (? & ? & ?), Hcfg2 as (? & ? & ?); split_and!; congruence|].
  split_and!.
  - intros j. rewrite <- Hser. apply Hs.
  - intros a j [?|?]%Hca; auto.
  - intros a j [?|(nonce & pkt & s & -> & Ho & Hlt)]%Hau; [auto|]. right. exists nonce, pkt, s.
    split_and!; [done| |by rewrite <- Hser]. by rewrite <- (openAuthPacket_config k p q).
Qed.

Lemma serialOf_set_client p id c c' :
  px_clients p !! id = Some c -> cs_serialNumber c' = cs_serialNumber c ->
  forall j, serialOf (set_client p id c') j = serialOf p j.
Proof.
  intros Hc Hs j. unfold serialOf. simpl. destruct (decide (j = id)) as [->|Hne].
  - by rewrite lookup_insert_eq, Hc.
  - by rewrite lookup_insert_ne.
Qed.

Lemma quiet_getClient p id p' c :
  proxy_wf p -> getClient p id = (p', c) -> quiet p p' /\ forall j, serialOf p' j = serialOf p j.
Proof.
  intros Hwf Hg. pose proof (proxy_wf_getClient p id p' c Hwf Hg) as (Hwf' & _).
  unfold getClient in Hg. destruct (px_clients p !! id) as [x|] eqn:Hx; simplify_eq.
  { split; [apply quiet_refl|done]. }
  assert (Hser : forall j, serialOf (set_client p id newClientState) j = serialOf p j).
  { intros j. unfold serialOf. simpl. destruct (decide (j = id)) as [->|Hne].
    - by rewrite lookup_insert_eq, Hx.
    - by rewrite lookup_insert_ne. }
  split; [|done]. refine (conj (fun _ => Hwf') (conj _ (conj _ _))); [|intros j; change (serialOf p j <= serialOf (set_client p id newClientState) j); rewrite Hser; lia|done].
  split; intros b j (y & r & Hy & Hr); simpl in Hy; (destruct (decide (j = id)) as [->|Hne];
    [rewrite lookup_insert_eq in Hy; by simplify_eq|rewrite lookup_insert_ne in Hy by done; by exists y, r]).
Qed.

Lemma readFrom_progress k p nonce a pkt :
  proxy_wf p -> front_progress k p (fst (readFrom_step k p nonce a pkt)) (Datagram nonce a pkt).
Proof.
  intros Hwf. unfold readFrom_step. destruct (front_getClient p a) as [p1 cls] eqn:Hg.
  destruct (front_getClient_ok p a p1 cls Hwf Hg) as [Hv Hcls].
  pose proof (quiet_view p p1 Hv) as Hq1. assert (Hwf1 : proxy_wf p1) by (by apply Hq1).
  assert (Hser1 : forall j, serialOf p1 j = serialOf p j).
  { intros j. unfold serialOf. by destruct Hv as (_ & _ & _ & -> & _). }
  destruct cls as [id|id|].
  - simpl. by apply quiet_progress.
  - destruct (openAuthPacket k p1 pkt) as [[clientID s]|].
    + destruct (negb (clientID =? id)).
      { apply quiet_progress; [done|]. eapply quiet_trans; [done|apply quiet_clear_authed]. }
      destruct (px_clients p1 !! id) as [c|] eqn:Hc; [|by apply quiet_progress].
      destruct (Z.ltb_spec s (cs_serialNumber c)); [by apply quiet_progress|].
      apply quiet_progress; [done|]. eapply quiet_trans; [done|].
      apply (quiet_set_client p1 id c); simpl; try done; lia.
    + destruct (px_clients p1 !! id) as [c|] eqn:Hc; [|by apply quiet_progress].
      simpl. destruct (cs_authedAddr c) as [[ap b]|] eqn:Hau; [|by apply quiet_progress].
      eapply progress_after_quiet; [done..|]. by eapply progress_promote.
  - assert (Hun1 : unknown_addr p1 a).
    { intros j. destruct Hq1 as (_ & [Hn1 Hn2] & _). destruct (Hcls j). split; auto. }
    destruct (openAuthPacket k p1 pkt) as [[clientID s]|] eqn:Ho; [|by apply quiet_progress].
    destruct (getClient p1 clientID) as [p2 c] eqn:Hgc.
    destruct (proxy_wf_getClient p1 clientID p2 c Hwf1 Hgc) as (Hwf2 & Hc2 & Ha2 & Hi2 & Hs2 & Hun2 & Hoth).
    destruct (quiet_getClient p1 clientID p2 c Hwf1 Hgc) as [Hq2 Hser2].
    destruct (cs_closed c); [apply quiet_progress; [done|]; by eapply quiet_trans|].
    set (p3 := set_client p2 clientID (with_front true c)).
    assert (Hc3 : px_clients p3 !! clientID = Some (with_front true c)) by (simpl; apply lookup_insert_eq).
    assert (Hq3 : quiet p2 p3) by (by apply (quiet_set_client p2 clientID c)).
    assert (Hser3 : forall j, serialOf p3 j = serialOf p2 j) by (by apply serialOf_set_client with c).
    destruct (Z.leb_spec s (cs_serialNumber c)).
    { apply quiet_progress; [done|]. eauto using quiet_trans. }
    rewrite (modify_client_eq p3 clientID (with_front true c)) by done.
    set (p4 := fst (alloc_addr p3 a)).
    assert (Hq4 : quiet p3 p4) by (by apply quiet_view).
    apply (progress_after_quiet k p p4); [eauto using quiet_trans| |].
    { intros j. change (serialOf p4 j) with (serialOf p3 j). by rewrite Hser3, Hser2, Hser1. }
    apply (progress_auth k p4 clientID (with_front true c)).
    + apply Hq4, Hq3, Hwf2.
    + done.
    + done.
    + intros j. destruct (Hun2 a Hun1 j), Hq3 as (_ & [Hn1 Hn2] & _). split; auto.
    + rewrite (openAuthPacket_config k p1 p4); [done|]. by split_and!.
    + simpl. lia.
Qed.

Lemma front_step_progress k p e : proxy_wf p -> front_progress k p (fst (front_step k p e)) e.
Proof.
  intros Hwf. destruct e as [nonce a pkt|id|id oa oc cn]; cbn [front_step].
  - by apply readFrom_progress.
  - apply quiet_progress; [done|]. apply quiet_Close.
  - apply quiet_progress; [done|]. apply quiet_clearTransport.
Qed.

End Steps.

Section Properties.
Context `{CryptoOk}.

Definition state_after (k : key) (p : serverProxy) (es : list front_event) : serverProxy :=
  fst (front_run k p es).

Lemma state_after_snoc k p es e :
  state_after k p (es ++ [e]) = fst (front_step k (state_after k p es) e).
Proof.
  revert p. unfold state_after. induction es as [|x es IH]; intros p; cbn [app front_run].
  - cbn [fst]. by destruct (front_step k p e) as [p1 o].
  - destruct (front_step k p x) as [p1 o]. specialize (IH p1).
    destruct (front_run k p1 (es ++ [e])) as [p2 os], (front_run k p1 es) as [p3 os3]. done.
Qed.

Lemma newServerProxy_wf att ci si : proxy_wf (newServerProxy att ci si).
Proof.
  assert (forall id c, px_clients (newServerProxy att ci si) !! id = Some c -> c = newClientState) as Hc.
  { intros id c. simpl. destruct att; [done|]. by intros [_ <-]%lookup_singleton_Some. }
  assert (forall a id, ~ client_at (newServerProxy att ci si) a id) as Hn1.
  { intros a id (c & q & Hx%Hc & Hq). by subst. }
  assert (forall a id, ~ authed_at (newServerProxy att ci si) a id) as Hn2.
  { intros a id (c & q & Hx%Hc & Hq). by subst. }
  constructor; naive_solver.
Qed.

Lemma same_config_trans p q r : same_config p q -> same_config q r -> same_config p r.
Proof. intros (? & ? & ?) (? & ? & ?). split_and!; congruence. Qed.

Lemma state_after_wf k att ci si es :
  proxy_wf (state_after k (newServerProxy att ci si) es) /\
  same_config (newServerProxy att ci si) (state_after k (newServerProxy att ci si) es).
Proof.
  induction es as [|e es [Hwf Hcfg]] using rev_ind.
  - split; [apply newServerProxy_wf|done].
  - rewrite state_after_snoc. destruct (front_step_progress k _ e Hwf) as (? & ? & _).
    split; [done|]. by eapply same_config_trans.
Qed.

(** The address was authenticated for the client by a packet of the run whose
    serial number was new at that time. *)
Definition authenticated_in (k : key) (p0 : serverProxy) (es : list front_event) (a : addr) (id : Z) : Prop :=
  exists es1 es2 nonce pkt s, es = es1 ++ Datagram nonce a pkt :: es2 /\
    openAuthPacket k p0 pkt = Some (id, s) /\ serialOf (state_after k p0 es1) id < s.

Lemma authenticated_snoc k p0 es e a id :
  authenticated_in k p0 es a id -> authenticated_in k p0 (es ++ [e]) a id.
Proof.
  intros (es1 & es2 & nonce & pkt & s & -> & Ho & Hs). exists es1, (es2 ++ [e]), nonce, pkt, s.
  split_and!; [|done..]. by rewrite <- app_assoc.
Qed.

Lemma addresses_authenticated k att ci si es a id :
  let p0 := newServerProxy att ci si in
  client_at (state_after k p0 es) a id \/ authed_at (state_after k p0 es) a id ->
  authenticated_in k p0 es a id.
Proof.
  intros p0. revert a id. induction es as [|e es IH] using rev_ind; intros a id.
  - intros [(c & q & Hx & Hq)|(c & q & Hx & Hq)]; unfold state_after in Hx; simpl in Hx;
      (destruct att; [done|apply lookup_singleton_Some in Hx as [_ <-]; done]).
  - rewrite state_after_snoc. destruct (state_after_wf k att ci si es) as [Hwf Hcfg].
    destruct (front_step_progress k _ e Hwf) as (_ & _ & _ & Hca & Hau).
    intros [[?|?]%Hca|[?|(nonce & pkt & s & -> & Ho & Hlt)]%Hau]; try (apply authenticated_snoc; by auto).
    exists es, [], nonce, pkt, s. split_and!; [done| |done].
    by rewrite <- (openAuthPacket_config k p0 _ pkt Hcfg).
Qed.

(** Which address class the frontend finds for an address of a client. *)
Lemma front_getClient_authed p a id :
  proxy_wf p -> authed_at p a id -> exists p', front_getClient p a = (p', IsAuthedAddr id) /\ same_view p p'.
Proof.
  intros Hwf Hat. destruct (front_getClient p a) as [p' cls] eqn:Hg.
  destruct (front_getClient_ok p a p' cls Hwf Hg) as [Hv Hcls]. exists p'. split; [|done]. f_equal.
  destruct cls as [j|j|]; simpl in Hcls.
  - exfalso. by eapply (wf_excl p).
  - f_equal. by eapply authed_at_unique.
  - by destruct (Hcls id).
Qed.

Lemma front_getClient_client p a id :
  proxy_wf p -> client_at p a id -> exists p', front_getClient p a = (p', IsClientAddr id) /\ same_view p p'.
Proof.
  intros Hwf Hat. destruct (front_getClient p a) as [p' cls] eqn:Hg.
  destruct (front_getClient_ok p a p' cls Hwf Hg) as [Hv Hcls]. exists p'. split; [|done]. f_equal.
  destruct cls as [j|j|]; simpl in Hcls.
  - f_equal. by eapply client_at_unique.
  - exfalso. by eapply (wf_excl p).
  - by destruct (Hcls id).
Qed.

Lemma front_getClient_unknown p a :
  proxy_wf p -> unknown_addr p a -> exists p', front_getClient p a = (p', Unknown) /\ same_view p p'.
Proof.
  intros Hwf Hun. destruct (front_getClient p a) as [p' cls] eqn:Hg.
  destruct (front_getClient_ok p a p' cls Hwf Hg) as [Hv Hcls]. exists p'. split; [|done]. f_equal.
  destruct cls as [j|j|]; simpl in Hcls; [by destruct (Hun j)..|done].
Qed.

Lemma client_at_view p p' a id : same_view p p' -> client_at p a id -> client_at p' a id.
Proof. intros (_ & _ & _ & Hc & _). unfold client_at. by rewrite Hc. Qed.

Lemma authed_at_view p p' a id : same_view p p' -> authed_at p a id -> authed_at p' a id.
Proof. intros (_ & _ & _ & Hc & _). unfold authed_at. by rewrite Hc. Qed.

(** After the promotion the address is the client's effective one. *)
Lemma promote_client_at p id c ap a :
  px_clients p !! id = Some c -> cs_authedAddr c = Some (ap, a) ->
  client_at (setAuthedAddr (setClientAddr p id None (Some (ap, a))) id None None) a id.
Proof.
  intros Hc Hau.
  destruct (setClientAddr_spec p id c None (Some (ap, a)) _ _ Hc eq_refl) as (_ & _ & _ & Hcl1 & _).
  set (p1 := setClientAddr p id None (Some (ap, a))) in *.
  assert (Hc1 : px_clients p1 !! id = Some (with_clientAddr (Some (ap, a)) c)) by (by rewrite Hcl1, lookup_insert_eq).
  destruct (setAuthedAddr_spec p1 id _ None None _ _ Hc1 eq_refl) as (_ & _ & _ & Hcl2 & _).
  eexists _, ap. rewrite Hcl2, lookup_insert_eq. done.
Qed.

Lemma deliver_if_Some n id j : deliver_if n id = Some j -> j = id /\ (kSafeToDropPacketLen < n)%nat.
Proof.
  unfold deliver_if. destruct (Nat.leb_spec n kSafeToDropPacketLen); [done|]. by intros [= <-].
Qed.

Lemma readFrom_deliver k p nonce a pkt p' o id :
  proxy_wf p -> readFrom_step k p nonce a pkt = (p', o) -> fo_deliver o = Some id ->
  client_at p' a id /\ (kSafeToDropPacketLen < length pkt)%nat /\ (client_at p a id \/ authed_at p a id).
Proof.
  intros Hwf. unfold readFrom_step. destruct (front_getClient p a) as [p1 cls] eqn:Hg.
  destruct (front_getClient_ok p a p1 cls Hwf Hg) as [Hv Hcls].
  assert (Hres : forall k p n s a, fo_deliver (respond k p n s a) = None).
  { intros. unfold respond. by destruct (sealAuthPacket _ _ _ _). }
  destruct cls as [j|j|]; simpl in Hcls.
  - intros [= <- <-]. simpl. intros [-> Hlen]%deliver_if_Some. split_and!; [|done|by left].
    by eapply client_at_view.
  - destruct (openAuthPacket k p1 pkt) as [[cid s]|].
    + repeat case_match; intros [= <- <-]; rewrite ?Hres; done.
    + assert (Hat1 : authed_at p1 a j) by (by eapply authed_at_view).
      destruct Hat1 as (c & q & Hc & Hq). rewrite Hc. simpl. rewrite Hq.
      intros [= <- <-]. simpl. intros [-> Hlen]%deliver_if_Some. split_and!; [|done|by right].
      by eapply promote_client_at.
  - destruct (openAuthPacket k p1 pkt) as [[cid s]|]; [|by intros [= <- <-]].
    repeat case_match; intros; simplify_eq; rewrite ?Hres in *; done.
Qed.

(** C4: a packet handed to QUIC or KCP for a client comes from the client's
    effective address, is longer than an authentication tag, and that address
    was authenticated for this client by an earlier packet sealed with the
    proxy key whose serial number was then new; whatever the sequence of
    packets, closes and timeouts. *)
Theorem delivered_from_authenticated k att ci si es nonce a pkt p' o id :
  let p0 := newServerProxy att ci si in
  readFrom_step k (state_after k p0 es) nonce a pkt = (p', o) -> fo_deliver o = Some id ->
  client_at p' a id /\ (kSafeToDropPacketLen < length pkt)%nat /\ authenticated_in k p0 es a id.
Proof.
  intros p0 Hstep Hdel. destruct (state_after_wf k att ci si es) as [Hwf _].
  destruct (readFrom_deliver k _ nonce a pkt p' o id Hwf Hstep Hdel) as (? & ? & ?).
  split_and!; [done..|]. by apply addresses_authenticated.
Qed.

(** An authentication packet changes no effective address. *)
Lemma readFrom_auth_keeps_clients k p nonce a pkt x :
  proxy_wf p -> openAuthPacket k p pkt = Some x ->
  forall b j, client_at (fst (readFrom_step k p nonce a pkt)) b j -> client_at p b j.
Proof.
  intros Hwf Ho b j. unfold readFrom_step. destruct (front_getClient p a) as [p1 cls] eqn:Hg.
  destruct (front_getClient_ok p a p1 cls Hwf Hg) as [Hv _].
  pose proof (quiet_view p p1 Hv) as (Hwf1 & [Hn1 _] & _ & Hcfg). specialize (Hwf1 Hwf).
  rewrite (openAuthPacket_config k p p1 pkt Hcfg), Ho. destruct x as [cid s].
  destruct cls as [i|i|]; [simpl; auto| |].
  - destruct (negb (cid =? i)); [intros ?%(quiet_clear_authed p1 i None); auto|].
    destruct (px_clients p1 !! i) as [c|] eqn:Hc; [|auto]. destruct (Z.ltb_spec s (cs_serialNumber c)); [auto|].
    intros Hx. apply Hn1. revert Hx. apply (quiet_set_client p1 i c); simpl; try done; lia.
  - destruct (getClient p1 cid) as [p2 c] eqn:Hgc.
    destruct (quiet_getClient p1 cid p2 c Hwf1 Hgc) as [(_ & [Hn2 _] & _) _].
    destruct (proxy_wf_getClient p1 cid p2 c Hwf1 Hgc) as (_ & Hc2 & _).
    destruct (cs_closed c); [simpl; auto|].
    set (p3 := set_client p2 cid (with_front true c)).
    assert (Hq3 : quiet p2 p3) by (by apply (quiet_set_client p2 cid c)). destruct Hq3 as (_ & [Hn3 _] & _).
    destruct (s <=? cs_serialNumber c); [simpl; auto|].
    rewrite (modify_client_eq p3 cid (with_front true c)) by (simpl; apply lookup_insert_eq).
    cbn [alloc_addr fst]. set (p4 := Proxy _ _ _ _ _ _ _ _).
    assert (Hc4 : px_clients p4 !! cid = Some (with_serial s (with_front true c))) by (simpl; apply lookup_insert_eq).
    simpl px_nextPtr. set (q := px_nextPtr p2).
    destruct (setAuthedAddr_spec p4 cid _ None (Some (q, a)) _ _ Hc4 eq_refl) as (_ & _ & _ & Hcl & _).
    intros (y & r & Hy & Hr). apply Hn1, Hn2, Hn3. simpl in Hcl. rewrite Hcl in Hy. simpl in Hy.
    rewrite insert_insert_eq in Hy. destruct (decide (j = cid)) as [->|Hne].
    + rewrite lookup_insert_eq in Hy. simplify_eq/=. exists (with_front true c), r.
      split; [simpl; apply lookup_insert_eq|done].
    + rewrite lookup_insert_ne in Hy by done. by exists y, r.
Qed.

(** Serial numbers never decrease in a run. *)
Lemma serial_monotone k att ci si es1 es2 j :
  let p0 := newServerProxy att ci si in serialOf (state_after k p0 es1) j <= serialOf (state_after k p0 (es1 ++ es2)) j.
Proof.
  intros p0. induction es2 as [|e es2 IH] using rev_ind; [by rewrite app_nil_r|].
  rewrite app_assoc, state_after_snoc. destruct (state_after_wf k att ci si (es1 ++ es2)) as [Hwf _].
  destruct (front_step_progress k _ e Hwf) as (_ & _ & Hser & _). specialize (Hser j). fold p0 in Hser. lia.
Qed.

(** C14: replay protection.  In every run of packets, closes and timeouts no
    client's serial number ever decreases; and an authentication packet whose
    serial number is not newer than the client's at some moment moves nobody
    whenever it arrives after that, from whatever address: it gives no client a
    new effective or waiting address. *)
Theorem replayed_auth_moves_nobody k att ci si es1 es2 nonce a pkt id s :
  let p0 := newServerProxy att ci si in
  let p1 := state_after k p0 es1 in
  let p2 := state_after k p0 (es1 ++ es2) in
  let p' := fst (readFrom_step k p2 nonce a pkt) in
  (forall j, serialOf p1 j <= serialOf p2 j <= serialOf p' j) /\
  (openAuthPacket k p1 pkt = Some (id, s) -> s <= serialOf p1 id ->
   (forall b j, client_at p' b j -> client_at p2 b j) /\
   (forall b j, authed_at p' b j -> authed_at p2 b j)).
Proof.
  intros p0 p1 p2 p'. destruct (state_after_wf k att ci si (es1 ++ es2)) as [Hwf Hcfg].
  destruct (state_after_wf k att ci si es1) as [_ Hcfg1].
  destruct (readFrom_progress k p2 nonce a pkt Hwf) as (_ & _ & Hser & _ & Hau).
  assert (Hmono : forall j, serialOf p1 j <= serialOf p2 j) by apply serial_monotone.
  split; [by split|]. intros Ho Hs.
  assert (Ho2 : openAuthPacket k p2 pkt = Some (id, s)).
  { unfold p2. rewrite (openAuthPacket_config k p0) by done. by rewrite <- (openAuthPacket_config k p0 p1). }
  split.
  - by apply (readFrom_auth_keeps_clients k p2 nonce a pkt (id, s)).
  - intros b j [?|(n' & pkt' & s' & [= <- <- <-] & Ho' & Hlt)]%Hau; [done|].
    rewrite Ho2 in Ho'. simplify_eq. specialize (Hmono j). lia.
Qed.

(** ** The handshake end to end *)

Lemma aesDecrypt_seal k nonce data :
  length nonce = gcm_nonceSize -> aesDecrypt k (nonce ++ gcm_Seal k nonce data) = Some data.
Proof.
  intros Hn. unfold aesDecrypt. rewrite length_app, gcm_length, Hn.
  replace (gcm_nonceSize + (length data + gcm_overhead) <? gcm_nonceSize)%nat with false
    by (symmetry; apply Nat.ltb_ge; lia).
  rewrite <- Hn, take_app_length, drop_app_length. apply gcm_open_seal.
Qed.

Definition is_u64 (z : Z) : Prop := 0 <= z < 2 ^ 64.

Lemma auth_data_fields x y :
  is_u64 x -> is_u64 y ->
  let data := be_put 8 x ++ be_put 8 y in
  length data = 16%nat /\ be_get (take 8 data) = x /\ be_get (take 8 (drop 8 data)) = y.
Proof.
  intros Hx Hy data. assert (H8 : forall v, length (be_put 8 v) = 8%nat) by (intros; apply length_be_put).
  unfold data. rewrite length_app, !H8.
  rewrite take_app_length', drop_app_length', take_ge by (rewrite ?H8; lia).
  split_and!; [done|by apply be_get_put_small..].
Qed.

Lemma open_client_auth k p cp nonce pkt :
  sendAuthPacket k cp (Some nonce) = Some pkt -> length nonce = gcm_nonceSize ->
  is_u64 (cp_clientID cp) -> is_u64 (cp_serialNumber cp) ->
  (px_attachable p = true \/ cp_clientID cp = px_clientID p) ->
  openAuthPacket k p pkt = Some (cp_clientID cp, cp_serialNumber cp).
Proof.
  intros Hpkt Hn Hi Hs Hor.
  assert (pkt = nonce ++ gcm_Seal k nonce (be_put 8 (cp_clientID cp) ++ be_put 8 (cp_serialNumber cp))) as ->
    by (unfold sendAuthPacket, aesEncrypt in Hpkt; congruence).
  unfold openAuthPacket. rewrite aesDecrypt_seal by done.
  destruct (auth_data_fields _ _ Hi Hs) as (Hl & H1 & H2). cbv zeta in *. rewrite Hl, H1, H2. simpl.
  destruct Hor as [-> | ->]; [done|]. rewrite Z.eqb_refl. simpl. by rewrite andb_false_r.
Qed.

Lemma client_accepts k p cp nonce resp :
  sealAuthPacket k p (Some nonce) (cp_serialNumber cp) = Some resp -> length nonce = gcm_nonceSize ->
  cp_serverID cp = px_serverID p -> is_u64 (px_serverID p) -> is_u64 (cp_serialNumber cp) ->
  isAuthSuccessful k cp resp = (cp, true).
Proof.
  intros Hpkt Hn Hsv Hi Hs.
  assert (resp = nonce ++ gcm_Seal k nonce (be_put 8 (px_serverID p) ++ be_put 8 (cp_serialNumber cp))) as ->
    by (unfold sealAuthPacket, aesEncrypt in Hpkt; congruence).
  unfold isAuthSuccessful. rewrite aesDecrypt_seal by done.
  destruct (auth_data_fields _ _ Hi Hs) as (Hl & H1 & H2). cbv zeta in *. rewrite Hl, H1, H2, Hsv.
  rewrite Z.eqb_refl. simpl. by rewrite Z.ltb_irrefl, Z.eqb_refl.
Qed.

(** The effect of a fresh authentication packet from an unknown address. *)
Lemma readFrom_fresh_auth k p nonce a pkt id s :
  proxy_wf p -> unknown_addr p a -> openAuthPacket k p pkt = Some (id, s) -> serialOf p id < s ->
  (forall c, px_clients p !! id = Some c -> cs_closed c = false) ->
  exists p', readFrom_step k p nonce a pkt = (p', respond k p' nonce s a) /\ authed_at p' a id /\
    serialOf p' id = s /\ same_config p p'.
Proof.
  intros Hwf Hun Ho Hs Hopen. unfold readFrom_step.
  destruct (front_getClient_unknown p a Hwf Hun) as (p1 & -> & Hv).
  pose proof (quiet_view p p1 Hv) as (Hwf1 & _ & _ & Hcfg1). specialize (Hwf1 Hwf).
  rewrite (openAuthPacket_config k p p1 pkt Hcfg1), Ho.
  destruct (getClient p1 id) as [p2 c] eqn:Hgc.
  destruct (proxy_wf_getClient p1 id p2 c Hwf1 Hgc) as (Hwf2 & Hc2 & Ha2 & Hi2 & Hs2 & _).
  destruct (quiet_getClient p1 id p2 c Hwf1 Hgc) as [_ Hser].
  assert (Hser1 : serialOf p1 id = serialOf p id) by (unfold serialOf; by destruct Hv as (_ & _ & _ & -> & _)).
  assert (Hcs : cs_serialNumber c < s).
  { specialize (Hser id). unfold serialOf at 1 in Hser. rewrite Hc2 in Hser. lia. }
  assert (Hcl : cs_closed c = false).
  { unfold getClient in Hgc. destruct Hv as (_ & _ & _ & Hcl & _). rewrite Hcl in Hgc.
    destruct (px_clients p !! id) as [x|] eqn:Hx; simplify_eq; [by apply Hopen|done]. }
  rewrite Hcl. destruct (Z.leb_spec s (cs_serialNumber c)); [lia|].
  rewrite (modify_client_eq _ id (with_front true c)) by (simpl; apply lookup_insert_eq).
  cbn [alloc_addr]. set (p4 := Proxy _ _ _ _ _ _ _ _).
  assert (Hc4 : px_clients p4 !! id = Some (with_serial s (with_front true c))) by (simpl; apply lookup_insert_eq).
  destruct (setAuthedAddr_spec p4 id _ None (Some (px_nextPtr p2, a)) _ _ Hc4 eq_refl) as (Ha5 & Hi5 & Hs5 & Hcl5 & _).
  eexists. split; [done|]. simpl px_nextPtr. set (p5 := setAuthedAddr p4 id None (Some (px_nextPtr p2, a))) in *.
  assert (Hc5 : px_clients p5 !! id = Some (with_authedAddr (Some (px_nextPtr p2, a)) (with_serial s (with_front true c))))
    by (by rewrite Hcl5, lookup_insert_eq).
  split_and!.
  - eexists _, _. split; [done|done].
  - unfold serialOf. by rewrite Hc5.
  - destruct Hcfg1 as (? & ? & ?). unfold same_config. rewrite Ha5, Hi5, Hs5. simpl. split_and!; congruence.
Qed.


(** Data packets from a waiting and from an effective address. *)
Lemma readFrom_data_authed k p nonce a pkt id :
  proxy_wf p -> authed_at p a id -> openAuthPacket k p pkt = None -> (kSafeToDropPacketLen < length pkt)%nat ->
  exists p' o, readFrom_step k p nonce a pkt = (p', o) /\ fo_deliver o = Some id /\ fo_newConn o = Some id /\
    client_at p' a id /\ same_config p p'.
Proof.
  intros Hwf Hat Ho Hlen. unfold readFrom_step.
  destruct (front_getClient_authed p a id Hwf Hat) as (p1 & -> & Hv).
  pose proof (quiet_view p p1 Hv) as (Hwf1 & _ & _ & Hcfg1). specialize (Hwf1 Hwf).
  rewrite (openAuthPacket_config k p p1 pkt Hcfg1), Ho.
  destruct (authed_at_view p p1 a id Hv Hat) as (c & q & Hc & Hq). rewrite Hc. simpl. rewrite Hq.
  eexists _, _. split; [done|]. simpl. unfold deliver_if.
  destruct (Nat.leb_spec (length pkt) kSafeToDropPacketLen); [lia|].
  pose proof (progress_promote k p1 id c q a (CloseClient 0) Hwf1 Hc Hq) as (_ & Hcfg2 & _).
  split_and!; [done..|by eapply promote_client_at|]. by eapply same_config_trans.
Qed.

Lemma readFrom_data_client k p nonce a pkt id :
  proxy_wf p -> client_at p a id -> (kSafeToDropPacketLen < length pkt)%nat ->
  exists p' o, readFrom_step k p nonce a pkt = (p', o) /\ fo_deliver o = Some id.
Proof.
  intros Hwf Hat Hlen. unfold readFrom_step.
  destruct (front_getClient_client p a id Hwf Hat) as (p1 & -> & Hv).
  eexists _, _. split; [done|]. simpl. unfold deliver_if.
  by destruct (Nat.leb_spec (length pkt) kSafeToDropPacketLen); [lia|].
Qed.

(** A client can always move to a new address: its authentication packet
    with a new serial number is answered, the client accepts the answer, its
    next packets from there are delivered, and packets for the client go to
    the new address. *)
Theorem roaming_handshake k att ci si es cp n1 n2 n3 n4 a pkt data1 data2 :
  let p := state_after k (newServerProxy att ci si) es in
  unknown_addr p a -> (att = true \/ cp_clientID cp = ci) ->
  (forall c, px_clients p !! cp_clientID cp = Some c -> cs_closed c = false) ->
  serialOf p (cp_clientID cp) < cp_serialNumber cp ->
  cp_serverID cp = si -> is_u64 si -> is_u64 (cp_clientID cp) -> is_u64 (cp_serialNumber cp) ->
  length n1 = gcm_nonceSize -> length n2 = gcm_nonceSize ->
  sendAuthPacket k cp (Some n1) = Some pkt ->
  openAuthPacket k p data1 = None -> (kSafeToDropPacketLen < length data1)%nat ->
  (kSafeToDropPacketLen < length data2)%nat ->
  exists p1 p2 p3 o1 o2 o3 resp,
    readFrom_step k p (Some n2) a pkt = (p1, o1) /\ fo_send o1 = Some (resp, a) /\
    isAuthSuccessful k cp resp = (cp, true) /\
    readFrom_step k p1 n3 a data1 = (p2, o2) /\ fo_deliver o2 = Some (cp_clientID cp) /\
    writeTo p2 (cp_clientID cp) = Some a /\
    readFrom_step k p2 n4 a data2 = (p3, o3) /\ fo_deliver o3 = Some (cp_clientID cp).
Proof.
  intros p Hun Hor Hopen Hs Hsv Hsi Hci Hcs Hn1 Hn2 Hpkt Hd1 Hl1 Hl2.
  destruct (state_after_wf k att ci si es) as [Hwf Hcfg]. fold p in Hwf, Hcfg.
  destruct Hcfg as (Hatt & Hpci & Hpsi). simpl in Hatt, Hpci, Hpsi.
  assert (Ho : openAuthPacket k p pkt = Some (cp_clientID cp, cp_serialNumber cp)).
  { apply (open_client_auth k p cp n1 pkt Hpkt Hn1 Hci Hcs). by rewrite Hatt, Hpci. }
  destruct (readFrom_fresh_auth k p (Some n2) a pkt _ _ Hwf Hun Ho Hs Hopen) as (p1 & Hst1 & Hat1 & _ & Hcfg1).
  assert (Hwf1 : proxy_wf p1).
  { pose proof (readFrom_progress k p (Some n2) a pkt Hwf) as (Hw & _). by rewrite Hst1 in Hw. }
  destruct (readFrom_data_authed k p1 n3 a data1 _ Hwf1 Hat1) as (p2 & o2 & Hst2 & Hdel2 & _ & Hca2 & Hcfg2);
    [by rewrite (openAuthPacket_config k p p1)|done|].
  assert (Hwf2 : proxy_wf p2).
  { pose proof (readFrom_progress k p1 n3 a data1 Hwf1) as (Hw & _). by rewrite Hst2 in Hw. }
  destruct (readFrom_data_client k p2 n4 a data2 _ Hwf2 Hca2 Hl2) as (p3 & o3 & Hst3 & Hdel3).
  eexists p1, p2, p3, _, o2, o3, _. split_and!; [done|unfold respond; done| |done|done| |done|done].
  - eapply (client_accepts k p1); [done|done| | |done]; destruct Hcfg1 as (_ & _ & Heq); rewrite Heq, Hpsi; done.
  - destruct Hca2 as (c & q & Hc & Hq). unfold writeTo. by rewrite Hc, Hq.
Qed.

(** The timeout cleanup removes what it did not observe.  When the
    callback loaded no authenticated address, an address the client has
    authenticated during the callback's wait is removed too, and the packet
    that would complete the reconnect is dropped; when it had loaded an older
    address, the new one survives. *)
Theorem timeout_cleanup_unobserved k p id c q a oc cn nonce pkt :
  proxy_wf p -> px_clients p !! id = Some c -> cs_authedAddr c = Some (q, a) ->
  openAuthPacket k p pkt = None ->
  (let p' := clearTransport p id None oc cn in
   unknown_addr p' a /\ fo_deliver (snd (readFrom_step k p' nonce a pkt)) = None /\
   fo_newConn (snd (readFrom_step k p' nonce a pkt)) = None) /\
  (forall q' a', (q', a') <> (q, a) -> authed_at (clearTransport p id (Some (q', a')) oc cn) a id).
Proof.
  intros Hwf Hc Hau Hno.
  assert (Hat : authed_at p a id) by (by exists c, q).
  assert (Hkeep : forall p1 c1, px_clients p1 !! id = Some c1 ->
    exists c2, px_clients (fst (setClientConn (setClientAddr p1 id oc None) id cn None)) !! id = Some c2 /\
      cs_authedAddr c2 = cs_authedAddr c1).
  { intros p1 c1 Hc1. destruct (swap_ptr (cs_clientAddr c1) oc None) as [cur gone] eqn:Hsw.
    destruct (setClientAddr_spec p1 id c1 oc None cur gone Hc1 Hsw) as (_ & _ & _ & Hcl & _).
    unfold setClientConn. rewrite Hcl, lookup_insert_eq.
    destruct (swap_ptr _ cn None) as [cur2 gone2]. simpl. rewrite lookup_insert_eq. eauto. }
  split.
  - intros p'. assert (Hq : quiet p p') by apply quiet_clearTransport.
    pose proof Hq as (Hwf' & [Hn1 Hn2] & _ & Hcfg). specialize (Hwf' Hwf).
    assert (Hun : unknown_addr p' a).
    { intros j. split.
      - intros Hca%Hn1. by eapply (wf_excl p).
      - intros Haj. pose proof (Hn2 _ _ Haj) as Haj0.
        assert (j = id) as -> by (by eapply (authed_at_unique p)).
        destruct (setAuthedAddr_spec p id c None None _ _ Hc eq_refl) as (_ & _ & _ & Hcl & _).
        destruct (Hkeep (setAuthedAddr p id None None) (with_authedAddr None c)) as (c2 & Hc2 & Ha2);
          [by rewrite Hcl, lookup_insert_eq|].
        destruct Haj as (c3 & q3 & Hc3 & Hq3). unfold p', clearTransport in Hc3. simpl in Ha2. congruence. }
    split; [done|]. unfold readFrom_step.
    destruct (front_getClient_unknown p' a Hwf' Hun) as (p2 & -> & Hv).
    pose proof (quiet_view p' p2 Hv) as (_ & _ & _ & Hcfg2).
    by rewrite (openAuthPacket_config k p' p2 pkt Hcfg2), (openAuthPacket_config k p p' pkt Hcfg), Hno.
  - intros q' a' Hne. unfold clearTransport.
    assert (Hsw : swap_ptr (cs_authedAddr c) (Some (q', a')) None = (cs_authedAddr c, None)).
    { unfold swap_ptr. rewrite Hau. by rewrite decide_False by congruence. }
    destruct (setAuthedAddr_spec p id c (Some (q', a')) None _ _ Hc Hsw) as (_ & _ & _ & Hcl & _).
    destruct (Hkeep (setAuthedAddr p id (Some (q', a')) None) (with_authedAddr (cs_authedAddr c) c))
      as (c2 & Hc2 & Ha2); [by rewrite Hcl, lookup_insert_eq|].
    exists c2, q. split; [done|]. rewrite Ha2. done.
Qed.


(** C39: the two directions of the handshake are not told apart.  A response
    of an attachable server, sent back to it from an unknown address, is
    taken for the authentication packet of a client whose id is the server
    id: the address becomes authenticated although no client sealed the
    packet. *)
Theorem reflected_response_authenticates k ci si es nonce nonce2 a s resp :
  let p := state_after k (newServerProxy true ci si) es in
  is_u64 si -> is_u64 s -> length nonce = gcm_nonceSize ->
  sealAuthPacket k p (Some nonce) s = Some resp ->
  unknown_addr p a -> px_clients p !! si = None -> 0 < s ->
  authed_at (fst (readFrom_step k p nonce2 a resp)) a si.
Proof.
  intros p Hsi Hs Hn Hresp Hun Hnone Hpos.
  destruct (state_after_wf k true ci si es) as [Hwf (Hatt & _ & Hpsi)]. fold p in Hwf, Hatt, Hpsi.
  simpl in Hatt, Hpsi.
  assert (Ho : openAuthPacket k p resp = Some (si, s)).
  { assert (resp = nonce ++ gcm_Seal k nonce (be_put 8 si ++ be_put 8 s)) as ->
      by (unfold sealAuthPacket, aesEncrypt in Hresp; congruence).
    unfold openAuthPacket. rewrite aesDecrypt_seal by done.
    destruct (auth_data_fields _ _ Hsi Hs) as (Hl & H1 & H2). cbv zeta in *. by rewrite Hl, H1, H2, Hatt. }
  destruct (readFrom_fresh_auth k p nonce2 a resp si s Hwf Hun Ho) as (p' & Hst & Hat & _).
  - unfold serialOf. by rewrite Hnone.
  - by rewrite Hnone.
  - by rewrite Hst.
Qed.

(** The TCP handshake.  It replaces the client's connection exactly when
    the packet authenticates an open client with a new serial number and the
    answer could be sent; the serial number is then taken, so neither this
    packet nor an older one succeeds again. *)
Theorem handshake_takes_serial k p nonce conn pkt sendOk p' resp ok :
  handshake k p nonce conn pkt sendOk = (p', resp, ok) ->
  (ok = true ->
     exists id s, openAuthPacket k p pkt = Some (id, s) /\ serialOf p id < s /\ serialOf p' id = s /\
       (cs_clientConn <$> px_clients p' !! id) = Some (Some conn)) /\
  (forall nonce2 conn2 pkt2 sendOk2 id s s2 p2 resp2 ok2,
     ok = true -> openAuthPacket k p pkt = Some (id, s) ->
     openAuthPacket k p pkt2 = Some (id, s2) -> s2 <= s ->
     handshake k p' nonce2 conn2 pkt2 sendOk2 = (p2, resp2, ok2) -> ok2 = false).
Proof.
  unfold handshake at 1. intros Hh.
  assert (Hok : ok = true -> exists id s, openAuthPacket k p pkt = Some (id, s) /\ serialOf p id < s /\
    serialOf p' id = s /\ (cs_clientConn <$> px_clients p' !! id) = Some (Some conn) /\ same_config p p').
  { intros ->. destruct (openAuthPacket k p pkt) as [[id s]|]; [|done].
    destruct (getClient p id) as [p1 c] eqn:Hg.
    assert (Hc1 : px_clients p1 !! id = Some c /\ serialOf p id = cs_serialNumber c /\ same_config p p1).
    { unfold getClient in Hg. unfold serialOf. destruct (px_clients p !! id) as [x|] eqn:Hx; simplify_eq; [done|].
      simpl. by rewrite lookup_insert_eq. }
    destruct Hc1 as (Hc1 & Hser & Hcfg).
    destruct (cs_closed c); [done|]. destruct (Z.leb_spec s (cs_serialNumber c)); [done|].
    destruct (sealAuthPacket _ _ _ _); [|done]. destruct sendOk; [|done]. simpl in Hh.
    unfold setClientConn in Hh. simpl in Hh. rewrite lookup_insert_eq in Hh. simpl in Hh. simplify_eq/=.
    exists id, s. unfold serialOf. simpl. rewrite lookup_insert_eq. split_and!; try done; [|apply Hcfg..].
    fold (serialOf p id). lia. }
  split; [intros Ho; destruct (Hok Ho) as (id & s & ? & ? & ? & ? & _); eauto 6|].
  intros nonce2 conn2 pkt2 sendOk2 id s s2 p2 resp2 ok2 Ho Hop Hop2 Hle Hh2.
  destruct (Hok Ho) as (id' & s' & Hop' & _ & Hser & Hconn & Hcfg). rewrite Hop in Hop'. simplify_eq.
  unfold handshake in Hh2. rewrite (openAuthPacket_config k p p' pkt2 Hcfg), Hop2 in Hh2.
  unfold getClient in Hh2. destruct (px_clients p' !! id') as [c|] eqn:Hc; [|done].
  unfold serialOf in Hle. rewrite Hc in Hle.
  destruct (cs_closed c); [by simplify_eq|]. destruct (Z.leb_spec s2 (cs_serialNumber c)); [by simplify_eq|lia].
Qed.

End Properties.

(** ** The properties at work *)

Module Handshake.
Import Toy.

Definition K : @key toy_crypto := "K"%char.
Definition X : addr := (167772161, 4000, EmptyString).
Definition Y : addr := (167772161, 4001, EmptyString).

Definition alice (serial : Z) : clientProxy := ClientProxy 7 99 serial.
Definition auth (serial : Z) : bytes := default [] (sendAuthPacket K (alice serial) (Some (bs "n"))).
Definition data : bytes := bs "0123456789abcdef01".

(** Alice authenticates from X and sends data from there. *)
Definition events : list front_event := [Datagram (Some (bs "m")) X (auth 1); Datagram None X data].
Definition start : serverProxy := newServerProxy true 0 99.
Definition active : serverProxy := state_after K start events.

End Handshake.

Import Toy Handshake.

Lemma delivered_from_authenticated_witness :
  client_at (fst (readFrom_step K active None X data)) X 7 /\
  (kSafeToDropPacketLen < length data)%nat /\ authenticated_in K start events X 7.
Proof.
  apply (delivered_from_authenticated K true 0 99 events None X data
    (fst (readFrom_step K active None X data)) (snd (readFrom_step K active None X data)) 7);
    vm_compute; reflexivity.
Defined.

Lemma replayed_auth_moves_nobody_witness :
  let p2 := state_after K start (events ++ [Datagram None X data]) in
  let p' := fst (readFrom_step K p2 None Y (auth 1)) in
  (forall b j, client_at p' b j -> client_at p2 b j) /\
  (forall b j, authed_at p' b j -> authed_at p2 b j).
Proof.
  apply (replayed_auth_moves_nobody K true 0 99 events [Datagram None X data] None Y (auth 1) 7 1).
  - vm_compute. reflexivity.
  - vm_compute. discriminate.
Defined.

Lemma unknown_at_start a : unknown_addr start a.
Proof. intros id. split; intros (c & q & Hc & _); done. Qed.

Lemma roaming_handshake_witness :
  exists p1 p2 p3 o1 o2 o3 resp,
    readFrom_step K start (Some (bs "m")) X (auth 1) = (p1, o1) /\ fo_send o1 = Some (resp, X) /\
    isAuthSuccessful K (alice 1) resp = (alice 1, true) /\
    readFrom_step K p1 None X data = (p2, o2) /\ fo_deliver o2 = Some 7 /\
    writeTo p2 7 = Some X /\
    readFrom_step K p2 None X data = (p3, o3) /\ fo_deliver o3 = Some 7.
Proof.
  apply (roaming_handshake K true 0 99 [] (alice 1) (bs "n") (bs "m") None None X (auth 1) data data);
    first [apply unknown_at_start | by left | done | vm_compute; by split | vm_compute; lia].
Defined.

(** Alice is away; the callback has observed her effective address X and no
    authenticated one; she authenticates from Y before it ends. *)
Definition returning : serverProxy := fst (readFrom_step K active (Some (bs "m")) Y (auth 2)).

Lemma timeout_cleanup_unobserved_witness :
  (let p' := clearTransport returning 7 None (Some (0, X)) None in
   unknown_addr p' Y /\ fo_deliver (snd (readFrom_step K p' None Y data)) = None /\
   fo_newConn (snd (readFrom_step K p' None Y data)) = None) /\
  (forall q' a', (q', a') <> (1, Y) -> authed_at (clearTransport returning 7 (Some (q', a')) (Some (0, X)) None) Y 7).
Proof.
  apply (timeout_cleanup_unobserved K returning 7 (CS false false 2 None (Some (0, X)) (Some (1, Y)) true) 1 Y).
  - apply (readFrom_progress K active (Some (bs "m")) Y (auth 2)). apply (state_after_wf K true 0 99 events).
  - vm_compute. reflexivity.
  - reflexivity.
  - vm_compute. reflexivity.
Defined.

Lemma reflected_response_authenticates_witness :
  authed_at (fst (readFrom_step K start None X
    (default [] (sealAuthPacket K start (Some (bs "n")) 3)))) X 99.
Proof.
  apply (reflected_response_authenticates K 0 99 [] (bs "n") None X 3); try (vm_compute; by split);
    try reflexivity; try apply unknown_at_start.
Defined.

Lemma handshake_takes_serial_witness :
  exists p' resp, handshake K start (Some (bs "m")) 5 (auth 1) true = (p', resp, true) /\ serialOf p' 7 = 1.
Proof.
  destruct (handshake K start (Some (bs "m")) 5 (auth 1) true) as [[p' resp] ok] eqn:Hh.
  destruct (handshake_takes_serial K start (Some (bs "m")) 5 (auth 1) true p' resp ok Hh) as [Hok _].
  assert (ok = true) as -> by (vm_compute in Hh; by simplify_eq).
  exists p', resp. split; [done|]. destruct (Hok eq_refl) as (id & s & Ho & _ & Hs & _).
  assert (id = 7 /\ s = 1) as [-> ->] by (clear Hs; vm_compute in Ho; by simplify_eq).
  exact Hs.
Defined.
