(* ===== verification/GoStrings.v ===== *)
(** * GoStrings: Go's [strings] package on ASCII text

    The functions of [strings] (and the one regular expression that is not
    about patterns) the configuration and argument parsers use, on byte
    sequences.  White space and letter case are those of ASCII. *)

From Stdlib Require Import ZArith Lia Ascii String.
From stdpp Require Import base list strings gmap.
From S2P Require Import Prelude.
Open Scope Z_scope.

Definition EQ : byte := "="%char.
Definition COMMA : byte := ","%char.
Definition BANG : byte := "!"%char.
Definition TAB : byte := "009"%char.

(** [unicode.IsSpace] on ASCII. *)
Definition is_space (b : byte) : bool :=
  let z := Z_of_byte b in (z =? 32) || ((9 <=? z) && (z <=? 13)).

Definition is_blank (b : byte) : bool := bool_decide (b = " "%char) || bool_decide (b = TAB).

Fixpoint trim_left (f : byte -> bool) (s : bytes) : bytes :=
  match s with
  | b :: s' => if f b then trim_left f s' else s
  | [] => []
  end.

Definition trim_right (f : byte -> bool) (s : bytes) : bytes := reverse (trim_left f (reverse s)).

Definition TrimSpace (s : bytes) : bytes := trim_right is_space (trim_left is_space s).

Definition lower_byte (b : byte) : byte :=
  let z := Z_of_byte b in if (65 <=? z) && (z <=? 90) then byte_of_Z (z + 32) else b.

Definition ToLower (s : bytes) : bytes := lower_byte <$> s.

(** [strings.IndexFunc]; [IndexAny] and [IndexByte] are instances. *)
Fixpoint index_func (f : byte -> bool) (s : bytes) : option nat :=
  match s with
  | [] => None
  | b :: s' => if f b then Some O else S <$> index_func f s'
  end.

(** [strings.Fields]: the maximal runs of non-space characters. *)
Fixpoint fields_from (cur s : bytes) : list bytes :=
  match s with
  | [] => match cur with [] => [] | _ => [cur] end
  | b :: s' =>
      if is_space b then match cur with [] => fields_from [] s' | _ => cur :: fields_from [] s' end
      else fields_from (cur ++ [b]) s'
  end.

Definition Fields (s : bytes) : list bytes := fields_from [] s.

(** [strings.SplitSeq s ","] for a one-byte separator. *)
Fixpoint split_from (sep : byte) (cur s : bytes) : list bytes :=
  match s with
  | [] => [cur]
  | b :: s' => if ascii_dec b sep then cur :: split_from sep [] s' else split_from sep (cur ++ [b]) s'
  end.

Definition Split (sep : byte) (s : bytes) : list bytes := split_from sep [] s.

(** [strings.SplitN s "=" 2] when the separator occurs. *)
Definition Cut (sep : byte) (s : bytes) : bytes * option bytes :=
  match bytes_IndexByte s sep with
  | Some pos => (take pos s, Some (drop (S pos) s))
  | None => (s, None)
  end.

(** [regexp.MustCompile(`\s*,\s*`).ReplaceAllString(s, ",")]: leftmost
    matches; [sp] is the run of spaces read since the last other character. *)
Fixpoint commas_from (sp s : bytes) (afterComma : bool) : bytes :=
  match s with
  | [] => if afterComma then [] else sp
  | b :: s' =>
      if is_space b then commas_from (sp ++ [b]) s' afterComma
      else if ascii_dec b COMMA then COMMA :: commas_from [] s' true
      else (if afterComma then [] else sp) ++ b :: commas_from [] s' false
  end.

Definition squeeze_commas (s : bytes) : bytes := commas_from [] s false.

(** ** Facts *)

Definition no_space (s : bytes) : Prop := Forall (fun b => is_space b = false) s.

Lemma is_blank_space b : is_blank b = true -> is_space b = true.
Proof.
  unfold is_blank. intros [H|H]%orb_true_iff; apply bool_decide_eq_true in H; subst; reflexivity.
Qed.

Lemma trim_left_none f s : head s <> None -> (forall b, head s = Some b -> f b = false) -> trim_left f s = s.
Proof. destruct s as [|b s]; [done|]. simpl. intros _ Hb. by rewrite (Hb b eq_refl). Qed.

Lemma trim_left_id f s : (forall b, head s = Some b -> f b = false) -> trim_left f s = s.
Proof. destruct s as [|b s]; [done|]. intros Hb. by apply trim_left_none. Qed.

Lemma trim_right_id f s : (forall b, last s = Some b -> f b = false) -> trim_right f s = s.
Proof.
  intros Hb. unfold trim_right. rewrite trim_left_id; [apply reverse_involutive|].
  intros b. rewrite <- last_reverse, reverse_involutive. apply Hb.
Qed.

(** A text that neither starts nor ends with a space. *)
Definition trimmed (s : bytes) : Prop :=
  (forall b, head s = Some b -> is_space b = false) /\ (forall b, last s = Some b -> is_space b = false).

Lemma TrimSpace_id s : trimmed s -> TrimSpace s = s.
Proof. intros [Hh Hl]. unfold TrimSpace. by rewrite trim_left_id, trim_right_id. Qed.

Lemma no_space_trimmed s : no_space s -> trimmed s.
Proof.
  intros Hs. split; intros b Hb.
  - destruct s; simplify_eq/=. by inv Hs.
  - apply last_Some in Hb as [t ->]. apply Forall_app in Hs as [_ Hs]. by inv Hs.
Qed.

Lemma trim_left_spaces f s t : Forall (fun b => f b = true) s -> trim_left f (s ++ t) = trim_left f t.
Proof. induction 1 as [|b s Hb _ IH]; [done|]. simpl. by rewrite Hb. Qed.

Lemma trim_right_spaces f s t : Forall (fun b => f b = true) t -> trim_right f (s ++ t) = trim_right f s.
Proof.
  intros Ht. unfold trim_right. rewrite reverse_app. f_equal. apply trim_left_spaces.
  by apply Forall_reverse.
Qed.

Lemma index_func_app_None f s t :
  index_func f s = None -> index_func f (s ++ t) = (fun n => (length s + n)%nat) <$> index_func f t.
Proof.
  induction s as [|b s IH]; simpl; intros Hs.
  - by destruct (index_func f t).
  - destruct (f b); [done|]. destruct (index_func f s) eqn:E; [done|]. rewrite (IH eq_refl).
    by destruct (index_func f t).
Qed.

Lemma index_func_None f s : Forall (fun b => f b = false) s -> index_func f s = None.
Proof. induction 1 as [|b s Hb _ IH]; simpl; [done|]. by rewrite Hb, IH. Qed.

(** A word followed by the end or by a space. *)
Lemma fields_from_word cur w : no_space w -> cur ++ w <> [] -> fields_from cur w = [cur ++ w].
Proof.
  revert cur. induction w as [|b w IH]; intros cur Hw Hne; cbn [fields_from].
  - rewrite app_nil_r in *. by destruct cur.
  - inv Hw as [|? ? Hb Hw']. rewrite Hb, IH; [by rewrite <- app_assoc|done|]. by destruct cur.
Qed.

Lemma fields_from_word_space cur w b s :
  no_space w -> cur ++ w <> [] -> is_space b = true ->
  fields_from cur (w ++ b :: s) = (cur ++ w) :: fields_from [] s.
Proof.
  revert cur. induction w as [|c w IH]; intros cur Hw Hne Hb; cbn [fields_from app].
  - rewrite Hb, app_nil_r in *. by destruct cur.
  - inv Hw as [|? ? Hc Hw']. rewrite Hc, IH; [by rewrite <- app_assoc|done| |done]. by destruct cur.
Qed.

Lemma commas_plain s sp :
  COMMA ∉ s -> commas_from sp s false = sp ++ s.
Proof.
  revert sp. induction s as [|b s IH]; intros sp Hs; cbn [commas_from]; [by rewrite app_nil_r|].
  apply not_elem_of_cons in Hs as [Hb Hs]. destruct (is_space b).
  - rewrite IH by done. by rewrite <- app_assoc.
  - destruct (ascii_dec b COMMA) as [->|]; [done|]. by rewrite IH.
Qed.

Lemma squeeze_plain s : COMMA ∉ s -> squeeze_commas s = s.
Proof. apply (commas_plain s []). Qed.

Lemma split_from_plain sep cur s : sep ∉ s -> split_from sep cur s = [cur ++ s].
Proof.
  revert cur. induction s as [|b s IH]; intros cur Hs; cbn [split_from]; [by rewrite app_nil_r|].
  apply not_elem_of_cons in Hs as [Hb Hs]. destruct (ascii_dec b sep) as [->|]; [done|].
  rewrite IH by done. by rewrite <- app_assoc.
Qed.

Lemma trim_left_app_hit f s t x :
  x ∈ s -> f x = false -> trim_left f (s ++ t) = trim_left f s ++ t.
Proof.
  intros Hx Hf. induction s as [|b s IH]; [by apply not_elem_of_nil in Hx|]. simpl.
  destruct (f b) eqn:Hb; [|done]. apply IH. apply elem_of_cons in Hx as [->|]; [congruence|done].
Qed.

Lemma trim_right_app_hit f s t x :
  x ∈ t -> f x = false -> trim_right f (s ++ t) = s ++ trim_right f t.
Proof.
  intros Hx Hf. unfold trim_right. rewrite reverse_app, (trim_left_app_hit f _ _ x); [|by apply elem_of_reverse|done].
  by rewrite reverse_app, reverse_involutive.
Qed.

Lemma bytes_IndexByte_app a b c : c ∉ a -> bytes_IndexByte (a ++ c :: b) c = Some (length a).
Proof.
  induction a as [|x a IH]; intros Ha; simpl.
  - by destruct (ascii_dec c c).
  - apply not_elem_of_cons in Ha as [Hx Ha]. destruct (ascii_dec x c) as [->|]; [done|]. by rewrite IH.
Qed.

(** Words with a separator between them. *)
Fixpoint join (sep : byte) (l : list bytes) : bytes :=
  match l with
  | [] => []
  | [w] => w
  | w :: l' => w ++ sep :: join sep l'
  end.

Lemma Fields_join l :
  Forall (fun w => no_space w /\ w <> []) l -> Fields (join " "%char l) = l.
Proof.
  induction 1 as [|w l [Hw Hne] Hl IH]; [done|]. destruct l as [|w' l].
  - unfold Fields. simpl. by rewrite fields_from_word.
  - change (join _ (w :: w' :: l)) with (w ++ " "%char :: join " "%char (w' :: l)).
    unfold Fields. rewrite fields_from_word_space by done. simpl. f_equal. apply IH.
Qed.

Lemma split_from_sep sep cur w s :
  sep ∉ w -> split_from sep cur (w ++ sep :: s) = (cur ++ w) :: split_from sep [] s.
Proof.
  revert cur. induction w as [|b w IH]; intros cur Hw; cbn [app split_from].
  - destruct (ascii_dec sep sep); [|done]. by rewrite app_nil_r.
  - destruct (ascii_dec b sep) as [->|]; [set_solver|]. rewrite IH by set_solver. by rewrite <- app_assoc.
Qed.

Lemma Split_join sep l : l <> [] -> Forall (fun w => sep ∉ w) l -> Split sep (join sep l) = l.
Proof.
  intros Hne. induction 1 as [|w l Hw Hl IH]; [done|]. destruct l as [|w' l].
  - unfold Split. simpl. by rewrite split_from_plain.
  - change (join _ (w :: w' :: l)) with (w ++ sep :: join sep (w' :: l)).
    unfold Split. rewrite split_from_sep by done. simpl. f_equal. by apply IH.
Qed.
