(* ===== verification/Decimal.v ===== *)
(** * Decimal: Go's [strconv.ParseUint] and decimal notation

    [ParseUint s 10 bits] accepts a nonempty sequence of digits, leading zeros
    included, whose value fits; no sign, no underscore. *)

From Stdlib Require Import ZArith Lia Ascii String.
From stdpp Require Import base list strings.
From S2P Require Import Prelude GoStrings.
Open Scope Z_scope.

Definition digit_value (b : byte) : option Z :=
  let d := Z_of_byte b - 48 in if (0 <=? d) && (d <=? 9) then Some d else None.

Fixpoint digits_from (acc : Z) (s : bytes) : option Z :=
  match s with
  | [] => Some acc
  | b :: s' => match digit_value b with Some d => digits_from (acc * 10 + d) s' | None => None end
  end.

(** [None] is either error, [ErrSyntax] or [ErrRange]. *)
Definition ParseUint (bits : Z) (s : bytes) : option Z :=
  match s with
  | [] => None
  | _ => match digits_from 0 s with
         | Some v => if v <? 2 ^ bits then Some v else None
         | None => None
         end
  end.

(** [strconv.Atoi]: an optional sign, then digits, in 64 bits. *)
Definition Atoi (s : bytes) : option Z :=
  let '(neg, digits) := match s with
                        | c :: s' => if ascii_dec c "-"%char then (true, s')
                                     else if ascii_dec c "+"%char then (false, s') else (false, s)
                        | [] => (false, [])
                        end in
  match digits with
  | [] => None
  | _ => match digits_from 0 digits with
         | Some v => if neg then (if v <=? 2 ^ 63 then Some (- v) else None)
                     else (if v <? 2 ^ 63 then Some v else None)
         | None => None
         end
  end.

(** The verb [%d] on a number of fewer than [fuel] digits. *)
Definition digit (d : Z) : byte := byte_of_Z (48 + d).

Fixpoint decimal_fuel (fuel : nat) (n : Z) : bytes :=
  match fuel with
  | O => []
  | S fuel' => if n <? 10 then [digit n] else decimal_fuel fuel' (n / 10) ++ [digit (n mod 10)]
  end.

(** Twenty digits hold any 64-bit number. *)
Definition decimal (n : Z) : bytes := decimal_fuel 20 n.

(** ** Facts *)

Lemma digit_value_range b d : digit_value b = Some d -> 0 <= d <= 9.
Proof. unfold digit_value. destruct (_ && _) eqn:E; [|done]. intros [= <-]. lia. Qed.

Lemma digit_value_digit d : 0 <= d < 10 -> digit_value (digit d) = Some d.
Proof.
  intros Hd. unfold digit_value, digit. rewrite Z_of_byte_of_Z, Z.mod_small by lia.
  replace (48 + d - 48) with d by lia. by rewrite (proj2 (Z.leb_le 0 d)), (proj2 (Z.leb_le d 9)) by lia.
Qed.

Lemma digits_from_app acc s t :
  digits_from acc (s ++ t) = match digits_from acc s with Some v => digits_from v t | None => None end.
Proof. revert acc. induction s as [|b s IH]; intros acc; simpl; [done|]. destruct (digit_value b); [apply IH|done]. Qed.

Lemma digits_from_ge acc s v : 0 <= acc -> digits_from acc s = Some v -> acc <= v.
Proof.
  revert acc. induction s as [|b s IH]; intros acc Hacc; simpl; [intros [= <-]; lia|].
  destruct (digit_value b) as [d|] eqn:E; [|done]. apply digit_value_range in E.
  intros Hv%IH; lia.
Qed.

Lemma ParseUint_range bits s v : ParseUint bits s = Some v -> 0 <= v < 2 ^ bits.
Proof.
  unfold ParseUint. destruct s; [done|]. destruct (digits_from 0 _) as [w|] eqn:E; [|done].
  apply digits_from_ge in E; [|done]. destruct (Z.ltb_spec w (2 ^ bits)); [|done]. intros [= <-]. lia.
Qed.

Lemma decimal_fuel_ne fuel n : (0 < fuel)%nat -> decimal_fuel fuel n <> [].
Proof. destruct fuel; [lia|]. intros _. simpl. destruct (n <? 10); [done|]. intros H%app_eq_nil. naive_solver. Qed.

Lemma decimal_fuel_digits fuel n :
  0 <= n < 10 ^ Z.of_nat fuel -> digits_from 0 (decimal_fuel fuel n) = Some n.
Proof.
  revert n. induction fuel as [|fuel IH]; intros n Hn; cbn [decimal_fuel]; [simpl in *; f_equal; lia|].
  rewrite Nat2Z.inj_succ, Z.pow_succ_r in Hn by lia. destruct (Z.ltb_spec n 10).
  - cbn [digits_from]. rewrite digit_value_digit by lia. f_equal.
  - rewrite digits_from_app, IH by (split; [apply Z.div_pos; lia|apply Z.div_lt_upper_bound; lia]).
    cbn [digits_from]. rewrite digit_value_digit by (apply Z.mod_pos_bound; lia). f_equal.
    pose proof (Z.div_mod n 10). lia.
Qed.

Lemma ParseUint_decimal bits n : bits <= 64 -> 0 <= n < 2 ^ bits -> ParseUint bits (decimal n) = Some n.
Proof.
  intros Hb Hn. unfold ParseUint. destruct (decimal n) as [|b s] eqn:E; [by apply decimal_fuel_ne in E; [|lia]|].
  rewrite <- E. unfold decimal. rewrite decimal_fuel_digits.
  - by rewrite (proj2 (Z.ltb_lt n _)) by lia.
  - pose proof (Z.pow_le_mono_r 2 bits 64 ltac:(lia) Hb). assert (2 ^ 64 < 10 ^ Z.of_nat 20) by reflexivity. lia.
Qed.

Lemma decimal_fuel_bytes fuel n : 0 <= n -> Forall (fun b => digit_value b <> None) (decimal_fuel fuel n).
Proof.
  revert n. induction fuel as [|fuel IH]; intros n Hn; cbn [decimal_fuel]; [constructor|].
  destruct (Z.ltb_spec n 10).
  - constructor; [|constructor]. by rewrite digit_value_digit by lia.
  - apply Forall_app. split; [apply IH, Z.div_pos; lia|]. constructor; [|constructor].
    rewrite digit_value_digit by (apply Z.mod_pos_bound; lia). done.
Qed.

(** Digits are neither white space nor punctuation. *)
Lemma decimal_no_space n : 0 <= n -> no_space (decimal n).
Proof.
  intros Hn. eapply Forall_impl; [by apply decimal_fuel_bytes|]. intros b. cbn beta. unfold digit_value, is_space.
  destruct ((0 <=? Z_of_byte b - 48) && (Z_of_byte b - 48 <=? 9)) eqn:E; [|done]. intros _. lia.
Qed.

Lemma decimal_not_in b n : 0 <= n -> digit_value b = None -> b ∉ decimal n.
Proof. intros Hn Hb Hin. pose proof (decimal_fuel_bytes 20 n Hn) as H. rewrite Forall_forall in H. by apply (H b). Qed.

Lemma Atoi_decimal n : 0 <= n < 2 ^ 63 -> Atoi (decimal n) = Some n.
Proof.
  intros Hn. unfold Atoi. destruct (decimal n) as [|c s] eqn:E; [by apply decimal_fuel_ne in E; [|lia]|].
  assert (Hc : digit_value c <> None).
  { pose proof (decimal_fuel_bytes 20 n ltac:(lia)) as H. unfold decimal in E. rewrite E in H. by inv H. }
  destruct (ascii_dec c "-"%char) as [->|]; [done|]. destruct (ascii_dec c "+"%char) as [->|]; [done|]. rewrite <- E.
  unfold decimal. rewrite decimal_fuel_digits.
  - by rewrite (proj2 (Z.ltb_lt n _)) by lia.
  - assert (2 ^ 63 < 10 ^ Z.of_nat 20) by reflexivity. lia.
Qed.
