(* ===== verification/Ports.v ===== *)
(** * Ports: where the server listens ([service.go])

    The syntax of [--port], the local addresses, and the search for a port that
    is free on all of them. *)

From Stdlib Require Import ZArith Lia Ascii String.
From stdpp Require Import base list strings sets.
From S2P Require Import Prelude GoStrings Decimal.
Open Scope Z_scope.

Definition DASH : byte := "-"%char.

Definition kDefaultPortRange : bytes := bs "61001-61999".

(** ** The port option *)

(** The closure [addPortRange]; the warnings are not recorded. *)
Definition addPortRange (lowPort : bytes) (highPort : option bytes) : list (Z * Z) :=
  match ParseUint 16 lowPort with
  | None => []
  | Some low =>
      if low =? 0 then []
      else
        match highPort with
        | None => [(low, low)]
        | Some h =>
            match ParseUint 16 h with
            | None => []
            | Some high => if high =? 0 then [] else if high <? low then [] else [(low, high)]
            end
        end
  end.

Definition is_dash (t : option bytes) : bool := bool_decide (t = Some [DASH]).

(** The loop over the tokens of a segment, from [i]; [k] is the index of the
    last token that a lone dash has taken as the end of its range.  Each pass
    moves [i] forward, so the number of tokens is enough fuel. *)
Fixpoint port_tokens (fuel : nat) (tokens : list bytes) (i : nat) (k : Z) : list (Z * Z) :=
  match fuel with
  | O => []
  | S fuel' =>
      match tokens !! i with
      | None => []
      | Some token =>
          if bool_decide (DASH ∈ token) && negb (is_dash (Some token)) then
            match Split DASH token with
            | [(_ :: _) as a; (_ :: _) as b] => addPortRange a (Some b) ++ port_tokens fuel' tokens (S i) k
            | _ => port_tokens fuel' tokens (S i) k
            end
          else if is_dash (Some token) then
            match i, tokens !! pred i, tokens !! S i with
            | S i', Some low, Some high =>
                if Z.of_nat i' <=? k then port_tokens fuel' tokens (S (S i)) k
                else addPortRange low (Some high) ++ port_tokens fuel' tokens (S (S i)) (Z.of_nat (S i))
            | _, _, _ => port_tokens fuel' tokens (S (S i)) k
            end
          else if is_dash (tokens !! S i) then port_tokens fuel' tokens (S i) k
          else if (0 <? Z.of_nat i) && is_dash (tokens !! pred i) then port_tokens fuel' tokens (S i) k
          else addPortRange token None ++ port_tokens fuel' tokens (S i) k
      end
  end.

Definition parsePortRanges (tsshdPort : bytes) : list (Z * Z) :=
  seg ← Split COMMA tsshdPort; let tokens := Fields seg in port_tokens (length tokens) tokens 0 (-1).

(** ** Local addresses *)

Record udp_addr := Addr { a_ip : bytes; a_zone : bytes }.

#[export] Instance udp_addr_eq_dec : EqDecision udp_addr.
Proof. solve_decision. Defined.

(** [net.IP.To4] and [To16] are not nil. *)
Definition v4_in_v6_prefix : bytes := replicate 10 "000"%char ++ ["255"%char; "255"%char].

Definition To4 (ip : bytes) : bool :=
  (length ip =? 4)%nat || ((length ip =? 16)%nat && has_prefix ip v4_in_v6_prefix).

Definition To16 (ip : bytes) : bool := (length ip =? 4)%nat || (length ip =? 16)%nat.

Record listen_args := LArgs { la_TCP : bool; la_IPv4 : bool; la_IPv6 : bool; la_Port : bytes }.

(** What the operating system says: the environment variable, name resolution,
    the interfaces with their addresses ([None]: an address that is neither
    [IPNet] nor [IPAddr]), and whether a socket can be opened. *)
Record os := Os {
  SSH_CONNECTION : bytes;
  ResolveUDPAddr : bytes -> option udp_addr;
  Interfaces : option (list (bytes * option (list (option bytes))));
  ListenUDP : udp_addr -> Z -> bool;
  ListenTCP : udp_addr -> Z -> bool
}.

(** Port 0: any free port. *)
Definition canListenOnIP (o : os) (args : listen_args) (a : udp_addr) : bool :=
  if la_TCP args then ListenTCP o a 0 else ListenUDP o a 0.

(** The address that [SSH_CONNECTION] names. *)
Definition ssh_connection_addr (env : bytes) : option bytes :=
  match Fields env with
  | _ :: _ :: ip0 :: _ =>
      let ip := if has_prefix (ToLower ip0) (bs "::ffff:") then drop 7 ip0 else ip0 in
      Some (if negb (has_prefix ip (bs "[")) && bool_decide (":"%char ∈ ip)
            then bs "[" ++ ip ++ bs "]:0" else ip ++ bs ":0")
  | _ => None
  end.

Definition addListenableAddr (o : os) (args : listen_args) (ip zone : bytes) : list udp_addr :=
  let ipv4Only := la_IPv4 args && negb (la_IPv6 args) in
  let ipv6Only := negb (la_IPv4 args) && la_IPv6 args in
  if To4 ip then
    if ipv6Only then [] else if canListenOnIP o args (Addr ip []) then [Addr ip []] else []
  else if To16 ip then
    if ipv4Only then [] else if canListenOnIP o args (Addr ip zone) then [Addr ip zone] else []
  else [].

Definition interface_addrs (o : os) (args : listen_args) : list udp_addr :=
  '(name, addrs) ← default [] (Interfaces o);
  a ← default [] addrs;
  match a with Some ip => addListenableAddr o args ip name | None => [] end.

Definition getUdpAddrs (o : os) (args : listen_args) : option (list udp_addr) :=
  let named := match ssh_connection_addr (SSH_CONNECTION o) with
               | Some s => match ResolveUDPAddr o s with
                           | Some a => if canListenOnIP o args a then Some a else None
                           | None => None
                           end
               | None => None
               end in
  match named with
  | Some a => Some [a]
  | None =>
      match interface_addrs o args with
      | [] => match ResolveUDPAddr o (bs ":0") with Some a => Some [a] | None => None end
      | l => Some l
      end
  end.

(** ** Opening the sockets *)

Abbreviation socket := (udp_addr * Z)%type.

Inductive sock_event := Opened (s : socket) | ClosedSock (s : socket).

(** Open one socket per address; after a failure the deferred function closes
    those already open.  [listen] answers for the sockets that other processes
    have; the addresses are distinct, as those of interfaces are, so that the
    sockets of one call do not stand in each other's way. *)
Fixpoint listen_all (listen : udp_addr -> Z -> bool) (addrs : list udp_addr) (port : Z)
    (conns : list socket) : option (list socket) * list sock_event :=
  match addrs with
  | [] => (Some conns, [])
  | a :: addrs' =>
      if listen a port then
        let '(r, evs) := listen_all listen addrs' port (conns ++ [(a, port)]) in (r, Opened (a, port) :: evs)
      else (None, ClosedSock <$> conns)
  end.

Definition udpListenOnPort (o : os) (addrs : list udp_addr) (port : Z) := listen_all (ListenUDP o) addrs port [].

Definition tcpListenOnPort (o : os) (addrs : list udp_addr) (port : Z) := listen_all (ListenTCP o) addrs port [].

Definition listenOnPort (o : os) (args : listen_args) (addrs : list udp_addr) (port : Z) :=
  if la_TCP args then tcpListenOnPort o addrs port else udpListenOnPort o addrs port.

(** The loop [for range size] of one port range. *)
Fixpoint probe_range (o : os) (args : listen_args) (addrs : list udp_addr) (low high : Z) (n : nat) (port : Z) :
    option (list socket * Z) * list sock_event :=
  match n with
  | O => (None, [])
  | S n' =>
      let '(r, evs) := listenOnPort o args addrs port in
      match r with
      | Some conns => (Some (conns, port), evs)
      | None =>
          let port' := if high <? port + 1 then low else port + 1 in
          let '(r', evs') := probe_range o args addrs low high n' port' in (r', evs ++ evs')
      end
  end.

(** [intn] gives the random numbers: the first argument counts the calls. *)
Fixpoint probe_ranges (o : os) (args : listen_args) (addrs : list udp_addr) (intn : nat -> Z -> Z) (c : nat)
    (ranges : list (Z * Z)) : option (list socket * Z) * list sock_event :=
  match ranges with
  | [] => (None, [])
  | (low, high) :: ranges' =>
      let size := high - low + 1 in
      let '(r, evs) := probe_range o args addrs low high (Z.to_nat size) (low + intn c size) in
      match r with
      | Some res => (Some res, evs)
      | None => let '(r', evs') := probe_ranges o args addrs intn (S c) ranges' in (r', evs ++ evs')
      end
  end.

Inductive listen_error := NoPortGiven | NoAddress | ListenFailed.

Definition listenOnFreePort (o : os) (args : listen_args) (shuffle : list (Z * Z) -> list (Z * Z))
    (intn : nat -> Z -> Z) : (listen_error + list socket * Z) * list sock_event :=
  let tsshdPort := match la_Port args with [] => kDefaultPortRange | p => p end in
  match parsePortRanges tsshdPort with
  | [] => (inl NoPortGiven, [])
  | ranges =>
      let ranges' := if (1 <? length ranges)%nat then shuffle ranges else ranges in
      match getUdpAddrs o args with
      | None => (inl NoAddress, [])
      | Some addrs =>
          let '(r, evs) := probe_ranges o args addrs intn 0 ranges' in
          (match r with Some x => inr x | None => inl ListenFailed end, evs)
      end
  end.

(** ** What the option means *)

Definition range_ok (r : Z * Z) : Prop := 1 <= r.1 <= r.2 /\ r.2 <= 65535.

Lemma addPortRange_ok l h : Forall range_ok (addPortRange l h).
Proof.
  unfold addPortRange. destruct (ParseUint 16 l) as [low|] eqn:El; [|constructor].
  apply ParseUint_range in El. destruct (Z.eqb_spec low 0); [constructor|]. destruct h as [h|].
  - destruct (ParseUint 16 h) as [high|] eqn:Eh; [|constructor]. apply ParseUint_range in Eh.
    destruct (Z.eqb_spec high 0), (Z.ltb_spec high low); try constructor; [|constructor].
    unfold range_ok. simpl. lia.
  - constructor; [|constructor]. unfold range_ok. simpl. lia.
Qed.

Lemma port_tokens_ok fuel tokens i k : Forall range_ok (port_tokens fuel tokens i k).
Proof.
  revert i k. induction fuel as [|fuel IH]; intros i k; cbn [port_tokens]; [constructor|].
  repeat case_match; try constructor; try apply IH; apply Forall_app; auto using addPortRange_ok.
Qed.

Lemma port_tokens_parsed s : Forall range_ok (parsePortRanges s).
Proof.
  unfold parsePortRanges. apply Forall_forall. intros r (seg & Hr & _)%list_elem_of_bind.
  pose proof (port_tokens_ok (length (Fields seg)) (Fields seg) 0 (-1)) as Hok.
  rewrite Forall_forall in Hok. by apply Hok.
Qed.

(** Whatever the text, the ranges are made of valid ports, lower end
    first. *)
Theorem port_ranges_typed s : Forall (fun r => 1 <= r.1 <= r.2 /\ r.2 <= 65535) (parsePortRanges s).
Proof. apply port_tokens_parsed. Qed.

(** The three ways of writing a range. *)
Inductive notation := Single | Joined | Spaced.

Definition notation_ok (x : notation * (Z * Z)) : Prop :=
  range_ok x.2 /\ (x.1 = Single -> x.2.1 = x.2.2).

Definition write_range (x : notation * (Z * Z)) : list bytes :=
  let '(f, (low, high)) := x in
  match f with
  | Single => [decimal low]
  | Joined => [decimal low ++ DASH :: decimal high]
  | Spaced => [decimal low; [DASH]; decimal high]
  end.

Definition write_ports (segs : list (list (notation * (Z * Z)))) : bytes :=
  join COMMA ((fun seg => join " "%char (seg ≫= write_range)) <$> segs).

Lemma decimal_ne n : decimal n <> [].
Proof. apply decimal_fuel_ne. lia. Qed.

Lemma decimal_no_dash n : 0 <= n -> DASH ∉ decimal n.
Proof. intros Hn. by apply decimal_not_in. Qed.

Lemma decimal_is_dash n : 0 <= n -> is_dash (Some (decimal n)) = false.
Proof.
  intros Hn. apply bool_decide_eq_false. intros [= E]. apply (decimal_no_dash n Hn). rewrite E. set_solver.
Qed.

Lemma joined_is_dash a b : a <> [] -> is_dash (Some (a ++ DASH :: b)) = false.
Proof. intros Ha. apply bool_decide_eq_false. destruct a as [|x [|y a]]; try done; by destruct b. Qed.

Lemma addPortRange_decimal low high :
  range_ok (low, high) -> addPortRange (decimal low) (Some (decimal high)) = [(low, high)].
Proof.
  intros [Hlow Hhigh]. simpl in *. unfold addPortRange. rewrite !ParseUint_decimal by lia.
  destruct (Z.eqb_spec low 0), (Z.eqb_spec high 0), (Z.ltb_spec high low); try lia. done.
Qed.

Lemma addPortRange_single low :
  range_ok (low, low) -> addPortRange (decimal low) None = [(low, low)].
Proof.
  intros [Hlow Hhigh]. simpl in *. unfold addPortRange. rewrite ParseUint_decimal by lia.
  by destruct (Z.eqb_spec low 0); [lia|].
Qed.

Lemma write_range_words x :
  notation_ok x -> Forall (fun w => no_space w /\ w <> [] /\ COMMA ∉ w) (write_range x).
Proof.
  destruct x as [f [low high]]. intros [[Hlow Hhigh] _]. simpl in Hlow, Hhigh.
  assert (Hd : forall n, 0 <= n -> no_space (decimal n) /\ decimal n <> [] /\ COMMA ∉ decimal n).
  { intros n Hn. split_and!; [by apply decimal_no_space|apply decimal_ne|by apply decimal_not_in]. }
  destruct (Hd low ltac:(lia)) as (L1 & L2 & L3). destruct (Hd high ltac:(lia)) as (H1 & H2 & H3).
  assert (Hdash : no_space [DASH]) by (by constructor; [|constructor]).
  destruct f; simpl; repeat constructor; try done.
  - apply Forall_app. split; [done|]. by constructor.
  - by destruct (decimal low).
  - rewrite elem_of_app, elem_of_cons. naive_solver.
  - rewrite list_elem_of_singleton. done.
Qed.

(** The first word of a range is not a dash, so a range before it ends. *)
Lemma write_range_head rs :
  Forall notation_ok rs -> is_dash ((rs ≫= write_range) !! 0%nat) = false.
Proof.
  destruct 1 as [|[f [low high]] rs [[Hlow Hhigh] _] _]; [done|]. simpl in *.
  destruct f; simpl; [apply decimal_is_dash; lia|apply joined_is_dash, decimal_ne|apply decimal_is_dash; lia].
Qed.

Lemma lookup_after {A} (pre : list A) x y l : (pre ++ x :: y :: l) !! S (length pre) = Some y.
Proof. rewrite lookup_app_r by lia. by replace (S (length pre) - length pre)%nat with 1%nat by lia. Qed.

Lemma lookup_next {A} (pre : list A) x l : (pre ++ x :: l) !! S (length pre) = l !! 0%nat.
Proof. rewrite lookup_app_r by lia. by replace (S (length pre) - length pre)%nat with 1%nat by lia. Qed.

(** One step over a token that is a range by itself. *)
Lemma port_tokens_single fuel pre low rest k :
  range_ok (low, low) -> is_dash (rest !! 0%nat) = false -> is_dash (last pre) = false ->
  port_tokens (S fuel) (pre ++ decimal low :: rest) (length pre) k =
  (low, low) :: port_tokens fuel (pre ++ decimal low :: rest) (S (length pre)) k.
Proof.
  intros Hok Hnext Hlast. assert (Hl : 0 <= low) by (destruct Hok; simpl in *; lia).
  cbn [port_tokens]. rewrite list_lookup_middle by done.
  rewrite bool_decide_eq_false_2 by (by apply decimal_no_dash). cbn [andb].
  rewrite decimal_is_dash by done. rewrite lookup_next, Hnext.
  assert (Hp : (0 <? Z.of_nat (length pre)) && is_dash ((pre ++ decimal low :: rest) !! pred (length pre)) = false).
  { destruct (Z.ltb_spec 0 (Z.of_nat (length pre))); [|done]. cbn [andb].
    rewrite lookup_app_l by lia. by rewrite <- last_lookup. }
  rewrite Hp, addPortRange_single by done. done.
Qed.

Lemma port_tokens_joined fuel pre low high rest k :
  range_ok (low, high) ->
  let tokens := pre ++ (decimal low ++ DASH :: decimal high) :: rest in
  port_tokens (S fuel) tokens (length pre) k = (low, high) :: port_tokens fuel tokens (S (length pre)) k.
Proof.
  intros Hok tokens. destruct Hok as [Hl Hh] eqn:E. clear E. simpl in Hl, Hh.
  cbn [port_tokens]. unfold tokens at 1. rewrite list_lookup_middle by done.
  rewrite bool_decide_eq_true_2 by (rewrite elem_of_app, elem_of_cons; naive_solver).
  rewrite joined_is_dash by apply decimal_ne. cbn [andb negb].
  assert (Hsplit : Split DASH (decimal low ++ DASH :: decimal high) = [decimal low; decimal high]).
  { unfold Split. rewrite split_from_sep by (apply decimal_no_dash; lia).
    by rewrite split_from_plain by (apply decimal_no_dash; lia). }
  rewrite Hsplit. pose proof (decimal_ne low). pose proof (decimal_ne high).
  destruct (decimal low) as [|x a] eqn:Ea; [done|]. destruct (decimal high) as [|y b] eqn:Eb; [done|].
  rewrite <- Ea, <- Eb. by rewrite addPortRange_decimal.
Qed.

(** The two passes over the words [low], [-], [high]. *)
Lemma port_tokens_spaced fuel pre low high rest k :
  range_ok (low, high) -> k < Z.of_nat (length pre) ->
  let tokens := pre ++ decimal low :: [DASH] :: decimal high :: rest in
  port_tokens (S (S fuel)) tokens (length pre) k =
  (low, high) :: port_tokens fuel tokens (S (S (S (length pre)))) (Z.of_nat (S (S (length pre)))).
Proof.
  intros Hok Hk tokens. assert (Hl : 0 <= low) by (destruct Hok; simpl in *; lia).
  remember (S fuel) as fuel1 eqn:Hf. cbn [port_tokens].
  assert (T0 : tokens !! length pre = Some (decimal low)) by (by apply list_lookup_middle).
  assert (T1 : tokens !! S (length pre) = Some [DASH]) by apply lookup_after.
  assert (T2 : tokens !! S (S (length pre)) = Some (decimal high)).
  { unfold tokens. rewrite lookup_app_r by lia.
    by replace (S (S (length pre)) - length pre)%nat with 2%nat by lia. }
  rewrite T0, bool_decide_eq_false_2 by (by apply decimal_no_dash). cbn [andb].
  rewrite decimal_is_dash, T1 by done. replace (is_dash (Some [DASH])) with true by done.
  rewrite Hf. cbn [port_tokens pred]. rewrite T1. cbn [andb negb]. rewrite T0, T2.
  rewrite bool_decide_eq_true_2 by set_solver. replace (is_dash (Some [DASH])) with true by done. cbn [andb negb].
  rewrite (proj2 (Z.leb_gt _ k)) by lia. by rewrite addPortRange_decimal.
Qed.

Lemma last_snoc_dash pre w : is_dash (Some w) = false -> is_dash (last (pre ++ [w])) = false.
Proof. by rewrite last_snoc. Qed.

Lemma port_tokens_written rs pre k fuel :
  Forall notation_ok rs -> is_dash (last pre) = false -> k < Z.of_nat (length pre) ->
  (length (rs ≫= write_range) <= fuel)%nat ->
  port_tokens fuel (pre ++ (rs ≫= write_range)) (length pre) k = snd <$> rs.
Proof.
  intros Hrs. revert pre k fuel. induction Hrs as [|[f [low high]] rs [Hok Hsingle] Hrs IH]; intros pre k fuel Hlast Hk Hfuel.
  { cbn [mbind list_bind]. rewrite app_nil_r. destruct fuel; [done|]. cbn [port_tokens].
    by rewrite lookup_ge_None_2. }
  assert (Hl : 0 <= low /\ 0 <= high) by (destruct Hok; simpl in *; lia). destruct Hl as [Hl Hh].
  cbn [mbind list_bind] in *. change (list_bind _ _ write_range rs) with (rs ≫= write_range) in *.
  rewrite length_app in Hfuel. simpl in Hsingle, Hok. destruct f; cbn [write_range length app] in *.
  - specialize (Hsingle eq_refl) as <-. destruct fuel as [|fuel]; [lia|].
    rewrite port_tokens_single by (done || by apply write_range_head).
    cbn. f_equal. specialize (IH (pre ++ [decimal low]) k fuel).
    rewrite length_app, <- app_assoc in IH. cbn [length app] in IH. rewrite Nat.add_1_r in IH.
    apply IH; [by apply last_snoc_dash, decimal_is_dash|lia..].
  - destruct fuel as [|fuel]; [lia|]. rewrite port_tokens_joined by done.
    cbn. f_equal. specialize (IH (pre ++ [decimal low ++ DASH :: decimal high]) k fuel).
    rewrite length_app, <- app_assoc in IH. cbn [length app] in IH. rewrite Nat.add_1_r in IH.
    apply IH; [apply last_snoc_dash, joined_is_dash, decimal_ne|lia..].
  - destruct fuel as [|[|fuel]]; [lia..|]. rewrite port_tokens_spaced by done.
    cbn. f_equal.
    specialize (IH (pre ++ [decimal low; [DASH]; decimal high]) (Z.of_nat (S (S (length pre)))) fuel).
    rewrite length_app, <- app_assoc in IH. cbn [length app] in IH.
    replace (length pre + 3)%nat with (S (S (S (length pre)))) in IH by lia.
    apply IH; [|lia..]. change [decimal low; [DASH]; decimal high] with ([decimal low; [DASH]] ++ [decimal high]).
    rewrite app_assoc. by apply last_snoc_dash, decimal_is_dash.
Qed.

Lemma join_comma l : Forall (fun w => COMMA ∉ w) l -> COMMA ∉ join " "%char l.
Proof.
  induction 1 as [|w l Hw Hl IH]; [set_solver|]. destruct l as [|w' l]; [done|].
  change (join _ (w :: w' :: l)) with (w ++ " "%char :: join " "%char (w' :: l)).
  rewrite elem_of_app, elem_of_cons. naive_solver.
Qed.

(** Ranges written in any of the three notations, several to a segment and
    segments separated by commas, are read back in order. *)
Theorem port_ranges_roundtrip segs :
  segs <> [] -> Forall (Forall notation_ok) segs ->
  parsePortRanges (write_ports segs) = snd <$> mjoin segs.
Proof.
  intros Hne Hok. unfold parsePortRanges, write_ports.
  assert (Hwords : forall seg, Forall notation_ok seg ->
    Forall (fun w => no_space w /\ w <> [] /\ COMMA ∉ w) (seg ≫= write_range)).
  { intros seg Hseg. apply Forall_bind. eapply Forall_impl; [exact Hseg|]. apply write_range_words. }
  rewrite Split_join; [|by destruct segs|].
  2: { apply Forall_fmap. eapply Forall_impl; [exact Hok|]. intros seg Hseg. apply join_comma.
       eapply Forall_impl; [by apply Hwords|]. naive_solver. }
  clear Hne. induction Hok as [|seg segs Hseg Hsegs IH]; [done|].
  rewrite fmap_cons, bind_cons, IH. cbn [mjoin list_join]. rewrite fmap_app. f_equal.
  rewrite Fields_join. 2: { eapply Forall_impl; [by apply Hwords|]. naive_solver. }
  apply (port_tokens_written seg [] (-1)); [done|done|done|lia].
Qed.

(** ** The search for a port *)

Definition can_listen (o : os) (args : listen_args) (a : udp_addr) (port : Z) : bool :=
  if la_TCP args then ListenTCP o a port else ListenUDP o a port.

(** The sockets left open by a sequence of events. *)
Fixpoint still_open (evs : list sock_event) (opened : list socket) : list socket :=
  match evs with
  | [] => opened
  | Opened s :: evs' => still_open evs' (opened ++ [s])
  | ClosedSock s :: evs' => still_open evs' (filter (fun s' => s' <> s) opened)
  end.

Lemma still_open_app e1 e2 l : still_open (e1 ++ e2) l = still_open e2 (still_open e1 l).
Proof. revert l. induction e1 as [|[s|s] e1 IH]; intros l; simpl; auto. Qed.

Lemma still_open_close conns l :
  (forall s, s ∈ l -> s ∈ conns) -> still_open (ClosedSock <$> conns) l = [].
Proof.
  revert l. induction conns as [|s conns IH]; intros l Hl; simpl.
  - destruct l as [|s l]; [done|]. specialize (Hl s). set_solver.
  - apply IH. intros s' [Hs' Hin]%list_elem_of_filter. specialize (Hl s' Hin). set_solver.
Qed.

(** All or nothing: either every address is open, or everything is closed. *)
Lemma listen_all_spec listen addrs port conns :
  let '(r, evs) := listen_all listen addrs port conns in
  match r with
  | Some l => l = conns ++ ((., port) <$> addrs) /\ Forall (fun a => listen a port = true) addrs /\
              still_open evs conns = l
  | None => Exists (fun a => listen a port = false) addrs /\ still_open evs conns = []
  end.
Proof.
  revert conns. induction addrs as [|a addrs IH]; intros conns; cbn [listen_all].
  { by rewrite app_nil_r. }
  destruct (listen a port) eqn:Ha.
  - specialize (IH (conns ++ [(a, port)])). destruct (listen_all _ _ _ _) as [[l|] evs]; simpl.
    + destruct IH as (-> & Hall & Hopen). rewrite <- app_assoc. split_and!; auto.
      by rewrite <- app_assoc in Hopen.
    + destruct IH as [Hex Hopen]. split; [by right|done].
  - split; [by left|]. by apply still_open_close.
Qed.

Lemma listenOnPort_spec o args addrs port :
  let '(r, evs) := listenOnPort o args addrs port in
  match r with
  | Some l => l = (., port) <$> addrs /\ Forall (fun a => can_listen o args a port = true) addrs /\
              still_open evs [] = l
  | None => Exists (fun a => can_listen o args a port = false) addrs /\ still_open evs [] = []
  end.
Proof. unfold listenOnPort, can_listen. destruct (la_TCP args); apply (listen_all_spec _ addrs port []). Qed.

(** The ports that [n] probes from [port] on visit. *)
Fixpoint visited (low high : Z) (n : nat) (port : Z) : list Z :=
  match n with
  | O => []
  | S n' => port :: visited low high n' (if high <? port + 1 then low else port + 1)
  end.

Lemma probe_range_spec o args addrs low high n port :
  let '(r, evs) := probe_range o args addrs low high n port in
  match r with
  | Some (l, p) => p ∈ visited low high n port /\ l = (., p) <$> addrs /\
                   Forall (fun a => can_listen o args a p = true) addrs /\ still_open evs [] = l
  | None => Forall (fun p => Exists (fun a => can_listen o args a p = false) addrs) (visited low high n port) /\
            still_open evs [] = []
  end.
Proof.
  revert port. induction n as [|n IH]; intros port; cbn [probe_range visited]; [by split|].
  pose proof (listenOnPort_spec o args addrs port) as Hp. destruct (listenOnPort _ _ _ _) as [[l|] evs].
  - destruct Hp as (? & ? & ?). split_and!; [set_solver|done..].
  - destruct Hp as [Hex Hopen]. set (port' := if high <? port + 1 then low else port + 1) in *.
    specialize (IH port'). destruct (probe_range _ _ _ _ _ _ _) as [[[l p]|] evs']; rewrite still_open_app, Hopen.
    + destruct IH as (? & ? & ? & ?). split_and!; [set_solver|done..].
    + destruct IH as [? ?]. split; [by constructor|done].
Qed.

(** Going up from [port]: without wrapping, [n] probes are [n] successive
    ports. *)
Lemma visited_up low high n port p :
  low <= port -> port + Z.of_nat n - 1 <= high -> port <= p < port + Z.of_nat n -> p ∈ visited low high n port.
Proof.
  revert port. induction n as [|n IH]; intros port Hlow Hn Hp; [lia|]. cbn [visited].
  destruct (Z.eq_dec p port) as [->|]; [left|]. right.
  destruct (Z.ltb_spec high (port + 1)); [lia|]. apply IH; lia.
Qed.

Lemma visited_wrap low high n m port :
  low <= port -> port + Z.of_nat n = high + 1 -> (0 < n)%nat ->
  visited low high (n + m) port = visited low high n port ++ visited low high m low.
Proof.
  revert port. induction n as [|n IH]; intros port Hlow Hn Hpos; [lia|]. cbn [visited Nat.add app]. f_equal.
  destruct (Z.ltb_spec high (port + 1)).
  - assert (n = O) as -> by lia. done.
  - apply IH; lia.
Qed.

Lemma visited_range low high n port p :
  low <= port <= high -> p ∈ visited low high n port -> low <= p <= high.
Proof.
  revert port. induction n as [|n IH]; intros port Hport; cbn [visited]; [set_solver|].
  intros [->|Hp]%elem_of_cons; [done|]. eapply IH, Hp. destruct (Z.ltb_spec high (port + 1)); lia.
Qed.

(** As many probes as ports, from any of them, visit them all. *)
Lemma visited_all low high port p :
  low <= port <= high -> low <= p <= high -> p ∈ visited low high (Z.to_nat (high - low + 1)) port.
Proof.
  intros Hport Hp. replace (Z.to_nat (high - low + 1)) with (Z.to_nat (high + 1 - port) + Z.to_nat (port - low))%nat by lia.
  rewrite visited_wrap by lia. apply elem_of_app. destruct (Z.le_gt_cases port p).
  - left. apply visited_up; lia.
  - right. apply visited_up; lia.
Qed.

Definition in_ranges (p : Z) (ranges : list (Z * Z)) : Prop := Exists (fun r => r.1 <= p <= r.2) ranges.

Lemma probe_ranges_spec o args addrs intn c ranges :
  (forall i n, 0 < n -> 0 <= intn i n < n) -> Forall range_ok ranges ->
  let '(r, evs) := probe_ranges o args addrs intn c ranges in
  match r with
  | Some (l, p) => in_ranges p ranges /\ l = (., p) <$> addrs /\
                   Forall (fun a => can_listen o args a p = true) addrs /\ still_open evs [] = l
  | None => (forall p, in_ranges p ranges -> Exists (fun a => can_listen o args a p = false) addrs) /\
            still_open evs [] = []
  end.
Proof.
  intros Hintn Hok. revert c. induction Hok as [|[low high] ranges [Hlow Hhigh] Hok IH]; intros c; cbn [probe_ranges].
  { split; [|done]. intros p Hp. by inv Hp. }
  simpl in Hlow, Hhigh. specialize (Hintn c (high - low + 1) ltac:(lia)).
  pose proof (probe_range_spec o args addrs low high (Z.to_nat (high - low + 1)) (low + intn c (high - low + 1))) as Hr.
  destruct (probe_range _ _ _ _ _ _ _) as [[[l p]|] evs].
  - destruct Hr as (Hv & ? & ? & ?). split_and!; [|done..]. left. simpl. eapply visited_range, Hv. lia.
  - destruct Hr as [Hall Hopen]. specialize (IH (S c)).
    destruct (probe_ranges _ _ _ _ _ _) as [[[l p]|] evs']; rewrite still_open_app, Hopen.
    + destruct IH as (? & ? & ? & ?). split_and!; [by right|done..].
    + destruct IH as [Hnone ?]. split; [|done]. intros p Hp. inv Hp as [? ? Hin|? ? Hin]; [|auto].
      simpl in Hin. rewrite Forall_forall in Hall. apply Hall, visited_all; lia.
Qed.

(** C25: the search succeeds exactly when some port of the option is free on
    every address: it then holds one socket per address, all on one such port;
    otherwise it has tried every port and left no socket open. *)
Theorem listen_finds_free_port o args shuffle intn addrs :
  let ranges := parsePortRanges (match la_Port args with [] => kDefaultPortRange | p => p end) in
  (forall l, shuffle l ≡ₚ l) -> (forall i n, 0 < n -> 0 <= intn i n < n) ->
  ranges <> [] -> getUdpAddrs o args = Some addrs ->
  let '(r, evs) := listenOnFreePort o args shuffle intn in
  match r with
  | inr (conns, p) => in_ranges p ranges /\ conns = (., p) <$> addrs /\
                      Forall (fun a => can_listen o args a p = true) addrs /\ still_open evs [] = conns
  | inl e => e = ListenFailed /\ still_open evs [] = [] /\
             forall p, in_ranges p ranges -> Exists (fun a => can_listen o args a p = false) addrs
  end.
Proof.
  intros ranges Hshuffle Hintn Hne Haddrs. unfold listenOnFreePort. rewrite Haddrs. fold ranges.
  assert (Hok : Forall range_ok ranges) by apply port_tokens_parsed.
  set (ranges' := if (1 <? length ranges)%nat then shuffle ranges else ranges).
  assert (Hperm : ranges' ≡ₚ ranges) by (unfold ranges'; destruct (_ <? _)%nat; auto).
  assert (Hok' : Forall range_ok ranges') by (by rewrite Hperm).
  assert (Hin : forall p, in_ranges p ranges' <-> in_ranges p ranges) by (intros p; unfold in_ranges; by rewrite Hperm).
  pose proof (probe_ranges_spec o args addrs intn 0 ranges' Hintn Hok') as Hspec.
  destruct ranges as [|r0 rs] eqn:Er; [done|]. fold ranges'.
  destruct (probe_ranges _ _ _ _ _ _) as [[[l p]|] evs].
  - destruct Hspec as (? & ? & ? & ?). split_and!; [by apply Hin|done..].
  - destruct Hspec as [Hnone Hopen]. split_and!; [done..|]. intros p Hp. by apply Hnone, Hin.
Qed.

(** ** The addresses *)

Lemma interface_addrs_family o args a :
  a ∈ interface_addrs o args ->
  (la_IPv4 args = true -> la_IPv6 args = false -> To4 (a_ip a) = true) /\
  (la_IPv6 args = true -> la_IPv4 args = false -> To4 (a_ip a) = false).
Proof.
  unfold interface_addrs. intros ([name addrs] & ([ip|] & Ha & _)%list_elem_of_bind & _)%list_elem_of_bind;
    [|by apply not_elem_of_nil in Ha].
  unfold addListenableAddr in Ha. destruct (la_IPv4 args), (la_IPv6 args), (To4 ip) eqn:E4; simpl in Ha;
    repeat case_match; try (by apply not_elem_of_nil in Ha); apply list_elem_of_singleton in Ha as ->;
    simpl; split; intros; congruence.
Qed.

(** The flags select the family of the addresses of the interfaces, but an
    address named by SSH_CONNECTION is taken whatever its family. *)
Theorem address_family o args addrs :
  getUdpAddrs o args = Some addrs ->
  (exists s a, ssh_connection_addr (SSH_CONNECTION o) = Some s /\ ResolveUDPAddr o s = Some a /\ addrs = [a]) \/
  (exists a, interface_addrs o args = [] /\ ResolveUDPAddr o (bs ":0") = Some a /\ addrs = [a]) \/
  Forall (fun a =>
    (la_IPv4 args = true -> la_IPv6 args = false -> To4 (a_ip a) = true) /\
    (la_IPv6 args = true -> la_IPv4 args = false -> To4 (a_ip a) = false)) addrs.
Proof.
  unfold getUdpAddrs. intros H.
  assert (Hrest : match interface_addrs o args with
                  | [] => match ResolveUDPAddr o (bs ":0") with Some a => Some [a] | None => None end
                  | l => Some l
                  end = Some addrs ->
    (exists a, interface_addrs o args = [] /\ ResolveUDPAddr o (bs ":0") = Some a /\ addrs = [a]) \/
    Forall (fun a =>
      (la_IPv4 args = true -> la_IPv6 args = false -> To4 (a_ip a) = true) /\
      (la_IPv6 args = true -> la_IPv4 args = false -> To4 (a_ip a) = false)) addrs).
  { pose proof (interface_addrs_family o args) as Hf. destruct (interface_addrs o args) as [|a l].
    - destruct (ResolveUDPAddr o (bs ":0")); intros [= <-]; eauto.
    - intros [= <-]. right. by apply Forall_forall. }
  destruct (ssh_connection_addr (SSH_CONNECTION o)) as [s|]; [|by right; apply Hrest].
  destruct (ResolveUDPAddr o s) as [a|] eqn:Ea; [|by right; apply Hrest].
  destruct (canListenOnIP o args a); [|by right; apply Hrest].
  injection H as <-. left. eauto.
Qed.

(** ** Examples *)

Definition mixed_ports : list (list (notation * (Z * Z))) :=
  [[(Joined, (8000, 9000)); (Single, (80, 80)); (Spaced, (90, 100))]; []; [(Spaced, (1, 65535))]].

Lemma port_ranges_roundtrip_witness :
  write_ports mixed_ports = bs "8000-9000 80 90 - 100,,1 - 65535" /\
  parsePortRanges (write_ports mixed_ports) = [(8000, 9000); (80, 80); (90, 100); (1, 65535)].
Proof.
  split; [vm_compute; reflexivity|]. rewrite (port_ranges_roundtrip mixed_ports); [reflexivity|discriminate|].
  unfold mixed_ports, notation_ok, range_ok. repeat constructor; simpl; try discriminate; lia.
Defined.

(** A dash without two ports, a descending range and port 0 are skipped. *)
Example malformed_ranges :
  parsePortRanges (bs "- 70,80 - 90 - 95,300-200,0,7-8-9,65536,5") = [(80, 90); (5, 5)].
Proof. vm_compute. reflexivity. Qed.

(** A host with two addresses, on one of which port 4002 is taken. *)
Definition host_v4 : udp_addr := Addr ["010"%char; "000"%char; "000"%char; "001"%char] [].
Definition host_v6 : udp_addr := Addr (replicate 15 "000"%char ++ ["001"%char]) (bs "eth0").

Definition example_os (ssh : bytes) : os :=
  Os ssh (fun s => if bool_decide (s = bs "[::1]:0") then Some host_v6 else None)
    (Some [(bs "eth0", Some [Some (a_ip host_v4); Some (a_ip host_v6); None]); (bs "eth1", None)])
    (fun a p => negb (bool_decide (a = host_v6) && (p =? 4002))) (fun _ _ => false).

Lemma listen_finds_free_port_witness :
  let args := LArgs false false false (bs "4002-4003") in
  exists evs, listenOnFreePort (example_os []) args id (fun _ _ => 0) =
    (inr ([(host_v4, 4003); (host_v6, 4003)], 4003), evs) /\
    still_open evs [] = [(host_v4, 4003); (host_v6, 4003)].
Proof.
  intros args.
  pose proof (listen_finds_free_port (example_os []) args id (fun _ _ => 0) [host_v4; host_v6]) as H.
  assert (Hs : forall l : list (Z * Z), id l ≡ₚ l) by reflexivity.
  specialize (H Hs ltac:(intros; lia) ltac:(vm_compute; discriminate) ltac:(vm_compute; reflexivity)).
  assert (E : listenOnFreePort (example_os []) args id (fun _ _ => 0) =
    (inr ([(host_v4, 4003); (host_v6, 4003)], 4003),
     [Opened (host_v4, 4002); ClosedSock (host_v4, 4002); Opened (host_v4, 4003); Opened (host_v6, 4003)]))
    by (vm_compute; reflexivity).
  rewrite E in *. destruct H as (_ & _ & _ & H). eauto.
Defined.

(** [--ipv4], reached over IPv6: the server listens on the IPv6 address only. *)
Example ipv4_flag_overridden :
  getUdpAddrs (example_os (bs "::2 50000 ::1 22")) (LArgs false true false []) = Some [host_v6].
Proof. vm_compute. reflexivity. Qed.
