(* ===== verification/Process.v ===== *)
(** * Process: naming a session after its foreground process

    The process table ([getProcInfos] of [utils_unix.go]), the search for the
    descendants of the server ([findAllDescendants] and [findLeafProcesses] of
    [comm.go]) and the choice of the process whose name titles a session
    ([getForegroundProcess]). *)

From Stdlib Require Import ZArith Lia Ascii String.
From stdpp Require Import base list strings gmap.
From S2P Require Import Prelude GoStrings Decimal.
Open Scope Z_scope.

Record procInfo := Proc { pid : Z; ppid : Z; pgid : Z; name : bytes }.

#[export] Instance procInfo_eq_dec : EqDecision procInfo.
Proof. solve_decision. Defined.

Abbreviation procs_map := (gmap Z procInfo).

(** One line of [ps -eo stat,pid,ppid,pgid,comm]; [None]: skipped. *)
Definition parse_proc (line : bytes) : option procInfo :=
  match Fields line with
  | stat :: f1 :: f2 :: f3 :: n :: rest =>
      if has_prefix stat (bs "Z") then None
      else
        match Atoi f1, Atoi f2, Atoi f3 with
        | Some p, Some pp, Some pg => Some (Proc p pp pg (join " "%char (n :: rest)))
        | _, _, _ => None
        end
  | _ => None
  end.

(** [None]: no process found. *)
Definition getProcInfos (output : bytes) : option procs_map :=
  match Split LF (TrimSpace output) with
  | [] | [_] => None
  | _ :: lines =>
      Some (foldl (fun m line => match parse_proc line with Some p => <[pid p := p]> m | None => m end) ∅ lines)
  end.

Section Iteration.
(** The order in which [range] visits a map; it may be any. *)
Context (range_values : procs_map -> list procInfo).

Definition childrenMap (procs : procs_map) (p : Z) : list Z :=
  pid <$> filter (fun c => ppid c = p) (range_values procs).

(** The loop over the queue; a process is never marked as seen.  [None]: out of
    fuel, one unit per process taken from the queue. *)
Fixpoint descend (fuel : nat) (procs : procs_map) (queue : list Z) (descendants : procs_map) : option procs_map :=
  match queue with
  | [] => Some descendants
  | currPid :: queue' =>
      match fuel with
      | O => None
      | S fuel' =>
          match procs !! currPid with
          | Some p => descend fuel' procs (queue' ++ childrenMap procs currPid) (<[currPid := p]> descendants)
          | None => descend fuel' procs queue' descendants
          end
      end
  end.

Definition findAllDescendants (fuel : nat) (procs : procs_map) (rootPid : Z) : option procs_map :=
  descend fuel procs (childrenMap procs rootPid) ∅.

Definition hasChildren (procs : procs_map) (p : Z) : bool :=
  bool_decide (Exists (fun c => ppid c = p) (range_values procs)).

Definition findLeafProcesses (procs : procs_map) : list procInfo :=
  filter (fun p => hasChildren procs (pid p) = false) (range_values procs).

(** The loop that keeps the leaf with the least pid. *)
Definition better (best : option procInfo) (p : procInfo) : option procInfo :=
  match best with
  | None => Some p
  | Some b => if pid p <? pid b then Some p else best
  end.

Definition group_pgid (procs : procs_map) (g : Z) : Z :=
  if g =? 0 then foldl (fun acc p => if acc <? pgid p then pgid p else acc) g (range_values procs) else g.

(** The result: out of fuel, or the name, [None] being "no leaf process".  A
    failing [ps] is the caller's. *)
Definition getForegroundProcess (fuel : nat) (procs : procs_map) (self g : Z) : option (option bytes) :=
  match findAllDescendants fuel procs self with
  | None => None
  | Some ds =>
      let ds' := filter (fun kp => pgid kp.2 = group_pgid ds g) ds in
      Some (name <$> foldl better None (findLeafProcesses ds'))
  end.

End Iteration.

(** ** The process tree *)

(** The table is keyed by pid. *)
Definition keyed (procs : procs_map) : Prop := map_Forall (fun k p => pid p = k) procs.

Lemma getProcInfos_keyed output procs : getProcInfos output = Some procs -> keyed procs.
Proof.
  unfold getProcInfos. destruct (Split LF (TrimSpace output)) as [|h [|l ls]]; [done..|].
  intros H. assert (E : exists lines, procs =
    foldl (fun m line => match parse_proc line with Some p => <[pid p := p]> m | None => m end) ∅ lines)
    by (exists (l :: ls); congruence). clear H. destruct E as [lines ->].
  assert (Hm : keyed ∅) by apply map_Forall_empty. revert Hm. generalize (∅ : procs_map).
  induction lines as [|line lines IH]; intros m Hm; simpl; [done|]. apply IH.
  destruct (parse_proc line); [|done]. by apply map_Forall_insert_2.
Qed.

Definition child (procs : procs_map) (x c : Z) : Prop := exists p, procs !! c = Some p /\ ppid p = x.

Abbreviation descendant procs := (tc (child procs)).

Lemma last_member {A} (P : A -> Prop) `{!forall x, Decision (P x)} (l : list A) :
  Exists P l -> exists l1 x l2, l = l1 ++ x :: l2 /\ P x /\ Forall (fun y => ~ P y) l2.
Proof.
  induction l as [|x l IH]; intros Hl; [by inv Hl|]. destruct (decide (Exists P l)) as [He|He].
  - destruct (IH He) as (l1 & y & l2 & -> & Hy & Hl2). by exists (x :: l1), y, l2.
  - apply Exists_cons in Hl as [Hx|]; [|done]. exists [], x, l. split_and!; [done..|]. by apply not_Exists_Forall.
Qed.

(** Where parents are older than their children, by pid, nothing is its own
    descendant. *)
Lemma ordered_descendant procs x y : map_Forall (fun k p => ppid p < k) procs -> descendant procs x y -> x < y.
Proof.
  intros H. induction 1 as [x y (p & Hp & <-)|x y z (p & Hp & <-) _ IH]; [by apply (H y)|].
  specialize (H y p Hp). simpl in H. lia.
Qed.

(** The loop that looks for the least pid. *)
Lemma better_spec l best :
  match foldl better best l with
  | None => best = None /\ l = []
  | Some p => (best = Some p \/ p ∈ l) /\ (forall q, best = Some q \/ q ∈ l -> pid p <= pid q)
  end.
Proof.
  revert best. induction l as [|x l IH]; intros best; simpl.
  - destruct best; [|done]. split; [by left|]. intros q [[= <-]|Hq]; [lia|]. by apply not_elem_of_nil in Hq.
  - specialize (IH (better best x)). destruct (foldl better (better best x) l) as [p|].
    + destruct IH as [Hp Hmin]. unfold better in *. destruct best as [b|].
      * destruct (Z.ltb_spec (pid x) (pid b)).
        -- split; [set_solver|]. intros q [[= <-]|[->|Hq]%elem_of_cons]; [|by apply Hmin; left|by apply Hmin; right].
           specialize (Hmin x (or_introl eq_refl)). lia.
        -- split; [set_solver|]. intros q [[= <-]|[->|Hq]%elem_of_cons]; [by apply Hmin; left| |by apply Hmin; right].
           specialize (Hmin b (or_introl eq_refl)). lia.
      * split; [set_solver|]. intros q [?|[->|Hq]%elem_of_cons]; [done|by apply Hmin; left|by apply Hmin; right].
    + destruct IH as [IH _]. unfold better in IH. repeat case_match; done.
Qed.

Section Correct.
Context (range_values : procs_map -> list procInfo).
Context (Hrange : forall m, range_values m ≡ₚ (map_to_list m).*2).

Lemma range_values_spec m p : keyed m -> p ∈ range_values m <-> m !! pid p = Some p.
Proof.
  intros Hm. rewrite Hrange, list_elem_of_fmap. split.
  - intros ([k p'] & -> & Hin%elem_of_map_to_list). simpl. by rewrite (Hm _ _ Hin).
  - intros Hp. exists (pid p, p). by rewrite elem_of_map_to_list.
Qed.

Lemma childrenMap_spec procs x c : keyed procs -> c ∈ childrenMap range_values procs x <-> child procs x c.
Proof.
  intros Hm. unfold childrenMap. rewrite list_elem_of_fmap. split.
  - intros (p & -> & [Hpp Hin]%list_elem_of_filter). exists p. split; [by apply range_values_spec|done].
  - intros (p & Hp & <-). exists p. rewrite list_elem_of_filter, range_values_spec by done.
    by rewrite (Hm _ _ Hp).
Qed.

Lemma childrenMap_NoDup procs x : keyed procs -> NoDup (childrenMap range_values procs x).
Proof.
  intros Hm. unfold childrenMap. rewrite Hrange.
  assert (Hk : pid <$> (map_to_list procs).*2 = (map_to_list procs).*1).
  { rewrite <- list_fmap_compose. apply list_fmap_ext. intros i [k p] Hin%list_elem_of_lookup_2.
    apply elem_of_map_to_list in Hin. simpl. by rewrite (Hm _ _ Hin). }
  eapply sublist_NoDup; [apply (NoDup_fst_map_to_list procs)|]. rewrite <- Hk.
  apply fmap_sublist, sublist_filter.
Qed.

(** What the loop has done so far, [visited] being the processes taken from the
    queue, in order. *)
Record progress (procs : procs_map) (root : Z) (visited queue : list Z) (ds : procs_map) : Prop := {
  pg_nodup : NoDup (visited ++ queue);
  pg_desc : forall x, x ∈ visited ++ queue -> descendant procs root x;
  pg_parent : forall x y, x ∈ visited ++ queue -> child procs y x -> y = root \/ y ∈ visited;
  pg_closed : forall x c, x = root \/ x ∈ visited -> child procs x c -> c ∈ visited ++ queue;
  pg_order : forall l1 x l2 y, visited = l1 ++ x :: l2 -> child procs y x -> y = root \/ y ∈ l1;
  pg_result : forall k p, ds !! k = Some p <-> k ∈ visited /\ procs !! k = Some p
}.

Lemma child_fun procs x y c : child procs x c -> child procs y c -> x = y.
Proof. intros (p & Hp & <-) (q & Hq & <-). congruence. Qed.

Lemma descendant_exists procs x c : descendant procs x c -> is_Some (procs !! c).
Proof. induction 1 as [x c (p & Hp & _)|]; eauto. Qed.

Lemma progress_init procs root :
  keyed procs -> progress procs root [] (childrenMap range_values procs root) ∅.
Proof.
  intros Hk. split; simpl.
  - by apply childrenMap_NoDup.
  - intros x Hx. apply tc_once. by apply childrenMap_spec.
  - intros x y Hx Hy. left. apply childrenMap_spec in Hx; [|done]. by eapply child_fun.
  - intros x c [->|Hx] Hc; [by apply childrenMap_spec|by apply not_elem_of_nil in Hx].
  - intros l1 x l2 y H. by apply app_cons_not_nil in H.
  - intros k p. rewrite lookup_empty. split; [done|]. intros [Hx _]. by apply not_elem_of_nil in Hx.
Qed.

Lemma progress_step procs root visited x queue ds p :
  keyed procs -> ~ descendant procs root root ->
  progress procs root visited (x :: queue) ds -> procs !! x = Some p ->
  progress procs root (visited ++ [x]) (queue ++ childrenMap range_values procs x) (<[x := p]> ds).
Proof.
  intros Hk Hroot [Hnd Hdesc Hpar Hcl Hord Hres] Hp.
  assert (Hx : x ∉ visited).
  { intros Hin. apply NoDup_app in Hnd as (_ & Hdis & _). eapply Hdis; [exact Hin|]. left. }
  assert (Hxd : descendant procs root x) by (apply Hdesc; set_solver).
  assert (Hassoc : (visited ++ [x]) ++ queue ++ childrenMap range_values procs x =
                   (visited ++ x :: queue) ++ childrenMap range_values procs x) by (by rewrite <- !app_assoc).
  split.
  - rewrite Hassoc. apply NoDup_app. split_and!; [done| |by apply childrenMap_NoDup].
    intros c Hc Hcx%childrenMap_spec; [|done]. destruct (Hpar c x Hc Hcx) as [->|?]; [by apply Hroot|done].
  - intros c. rewrite Hassoc. intros [Hc|Hc%childrenMap_spec]%elem_of_app; [auto| |done].
    eapply tc_r; [exact Hxd|done].
  - intros c y. rewrite Hassoc. intros [Hc|Hc]%elem_of_app Hy; [|apply childrenMap_spec in Hc; [|done]].
    + destruct (Hpar c y Hc Hy); set_solver.
    + right. rewrite (child_fun _ _ _ _ Hy Hc). set_solver.
  - intros y c Hy Hc. rewrite Hassoc. apply elem_of_app. destruct (decide (y = x)) as [->|Hne].
    + right. by apply childrenMap_spec.
    + left. apply (Hcl y c); [set_solver|done].
  - intros l1 z l2 y Heq Hc. destruct l2 as [|w l2' _] using rev_ind.
    + apply app_inj_tail in Heq as [<- <-]. apply (Hpar x y); [set_solver|done].
    + rewrite app_comm_cons, app_assoc in Heq. apply app_inj_tail in Heq as [-> _]. by apply (Hord l1 z l2').
  - intros k q. rewrite elem_of_app, list_elem_of_singleton. destruct (decide (k = x)) as [->|Hne].
    + rewrite lookup_insert_eq. naive_solver.
    + rewrite lookup_insert_ne, Hres by done. naive_solver.
Qed.

(** The visited processes and the queue are distinct keys of the table. *)
Lemma progress_bound procs root visited queue ds :
  progress procs root visited queue ds -> (length (visited ++ queue) <= size procs)%nat.
Proof.
  intros Hpg. rewrite <- size_dom, <- (size_list_to_set (C:=gset Z) _ (pg_nodup _ _ _ _ _ Hpg)).
  apply subseteq_size. intros x Hx%elem_of_list_to_set. apply elem_of_dom.
  eapply descendant_exists, (pg_desc _ _ _ _ _ Hpg), Hx.
Qed.

Lemma descend_progress procs root fuel visited queue ds :
  keyed procs -> ~ descendant procs root root -> progress procs root visited queue ds ->
  (size procs <= length visited + fuel)%nat ->
  exists visited' ds', descend range_values fuel procs queue ds = Some ds' /\ progress procs root visited' [] ds'.
Proof.
  intros Hk Hroot. revert visited queue ds. induction fuel as [|fuel IH]; intros visited queue ds Hpg Hsize.
  - pose proof (progress_bound _ _ _ _ _ Hpg) as Hb. rewrite length_app in Hb.
    destruct queue; [|simpl in Hb; lia]. eexists _, _. by split.
  - destruct queue as [|x queue]; [by eexists _, _; split|]. cbn [descend].
    assert (Hx : is_Some (procs !! x)).
    { eapply descendant_exists, (pg_desc _ _ _ _ _ Hpg). set_solver. }
    destruct Hx as [p Hp]. rewrite Hp. eapply IH; [by eapply progress_step|]. rewrite length_app. simpl. lia.
Qed.

Lemma progress_done procs root visited ds x :
  progress procs root visited [] ds -> descendant procs root x <-> x ∈ visited.
Proof.
  intros Hpg. split.
  - assert (Hd : forall y, descendant procs y x -> y = root \/ y ∈ visited -> x ∈ visited).
    { induction 1 as [y c Hc|y z c Hz _ IH]; intros Hy.
      - pose proof (pg_closed _ _ _ _ _ Hpg y c Hy Hc) as H. by rewrite app_nil_r in H.
      - apply IH. right. pose proof (pg_closed _ _ _ _ _ Hpg y z Hy Hz) as H. by rewrite app_nil_r in H. }
    eauto.
  - intros Hx. apply (pg_desc _ _ _ _ _ Hpg). by rewrite app_nil_r.
Qed.

(** Unless the root is its own descendant, as many passes as there are
    processes are enough, and exactly the descendants are found. *)
Lemma findAllDescendants_correct procs root :
  keyed procs -> ~ descendant procs root root ->
  exists visited ds, findAllDescendants range_values (size procs) procs root = Some ds /\
    progress procs root visited [] ds /\
    forall k p, ds !! k = Some p <-> descendant procs root k /\ procs !! k = Some p.
Proof.
  intros Hk Hroot. destruct (descend_progress procs root (size procs) [] (childrenMap range_values procs root) ∅)
    as (v & ds & E & Hpg); [done|done|by apply progress_init|simpl; lia|].
  exists v, ds. split_and!; [done..|]. intros k p. by rewrite (pg_result _ _ _ _ _ Hpg), (progress_done _ _ _ _ _ Hpg).
Qed.

(** A root that is its own descendant comes round again and again. *)
Lemma descend_cycle procs root fuel queue ds :
  keyed procs -> Exists (fun x => is_Some (procs !! x) /\ descendant procs x root) queue ->
  descendant procs root root -> descend range_values fuel procs queue ds = None.
Proof.
  intros Hk Hq Hcycle. revert queue ds Hq. induction fuel as [|fuel IH]; intros queue ds Hq.
  { by inv Hq. }
  destruct queue as [|x queue]; [by inv Hq|]. cbn [descend]. apply Exists_cons in Hq as [[[p ->] Hd]|Hq].
  - apply IH, Exists_app. right. apply Exists_exists. inv Hd as [? ? Hc|? c ? Hc Hd'].
    + exists root. split_and!; [by apply childrenMap_spec|by eapply descendant_exists|done].
    + exists c. destruct Hc as (q & Hq & Hx) eqn:E. clear E.
      split_and!; [apply childrenMap_spec; [done|by exists q]|eauto|done].
  - destruct (procs !! x); apply IH; [apply Exists_app; by left|done].
Qed.

Lemma findLeafProcesses_spec procs p :
  keyed procs ->
  p ∈ findLeafProcesses range_values procs <-> procs !! pid p = Some p /\ forall c, ~ child procs (pid p) c.
Proof.
  intros Hk. unfold findLeafProcesses. rewrite list_elem_of_filter, range_values_spec by done.
  unfold hasChildren. rewrite bool_decide_eq_false, Exists_exists. split.
  - intros [Hn Hp]. split; [done|]. intros c (q & Hq & Hqq). apply Hn. exists q. split; [|done].
    apply range_values_spec; [done|]. by rewrite (Hk _ _ Hq).
  - intros [Hp Hn]. split; [|done]. intros (q & Hq & Hqq). apply range_values_spec in Hq; [|done].
    apply (Hn (pid q)). by exists q.
Qed.

(** A nonempty part of the descendants has a leaf: the one visited last. *)
Lemma part_has_leaf procs root visited (ds part : procs_map) :
  progress procs root visited [] ds -> ~ descendant procs root root -> part ⊆ ds -> part <> ∅ ->
  exists k p, part !! k = Some p /\ forall c, ~ child part k c.
Proof.
  intros Hpg Hroot Hsub Hne.
  assert (Hv : forall k p, part !! k = Some p -> k ∈ visited /\ procs !! k = Some p).
  { intros k p Hp. apply (pg_result _ _ _ _ _ Hpg). by eapply lookup_weaken. }
  apply map_choose in Hne as (k0 & p0 & Hp0).
  destruct (last_member (fun k => is_Some (part !! k)) visited) as (l3 & k & l4 & -> & [p Hp] & Hl4).
  { apply Exists_exists. exists k0. split; [by eapply Hv|eauto]. }
  exists k, p. split; [done|]. intros c (q & Hq & Hqk).
  destruct (Hv _ _ Hq) as [Hc Hq'].
  assert (Hnd : NoDup (l3 ++ k :: l4)).
  { pose proof (pg_nodup _ _ _ _ _ Hpg) as Hnd. by rewrite app_nil_r in Hnd. }
  assert (Hcase : exists l1 l2, l3 ++ k :: l4 = l1 ++ c :: l2 /\ forall x, x ∈ l1 -> x ∈ l3).
  { apply elem_of_app in Hc as [(l1 & l2 & ->)%list_elem_of_split|[->|Hc]%elem_of_cons].
    - exists l1, (l2 ++ k :: l4). split; [by rewrite <- app_assoc|set_solver].
    - by exists l3, l4.
    - rewrite Forall_forall in Hl4. destruct (Hl4 c Hc). eauto. }
  destruct Hcase as (l1 & l2 & Heq & Hl1).
  destruct (pg_order _ _ _ _ _ Hpg l1 c l2 k Heq) as [->|Hk]; [by exists q| |].
  - apply Hroot, (pg_desc _ _ _ _ _ Hpg). set_solver.
  - apply NoDup_app in Hnd as (_ & Hdis & _). eapply Hdis; [by apply Hl1|]. left.
Qed.

End Correct.

(** ** Theorems *)

(** The search ends, with exactly the descendants, after at most one pass
    per process, in whatever order the map is iterated, provided the table does
    not make the server a descendant of itself. *)
Theorem descendants_found range_values procs root :
  (forall m, range_values m ≡ₚ (map_to_list m).*2) -> keyed procs -> ~ descendant procs root root ->
  exists ds, findAllDescendants range_values (size procs) procs root = Some ds /\
    forall k p, ds !! k = Some p <-> descendant procs root k /\ procs !! k = Some p.
Proof.
  intros Hr Hk Hroot. destruct (findAllDescendants_correct range_values Hr procs root Hk Hroot) as (v & ds & E & _ & H).
  eauto.
Qed.

(** Otherwise it never ends: there is no record of the processes seen. *)
Theorem descendants_cycle_diverges range_values procs root fuel :
  (forall m, range_values m ≡ₚ (map_to_list m).*2) -> keyed procs -> descendant procs root root ->
  findAllDescendants range_values fuel procs root = None.
Proof.
  intros Hr Hk Hc. apply (descend_cycle range_values Hr procs root); [done| |done].
  apply Exists_exists. inv Hc as [? ? Hc'|? c ? Hc' Hd].
  - exists root. split_and!; [by apply childrenMap_spec|by destruct Hc' as (p & ? & _); eauto|by apply tc_once].
  - exists c. split_and!; [by apply childrenMap_spec|by destruct Hc' as (p & ? & _); eauto|done].
Qed.

(** A session is named after the descendant of the least pid among those of
    its process group that have no child in the group; there is one as soon as
    the group has a descendant at all. *)
Theorem foreground_process_leaf range_values procs self g :
  (forall m, range_values m ≡ₚ (map_to_list m).*2) -> keyed procs -> ~ descendant procs self self -> g <> 0 ->
  let in_group k p := descendant procs self k /\ procs !! k = Some p /\ pgid p = g in
  let leaf k p := in_group k p /\ forall k' p', in_group k' p' -> ppid p' <> k in
  exists r, getForegroundProcess range_values (size procs) procs self g = Some r /\
  match r with
  | None => forall k p, ~ in_group k p
  | Some n => exists k p, name p = n /\ leaf k p /\ forall k' p', leaf k' p' -> k <= k'
  end.
Proof.
  intros Hr Hk Hself Hg in_group leaf.
  destruct (findAllDescendants_correct range_values Hr procs self Hk Hself) as (v & ds & E & Hpg & Hds).
  unfold getForegroundProcess. rewrite E. eexists. split; [done|].
  unfold group_pgid. rewrite (proj2 (Z.eqb_neq g 0) Hg).
  set (part := filter (fun kp : Z * procInfo => pgid kp.2 = g) ds).
  assert (Hpart : forall k p, part !! k = Some p <-> in_group k p).
  { intros k p. unfold part. rewrite map_lookup_filter_Some, Hds. unfold in_group. simpl. naive_solver. }
  assert (Hkp : keyed part) by (intros k p Hp; apply Hpart in Hp as (_ & Hp & _); by apply (Hk k)).
  assert (Hleaf : forall p, p ∈ findLeafProcesses range_values part <-> leaf (pid p) p).
  { intros p. rewrite findLeafProcesses_spec by done. unfold leaf. rewrite Hpart. split; intros [Hp Hn]; (split; [done|]).
    - intros k' p' Hp' Hpp. apply (Hn k'). exists p'. by rewrite Hpart.
    - intros c (q & Hq%Hpart & Hqq). by apply (Hn c q). }
  pose proof (better_spec (findLeafProcesses range_values part) None) as Hb.
  destruct (foldl better None _) as [p|]; simpl.
  - destruct Hb as [[?|Hp%Hleaf] Hmin]; [done|]. exists (pid p), p. split_and!; [done..|].
    intros k' p' Hl. assert (Hid : pid p' = k') by (destruct Hl as [(_ & Hl & _) _]; by apply (Hk k')).
    subst k'. apply Hmin. right. by apply Hleaf.
  - destruct Hb as [_ Hnil]. intros k p Hp%Hpart.
    destruct (part_has_leaf range_values Hr procs self v ds part Hpg Hself) as (k' & p' & Hp' & Hn).
    + apply map_filter_subseteq.
    + intros Hempty. rewrite Hempty in Hp. by rewrite lookup_empty in Hp.
    + assert (Hin : p' ∈ findLeafProcesses range_values part).
      { apply findLeafProcesses_spec; [done..|]. by rewrite (Hkp _ _ Hp'). }
      rewrite Hnil in Hin. by apply not_elem_of_nil in Hin.
Qed.

(** ** An example

    The output of [ps] for a server (pid 10) with a shell that runs a pipeline
    in the group 30; a zombie and a header are skipped. *)

Definition ps_lines : list bytes :=
  bs <$> ["STAT PID PPID PGID COMM"; "Ss 1 0 1 init"; "S 10 1 10 tsshd"; "Ss 20 10 20 bash"; "S+ 30 20 30 less";
          "S+ 31 20 30 git log"; "Z 32 20 30 gone"; "R+ 40 31 30 git pager"].

Definition ps_output : bytes := join LF ps_lines.

Definition table : procs_map := default ∅ (getProcInfos ps_output).

Definition values (m : procs_map) : list procInfo := (map_to_list m).*2.

Lemma table_keyed : keyed table.
Proof.
  unfold table. destruct (getProcInfos ps_output) eqn:E; [by eapply getProcInfos_keyed|apply map_Forall_empty].
Qed.

(** Nothing has a smaller pid than its parent in this table. *)
Lemma table_descendant x y : descendant table x y -> x < y.
Proof. apply ordered_descendant. apply (bool_decide_unpack _). vm_compute. exact I. Qed.

Lemma descendants_found_witness :
  exists ds, findAllDescendants values (size table) table 10 = Some ds /\ dom ds = {[20; 30; 31; 40]}.
Proof.
  destruct (descendants_found values table 10) as (ds & E & _);
    [done|apply table_keyed|intros H%table_descendant; lia|].
  exists ds. split; [done|]. vm_compute in E. injection E as <-. vm_compute. reflexivity.
Defined.

Lemma foreground_process_leaf_witness :
  getForegroundProcess values (size table) table 10 30 = Some (Some (bs "less")).
Proof.
  destruct (foreground_process_leaf values table 10 30) as (r & E & _);
    [done|apply table_keyed|intros H%table_descendant; lia|done|].
  rewrite E. vm_compute in E. injection E as <-. reflexivity.
Defined.

(** Two processes that are each other's parents. *)
Definition loop_table : procs_map := {[10 := Proc 10 20 10 []; 20 := Proc 20 10 20 []]}.

Lemma descendants_cycle_diverges_witness :
  findAllDescendants values 1000 loop_table 10 = None.
Proof.
  apply (descendants_cycle_diverges values loop_table 10 1000).
  - reflexivity.
  - apply (bool_decide_unpack _). vm_compute. exact I.
  - apply (tc_l _ _ 20); [|apply tc_once]; eexists; split; reflexivity.
Defined.
