(* ===== verification/Config.v ===== *)
(** * Config: the sshd configuration file ([sshd_config.go])

    Which options hold for a user: splitting the lines, evaluating [Match]
    blocks, and the wildcard patterns.  The Go code turns a wildcard into a
    regular expression; [regexp_Compile] and [MatchString] give Go's meaning
    to the fragment that can arise, and [glob] is the usual meaning of a
    wildcard, against which it is proved.  A file is the list of lines the
    scanner returns; text is ASCII. *)

From Stdlib Require Import ZArith Lia Ascii String.
From stdpp Require Import base list strings gmap.
From S2P Require Import Prelude GoStrings.
Open Scope Z_scope.

Definition str (s : bytes) : string := string_of_list_ascii s.

(** ** Lines *)

Definition splitKeyValue (line : bytes) : bytes * bytes :=
  let pos := match bytes_IndexByte line EQ with
             | Some pos =>
                 match index_func is_blank (trim_right is_blank (take pos line)) with
                 | Some (S p) => Some (S p)
                 | _ => Some pos
                 end
             | None => index_func is_blank line
             end in
  match pos with
  | None => (ToLower (TrimSpace line), [])
  | Some pos => (ToLower (TrimSpace (take pos line)), TrimSpace (drop (pos + 1) line))
  end.

(** ** Wildcards *)

Definition STAR : byte := "*"%char.
Definition QUESTION : byte := "?"%char.
Definition BSLASH : byte := "\"%char.

(** The characters [wildcardToRegexp] escapes. *)
Definition escaped_chars : bytes := bs "()[]{}.+,-^$|\".

Definition wildcard_char (c : byte) : bytes :=
  if decide (c = STAR) then bs ".*"
  else if decide (c = QUESTION) then bs "."
  else if decide (c ∈ escaped_chars) then [BSLASH; c]
  else [c].

Definition wildcardToRegexp (pattern : bytes) : bytes :=
  bs "^" ++ (pattern ≫= wildcard_char) ++ bs "$".

(** The regular expressions that can arise: a sequence of items. *)
Inductive re_item := ReBegin | ReEnd | ReAny | ReAnyStar | ReLit (c : byte).

(** Go's syntax for the fragment; [None] for anything else. *)
Fixpoint regexp_Compile (e : bytes) : option (list re_item) :=
  match e with
  | [] => Some []
  | c :: e1 =>
      if decide (c = "^"%char) then cons ReBegin <$> regexp_Compile e1
      else if decide (c = "$"%char) then cons ReEnd <$> regexp_Compile e1
      else if decide (c = BSLASH) then
        match e1 with
        | d :: e2 => if decide (d ∈ escaped_chars) then cons (ReLit d) <$> regexp_Compile e2 else None
        | [] => None
        end
      else if decide (c = "."%char) then
        match e1 with
        | d :: e2 => if decide (d = STAR) then cons ReAnyStar <$> regexp_Compile e2
                     else cons ReAny <$> regexp_Compile e1
        | [] => Some [ReAny]
        end
      else if decide (c ∈ STAR :: QUESTION :: escaped_chars) then None
      else cons (ReLit c) <$> regexp_Compile e1
  end.

(** Whether the items match a prefix of [s]; [start] tells whether [s] is the
    whole text.  A dot matches every character but a newline. *)
Fixpoint re_here (items : list re_item) (start : bool) (s : bytes) {struct items} : bool :=
  match items with
  | [] => true
  | ReBegin :: items' => start && re_here items' start s
  | ReEnd :: items' => match s with [] => re_here items' start s | _ => false end
  | ReLit c :: items' =>
      match s with
      | b :: s' => bool_decide (b = c) && re_here items' false s'
      | [] => false
      end
  | ReAny :: items' =>
      match s with
      | b :: s' => negb (bool_decide (b = LF)) && re_here items' false s'
      | [] => false
      end
  | ReAnyStar :: items' =>
      (fix loop (start : bool) (s : bytes) : bool :=
         re_here items' start s ||
         match s with
         | b :: s' => negb (bool_decide (b = LF)) && loop false s'
         | [] => false
         end) start s
  end.

(** [re.MatchString]: a match anywhere in the text. *)
Fixpoint re_search (items : list re_item) (start : bool) (s : bytes) : bool :=
  re_here items start s ||
  match s with
  | _ :: s' => re_search items false s'
  | [] => false
  end.

Definition MatchString (items : list re_item) (s : bytes) : bool := re_search items true s.

Definition wildcardMatch (pattern value : bytes) : bool :=
  match regexp_Compile (wildcardToRegexp pattern) with
  | Some re => MatchString re value
  | None => false
  end.

(** ** [Match] conditions *)

Definition matchList_step (value : bytes) (acc : bool * bool) (p : bytes) : option (bool * bool) :=
  let '(hasPositive, positiveMatch) := acc in
  let neg := has_prefix p [BANG] in
  let pat := if neg then TrimSpace (drop 1 p) else p in
  if wildcardMatch pat value then
    if neg then None else Some (true, true)
  else if negb neg then Some (true, positiveMatch) else Some acc.

(** [None] is the early [return false]. *)
Fixpoint matchList_loop (value : bytes) (acc : bool * bool) (patterns : list bytes)
  : option (bool * bool) :=
  match patterns with
  | [] => Some acc
  | p :: more => match matchList_step value acc p with
                 | None => None
                 | Some acc => matchList_loop value acc more
                 end
  end.

Definition list_verdict (r : option (bool * bool)) : bool :=
  match r with
  | None => false
  | Some (hasPositive, positiveMatch) => if hasPositive then positiveMatch else true
  end.

Definition matchList (value : bytes) (patterns : list bytes) : bool :=
  list_verdict (matchList_loop value (false, false) patterns).

(** The inner loop over the groups: [None] is the early [return false]. *)
Fixpoint groups_loop (neg : bool) (pat : bytes) (positiveMatch : bool) (groups : list bytes)
  : option bool :=
  match groups with
  | [] => Some positiveMatch
  | g :: more =>
      if wildcardMatch pat g then
        if neg then None else groups_loop neg pat true more
      else groups_loop neg pat positiveMatch more
  end.

Fixpoint matchGroupList_loop (groups : list bytes) (acc : bool * bool) (patterns : list bytes)
  : option (bool * bool) :=
  match patterns with
  | [] => Some acc
  | p :: more =>
      let '(hasPositive, positiveMatch) := acc in
      let neg := has_prefix p [BANG] in
      let pat := if neg then TrimSpace (drop 1 p) else p in
      match groups_loop neg pat positiveMatch groups with
      | None => None
      | Some positiveMatch => matchGroupList_loop groups (if neg then hasPositive else true, positiveMatch) more
      end
  end.

Definition matchGroupList (groups patterns : list bytes) : bool :=
  list_verdict (matchGroupList_loop groups (false, false) patterns).

Abbreviation conditions := (gmap string (list bytes)).

Definition evalMatchConditions (conds : conditions) (user : bytes) (groups : list bytes) : bool :=
  if forallb (fun kv => bool_decide (kv.1 ∈ ["user"; "group"; "all"]%string)) (map_to_list conds) then
    if match conds !! "user"%string with Some pats => matchList user pats | None => true end then
      match conds !! "group"%string with Some pats => matchGroupList groups pats | None => true end
    else false
  else false.

(** [addCondValue]. *)
Definition addCondValue (conds : conditions) (key vals : bytes) : conditions :=
  fold_left (fun m v => let v := TrimSpace v in
               match v with
               | [] => m
               | _ => <[str key := default [] (m !! str key) ++ [v]]> m
               end) (Split COMMA vals) conds.

(** The loop over the tokens.  The code's second case, a token that is just
    [=], is never reached: such a token contains an [=] and is handled by the
    first. *)
Fixpoint match_tokens (tokens : list bytes) (conds : conditions) : conditions :=
  match tokens with
  | [] => conds
  | token :: rest =>
      match Cut EQ token with
      | (k, Some v) =>
          let key := ToLower (TrimSpace k) in
          match TrimSpace v, rest with
          | [], v2 :: rest' => match_tokens rest' (addCondValue conds key v2)
          | val, _ => match_tokens rest (addCondValue conds key val)
          end
      | (_, None) =>
          let key := ToLower token in
          match rest with
          | [] => conds
          | next :: rest' =>
              if has_prefix next [EQ] then
                match drop 1 next, rest' with
                | [], v2 :: rest'' => match_tokens rest'' (addCondValue conds key v2)
                | val, _ => match_tokens rest' (addCondValue conds key val)
                end
              else match_tokens rest' (addCondValue conds key next)
          end
      end
  end.

Definition evalMatchLine (line user : bytes) (groups : list bytes) : bool :=
  match Fields (squeeze_commas line) with
  | [] => false
  | tokens => evalMatchConditions (match_tokens tokens ∅) user groups
  end.

(** ** The file *)

Record sshd_config := SshdConfig {
  sc_config : gmap string bytes;
  sc_subsystem : gmap string bytes
}.

Record parse_state := ParseState { ps_inMatch : bool; ps_userMatch : bool; ps_config : sshd_config }.

Definition parse_line (user : bytes) (groups : list bytes) (st : parse_state) (line : bytes) : parse_state :=
  let line := TrimSpace line in
  if bool_decide (line = []) || has_prefix line (bs "#") then st
  else
    let '(key, value) := splitKeyValue line in
    let c := ps_config st in
    if bool_decide (key = bs "match") && negb (bool_decide (value = []))
    then ParseState true (evalMatchLine value user groups) c
    else if ps_inMatch st && negb (ps_userMatch st) then st
    else if bool_decide (key = bs "subsystem") && negb (bool_decide (value = [])) then
      let '(name, path) := splitKeyValue value in
      ParseState (ps_inMatch st) (ps_userMatch st)
        (match name with
         | [] => c
         | _ => SshdConfig (sc_config c) (<[str name := path]> (sc_subsystem c))
         end)
    else ParseState (ps_inMatch st) (ps_userMatch st)
           (SshdConfig (<[str key := value]> (sc_config c)) (sc_subsystem c)).

Definition default_config : sshd_config := SshdConfig {["acceptenv"%string := bs "LANG LC_*"]} ∅.

(** [file] is [None] when it cannot be opened. *)
Definition parseSshdConfig (file : option (list bytes)) (user : bytes) (groups : list bytes) : sshd_config :=
  match file with
  | None => default_config
  | Some lines => ps_config (fold_left (parse_line user groups) lines (ParseState false false default_config))
  end.

Definition getSshdConfig (c : sshd_config) (key : bytes) : bytes :=
  default [] (sc_config c !! str (ToLower key)).

Definition getSshdSubsystem (c : sshd_config) (name : bytes) : bytes :=
  default [] (sc_subsystem c !! str (ToLower name)).

(** ** Which file is read, and for whom *)

(** What [getSshdConfigPath] looks at: the environment (empty when not set), the
    home directory, and the system. *)
Record path_env := PathEnv { pe_XDG_CONFIG_HOME : string; pe_home : option string; pe_ProgramData : string; pe_windows : bool }.

(** The files it tries, in order, on a system with slashes or, the last step of
    [filepath.Join] apart, on Windows. *)
Definition config_candidates (e : path_env) : list string :=
  let xdg := if String.eqb (pe_XDG_CONFIG_HOME e) EmptyString
             then match pe_home e with Some home => home +:+ "/.config" | None => EmptyString end
             else pe_XDG_CONFIG_HOME e in
  (if String.eqb xdg EmptyString then [] else [xdg +:+ "/tsshd/sshd_config"]) ++
  (if pe_windows e
   then (if String.eqb (pe_ProgramData e) EmptyString then [] else [pe_ProgramData e +:+ "/ssh/sshd_config"])
   else ["/etc/ssh/sshd_config"; "/usr/local/etc/ssh/sshd_config"; "/usr/local/ssh/etc/sshd_config"; "/opt/ssh/etc/sshd_config";
         "/opt/openssh/etc/sshd_config"; "/usr/pkg/etc/ssh/sshd_config"])%string.

Fixpoint first_existing (exists_at : string -> bool) (paths : list string) : option string :=
  match paths with
  | [] => None
  | p :: rest => if exists_at p then Some p else first_existing exists_at rest
  end.

Definition getSshdConfigPath (e : path_env) (exists_at : string -> bool) : string :=
  default (if pe_windows e then "C:\ProgramData\ssh\sshd_config" else "/etc/ssh/sshd_config")%string
    (first_existing exists_at (config_candidates e)).

(** The name after the last backslash: without the domain of Windows. *)
Fixpoint after_backslash (cur s : bytes) : bytes :=
  match s with
  | [] => cur
  | b :: s => if ascii_dec b "\"%char then after_backslash [] s else after_backslash (cur ++ [b]) s
  end.

(** [current]: the user's name and the names of the groups, where they can be
    had; [read]: the lines of a file. *)
Definition initSshdConfig (e : path_env) (exists_at : string -> bool) (read : string -> option (list bytes))
    (current : option (bytes * list (option bytes))) : sshd_config :=
  let '(user, groups) := match current with
                         | Some (name, gs) => (after_backslash [] name, omap id gs)
                         | None => ([], [])
                         end in
  parseSshdConfig (read (getSshdConfigPath e exists_at)) user groups.

(** The file read is the first of the candidates that exists. *)
Lemma config_path_first e exists_at pre path post :
  config_candidates e = pre ++ path :: post -> Forall (fun p => exists_at p = false) pre -> exists_at path = true ->
  getSshdConfigPath e exists_at = path.
Proof.
  unfold getSshdConfigPath. intros ->. induction 1 as [|p pre Hp _ IH]; intros H; cbn [app first_existing].
  - by rewrite H.
  - rewrite Hp. by apply IH.
Qed.

Lemma after_backslash_name cur domain name :
  "\"%char ∉ name -> after_backslash cur (domain ++ "\"%char :: name) = name.
Proof.
  intros Hn. assert (Hplain : forall c, after_backslash c name = c ++ name).
  { clear cur domain. induction name as [|b name IH]; intros c; [by rewrite app_nil_r|]. cbn [after_backslash].
    destruct (ascii_dec b "\"%char) as [->|_]; [set_solver|]. rewrite IH by set_solver. by rewrite <- app_assoc. }
  revert cur. induction domain as [|b domain IH]; intros cur; cbn [app after_backslash].
  - by rewrite Hplain.
  - destruct (ascii_dec b "\"%char); apply IH.
Qed.

(** ** Wildcards mean what they should *)

(** The reference: [*] is any text, [?] any character. *)
Fixpoint glob (p s : bytes) {struct p} : bool :=
  match p with
  | [] => bool_decide (s = [])
  | c :: p' =>
      if decide (c = STAR) then
        (fix star (s : bytes) : bool :=
           glob p' s || match s with _ :: s' => star s' | [] => false end) s
      else match s with
           | b :: s' => (bool_decide (c = QUESTION) || bool_decide (b = c)) && glob p' s'
           | [] => false
           end
  end.

Definition item (c : byte) : re_item :=
  if decide (c = STAR) then ReAnyStar else if decide (c = QUESTION) then ReAny else ReLit c.

Lemma wildcard_head p : head ((p ≫= wildcard_char) ++ bs "$") <> Some STAR.
Proof.
  destruct p as [|c p]; [done|]. rewrite bind_cons. unfold wildcard_char.
  repeat case_decide; simpl; try done. by intros [= ->].
Qed.

Lemma regexp_Compile_wildcard p :
  regexp_Compile ((p ≫= wildcard_char) ++ bs "$") = Some ((item <$> p) ++ [ReEnd]).
Proof.
  induction p as [|c p IH]; [done|]. pose proof (wildcard_head p) as Hhd.
  rewrite bind_cons, <- app_assoc, fmap_cons. unfold wildcard_char at 1, item.
  set (e := (p ≫= wildcard_char) ++ bs "$") in *. clearbody e.
  destruct (decide (c = STAR)) as [->|Hs]; [cbn; by rewrite IH|].
  destruct (decide (c = QUESTION)) as [->|Hq].
  { destruct e as [|d e]; [by destruct p|]. cbn [bs list_ascii_of_string app regexp_Compile].
    repeat (rewrite decide_False by done). rewrite decide_True by done.
    rewrite decide_False by (intros ->; done). fold (regexp_Compile e). cbn [regexp_Compile] in IH. by rewrite IH. }
  destruct (decide (c ∈ escaped_chars)) as [Hin|Hout].
  { cbn [app regexp_Compile]. repeat (rewrite decide_False by done). rewrite decide_True by done.
    rewrite decide_True by done. by rewrite IH. }
  cbn [app regexp_Compile].
  assert (Hd : forall d, bool_decide (d ∈ escaped_chars) = true -> c <> d)
    by (intros d Hd%bool_decide_eq_true ->; done).
  rewrite !decide_False by (apply Hd; reflexivity). rewrite decide_False; [by rewrite IH|].
  intros [->|[->|?]%elem_of_cons]%elem_of_cons; done.
Qed.

Lemma re_search_anchored items s : re_search (ReBegin :: items) true s = re_here items true s.
Proof.
  assert (Hf : forall t, re_search (ReBegin :: items) false t = false)
    by (induction t as [|b t IH]; simpl; [done|by rewrite IH]).
  destruct s as [|b s]; cbn [re_search re_here]; [by rewrite orb_false_r|].
  by rewrite Hf, orb_false_r.
Qed.

Lemma re_here_glob p start s :
  (LF ∉ s) -> re_here ((item <$> p) ++ [ReEnd]) start s = glob p s.
Proof.
  revert start s. induction p as [|c p IH]; intros start s Hs; [by destruct s|].
  rewrite fmap_cons. cbn [app glob]. unfold item at 1.
  destruct (decide (c = STAR)) as [->|Hne].
  - cbn [re_here]. revert start. induction s as [|b s IHs]; intros start; rewrite IH by done; [done|].
    apply not_elem_of_cons in Hs as [Hb Hs]. rewrite (bool_decide_eq_false_2 (b = LF)) by done. simpl.
    by rewrite (IHs Hs false).
  - destruct (decide (c = QUESTION)) as [->|Hq]; cbn [re_here]; destruct s as [|b s]; try done;
      apply not_elem_of_cons in Hs as [Hb Hs]; rewrite IH by done.
    + by rewrite (bool_decide_eq_false_2 (b = LF)) by done.
    + by rewrite (bool_decide_eq_false_2 (c = QUESTION)) by done.
Qed.

(** A wildcard pattern of the configuration means what it should: for
    every pattern and every one-line text, [wildcardMatch], which goes
    through a regular expression, agrees with the direct definition of [*]
    and [?], and the expression always compiles. *)
Theorem wildcardMatch_glob pattern value :
  (LF ∉ value) -> wildcardMatch pattern value = glob pattern value.
Proof.
  intros Hv. unfold wildcardMatch, wildcardToRegexp, MatchString.
  change (regexp_Compile (bs "^" ++ (pattern ≫= wildcard_char) ++ bs "$"))
    with (cons ReBegin <$> regexp_Compile ((pattern ≫= wildcard_char) ++ bs "$")).
  rewrite regexp_Compile_wildcard. simpl. rewrite re_search_anchored. by apply re_here_glob.
Qed.

Lemma wildcardMatch_glob_witness : wildcardMatch (bs "adm?n*.x") (bs "admin-1.x") = true.
Proof. rewrite wildcardMatch_glob; [reflexivity|]. apply (bool_decide_unpack _). vm_compute. exact I. Defined.

(** ** Pattern lists *)

Definition negated (p : bytes) : bool := has_prefix p [BANG].
Definition body (p : bytes) : bytes := if negated p then TrimSpace (drop 1 p) else p.

(** A list of patterns accepts when no negated pattern matches and, if there
    is a positive one, a positive one matches; [hit] says what matching is. *)
Definition list_accepts_from (hit : bytes -> bool) (hasPositive positiveMatch : bool) (patterns : list bytes) : bool :=
  forallb (fun p => negb (negated p && hit (body p))) patterns
  && (if hasPositive || existsb (fun p => negb (negated p)) patterns
      then positiveMatch || existsb (fun p => negb (negated p) && hit (body p)) patterns
      else true).

Definition list_accepts (hit : bytes -> bool) (patterns : list bytes) : bool :=
  list_accepts_from hit false false patterns.

Lemma list_accepts_step hit hp pm p more :
  list_accepts_from hit hp pm (p :: more) =
  if negated p then negb (hit (body p)) && list_accepts_from hit hp pm more
  else list_accepts_from hit true (pm || hit (body p)) more.
Proof.
  unfold list_accepts_from. cbn [forallb existsb].
  destruct (negated p), (hit (body p)), hp, pm; simpl; rewrite ?orb_true_r; try done;
    by destruct (forallb _ more).
Qed.

Lemma matchList_accepts value hp pm patterns :
  list_verdict (matchList_loop value (hp, pm) patterns)
  = list_accepts_from (fun pat => wildcardMatch pat value) hp pm patterns.
Proof.
  revert hp pm. induction patterns as [|p more IH]; intros hp pm.
  { unfold list_accepts_from. simpl. by destruct hp, pm. }
  rewrite list_accepts_step. cbn [matchList_loop]. unfold matchList_step, body.
  change (has_prefix p [BANG]) with (negated p).
  destruct (negated p); destruct (wildcardMatch _ value); simpl; rewrite ?IH, ?orb_true_r, ?orb_false_r; done.
Qed.

Lemma groups_loop_spec neg pat pm groups :
  groups_loop neg pat pm groups =
  if existsb (wildcardMatch pat) groups then (if neg then None else Some true) else Some pm.
Proof.
  revert pm. induction groups as [|g more IH]; intros pm; [done|]. cbn [groups_loop existsb].
  destruct (wildcardMatch pat g); simpl; [|apply IH]. destruct neg; [done|]. rewrite IH.
  by destruct (existsb _ more).
Qed.

Lemma matchGroupList_accepts groups hp pm patterns :
  list_verdict (matchGroupList_loop groups (hp, pm) patterns)
  = list_accepts_from (fun pat => existsb (wildcardMatch pat) groups) hp pm patterns.
Proof.
  revert hp pm. induction patterns as [|p more IH]; intros hp pm.
  { unfold list_accepts_from. simpl. by destruct hp, pm. }
  rewrite list_accepts_step. cbn [matchGroupList_loop]. rewrite groups_loop_spec. unfold body.
  change (has_prefix p [BANG]) with (negated p).
  destruct (negated p); destruct (existsb _ groups); simpl; rewrite ?IH, ?orb_true_r, ?orb_false_r; done.
Qed.

(** A user or group list of a [Match] line accepts exactly when none of
    its negated patterns matches and, if it has a positive pattern, a
    positive one matches; the order of the patterns does not matter, and a
    group pattern matches when some group of the user does. *)
Theorem match_lists_accept value groups patterns :
  matchList value patterns = list_accepts (fun pat => wildcardMatch pat value) patterns /\
  matchGroupList groups patterns = list_accepts (fun pat => existsb (wildcardMatch pat) groups) patterns /\
  (forall hit patterns', patterns ≡ₚ patterns' -> list_accepts hit patterns = list_accepts hit patterns').
Proof.
  split_and!; [apply matchList_accepts|apply matchGroupList_accepts|].
  intros hit patterns' Hp. unfold list_accepts, list_accepts_from.
  assert (Hall : forall f : bytes -> bool, forallb f patterns = forallb f patterns').
  { intros f. induction Hp; simpl; [done|by rewrite IHHp|by destruct (f x), (f y)|congruence]. }
  assert (Hex : forall f : bytes -> bool, existsb f patterns = existsb f patterns').
  { clear Hall. intros f. induction Hp; simpl; [done|by rewrite IHHp|by destruct (f x), (f y)|congruence]. }
  by rewrite Hall, !Hex.
Qed.

(** ** [Match] lines *)

(** A word of a [Match] line: no space, comma or equal sign. *)
Definition plain_word (w : bytes) : Prop := w <> [] /\ no_space w /\ (EQ ∉ w) /\ (COMMA ∉ w).

Lemma Cut_plain w : EQ ∉ w -> Cut EQ w = (w, None).
Proof. intros Hw. unfold Cut. by rewrite (proj2 (bytes_IndexByte_None w EQ) Hw). Qed.

Lemma addCondValue_word conds key v :
  v <> [] -> no_space v -> (COMMA ∉ v) ->
  addCondValue conds key v = <[str key := default [] (conds !! str key) ++ [v]]> conds.
Proof.
  intros Hne Hs Hc. unfold addCondValue, Split. rewrite split_from_plain by done. simpl.
  rewrite TrimSpace_id by (by apply no_space_trimmed). by destruct v.
Qed.

Lemma Fields_one w : plain_word w -> Fields (squeeze_commas w) = [w].
Proof.
  intros (Hne & Hs & _ & Hc). rewrite squeeze_plain by done. unfold Fields. by rewrite fields_from_word.
Qed.

Lemma Fields_two w v :
  plain_word w -> plain_word v -> Fields (squeeze_commas (w ++ bs " " ++ v)) = [w; v].
Proof.
  intros (Hne & Hs & _ & Hc) (Hne2 & Hs2 & _ & Hc2). rewrite squeeze_plain.
  - unfold Fields. change (bs " ") with [" "%char]. simpl app.
    rewrite fields_from_word_space by done. by rewrite fields_from_word.
  - intros [|[Hx|]%elem_of_app]%elem_of_app; [done| |done].
    change (bs " ") with [" "%char] in Hx. by apply list_elem_of_singleton in Hx.
Qed.

(** A [Match] criterion without a value is ignored: whatever the word,
    also one the code does not support such as [invalid-user], the line
    matches every user and the block is applied. *)
Theorem valueless_criterion_matches w user groups :
  plain_word w -> evalMatchLine w user groups = true.
Proof.
  intros Hw. unfold evalMatchLine. rewrite Fields_one by done.
  destruct Hw as (Hne & Hs & He & Hc). cbn [match_tokens]. by rewrite Cut_plain.
Qed.

Lemma evalMatchConditions_unsupported (conds : conditions) key user groups :
  is_Some (conds !! key) -> key ∉ ["user"; "group"; "all"]%string ->
  evalMatchConditions conds user groups = false.
Proof.
  intros [x Hx] Hk. unfold evalMatchConditions.
  destruct (forallb _ _) eqn:Hf; [|done]. rewrite forallb_forall in Hf.
  assert (Hin : (key, x) ∈ map_to_list conds) by (by apply elem_of_map_to_list).
  apply list_elem_of_In in Hin. specialize (Hf _ Hin). simpl in Hf. by apply bool_decide_eq_true in Hf.
Qed.

(** A criterion that is not supported and has a value disables its
    [Match] block for every user; a user criterion with one pattern applies
    the block to exactly the users the pattern accepts. *)
Theorem match_line_criteria w v user groups :
  plain_word w -> plain_word v ->
  (str (ToLower w) ∉ ["user"; "group"; "all"]%string ->
     evalMatchLine (w ++ bs " " ++ v) user groups = false) /\
  (str (ToLower w) = "user"%string ->
     evalMatchLine (w ++ bs " " ++ v) user groups = matchList user [v]).
Proof.
  intros Hw Hv.
  assert (Hconds : match_tokens [w; v] ∅ = {[str (ToLower w) := [v]]}).
  { destruct Hw as (Hne & Hs & He & Hc), Hv as (Hne2 & Hs2 & He2 & Hc2). cbn [match_tokens].
    rewrite Cut_plain by done.
    assert (has_prefix v [EQ] = false) as ->.
    { destruct v as [|b v]; [done|]. cbn [has_prefix]. destruct (ascii_dec EQ b) as [Hb|]; [|done].
      subst b. by apply not_elem_of_cons in He2 as [? _]. }
    by rewrite addCondValue_word, lookup_empty by done. }
  unfold evalMatchLine. rewrite Fields_two, Hconds by done. split.
  - intros Hk. apply (evalMatchConditions_unsupported _ (str (ToLower w))); [|done].
    rewrite lookup_singleton_eq. eauto.
  - intros ->. unfold evalMatchConditions. rewrite map_to_list_singleton. simpl.
    rewrite lookup_singleton_eq. rewrite lookup_singleton_ne by done. by destruct (matchList user [v]).
Qed.

(** ** Lines and blocks *)

Lemma no_space_blank s : no_space s -> Forall (fun b => is_blank b = false) s.
Proof.
  intros Hs. eapply Forall_impl; [done|]. intros b Hb. destruct (is_blank b) eqn:E; [|done].
  apply is_blank_space in E. congruence.
Qed.

Lemma index_blank_word key rest : no_space key -> index_func is_blank (key ++ " "%char :: rest) = Some (length key).
Proof.
  intros Hk%no_space_blank%index_func_None. rewrite index_func_app_None by done. simpl. f_equal. lia.
Qed.

Lemma TrimSpace_around a s b :
  trimmed s -> s <> [] -> Forall (fun x => is_space x = true) a -> Forall (fun x => is_space x = true) b ->
  TrimSpace (a ++ s ++ b) = s.
Proof.
  intros [Hh Hl] Hne Ha Hb. unfold TrimSpace. rewrite trim_left_spaces by done.
  destruct s as [|x s]; [done|].
  rewrite (trim_left_id _ ((x :: s) ++ b)) by (intros y [= <-]; by apply Hh).
  rewrite trim_right_spaces by done. by apply trim_right_id.
Qed.

(** An option line gives its key, in lower case, and its value, however
    it is written: [Key value], [Key=value] or [Key = value]; the value may
    contain further equal signs and spaces. *)
Theorem splitKeyValue_forms key value :
  key <> [] -> no_space key -> (EQ ∉ key) -> trimmed value -> value <> [] ->
  splitKeyValue (key ++ bs "=" ++ value) = (ToLower key, value) /\
  splitKeyValue (key ++ bs " = " ++ value) = (ToLower key, value) /\
  (head value <> Some EQ -> splitKeyValue (key ++ bs " " ++ value) = (ToLower key, value)).
Proof.
  intros Hk Hs He Hv Hvne. assert (Htk : trimmed key) by (by apply no_space_trimmed).
  pose proof (no_space_blank key Hs) as Hb. split_and!.
  - change (bs "=" ++ value) with (EQ :: value). unfold splitKeyValue.
    rewrite bytes_IndexByte_app by done. rewrite take_app_length.
    rewrite trim_right_id, index_func_None by
      (done || (intros b Hl; apply last_Some in Hl as [t ->]; apply Forall_app in Hb as [_ Hb]; by inv Hb)).
    rewrite take_app_length, Nat.add_1_r. f_equal; [by rewrite TrimSpace_id|].
    rewrite drop_app_ge by lia. rewrite Nat.sub_succ_l, Nat.sub_diag by lia. simpl. by rewrite ?drop_0, TrimSpace_id.
  - change (key ++ bs " = " ++ value) with (key ++ [" "%char] ++ EQ :: (" "%char :: value)).
    rewrite app_assoc. unfold splitKeyValue.
    rewrite bytes_IndexByte_app by (intros [|Hx]%elem_of_app; [done|by apply list_elem_of_singleton in Hx]).
    rewrite take_app_length, trim_right_spaces by (by apply Forall_singleton).
    rewrite trim_right_id, index_func_None by
      (done || (intros b Hl; apply last_Some in Hl as [t ->]; apply Forall_app in Hb as [_ Hb]; by inv Hb)).
    rewrite take_app_length, Nat.add_1_r. f_equal.
    + f_equal. apply (TrimSpace_around [] key [" "%char]); [done..|by constructor].
    + rewrite drop_app_ge by lia. rewrite Nat.sub_succ_l, Nat.sub_diag by lia. simpl. rewrite ?drop_0.
      rewrite <- (app_nil_r value) at 1. apply (TrimSpace_around [" "%char] value []); [done..|by constructor|done].
  - intros Hhd. change (bs " " ++ value) with (" "%char :: value). unfold splitKeyValue.
    assert (Hpos : match bytes_IndexByte (key ++ " "%char :: value) EQ with
      | Some pos => match index_func is_blank (trim_right is_blank (take pos (key ++ " "%char :: value))) with
                    | Some (S p) => Some (S p) | _ => Some pos end
      | None => index_func is_blank (key ++ " "%char :: value) end = Some (length key)).
    { destruct (bytes_IndexByte _ EQ) as [pos|] eqn:Hi; [|by apply index_blank_word].
      apply bytes_IndexByte_Some in Hi as (Hget & Hlt & _).
      assert (Hgt : (length key + 1 < pos)%nat).
      { destruct (decide (pos < length key)%nat) as [Hp|Hp].
        - rewrite lookup_app_l in Hget by done. by apply list_elem_of_lookup_2 in Hget.
        - rewrite lookup_app_r in Hget by lia. destruct (pos - length key)%nat as [|[|n]] eqn:E; [done| |lia].
          simpl in Hget. by destruct value. }
      destruct value as [|x value]; [done|]. destruct Hv as [Hh _]. specialize (Hh x eq_refl).
      rewrite take_app_ge by lia. destruct (pos - length key)%nat as [|[|n]] eqn:E; [lia..|]. cbn [take].
      change (key ++ " "%char :: x :: take n value) with (key ++ [" "%char] ++ x :: take n value).
      rewrite (app_assoc key [" "%char]), (trim_right_app_hit _ _ _ x) by
        (by constructor || (destruct (is_blank x) eqn:Ex; [apply is_blank_space in Ex; congruence|done])).
      rewrite <- app_assoc. simpl app. rewrite index_blank_word by done.
      destruct key; [done|]. done. }
    rewrite Hpos, take_app_length, Nat.add_1_r. f_equal; [by rewrite TrimSpace_id|].
    rewrite drop_app_ge by lia. rewrite Nat.sub_succ_l, Nat.sub_diag by lia. simpl. by rewrite ?drop_0, TrimSpace_id.
Qed.

(** A line that starts a [Match] block. *)
Definition is_match_line (line : bytes) : bool :=
  let '(key, value) := splitKeyValue (TrimSpace line) in
  bool_decide (key = bs "match") && negb (bool_decide (value = [])).

(** The options of a [Match] block that does not apply to the user have
    no effect, up to the next [Match] line. *)
Theorem unmatched_block_inert user groups config lines :
  Forall (fun l => is_match_line l = false) lines ->
  fold_left (parse_line user groups) lines (ParseState true false config) = ParseState true false config.
Proof.
  induction 1 as [|l lines Hl _ IH]; [done|]. cbn [fold_left].
  assert (parse_line user groups (ParseState true false config) l = ParseState true false config) as ->; [|done].
  unfold parse_line, is_match_line in *. destruct (_ || _); [done|].
  destruct (splitKeyValue (TrimSpace l)) as [key value]. rewrite Hl. done.
Qed.

(** ** The properties at work *)

Lemma no_sep_plain w : w <> [] -> forallb (fun b => negb (is_space b) && negb (bool_decide (b = EQ)) && negb (bool_decide (b = COMMA))) w = true ->
  plain_word w.
Proof.
  intros Hne Hf. rewrite forallb_forall in Hf.
  assert (Hall : forall b, b ∈ w -> is_space b = false /\ b <> EQ /\ b <> COMMA).
  { intros b Hb. specialize (Hf b (proj1 (list_elem_of_In _ _) Hb)).
    apply andb_true_iff in Hf as [[Hf1 Hf2]%andb_true_iff Hf3].
    apply negb_true_iff in Hf1, Hf2, Hf3. apply bool_decide_eq_false in Hf2, Hf3. done. }
  split_and!; [done| | |].
  - apply Forall_forall. intros b Hb. by apply Hall.
  - intros Hb. by apply Hall in Hb as (_ & ? & _).
  - intros Hb. by apply Hall in Hb as (_ & _ & ?).
Qed.

Lemma valueless_criterion_matches_witness : evalMatchLine (bs "invalid-user") (bs "alice") [] = true.
Proof. apply valueless_criterion_matches, no_sep_plain; [done|]. vm_compute. reflexivity. Defined.

Lemma match_line_criteria_witness :
  (str (ToLower (bs "Address")) ∉ ["user"; "group"; "all"]%string ->
     evalMatchLine (bs "Address" ++ bs " " ++ bs "10.0.0.1") (bs "alice") [] = false) /\
  (str (ToLower (bs "Address")) = "user"%string ->
     evalMatchLine (bs "Address" ++ bs " " ++ bs "10.0.0.1") (bs "alice") [] = matchList (bs "alice") [bs "10.0.0.1"]).
Proof.
  apply match_line_criteria; apply no_sep_plain; try done; vm_compute; reflexivity.
Defined.

Lemma splitKeyValue_forms_witness :
  splitKeyValue (bs "AcceptEnv=LANG LC_*") = (bs "acceptenv", bs "LANG LC_*") /\
  splitKeyValue (bs "AcceptEnv = LANG LC_*") = (bs "acceptenv", bs "LANG LC_*") /\
  (head (bs "LANG LC_*") <> Some EQ -> splitKeyValue (bs "AcceptEnv LANG LC_*") = (bs "acceptenv", bs "LANG LC_*")).
Proof.
  apply (splitKeyValue_forms (bs "AcceptEnv") (bs "LANG LC_*")); try done.
  - by repeat constructor.
  - apply (bool_decide_unpack _). vm_compute. exact I.
  - split; intros b [= <-]; reflexivity.
Defined.

Lemma unmatched_block_inert_witness :
  fold_left (parse_line (bs "alice") []) [bs "AllowTcpForwarding yes"; bs "# end"]
    (ParseState true false default_config) = ParseState true false default_config.
Proof. apply unmatched_block_inert. by repeat constructor. Defined.
