(* ===== verification/Forward.v ===== *)
(** * Forward: stream forwarding ([forward.go])

    - the policy checks at the start of the four forwarding handlers
      ([handleDialEvent], [handleListenEvent] and, in [datagram.go],
      [handleDialUdpEvent], [handleListenUdpEvent]) and the mode of socket
      files;
    - the accepted connections parked for the client until they are claimed,
      or closed by the reaper ([addAcceptConn], [takeAcceptConn],
      [reapAcceptConnAfterTimeout], and [handleChannelAccept] of
      [session.go]). *)

From Stdlib Require Import ZArith Lia Ascii String.
From stdpp Require Import base list strings gmap.
From S2P Require Import Prelude GoStrings Config.
Open Scope Z_scope.

(** ** Policy *)

(** [strings.EqualFold] folds case by Unicode: besides the ASCII letters of the
    other case, U+017F (long s) folds to [s] and U+212A (Kelvin sign) to [k]. *)
Fixpoint fold_case (s : bytes) : bytes :=
  match s with
  | "197"%char :: "191"%char :: s' => "s"%char :: fold_case s'
  | "226"%char :: "132"%char :: "170"%char :: s' => "k"%char :: fold_case s'
  | b :: s' => lower_byte b :: fold_case s'
  | [] => []
  end.

(** The second argument is always an ASCII constant in lower case. *)
Definition EqualFold (v : bytes) (t : string) : bool := bool_decide (fold_case v = bs t).

Inductive decision :=
| Allowed
| Prohibited (option : string)
| UseDialUDP.

#[export] Instance decision_eq_dec : EqDecision decision.
Proof. solve_decision. Defined.

Definition dial_policy (c : sshd_config) (net : bytes) : decision :=
  if has_prefix net (bs "udp") then UseDialUDP
  else
    let v := getSshdConfig c (bs "AllowTcpForwarding") in
    if EqualFold v "no" || EqualFold v "remote" then Prohibited "AllowTcpForwarding"
    else
      let v := getSshdConfig c (bs "AllowStreamLocalForwarding") in
      if bool_decide (net = bs "unix") && (EqualFold v "no" || EqualFold v "remote")
      then Prohibited "AllowStreamLocalForwarding"
      else if EqualFold (getSshdConfig c (bs "DisableForwarding")) "yes" then Prohibited "DisableForwarding"
      else Allowed.

Definition listen_policy (c : sshd_config) (net : bytes) : decision :=
  let v := getSshdConfig c (bs "AllowTcpForwarding") in
  if EqualFold v "no" || EqualFold v "local" then Prohibited "AllowTcpForwarding"
  else
    let v := getSshdConfig c (bs "AllowStreamLocalForwarding") in
    if bool_decide (net = bs "unix") && (EqualFold v "no" || EqualFold v "local")
    then Prohibited "AllowStreamLocalForwarding"
    else if EqualFold (getSshdConfig c (bs "DisableForwarding")) "yes" then Prohibited "DisableForwarding"
    else Allowed.

Definition dialUdp_policy (c : sshd_config) (net : bytes) : decision :=
  let v := getSshdConfig c (bs "AllowTcpForwarding") in
  if EqualFold v "no" || EqualFold v "remote" then Prohibited "AllowTcpForwarding"
  else
    let v := getSshdConfig c (bs "AllowStreamLocalForwarding") in
    if bool_decide (net = bs "unixgram") && (EqualFold v "no" || EqualFold v "remote")
    then Prohibited "AllowStreamLocalForwarding"
    else if EqualFold (getSshdConfig c (bs "DisableForwarding")) "yes" then Prohibited "DisableForwarding"
    else Allowed.

Definition listenUdp_policy (c : sshd_config) (net : bytes) : decision :=
  let v := getSshdConfig c (bs "AllowTcpForwarding") in
  if EqualFold v "no" || EqualFold v "local" then Prohibited "AllowTcpForwarding"
  else
    let v := getSshdConfig c (bs "AllowStreamLocalForwarding") in
    if bool_decide (net = bs "unixgram") && (EqualFold v "no" || EqualFold v "local")
    then Prohibited "AllowStreamLocalForwarding"
    else if EqualFold (getSshdConfig c (bs "DisableForwarding")) "yes" then Prohibited "DisableForwarding"
    else Allowed.

(** [strconv.ParseInt(v, 8, 32)]; [None] is an error. *)
Fixpoint octal_digits (acc : Z) (s : bytes) : option Z :=
  match s with
  | [] => Some acc
  | b :: s' =>
      let d := Z_of_byte b - 48 in
      if (0 <=? d) && (d <? 8) then octal_digits (acc * 8 + d) s' else None
  end.

Definition ParseOctal32 (s : bytes) : option Z :=
  let '(neg, digits) :=
    match s with
    | "-"%char :: s' => (true, s')
    | "+"%char :: s' => (false, s')
    | _ => (false, s)
    end in
  match digits with
  | [] => None
  | _ =>
      match octal_digits 0 digits with
      | None => None
      | Some n =>
          if neg then (if n <=? 2 ^ 31 then Some (- n) else None)
          else (if n <? 2 ^ 31 then Some n else None)
      end
  end.

Definition streamLocalBindMask (c : sshd_config) : Z :=
  match getSshdConfig c (bs "StreamLocalBindMask") with
  | [] => 127
  | v =>
      match ParseOctal32 v with
      | Some mask => if (mask <? 0) || (511 <? mask) then 127 else mask
      | None => 127
      end
  end.

(** The mode given to a socket file, [0666 &^ mask]. *)
Definition socket_mode (c : sshd_config) : Z := Z.ldiff 438 (streamLocalBindMask c).

(** [unlinkStaleUnixSocket]: what [os.Lstat] finds at the path, and whether
    [os.Remove] succeeds; the first result says whether the path is removed. *)
Inductive lstat := NotExist | LstatErr (e : goerr) | IsSocket | NotSocket.

Definition unlinkStaleUnixSocket (c : sshd_config) (path : string) (info : lstat) (remove : option goerr)
  : bool * option goerr :=
  if negb (EqualFold (getSshdConfig c (bs "StreamLocalBindUnlink")) "yes") then (false, None)
  else
    match info with
    | NotExist => (false, None)
    | LstatErr e => (false, Some e)
    | NotSocket => (false, Some (Plain ("refusing to unlink non-socket path: " +:+ path)))
    | IsSocket => match remove with Some e => (false, Some e) | None => (true, None) end
    end.

(** ** Parked connections *)

(** Connections are numbered by the model.  [fa_active] are those a
    [forwardConnection] is running for, [fa_closed] those closed, in order. *)
Record fwd_accept := FwdAccept {
  nextFwdAcceptID : Z;
  fwdAcceptMap : gmap Z nat;
  fa_active : list nat;
  fa_closed : list nat
}.

Definition addAcceptConn (s : fwd_accept) (conn : nat) : fwd_accept * Z :=
  let next := u64 (nextFwdAcceptID s + 1) in
  let id := u64 (next - 1) in
  (FwdAccept next (<[id := conn]> (fwdAcceptMap s)) (fa_active s) (fa_closed s), id).

Definition takeAcceptConn (s : fwd_accept) (id : Z) : fwd_accept * option nat :=
  match fwdAcceptMap s !! id with
  | Some conn => (FwdAccept (nextFwdAcceptID s) (delete id (fwdAcceptMap s)) (fa_active s) (fa_closed s), Some conn)
  | None => (s, None)
  end.

Definition close_conn (s : fwd_accept) (conn : nat) : fwd_accept :=
  FwdAccept (nextFwdAcceptID s) (fwdAcceptMap s) (fa_active s) (fa_closed s ++ [conn]).

(** The function the reaper's timer runs, and what [handleListenEvent] does
    when the accept message could not be sent. *)
Definition reapAcceptConn (s : fwd_accept) (id : Z) : fwd_accept :=
  match takeAcceptConn s id with
  | (s, Some conn) => close_conn s conn
  | (s, None) => s
  end.

(** One connection of [handleChannelAccept]; [server] is whether a client
    server is attached. A failed channel message leaves the connection to the
    reaper. *)
Definition channelAccept (s : fwd_accept) (conn : nat) (server : bool) : fwd_accept :=
  if server then fst (addAcceptConn s conn) else close_conn s conn.

(** [handleAcceptEvent] up to [forwardConnection]; the result [false] is the
    answer [invalid accept id].  If the acknowledgement fails the deferred
    [Close] runs at once. *)
Definition handleAcceptEvent (s : fwd_accept) (id : Z) (ackOk : bool) : fwd_accept * bool :=
  match takeAcceptConn s id with
  | (s, None) => (s, false)
  | (s, Some conn) =>
      if ackOk
      then (FwdAccept (nextFwdAcceptID s) (fwdAcceptMap s) (conn :: fa_active s) (fa_closed s), true)
      else (close_conn s conn, true)
  end.

Fixpoint remove_one (conn : nat) (l : list nat) : list nat :=
  match l with
  | [] => []
  | x :: l' => if decide (x = conn) then l' else x :: remove_one conn l'
  end.

(** [forwardConnection] returns for a connection: the deferred [Close]. *)
Definition forwardDone (s : fwd_accept) (conn : nat) : fwd_accept :=
  if decide (conn ∈ fa_active s)
  then close_conn (FwdAccept (nextFwdAcceptID s) (fwdAcceptMap s) (remove_one conn (fa_active s)) (fa_closed s)) conn
  else s.

(** The handlers, timers and listeners run concurrently and take the mutex
    around each access, so any order of these steps can happen. *)
Inductive accept_event :=
| Accepted (conn : nat)
| ChannelAccepted (conn : nat) (server : bool)
| SendFailed (id : Z)
| Claim (id : Z) (ackOk : bool)
| Reap (id : Z)
| Done (conn : nat).

Definition accept_step (s : fwd_accept) (e : accept_event) : fwd_accept :=
  match e with
  | Accepted conn => fst (addAcceptConn s conn)
  | ChannelAccepted conn server => channelAccept s conn server
  | SendFailed id => reapAcceptConn s id
  | Claim id ok => fst (handleAcceptEvent s id ok)
  | Reap id => reapAcceptConn s id
  | Done conn => forwardDone s conn
  end.

Definition accept_run (es : list accept_event) : fwd_accept :=
  fold_left accept_step es (FwdAccept 0 ∅ [] []).

Definition event_conns (e : accept_event) : list nat :=
  match e with Accepted conn => [conn] | ChannelAccepted conn _ => [conn] | _ => [] end.

Definition parked (s : fwd_accept) : list nat := (map_to_list (fwdAcceptMap s)).*2.

(** ** Forwarding can be switched off *)

(** The state in which a line of the file takes effect. *)
Definition in_effect (st : parse_state) : bool := negb (ps_inMatch st) || ps_userMatch st.

(** A line that sets the option [key] to [value]. *)
Definition sets (line key value : bytes) : Prop :=
  TrimSpace line <> [] /\ has_prefix (TrimSpace line) (bs "#") = false /\
  splitKeyValue (TrimSpace line) = (key, value).

Definition plain_key (key : bytes) : Prop := key <> bs "match" /\ key <> bs "subsystem".

Lemma parse_line_sets user groups st line key value :
  plain_key key -> in_effect st = true -> sets line key value ->
  sc_config (ps_config (parse_line user groups st line)) !! str key = Some value.
Proof.
  intros [Hm Hs] He (Hne & Hc & Hsp). unfold parse_line.
  rewrite (bool_decide_eq_false_2 _ Hne), Hc, Hsp. cbn [orb].
  rewrite (bool_decide_eq_false_2 _ Hm), (bool_decide_eq_false_2 _ Hs). cbn [andb].
  assert (ps_inMatch st && negb (ps_userMatch st) = false) as ->.
  { unfold in_effect in He. by destruct (ps_inMatch st), (ps_userMatch st). }
  simpl. apply lookup_insert_eq.
Qed.

Lemma str_inj a b : str a = str b -> a = b.
Proof. unfold str. intros H%(f_equal list_ascii_of_string). by rewrite !list_ascii_of_string_of_list_ascii in H. Qed.

Lemma parse_line_other user groups st line key :
  (splitKeyValue (TrimSpace line)).1 <> key ->
  sc_config (ps_config (parse_line user groups st line)) !! str key = sc_config (ps_config st) !! str key.
Proof.
  intros Hk. unfold parse_line. destruct (_ || _); [done|].
  destruct (splitKeyValue (TrimSpace line)) as [k v]. simpl in Hk.
  destruct (bool_decide (k = bs "match") && _); [done|].
  destruct (ps_inMatch st && _); [done|].
  destruct (bool_decide (k = bs "subsystem") && _).
  - destruct (splitKeyValue v) as [[|? ?] ?]; done.
  - simpl. apply lookup_insert_ne. by intros ?%str_inj.
Qed.

Lemma parse_lines_other user groups key lines st :
  Forall (fun l => (splitKeyValue (TrimSpace l)).1 <> key) lines ->
  sc_config (ps_config (fold_left (parse_line user groups) lines st)) !! str key
  = sc_config (ps_config st) !! str key.
Proof.
  intros H. revert st. induction H as [|l lines Hl _ IH]; intros st; [done|].
  simpl. rewrite IH. by apply parse_line_other.
Qed.

(** The value of an option is the one of its last line in effect. *)
Lemma last_line_decides user groups pre line post key value :
  plain_key key -> ToLower key = key ->
  in_effect (fold_left (parse_line user groups) pre (ParseState false false default_config)) = true ->
  sets line key value ->
  Forall (fun l => (splitKeyValue (TrimSpace l)).1 <> key) post ->
  getSshdConfig (parseSshdConfig (Some (pre ++ line :: post)) user groups) key = value.
Proof.
  intros Hk Hlow He Hs Hpost. unfold getSshdConfig, parseSshdConfig.
  rewrite Hlow, fold_left_app. cbn [fold_left].
  rewrite parse_lines_other by done. by rewrite (parse_line_sets _ _ _ _ _ value).
Qed.

(** When the last line in effect for [DisableForwarding] says yes, in any
    case, no handler forwards anything, whatever the other lines say. *)
Theorem forwarding_disabled user groups pre line post value net :
  in_effect (fold_left (parse_line user groups) pre (ParseState false false default_config)) = true ->
  sets line (bs "disableforwarding") value -> EqualFold value "yes" = true ->
  Forall (fun l => (splitKeyValue (TrimSpace l)).1 <> bs "disableforwarding") post ->
  let c := parseSshdConfig (Some (pre ++ line :: post)) user groups in
  dial_policy c net <> Allowed /\ listen_policy c net <> Allowed /\
  dialUdp_policy c net <> Allowed /\ listenUdp_policy c net <> Allowed.
Proof.
  intros He Hs Hv Hpost c.
  assert (Hd : getSshdConfig c (bs "DisableForwarding") = value).
  { apply (last_line_decides user groups pre line post (bs "disableforwarding")); done. }
  unfold dial_policy, listen_policy, dialUdp_policy, listenUdp_policy.
  rewrite Hd, Hv. split_and!; repeat case_match; done.
Qed.

(** Only the network [unix] is held to [AllowStreamLocalForwarding] by the
    stream handlers.  A client that asks for the other networks of local
    sockets, which [net.Dial] and [net.Listen] accept as well, is judged like
    one that asks for TCP; so with [AllowStreamLocalForwarding no] it gets its
    socket. *)
Theorem stream_local_networks_unchecked c :
  dial_policy c (bs "unixgram") = dial_policy c (bs "tcp") /\
  dial_policy c (bs "unixpacket") = dial_policy c (bs "tcp") /\
  listen_policy c (bs "unixpacket") = listen_policy c (bs "tcp") /\
  let no := SshdConfig {["allowstreamlocalforwarding"%string := bs "no"]} ∅ in
  dial_policy no (bs "unix") = Prohibited "AllowStreamLocalForwarding" /\
  dial_policy no (bs "unixpacket") = Allowed /\ listen_policy no (bs "unixpacket") = Allowed.
Proof. split_and!; try done; vm_compute; reflexivity. Qed.

(** Whatever the configuration file says, a forwarded socket file gets no
    execute, set-id or sticky bits, and none of the bits of the mask. *)
Theorem socket_mode_masked c :
  0 <= streamLocalBindMask c <= 511 /\
  Z.ldiff (socket_mode c) 438 = 0 /\ Z.land (socket_mode c) (streamLocalBindMask c) = 0.
Proof.
  split_and!.
  1, 2: unfold streamLocalBindMask; repeat case_match; try lia;
    match goal with H : (_ <? 0) || _ = false |- _ => apply orb_false_iff in H as [?%Z.ltb_ge ?%Z.ltb_ge] end; lia.
  all: apply Z.bits_inj'; intros n Hn; unfold socket_mode;
    rewrite ?Z.land_spec, ?Z.ldiff_spec, ?Z.bits_0;
    by destruct (Z.testbit 438 n), (Z.testbit (streamLocalBindMask c) n).
Qed.

(** ** No accepted connection is lost or closed twice *)

(** Ids are issued in order and not reused before the counter wraps. *)
Definition ids_below (n : nat) (s : fwd_accept) : Prop :=
  0 <= nextFwdAcceptID s <= Z.of_nat n /\
  forall id conn, fwdAcceptMap s !! id = Some conn -> 0 <= id < nextFwdAcceptID s.

Definition all_conns (s : fwd_accept) : list nat := parked s ++ fa_active s ++ fa_closed s.

Lemma addAcceptConn_id n s conn :
  ids_below n s -> Z.of_nat n < 2 ^ 64 - 1 ->
  addAcceptConn s conn =
    (FwdAccept (nextFwdAcceptID s + 1) (<[nextFwdAcceptID s := conn]> (fwdAcceptMap s)) (fa_active s) (fa_closed s),
     nextFwdAcceptID s).
Proof.
  intros [Hn _] Hlt. unfold addAcceptConn.
  rewrite (uwrap_small 64 (nextFwdAcceptID s + 1)) by lia.
  replace (nextFwdAcceptID s + 1 - 1) with (nextFwdAcceptID s) by lia.
  by rewrite uwrap_small by lia.
Qed.

Lemma ids_below_fresh n s : ids_below n s -> fwdAcceptMap s !! nextFwdAcceptID s = None.
Proof. intros [_ H]. apply eq_None_not_Some. intros [c Hc%H]. lia. Qed.

Lemma ids_below_delete n s id :
  ids_below n s ->
  forall i conn, delete id (fwdAcceptMap s) !! i = Some conn -> 0 <= i < nextFwdAcceptID s.
Proof. intros [_ H] i conn [_ Hi]%lookup_delete_Some. by apply H in Hi. Qed.

Lemma ids_below_step n s e :
  ids_below n s -> Z.of_nat n < 2 ^ 64 - 1 -> ids_below (S n) (accept_step s e).
Proof.
  intros Hinv Hlt. pose proof Hinv as [Hn Hk].
  assert (Hadd : forall conn, ids_below (S n) (fst (addAcceptConn s conn))).
  { intros conn. erewrite addAcceptConn_id by done. split; simpl; [lia|].
    intros i c [[<- _]|[_ Hi]]%lookup_insert_Some; [lia|]. apply Hk in Hi. lia. }
  assert (Hsame : ids_below (S n) s) by (split; [lia|done]).
  pose proof (fun id => ids_below_delete n s id Hinv) as Hdel.
  destruct e; simpl; unfold channelAccept, reapAcceptConn, handleAcceptEvent, takeAcceptConn, forwardDone, close_conn;
    repeat case_match; simplify_eq; try done; try apply Hadd;
    (split; simpl; [lia|]); try done; apply Hdel.
Qed.

Lemma parked_take (m : gmap Z nat) id conn :
  m !! id = Some conn -> (map_to_list m).*2 ≡ₚ conn :: (map_to_list (delete id m)).*2.
Proof.
  intros H. rewrite <- (insert_delete_id m id conn) at 1 by done.
  by rewrite map_to_list_insert by apply lookup_delete_eq.
Qed.

Lemma remove_one_Permutation conn l : conn ∈ l -> l ≡ₚ conn :: remove_one conn l.
Proof.
  induction l as [|x l IH]; intros Hin; [by apply not_elem_of_nil in Hin|]. simpl.
  destruct (decide (x = conn)) as [->|Hne]; [done|].
  apply elem_of_cons in Hin as [?|Hin]; [done|]. rewrite IH at 1 by done. constructor.
Qed.

(** Every step keeps the connections together with the one it accepts. *)
Lemma accept_step_conserves n s e :
  ids_below n s -> Z.of_nat n < 2 ^ 64 - 1 ->
  all_conns (accept_step s e) ≡ₚ event_conns e ++ all_conns s.
Proof.
  intros Hinv Hlt. unfold all_conns, parked.
  assert (Hadd : forall conn, all_conns (fst (addAcceptConn s conn)) ≡ₚ conn :: all_conns s).
  { intros conn. erewrite addAcceptConn_id by done. unfold all_conns, parked. simpl.
    by rewrite map_to_list_insert by (by eapply ids_below_fresh). }
  unfold all_conns, parked in Hadd.
  destruct e as [conn|conn server|id|id ok|id|conn]; simpl; [apply Hadd|..].
  - unfold channelAccept. destruct server; [apply Hadd|]. simpl. solve_Permutation.
  - unfold reapAcceptConn, takeAcceptConn. destruct (fwdAcceptMap s !! id) eqn:E; [|done].
    simpl. rewrite (parked_take (fwdAcceptMap s)) by done. solve_Permutation.
  - unfold handleAcceptEvent, takeAcceptConn. destruct (fwdAcceptMap s !! id) eqn:E; [|done].
    rewrite (parked_take (fwdAcceptMap s)) by done. destruct ok; simpl; solve_Permutation.
  - unfold reapAcceptConn, takeAcceptConn. destruct (fwdAcceptMap s !! id) eqn:E; [|done].
    simpl. rewrite (parked_take (fwdAcceptMap s)) by done. solve_Permutation.
  - unfold forwardDone. destruct (decide _) as [Hin|]; [|done]. simpl.
    rewrite (remove_one_Permutation conn (fa_active s)) at 2 by done. solve_Permutation.
Qed.

Lemma accept_run_inv es :
  Z.of_nat (length es) < 2 ^ 64 ->
  ids_below (length es) (accept_run es) /\ all_conns (accept_run es) ≡ₚ es ≫= event_conns.
Proof.
  induction es as [|e es IH] using rev_ind; intros Hlen.
  { split; [|done]. split; simpl; [lia|]. intros id c Hc. by rewrite lookup_empty in Hc. }
  rewrite length_app in Hlen. simpl in Hlen. destruct IH as [Hinv Hp]; [lia|].
  unfold accept_run in *. rewrite fold_left_app, length_app, Nat.add_1_r. cbn [fold_left]. split.
  - apply ids_below_step; [done|lia].
  - rewrite (accept_step_conserves (length es)) by (done || lia).
    rewrite Hp, bind_app. simpl. rewrite app_nil_r. solve_Permutation.
Qed.

(** Through any interleaving of accepts, failed sends, claims, reaper
    timers and ends of forwarding, each connection ever accepted is in exactly
    one place: parked, being forwarded, or closed (once). *)
Theorem accepted_conns_conserved es :
  Z.of_nat (length es) < 2 ^ 64 ->
  es ≫= event_conns ≡ₚ parked (accept_run es) ++ fa_active (accept_run es) ++ fa_closed (accept_run es).
Proof. intros Hlen. symmetry. by apply accept_run_inv. Qed.

(** An id that is gone stays gone. *)
Lemma id_gone_step n s e id :
  ids_below n s -> Z.of_nat n < 2 ^ 64 - 1 -> id < nextFwdAcceptID s -> fwdAcceptMap s !! id = None ->
  id < nextFwdAcceptID (accept_step s e) /\ fwdAcceptMap (accept_step s e) !! id = None.
Proof.
  intros Hinv Hlt Hid Hnone.
  assert (Hadd : forall conn, id < nextFwdAcceptID (fst (addAcceptConn s conn)) /\
                              fwdAcceptMap (fst (addAcceptConn s conn)) !! id = None).
  { intros conn. erewrite addAcceptConn_id by done. simpl. split; [lia|].
    rewrite lookup_insert_ne by lia. done. }
  destruct e; simpl; unfold channelAccept, reapAcceptConn, handleAcceptEvent, takeAcceptConn, forwardDone, close_conn;
    repeat case_match; simplify_eq; simpl; try done; try apply Hadd;
    (split; [done|]); by rewrite lookup_delete_None; right.
Qed.

(** An id is good for one claim.  Whatever happens after a claim
    has taken it, a later claim of the id is answered as invalid and
    changes nothing. *)
Theorem accept_id_claimed_once es1 es2 id ok ok' :
  Z.of_nat (length es1 + length es2) < 2 ^ 64 - 1 ->
  fwdAcceptMap (accept_run es1) !! id <> None ->
  let s := fold_left accept_step es2 (fst (handleAcceptEvent (accept_run es1) id ok)) in
  handleAcceptEvent s id ok' = (s, false).
Proof.
  intros Hlen Hin. destruct (accept_run_inv es1) as [Hinv _]; [lia|].
  set (s1 := fst (handleAcceptEvent (accept_run es1) id ok)).
  assert (Hgone : id < nextFwdAcceptID s1 /\ fwdAcceptMap s1 !! id = None).
  { unfold s1, handleAcceptEvent, takeAcceptConn.
    destruct (fwdAcceptMap (accept_run es1) !! id) as [c|] eqn:E; [|done].
    apply Hinv in E as ?. destruct ok; simpl; (split; [lia|apply lookup_delete_eq]). }
  assert (Hinv1 : ids_below (S (length es1)) s1) by (apply (ids_below_step _ _ (Claim id ok)); [done|lia]).
  revert Hgone Hinv1. generalize s1. assert (Hl : Z.of_nat (S (length es1) + length es2) < 2 ^ 64) by lia.
  revert Hl. generalize (S (length es1)). clear.
  induction es2 as [|e es2 IH]; simpl; intros n Hl s [Hlt Hnone] Hinv.
  - unfold handleAcceptEvent, takeAcceptConn. by rewrite Hnone.
  - apply (IH (S n)); [lia| |]; [eapply id_gone_step|apply ids_below_step]; try done; lia.
Qed.

(** ** The properties at work *)

Lemma forwarding_disabled_witness :
  let c := parseSshdConfig (Some [bs "AllowTcpForwarding yes"; bs "DisableForwarding = YES"; bs "# end"]) (bs "alice") [] in
  dial_policy c (bs "tcp") <> Allowed /\ listen_policy c (bs "tcp") <> Allowed /\
  dialUdp_policy c (bs "tcp") <> Allowed /\ listenUdp_policy c (bs "tcp") <> Allowed.
Proof.
  apply (forwarding_disabled (bs "alice") [] [bs "AllowTcpForwarding yes"] (bs "DisableForwarding = YES") [bs "# end"] (bs "YES")).
  - reflexivity.
  - split_and!; [done|reflexivity|reflexivity].
  - reflexivity.
  - by repeat constructor.
Defined.

Lemma accepted_conns_conserved_witness :
  let es := [Accepted 7; Accepted 8; Claim 0 true; Reap 1; Done 7; Claim 1 true] in
  es ≫= event_conns ≡ₚ parked (accept_run es) ++ fa_active (accept_run es) ++ fa_closed (accept_run es).
Proof. apply (accepted_conns_conserved [Accepted 7; Accepted 8; Claim 0 true; Reap 1; Done 7; Claim 1 true]). simpl. lia. Defined.

Lemma accept_id_claimed_once_witness :
  let s := fold_left accept_step [Accepted 8; Reap 0] (fst (handleAcceptEvent (accept_run [Accepted 7]) 0 true)) in
  handleAcceptEvent s 0 true = (s, false).
Proof. apply (accept_id_claimed_once [Accepted 7] [Accepted 8; Reap 0]); [simpl; lia|by vm_compute]. Defined.
