(* ===== verification/Start.v ===== *)
(** * Start: what a session is started with ([session.go])

    The environment of a session ([getEnvironments]), its command
    ([getSessionStartCmd], [getSubsystemCmd] of [sshd_config.go]), the X11 and
    agent requests that add to the environment, the search for an X11 port, and
    the streams that wait for a session to take them as standard error.

    Splitting and quoting of command lines are the work of third-party
    packages, and parameters here.  The system is not Windows. *)

From Stdlib Require Import ZArith Lia Ascii String.
From stdpp Require Import base list strings gmap.
From S2P Require Import Prelude GoStrings Decimal Config Forward.
Open Scope Z_scope.

(** ** Messages *)

Record x11RequestMessage := X11Request { x_AuthProtocol : bytes; x_AuthCookie : bytes; x_ScreenNumber : Z }.

(** [st_Envs]: the entries of the map, in the order [range] visits them. *)
Record startMessage := StartMessage {
  st_Shell : bool;
  st_Name : bytes;
  st_Args : list bytes;
  st_Envs : list (bytes * bytes);
  st_X11 : option x11RequestMessage;
  st_Agent : bool;
  st_Subs : bytes
}.

(** The third-party functions and the system around the server. *)
Record start_env := StartEnv {
  se_config : sshd_config;
  se_Split : bytes -> option (list bytes);
  se_Quote : bytes -> bytes;
  se_Environ : list bytes;
  se_LookPath : bytes -> bool;
  se_SHELL : bytes
}.

(** ** The environment *)

Definition kEnvTsshdBackground : bytes := bs "TRZSZ-SSHD-BACKGROUND".

Definition TERM : bytes := bs "TERM".

(** The expression built from the patterns of [AcceptEnv] is the alternative of
    theirs: it compiles if they all do, and matches if one does. *)
Definition acceptEnvRegexp (e : start_env) : option (list (list re_item)) :=
  match getSshdConfig (se_config e) (bs "AcceptEnv") with
  | [] => None
  | acceptEnv =>
      match se_Split e acceptEnv with
      | None | Some [] => None
      | Some patterns => mapM (fun p => regexp_Compile (wildcardToRegexp p)) patterns
      end
  end.

Definition accepted (e : start_env) (name : bytes) : bool :=
  bool_decide (name = TERM) ||
  match acceptEnvRegexp e with
  | None => false
  | Some res => existsb (fun re => MatchString re name) res
  end.

Definition env_entry (name value : bytes) : bytes := name ++ EQ :: value.

(** The loop over the variables of the message: the entries, and [acceptMap]. *)
Definition client_envs (e : start_env) (l : list (bytes * bytes)) : list (bytes * bytes) :=
  filter (fun nv => accepted e nv.1 = true) l.

(** Whether the loop over [os.Environ] keeps an entry. *)
Definition keeps_env (acceptMap : list bytes) (env : bytes) : bool :=
  match bytes_IndexByte env EQ with
  | None | Some O => false
  | Some pos =>
      let name := TrimSpace (take pos env) in
      negb (bool_decide (name = kEnvTsshdBackground)) && negb (bool_decide (name ∈ acceptMap))
  end.

Definition getEnvironments (e : start_env) (msg : startMessage) : list bytes :=
  let cs := client_envs e (st_Envs msg) in
  ((fun nv => env_entry nv.1 nv.2) <$> cs)
    ++ filter (fun env => keeps_env cs.*1 env = true) (se_Environ e).

(** ** The command *)

(** [exec.Cmd]; [cmd_Env] is [None] for nil: the environment of the server. *)
Record Cmd := Command { cmd_Path : bytes; cmd_Argv : list bytes; cmd_Env : option (list bytes) }.

Definition SLASH : byte := "/"%char.

(** [filepath.Base]. *)
Fixpoint after_slash (cur s : bytes) : bytes :=
  match s with
  | [] => cur
  | b :: s' => if ascii_dec b SLASH then after_slash [] s' else after_slash (cur ++ [b]) s'
  end.

Definition Base (path : bytes) : bytes :=
  match path with
  | [] => bs "."
  | _ => match trim_right (fun b => bool_decide (b = SLASH)) path with
         | [] => [SLASH]
         | p => after_slash [] p
         end
  end.

(** The white space of a regular expression, [\s]. *)
Definition re_space (b : byte) : bool :=
  bool_decide (b = " "%char) || bool_decide (b = TAB) || bool_decide (b = LF) || bool_decide (b = CR)
  || bool_decide (b = "012"%char).

(** The line given to [sh -c]. *)
Definition wrap_line (e : start_env) (name : bytes) (args : list bytes) : bytes :=
  name ++ (arg ← args; " "%char :: (if existsb re_space arg then se_Quote e arg else arg)).

Definition needs_wrap (e : start_env) (name : bytes) (args : list bytes) : bool :=
  bool_decide (name = bs "cd") || negb (se_LookPath e name) || existsb (fun a => has_prefix a (bs "~/")) args.

Definition getUserShell (e : start_env) : bytes :=
  match se_SHELL e with [] => bs "/bin/sh" | s => s end.

Inductive cmd_error := NoSubsystem | SplitFailed | EmptyCommand.

Definition getSubsystemCmd (e : start_env) (name : bytes) : cmd_error + Cmd :=
  match getSshdSubsystem (se_config e) name with
  | [] => inl NoSubsystem
  | command =>
      match se_Split e command with
      | None => inl SplitFailed
      | Some [] | Some ([] :: _) => inl EmptyCommand
      | Some (path :: args) => inr (Command path (path :: args) None)
      end
  end.

Definition getSessionStartCmd (e : start_env) (msg : startMessage) : cmd_error + Cmd :=
  match st_Subs msg with
  | _ :: _ => getSubsystemCmd e (st_Subs msg)
  | [] =>
      let envs := getEnvironments e msg in
      if st_Shell msg then
        let shell := getUserShell e in
        inr (Command shell [bs "-" ++ Base shell] (Some envs))
      else if needs_wrap e (st_Name msg) (st_Args msg) then
        inr (Command (bs "sh") [bs "sh"; bs "-c"; wrap_line e (st_Name msg) (st_Args msg)] (Some envs))
      else inr (Command (st_Name msg) (st_Name msg :: st_Args msg) (Some envs))
  end.

(** [append(c.cmd.Env, env)]. *)
Definition append_env (env : bytes) (c : Cmd) : Cmd :=
  Command (cmd_Path c) (cmd_Argv c) (Some (default [] (cmd_Env c) ++ [env])).

(** The environment the process gets: that of the server if [Env] is nil. *)
Definition process_env (e : start_env) (c : Cmd) : list bytes := default (se_Environ e) (cmd_Env c).

(** ** X11 and the agent *)

(** [net.Listen] for a network, a host and a port. *)
Abbreviation tcp_listen := (bytes -> bytes -> Z -> bool).

(** The networks and hosts that can be listened on at all (port 0). *)
Definition x11_hosts (listen : tcp_listen) (useLocalhost : bool) : list (bytes * bytes) :=
  let hosts := if useLocalhost then [(bs "tcp4", bs "127.0.0.1"); (bs "tcp6", bs "::1")]
               else [(bs "tcp4", bs "0.0.0.0"); (bs "tcp6", bs "::")] in
  filter (fun nh => listen nh.1 nh.2 0 = true) hosts.

(** The loop over the ports; the listeners of a port that is not free on every
    host are closed. *)
Fixpoint probe_ports (listen : tcp_listen) (hosts : list (bytes * bytes)) (n : nat) (port : Z) : option Z :=
  match n with
  | O => None
  | S n' => if forallb (fun nh => listen nh.1 nh.2 port) hosts then Some port else probe_ports listen hosts n' (port + 1)
  end.

(** The hosts listened on and the port. *)
Definition listenTcpOnFreePort (listen : tcp_listen) (useLocalhost : bool) (low high : Z) : option (list (bytes * bytes) * Z) :=
  match x11_hosts listen useLocalhost with
  | [] => None
  | hosts => match probe_ports listen hosts (Z.to_nat (high - low + 1)) low with
             | Some port => Some (hosts, port)
             | None => None
             end
  end.

Definition x11_displayOffset (c : sshd_config) : Z :=
  match getSshdConfig c (bs "X11DisplayOffset") with
  | [] => 10
  | offset => match ParseUint 32 offset with
              | Some off => if off <? 65535 - 6000 - 1000 then off else 10
              | None => 10
              end
  end.

(** [None]: the name cannot be had. *)
Definition getHostnameForX11 (useLocalhost : bool) (hostname : option bytes) : bytes :=
  if useLocalhost then bs "localhost" else default (bs "localhost") hostname.

(** What a granted request leads to: the listeners, what [xauth] is told, and
    the variable. *)
Record x11_grant := X11Grant {
  xg_hosts : list (bytes * bytes);
  xg_port : Z;
  xg_xauth : bytes;
  xg_env : bytes
}.

Definition display_name (host : bytes) (number screen : Z) : bytes :=
  host ++ bs ":" ++ decimal number ++ bs "." ++ decimal screen.

Definition handleX11Request (c : sshd_config) (enableForwardings : bool) (listen : tcp_listen) (hostname : option bytes)
    (msg : startMessage) : option x11_grant :=
  match st_X11 msg with
  | None => None
  | Some x =>
      if negb enableForwardings then None
      else if negb (EqualFold (getSshdConfig c (bs "X11Forwarding")) "yes") then None
      else if EqualFold (getSshdConfig c (bs "DisableForwarding")) "yes" then None
      else
        let off := x11_displayOffset c in
        let useLocalhost := negb (EqualFold (getSshdConfig c (bs "X11UseLocalhost")) "no") in
        match listenTcpOnFreePort listen useLocalhost (6000 + off) (Z.min (6000 + off + 1000) 65535) with
        | None => None
        | Some (hosts, port) =>
            let display := display_name (getHostnameForX11 useLocalhost hostname) (port - 6000) (x_ScreenNumber x) in
            let authDisplay := if useLocalhost then display_name (bs "unix") (port - 6000) (x_ScreenNumber x) else display in
            Some (X11Grant hosts port
                    (bs "remove " ++ authDisplay ++ [LF] ++ bs "add " ++ authDisplay ++ bs " " ++ x_AuthProtocol x ++ bs " "
                       ++ x_AuthCookie x ++ [LF])
                    (env_entry (bs "DISPLAY") display))
        end
  end.

(** [agentPath] is the result of [listenForAgent]. *)
Definition handleAgentRequest (c : sshd_config) (enableForwardings : bool) (agentPath : option bytes) (msg : startMessage) :
    option bytes :=
  if negb (st_Agent msg) then None
  else if negb enableForwardings then None
  else if EqualFold (getSshdConfig c (bs "AllowAgentForwarding")) "no" then None
  else if EqualFold (getSshdConfig c (bs "DisableForwarding")) "yes" then None
  else env_entry (bs "SSH_AUTH_SOCK") <$> agentPath.

(** The part of [handleSessionEvent] from [newSessionContext] to the start, for
    a session without middleware. *)
Definition session_cmd (e : start_env) (enableForwardings : bool) (listen : tcp_listen) (hostname agentPath : option bytes)
    (msg : startMessage) : cmd_error + Cmd :=
  match getSessionStartCmd e msg with
  | inl err => inl err
  | inr cmd =>
      let cmd1 := match handleX11Request (se_config e) enableForwardings listen hostname msg with
                  | Some g => append_env (xg_env g) cmd
                  | None => cmd
                  end in
      inr (match handleAgentRequest (se_config e) enableForwardings agentPath msg with
           | Some env => append_env env cmd1
           | None => cmd1
           end)
  end.

(** ** What the process finds in its environment *)

(** The value an entry gives to a name. *)
Definition value_of (n x : bytes) : option bytes :=
  match Cut EQ x with (m, Some v) => if bool_decide (m = n) then Some v else None | _ => None end.

(** Of several entries for a name [exec] keeps the last. *)
Definition env_value (n : bytes) (l : list bytes) : option bytes := last (omap (value_of n) l).

(** The patterns of [AcceptEnv]. *)
Definition accept_patterns (e : start_env) : list bytes :=
  match getSshdConfig (se_config e) (bs "AcceptEnv") with [] => [] | v => default [] (se_Split e v) end.

Lemma wildcard_compiles p : exists re, regexp_Compile (wildcardToRegexp p) = Some re.
Proof.
  exists (ReBegin :: (item <$> p) ++ [ReEnd]). unfold wildcardToRegexp.
  change (regexp_Compile (bs "^" ++ (p ≫= wildcard_char) ++ bs "$"))
    with (cons ReBegin <$> regexp_Compile ((p ≫= wildcard_char) ++ bs "$")).
  by rewrite regexp_Compile_wildcard.
Qed.

Lemma patterns_match ps n :
  exists res, mapM (fun p => regexp_Compile (wildcardToRegexp p)) ps = Some res /\
    existsb (fun re => MatchString re n) res = existsb (fun p => wildcardMatch p n) ps.
Proof.
  induction ps as [|p ps (res & Hres & Hm)]; [by exists []|].
  destruct (wildcard_compiles p) as [re Hre]. exists (re :: res). split.
  - apply mapM_Some. constructor; [exact Hre|by apply mapM_Some].
  - cbn [existsb]. rewrite Hm. f_equal. unfold wildcardMatch. by rewrite Hre.
Qed.

Lemma accepted_patterns e n :
  accepted e n = bool_decide (n = TERM) || existsb (fun p => wildcardMatch p n) (accept_patterns e).
Proof.
  unfold accepted, acceptEnvRegexp, accept_patterns. f_equal.
  destruct (getSshdConfig (se_config e) (bs "AcceptEnv")) as [|b v]; [done|].
  destruct (se_Split e (b :: v)) as [[|p ps]|]; [done| |done].
  destruct (patterns_match (p :: ps) n) as (res & Hres & Hm). rewrite Hres. exact Hm.
Qed.

Lemma Cut_entry m v : EQ ∉ m -> Cut EQ (env_entry m v) = (m, Some v).
Proof.
  intros Hm. unfold Cut, env_entry. rewrite bytes_IndexByte_app by done.
  rewrite take_app_length. do 2 f_equal. replace (S (length m)) with (length m + 1)%nat by lia. by rewrite drop_app_add.
Qed.

Lemma omap_filter_all {A B} (f : A -> option B) (P : A -> Prop) `{!forall x, Decision (P x)} (l : list A) :
  (forall x y, x ∈ l -> f x = Some y -> P x) -> omap f (filter P l) = omap f l.
Proof.
  induction l as [|x l IH]; intros Hl; [done|]. rewrite filter_cons.
  assert (IHl : omap f (filter P l) = omap f l) by (apply IH; intros; eapply Hl; [by right|done]).
  destruct (decide (P x)) as [|Hn]; cbn in *; rewrite IHl; [done|].
  destruct (f x) as [y|] eqn:E; [|done]. destruct Hn. eapply Hl; [by left|done].
Qed.

Lemma omap_filter_none {A B} (f : A -> option B) (P : A -> Prop) `{!forall x, Decision (P x)} (l : list A) :
  (forall x y, f x = Some y -> ~ P x) -> omap f (filter P l) = [].
Proof.
  intros Hl. induction l as [|x l IH]; [done|]. rewrite filter_cons. destruct (decide (P x)) as [Hp|]; [|done]. simpl.
  destruct (f x) as [y|] eqn:E; [|done]. by destruct (Hl x y E).
Qed.

(** An entry that names [n], with white space at neither end of the name. *)
Lemma keeps_named cs n x v : value_of n x = Some v -> n <> [] -> TrimSpace n = n -> n <> kEnvTsshdBackground ->
  keeps_env cs x = negb (bool_decide (n ∈ cs)).
Proof.
  unfold value_of, Cut, keeps_env. destruct (bytes_IndexByte x EQ) as [pos|]; [|done].
  case_bool_decide as Hn; [|done]. intros _ Hne Ht Hb. rewrite Hn, Ht, (bool_decide_eq_false_2 (n = _)) by done.
  destruct pos; [|done]. simpl in Hn. by subst.
Qed.

(** What the client's variables contribute to a name. *)
Lemma client_value e n l : NoDup l.*1 -> Forall (fun nv => EQ ∉ nv.1) l ->
  omap (value_of n) ((fun nv => env_entry nv.1 nv.2) <$> client_envs e l)
  = match (list_to_map l : gmap bytes bytes) !! n with Some v => if accepted e n then [v] else [] | None => [] end.
Proof.
  induction l as [|[m v] l IH]; intros Hd Hq; [done|]. apply NoDup_cons in Hd as [Hm Hd]. apply Forall_cons in Hq as [Hq Hql].
  simpl in Hm, Hq. specialize (IH Hd Hql). unfold client_envs in *. rewrite filter_cons. cbn [fst list_to_map foldr].
  assert (Hv : value_of n (env_entry m v) = if bool_decide (m = n) then Some v else None)
    by (unfold value_of; by rewrite Cut_entry).
  assert (Hnone : m = n -> (list_to_map l : gmap bytes bytes) !! n = None)
    by (intros <-; by apply not_elem_of_list_to_map_1).
  destruct (decide (accepted e m = true)) as [Ha|Ha]; cbn [fmap list_fmap omap list_omap]; cbn [fst snd]; rewrite ?Hv, IH;
    (case_bool_decide as Hmn || destruct (decide (m = n)) as [Hmn|Hmn]).
  - subst m. rewrite lookup_insert_eq, Ha. by rewrite (Hnone eq_refl).
  - by rewrite lookup_insert_ne.
  - subst m. rewrite lookup_insert_eq, (Hnone eq_refl). by destruct (accepted e n).
  - by rewrite lookup_insert_ne.
Qed.

Lemma client_names e n l : NoDup l.*1 ->
  n ∈ (client_envs e l).*1 <-> accepted e n = true /\ is_Some ((list_to_map l : gmap bytes bytes) !! n).
Proof.
  intros Hd. unfold client_envs. rewrite list_elem_of_fmap. split.
  - intros ([m v] & -> & [Ha Hin]%list_elem_of_filter). split; [done|]. exists v. by apply elem_of_list_to_map_1.
  - intros (Ha & v & Hv). exists (n, v). split; [done|]. apply list_elem_of_filter. split; [done|].
    by apply elem_of_list_to_map_2.
Qed.

(** The environment of a session, name by name: a variable of the client
    that is [TERM] or matches a pattern of [AcceptEnv] has the client's value,
    every other one the server's value if it has one, and the mark of the
    server's own start is not passed on.  Names contain no equals sign and
    neither begin nor end with white space. *)
Theorem session_environment e msg n :
  NoDup (st_Envs msg).*1 -> Forall (fun nv => EQ ∉ nv.1) (st_Envs msg) ->
  n <> [] -> TrimSpace n = n -> n <> kEnvTsshdBackground ->
  env_value n (getEnvironments e msg)
  = match (list_to_map (st_Envs msg) : gmap bytes bytes) !! n with
    | Some v => if bool_decide (n = TERM) || existsb (fun p => wildcardMatch p n) (accept_patterns e)
                then Some v else env_value n (se_Environ e)
    | None => env_value n (se_Environ e)
    end.
Proof.
  intros Hd Hq Hne Ht Hb. rewrite <- accepted_patterns. unfold env_value, getEnvironments.
  rewrite omap_app, last_app, client_value by done.
  pose proof (client_names e n (st_Envs msg) Hd) as Hn.
  destruct (decide (n ∈ (client_envs e (st_Envs msg)).*1)) as [Hin|Hout].
  - rewrite omap_filter_none.
    + apply Hn in Hin as [-> [v ->]]. done.
    + intros x v Hv. rewrite (keeps_named _ n x v) by done. by rewrite bool_decide_eq_true_2.
  - rewrite omap_filter_all.
    + destruct (last (omap (value_of n) (se_Environ e))) as [w|] eqn:El.
      all: destruct (list_to_map (st_Envs msg) !! n) as [v|]; [|done]; destruct (accepted e n) eqn:Ea; [|done].
      all: destruct Hout; apply Hn; eauto.
    + intros x v _ Hv. rewrite (keeps_named _ n x v) by done. by rewrite bool_decide_eq_false_2.
Qed.

(** A configuration and a server to try things on; [Split] at blanks. *)
Definition conf (l : list (string * string)) (subs : list (string * string)) : sshd_config :=
  SshdConfig (list_to_map ((fun kv => (kv.1, bs kv.2)) <$> l)) (list_to_map ((fun kv => (kv.1, bs kv.2)) <$> subs)).

Definition example_start (accept : string) : start_env :=
  StartEnv (conf [("acceptenv", accept)] [("sftp", "/usr/lib/sftp-server -e")])%string
    (fun s => Some (Fields s)) (fun s => bs "'" ++ s ++ bs "'")
    [bs "PATH=/usr/bin"; bs "LANG=C"; bs "LC_TIME=C"; bs "TRZSZ-SSHD-BACKGROUND=TRUE"] (fun _ => true) (bs "/bin/bash").

Definition example_message (envs : list (string * string)) (subs : string) (agent : bool) : startMessage :=
  StartMessage true [] [] ((fun kv => (bs kv.1, bs kv.2)) <$> envs) None agent (bs subs).

Definition example_envs : list (string * string) :=
  [("TERM", "xterm"); ("LC_TIME", "de_DE"); ("PATH", "/tmp")]%string.

Lemma session_environment_witness :
  env_value (bs "LC_TIME") (getEnvironments (example_start "LANG LC_*") (example_message example_envs "" false)) = Some (bs "de_DE").
Proof.
  rewrite (session_environment (example_start "LANG LC_*") (example_message example_envs "" false) (bs "LC_TIME")).
  - vm_compute. reflexivity.
  - apply (bool_decide_unpack _). vm_compute. exact I.
  - apply (bool_decide_unpack _). vm_compute. exact I.
  - discriminate.
  - vm_compute. reflexivity.
  - discriminate.
Defined.

(** The same environment in full: the client's [PATH] is ignored. *)
Example environment_of_session :
  getEnvironments (example_start "LANG LC_*") (example_message example_envs "" false)
  = bs <$> ["TERM=xterm"; "LC_TIME=de_DE"; "PATH=/usr/bin"; "LANG=C"]%string.
Proof. vm_compute. reflexivity. Qed.

(** A name with an equals sign is matched as a whole but takes effect only
    up to the sign.  Where a pattern does not end in a star, a client can so set
    a variable that no pattern accepts. *)
Theorem equals_sign_smuggles e msg m rest v :
  st_Envs msg = [(m ++ EQ :: rest, v)] -> EQ ∉ m ->
  existsb (fun p => wildcardMatch p (m ++ EQ :: rest)) (accept_patterns e) = true -> env_value m (se_Environ e) = None ->
  env_value m (getEnvironments e msg) = Some (rest ++ EQ :: v).
Proof.
  intros Hm Hq Hp Hs. unfold env_value, getEnvironments in *. rewrite omap_app, last_app.
  assert (Ha : accepted e (m ++ EQ :: rest) = true) by (by rewrite accepted_patterns, Hp, orb_true_r).
  assert (Hsrv : omap (value_of m) (se_Environ e) = []).
  { apply last_None in Hs. exact Hs. }
  assert (Hf : forall P `{!forall x, Decision (P x)}, omap (value_of m) (filter P (se_Environ e)) = []).
  { intros P HP. clear -Hsrv. induction (se_Environ e) as [|x l IH]; [done|]. cbn in Hsrv.
    destruct (value_of m x) eqn:E; [done|]. rewrite filter_cons. destruct (decide (P x)); [|by apply IH].
    cbn. rewrite E. by apply IH. }
  rewrite Hf, Hm. unfold client_envs. rewrite filter_cons, decide_True by done. cbn -[value_of env_entry].
  assert (Hv : value_of m (env_entry (m ++ EQ :: rest) v) = Some (rest ++ EQ :: v)).
  { replace (env_entry (m ++ EQ :: rest) v) with (env_entry m (rest ++ EQ :: v)) by (unfold env_entry; by rewrite <- app_assoc).
    unfold value_of. rewrite Cut_entry by done. by rewrite bool_decide_eq_true_2. }
  by rewrite Hv.
Qed.

Lemma equals_sign_smuggles_witness :
  env_value (bs "LD_PRELOAD") (getEnvironments (example_start "LANG L*_ID") (example_message [("LD_PRELOAD=/tmp/x_ID", "")]%string "" false))
  = Some (bs "/tmp/x_ID=").
Proof.
  apply (equals_sign_smuggles (example_start "LANG L*_ID") (example_message [("LD_PRELOAD=/tmp/x_ID", "")]%string "" false)
           (bs "LD_PRELOAD") (bs "/tmp/x_ID") []).
  - reflexivity.
  - apply (bool_decide_unpack _). vm_compute. exact I.
  - vm_compute. reflexivity.
  - vm_compute. reflexivity.
Defined.

(** ** Commands *)

(** A subsystem is started with the environment of the server, whatever the
    client asked for, unless it also asked for agent or X11 forwarding and got
    it: then its environment consists of the variables of those alone. *)
Theorem subsystem_environment e fw listen hostname agentPath msg cmd :
  st_Subs msg <> [] -> session_cmd e fw listen hostname agentPath msg = inr cmd ->
  process_env e cmd =
    match handleX11Request (se_config e) fw listen hostname msg, handleAgentRequest (se_config e) fw agentPath msg with
    | None, None => se_Environ e
    | Some g, None => [xg_env g]
    | None, Some a => [a]
    | Some g, Some a => [xg_env g; a]
    end.
Proof.
  intros Hs. unfold session_cmd, getSessionStartCmd. destruct (st_Subs msg) as [|b s] eqn:E; [done|].
  unfold getSubsystemCmd. destruct (getSshdSubsystem _ _); [done|].
  destruct (se_Split e _) as [[|[|c path] args]|]; try done.
  destruct (handleX11Request _ _ _ _ _), (handleAgentRequest _ _ _ _); by intros [= <-].
Qed.

Lemma subsystem_environment_witness :
  exists cmd, session_cmd (example_start "LANG") true (fun _ _ _ => false) None (Some (bs "/run/agent-1-2"))
                (example_message [] "sftp" true) = inr cmd /\
    process_env (example_start "LANG") cmd = [bs "SSH_AUTH_SOCK=/run/agent-1-2"].
Proof.
  eexists. split; [vm_compute; reflexivity|].
  rewrite (subsystem_environment (example_start "LANG") true (fun _ _ _ => false) None (Some (bs "/run/agent-1-2"))
             (example_message [] "sftp" true)); [vm_compute; reflexivity|discriminate|vm_compute; reflexivity].
Defined.

(** ** X11 ports *)

Lemma probe_ports_spec listen hosts n port :
  match probe_ports listen hosts n port with
  | Some p => port <= p < port + Z.of_nat n /\ forallb (fun nh => listen nh.1 nh.2 p) hosts = true /\
              forall q, port <= q < p -> forallb (fun nh => listen nh.1 nh.2 q) hosts = false
  | None => forall q, port <= q < port + Z.of_nat n -> forallb (fun nh => listen nh.1 nh.2 q) hosts = false
  end.
Proof.
  revert port. induction n as [|n IH]; intros port; [simpl; lia|]. cbn [probe_ports].
  destruct (forallb _ hosts) eqn:E; [split; [lia|split; [done|lia]]|]. specialize (IH (port + 1)).
  destruct (probe_ports listen hosts n (port + 1)) as [p|].
  - destruct IH as (Hr & Hp & Hq). split; [lia|split; [done|]]. intros q Hq'.
    destruct (decide (q = port)) as [->|]; [done|]. apply Hq. lia.
  - intros q Hq'. destruct (decide (q = port)) as [->|]; [done|]. apply IH. lia.
Qed.

Lemma displayOffset_range c : 0 <= x11_displayOffset c < 58535.
Proof.
  unfold x11_displayOffset. destruct (getSshdConfig c (bs "X11DisplayOffset")) as [|b s]; [lia|].
  destruct (ParseUint 32 (b :: s)) as [off|] eqn:E; [|lia]. apply ParseUint_range in E.
  destruct (Z.ltb_spec off (65535 - 6000 - 1000)); lia.
Qed.

(** X11 forwarding is granted only if the server allows forwarding, the
    configuration says yes to it and does not disable forwarding; it then
    listens on a valid port above the configured offset, the first one that is
    free on every address family in use, and there is at least one. *)
Theorem x11_granted c fw listen hostname msg g :
  handleX11Request c fw listen hostname msg = Some g ->
  fw = true /\ EqualFold (getSshdConfig c (bs "X11Forwarding")) "yes" = true /\
  EqualFold (getSshdConfig c (bs "DisableForwarding")) "yes" = false /\
  let low := 6000 + x11_displayOffset c in
  low <= xg_port g <= low + 1000 /\ xg_port g <= 65535 /\ xg_hosts g <> [] /\
  Forall (fun nh => listen nh.1 nh.2 (xg_port g) = true) (xg_hosts g) /\
  forall q, low <= q < xg_port g -> Exists (fun nh => listen nh.1 nh.2 q = false) (xg_hosts g).
Proof.
  unfold handleX11Request, listenTcpOnFreePort. destruct (st_X11 msg) as [x|]; [|done]. destruct fw; [|done]. cbn [negb].
  destruct (EqualFold (getSshdConfig c (bs "X11Forwarding")) "yes"); [|done]. cbn [negb].
  destruct (EqualFold (getSshdConfig c (bs "DisableForwarding")) "yes"); [done|].
  pose proof (displayOffset_range c) as Ho. set (off := x11_displayOffset c) in *. cbv zeta.
  set (hosts := x11_hosts _ _). destruct hosts as [|h hosts'] eqn:Eh; [done|].
  pose proof (probe_ports_spec listen (h :: hosts') (Z.to_nat (Z.min (6000 + off + 1000) 65535 - (6000 + off) + 1)) (6000 + off)) as Hp.
  destruct (probe_ports _ _ _ _) as [p|]; [|done]. intros [= <-]. cbn [xg_port xg_hosts].
  destruct Hp as (Hr & Hf & Hq). split_and!; try done; try lia.
  - apply Forall_forall. rewrite forallb_forall in Hf. intros nh Hnh. apply Hf. by apply list_elem_of_In.
  - intros q Hq'. specialize (Hq q Hq'). destruct (decide (Exists (fun nh => listen nh.1 nh.2 q = false) (h :: hosts'))) as [|Hn]; [done|].
    apply not_Exists_Forall in Hn; [|solve_decision]. exfalso. rewrite (proj2 (forallb_forall _ _)) in Hq; [done|].
    intros nh Hnh. rewrite Forall_forall in Hn. apply list_elem_of_In, Hn in Hnh. by apply not_false_iff_true.
Qed.

Definition x11_config : sshd_config := conf [("x11forwarding", "yes")]%string [].

Definition x11_message : startMessage := StartMessage true [] [] [] (Some (X11Request (bs "MIT") (bs "c0") 0)) false [].

Lemma x11_granted_witness :
  let g := X11Grant [(bs "tcp4", bs "127.0.0.1"); (bs "tcp6", bs "::1")] 6012
             (bs "remove unix:12.0" ++ [LF] ++ bs "add unix:12.0 MIT c0" ++ [LF]) (bs "DISPLAY=localhost:12.0") in
  6010 <= xg_port g <= 7010.
Proof.
  refine (proj1 (proj2 (proj2 (proj2 (x11_granted x11_config true (fun _ _ p => negb (p =? 6010) && negb (p =? 6011)) None x11_message _ _))))).
  vm_compute. reflexivity.
Defined.

(** ** Standard error *)

(** The streams are numbered as they come; [sd_closed] tells which are closed,
    which is what their handlers wait for.  [sd_taken], the streams given to
    sessions, is history. *)
Record stderr_streams := StderrStreams {
  stderrMap : gmap Z nat;
  sd_closed : list bool;
  sd_taken : list nat
}.

(** [None]: standard error is set already. *)
Definition newStderrStream (id : Z) (s : stderr_streams) : stderr_streams * option nat :=
  match stderrMap s !! id with
  | Some _ => (s, None)
  | None => let h := length (sd_closed s) in
            (StderrStreams (<[id := h]> (stderrMap s)) (sd_closed s ++ [false]) (sd_taken s), Some h)
  end.

Definition takeStderrStream (id : Z) (s : stderr_streams) : stderr_streams * option nat :=
  match stderrMap s !! id with
  | Some h => (StderrStreams (delete id (stderrMap s)) (sd_closed s) (h :: sd_taken s), Some h)
  | None => (s, None)
  end.

Definition stderr_Close (h : nat) (s : stderr_streams) : stderr_streams :=
  StderrStreams (stderrMap s) (<[h := true]> (sd_closed s)) (sd_taken s).

Definition closeAllStderrStreams (s : stderr_streams) : stderr_streams :=
  StderrStreams ∅ (foldr (fun h l => <[h := true]> l) (sd_closed s) (map_to_list (stderrMap s)).*2) (sd_taken s).

(** The stream of a client for a session's standard error: [msgOk] is whether its
    message came, [ackOk] whether the answer gets through.  The stream that the
    handler goes on to wait for, if any; without an acknowledgement it ends and
    leaves the stream to the session. *)
Definition handleStderrEvent (msgOk : bool) (id : Z) (ackOk : bool) (s : stderr_streams) : stderr_streams * option nat :=
  if negb msgOk then (s, None)
  else match newStderrStream id s with
       | (s', None) => (s', None)
       | (s', Some h) => (s', if ackOk then Some h else None)
       end.

(** A stream is announced, taken by the session of its id, closed by a session
    that has taken it, or all are closed with the server. *)
Inductive stderr_event := SNew (msgOk : bool) (id : Z) (ackOk : bool) | STake (id : Z) | SClose (h : nat) | SCloseAll.

Definition stderr_step (s : stderr_streams) (e : stderr_event) : stderr_streams :=
  match e with
  | SNew msgOk id ackOk => (handleStderrEvent msgOk id ackOk s).1
  | STake id => (takeStderrStream id s).1
  | SClose h => if bool_decide (h ∈ sd_taken s) then stderr_Close h s else s
  | SCloseAll => closeAllStderrStreams s
  end.

Definition stderr_run (es : list stderr_event) : stderr_streams := foldl stderr_step (StderrStreams ∅ [] []) es.

(** Every stream is waiting for its session, has been taken or is closed; no
    stream is two of the first, or taken twice. *)
Record stderr_ok (s : stderr_streams) : Prop := {
  so_range : map_Forall (fun _ h => (h < length (sd_closed s))%nat) (stderrMap s);
  so_inj : forall i j h, stderrMap s !! i = Some h -> stderrMap s !! j = Some h -> i = j;
  so_apart : forall i h, stderrMap s !! i = Some h -> h ∉ sd_taken s;
  so_once : NoDup (sd_taken s);
  so_taken : Forall (fun h => (h < length (sd_closed s))%nat) (sd_taken s);
  so_where : forall h, sd_closed s !! h = Some false -> (exists i, stderrMap s !! i = Some h) \/ h ∈ sd_taken s
}.

Lemma close_list_lookup hs (l : list bool) h :
  foldr (fun h l => <[h := true]> l) l hs !! h = Some false -> l !! h = Some false /\ h ∉ hs.
Proof.
  induction hs as [|x hs IH]; simpl; [set_solver|]. intros Hl. destruct (decide (h = x)) as [->|Hne].
  - apply list_lookup_insert_Some in Hl as [(_ & ? & _)|[? _]]; done.
  - rewrite list_lookup_insert_ne in Hl by done. apply IH in Hl as [? ?]. split; [done|set_solver].
Qed.

Lemma close_list_length hs (l : list bool) : length (foldr (fun h l => <[h := true]> l) l hs) = length l.
Proof. induction hs as [|x hs IH]; simpl; [done|]. by rewrite length_insert. Qed.

Lemma stderr_ok_new id s : stderr_ok s -> stderr_ok (newStderrStream id s).1.
Proof.
  intros [Hr Hi Ha Ho Ht Hw]. unfold newStderrStream. destruct (stderrMap s !! id) as [h|] eqn:E; [done|].
  split; simpl.
  - apply map_Forall_insert_2; [rewrite length_app; simpl; lia|]. eapply map_Forall_impl; [exact Hr|].
    intros i h Hh. rewrite length_app. simpl in *. lia.
  - intros i j h [[<- <-]|[? Hj]]%lookup_insert_Some [[<- ?]|[? Hj']]%lookup_insert_Some; try done.
    + apply Hr in Hj'. simpl in Hj'. lia.
    + subst h. apply Hr in Hj. simpl in Hj. lia.
    + by eapply Hi.
  - intros i h [[<- <-]|[? Hj]]%lookup_insert_Some; [|by eapply Ha].
    intros Hin. rewrite Forall_forall in Ht. specialize (Ht _ Hin). simpl in Ht. lia.
  - done.
  - eapply Forall_impl; [exact Ht|]. intros h Hh. rewrite length_app. simpl in *. lia.
  - intros h [Hh|[Hge Hh]]%lookup_app_Some.
    + destruct (Hw h Hh) as [[i Hi']|]; [|by right]. left. exists i. rewrite lookup_insert_ne; [done|congruence].
    + left. exists id. apply list_lookup_singleton_Some in Hh as [Hz _]. rewrite lookup_insert_eq. f_equal. lia.
Qed.

Lemma stderr_ok_take id s : stderr_ok s -> stderr_ok (takeStderrStream id s).1.
Proof.
  intros [Hr Hi Ha Ho Ht Hw]. unfold takeStderrStream. destruct (stderrMap s !! id) as [h|] eqn:E; [|done].
  split; simpl.
  - by apply map_Forall_delete.
  - intros i j h' [_ H1]%lookup_delete_Some [_ H2]%lookup_delete_Some. by eapply Hi.
  - intros i h' [Hne H1]%lookup_delete_Some. rewrite not_elem_of_cons. split; [|by eapply Ha].
    intros ->. destruct Hne. by eapply Hi.
  - constructor; [by eapply Ha|done].
  - constructor; [by apply (Hr id)|done].
  - intros h' Hh'. destruct (decide (h' = h)) as [->|Hne]; [right; by left|].
    destruct (Hw h' Hh') as [[i Hi']|]; [|right; by right]. left. exists i. rewrite lookup_delete_ne; [done|congruence].
Qed.

Lemma stderr_ok_step s e : stderr_ok s -> stderr_ok (stderr_step s e).
Proof.
  destruct e as [msgOk id ackOk|id|h|]; cbn [stderr_step]; [|apply stderr_ok_take| |].
  - intros Hs. unfold handleStderrEvent. destruct msgOk; [|done]. cbn [negb]. pose proof (stderr_ok_new id s Hs) as Hn.
    by destruct (newStderrStream id s) as [s' [h|]].
  - intros [Hr Hi Ha Ho Ht Hw]. case_bool_decide; [|by split]. split; simpl; rewrite ?length_insert; try done.
    intros h' Hh'. apply Hw. apply list_lookup_insert_Some in Hh' as [(_ & ? & _)|[_ ?]]; done.
  - intros [Hr Hi Ha Ho Ht Hw]. split; simpl; rewrite ?close_list_length; try done.
    intros h [Hh Hn]%close_list_lookup. destruct (Hw h Hh) as [[i Hi']|]; [|by right]. destruct Hn.
    apply list_elem_of_fmap. exists (i, h). split; [done|]. by apply elem_of_map_to_list.
Qed.

(** When the server closes its standard error streams, no handler is left
    waiting but those whose stream a session has taken; a stream is taken at
    most once, whatever the order in which streams come and sessions start. *)
Theorem stderr_handlers_end es :
  let s := closeAllStderrStreams (stderr_run es) in
  NoDup (sd_taken s) /\ stderrMap s = ∅ /\ forall h, sd_closed s !! h = Some false -> h ∈ sd_taken s.
Proof.
  assert (Hs : stderr_ok (stderr_run es)).
  { unfold stderr_run. assert (H0 : stderr_ok (StderrStreams ∅ [] [])).
    { split; simpl; try constructor; done. }
    revert H0. generalize (StderrStreams ∅ [] []). induction es as [|e es IH]; intros s Hs; [done|]. by apply IH, stderr_ok_step. }
  pose proof (stderr_ok_step _ SCloseAll Hs) as [_ _ _ Ho _ Hw]. simpl in *. split_and!; [done|done|].
  intros h Hh. destruct (Hw h Hh) as [[i Hi]|]; done.
Qed.
