(* ===== verification/Requests.v ===== *)
(** * Requests: what a client asks of its session before it starts ([client.go])

    The calls on a [SshUdpSession] that prepare a start ([Setenv], [RequestPty],
    [SendRequest], the pipes), the start messages of [Shell], [Start] and
    [RequestSubsystem], and what the server of [Start] makes of them. *)

From Stdlib Require Import ZArith Lia Ascii String.
From stdpp Require Import base list strings gmap.
From S2P Require Import Prelude GoStrings Config Start.
Open Scope Z_scope.

(** ** State *)

(** [x11Request]: [SingleConnection] is passed on but not read by the server. *)
Record x11Request := X11Req { xr_SingleConnection : bool; xr_AuthProtocol : bytes; xr_AuthCookie : bytes; xr_ScreenNumber : Z }.

(** The fields of [SshUdpSession] that a start uses; the pipes are set or nil. *)
Record prepared := Prepared {
  pr_pty : bool;
  pr_height : Z;
  pr_width : Z;
  pr_envs : gmap bytes bytes;
  pr_x11 : option x11Request;
  pr_agent : bool;
  pr_stdin : bool;
  pr_stdout : bool;
  pr_stderr : bool;
  pr_started : bool
}.

Definition new_prepared : prepared := Prepared false 0 0 ∅ None false false false false false.

Definition set_envs (envs : gmap bytes bytes) (s : prepared) : prepared :=
  Prepared (pr_pty s) (pr_height s) (pr_width s) envs (pr_x11 s) (pr_agent s) (pr_stdin s) (pr_stdout s) (pr_stderr s) (pr_started s).

(** ** Calls *)

(** The names of the requests that [SendRequest] knows. *)
Definition kX11RequestName : string := "x11-req".
Definition kAgentRequestName : string := "auth-agent-req@openssh.com".

(** [RSendRequest]: [payload] is [None] for nil; what [ssh.Unmarshal] makes of
    it is an argument of [request_step].  [RWindowChange]: whether the resize
    message goes onto the bus.  [RStderrPipe]: whether the stream for the error
    output is opened and acknowledged. *)
Inductive request :=
| RSetenv (name value : bytes)
| RRequestPty (term : bytes) (height width : Z)
| RWindowChange (height width : Z) (sent : bool)
| RSendRequest (name : string) (payload : option bytes)
| RStdinPipe
| RStdoutPipe
| RStderrPipe (opened : bool).

Definition Setenv (name value : bytes) (s : prepared) : prepared := set_envs (<[name := value]> (pr_envs s)) s.

Definition request_pty_env (term : bytes) (height width : Z) (s : prepared) : prepared :=
  Prepared true height width (<[TERM := term]> (pr_envs s)) (pr_x11 s) (pr_agent s) (pr_stdin s) (pr_stdout s) (pr_stderr s) (pr_started s).

Section Calls.
Context (unmarshal_x11 : bytes -> option x11Request) (unmarshal_agent : bytes -> bool).

(** A payload that does not parse leaves an empty request behind. *)
Definition SendRequest (name : string) (payload : option bytes) (s : prepared) : prepared * bool :=
  let with_x11 x := Prepared (pr_pty s) (pr_height s) (pr_width s) (pr_envs s) (Some x) (pr_agent s) (pr_stdin s) (pr_stdout s) (pr_stderr s)
                      (pr_started s) in
  let with_agent := Prepared (pr_pty s) (pr_height s) (pr_width s) (pr_envs s) (pr_x11 s) true (pr_stdin s) (pr_stdout s) (pr_stderr s)
                      (pr_started s) in
  if bool_decide (name = kX11RequestName) then
    match payload with
    | None => (with_x11 (X11Req false [] [] 0), true)
    | Some b => match unmarshal_x11 b with
                | Some x => (with_x11 x, true)
                | None => (with_x11 (X11Req false [] [] 0), false)
                end
    end
  else if bool_decide (name = kAgentRequestName) then
    (with_agent, match payload with None => true | Some b => unmarshal_agent b end)
  else (s, false).

(** The new state, and whether the call has no error. *)
Definition request_step (s : prepared) (r : request) : prepared * bool :=
  match r with
  | RSetenv name value => (Setenv name value s, true)
  | RRequestPty term height width => (request_pty_env term height width s, true)
  | RWindowChange height width sent =>
      (Prepared (pr_pty s) height width (pr_envs s) (pr_x11 s) (pr_agent s) (pr_stdin s) (pr_stdout s) (pr_stderr s) (pr_started s), sent)
  | RSendRequest name payload => SendRequest name payload s
  | RStdinPipe =>
      if pr_stdin s then (s, false)
      else (Prepared (pr_pty s) (pr_height s) (pr_width s) (pr_envs s) (pr_x11 s) (pr_agent s) true (pr_stdout s) (pr_stderr s) (pr_started s), true)
  | RStdoutPipe =>
      if pr_stdout s then (s, false)
      else (Prepared (pr_pty s) (pr_height s) (pr_width s) (pr_envs s) (pr_x11 s) (pr_agent s) (pr_stdin s) true (pr_stderr s) (pr_started s), true)
  | RStderrPipe opened =>
      if pr_stderr s || negb opened then (s, false)
      else (Prepared (pr_pty s) (pr_height s) (pr_width s) (pr_envs s) (pr_x11 s) (pr_agent s) (pr_stdin s) (pr_stdout s) true (pr_started s), true)
  end.

Definition request_run (rs : list request) (s : prepared) : prepared := foldl (fun s r => (request_step s r).1) s rs.

(** ** Starting *)

(** What a start sends beside the message of [Start]. *)
Record start_request := StartRequest { sq_Pty : bool; sq_Cols : Z; sq_Rows : Z; sq_Msg : startMessage }.

Definition x11_request_message (x : x11Request) : x11RequestMessage := X11Request (xr_AuthProtocol x) (xr_AuthCookie x) (xr_ScreenNumber x).

(** [startSession] adds the X11 and agent requests; [None] if already started. *)
Definition start_with (msg : prepared -> start_request) (s : prepared) : option start_request :=
  if pr_started s then None
  else let q := msg s in let m := sq_Msg q in
       Some (StartRequest (sq_Pty q) (sq_Cols q) (sq_Rows q)
               (StartMessage (st_Shell m) (st_Name m) (st_Args m) (st_Envs m) (x11_request_message <$> pr_x11 s) (pr_agent s) (st_Subs m))).

(** [range_envs]: the entries of a map, in the order in which they are encoded. *)
Context (range_envs : gmap bytes bytes -> list (bytes * bytes)).

Definition Shell (s : prepared) : option start_request :=
  start_with (fun s => StartRequest (pr_pty s) (pr_width s) (pr_height s)
                         (StartMessage true [] [] (range_envs (pr_envs s)) None false [])) s.

(** [split] is [shlex.Split]; [None] for its error or an empty command. *)
Definition Start (split : bytes -> option (list bytes)) (cmd : bytes) (s : prepared) : option start_request :=
  match split cmd with
  | None | Some [] => None
  | Some (name :: args) =>
      start_with (fun s => StartRequest (pr_pty s) 0 0 (StartMessage false name args (range_envs (pr_envs s)) None false [])) s
  end.

Definition RequestSubsystem (name : bytes) (s : prepared) : option start_request :=
  start_with (fun _ => StartRequest false 0 0 (StartMessage false [] [] [] None false name)) s.

(** ** Output *)

(** [Output] and [CombinedOutput] once the session has ended: what came in on the
    two streams, in the order of its arrival ([true]: the error output). *)
Definition stream_bytes (err : bool) (arrivals : list (bool * bytes)) : bytes :=
  concat ((filter (fun x : bool * bytes => x.1 = err) arrivals).*2).

Definition CombinedOutput (arrivals : list (bool * bytes)) : bytes := stream_bytes false arrivals ++ stream_bytes true arrivals.

(** ** From the client to the process *)

(** What a call sets a variable to, and the value that the calls have left. *)
Definition sets (n : bytes) (r : request) : option bytes :=
  match r with
  | RSetenv m v => if bool_decide (m = n) then Some v else None
  | RRequestPty term _ _ => if bool_decide (TERM = n) then Some term else None
  | _ => None
  end.

Definition last_set (n : bytes) (rs : list request) : option bytes := last (omap (sets n) rs).

(** The names that are set have no equals sign. *)
Definition plain_name (r : request) : Prop := match r with RSetenv m _ => EQ ∉ m | _ => True end.

Lemma request_envs s r :
  pr_envs (request_step s r).1 = match r with
                                 | RSetenv m v => <[m := v]> (pr_envs s)
                                 | RRequestPty term _ _ => <[TERM := term]> (pr_envs s)
                                 | _ => pr_envs s
                                 end.
Proof. destruct r; try done; cbn [request_step]; unfold SendRequest; by repeat case_match. Qed.

Lemma request_run_value n rs s :
  pr_envs (request_run rs s) !! n = match last_set n rs with Some v => Some v | None => pr_envs s !! n end.
Proof.
  induction rs as [|r rs IH] using rev_ind; [done|].
  unfold request_run, last_set in *. rewrite foldl_snoc, omap_app, last_app, request_envs.
  destruct r as [m v|term h w| | | | |]; cbn [omap list_omap sets]; try exact IH.
  - destruct (decide (m = n)) as [->|Hn].
    + rewrite (bool_decide_eq_true_2 (n = n)) by done. apply lookup_insert_eq.
    + rewrite (bool_decide_eq_false_2 (m = n)) by done. by rewrite lookup_insert_ne.
  - destruct (decide (TERM = n)) as [<-|Hn].
    + rewrite (bool_decide_eq_true_2 (TERM = TERM)) by done. apply lookup_insert_eq.
    + rewrite (bool_decide_eq_false_2 (TERM = n)) by done. rewrite lookup_insert_ne by done. exact IH.
Qed.

Lemma request_run_names rs s :
  Forall plain_name rs -> map_Forall (fun m _ => EQ ∉ m) (pr_envs s) -> map_Forall (fun m _ => EQ ∉ m) (pr_envs (request_run rs s)).
Proof.
  intros Hrs. revert s. induction Hrs as [|r rs Hr _ IH]; intros s Hs; [done|]. apply IH. rewrite request_envs.
  destruct r; try done; apply map_Forall_insert_2; try done. by apply (bool_decide_unpack _).
Qed.

Section ToProcess.
Context (Hrange : forall m, range_envs m ≡ₚ map_to_list m).

Lemma range_lookup m n : (list_to_map (range_envs m) : gmap bytes bytes) !! n = m !! n.
Proof.
  transitivity ((list_to_map (map_to_list m) : gmap bytes bytes) !! n); [|by rewrite list_to_map_to_list].
  f_equal. symmetry. apply list_to_map_proper; [apply NoDup_fst_map_to_list|by rewrite Hrange].
Qed.

Lemma range_NoDup m : NoDup (range_envs m).*1.
Proof. rewrite Hrange. apply NoDup_fst_map_to_list. Qed.

Lemma range_names m : map_Forall (fun k (_ : bytes) => EQ ∉ k) m -> Forall (fun nv => EQ ∉ nv.1) (range_envs m).
Proof. intros Hm. rewrite Hrange. apply map_Forall_to_list in Hm. eapply Forall_impl; [exact Hm|]. by intros [k v]. Qed.

(** The value that the environment of [getEnvironments] gives a name. *)
Definition requested_value (e : start_env) (n : bytes) (rs : list request) : option bytes :=
  match last_set n rs with
  | Some v => if bool_decide (n = TERM) || existsb (fun p => wildcardMatch p n) (accept_patterns e)
              then Some v else env_value n (se_Environ e)
  | None => env_value n (se_Environ e)
  end.

Lemma start_environment e m n rs :
  st_Envs m = range_envs (pr_envs (request_run rs new_prepared)) -> Forall plain_name rs ->
  n <> [] -> TrimSpace n = n -> n <> kEnvTsshdBackground ->
  env_value n (getEnvironments e m) = requested_value e n rs.
Proof.
  intros Henvs Hrs Hn Ht Hb. rewrite session_environment; rewrite ?Henvs; try done.
  - rewrite range_lookup, request_run_value. unfold requested_value. by destruct (last_set n rs).
  - apply range_NoDup.
  - apply range_names, request_run_names; [done|]. apply map_Forall_empty.
Qed.

Lemma env_value_app n l1 l2 :
  env_value n (l1 ++ l2) = match env_value n l2 with Some v => Some v | None => env_value n l1 end.
Proof. unfold env_value. by rewrite omap_app, last_app. Qed.

(** The variables of granted X11 and agent forwarding. *)
Definition forwarding_env (e : start_env) (fw : bool) (listen : tcp_listen) (hostname agentPath : option bytes)
    (m : startMessage) : list bytes :=
  match handleX11Request (se_config e) fw listen hostname m with Some g => [xg_env g] | None => [] end ++
  match handleAgentRequest (se_config e) fw agentPath m with Some env => [env] | None => [] end.

Lemma session_cmd_env e fw listen hostname agentPath m :
  st_Subs m = [] ->
  exists c, session_cmd e fw listen hostname agentPath m = inr c /\
    process_env e c = getEnvironments e m ++ forwarding_env e fw listen hostname agentPath m.
Proof.
  intros Hsubs.
  assert (Hc : exists c0, getSessionStartCmd e m = inr c0 /\ cmd_Env c0 = Some (getEnvironments e m)).
  { unfold getSessionStartCmd. rewrite Hsubs. cbv zeta. repeat case_match; by eexists. }
  destruct Hc as (c0 & E & Henv). unfold session_cmd, forwarding_env. rewrite E. eexists. split; [done|].
  unfold process_env. destruct (handleX11Request _ _ _ _ _), (handleAgentRequest _ _ _ _); simpl; rewrite Henv; simpl;
    by rewrite ?app_nil_r, <- ?app_assoc.
Qed.

Lemma value_of_other n m v : EQ ∉ m -> n <> m -> value_of n (env_entry m v) = None.
Proof. intros Hm Hne. unfold value_of. rewrite Cut_entry by done. by rewrite bool_decide_eq_false_2. Qed.

Lemma forwarding_names e fw listen hostname agentPath m n :
  n <> bs "DISPLAY" -> n <> bs "SSH_AUTH_SOCK" -> env_value n (forwarding_env e fw listen hostname agentPath m) = None.
Proof.
  intros H1 H2. unfold forwarding_env. rewrite env_value_app.
  assert (Ha : env_value n (match handleAgentRequest (se_config e) fw agentPath m with Some env => [env] | None => [] end) = None).
  { unfold handleAgentRequest. repeat case_match; try done. destruct agentPath; simplify_eq/=. unfold env_value. simpl.
    rewrite value_of_other; [done|by apply (bool_decide_unpack _)|done]. }
  rewrite Ha. destruct (handleX11Request _ _ _ _ _) as [g|] eqn:E; [|done].
  assert (exists d, xg_env g = env_entry (bs "DISPLAY") d) as [d Hd]
    by (unfold handleX11Request in E; repeat case_match; simplify_eq/=; eauto).
  unfold env_value. simpl. rewrite Hd, value_of_other; [done|by apply (bool_decide_unpack _)|done].
Qed.

(** C21: a variable that the client has set for its session, with [Setenv] or as
    the terminal of [RequestPty], has the value set last in the environment of the
    shell or the command that the server starts, if it is [TERM] or matches a
    pattern of [AcceptEnv]; every other name has its value in the server's own
    environment; but for the variables of X11 and agent forwarding that the
    server grants, which are [DISPLAY] and [SSH_AUTH_SOCK] and come last.  It
    holds of the names that are not empty, have no space around them and are not
    the mark of the background process, when no name that is set has an equals
    sign. *)
Theorem client_env_reaches_command e split cmd rs q n fw listen hostname agentPath :
  Shell (request_run rs new_prepared) = Some q \/ Start split cmd (request_run rs new_prepared) = Some q ->
  Forall plain_name rs -> n <> [] -> TrimSpace n = n -> n <> kEnvTsshdBackground ->
  let forwarding := forwarding_env e fw listen hostname agentPath (sq_Msg q) in
  (exists c, session_cmd e fw listen hostname agentPath (sq_Msg q) = inr c /\
     env_value n (process_env e c) =
       match env_value n forwarding with
       | Some v => Some v
       | None =>
           match last_set n rs with
           | Some v => if bool_decide (n = TERM) || existsb (fun p => wildcardMatch p n) (accept_patterns e)
                       then Some v else env_value n (se_Environ e)
           | None => env_value n (se_Environ e)
           end
       end) /\
  (n <> bs "DISPLAY" -> n <> bs "SSH_AUTH_SOCK" -> env_value n forwarding = None).
Proof.
  intros Hq Hrs Hn Ht Hb forwarding. split; [|apply forwarding_names].
  assert (Hm : st_Subs (sq_Msg q) = [] /\ st_Envs (sq_Msg q) = range_envs (pr_envs (request_run rs new_prepared)))
    by (destruct Hq as [Hq|Hq]; unfold Shell, Start, start_with in Hq; repeat case_match; simplify_eq; done).
  destruct Hm as [Hsubs Henvs]. destruct (session_cmd_env e fw listen hostname agentPath (sq_Msg q) Hsubs) as (c & E & Hp).
  exists c. split; [done|]. by rewrite Hp, env_value_app, (start_environment e _ n rs).
Qed.

End ToProcess.
End Calls.

(** ** Example *)

Definition example_requests : list request :=
  [RSetenv (bs "LANG") (bs "C"); RRequestPty (bs "vt100") 24 80; RSetenv (bs "LANG") (bs "fr_FR"); RStdoutPipe;
   RSendRequest "auth-agent-req@openssh.com" None].

Lemma client_env_reaches_command_witness :
  exists q c, Shell (fun m => map_to_list m) (request_run (fun _ => None) (fun _ => true) example_requests new_prepared) = Some q /\
    sq_Cols q = 80 /\
    session_cmd (example_start "LA*") true (fun _ _ _ => false) None (Some (bs "/run/agent-1-2")) (sq_Msg q) = inr c /\
    forwarding_env (example_start "LA*") true (fun _ _ _ => false) None (Some (bs "/run/agent-1-2")) (sq_Msg q)
      = [bs "SSH_AUTH_SOCK=/run/agent-1-2"] /\
    env_value (bs "LANG") (process_env (example_start "LA*") c) = Some (bs "fr_FR").
Proof.
  eexists.
  destruct (client_env_reaches_command (fun _ => None) (fun _ => true) (fun m => map_to_list m) (fun m => Permutation_refl _)
              (example_start "LA*") (fun _ => None) [] example_requests _ (bs "LANG") true (fun _ _ _ => false) None
              (Some (bs "/run/agent-1-2")) (or_introl eq_refl)) as [(c & Hc & Hv) _].
  - repeat constructor; apply (bool_decide_unpack _); vm_compute; exact I.
  - discriminate.
  - vm_compute. reflexivity.
  - discriminate.
  - exists c. split; [reflexivity|]. split; [reflexivity|]. split; [exact Hc|]. split; [vm_compute; reflexivity|].
    rewrite Hv. vm_compute. reflexivity.
Defined.
