(* ===== verification/Xauth.v ===== *)
(** * Xauth: what the server tells [xauth] for a client ([session.go])

    The program for the X11 authority ([getXauthPath]), what it is sent for a
    granted request of [Start], and how long the server waits for it
    ([writeXauthData]). *)

From Stdlib Require Import ZArith Lia Ascii String.
From stdpp Require Import base list strings gmap.
From S2P Require Import Prelude GoStrings Decimal Config Forward Start.
Open Scope Z_scope.

(** ** The program *)

(** [exists_at] is [os.Stat]. *)
Definition getXauthPath (c : sshd_config) (exists_at : bytes -> bool) : bytes :=
  match getSshdConfig c (bs "XAuthLocation") with
  | [] => bs "xauth"
  | path => if exists_at path then path else bs "xauth"
  end.

(** ** Running it *)

(** The steps of [writeXauthData]; [xe_exit]: after how many milliseconds the
    program ends, and with an error or not. *)
Record xauth_env := XauthEnv { xe_pipe : bool; xe_start : bool; xe_write : bool; xe_exit : option (Z * bool) }.

Inductive xauth_result := XauthOk | XauthError.

Definition kXauthTimeout : Z := 1000.

(** The result, how long it took to get it, and whether a started program is never
    waited for. *)
Definition writeXauthData (e : xauth_env) : xauth_result * Z * bool :=
  if negb (xe_pipe e) then (XauthError, 0, false)
  else if negb (xe_start e) then (XauthError, 0, false)
  else if negb (xe_write e) then (XauthError, 0, true)
  else match xe_exit e with
       | Some (t, ok) => if t <? kXauthTimeout then (if ok then XauthOk else XauthError, t, false) else (XauthError, kXauthTimeout, false)
       | None => (XauthError, kXauthTimeout, false)
       end.

Lemma writeXauthData_bounded e : (forall t ok, xe_exit e = Some (t, ok) -> 0 <= t) -> 0 <= (writeXauthData e).1.2 <= kXauthTimeout.
Proof.
  intros Ht. unfold writeXauthData, kXauthTimeout. destruct (xe_pipe e), (xe_start e), (xe_write e); simpl; try lia.
  destruct (xe_exit e) as [[t ok]|]; [|simpl; lia]. specialize (Ht t ok eq_refl). destruct (Z.ltb_spec t 1000); simpl; lia.
Qed.

(** ** What it reads *)

(** [xauth] takes one command from each line. *)
Definition lines_of (s : bytes) : nat := length (filter (fun b => b = LF) s).

Lemma lines_of_app a b : lines_of (a ++ b) = (lines_of a + lines_of b)%nat.
Proof. unfold lines_of. by rewrite filter_app, length_app. Qed.

Lemma lines_of_none s : (LF ∉ s) <-> (lines_of s = 0%nat).
Proof.
  unfold lines_of. induction s as [|b s IH]; [split; [done|set_solver]|]. rewrite filter_cons, not_elem_of_cons, IH.
  destruct (decide (b = LF)) as [->|Hne]; [split; [by intros [? _]|done]|]. split; [by intros [_ ?]|]. intros ?. by split; [congruence|].
Qed.

Lemma display_lines host number screen :
  0 <= number -> 0 <= screen -> lines_of (display_name host number screen) = lines_of host.
Proof.
  intros Hn Hs. unfold display_name. rewrite !lines_of_app.
  rewrite (proj1 (lines_of_none (decimal number))) by (by apply decimal_not_in).
  rewrite (proj1 (lines_of_none (decimal screen))) by (by apply decimal_not_in). simpl. lia.
Qed.

(** C38: the server tells [xauth] exactly the two commands it means to, to remove
    the old entry of the display and to add the new one, if and only if the
    client's protocol name and cookie contain no line feed; nothing checks that
    they do not. *)
Theorem xauth_two_commands_iff c fw listen hostname msg x g :
  st_X11 msg = Some x -> handleX11Request c fw listen hostname msg = Some g ->
  0 <= x_ScreenNumber x -> LF ∉ default [] hostname ->
  (lines_of (xg_xauth g) = 2%nat) <-> (LF ∉ x_AuthProtocol x) /\ (LF ∉ x_AuthCookie x).
Proof.
  intros Hx Hg Hs Hh. pose proof (x11_granted _ _ _ _ _ _ Hg) as (_ & _ & _ & Hport & _). cbv zeta in Hport.
  pose proof (displayOffset_range c) as Ho. unfold handleX11Request in Hg. rewrite Hx in Hg. cbv zeta in Hg.
  destruct fw; [|done]. cbn [negb] in Hg. do 2 (case_match; [done|]).
  destruct (listenTcpOnFreePort _ _ _ _) as [[hosts port]|]; [|done]. apply (inj Some) in Hg. subst g. cbn [xg_port xg_xauth] in *.
  set (local := negb (EqualFold (getSshdConfig c (bs "X11UseLocalhost")) "no")).
  assert (Hd : lines_of (if local then display_name (bs "unix") (port - 6000) (x_ScreenNumber x)
                         else display_name (getHostnameForX11 local hostname) (port - 6000) (x_ScreenNumber x)) = 0%nat).
  { destruct local; rewrite display_lines by lia; [done|]. unfold getHostnameForX11. destruct hostname as [h|]; [|done]. by apply lines_of_none. }
  rewrite !lines_of_app, Hd. rewrite !lines_of_none. change (lines_of (bs "remove ")) with 0%nat. change (lines_of (bs "add ")) with 0%nat.
  change (lines_of (bs " ")) with 0%nat. change (lines_of [LF]) with 1%nat. lia.
Qed.

(** ** Example: a cookie with a command of its own *)

Definition sly_message : startMessage := StartMessage true [] [] [] (Some (X11Request (bs "MIT") (bs "c0" ++ LF :: bs "source /etc/passwd") 0)) false [].

Lemma xauth_two_commands_iff_witness :
  exists g, handleX11Request x11_config true (fun _ _ _ => true) None sly_message = Some g /\ lines_of (xg_xauth g) = 3%nat /\
    lines_of (xg_xauth g) <> 2%nat.
Proof.
  eexists. split; [reflexivity|]. split; [reflexivity|]. intros H.
  eapply (xauth_two_commands_iff x11_config true (fun _ _ _ => true) None sly_message _ _ eq_refl eq_refl) in H as [_ Hc].
  - apply Hc. apply (bool_decide_unpack _). vm_compute. exact I.
  - vm_compute. discriminate.
  - apply not_elem_of_nil.
Defined.
