(* ===== verification/Socket.v ===== *)
(** * Socket: the local socket and the files behind it

    The private directory of the sockets ([getSocketDir], [listenOnSocket],
    [getSocketPath], [listSocketPaths] of [utils_unix.go]), the removal of
    socket files ([newFileUnlinker] of [comm.go]), and the requests over the
    socket ([socket.go]).

    The file system is a map from paths to entries; two spellings of a path are
    two paths, and only the last component of a path may be a symbolic link.
    Nothing else changes the file system during one of these calls. *)

From Stdlib Require Import ZArith Lia Ascii String.
From stdpp Require Import base list strings gmap.
From S2P Require Import Prelude GoStrings Decimal Config.
Open Scope Z_scope.

(** ** Files *)

Inductive fkind := Dir | SockFile | Regular | Symlink (target : string).

Record finfo := File { f_kind : fkind; f_uid : Z; f_perm : Z; f_ino : Z }.

#[export] Instance fkind_eq_dec : EqDecision fkind.
Proof. solve_decision. Defined.

#[export] Instance finfo_eq_dec : EqDecision finfo.
Proof. solve_decision. Defined.

Abbreviation fs := (gmap string finfo).

(** [os.Stat] follows links, [os.Lstat] does not. *)
Fixpoint Stat_fuel (fuel : nat) (f : fs) (path : string) : option finfo :=
  match f !! path with
  | Some i => match f_kind i with
              | Symlink t => match fuel with O => None | S fuel' => Stat_fuel fuel' f t end
              | _ => Some i
              end
  | None => None
  end.

(** The kernel gives up after forty links. *)
Definition Stat (f : fs) (path : string) : option finfo := Stat_fuel 40 f path.

Definition isDirExist (f : fs) (path : string) : bool :=
  match Stat f path with Some i => bool_decide (f_kind i = Dir) | None => false end.

(** The rest of the world: the environment variables, the user and umask, the
    number of the next file, and which system calls succeed. *)
Record env := Env {
  XDG_RUNTIME_DIR : string;
  HOME : string;
  TempDir : string;
  uid : Z;
  umask : Z;
  next_ino : Z;
  mkdir_ok : string -> bool;
  chmod_ok : string -> bool;
  listen_ok : string -> bool;
  remove_ok : string -> bool;
  alive : Z -> bool
}.

Definition Join (a b : string) : string := (a ++ "/" ++ b)%string.

(** [0700], [0077] and [0600]. *)
Definition m0700 : Z := 448.
Definition m0077 : Z := 63.
Definition m0600 : Z := 384.

(** [mkdir_ok] is for the directory and the parents it lacks.  The parents that are
    created, [~/.local] or those of a missing home, are not recorded: nothing below
    looks at them. *)
Definition MkdirAll (e : env) (f : fs) (path : string) (perm : Z) : bool * fs :=
  match Stat f path with
  | Some i => (bool_decide (f_kind i = Dir), f)
  | None =>
      if bool_decide (f !! path = None) && mkdir_ok e path
      then (true, <[path := File Dir (uid e) (Z.ldiff perm (umask e)) (next_ino e)]> f)
      else (false, f)
  end.

(** On a file that is not a link. *)
Definition Chmod (e : env) (f : fs) (path : string) (perm : Z) : bool * fs :=
  match f !! path with
  | Some i => if chmod_ok e path then (true, <[path := File (f_kind i) (f_uid i) perm (f_ino i)]> f) else (false, f)
  | None => (false, f)
  end.

(** ** The directory *)

(** The function literal at the start of [getSocketDir]. *)
Definition choose_dir (e : env) (f : fs) : string * fs :=
  let tmp := Join (TempDir e) ("tsshd-" ++ str (decimal (uid e))) in
  let home f :=
    if String.eqb (HOME e) EmptyString then (tmp, f)
    else
      let dir := Join (Join (HOME e) ".local") "run" in
      if isDirExist f dir then (Join dir "tsshd", f)
      else match MkdirAll e f dir m0700 with
           | (true, f') => (Join dir "tsshd", f')
           | (false, f') => (tmp, f')
           end in
  if String.eqb (XDG_RUNTIME_DIR e) EmptyString then home f
  else if isDirExist f (XDG_RUNTIME_DIR e) then (Join (XDG_RUNTIME_DIR e) "tsshd", f)
  else home f.

Inductive dir_error := CreateFailed | StatFailed | IsSymlink | NotDirectory | OwnerMismatch | ChmodFailed.

(** The checks after the last [Lstat]. *)
Definition check_dir (e : env) (sockDir : string) (f : fs) : (dir_error + string) * fs :=
  match f !! sockDir with
  | None => (inl StatFailed, f)
  | Some info =>
      match f_kind info with
      | Symlink _ => (inl IsSymlink, f)
      | Dir =>
          if negb (f_uid info =? uid e) then (inl OwnerMismatch, f)
          else if negb (Z.land (f_perm info) m0077 =? 0) then
            match Chmod e f sockDir m0700 with
            | (true, f') => (inr sockDir, f')
            | (false, f') => (inl ChmodFailed, f')
            end
          else (inr sockDir, f)
      | _ => (inl NotDirectory, f)
      end
  end.

Definition getSocketDir (e : env) (f : fs) : (dir_error + string) * fs :=
  let '(sockDir, f1) := choose_dir e f in
  match f1 !! sockDir with
  | None => match MkdirAll e f1 sockDir m0700 with
            | (true, f2) => check_dir e sockDir f2
            | (false, f2) => (inl CreateFailed, f2)
            end
  | Some _ => check_dir e sockDir f1
  end.

(** ** Listening *)

(** [net.Listen "unix"]: fails if the path exists. *)
Definition Listen (e : env) (f : fs) (path : string) : bool * fs :=
  match f !! path with
  | Some _ => (false, f)
  | None => if listen_ok e path
            then (true, <[path := File SockFile (uid e) (Z.ldiff 511 (umask e)) (next_ino e)]> f)
            else (false, f)
  end.

Definition Remove (e : env) (f : fs) (path : string) : bool * fs :=
  match f !! path with
  | Some _ => if remove_ok e path then (true, delete path f) else (false, f)
  | None => (false, f)
  end.

(** Closing a listener that [net.Listen] created removes the file of its name,
    whatever it is now; closing a datagram socket does not. *)
Inductive closer := NoCloser | UnixListener (path : string) | UnixConn.

Definition close_resource (e : env) (f : fs) (c : closer) : fs :=
  match c with UnixListener path => (Remove e f path).2 | _ => f end.

Inductive listen_error := NotASocket | RemoveFailed | ListenError | ChmodError.

(** From [net.Listen] on. *)
Definition listen_at (e : env) (f : fs) (sockPath : string) : (listen_error + closer) * fs :=
  match Listen e f sockPath with
  | (false, f') => (inl ListenError, f')
  | (true, f') =>
      match Chmod e f' sockPath m0600 with
      | (false, f'') => (inl ChmodError, (Remove e (close_resource e f'' (UnixListener sockPath)) sockPath).2)
      | (true, f'') => (inr (UnixListener sockPath), f'')
      end
  end.

Definition listenOnSocket (e : env) (f : fs) (sockPath : string) : (listen_error + closer) * fs :=
  match f !! sockPath with
  | Some info =>
      if bool_decide (f_kind info = SockFile) then
        match Remove e f sockPath with
        | (true, f1) => listen_at e f1 sockPath
        | (false, f1) => (inl RemoveFailed, f1)
        end
      else (inl NotASocket, f)
  | None => listen_at e f sockPath
  end.

(** [os.MkdirTemp]: [temp] is the name it finds, which does not exist. *)
Definition MkdirTemp (e : env) (f : fs) (temp : option string) : option string * fs :=
  match temp with
  | Some d => match f !! d with
              | None => (Some d, <[d := File Dir (uid e) (Z.ldiff m0700 (umask e)) (next_ino e)]> f)
              | Some _ => (None, f)
              end
  | None => (None, f)
  end.

(** The directory for the agents' sockets: one of its own when there is no
    directory for sockets. *)
Definition agent_dir (e : env) (f : fs) (temp : option string) : option string * fs :=
  match getSocketDir e f with
  | (inr d, f1) => (Some d, f1)
  | (inl _, f1) => MkdirTemp e f1 temp
  end.

(** The socket for the agent of session [id]. *)
Definition listenForAgent (e : env) (f : fs) (temp : option string) (pid id : Z) : option (closer * string) * fs :=
  let '(dir, f1) := agent_dir e f temp in
  match dir with
  | None => (None, f1)
  | Some d =>
      let path := Join d ("agent-" ++ str (decimal pid) ++ "-" ++ str (decimal id)) in
      match listenOnSocket e f1 path with
      | (inr c, f2) => (Some (c, path), f2)
      | (inl _, f2) => (None, f2)
      end
  end.

Definition listenForSocketServer (e : env) (f : fs) (pid : Z) : option (closer * string) * fs :=
  match getSocketDir e f with
  | (inl _, f1) => (None, f1)
  | (inr d, f1) =>
      let path := Join d ("socket-" ++ str (decimal pid)) in
      match listenOnSocket e f1 path with
      | (inr c, f2) => (Some (c, path), f2)
      | (inl _, f2) => (None, f2)
      end
  end.

(** ** Unlinking *)

Record unlinker := Unlinker {
  ul_path : string;
  ul_closer : closer;
  ul_createdInfo : option finfo;
  ul_once : bool
}.

Definition newFileUnlinker (f : fs) (path : string) (c : closer) : unlinker := Unlinker path c (Stat f path) false.

(** [os.SameFile]: the same inode. *)
Definition SameFile (a b : finfo) : bool := f_ino a =? f_ino b.

Definition cleanup (e : env) (f : fs) (u : unlinker) : fs * unlinker :=
  if ul_once u then (f, u)
  else
    let f1 := close_resource e f (ul_closer u) in
    let f2 := match ul_createdInfo u, Stat f1 (ul_path u) with
              | Some created, Some current => if SameFile created current then (Remove e f1 (ul_path u)).2 else f1
              | _, _ => f1
              end in
    (f2, Unlinker (ul_path u) (ul_closer u) (ul_createdInfo u) true).

(** ** Finding the sockets of other servers *)

(** [getSocketPath] in the directory that [getSocketDir] has found. *)
Definition getSocketPath (e : env) (f : fs) (sockDir : string) (pid : Z) : option string :=
  if alive e pid then
    let path := Join sockDir ("socket-" ++ str (decimal pid)) in
    match f !! path with
    | Some info => if bool_decide (f_kind info = SockFile) then Some path else None
    | None => None
    end
  else None.

(** [entries] is the result of [os.ReadDir]. *)
Definition listSocketPaths (e : env) (f : fs) (sockDir : string) (entries : list string) : list (Z * string) :=
  omap (fun name =>
    if has_prefix (bs name) (bs "socket-") then
      match Atoi (drop 7 (bs name)) with
      | Some pid =>
          if alive e pid then
            let path := Join sockDir name in
            match f !! path with
            | Some info => if bool_decide (f_kind info = SockFile) then Some (pid, path) else None
            | None => None
            end
          else None
      | None => None
      end
    else None) entries.

(** ** Requests *)

(** [handleAttachRequest]: the id the next client gets. *)
Definition nextClientID (id : Z) : Z :=
  let id' := u64 (id + 1) in if id' =? 0 then u64 (id' + 1) else id'.

(** The target of [--view]: a process and a session. *)
Definition view_target (s : bytes) : option (Z * Z) :=
  match Split "."%char s with
  | [a; b] => match Atoi a, ParseUint 64 b with Some p, Some i => Some (p, i) | _, _ => None end
  | _ => None
  end.

(** ** Private sockets *)

Definition private_dir (e : env) (f : fs) (path : string) : Prop :=
  exists i, f !! path = Some i /\ f_kind i = Dir /\ f_uid i = uid e /\ Z.land (f_perm i) m0077 = 0.

Lemma check_dir_private e dir f d f' : check_dir e dir f = (inr d, f') -> private_dir e f' d.
Proof.
  unfold check_dir. destruct (f !! dir) as [i|] eqn:Hi; [|done]. destruct (f_kind i) eqn:Hk; try done.
  destruct (Z.eqb_spec (f_uid i) (uid e)) as [Hu|]; [|done].
  destruct (Z.eqb_spec (Z.land (f_perm i) m0077) 0) as [Hp|]; cbn [negb].
  - intros [= <- <-]. by exists i.
  - unfold Chmod. rewrite Hi. destruct (chmod_ok e dir); [|done]. intros [= <- <-].
    exists (File (f_kind i) (f_uid i) m0700 (f_ino i)). rewrite lookup_insert_eq. by split_and!.
Qed.

Lemma getSocketDir_private e f d f' : getSocketDir e f = (inr d, f') -> private_dir e f' d.
Proof.
  unfold getSocketDir. destruct (choose_dir e f) as [dir f1]. destruct (f1 !! dir); [apply check_dir_private|].
  destruct (MkdirAll e f1 dir m0700) as [[] f2]; [apply check_dir_private|done].
Qed.

Lemma listen_at_socket e f path c f' :
  listen_at e f path = (inr c, f') ->
  exists i, f' !! path = Some i /\ f_kind i = SockFile /\ f_uid i = uid e /\ f_perm i = m0600.
Proof.
  unfold listen_at, Listen. destruct (f !! path); [done|]. destruct (listen_ok e path); [|done].
  unfold Chmod. rewrite lookup_insert_eq. destruct (chmod_ok e path); [|done]. intros [= <- <-].
  rewrite lookup_insert_eq. eexists. by split_and!.
Qed.

Lemma listenOnSocket_socket e f path c f' :
  listenOnSocket e f path = (inr c, f') ->
  (exists i, f' !! path = Some i /\ f_kind i = SockFile /\ f_uid i = uid e /\ f_perm i = m0600) /\
  (forall i, f !! path = Some i -> f_kind i = SockFile).
Proof.
  unfold listenOnSocket. intros H. destruct (f !! path) as [info|].
  - case_bool_decide; [|done]. split; [|by intros i [= <-]].
    destruct (Remove e f path) as [[] f1]; [|done]. by eapply listen_at_socket.
  - split; [by eapply listen_at_socket|done].
Qed.

(** The operations change the path they are given only. *)
Lemma Remove_frame e f path q : q <> path -> (Remove e f path).2 !! q = f !! q.
Proof.
  intros Hq. unfold Remove. destruct (f !! path); [|done]. destruct (remove_ok e path); [|done].
  by apply lookup_delete_ne.
Qed.

Lemma Listen_frame e f path q : q <> path -> (Listen e f path).2 !! q = f !! q.
Proof.
  intros Hq. unfold Listen. destruct (f !! path); [done|]. destruct (listen_ok e path); [|done].
  by apply lookup_insert_ne.
Qed.

Lemma Chmod_frame e f path perm q : q <> path -> (Chmod e f path perm).2 !! q = f !! q.
Proof.
  intros Hq. unfold Chmod. destruct (f !! path); [|done]. destruct (chmod_ok e path); [|done].
  by apply lookup_insert_ne.
Qed.

Lemma listen_at_frame e f path q : q <> path -> (listen_at e f path).2 !! q = f !! q.
Proof.
  intros Hq. unfold listen_at. pose proof (Listen_frame e f path q Hq) as H1.
  destruct (Listen e f path) as [[] f1]; [|done]. pose proof (Chmod_frame e f1 path m0600 q Hq) as H2.
  destruct (Chmod e f1 path m0600) as [[] f2]; simpl in *; [congruence|].
  rewrite !Remove_frame by done. congruence.
Qed.

Lemma listenOnSocket_frame e f path q : q <> path -> (listenOnSocket e f path).2 !! q = f !! q.
Proof.
  intros Hq. unfold listenOnSocket. destruct (f !! path); [|by apply listen_at_frame].
  case_bool_decide; [|done]. pose proof (Remove_frame e f path q Hq) as H1.
  destruct (Remove e f path) as [[] f1]; [|done]. by rewrite listen_at_frame.
Qed.

(** A socket made in a private directory: it is the user's, with mode 0600, the
    directory stays private; what was at the path before was a socket or nothing,
    and no other file has changed. *)
Lemma private_socket e f1 d name c f2 :
  private_dir e f1 d -> listenOnSocket e f1 (Join d name) = (inr c, f2) ->
  private_dir e f2 d /\
  (exists i, f2 !! Join d name = Some i /\ f_kind i = SockFile /\ f_uid i = uid e /\ f_perm i = m0600) /\
  (forall i, f1 !! Join d name = Some i -> f_kind i = SockFile) /\
  (forall q, q <> Join d name -> f2 !! q = f1 !! q).
Proof.
  intros (i & Hi & Hdir) Hl.
  assert (Hne : d <> Join d name).
  { clear. unfold Join. induction d as [|a d IH]; [done|]. intros [= E]. done. }
  assert (Hframe : forall q, q <> Join d name -> f2 !! q = f1 !! q).
  { intros q Hq. pose proof (listenOnSocket_frame e f1 _ q Hq) as Hf. by rewrite Hl in Hf. }
  apply listenOnSocket_socket in Hl as [Hsock Hbefore].
  split_and!; [|done..]. exists i. by rewrite Hframe.
Qed.

Lemma MkdirTemp_private e f temp d f1 : MkdirTemp e f temp = (Some d, f1) -> private_dir e f1 d.
Proof.
  unfold MkdirTemp. destruct temp as [t|]; [|done]. destruct (f !! t); [done|]. intros [= <- <-].
  exists (File Dir (uid e) (Z.ldiff m0700 (umask e)) (next_ino e)). rewrite lookup_insert_eq. split_and!; [done..|]. cbn [f_perm].
  apply Z.bits_inj'. intros k Hk. rewrite Z.land_spec, Z.ldiff_spec, Z.bits_0.
  assert (Hd : Z.testbit m0700 k && Z.testbit m0077 k = false).
  { rewrite <- Z.land_spec. change (Z.land m0700 m0077) with 0. apply Z.bits_0. }
  destruct (Z.testbit m0700 k), (Z.testbit m0077 k), (Z.testbit (umask e) k); done.
Qed.

Lemma agent_dir_private e f temp d f1 : agent_dir e f temp = (Some d, f1) -> private_dir e f1 d.
Proof.
  unfold agent_dir. destruct (getSocketDir e f) as [[err|d'] f'] eqn:E; [apply MkdirTemp_private|].
  intros [= -> ->]. by apply getSocketDir_private in E.
Qed.

(** C33: when the server listens for local clients or for a session's agent, also
    when there is no directory for sockets and it makes one, its socket is in a
    directory that is a real directory of the user, closed to everybody else,
    and belongs to the user with mode 0600; what was at the path once the
    directory was there was a socket or nothing, and no other file has changed
    since. *)
Theorem socket_is_private e f temp pid id c path f2 :
  listenForAgent e f temp pid id = (Some (c, path), f2) \/ listenForSocketServer e f pid = (Some (c, path), f2) ->
  exists d name f1, path = Join d name /\ (f1 = (agent_dir e f temp).2 \/ f1 = (getSocketDir e f).2) /\ private_dir e f2 d /\
    (exists i, f2 !! path = Some i /\ f_kind i = SockFile /\ f_uid i = uid e /\ f_perm i = m0600) /\
    (forall i, f1 !! path = Some i -> f_kind i = SockFile) /\ (forall q, q <> path -> f2 !! q = f1 !! q).
Proof.
  unfold listenForAgent, listenForSocketServer. intros [H|H].
  - destruct (agent_dir e f temp) as [[d|] f1] eqn:Ed; [|done]. apply agent_dir_private in Ed.
    destruct (listenOnSocket _ _ _) as [[?|c'] f3] eqn:El; [done|]. injection H as <- <- <-.
    destruct (private_socket _ _ _ _ _ _ Ed El) as (? & ? & ? & ?). eexists d, _, f1. split_and!; eauto.
  - destruct (getSocketDir e f) as [[err|d] f1] eqn:Ed; [done|]. apply getSocketDir_private in Ed.
    destruct (listenOnSocket _ _ _) as [[?|c'] f3] eqn:El; [done|]. injection H as <- <- <-.
    destruct (private_socket _ _ _ _ _ _ Ed El) as (? & ? & ? & ?). eexists d, _, f1. split_and!; eauto.
Qed.

(** ** Unlinking what was created *)

(** Without a listener to close, cleaning up removes the path if it still
    names the file it named at the beginning and does nothing otherwise, and
    only once. *)
Theorem unlinker_spares_replacement e f0 path c f :
  (forall p, c <> UnixListener p) ->
  let '(f1, u1) := cleanup e f (newFileUnlinker f0 path c) in
  (f1 = f \/ exists i0 i, Stat f0 path = Some i0 /\ Stat f path = Some i /\ f_ino i = f_ino i0 /\ f1 = delete path f) /\
  forall f', cleanup e f' u1 = (f', u1).
Proof.
  intros Hc. unfold cleanup, newFileUnlinker. simpl. split; [|done].
  assert (Hcl : close_resource e f c = f) by (destruct c; simpl; [done|by destruct (Hc path0)|done]). rewrite Hcl.
  destruct (Stat f0 path) as [i0|]; [|by left]. destruct (Stat f path) as [i|]; [|by left].
  unfold SameFile. destruct (Z.eqb_spec (f_ino i0) (f_ino i)) as [Hino|]; [|by left].
  unfold Remove. destruct (f !! path); [|by left]. destruct (remove_ok e path); [|by left].
  right. by exists i0, i.
Qed.

(** With the listener of the socket to close, a socket that another process
    has put in its place is removed as well: closing the listener removes the
    path before its identity is checked. *)
Theorem replaced_socket_unlinked e f0 path f other :
  f !! path = Some other -> remove_ok e path = true ->
  (cleanup e f (newFileUnlinker f0 path (UnixListener path))).1 !! path = None.
Proof.
  intros Hf Hr. unfold cleanup, newFileUnlinker. simpl. unfold Remove. rewrite Hf, Hr. simpl.
  assert (Hd : delete path f !! path = None) by apply lookup_delete_eq.
  destruct (Stat f0 path); [|done]. destruct (Stat (delete path f) path); [|done].
  destruct (SameFile _ _); [|done]. by rewrite Hd.
Qed.

(** ** Client ids *)

(** The ids handed out for attaching are 1, 2, 3, and so on; after the
    largest 64-bit number comes 1 again, never the reserved 0. *)
Theorem client_ids_fresh (n : nat) :
  Nat.iter (S n) nextClientID 0 = Z.of_nat n mod (2 ^ 64 - 1) + 1.
Proof.
  induction n as [|n IH]; [done|]. change (Nat.iter (S (S n)) nextClientID 0) with (nextClientID (Nat.iter (S n) nextClientID 0)).
  rewrite IH, Nat2Z.inj_succ. set (q := Z.of_nat n). assert (Hq : 0 <= q) by lia. clearbody q. clear.
  assert (Hr : 0 <= q mod (2 ^ 64 - 1) < 2 ^ 64 - 1) by (apply Z.mod_pos_bound; lia).
  unfold Z.succ, nextClientID. rewrite (Z.add_mod q 1) by lia. rewrite (Z.mod_small 1) by lia.
  set (r := q mod (2 ^ 64 - 1)) in *. clearbody r. clear q.
  destruct (Z.eq_dec r (2 ^ 64 - 2)) as [->|Hne]; [done|].
  rewrite (uwrap_small 64), Z.mod_small by lia. destruct (Z.eqb_spec (r + 1 + 1) 0); lia.
Qed.

(** ** Examples *)

Definition example_env : env :=
  Env "/run/user/1000" "/home/u" "/tmp" 1000 18 7 (fun _ => true) (fun _ => true) (fun _ => true) (fun _ => true) (fun _ => true).

(** The directory exists with mode 0755, and a stale socket is in it. *)
Definition example_fs : fs :=
  {[ "/run/user/1000"%string := File Dir 1000 448 1;
     "/run/user/1000/tsshd"%string := File Dir 1000 493 2;
     "/run/user/1000/tsshd/socket-5"%string := File SockFile 1000 384 3 ]}.

Definition blocked_fs : fs := {["/run/user/1000/tsshd"%string := File SockFile 0 0 1; "/run/user/1000"%string := File Dir 0 448 2]}.

(** Of a server that finds a stale socket in its directory, and of an agent
    without a directory: the temporary one is used. *)
Lemma socket_is_private_witness :
  (exists f2 d, listenForSocketServer example_env example_fs 5 = (Some (UnixListener "/run/user/1000/tsshd/socket-5", "/run/user/1000/tsshd/socket-5"%string), f2) /\
    private_dir example_env f2 d) /\
  (exists f2 d, listenForAgent example_env blocked_fs (Some "/tmp/tsshd-1"%string) 5 9 = (Some (UnixListener "/tmp/tsshd-1/agent-5-9", "/tmp/tsshd-1/agent-5-9"%string), f2) /\
    private_dir example_env f2 d).
Proof.
  split.
  - destruct (socket_is_private example_env example_fs None 5 0 (UnixListener "/run/user/1000/tsshd/socket-5") "/run/user/1000/tsshd/socket-5"
                _ (or_intror eq_refl)) as (d & name & f1 & _ & _ & Hd & _).
    eexists _, d. split; [vm_compute; reflexivity|exact Hd].
  - destruct (socket_is_private example_env blocked_fs (Some "/tmp/tsshd-1"%string) 5 9 (UnixListener "/tmp/tsshd-1/agent-5-9") "/tmp/tsshd-1/agent-5-9"
                _ (or_introl eq_refl)) as (d & name & f1 & _ & _ & Hd & _).
    eexists _, d. split; [vm_compute; reflexivity|exact Hd].
Defined.

Lemma unlinker_spares_replacement_witness :
  let path := "/run/user/1000/tsshd/socket-5"%string in
  (cleanup example_env (<[path := File SockFile 1000 384 99]> example_fs)
     (newFileUnlinker example_fs path UnixConn)).1 !! path = Some (File SockFile 1000 384 99).
Proof.
  intros path.
  pose proof (unlinker_spares_replacement example_env example_fs path UnixConn
    (<[path := File SockFile 1000 384 99]> example_fs) ltac:(discriminate)) as H.
  destruct (cleanup _ _ _) as [f1 u1] eqn:E. destruct H as [[->|(i0 & i & H0 & H1 & Hino & _)] _]; [reflexivity|].
  vm_compute in H0, H1. injection H0 as <-. injection H1 as <-. discriminate Hino.
Defined.

Lemma replaced_socket_unlinked_witness :
  let path := "/run/user/1000/tsshd/socket-5"%string in
  (cleanup example_env (<[path := File SockFile 1000 384 99]> example_fs)
     (newFileUnlinker example_fs path (UnixListener path))).1 !! path = None.
Proof. intros path. by apply (replaced_socket_unlinked example_env example_fs path _ (File SockFile 1000 384 99)). Defined.

Example view_targets :
  view_target (bs "4711.3") = Some (4711, 3) /\ view_target (bs "4711") = None /\ view_target (bs "4711.-1") = None.
Proof. vm_compute. auto. Qed.
