(* ===== verification/Query.v ===== *)
(** * Query: the requests on a server's socket ([socket.go], [utils_unix.go])

    A running server answers [tsshd --list], [--view] and [--attach] of the same
    user on its socket.  Here are both ends: the server's [handleSocketConn] with
    its three requests, and the commands that send them and print the answers. *)

From Stdlib Require Import ZArith Lia Ascii String.
From stdpp Require Import base list strings gmap.
From S2P Require Import Prelude Wire GoStrings Decimal Process Socket.
Open Scope Z_scope.

(** ** Data ([proto.go]) *)

Record SessionInfo := MkSessionInfo { si_ID : Z; si_Title : bytes }.
Record BaseInfo := MkBaseInfo { bi_Time : Z; bi_Name : bytes; bi_Sessions : list SessionInfo }.
Record ServerItem := MkServerItem { it_Pid : Z; it_Info : bytes }.
Record viewMessage := ViewMessage { vw_ID : Z }.

(** What the requests see of a session: [vs_screen] is the title and the lines
    of its screen, kept when the server is attachable, [vs_pty] the foreground
    process group that the system gives for its pty, if it has one. *)
Record screen_session := ScreenSession {
  vs_id : Z;
  vs_screen : option (bytes * list bytes);
  vs_pty : option Z
}.

(** [globalSocketInfo] and the sessions in the order in which Go iterates. *)
Record socketInfo := SocketInfo {
  sk_startTime : Z;
  sk_sessionName : bytes;
  sk_clientID : Z;
  sk_sessions : list screen_session
}.

Definition CRLF : bytes := ["013"%char; "010"%char].
Definition BEL : byte := "007"%char.

(** ** Process groups *)

(** [getPgid]: the ioctl, then a check. *)
Definition getPgid (ioctl : option Z) : option Z := ioctl ≫= fun g => if g <=? 0 then None else Some g.

(** ** The server *)

Section Serve.
Context `{!Codec viewMessage, !Codec BaseInfo}.

(** [json.Marshal] of the server's own description with a client id, and what
    [getForegroundProcess] finds for a process group, empty on an error. *)
Context (marshalServerInfo : Z -> res bytes) (foreground : Z -> bytes).

(** Writes to the connection: the [i]th works or not; the request ends with the
    first that does not. *)
Fixpoint write_all_lines (works : nat -> bool) (i : nat) (chunks : list bytes) : bytes :=
  match chunks with
  | [] => []
  | c :: rest => if works i then c ++ write_all_lines works (S i) rest else []
  end.

Definition session_title (s : screen_session) : bytes :=
  let title := match vs_screen s with Some (t, _) => t | None => [] end in
  match title with
  | [] => foreground (default 0 (getPgid (vs_pty s)))
  | _ => title
  end.

Definition base_info (st : socketInfo) : BaseInfo :=
  MkBaseInfo (sk_startTime st) (sk_sessionName st) ((fun s => MkSessionInfo (vs_id s) (session_title s)) <$> sk_sessions st).

Definition handleInfoRequest (st : socketInfo) : list bytes :=
  match json_Marshal (base_info st) with
  | Ok b => [b]
  | Err e => [bs ("ERROR: generate base info failed: " +:+ error_text e) ++ ["010"%char]]
  end.

Definition session_by_id (st : socketInfo) (id : Z) : option screen_session := list_find (fun s => vs_id s = id) (sk_sessions st) ≫= fun x => Some x.2.

Definition view_error (id : Z) (what : string) : bytes := bs "ERROR: session [" ++ decimal id ++ bs ("] " +:+ what) ++ CRLF.

Definition handleViewRequest (r : reader) (st : socketInfo) : list bytes :=
  match recvMessage (M := viewMessage) r with
  | (_, Err _) => []
  | (_, Ok msg) =>
      match session_by_id st (vw_ID msg) with
      | None => [view_error (vw_ID msg) "not found"]
      | Some s => match vs_screen s with
                  | None => [view_error (vw_ID msg) "was not started with attachable support"]
                  | Some (_, lines) => (fun line => line ++ CRLF) <$> lines
                  end
      end
  end.

(** Under [attachMutex]. *)
Definition handleAttachRequest (st : socketInfo) : socketInfo * list bytes :=
  let id := nextClientID (sk_clientID st) in
  let st' := SocketInfo (sk_startTime st) (sk_sessionName st) id (sk_sessions st) in
  match marshalServerInfo id with
  | Ok b => (st', [BEL :: b ++ ["010"%char]])
  | Err e => (st', [bs ("ERROR: generate server info failed: " +:+ error_text e) ++ ["010"%char]])
  end.

(** The new state and what the client reads until the connection is closed. *)
Definition handleSocketConn (r : reader) (works : nat -> bool) (st : socketInfo) : socketInfo * bytes :=
  match recvCommand r with
  | (_, Err _) => (st, [])
  | (r1, Ok cmd) =>
      if bool_decide (cmd = "info"%string) then (st, write_all_lines works 0 (handleInfoRequest st))
      else if bool_decide (cmd = "view"%string) then (st, write_all_lines works 0 (handleViewRequest r1 st))
      else if bool_decide (cmd = "attach"%string)
      then let '(st', out) := handleAttachRequest st in (st', write_all_lines works 0 out)
      else (st, [])
  end.

(** [startSocketServer]: the connections in the order of [Accept], each with
    whether its deadline could be set, what it sends and whether writes to it
    work.  The handlers run at the same time, but an attach has the mutex from its
    change of the client id on: they are taken in the order of that. *)
Fixpoint startSocketServer (conns : list (bool * reader * (nat -> bool))) (st : socketInfo) : socketInfo * list bytes :=
  match conns with
  | [] => (st, [])
  | (deadlineOk, r, works) :: rest =>
      if deadlineOk then
        let '(st1, out) := handleSocketConn r works st in
        let '(st2, outs) := startSocketServer rest st1 in (st2, out :: outs)
      else let '(st2, outs) := startSocketServer rest st in (st2, [] :: outs)
  end.

(** ** The commands *)

Definition kExitCodeListFailed : Z := 98.
Definition kExitCodeViewFailed : Z := 99.
Definition kExitCodeAttachFailed : Z := 100.

(** What a command meets on its way; [qe_answer]: what it reads for what it has
    sent, and whether up to the end. *)
Record query_env := QueryEnv {
  qe_path : Z -> option string;
  qe_connect : string -> bool;
  qe_deadline : bool;
  qe_send : bool;
  qe_answer : string -> bytes -> bytes * bool
}.

(** Connect, send, and copy the answer to the standard output. *)
Definition ask (e : query_env) (failed pid : Z) (request : option bytes) : Z * bytes :=
  match qe_path e pid with
  | None => (failed, [])
  | Some path =>
      if negb (qe_connect e path) then (failed, [])
      else if negb (qe_deadline e) then (failed, [])
      else match request with
           | None => (failed, [])
           | Some b => if negb (qe_send e) then (failed, [])
                       else let '(out, whole) := qe_answer e path b in (if whole then 0 else failed, out)
           end
  end.

Definition view_request (sid : Z) : option bytes :=
  match json_Marshal (ViewMessage sid) with
  | Ok body => Some (command_frame "view" ++ message_frame body)
  | Err _ => None
  end.

Definition handleViewCommand (e : query_env) (pidAndSid : bytes) : Z * bytes :=
  match view_target pidAndSid with
  | None => (kExitCodeViewFailed, [])
  | Some (pid, sid) => ask e kExitCodeViewFailed pid (view_request sid)
  end.

Definition handleAttachCommand (e : query_env) (pidStr : bytes) : Z * bytes :=
  match Atoi pidStr with
  | None => (kExitCodeAttachFailed, [])
  | Some pid => ask e kExitCodeAttachFailed pid (Some (command_frame "attach"))
  end.

(** The answer or the text of the error. *)
Definition queryBaseInfo (e : query_env) (path : string) : bytes :=
  if negb (qe_connect e path) then bs ("connect socket [" +:+ path +:+ "] failed")
  else if negb (qe_deadline e) then bs "set attach deadline failed"
  else if negb (qe_send e) then bs "send info request failed"
  else let '(out, whole) := qe_answer e path (command_frame "info") in if whole then out else bs "read info response failed".

(** The goroutines of [handleListCommand] write their items as they finish. *)
Fixpoint gather (e : query_env) (paths : list (Z * string)) (order : list nat) (items : list (option ServerItem)) : list (option ServerItem) :=
  match order with
  | [] => items
  | i :: rest =>
      gather e paths rest (match paths !! i with
                           | Some (pid, path) => <[i := Some (MkServerItem pid (queryBaseInfo e path))]> items
                           | None => items
                           end)
  end.

Definition handleListCommand (marshal : list (option ServerItem) -> res bytes) (e : query_env) (paths : option (list (Z * string))) (order : list nat) :
    Z * bytes :=
  match paths with
  | None => (kExitCodeListFailed, [])
  | Some paths =>
      match marshal (gather e paths order (replicate (length paths) None)) with
      | Err _ => (kExitCodeListFailed, [])
      | Ok b => (0, b ++ CRLF)
      end
  end.

End Serve.

(** ** What a request is answered with *)

Section Answers.
Context `{!Codec viewMessage, !Codec BaseInfo, !CodecOk viewMessage}.
Context (marshalServerInfo : Z -> res bytes) (foreground : Z -> bytes).

Lemma write_all_lines_works works i chunks : (forall i, works i = true) -> write_all_lines works i chunks = concat chunks.
Proof. intros Hw. revert i. induction chunks as [|c rest IH]; intros i; [done|]. cbn. by rewrite Hw, IH. Qed.

(** The server reads the request that the command has written. *)
Lemma view_request_read sid req r st works :
  view_request sid = Some req -> Z.of_nat (length req) < 2 ^ 32 -> rd_bytes r = req -> proper r -> (forall i, works i = true) ->
  (handleSocketConn marshalServerInfo foreground r works st).2 =
    match session_by_id st sid with
    | None => view_error sid "not found"
    | Some s => match vs_screen s with
                | None => view_error sid "was not started with attachable support"
                | Some (_, lines) => concat ((fun line => line ++ CRLF) <$> lines)
                end
    end.
Proof.
  unfold view_request. destruct (json_Marshal (ViewMessage sid)) as [body|] eqn:Em; [|done]. intros Hq Hlen Hr Hp Hw.
  assert (req = command_frame "view" ++ message_frame body) as -> by congruence.
  rewrite length_app in Hlen. unfold message_frame in Hlen. rewrite length_app in Hlen.
  destruct (recvCommand_frame r "view" _ Hr Hp ltac:(simpl; lia)) as (r1 & E1 & Hb1 & Hp1).
  unfold handleSocketConn. rewrite E1. dispatch. cbn [snd]. rewrite write_all_lines_works by done.
  destruct (recvMessage_frame (M := viewMessage) r1 (ViewMessage sid) body [] Em) as (r2 & E2 & _); [lia|by rewrite app_nil_r|].
  unfold handleViewRequest. rewrite E2. cbn [vw_ID]. by repeat case_match; simpl; rewrite ?app_nil_r.
Qed.

(** The socket of process [pid] is there and its server, in state [st], reads
    requests however they are cut. *)
Record served (e : query_env) (pid : Z) (st : socketInfo) : Prop := {
  sv_path : exists path, qe_path e pid = Some path /\ qe_connect e path = true /\
    forall req, exists r works, rd_bytes r = req /\ proper r /\ (forall i, works i = true) /\
      qe_answer e path req = ((handleSocketConn marshalServerInfo foreground r works st).2, true);
  sv_ready : qe_deadline e = true /\ qe_send e = true
}.

(** [tsshd --view pid.sid] prints the screen of that session, line by line,
    or the server's message that there is no such session or no screen of it;
    its exit code is 0 in all three cases. *)
Theorem view_command_answer e target pid sid st req :
  view_target target = Some (pid, sid) -> view_request sid = Some req -> Z.of_nat (length req) < 2 ^ 32 -> served e pid st ->
  handleViewCommand e target =
    (0, match session_by_id st sid with
        | None => view_error sid "not found"
        | Some s => match vs_screen s with
                    | None => view_error sid "was not started with attachable support"
                    | Some (_, lines) => concat ((fun line => line ++ CRLF) <$> lines)
                    end
        end).
Proof.
  intros Ht Hreq Hlen [(path & Hpath & Hconn & Hans) [Hd Hs]]. unfold handleViewCommand, ask.
  rewrite Ht, Hpath, Hconn, Hd, Hreq, Hs. cbn [negb].
  destruct (Hans req) as (r & works & Hr & Hp & Hw & ->). f_equal. by eapply view_request_read.
Qed.

(** ** Attaching *)

Definition attach_answer (id : Z) : bytes :=
  match marshalServerInfo id with
  | Ok b => BEL :: b ++ ["010"%char]
  | Err e => bs ("ERROR: generate server info failed: " +:+ error_text e) ++ ["010"%char]
  end.

(** A connection that asks to attach. *)
Definition asks_attach (c : bool * reader * (nat -> bool)) : Prop :=
  c.1.1 = true /\ rd_bytes c.1.2 = command_frame "attach" /\ proper c.1.2 /\ forall i, c.2 i = true.

Lemma attach_read r works st :
  rd_bytes r = command_frame "attach" -> proper r -> (forall i, works i = true) ->
  handleSocketConn marshalServerInfo foreground r works st =
    (SocketInfo (sk_startTime st) (sk_sessionName st) (nextClientID (sk_clientID st)) (sk_sessions st), attach_answer (nextClientID (sk_clientID st))).
Proof.
  intros Hr Hp Hw. rewrite <- (app_nil_r (command_frame _)) in Hr.
  destruct (recvCommand_frame r "attach" _ Hr Hp ltac:(simpl; lia)) as (r1 & E1 & _).
  unfold handleSocketConn. rewrite E1. dispatch. unfold handleAttachRequest, attach_answer.
  destruct (marshalServerInfo _); rewrite write_all_lines_works by done; cbn [concat]; by rewrite app_nil_r.
Qed.

Lemma nextClientID_cycle c n : 0 <= c < 2 ^ 64 -> Nat.iter (S n) nextClientID c = (c + Z.of_nat n) mod (2 ^ 64 - 1) + 1.
Proof.
  intros Hc.
  assert (Hnext : forall x, 0 <= x < 2 ^ 64 -> nextClientID x = x mod (2 ^ 64 - 1) + 1).
  { intros x Hx. unfold nextClientID, u64, uwrap. destruct (decide (x = 2 ^ 64 - 1)) as [->|Hne]; [reflexivity|].
    rewrite (Z.mod_small (x + 1)) by lia. rewrite (Z.mod_small x) by lia.
    destruct (Z.eqb_spec (x + 1) 0); [lia|done]. }
  induction n as [|n IH]; [cbn [Nat.iter]; rewrite Hnext by lia; do 2 f_equal; lia|].
  change (Nat.iter (S (S n)) nextClientID c) with (nextClientID (Nat.iter (S n) nextClientID c)). rewrite IH.
  pose proof (Z.mod_pos_bound (c + Z.of_nat n) (2 ^ 64 - 1) ltac:(lia)) as Hb. rewrite Hnext by lia. f_equal.
  rewrite Z.add_mod_idemp_l by lia. f_equal. lia.
Qed.

Lemma attach_answers conns st i :
  Forall asks_attach conns -> (i < length conns)%nat ->
  (startSocketServer marshalServerInfo foreground conns st).2 !! i = Some (attach_answer (Nat.iter (S i) nextClientID (sk_clientID st))).
Proof.
  intros Hc. revert i st. induction Hc as [|[[ok r] works] conns (Hok & Hr & Hp & Hw) _ IH]; intros i st Hi; [simpl in Hi; lia|].
  cbn in Hok, Hr, Hp, Hw. subst ok. cbn [startSocketServer]. rewrite attach_read by done.
  set (st1 := SocketInfo _ _ _ _) in *. specialize (IH (pred i) st1).
  destruct (startSocketServer _ _ conns st1) as [st2 outs]. destruct i as [|i]; [done|].
  change (outs !! i = Some (attach_answer (Nat.iter (S (S i)) nextClientID (sk_clientID st)))).
  cbn [Nat.pred snd] in IH. rewrite IH by (simpl in Hi; lia). by rewrite (Nat.iter_succ_r (S i)).
Qed.

(** Whatever client id the server began with, each attach request is answered
    with an id that is not zero and differs from those of all the 2^64 - 2 requests
    before it. *)
Theorem attach_ids_distinct conns st i j :
  Forall asks_attach conns -> 0 <= sk_clientID st < 2 ^ 64 ->
  (i < j < length conns)%nat -> Z.of_nat j - Z.of_nat i < 2 ^ 64 - 1 ->
  exists a b, a <> b /\ a <> 0 /\ b <> 0 /\
    (startSocketServer marshalServerInfo foreground conns st).2 !! i = Some (attach_answer a) /\
    (startSocketServer marshalServerInfo foreground conns st).2 !! j = Some (attach_answer b).
Proof.
  intros Hc Hid Hij Hd.
  exists (Nat.iter (S i) nextClientID (sk_clientID st)), (Nat.iter (S j) nextClientID (sk_clientID st)).
  rewrite !attach_answers by (done || lia). rewrite !nextClientID_cycle by done.
  set (c := sk_clientID st) in *.
  pose proof (Z.mod_pos_bound (c + Z.of_nat i) (2 ^ 64 - 1) ltac:(lia)). pose proof (Z.mod_pos_bound (c + Z.of_nat j) (2 ^ 64 - 1) ltac:(lia)).
  split_and!; try done; try lia. intros E.
  pose proof (Z.div_mod (c + Z.of_nat i) (2 ^ 64 - 1) ltac:(lia)). pose proof (Z.div_mod (c + Z.of_nat j) (2 ^ 64 - 1) ltac:(lia)). nia.
Qed.

(** ** Listing *)

(** The item of one socket does not depend on the others. *)
Definition item_of (e : query_env) (p : Z * string) : ServerItem := MkServerItem p.1 (queryBaseInfo e p.2).

Lemma gather_lookup e paths order items i p :
  length items = length paths -> paths !! i = Some p ->
  gather e paths order items !! i = if bool_decide (i ∈ order) then Some (Some (item_of e p)) else items !! i.
Proof.
  intros Hlen Hi. revert items Hlen. induction order as [|k order IH]; intros items Hlen.
  - by rewrite bool_decide_eq_false_2 by set_solver.
  - cbn [gather]. rewrite IH by (repeat case_match; rewrite ?length_insert; done).
    destruct (decide (i ∈ order)); [by rewrite !bool_decide_eq_true_2 by set_solver|].
    rewrite (bool_decide_eq_false_2 (i ∈ order)) by done. destruct (decide (i = k)) as [<-|Hne].
    + rewrite Hi. rewrite bool_decide_eq_true_2 by set_solver. destruct p as [pid path].
      rewrite list_lookup_insert_eq; [done|]. rewrite Hlen. by eapply lookup_lt_Some.
    + rewrite bool_decide_eq_false_2 by set_solver. destruct (paths !! k) as [[pid path]|]; [|done]. by rewrite list_lookup_insert_ne.
Qed.

Lemma gather_length e paths order items : length (gather e paths order items) = length items.
Proof.
  revert items. induction order as [|k order IH]; intros items; [done|]. cbn [gather]. rewrite IH. repeat case_match; by rewrite ?length_insert.
Qed.

(** [tsshd --list] prints one item per socket in the order of the sockets,
    whichever order the servers answer in and whichever of them fail. *)
Theorem list_in_order marshal e paths order :
  order ≡ₚ seq 0 (length paths) ->
  handleListCommand marshal e (Some paths) order =
    match marshal (Some <$> (item_of e <$> paths)) with Ok b => (0, b ++ CRLF) | Err _ => (kExitCodeListFailed, []) end.
Proof.
  intros Hperm. cbn [handleListCommand]. replace (gather e paths order (replicate (length paths) None)) with (Some <$> (item_of e <$> paths)).
  { by destruct (marshal _). }
  apply list_eq. intros i. rewrite !list_lookup_fmap. destruct (paths !! i) as [p|] eqn:Hi.
  - rewrite (gather_lookup _ _ _ _ _ p) by (done || by rewrite length_replicate). rewrite bool_decide_eq_true_2; [done|].
    rewrite Hperm, elem_of_seq. apply lookup_lt_Some in Hi. lia.
  - symmetry. apply lookup_ge_None. rewrite gather_length, length_replicate. by apply lookup_ge_None.
Qed.

(** Sessions with neither a title nor a pty are listed under one and the same
    name, whatever each of them runs. *)
Lemma untitled_sessions_share s1 s2 :
  vs_screen s1 = None -> vs_screen s2 = None -> vs_pty s1 = None -> vs_pty s2 = None ->
  session_title foreground s1 = session_title foreground s2.
Proof. unfold session_title. by intros -> -> -> ->. Qed.

End Answers.

(** ** Examples *)

#[local] Instance view_codec : Codec viewMessage := {
  json_Marshal m := if (0 <=? vw_ID m) && (vw_ID m <? 2 ^ 64) then Ok (be_put 8 (vw_ID m)) else Err (Plain "unsupported");
  json_Unmarshal b := Ok (ViewMessage (be_get b))
}.

#[local] Instance view_codec_ok : CodecOk viewMessage.
Proof.
  intros [id] b. cbn -[be_put be_get Z.pow]. destruct ((0 <=? id) && (id <? 2 ^ 64)) eqn:E; [|done]. intros Hb.
  assert (b = be_put 8 id) as -> by congruence. rewrite be_get_put_small; [done|]. change (256 ^ Z.of_nat 8) with (2 ^ 64). lia.
Qed.

#[local] Instance base_codec : Codec BaseInfo := {
  json_Marshal m := Ok (bi_Name m);
  json_Unmarshal b := Ok (MkBaseInfo 0 b [])
}.

Definition example_info : socketInfo :=
  SocketInfo 1 (bs "work") (2 ^ 64 - 1) [ScreenSession 3 (Some (bs "vim", [bs "one"; bs "two"])) None; ScreenSession 4 None None].

Definition id_text (id : Z) : res bytes := Ok (decimal id).

Definition example_query : query_env :=
  QueryEnv (fun pid => if pid =? 4711 then Some "/run/socket-4711"%string else None) (fun _ => true) true true
    (fun _ req => ((handleSocketConn id_text (fun _ => []) (Reader ((fun b => [b]) <$> req) EOF) (fun _ => true) example_info).2, true)).

Lemma example_served : served id_text (fun _ => []) example_query 4711 example_info.
Proof.
  split; [|done]. eexists. split_and!; [done|done|]. intros req. exists (Reader ((fun b => [b]) <$> req) EOF), (fun _ => true).
  split_and!; [|by apply Forall_fmap, Forall_true|done|done]. unfold rd_bytes. cbn. induction req as [|b req IH]; [done|]. cbn. by rewrite IH.
Qed.

Lemma view_command_answer_witness :
  handleViewCommand example_query (bs "4711.3") = (0, bs "one" ++ CRLF ++ bs "two" ++ CRLF) /\
  handleViewCommand example_query (bs "4711.9") = (0, view_error 9 "not found").
Proof.
  split.
  - etransitivity; [eapply (view_command_answer id_text (fun _ => []) example_query (bs "4711.3") 4711 3 example_info)|vm_compute; reflexivity].
    + vm_compute. reflexivity.
    + vm_compute. reflexivity.
    + vm_compute. reflexivity.
    + apply example_served.
  - etransitivity; [eapply (view_command_answer id_text (fun _ => []) example_query (bs "4711.9") 4711 9 example_info)|vm_compute; reflexivity].
    + vm_compute. reflexivity.
    + vm_compute. reflexivity.
    + vm_compute. reflexivity.
    + apply example_served.
Defined.

Definition attach_conn : bool * reader * (nat -> bool) := (true, Reader [command_frame "attach"] EOF, fun _ => true).

(** The server began with the largest id: 1 and 2 follow. *)
Lemma attach_ids_distinct_witness :
  (startSocketServer id_text (fun _ => []) [attach_conn; attach_conn] example_info).2 =
    [BEL :: bs "1" ++ ["010"%char]; BEL :: bs "2" ++ ["010"%char]] /\
  exists a b, a <> b /\ attach_answer id_text a = BEL :: bs "1" ++ ["010"%char] /\ attach_answer id_text b = BEL :: bs "2" ++ ["010"%char].
Proof.
  assert (E : (startSocketServer id_text (fun _ => []) [attach_conn; attach_conn] example_info).2 =
    [BEL :: bs "1" ++ ["010"%char]; BEL :: bs "2" ++ ["010"%char]]) by (vm_compute; reflexivity).
  split; [exact E|].
  destruct (attach_ids_distinct id_text (fun _ => []) [attach_conn; attach_conn] example_info 0 1) as (a & b & Hab & _ & _ & Ha & Hb).
  - repeat constructor; discriminate.
  - vm_compute. intuition discriminate.
  - simpl. lia.
  - vm_compute. reflexivity.
  - rewrite E in Ha, Hb. exists a, b. split; [exact Hab|].
    change (Some (BEL :: bs "1" ++ ["010"%char]) = Some (attach_answer id_text a)) in Ha.
    change (Some (BEL :: bs "2" ++ ["010"%char]) = Some (attach_answer id_text b)) in Hb.
    remember (attach_answer id_text a). remember (attach_answer id_text b). split; congruence.
Defined.

Lemma list_in_order_witness :
  handleListCommand (fun items => Ok (bs "[...]")) example_query (Some [(4711, "/run/socket-4711"%string); (12, "/run/socket-12"%string)]) [1%nat; 0%nat]
    = (0, bs "[...]" ++ CRLF).
Proof.
  apply (list_in_order (fun items => Ok (bs "[...]")) example_query [(4711, "/run/socket-4711"%string); (12, "/run/socket-12"%string)] [1%nat; 0%nat]).
  apply Permutation_swap.
Defined.
