(* ===== verification/Main.v ===== *)
(** * Main: from the command line to a running server

    Arguments and version numbers, the resolution of the wire rate, the order
    in which [RunMain] does its work, exit codes and exit functions, and the
    watchdog ([main.go], [parseTsshdVersion] of [comm.go]). *)

From Stdlib Require Import ZArith Lia Ascii String.
From stdpp Require Import base list strings gmap.
From S2P Require Import Prelude GoStrings Decimal Config Forward Pacer.
Open Scope Z_scope.

(** ** Arguments *)

(** Durations are in nanoseconds. *)
Record tsshdArgs := TArgs {
  Help : bool; VerShort : bool; VerDetailed : bool; KCP : bool; TCP : bool; IPv4 : bool; IPv6 : bool;
  Debug : bool; Attachable : bool; Socket : bool; List_ : bool;
  View : bytes; Attach : bytes; MTU : Z; Port : bytes; ConnectTimeout : Z;
  KcpWireRate : Z; kcpWireRateSet : bool
}.

Definition no_args : tsshdArgs :=
  TArgs false false false false false false false false false false false [] [] 0 [] 0 0 false.

Definition second : Z := 10 ^ 9.

(** The options without a value; [None]: the word is not one of them. *)
Definition flag (a : tsshdArgs) (word : bytes) : option tsshdArgs :=
  let '(TArgs h vs vd kcp tcp v4 v6 d att sock l view attach mtu port timeout rate set) := a in
  let eqw w := bool_decide (word = bs w) in
  if eqw "-h" || eqw "--help" then
    Some (TArgs true vs vd kcp tcp v4 v6 d att sock l view attach mtu port timeout rate set)
  else if eqw "-v" || eqw "--version" then
    Some (TArgs h true vd kcp tcp v4 v6 d att sock l view attach mtu port timeout rate set)
  else if eqw "-V" then
    Some (TArgs h vs true kcp tcp v4 v6 d att sock l view attach mtu port timeout rate set)
  else if eqw "--kcp" then
    Some (TArgs h vs vd true tcp v4 v6 d att sock l view attach mtu port timeout rate set)
  else if eqw "--tcp" then
    Some (TArgs h vs vd kcp true v4 v6 d att sock l view attach mtu port timeout rate set)
  else if eqw "--ipv4" then
    Some (TArgs h vs vd kcp tcp true v6 d att sock l view attach mtu port timeout rate set)
  else if eqw "--ipv6" then
    Some (TArgs h vs vd kcp tcp v4 true d att sock l view attach mtu port timeout rate set)
  else if eqw "--debug" then
    Some (TArgs h vs vd kcp tcp v4 v6 true att sock l view attach mtu port timeout rate set)
  else if eqw "--attachable" then
    Some (TArgs h vs vd kcp tcp v4 v6 d true sock l view attach mtu port timeout rate set)
  else if eqw "--socket" then
    Some (TArgs h vs vd kcp tcp v4 v6 d att true l view attach mtu port timeout rate set)
  else if eqw "--list" then
    Some (TArgs h vs vd kcp tcp v4 v6 d att sock true view attach mtu port timeout rate set)
  else None.

(** The options with a value.  A number that does not parse leaves the field as
    it was; for the wire rate there is a warning as well. *)
Definition option_value (a : tsshdArgs) (word v : bytes) : option tsshdArgs :=
  let '(TArgs h vs vd kcp tcp v4 v6 d att sock l view attach mtu port timeout rate set) := a in
  let eqw w := bool_decide (word = bs w) in
  if eqw "--view" then
    Some (TArgs h vs vd kcp tcp v4 v6 d att sock l v attach mtu port timeout rate set)
  else if eqw "--attach" then
    Some (TArgs h vs vd kcp tcp v4 v6 d att sock l view v mtu port timeout rate set)
  else if eqw "--mtu" then
    Some (match ParseUint 16 v with
          | Some n => TArgs h vs vd kcp tcp v4 v6 d att sock l view attach (u16 n) port timeout rate set
          | None => a
          end)
  else if eqw "--kcp-wire-rate" then
    Some (match ParseUint 64 v with
          | Some n => TArgs h vs vd kcp tcp v4 v6 d att sock l view attach mtu port timeout n true
          | None => a
          end)
  else if eqw "--port" then
    Some (TArgs h vs vd kcp tcp v4 v6 d att sock l view attach mtu v timeout rate set)
  else if eqw "--connect-timeout" then
    Some (match ParseUint 32 v with
          | Some n => TArgs h vs vd kcp tcp v4 v6 d att sock l view attach mtu port (n * second) rate set
          | None => a
          end)
  else None.

(** The loop over [os.Args[1:]]: an option takes the next word as its value
    unless that starts with a dash; unknown words are skipped. *)
Fixpoint parse_from (a : tsshdArgs) (words : list bytes) : tsshdArgs :=
  match words with
  | [] => a
  | w :: words' =>
      match flag a w with
      | Some a' => parse_from a' words'
      | None =>
          match words' with
          | v :: words'' =>
              if has_prefix v (bs "-") then parse_from a words'
              else match option_value a w v with
                   | Some a' => parse_from a' words''
                   | None => parse_from a words'
                   end
          | [] => a
          end
      end
  end.

Definition parseTsshdArgs (words : list bytes) : tsshdArgs := parse_from no_args words.

(** ** The wire rate *)

Definition kMinKcpWireRate : Z := 4096.

Inductive rate_warning := ConfigInvalid | IgnoredWithoutKCP | BelowFloor.

Definition resolveKcpWireRate (flagRate : Z) (flagSet : bool) (configVal : bytes) (kcp : bool) :
    Z * list rate_warning :=
  let '(rate, ws) :=
    if negb flagSet && (flagRate =? 0) && negb (bool_decide (configVal = []))
    then match ParseUint 64 configVal with
         | Some r => (r, [])
         | None => (flagRate, [ConfigInvalid])
         end
    else (flagRate, []) in
  if (0 <? rate) && negb kcp then (0, ws ++ [IgnoredWithoutKCP])
  else (rate, ws ++ if (0 <? rate) && (rate <? kMinKcpWireRate) then [BelowFloor] else []).

(** ** RunMain *)

Definition kExitCodeNormal : Z := 0.
Definition kExitCodeAlreadyRun : Z := 90.
Definition kExitCodeBackground : Z := 91.
Definition kExitCodeOutputFail : Z := 92.
Definition kExitCodeInitServer : Z := 93.
Definition kExitCodeConnTimeout : Z := 94.
Definition kExitCodeAliveTimeout : Z := 95.
Definition kExitCodeApplyOptions : Z := 97.

Definition kDefaultConnectTimeout : Z := 10 * second.

(** [background]: it failed, this is the parent (and whether forwarding the
    child's output succeeds), or this is the child. *)
Inductive background_result := BackgroundFailed | Parent (copied : bool) | Child.

(** What [RunMain] meets: the results of the caller's options and of the three
    query commands, the fork, the configuration file, whether the server can be
    set up, and the code that ends the process. *)
Record main_env := MainEnv {
  me_opts : list bool;
  me_list : Z;
  me_view : bytes -> Z;
  me_attach : bytes -> Z;
  me_background : background_result;
  me_config : sshd_config;
  me_init : bool;
  me_exit : Z
}.

(** [Returned]: without a server.  [Launched]: the parent, once its child runs.
    [Served]: the server ran with these arguments, warnings enabled or not, the
    local socket open or not. *)
Inductive main_result :=
| Returned (code : Z)
| Launched (code : Z)
| Served (args : tsshdArgs) (warnings socket : bool) (code : Z).

Definition with_timeout (a : tsshdArgs) (t : Z) : tsshdArgs :=
  let '(TArgs h vs vd kcp tcp v4 v6 d att sock l view attach mtu port _ rate set) := a in
  TArgs h vs vd kcp tcp v4 v6 d att sock l view attach mtu port t rate set.

Definition with_rate (a : tsshdArgs) (r : Z) : tsshdArgs :=
  let '(TArgs h vs vd kcp tcp v4 v6 d att sock l view attach mtu port timeout _ set) := a in
  TArgs h vs vd kcp tcp v4 v6 d att sock l view attach mtu port timeout r set.

(** The arguments the server is started with. *)
Definition server_args (e : main_env) (args : tsshdArgs) : tsshdArgs :=
  let args1 := if ConnectTimeout args <=? 0 then with_timeout args kDefaultConnectTimeout else args in
  with_rate args1 (resolveKcpWireRate (KcpWireRate args1) (kcpWireRateSet args1)
                     (getSshdConfig (me_config e) (bs "KcpWireRate")) (KCP args1)).1.

Definition warnings_enabled (e : main_env) (args : tsshdArgs) : bool :=
  let v := getSshdConfig (me_config e) (bs "LogLevel") in
  Debug args || negb (EqualFold v "quiet" || EqualFold v "fatal").

(** [mainOnce] is the flag of the same name, before and after. *)
Definition RunMain (mainOnce : bool) (e : main_env) (words : list bytes) : bool * main_result :=
  if mainOnce then (true, Returned kExitCodeAlreadyRun)
  else
    (true,
      if negb (forallb id (me_opts e)) then Returned kExitCodeApplyOptions
      else
        let args := parseTsshdArgs words in
        if Help args || VerShort args || VerDetailed args then Returned 0
        else if List_ args then Returned (me_list e)
        else if negb (bool_decide (View args = [])) then Returned (me_view e (View args))
        else if negb (bool_decide (Attach args = [])) then Returned (me_attach e (Attach args))
        else
          match me_background e with
          | BackgroundFailed => Returned kExitCodeBackground
          | Parent copied => Launched (if copied then kExitCodeNormal else kExitCodeOutputFail)
          | Child =>
              let args' := server_args e args in
              if me_init e
              then Served args' (warnings_enabled e args') (Attachable args' && Socket args') (me_exit e)
              else Returned kExitCodeInitServer
          end).

(** ** Leaving *)

(** [exitChan] holds one code; [exitWithCode] does nothing when it is full. *)
Definition exitWithCode (exitChan : option Z) (code : Z) : option Z :=
  match exitChan with None => Some code | Some _ => exitChan end.

(** The exit functions, by number, and those that have run, in order. *)
Record exit_funcs := ExitFuncs { onExitFuncs : list nat; ran : list nat }.

Definition addOnExitFunc (s : exit_funcs) (fn : nat) : exit_funcs := ExitFuncs (onExitFuncs s ++ [fn]) (ran s).

Definition cleanupOnExit (s : exit_funcs) : exit_funcs := ExitFuncs [] (ran s ++ reverse (onExitFuncs s)).

(** ** The watchdog *)

(** What one pass of [monitorServerLiveness] sees: the time, and the active
    server with its alive timeout, the time of the last heartbeat and the
    interval of its checks.  Nanoseconds; the heartbeat is kept in
    milliseconds. *)
Record observed := Observed { ob_aliveTimeout : Z; ob_clientAliveTime : Z; ob_intervalTime : Z }.

(** Exit with a code, or sleep. *)
Definition monitor_pass (connectTimeout beginTime now : Z) (server : option observed) : Z + Z :=
  match server with
  | None => if connectTimeout <? now - beginTime then inl kExitCodeConnTimeout else inr second
  | Some s =>
      if ob_aliveTimeout s =? 0 then inr second
      else if ob_aliveTimeout s <? now - ob_clientAliveTime s * 10 ^ 6 then inl kExitCodeAliveTimeout
      else inr (Z.max (ob_intervalTime s) second)
  end.

(** The passes one after the other; each comes [late] later than the sleep
    before it asked for.  The result: the code and when. *)
Fixpoint monitorServerLiveness (connectTimeout beginTime now : Z) (passes : list (option observed * Z)) : option (Z * Z) :=
  match passes with
  | [] => None
  | (server, late) :: passes' =>
      match monitor_pass connectTimeout beginTime now server with
      | inl code => Some (code, now)
      | inr sleep => monitorServerLiveness connectTimeout beginTime (now + sleep + late) passes'
      end
  end.

(** ** Versions *)

Abbreviation tsshdVersion := (Z * Z * Z)%type.

(** [None] is the error. *)
Definition parseTsshdVersion (ver : bytes) : option tsshdVersion :=
  match ver with
  | [] => Some (0, 0, 0)
  | _ =>
      match Split "."%char ver with
      | [a; b; c] =>
          match ParseUint 32 a, ParseUint 32 b, ParseUint 32 c with
          | Some x, Some y, Some z => Some (x, y, z)
          | _, _, _ => None
          end
      | _ => None
      end
  end.

Definition compare (v w : tsshdVersion) : Z :=
  let '(v0, v1, v2) := v in
  let '(w0, w1, w2) := w in
  if v0 <? w0 then -1 else if w0 <? v0 then 1
  else if v1 <? w1 then -1 else if w1 <? v1 then 1
  else if v2 <? w2 then -1 else if w2 <? v2 then 1
  else 0.

(** ** Arguments are well typed *)

Record args_ok (a : tsshdArgs) : Prop := {
  ok_mtu : 0 <= MTU a < 2 ^ 16;
  ok_timeout : 0 <= ConnectTimeout a < 2 ^ 63;
  ok_rate : 0 <= KcpWireRate a < 2 ^ 64;
  ok_unset : kcpWireRateSet a = false -> KcpWireRate a = 0
}.

Lemma flag_ok a w a' : args_ok a -> flag a w = Some a' -> args_ok a'.
Proof.
  intros [] Hf. destruct a. unfold flag in Hf. repeat case_match; simplify_eq; by split.
Qed.

Lemma option_value_ok a w v a' : args_ok a -> option_value a w v = Some a' -> args_ok a'.
Proof.
  intros [Hm Ht Hr Hu] Hf. destruct a. unfold option_value in Hf.
  repeat case_match; simplify_eq; split; simpl in *; try done;
    match goal with H : ParseUint _ _ = Some _ |- _ => apply ParseUint_range in H end.
  - apply uwrap_range. lia.
  - done.
  - unfold second. lia.
Qed.

Lemma parse_from_ok n words a : (length words <= n)%nat -> args_ok a -> args_ok (parse_from a words).
Proof.
  revert words a. induction n as [|n IH]; intros [|w words] a Hn Ha; cbn [length] in Hn; cbn [parse_from]; try done; [lia|].
  destruct (flag a w) as [a'|] eqn:Ef; [apply IH; [lia|by eapply flag_ok]|].
  destruct words as [|v words]; [done|]. cbn [length] in Hn.
  destruct (has_prefix v (bs "-")); [apply IH; [simpl; lia|done]|].
  destruct (option_value a w v) as [a'|] eqn:Eo; apply IH; try (simpl; lia); [by eapply option_value_ok|done].
Qed.

Lemma parseTsshdArgs_ok words : args_ok (parseTsshdArgs words).
Proof. by apply (parse_from_ok (length words)). Qed.

(** The rate that remains, in the three situations. *)
Lemma resolveKcpWireRate_value rate set cfg kcp :
  0 <= rate -> (set = false -> rate = 0) ->
  (resolveKcpWireRate rate set cfg kcp).1 =
  if kcp then (if set then rate else default 0 (ParseUint 64 cfg)) else 0.
Proof.
  intros Hr Hset. unfold resolveKcpWireRate. destruct set; cbn [negb andb].
  - destruct kcp, (Z.ltb_spec 0 rate); simpl; try done. lia.
  - rewrite Hset by done. cbn [Z.eqb andb]. destruct (bool_decide_reflect (cfg = [])) as [->|Hne]; cbn [negb].
    + by destruct kcp.
    + destruct (ParseUint 64 cfg) as [r|] eqn:E; simpl; [|by destruct kcp].
      apply ParseUint_range in E. destruct kcp, (Z.ltb_spec 0 r); simpl; try done. lia.
Qed.

Lemma RunMain_served m e words args w s code m' :
  RunMain m e words = (m', Served args w s code) -> args = server_args e (parseTsshdArgs words).
Proof. unfold RunMain. intros H. repeat case_match; by simplify_eq. Qed.

(** C36: the arguments a server is started with are well typed whatever the
    command line: the connect timeout is positive and fits its type.  Its
    connections are paced if and only if it uses KCP and the rate of the
    command line, or without one that of the configuration, is positive. *)
Theorem server_started_with m e words args w s code m' :
  RunMain m e words = (m', Served args w s code) ->
  0 < ConnectTimeout args < 2 ^ 63 /\ 0 <= MTU args < 2 ^ 16 /\
  let given := parseTsshdArgs words in
  newWireRatePacer (KcpWireRate args) =
    let rate := if kcpWireRateSet given then KcpWireRate given
                else default 0 (ParseUint 64 (getSshdConfig (me_config e) (bs "KcpWireRate"))) in
    if KCP args && (0 <? rate) then Some (Pacer (5 * rate) 0 None) else None.
Proof.
  intros ->%RunMain_served.
  pose proof (parseTsshdArgs_ok words) as [Hm Ht Hr Hu]. cbn zeta. revert Hm Ht Hr Hu.
  generalize (parseTsshdArgs words). intros given Hm Ht Hr Hu. unfold server_args.
  destruct given as [h vs vd kcp tcp v4 v6 d att sock l view attach mtu port timeout rate set]; simpl in *.
  assert (Hv : newWireRatePacer (resolveKcpWireRate rate set (getSshdConfig (me_config e) (bs "KcpWireRate")) kcp).1 =
    let r := if set then rate else default 0 (ParseUint 64 (getSshdConfig (me_config e) (bs "KcpWireRate"))) in
    if kcp && (0 <? r) then Some (Pacer (5 * r) 0 None) else None).
  { rewrite resolveKcpWireRate_value by (lia || done). cbn zeta. destruct kcp; [|done].
    set (r := if set then rate else _).
    assert (0 <= r).
    { unfold r. destruct set; [lia|]. destruct (ParseUint 64 _) as [n|] eqn:E; simpl; [|lia].
      apply ParseUint_range in E. lia. }
    unfold newWireRatePacer. simpl. by destruct (Z.eqb_spec r 0), (Z.ltb_spec 0 r); try lia. }
  destruct (Z.leb_spec timeout 0); simpl; (split_and!; [..|exact Hv]); try done; unfold kDefaultConnectTimeout, second; lia.
Qed.

(** ** Exit functions run once, last added first *)

Inductive exit_step := AddFunc (fn : nat) | Cleanup.

Definition exit_run (s : exit_funcs) (st : exit_step) : exit_funcs :=
  match st with AddFunc fn => addOnExitFunc s fn | Cleanup => cleanupOnExit s end.

Definition added (sts : list exit_step) : list nat :=
  omap (fun st => match st with AddFunc fn => Some fn | Cleanup => None end) sts.

Lemma exit_functions_conserved sts s :
  let s' := foldl exit_run s sts in ran s' ++ onExitFuncs s' ≡ₚ ran s ++ onExitFuncs s ++ added sts.
Proof.
  revert s. induction sts as [|[fn|] sts IH]; intros s; simpl; [by rewrite app_nil_r| |]; rewrite IH; simpl.
  - by rewrite <- app_assoc.
  - by rewrite reverse_Permutation, <- app_assoc.
Qed.

(** After any additions and cleanups, one more cleanup and every function
    ever added has run exactly once, those still waiting in reverse order. *)
Theorem exit_functions_run_once sts :
  let s := foldl exit_run (ExitFuncs [] []) sts in
  let s' := cleanupOnExit s in
  ran s' = ran s ++ reverse (onExitFuncs s) /\ ran s' ≡ₚ added sts /\ cleanupOnExit s' = s'.
Proof.
  intros s s'. split_and!; [done| |].
  - pose proof (exit_functions_conserved sts (ExitFuncs [] [])) as H. simpl in H. fold s in H.
    rewrite <- H. unfold s'. simpl. by rewrite reverse_Permutation.
  - unfold cleanupOnExit. simpl. by rewrite app_nil_r.
Qed.

(** ** The watchdog *)

Lemma monitor_pass_sleep ct bt now server sleep :
  monitor_pass ct bt now server = inr sleep -> second <= sleep.
Proof. unfold monitor_pass. repeat case_match; intros [= <-]; lia. Qed.

(** A client that has gone silent: every pass sees the same last heartbeat. *)
Lemma monitor_silent ct bt now s maxlate passes :
  0 < ob_aliveTimeout s ->
  let deadline := ob_clientAliveTime s * 10 ^ 6 + ob_aliveTimeout s in
  let step := Z.max (ob_intervalTime s) second + maxlate in
  Forall (fun p => p.1 = Some s /\ 0 <= p.2 <= maxlate) passes ->
  now <= deadline + step -> passes <> [] -> deadline < now + second * (Z.of_nat (length passes) - 1) ->
  exists t, monitorServerLiveness ct bt now passes = Some (kExitCodeAliveTimeout, t) /\ deadline < t <= deadline + step.
Proof.
  intros Ha deadline step Hp. revert now. induction Hp as [|[server late] passes [Hs Hl] Hp IH]; intros now Hnow Hne Hlen; [done|].
  cbn [length] in Hlen. rewrite Nat2Z.inj_succ in Hlen. simpl in Hs, Hl. subst server. cbn [monitorServerLiveness].
  unfold monitor_pass. destruct (Z.eqb_spec (ob_aliveTimeout s) 0); [lia|].
  destruct (Z.ltb_spec (ob_aliveTimeout s) (now - ob_clientAliveTime s * 10 ^ 6)).
  - exists now. split; [done|]. unfold deadline, step in *. lia.
  - apply IH; unfold deadline, step, second in *; [lia| |lia].
    intros ->. simpl in Hlen. lia.
Qed.

(** A client that has gone silent for longer than its alive timeout ends
    the process with the code for it, at the first pass after the timeout: no
    later than one check interval, or a second. *)
Theorem silent_client_ends_server ct bt now s maxlate passes :
  0 < ob_aliveTimeout s ->
  let deadline := ob_clientAliveTime s * 10 ^ 6 + ob_aliveTimeout s in
  let step := Z.max (ob_intervalTime s) second + maxlate in
  Forall (fun p => p.1 = Some s /\ 0 <= p.2 <= maxlate) passes ->
  now <= deadline -> deadline < now + second * (Z.of_nat (length passes) - 1) ->
  exists t, monitorServerLiveness ct bt now passes = Some (kExitCodeAliveTimeout, t) /\ deadline < t <= deadline + step.
Proof.
  intros Ha deadline step Hp Hnow Hlen. apply monitor_silent; try done; (destruct passes as [|p passes]; [simpl in Hlen; unfold deadline, second in *; lia|]); [|done].
  apply Forall_cons in Hp as [[_ Hl] _]. unfold deadline, second in *. lia.
Qed.

(** ** Versions are ordered *)

Definition version_number (v : tsshdVersion) : Z := (v.1.1 * 2 ^ 32 + v.1.2) * 2 ^ 32 + v.2.

Definition version_ok (v : tsshdVersion) : Prop :=
  0 <= v.1.1 < 2 ^ 32 /\ 0 <= v.1.2 < 2 ^ 32 /\ 0 <= v.2 < 2 ^ 32.

Definition version_string (v : tsshdVersion) : bytes :=
  decimal v.1.1 ++ bs "." ++ decimal v.1.2 ++ bs "." ++ decimal v.2.

Lemma compare_number v w :
  version_ok v -> version_ok w -> compare v w = Z.sgn (version_number v - version_number w).
Proof.
  destruct v as [[v0 v1] v2], w as [[w0 w1] w2]. unfold version_ok, version_number, compare. simpl. intros Hv Hw.
  repeat match goal with |- context [?a <? ?b] => destruct (Z.ltb_spec a b) end;
    symmetry; first [apply Z.sgn_neg; lia | apply Z.sgn_pos; lia | apply Z.sgn_null; lia].
Qed.

Lemma parse_version_ok s v : parseTsshdVersion s = Some v -> version_ok v.
Proof.
  unfold parseTsshdVersion. destruct s as [|b s]; [intros [= <-]; unfold version_ok; simpl; lia|].
  destruct (Split _ _) as [|x [|y [|z [|]]]]; try done.
  destruct (ParseUint 32 x) as [vx|] eqn:Ex, (ParseUint 32 y) as [vy|] eqn:Ey, (ParseUint 32 z) as [vz|] eqn:Ez; try done.
  apply ParseUint_range in Ex, Ey, Ez. intros [= <-]. unfold version_ok. simpl. lia.
Qed.

Lemma parse_version_string v : version_ok v -> parseTsshdVersion (version_string v) = Some v.
Proof.
  destruct v as [[a b] c]. intros (Ha & Hb & Hc). simpl in *. unfold version_string, parseTsshdVersion. simpl.
  assert (Hdot : forall n, 0 <= n -> "."%char ∉ decimal n) by (intros; by apply decimal_not_in).
  destruct (decimal a ++ _) as [|x s] eqn:E.
  { apply app_eq_nil in E as [E _]. by apply decimal_fuel_ne in E; [|lia]. }
  rewrite <- E. unfold Split. rewrite split_from_sep by (apply Hdot; lia). cbn [app].
  rewrite split_from_sep, split_from_plain by (apply Hdot; lia). cbn [app].
  by rewrite !ParseUint_decimal by lia.
Qed.

(** Comparing the versions two peers announce compares them as numbers,
    most significant part first. *)
Theorem versions_compare_as_numbers v w :
  version_ok v -> version_ok w ->
  exists v' w', parseTsshdVersion (version_string v) = Some v' /\ parseTsshdVersion (version_string w) = Some w' /\
    compare v' w' = Z.sgn (version_number v - version_number w).
Proof. intros Hv Hw. exists v, w. split_and!; [by apply parse_version_string..|by apply compare_number]. Qed.

(** ** Examples *)

Definition example_env : main_env :=
  MainEnv [true] 0 (fun _ => 0) (fun _ => 0) Child
    (parseSshdConfig (Some [bs "KcpWireRate 175000"; bs "LogLevel QUIET"]) [] []) true 0.

Definition example_words : list bytes :=
  [bs "--kcp"; bs "--mtu"; bs "65536"; bs "--connect-timeout"; bs "-v1"; bs "--port"; bs "80"].

Lemma server_started_with_witness :
  exists args, RunMain false example_env example_words =
    (true, Served args false false 0) /\
  MTU args = 0 /\ ConnectTimeout args = kDefaultConnectTimeout /\ 0 < ConnectTimeout args < 2 ^ 63 /\
  newWireRatePacer (KcpWireRate args) = Some (Pacer 875000 0 None).
Proof.
  eexists. split; [vm_compute; reflexivity|]. split; [reflexivity|]. split; [reflexivity|].
  destruct (server_started_with false example_env
    example_words _ _ _ _ _ ltac:(vm_compute; reflexivity))
    as (H1 & _ & H2).
  split; [exact H1|exact H2].
Defined.

(** Heartbeats stopped at 100 s; the timeout is 100 s, the check interval 20 s. *)
Lemma silent_client_ends_server_witness :
  let s := Observed (100 * second) 100000 (20 * second) in
  exists t, monitorServerLiveness 0 0 (190 * second) (replicate 20 (Some s, 0)) = Some (kExitCodeAliveTimeout, t) /\
    200 * second < t <= 220 * second.
Proof.
  intros s. apply (silent_client_ends_server 0 0 (190 * second) s 0).
  - reflexivity.
  - repeat (apply Forall_cons_2; [simpl; split; [reflexivity|lia]|]). apply Forall_nil_2.
  - vm_compute. discriminate.
  - vm_compute. reflexivity.
Defined.

Lemma versions_compare_as_numbers_witness :
  exists v w, parseTsshdVersion (bs "0.1.10") = Some v /\ parseTsshdVersion (bs "0.1.9") = Some w /\ compare v w = 1.
Proof.
  apply (versions_compare_as_numbers (0, 1, 10) (0, 1, 9)); unfold version_ok; simpl; lia.
Defined.
