(* ===== verification/Datagram.v ===== *)
(** * Datagram: UDP forwarding ([datagram.go])

    - the forwarder that shares one datagram connection between channels
      ([udpForwarder]: [addChannel], [removeChannel], the worker, [Close]);
    - a packet connection and its choice between datagram and stream
      ([newPacketConn], [packetConn.Write], [packetConn.Close]);
    - the sessions of a UDP listener, one per peer ([udpForwardSession], the
      session and pending tables, [handleListenUdpEvent],
      [handleAcceptUdpEvent]). *)

From Stdlib Require Import ZArith Lia Ascii String.
From stdpp Require Import base list strings gmap.
From S2P Require Import Prelude.
Open Scope Z_scope.

Definition kMaxUdpForwardPendingPackets : nat := 1024.

Definition kUdpForwardChannelIdSize : nat := 8.

(** ** The forwarder *)

(** A Go channel of capacity 1024.  [ch_id] and [ch_got] are history: the id it
    was made for and everything ever queued on it. *)
Record channel := Chan {
  ch_queue : list bytes;
  ch_closed : bool;
  ch_id : Z;
  ch_got : list bytes
}.

Definition channelCapacity : nat := 1024.

(** The second goroutine of [startWorker]: its select loop, then the deferred
    function that goes on reading [closingCh], then gone. *)
Inductive worker := NotStarted | Running | Draining | Exited.

#[export] Instance worker_eq_dec : EqDecision worker.
Proof. solve_decision. Defined.

(** [channelMap] maps an id to a channel object, an index into [uf_heap].
    [uf_connErr] is set when the receiving goroutine has ended. *)
Record udpForwarder := Forwarder {
  uf_closed : bool;
  uf_worker : worker;
  channelMap : gmap Z nat;
  closingCh : list Z;
  uf_connErr : bool;
  uf_heap : list channel
}.

Definition newForwarder : udpForwarder := Forwarder false NotStarted ∅ [] false [].

Definition startWorker (f : udpForwarder) : udpForwarder :=
  match uf_worker f with
  | NotStarted => Forwarder (uf_closed f) Running (channelMap f) (closingCh f) (uf_connErr f) (uf_heap f)
  | _ => f
  end.

Definition addChannel (f : udpForwarder) (id : Z) : udpForwarder * option nat :=
  if uf_closed f then (f, None)
  else
    let f := startWorker f in
    let ch := length (uf_heap f) in
    (Forwarder (uf_closed f) (uf_worker f) (<[id := ch]> (channelMap f)) (closingCh f) (uf_connErr f)
       (uf_heap f ++ [Chan [] false id []]), Some ch).

Definition removeChannel (f : udpForwarder) (id : Z) : udpForwarder :=
  if uf_closed f then f
  else
    let f := startWorker f in
    Forwarder (uf_closed f) (uf_worker f) (channelMap f) (closingCh f ++ [id]) (uf_connErr f) (uf_heap f).

Definition close_chan (c : channel) : channel := Chan (ch_queue c) true (ch_id c) (ch_got c).

(** The non-blocking send: a full channel drops the packet. *)
Definition offer (p : bytes) (c : channel) : channel :=
  if (length (ch_queue c) <? channelCapacity)%nat
  then Chan (ch_queue c ++ [p]) (ch_closed c) (ch_id c) (ch_got c ++ [p])
  else c.

(** A datagram comes in; short ones never reach the worker. *)
Definition receiveDatagram (f : udpForwarder) (buf : bytes) : udpForwarder :=
  if (length buf <? kUdpForwardChannelIdSize)%nat then f
  else if decide (uf_worker f = Running) then
    let n := (length buf - kUdpForwardChannelIdSize)%nat in
    match channelMap f !! be_get (drop n buf) with
    | None => f
    | Some ch =>
        Forwarder (uf_closed f) (uf_worker f) (channelMap f) (closingCh f) (uf_connErr f)
          (alter (offer (take n buf)) ch (uf_heap f))
    end
  else f.

(** [LoadAndDelete] and close. *)
Definition closeId (f : udpForwarder) (id : Z) : udpForwarder :=
  match channelMap f !! id with
  | None => f
  | Some ch =>
      Forwarder (uf_closed f) (uf_worker f) (delete id (channelMap f)) (closingCh f) (uf_connErr f)
        (alter close_chan ch (uf_heap f))
  end.

(** The deferred [Range]: every channel of the map is closed. *)
Definition closeAll (f : udpForwarder) : udpForwarder :=
  Forwarder (uf_closed f) (uf_worker f) (channelMap f) (closingCh f) (uf_connErr f)
    (foldr (alter close_chan) (uf_heap f) (map_to_list (channelMap f)).*2).

Definition set_worker (w : worker) (f : udpForwarder) : udpForwarder :=
  Forwarder (uf_closed f) w (channelMap f) (closingCh f) (uf_connErr f) (uf_heap f).

Definition pop_closing (ids : list Z) (f : udpForwarder) : udpForwarder :=
  Forwarder (uf_closed f) (uf_worker f) (channelMap f) ids (uf_connErr f) (uf_heap f).

(** One step of the worker that is not a datagram; a blocked worker stays. *)
Definition worker_step (f : udpForwarder) : udpForwarder :=
  match uf_worker f with
  | Running =>
      match closingCh f with
      | id :: ids => closeId (pop_closing ids f) id
      | [] => if uf_closed f then set_worker Draining f else f
      end
  | Draining =>
      match closingCh f with
      | id :: ids => closeId (pop_closing ids f) id
      | [] => if uf_closed f then set_worker Exited (closeAll f) else f
      end
  | _ => f
  end.

(** The select loop notices that the receiving goroutine has ended; it may
    do so before it has read [closingCh]. *)
Definition worker_connErr (f : udpForwarder) : udpForwarder :=
  if decide (uf_worker f = Running) then if uf_connErr f then set_worker Draining f else f else f.

Definition sendDatagram (f : udpForwarder) (maxDatagramSize : nat) (id : Z) (buf : bytes) (sendOk : bool)
  : option bytes :=
  if uf_closed f then None
  else if (maxDatagramSize <? length buf)%nat then None
  else if sendOk then Some (buf ++ be_put kUdpForwardChannelIdSize id) else None.

(** [cancel] ends the receiving goroutine: [ReceiveDatagram] fails. *)
Definition forwarder_Close (f : udpForwarder) : udpForwarder :=
  if uf_closed f then f
  else Forwarder true (uf_worker f) (channelMap f) (closingCh f) (uf_connErr f) (uf_heap f).

(** A reader takes a packet from its channel. *)
Definition chan_recv (f : udpForwarder) (ch : nat) : udpForwarder :=
  Forwarder (uf_closed f) (uf_worker f) (channelMap f) (closingCh f) (uf_connErr f)
    (alter (fun c => Chan (tail (ch_queue c)) (ch_closed c) (ch_id c) (ch_got c)) ch (uf_heap f)).

Inductive uf_event :=
| Add (id : Z)
| Remove (id : Z)
| Incoming (buf : bytes)
| ReceiveFails
| Work
| NoticeFailure
| CloseForwarder
| Recv (ch : nat).

Definition uf_step (f : udpForwarder) (e : uf_event) : udpForwarder :=
  match e with
  | Add id => fst (addChannel f id)
  | Remove id => removeChannel f id
  | Incoming buf => if uf_connErr f then f else receiveDatagram f buf
  | ReceiveFails => Forwarder (uf_closed f) (uf_worker f) (channelMap f) (closingCh f) true (uf_heap f)
  | Work => worker_step f
  | NoticeFailure => worker_connErr f
  | CloseForwarder => forwarder_Close f
  | Recv ch => chan_recv f ch
  end.

Definition uf_run (es : list uf_event) : udpForwarder := fold_left uf_step es newForwarder.

(** ** Packet connections *)

(** [pc_forwarder]: whether the forwarder pointer is set; the forwarder itself
    is shared and passed along.  [pc_stream] likewise. *)
Record packetConn := PacketConn {
  pc_stream : bool;
  pc_forwarder : bool;
  pc_channelID : Z;
  pc_channelCh : option nat;
  pc_closed : bool;
  pc_datagramOnly : bool
}.

Definition newPacketConn (stream : bool) (id : Z) (f : option udpForwarder) : packetConn * option udpForwarder :=
  match f with
  | Some f => let '(f, ch) := addChannel f id in (PacketConn stream true id ch false false, Some f)
  | None => (PacketConn stream false id None false false, None)
  end.

(** What the calls of one [Write] find: the client is lost, the outcome of
    waiting for it, the largest datagram, and whether the sends succeed. *)
Record write_env := WriteEnv {
  we_timeout : bool;
  we_wait : option goerr;
  we_maxSize : nat;
  we_datagramOk : bool;
  we_stream : option goerr
}.

Inductive write_effect := NoEffect | ByDatagram (d : bytes) | ByStream (packet : bytes).

Definition packet_Write (c : packetConn) (f : udpForwarder) (buf : bytes) (e : write_env)
  : write_effect * option goerr :=
  let datagram :=
    if pc_forwarder c then sendDatagram f (we_maxSize e) (pc_channelID c) buf (we_datagramOk e) else None in
  if pc_datagramOnly c then
    if negb (pc_forwarder c) || uf_closed f then (NoEffect, Some ErrClosedPipe)
    else if we_timeout e then (NoEffect, None)
    else match datagram with Some d => (ByDatagram d, None) | None => (NoEffect, None) end
  else
    match (if we_timeout e then we_wait e else None) with
    | Some err => (NoEffect, Some err)
    | None =>
        match datagram with
        | Some d => (ByDatagram d, None)
        | None =>
            match we_stream e with
            | Some err => (NoEffect, Some err)
            | None => (ByStream buf, None)
            end
        end
    end.

Definition packet_Close (c : packetConn) (f : udpForwarder) : packetConn * udpForwarder :=
  if pc_closed c then (c, f)
  else (PacketConn (pc_stream c) (pc_forwarder c) (pc_channelID c) (pc_channelCh c) true (pc_datagramOnly c),
        if pc_forwarder c then removeChannel f (pc_channelID c) else f).

(** ** The sessions of a UDP listener *)

(** [us_out] is history: the packets given to [forwardConn.Write], whose errors
    [doWrite] only logs. *)
Record udpForwardSession := UdpSession {
  us_sessionKey : string;
  us_forwardConn : packetConn;
  us_pendingBuf : list bytes;
  us_pendingFlag : bool;
  us_out : list bytes
}.

Definition doWrite (s : udpForwardSession) (data : bytes) : udpForwardSession :=
  UdpSession (us_sessionKey s) (us_forwardConn s) (us_pendingBuf s) (us_pendingFlag s) (us_out s ++ [data]).

Definition writePacket (s : udpForwardSession) (data : bytes) : udpForwardSession :=
  if us_pendingFlag s then
    if (kMaxUdpForwardPendingPackets <=? length (us_pendingBuf s))%nat then s
    else UdpSession (us_sessionKey s) (us_forwardConn s) (us_pendingBuf s ++ [data]) (us_pendingFlag s) (us_out s)
  else doWrite s data.

Definition attachStream (s : udpForwardSession) : udpForwardSession :=
  let c := us_forwardConn s in
  let conn := PacketConn true (pc_forwarder c) (pc_channelID c) (pc_channelCh c) (pc_closed c) (pc_datagramOnly c) in
  let s := fold_left doWrite (us_pendingBuf s)
             (UdpSession (us_sessionKey s) conn (us_pendingBuf s) false (us_out s)) in
  UdpSession (us_sessionKey s) (us_forwardConn s) [] (us_pendingFlag s) (us_out s).

(** The part of [sshUdpServer] the UDP handlers use.  A session object is named
    by its channel id. *)
Record udp_server := UdpServer {
  nextUdpFwdChannelID : Z;
  udpFwdSessionMap : gmap string Z;
  udpFwdPendingMap : gmap Z Z;
  udp_sessions : gmap Z udpForwardSession;
  udp_forwarder : udpForwarder
}.

Definition acquireUdpForwardSession (t : udp_server) (key : string) : udp_server * Z * bool :=
  match udpFwdSessionMap t !! key with
  | Some id => (t, id, true)
  | None =>
      let id := u64 (nextUdpFwdChannelID t + 1) in
      let '(conn, f) := newPacketConn false id (Some (udp_forwarder t)) in
      (UdpServer id (<[key := id]> (udpFwdSessionMap t)) (udpFwdPendingMap t)
         (<[id := UdpSession key conn [] true []]> (udp_sessions t)) (default (udp_forwarder t) f),
       id, false)
  end.

(** [session.Close] closes the packet connection. *)
Definition releaseUdpForwardSession (t : udp_server) (id : Z) : udp_server :=
  match udp_sessions t !! id with
  | None => t
  | Some s =>
      let '(conn, f) := packet_Close (us_forwardConn s) (udp_forwarder t) in
      UdpServer (nextUdpFwdChannelID t) (delete (us_sessionKey s) (udpFwdSessionMap t)) (udpFwdPendingMap t)
        (<[id := UdpSession (us_sessionKey s) conn (us_pendingBuf s) (us_pendingFlag s) (us_out s)]> (udp_sessions t)) f
  end.

Definition addUdpFwdPendingSession (t : udp_server) (id session : Z) : udp_server :=
  UdpServer (nextUdpFwdChannelID t) (udpFwdSessionMap t) (<[id := session]> (udpFwdPendingMap t))
    (udp_sessions t) (udp_forwarder t).

Definition takeUdpFwdPendingSession (t : udp_server) (id : Z) : udp_server * option Z :=
  match udpFwdPendingMap t !! id with
  | Some session =>
      (UdpServer (nextUdpFwdChannelID t) (udpFwdSessionMap t) (delete id (udpFwdPendingMap t))
         (udp_sessions t) (udp_forwarder t), Some session)
  | None => (t, None)
  end.

Definition on_session (g : udpForwardSession -> udpForwardSession) (id : Z) (t : udp_server) : udp_server :=
  UdpServer (nextUdpFwdChannelID t) (udpFwdSessionMap t) (udpFwdPendingMap t)
    (alter g id (udp_sessions t)) (udp_forwarder t).

(** A packet in the loop of [handleListenUdpEvent], up to the accept message;
    the second result is the id announced to the client. *)
Definition listenUdp_packet (t : udp_server) (key : string) (data : bytes) : udp_server * option Z :=
  let '(t, session, exists_) := acquireUdpForwardSession t key in
  let t := on_session (fun s => writePacket s data) session t in
  if exists_ then (t, None)
  else (addUdpFwdPendingSession t session session, Some session).

(** The accept message could not be sent. *)
Definition listenUdp_sendFailed (t : udp_server) (id session : Z) : udp_server :=
  releaseUdpForwardSession (fst (takeUdpFwdPendingSession t id)) session.

Inductive accept_answer := InvalidId | AckFailed | Attached (session : Z).

(** [handleAcceptUdpEvent] up to its [Consume] loop. *)
Definition acceptUdp_begin (t : udp_server) (id : Z) (ackOk : bool) : udp_server * accept_answer :=
  match takeUdpFwdPendingSession t id with
  | (t, None) => (t, InvalidId)
  | (t, Some session) =>
      if ackOk then (on_session attachStream session t, Attached session) else (t, AckFailed)
  end.

(** [Consume] has returned: the deferred release. *)
Definition acceptUdp_end (t : udp_server) (session : Z) : udp_server := releaseUdpForwardSession t session.

(** ** The forwarder routes packets and wakes its readers *)

Definition added (es : list uf_event) : list Z :=
  es ≫= fun e => match e with Add id => [id] | _ => [] end.

(** The payloads of the datagrams tagged with an id, in order of arrival. *)
Definition tagged (id : Z) (es : list uf_event) : list bytes :=
  es ≫= fun e =>
    match e with
    | Incoming buf =>
        let n := (length buf - kUdpForwardChannelIdSize)%nat in
        if (kUdpForwardChannelIdSize <=? length buf)%nat && (be_get (drop n buf) =? id) then [take n buf] else []
    | _ => []
    end.

Record uf_inv (es : list uf_event) (f : udpForwarder) : Prop := UfInv {
  inv_open : forall ch c, uf_heap f !! ch = Some c -> ch_closed c = false -> channelMap f !! ch_id c = Some ch;
  inv_map : forall id ch, channelMap f !! id = Some ch -> exists c, uf_heap f !! ch = Some c /\ ch_id c = id;
  inv_added : forall id ch, channelMap f !! id = Some ch -> id ∈ added es;
  inv_start : uf_worker f = NotStarted -> uf_heap f = [];
  inv_exit : uf_worker f = Exited -> uf_closed f = true /\ Forall (fun c => ch_closed c = true) (uf_heap f);
  inv_got : Forall (fun c => ch_got c `sublist_of` tagged (ch_id c) es) (uf_heap f)
}.

(** An update of one channel that keeps its id and whether it is closed. *)
Lemma alter_lookup (g : channel -> channel) i j (h : list channel) c :
  alter g i h !! j = Some c -> exists c0, h !! j = Some c0 /\ (c = c0 /\ i <> j \/ c = g c0 /\ i = j).
Proof.
  destruct (decide (i = j)) as [->|Hne].
  - rewrite list_lookup_alter_eq. intros (c0 & Hc0 & ->)%fmap_Some. eauto.
  - rewrite list_lookup_alter_ne by done. eauto.
Qed.

Lemma alter_lookup_same (g : channel -> channel) i j (h : list channel) c :
  (forall c, ch_id (g c) = ch_id c) ->
  h !! j = Some c -> exists c', alter g i h !! j = Some c' /\ ch_id c' = ch_id c.
Proof.
  intros Hg Hc. destruct (decide (i = j)) as [->|Hne].
  - rewrite list_lookup_alter_eq, Hc. simpl. eauto.
  - rewrite list_lookup_alter_ne by done. eauto.
Qed.

Lemma tagged_app id es1 es2 : tagged id (es1 ++ es2) = tagged id es1 ++ tagged id es2.
Proof. apply bind_app. Qed.

Lemma added_app es1 es2 : added (es1 ++ es2) = added es1 ++ added es2.
Proof. apply bind_app. Qed.

(** The history only grows. *)
Lemma uf_inv_weaken es e f : uf_inv es f -> uf_inv (es ++ [e]) f.
Proof.
  intros [H1 H2 H3 H4 H5 H6]. split; try done.
  - intros id ch H%H3. rewrite added_app. set_solver.
  - eapply Forall_impl; [exact H6|]. intros c Hc. simpl. rewrite tagged_app. by apply sublist_inserts_r.
Qed.

(** Changes to the fields that the invariant reads only through the worker. *)
Lemma uf_inv_fields es f f' :
  uf_inv es f -> channelMap f' = channelMap f -> uf_heap f' = uf_heap f ->
  (uf_worker f' = uf_worker f \/ uf_worker f' <> NotStarted /\ uf_worker f' <> Exited) ->
  (uf_closed f = true -> uf_closed f' = true) -> uf_inv es f'.
Proof.
  intros [H1 H2 H3 H4 H5 H6] Hm Hh Hw Hc. split; rewrite ?Hm, ?Hh; try done.
  - intros Hw'. destruct Hw as [Hw|[? _]]; [|done]. apply H4. congruence.
  - intros Hw'. destruct Hw as [Hw|[_ ?]]; [|done]. destruct H5; [congruence|]. auto.
Qed.

(** A change of one channel that closes nothing. *)
Lemma uf_inv_alter es f g ch :
  uf_inv es f -> (forall c, ch_id (g c) = ch_id c) -> (forall c, ch_closed (g c) = ch_closed c) ->
  (forall c, uf_heap f !! ch = Some c -> ch_got c `sublist_of` tagged (ch_id c) es ->
     ch_got (g c) `sublist_of` tagged (ch_id c) es) ->
  uf_inv es (Forwarder (uf_closed f) (uf_worker f) (channelMap f) (closingCh f) (uf_connErr f)
               (alter g ch (uf_heap f))).
Proof.
  intros [H1 H2 H3 H4 H5 H6] Hid Hcl Hgot. split; simpl; try done.
  - intros j c (c0 & Hc0 & [[-> _]|[-> _]])%alter_lookup; [by apply H1|]. rewrite Hcl, Hid. by apply H1.
  - intros id j (c & Hc & <-)%H2. by apply alter_lookup_same.
  - intros ->%H4. done.
  - intros [Hc Hall]%H5. split; [done|]. apply Forall_lookup. intros j c (c0 & Hc0 & Hor)%alter_lookup.
    rewrite Forall_lookup in Hall. apply Hall in Hc0. destruct Hor as [[-> _]|[-> _]]; [done|]. by rewrite Hcl.
  - rewrite Forall_lookup in *. intros j c (c0 & Hc0 & [[-> _]|[-> ->]])%alter_lookup; [by apply H6 in Hc0|].
    rewrite Hid. eauto.
Qed.

Lemma uf_inv_closeId es f id : uf_inv es f -> uf_inv es (closeId f id).
Proof.
  intros Hinv. pose proof Hinv as [H1 H2 H3 H4 H5 H6]. unfold closeId.
  destruct (channelMap f !! id) as [ch|] eqn:Hid; [|done]. split; simpl.
  - intros j c (c0 & Hc0 & [[-> Hne]|[-> ->]])%alter_lookup Hopen; [|done].
    assert (Hj : channelMap f !! ch_id c0 = Some j) by by apply H1.
    rewrite lookup_delete_ne; [done|]. intros ->. congruence.
  - intros i j [_ (c & Hc & <-)%H2]%lookup_delete_Some. by apply alter_lookup_same.
  - intros i j [_ Hi]%lookup_delete_Some. eauto.
  - intros ->%H4. done.
  - intros [Hc Hall]%H5. split; [done|]. rewrite Forall_lookup in *.
    intros j c (c0 & Hc0 & [[-> _]|[-> _]])%alter_lookup; [by eapply Hall|done].
  - rewrite Forall_lookup in *. intros j c (c0 & Hc0 & [[-> _]|[-> _]])%alter_lookup; by apply H6 in Hc0.
Qed.

Lemma closeAll_lookup chs (h : list channel) j c :
  foldr (alter close_chan) h chs !! j = Some c ->
  exists c0, h !! j = Some c0 /\ ch_id c = ch_id c0 /\ ch_got c = ch_got c0 /\
    (ch_closed c = false -> c = c0 /\ j ∉ chs).
Proof.
  revert c. induction chs as [|i chs IH]; simpl; intros c.
  { intros Hc. exists c. split_and!; try done. intros _. split; [done|]. apply not_elem_of_nil. }
  intros (c1 & (c0 & Hc0 & Hi & Hg & Ho)%IH & [[-> Hne]|[-> ->]])%alter_lookup; exists c0; split_and!; try done.
  intros [-> Hj]%Ho. split; [done|]. apply not_elem_of_cons. split; [congruence|done].
Qed.

Lemma uf_inv_closeAll es f : uf_inv es f -> uf_closed f = true -> uf_inv es (set_worker Exited (closeAll f)).
Proof.
  intros [H1 H2 H3 H4 H5 H6] Hclosed.
  assert (Hall : forall j c, uf_heap (closeAll f) !! j = Some c -> ch_closed c = true).
  { intros j c (c0 & Hc0 & Hi & _ & Ho)%closeAll_lookup. destruct (ch_closed c) eqn:Hc; [done|].
    destruct (Ho eq_refl) as [-> Hj]. exfalso. apply Hj. apply (list_elem_of_fmap_2' _ _ (ch_id c0, j)); [|done].
    apply elem_of_map_to_list. by apply H1. }
  split; simpl; try done.
  - intros j c Hc Hopen. apply Hall in Hc. congruence.
  - intros id j (c & Hc & <-)%H2.
    clear -Hc. induction ((map_to_list (channelMap f)).*2) as [|i l IH]; simpl; [eauto|].
    destruct IH as (c' & Hc' & <-). by apply alter_lookup_same.
  - intros _. split; [done|]. apply Forall_lookup. exact Hall.
  - rewrite Forall_lookup in *. intros j c (c0 & Hc0 & -> & -> & _)%closeAll_lookup. by apply H6 in Hc0.
Qed.

Lemma uf_inv_start es f : uf_inv es f -> uf_inv es (startWorker f).
Proof.
  intros H. unfold startWorker. destruct (uf_worker f) eqn:E; try done.
  by apply (uf_inv_fields es f); try done; right.
Qed.

Lemma uf_inv_addChannel es f id :
  uf_inv es f -> id ∉ added es -> uf_inv (es ++ [Add id]) (fst (addChannel f id)).
Proof.
  intros H Hid. unfold addChannel. destruct (uf_closed f) eqn:Hclosed; [by apply uf_inv_weaken|].
  assert (Hnot : uf_worker (startWorker f) <> NotStarted) by (unfold startWorker; destruct (uf_worker f) eqn:E; simpl; congruence).
  assert (Hopen : uf_closed (startWorker f) = false) by (unfold startWorker; by destruct (uf_worker f)).
  apply uf_inv_start in H. pose proof (inv_added _ _ H) as H3.
  apply (uf_inv_weaken _ (Add id)) in H as [H1 H2 H3' H4 H5 H6]. split; simpl; try done.
  - intros j c [Hj|[Hlen Hc]]%lookup_app_Some Ho.
    + apply (H1 j c) in Ho as Hm; [|done]. rewrite lookup_insert_ne; [done|]. intros E. rewrite <- E in Hm. by apply H3 in Hm.
    + apply list_lookup_singleton_Some in Hc as [? <-]. simpl.
      rewrite lookup_insert_eq. f_equal. lia.
  - intros i j [[<- <-]|[Hne (c & Hc & <-)%H2]]%lookup_insert_Some.
    + exists (Chan [] false id []). split; [|done]. by rewrite lookup_app_r, Nat.sub_diag by lia.
    + exists c. split; [|done]. by apply lookup_app_l_Some.
  - intros i j [[<- _]|[_ Hi%H3']]%lookup_insert_Some; [|done]. rewrite added_app. set_solver.
  - intros [? _]%H5. congruence.
  - apply Forall_app. split; [done|]. constructor; [apply sublist_nil_l|done].
Qed.

Lemma uf_inv_receive es f buf : uf_inv es f -> uf_inv (es ++ [Incoming buf]) (receiveDatagram f buf).
Proof.
  intros H. apply (uf_inv_weaken _ (Incoming buf)) in H as H'. unfold receiveDatagram.
  destruct (Nat.ltb_spec (length buf) kUdpForwardChannelIdSize) as [|Hlen]; [done|].
  destruct (decide _); [|done]. destruct (channelMap f !! _) as [ch|] eqn:Hch; [|done].
  apply uf_inv_alter; [done|intros c; unfold offer; by case_match..|].
  intros c Hc Hgot. destruct (inv_map _ _ H _ _ Hch) as (c' & Hc' & Hid). simplify_eq.
  assert (Hgot0 : ch_got c `sublist_of` tagged (ch_id c) es).
  { pose proof (inv_got _ _ H) as Hall. rewrite Forall_lookup in Hall. by apply Hall in Hc. }
  unfold offer. case_match; [|done]. simpl. rewrite tagged_app. apply sublist_app; [done|].
  unfold tagged. cbn [mbind list_bind]. rewrite app_nil_r, Hid, Z.eqb_refl, (proj2 (Nat.leb_le _ _)) by done. done.
Qed.

Lemma uf_inv_work es f : uf_inv es f -> uf_inv es (worker_step f).
Proof.
  intros H.
  assert (Hpop : forall ids, uf_inv es (pop_closing ids f)) by (intros ids; apply (uf_inv_fields es f); eauto).
  unfold worker_step. destruct (uf_worker f) eqn:Hw; try done; destruct (closingCh f).
  1, 3: destruct (uf_closed f) eqn:Hc; [|done].
  - by apply (uf_inv_fields es f); eauto.
  - by apply uf_inv_closeAll.
  - by apply uf_inv_closeId.
  - by apply uf_inv_closeId.
Qed.

Lemma uf_inv_step es f e :
  uf_inv es f -> NoDup (added (es ++ [e])) -> uf_inv (es ++ [e]) (uf_step f e).
Proof.
  intros H Hnd. rewrite added_app in Hnd. apply NoDup_app in Hnd as (_ & Hd & _).
  apply (uf_inv_weaken _ e) in H as H'.
  destruct e as [id|id|buf| | | | |ch]; simpl.
  - apply uf_inv_addChannel; [done|]. intros Hin. apply (Hd id Hin). simpl. set_solver.
  - unfold removeChannel. destruct (uf_closed f) eqn:E; [done|].
    by apply (uf_inv_fields _ (startWorker f)); auto using uf_inv_start.
  - destruct (uf_connErr f); [done|]. by apply uf_inv_receive.
  - by apply (uf_inv_fields _ f); auto.
  - by apply uf_inv_work.
  - unfold worker_connErr. repeat case_match; try done. by apply (uf_inv_fields _ f); auto.
  - unfold forwarder_Close. destruct (uf_closed f) eqn:E; [done|]. by apply (uf_inv_fields _ f); auto.
  - by apply uf_inv_alter.
Qed.

Lemma uf_run_inv es : NoDup (added es) -> uf_inv es (uf_run es).
Proof.
  induction es as [|e es IH] using rev_ind; intros Hnd.
  { split; simpl; try done. }
  unfold uf_run. rewrite fold_left_app. apply uf_inv_step; [|done].
  apply IH. rewrite added_app in Hnd. by apply NoDup_app in Hnd as [? _].
Qed.

(** What a channel has ever been given is, in order and without
    repetition, payloads of datagrams tagged with the id it was opened for:
    nothing is delivered to the wrong channel. *)
Theorem datagrams_stay_in_channel es ch c :
  NoDup (added es) -> uf_heap (uf_run es) !! ch = Some c -> ch_got c `sublist_of` tagged (ch_id c) es.
Proof. intros Hnd Hc. pose proof (inv_got _ _ (uf_run_inv es Hnd)) as H. rewrite Forall_lookup in H. by apply H in Hc. Qed.

(** A datagram sent for an id carries at most the connection's limit and
    the 8-byte tag, and at the other end its payload is queued on the open
    channel of that id, if there is room, and on no other. *)
Theorem datagram_reaches_channel f maxSize id buf d g ch c :
  0 <= id < 2 ^ 64 -> sendDatagram f maxSize id buf true = Some d ->
  uf_worker g = Running -> channelMap g !! id = Some ch -> uf_heap g !! ch = Some c ->
  (length (ch_queue c) < channelCapacity)%nat ->
  (length d <= maxSize + kUdpForwardChannelIdSize)%nat /\
  uf_heap (receiveDatagram g d) =
    <[ch := Chan (ch_queue c ++ [buf]) (ch_closed c) (ch_id c) (ch_got c ++ [buf])]> (uf_heap g).
Proof.
  intros Hid Hs Hw Hm Hc Hroom. unfold sendDatagram in Hs. destruct (uf_closed f); [done|].
  destruct (Nat.ltb_spec maxSize (length buf)) as [|Hlen]; [done|].
  assert (d = buf ++ be_put kUdpForwardChannelIdSize id) as -> by congruence.
  assert (Hl : length (buf ++ be_put kUdpForwardChannelIdSize id) = (length buf + kUdpForwardChannelIdSize)%nat)
    by by rewrite length_app, length_be_put.
  split; [lia|]. unfold receiveDatagram. rewrite Hl.
  rewrite (proj2 (Nat.ltb_ge _ _)) by lia. rewrite Hw, decide_True by done.
  rewrite Nat.add_sub, drop_app_length, take_app_length, be_get_put_small
    by (change (256 ^ Z.of_nat kUdpForwardChannelIdSize) with (2 ^ 64); lia).
  rewrite Hm. simpl. apply list_eq. intros j. destruct (decide (ch = j)) as [->|Hne].
  - rewrite list_lookup_alter_eq, Hc, list_lookup_insert_eq by (by eapply lookup_lt_Some).
    simpl. unfold offer. by rewrite (proj2 (Nat.ltb_lt _ _)).
  - by rewrite list_lookup_alter_ne, list_lookup_insert_ne.
Qed.

Lemma closeId_fields f id :
  uf_worker (closeId f id) = uf_worker f /\ closingCh (closeId f id) = closingCh f /\ uf_closed (closeId f id) = uf_closed f.
Proof. unfold closeId. by destruct (channelMap f !! id). Qed.

Lemma Close_fields f : uf_closed (forwarder_Close f) = true /\ closingCh (forwarder_Close f) = closingCh f.
Proof. unfold forwarder_Close. by destruct (uf_closed f) eqn:E. Qed.

(** A closed forwarder's worker exits, or had never started. *)
Lemma worker_exits n f :
  uf_closed f = true -> (length (closingCh f) + 2 <= n)%nat ->
  uf_worker (fold_left uf_step (replicate n Work) f) ∈ [Exited; NotStarted].
Proof.
  assert (Hstay : forall n f, uf_worker f ∈ [Exited; NotStarted] ->
            uf_worker (fold_left uf_step (replicate n Work) f) ∈ [Exited; NotStarted]).
  { clear. induction n as [|n IH]; intros f Hf; [done|]. simpl. apply IH.
    assert (worker_step f = f) as ->; [|done]. unfold worker_step.
    apply elem_of_cons in Hf as [Hf|Hf%list_elem_of_singleton]; by rewrite Hf. }
  revert f. induction n as [|n IH]; intros f Hc Hn; [lia|]. simpl.
  destruct (uf_worker f) eqn:Hw; try (apply Hstay; unfold worker_step; rewrite Hw; rewrite Hw; set_solver).
  - unfold worker_step. rewrite Hw. destruct (closingCh f) as [|id ids] eqn:Hcl.
    + rewrite Hc. simpl in Hn. destruct n as [|n]; [lia|]. simpl. apply Hstay.
      unfold worker_step. simpl. rewrite Hcl, Hc. set_solver.
    + destruct (closeId_fields (pop_closing ids f) id) as (_ & E2 & E3).
      apply IH; rewrite ?E2, ?E3; simpl in *; [done|lia].
  - unfold worker_step. rewrite Hw. destruct (closingCh f) as [|id ids] eqn:Hcl.
    + rewrite Hc. apply Hstay. simpl. set_solver.
    + destruct (closeId_fields (pop_closing ids f) id) as (_ & E2 & E3).
      apply IH; rewrite ?E2, ?E3; simpl in *; [done|lia].
Qed.

(** Closing the forwarder ends every reader.  Whatever happened before,
    the worker then needs only as many steps as there are ids left to remove,
    and two more, to close every channel that was ever opened. *)
Theorem close_wakes_readers es n :
  NoDup (added es) -> (length (closingCh (uf_run es)) + 2 <= n)%nat ->
  Forall (fun c => ch_closed c = true) (uf_heap (uf_run (es ++ CloseForwarder :: replicate n Work))).
Proof.
  intros Hnd Hn.
  assert (Hadd : added (es ++ CloseForwarder :: replicate n Work) = added es).
  { rewrite added_app. unfold added. simpl. rewrite <- (app_nil_r (_ es)) at 2. f_equal. clear. by induction n. }
  pose proof (uf_run_inv (es ++ CloseForwarder :: replicate n Work)) as Hinv. rewrite Hadd in Hinv.
  specialize (Hinv Hnd).
  assert (Hw : uf_worker (uf_run (es ++ CloseForwarder :: replicate n Work)) ∈ [Exited; NotStarted]).
  { unfold uf_run in *. rewrite fold_left_app. cbn [fold_left].
    destruct (Close_fields (fold_left uf_step es newForwarder)) as [E1 E2].
    apply worker_exits; cbn [uf_step]; by rewrite ?E1, ?E2. }
  apply elem_of_cons in Hw as [Hw|Hw%list_elem_of_singleton].
  - by apply (inv_exit _ _ Hinv).
  - by rewrite (inv_start _ _ Hinv Hw).
Qed.

(** ** Packets are not lost silently *)

(** An ordinary packet connection either hands the packet over whole,
    tagged in a datagram or on the stream, or reports an error.  Only a
    datagram-only connection drops a packet without one, and it never uses
    the stream. *)
Theorem packet_write_outcome c f buf e :
  match packet_Write c f buf e with
  | (ByDatagram d, err) => err = None /\ d = buf ++ be_put kUdpForwardChannelIdSize (pc_channelID c)
  | (ByStream p, err) => err = None /\ p = buf /\ pc_datagramOnly c = false
  | (NoEffect, None) => pc_datagramOnly c = true /\ uf_closed f = false
  | (NoEffect, Some err) => pc_datagramOnly c = true -> err = ErrClosedPipe
  end.
Proof.
  unfold packet_Write, sendDatagram.
  destruct (pc_datagramOnly c), (pc_forwarder c), (uf_closed f), (we_timeout e); simpl; try done;
    destruct (we_wait e), (we_stream e), (we_maxSize e <? length buf)%nat, (we_datagramOk e); done.
Qed.

(** ** Sessions of a UDP listener *)

Lemma writePacket_fields s data :
  us_sessionKey (writePacket s data) = us_sessionKey s /\ us_pendingFlag (writePacket s data) = us_pendingFlag s.
Proof. unfold writePacket. by repeat case_match. Qed.

Lemma writePacket_key s packets : us_sessionKey (fold_left writePacket packets s) = us_sessionKey s.
Proof.
  revert s. induction packets as [|p packets IH]; intros s; [done|]. simpl. rewrite IH. apply writePacket_fields.
Qed.

(** While it is pending a session keeps the first packets. *)
Lemma writePacket_pending s packets :
  us_pendingFlag s = true -> (length (us_pendingBuf s) <= kMaxUdpForwardPendingPackets)%nat ->
  let s' := fold_left writePacket packets s in
  us_pendingFlag s' = true /\ us_out s' = us_out s /\
  us_pendingBuf s' = take kMaxUdpForwardPendingPackets (us_pendingBuf s ++ packets).
Proof.
  revert s. induction packets as [|p packets IH]; intros s Hf Hl; cbn [fold_left].
  { split_and!; [done..|]. by rewrite app_nil_r, take_ge. }
  unfold writePacket at 2 4 6. rewrite Hf.
  destruct (Nat.leb_spec kMaxUdpForwardPendingPackets (length (us_pendingBuf s))) as [Hge|Hlt].
  - destruct (IH s Hf Hl) as (? & ? & ->). split_and!; [done..|]. by rewrite !take_app_le by lia.
  - edestruct IH as (? & ? & E); [| |split_and!; [done..|]]; [done| |].
    + simpl. rewrite length_app. simpl. lia.
    + rewrite E. simpl. by rewrite <- app_assoc.
Qed.

Lemma writePacket_attached s packets :
  us_pendingFlag s = false -> us_out (fold_left writePacket packets s) = us_out s ++ packets.
Proof.
  revert s. induction packets as [|p packets IH]; intros s Hf; cbn [fold_left]; [by rewrite app_nil_r|].
  rewrite IH by (unfold writePacket; by rewrite Hf). unfold writePacket. rewrite Hf. simpl. by rewrite <- app_assoc.
Qed.

Lemma doWrite_fold s packets :
  fold_left doWrite packets s =
  UdpSession (us_sessionKey s) (us_forwardConn s) (us_pendingBuf s) (us_pendingFlag s) (us_out s ++ packets).
Proof.
  revert s. induction packets as [|p packets IH]; intros s; simpl; [rewrite app_nil_r; by destruct s|].
  rewrite IH. simpl. by rewrite <- app_assoc.
Qed.

Lemma attachStream_out s :
  us_pendingFlag (attachStream s) = false /\ us_sessionKey (attachStream s) = us_sessionKey s /\
  us_out (attachStream s) = us_out s ++ us_pendingBuf s.
Proof. unfold attachStream. rewrite doWrite_fold. done. Qed.

(** The tables: a mapped key names its own session, with an id already
    issued. *)
Definition udp_wf (t : udp_server) : Prop :=
  0 <= nextUdpFwdChannelID t /\
  forall key id, udpFwdSessionMap t !! key = Some id ->
    id <= nextUdpFwdChannelID t /\ exists s, udp_sessions t !! id = Some s /\ us_sessionKey s = key.

Definition packets_from (packets : list (string * bytes)) (t : udp_server) : udp_server :=
  fold_left (fun t p => fst (listenUdp_packet t p.1 p.2)) packets t.

Definition packets_of (key : string) (packets : list (string * bytes)) : list bytes :=
  packets ≫= fun p => if decide (p.1 = key) then [p.2] else [].

Lemma udp_wf_on_session t g id :
  udp_wf t -> (forall s, us_sessionKey (g s) = us_sessionKey s) -> udp_wf (on_session g id t).
Proof.
  intros [H0 H] Hg. split; [done|]. intros key i (Hle & s & Hs & Hk)%H. split; [done|]. simpl.
  destruct (decide (id = i)) as [->|Hne].
  - exists (g s). rewrite lookup_alter_eq, Hs, Hg. done.
  - exists s. by rewrite lookup_alter_ne.
Qed.

(** What a packet from a new peer does. *)
Lemma listenUdp_new t key data :
  udp_wf t -> nextUdpFwdChannelID t + 1 < 2 ^ 64 -> udpFwdSessionMap t !! key = None ->
  let id := nextUdpFwdChannelID t + 1 in
  let '(t', ann) := listenUdp_packet t key data in
  ann = Some id /\ nextUdpFwdChannelID t' = id /\
  udpFwdSessionMap t' = <[key := id]> (udpFwdSessionMap t) /\
  udpFwdPendingMap t' = <[id := id]> (udpFwdPendingMap t) /\
  exists conn, udp_sessions t' = <[id := UdpSession key conn [data] true []]> (udp_sessions t).
Proof.
  intros [H0 _] Hlt Hnone. unfold listenUdp_packet, acquireUdpForwardSession, newPacketConn.
  rewrite Hnone, (uwrap_small 64) by lia. destruct (addChannel _ _) as [f ch]. simpl.
  split_and!; [done..|]. exists (PacketConn false true (nextUdpFwdChannelID t + 1) ch false false).
  by rewrite alter_insert_eq.
Qed.

Lemma listenUdp_known t key id data :
  udpFwdSessionMap t !! key = Some id ->
  listenUdp_packet t key data = (on_session (fun s => writePacket s data) id t, None).
Proof. intros H. unfold listenUdp_packet, acquireUdpForwardSession. by rewrite H. Qed.

Lemma udp_wf_packet t key data :
  udp_wf t -> nextUdpFwdChannelID t + 1 < 2 ^ 64 ->
  udp_wf (fst (listenUdp_packet t key data)) /\
  nextUdpFwdChannelID (fst (listenUdp_packet t key data)) <= nextUdpFwdChannelID t + 1.
Proof.
  intros Hwf Hlt. destruct (udpFwdSessionMap t !! key) as [id|] eqn:Hk.
  - rewrite (listenUdp_known _ _ id) by done. simpl. split; [|lia].
    apply udp_wf_on_session; [done|]. intros s. apply writePacket_fields.
  - pose proof (listenUdp_new t key data Hwf Hlt Hk) as Hnew.
    destruct (listenUdp_packet t key data) as [t' ann]. destruct Hnew as (_ & Hn & Hm & _ & conn & Hs).
    destruct Hwf as [H0 H]. simpl. split; [|lia]. split; [lia|]. rewrite Hm, Hs, Hn.
    intros k i [[<- <-]|[Hne (Hle & s & Hs' & Hkey)%H]]%lookup_insert_Some.
    + split; [lia|]. eexists. by rewrite lookup_insert_eq.
    + split; [lia|]. exists s. rewrite lookup_insert_ne by lia. done.
Qed.

(** Packets change a peer's session only by the packets of that peer. *)
Lemma packets_from_session packets t key id s :
  udp_wf t -> nextUdpFwdChannelID t + Z.of_nat (length packets) < 2 ^ 64 ->
  udpFwdSessionMap t !! key = Some id -> udp_sessions t !! id = Some s ->
  let t' := packets_from packets t in
  udp_wf t' /\ nextUdpFwdChannelID t' <= nextUdpFwdChannelID t + Z.of_nat (length packets) /\
  udpFwdSessionMap t' !! key = Some id /\
  udp_sessions t' !! id = Some (fold_left writePacket (packets_of key packets) s) /\
  udpFwdPendingMap t' !! id = udpFwdPendingMap t !! id.
Proof.
  revert t s. induction packets as [|[k data] packets IH]; intros t s Hwf Hlt Hk Hs t'.
  { unfold t'. simpl in *. split_and!; try done; lia. }
  cbn [length] in Hlt. assert (Hlt1 : nextUdpFwdChannelID t + 1 < 2 ^ 64) by lia.
  destruct (udp_wf_packet t k data Hwf Hlt1) as [Hwf' Hn].
  destruct (proj2 Hwf _ _ Hk) as (Hle & s0 & Hs0 & Hkey). simplify_eq.
  assert (Hstep : udpFwdSessionMap (fst (listenUdp_packet t k data)) !! us_sessionKey s = Some id /\
    udp_sessions (fst (listenUdp_packet t k data)) !! id =
      Some (if decide (k = us_sessionKey s) then writePacket s data else s) /\
    udpFwdPendingMap (fst (listenUdp_packet t k data)) !! id = udpFwdPendingMap t !! id).
  { destruct (udpFwdSessionMap t !! k) as [i|] eqn:Hi.
    - rewrite (listenUdp_known _ _ i) by done. simpl. split_and!; [done| |done].
      destruct (decide (k = us_sessionKey s)) as [->|Hne].
      + assert (i = id) as -> by congruence. by rewrite lookup_alter_eq, Hs.
      + rewrite lookup_alter_ne; [done|]. intros ->.
        destruct (proj2 Hwf _ _ Hi) as (_ & s1 & Hs1 & <-). congruence.
    - pose proof (listenUdp_new t k data Hwf Hlt1 Hi) as Hnew.
      destruct (listenUdp_packet t k data) as [t1 ann]. destruct Hnew as (_ & _ & Hm & Hp & conn & Hs1). simpl.
      rewrite Hm, Hp, Hs1, !lookup_insert_ne by (lia || congruence).
      rewrite decide_False by congruence. done. }
  destruct Hstep as (Hk1 & Hs1 & Hp1).
  destruct (IH _ _ Hwf' ltac:(lia) Hk1 Hs1) as (? & ? & ? & E & Hp). unfold t', packets_from in *. simpl.
  split_and!; [done|lia|done| |congruence]. rewrite E. unfold packets_of. simpl.
  by destruct (decide (k = us_sessionKey s)).
Qed.

(** A new peer of a UDP listener is announced to the client under a fresh
    id.  Once the client accepts the id, the session has been given, in order
    of arrival, the first 1024 packets the peer sent before and all it sends
    afterwards; packets of other peers in between make no difference. *)
Theorem udp_peer_flow t key data before after :
  udp_wf t -> nextUdpFwdChannelID t + 1 + Z.of_nat (length before + length after) < 2 ^ 64 ->
  udpFwdSessionMap t !! key = None ->
  let '(t1, ann) := listenUdp_packet t key data in
  exists id, ann = Some id /\ nextUdpFwdChannelID t < id /\
    let '(t2, answer) := acceptUdp_begin (packets_from before t1) id true in
    answer = Attached id /\
    us_out <$> udp_sessions (packets_from after t2) !! id =
      Some (take kMaxUdpForwardPendingPackets (data :: packets_of key before) ++ packets_of key after).
Proof.
  intros Hwf Hlt Hnone. pose proof (listenUdp_new t key data Hwf ltac:(lia) Hnone) as Hnew.
  destruct (udp_wf_packet t key data Hwf ltac:(lia)) as [Hwf1 _].
  destruct (listenUdp_packet t key data) as [t1 ann]. destruct Hnew as (-> & Hn & Hm & Hp & conn & Hs).
  set (id := nextUdpFwdChannelID t + 1) in *. exists id. split; [done|]. split; [lia|]. simpl in Hwf1.
  destruct (packets_from_session before t1 key id (UdpSession key conn [data] true []))
    as (Hwf2 & Hn2 & Hm2 & Hs2 & Hp2); [done|lia|by rewrite Hm, lookup_insert_eq|by rewrite Hs, lookup_insert_eq|].
  rewrite Hp, lookup_insert_eq in Hp2. unfold acceptUdp_begin, takeUdpFwdPendingSession. rewrite Hp2.
  split; [done|].
  destruct (writePacket_pending (UdpSession key conn [data] true []) (packets_of key before)) as (_ & Ho & Hb);
    [done|simpl; unfold kMaxUdpForwardPendingPackets; lia|].
  set (s := fold_left writePacket _ _) in *. destruct (attachStream_out s) as (Hf & _ & Hout).
  edestruct (packets_from_session after) as (_ & _ & _ & -> & _).
  5: { simpl. rewrite writePacket_attached, Hout, Ho, Hb by done. done. }
  - apply udp_wf_on_session; [exact Hwf2|]. intros s'. apply attachStream_out.
  - simpl. lia.
  - exact Hm2.
  - simpl. by rewrite lookup_alter_eq, Hs2.
Qed.

(** When the acknowledgement of an accept fails, the handler returns
    without releasing the session it has just taken.  From then on that peer
    is cut off: however many packets come, nothing is forwarded, no new accept
    is announced, and the id cannot be accepted again. *)
Theorem unacked_accept_starves_peer t key data later :
  udp_wf t -> nextUdpFwdChannelID t + 1 + Z.of_nat (length later) < 2 ^ 64 ->
  udpFwdSessionMap t !! key = None ->
  let '(t1, ann) := listenUdp_packet t key data in
  exists id, ann = Some id /\
    let '(t2, answer) := acceptUdp_begin t1 id false in
    let t3 := packets_from later t2 in
    answer = AckFailed /\ us_out <$> udp_sessions t3 !! id = Some [] /\
    acceptUdp_begin t3 id true = (t3, InvalidId) /\
    forall data', snd (listenUdp_packet t3 key data') = None.
Proof.
  intros Hwf Hlt Hnone. pose proof (listenUdp_new t key data Hwf ltac:(lia) Hnone) as Hnew.
  destruct (udp_wf_packet t key data Hwf ltac:(lia)) as [Hwf1 _].
  destruct (listenUdp_packet t key data) as [t1 ann]. destruct Hnew as (-> & Hn & Hm & Hp & conn & Hs).
  set (id := nextUdpFwdChannelID t + 1) in *. exists id. split; [done|]. simpl in Hwf1.
  unfold acceptUdp_begin at 1, takeUdpFwdPendingSession. rewrite Hp, lookup_insert_eq.
  set (t2 := UdpServer _ _ _ _ _).
  destruct (packets_from_session later t2 key id (UdpSession key conn [data] true []))
    as (_ & _ & Hm2 & Hs2 & Hp2);
    [exact Hwf1|simpl; lia|simpl; by rewrite Hm, lookup_insert_eq|simpl; by rewrite Hs, lookup_insert_eq|].
  simpl in Hp2. rewrite lookup_delete_eq in Hp2.
  split_and!; [done| | |].
  - rewrite Hs2. simpl.
    by destruct (writePacket_pending (UdpSession key conn [data] true []) (packets_of key later)) as (_ & -> & _);
      [|simpl; unfold kMaxUdpForwardPendingPackets; lia|].
  - unfold acceptUdp_begin, takeUdpFwdPendingSession. by rewrite Hp2.
  - intros data'. by rewrite (listenUdp_known _ _ id).
Qed.

(** ** The properties at work *)

Module Flow.
Definition tag (id : Z) (p : string) : bytes := bs p ++ be_put kUdpForwardChannelIdSize id.
Definition events : list uf_event :=
  [Add 1; Add 2; Incoming (tag 1 "a"); Incoming (tag 2 "b"); Incoming (bs "x"); Incoming (tag 1 "c"); Recv 0; Remove 2].
Definition server : udp_server := UdpServer 0 ∅ ∅ ∅ newForwarder.

Lemma events_fresh : NoDup (added events).
Proof. apply (bool_decide_unpack _). vm_compute. exact I. Qed.

Lemma server_wf : udp_wf server.
Proof. split; [done|]. intros key id H. simpl in H. by rewrite lookup_empty in H. Qed.
End Flow.

Lemma datagrams_stay_in_channel_witness : [bs "a"; bs "c"] `sublist_of` tagged 1 Flow.events.
Proof.
  apply (datagrams_stay_in_channel Flow.events 0 (Chan [bs "c"] false 1 [bs "a"; bs "c"]));
    [apply Flow.events_fresh|reflexivity].
Defined.

Lemma datagram_reaches_channel_witness :
  let g := uf_run [Add 5; Add 7] in
  (length (Flow.tag 7 "hello") <= 1200 + kUdpForwardChannelIdSize)%nat /\
  uf_heap (receiveDatagram g (Flow.tag 7 "hello")) = <[1%nat := Chan [bs "hello"] false 7 [bs "hello"]]> (uf_heap g).
Proof.
  apply (datagram_reaches_channel newForwarder 1200 7 (bs "hello") _ _ _ (Chan [] false 7 [])); try reflexivity.
  - lia.
  - simpl. unfold channelCapacity. lia.
Defined.

Lemma close_wakes_readers_witness :
  Forall (fun c => ch_closed c = true) (uf_heap (uf_run (Flow.events ++ CloseForwarder :: replicate 3 Work))).
Proof. apply close_wakes_readers; [apply Flow.events_fresh|by apply Nat.leb_le]. Defined.

Lemma udp_peer_flow_witness :
  let '(t1, ann) := listenUdp_packet Flow.server "1_peer" (bs "a") in
  exists id, ann = Some id /\ 0 < id /\
    let '(t2, answer) := acceptUdp_begin (packets_from [("1_other"%string, bs "x"); ("1_peer"%string, bs "b")] t1) id true in
    answer = Attached id /\
    us_out <$> udp_sessions (packets_from [("1_peer"%string, bs "c")] t2) !! id = Some [bs "a"; bs "b"; bs "c"].
Proof.
  apply (udp_peer_flow Flow.server "1_peer" (bs "a") [("1_other"%string, bs "x"); ("1_peer"%string, bs "b")]
           [("1_peer"%string, bs "c")]); [apply Flow.server_wf|simpl; lia|reflexivity].
Defined.

Lemma unacked_accept_starves_peer_witness :
  let '(t1, ann) := listenUdp_packet Flow.server "1_peer" (bs "a") in
  exists id, ann = Some id /\
    let '(t2, answer) := acceptUdp_begin t1 id false in
    let t3 := packets_from [("1_peer"%string, bs "b"); ("1_peer"%string, bs "c")] t2 in
    answer = AckFailed /\ us_out <$> udp_sessions t3 !! id = Some [] /\
    acceptUdp_begin t3 id true = (t3, InvalidId) /\
    forall data', snd (listenUdp_packet t3 "1_peer" data') = None.
Proof.
  apply (unacked_accept_starves_peer Flow.server "1_peer" (bs "a") [("1_peer"%string, bs "b"); ("1_peer"%string, bs "c")]);
    [apply Flow.server_wf|simpl; lia|reflexivity].
Defined.
