(* ===== verification/Life.v ===== *)
(** * Life: the life of a session ([session.go])

    - the handler that starts a session and waits for it ([handleSessionEvent],
      [StartMiddleware], [StartPty], [StartCmd], [Wait], [Close]);
    - how long [Wait] takes and what it does to the output of a command;
    - the message of the day ([showMotd]). *)

From Stdlib Require Import ZArith Lia Ascii String.
From stdpp Require Import base list strings gmap.
From S2P Require Import Prelude.
Open Scope Z_scope.

(** How a session runs: a handler of the embedding program, a terminal, or a
    command with three pipes. *)
Inductive kind := KMiddleware | KPty | KCmd.

#[export] Instance kind_eq_dec : EqDecision kind.
Proof. solve_decision. Defined.

(** ** Waiting for a session *)

(** In milliseconds. *)
Definition kOutputFirst : Z := 1000.
Definition kOutputLast : Z := 3000.

(** An output of the session and the forwarder that reads it.  [ou_pipe]: written
    and not yet read; [ou_ended]: nobody can write any more; [ou_done]: the
    forwarder has returned.  [ou_written], all that somebody tried to write, is
    history, and so is [ou_read], what the forwarder has read. *)
Record output := MkOutput { ou_pipe : bytes; ou_ended : bool; ou_done : bool; ou_written : bytes; ou_read : bytes }.

Definition open_output : output := MkOutput [] false false [] [].
Definition no_output : output := MkOutput [] true true [] [].

(** A write, which fails once the reading end is closed, if it [shut]. *)
Definition out_write (shut : bool) (b : bytes) (o : output) : output :=
  if ou_ended o then o
  else MkOutput (if shut then ou_pipe o else ou_pipe o ++ b) false (ou_done o) (ou_written o ++ b) (ou_read o).

Definition out_end (o : output) : output := MkOutput (ou_pipe o) true (ou_done o) (ou_written o) (ou_read o).

(** A read of up to [n] bytes by the forwarder. *)
Definition out_read (shut : bool) (n : nat) (o : output) : output :=
  if shut || ou_done o then o
  else MkOutput (drop n (ou_pipe o)) (ou_ended o) false (ou_written o) (ou_read o ++ take n (ou_pipe o)).

(** The forwarder returns, some time after a read has failed. *)
Definition out_return (shut : bool) (o : output) : output :=
  if shut || ou_ended o && bool_decide (ou_pipe o = [])
  then MkOutput (ou_pipe o) (ou_ended o) true (ou_written o) (ou_read o) else o.

(** Where [Wait] is: at one of its two [select]s, with the time at which it came
    there, or waiting for the process; on Windows, for a terminal, it waits for the
    process and then for the output. *)
Inductive wait_at := AtFirst (since : Z) | AtProcess | AtLast (since : Z) | AtProcessWin | AtOutputWin | WaitOver.

(** [wt_shut]: [cmd.Wait] has closed the reading ends of the pipes. *)
Record waiting := Waiting {
  wt_clock : Z; wt_at : wait_at; wt_exited : bool; wt_shut : bool; wt_out : output; wt_err : output
}.

(** [Wait] is called at [now]; a terminal has one output. *)
Definition Wait_called (windows : bool) (k : kind) (now : Z) : waiting :=
  Waiting now (match k with KPty => if windows then AtProcessWin else AtFirst now | _ => AtFirst now end) false false
    open_output (match k with KPty => no_output | _ => open_output end).

Definition set_at (a : wait_at) (s : waiting) : waiting := Waiting (wt_clock s) a (wt_exited s) (wt_shut s) (wt_out s) (wt_err s).

(** [outWG.Wait] returns. *)
Definition outputs_done (s : waiting) : bool := ou_done (wt_out s) && ou_done (wt_err s).

(** A step of [Wait]; [cmd.Wait] closes the pipes once it has seen the command
    exit, and [pty.Wait] of Windows ends the output. *)
Definition Wait_step (k : kind) (s : waiting) : waiting :=
  match wt_at s with
  | AtFirst since => if outputs_done s || (since + kOutputFirst <=? wt_clock s) then set_at AtProcess s else s
  | AtProcess =>
      if wt_exited s
      then Waiting (wt_clock s) (AtLast (wt_clock s)) true (match k with KCmd => true | _ => wt_shut s end) (wt_out s) (wt_err s)
      else s
  | AtLast since => if outputs_done s || (since + kOutputLast <=? wt_clock s) then set_at WaitOver s else s
  | AtProcessWin =>
      if wt_exited s then Waiting (wt_clock s) AtOutputWin true (wt_shut s) (out_end (wt_out s)) (out_end (wt_err s)) else s
  | AtOutputWin => if outputs_done s then set_at WaitOver s else s
  | WaitOver => s
  end.

(** [err]: of the error output. *)
Inductive waiting_event :=
| StepWait
| Pass (ms : N)
| ProcExit
| Write (err : bool) (b : bytes)
| EndOutput (err : bool)
| Forward (err : bool) (n : nat)
| ForwardEnd (err : bool).

Definition on_output (err : bool) (f : output -> output) (s : waiting) : waiting :=
  Waiting (wt_clock s) (wt_at s) (wt_exited s) (wt_shut s) (if err then wt_out s else f (wt_out s)) (if err then f (wt_err s) else wt_err s).

Definition waiting_step (k : kind) (s : waiting) (e : waiting_event) : waiting :=
  match e with
  | StepWait => Wait_step k s
  | Pass ms => Waiting (wt_clock s + Z.of_N ms) (wt_at s) (wt_exited s) (wt_shut s) (wt_out s) (wt_err s)
  | ProcExit => Waiting (wt_clock s) (wt_at s) true (wt_shut s) (wt_out s) (wt_err s)
  | Write err b => on_output err (out_write (wt_shut s) b) s
  | EndOutput err => on_output err out_end s
  | Forward err n => on_output err (out_read (wt_shut s) n) s
  | ForwardEnd err => on_output err (out_return (wt_shut s)) s
  end.

Definition waiting_run (k : kind) (es : list waiting_event) (s : waiting) : waiting := foldl (waiting_step k) s es.

(** All that was written has been read, or is there to be read. *)
Definition kept (o : output) : Prop := ou_read o ++ ou_pipe o = ou_written o.

(** Its forwarder has read all there will ever be. *)
Definition complete (o : output) : Prop := ou_ended o = true /\ ou_pipe o = [] /\ ou_read o = ou_written o.

(** An output before the pipes are closed. *)
Definition output_ok (o : output) : Prop := kept o /\ (ou_done o = true -> complete o).

(** [late]: the second after the call has passed. *)
Record waiting_ok (k : kind) (t0 : Z) (s : waiting) : Prop := {
  wo_open : wt_shut s = false -> output_ok (wt_out s) /\ output_ok (wt_err s);
  wo_shut : wt_shut s = true -> k = KCmd /\ wt_exited s = true /\
    (complete (wt_out s) /\ complete (wt_err s) \/ t0 + kOutputFirst <= wt_clock s);
  wo_at : match wt_at s with
          | AtFirst since => since = t0
          | AtProcess => complete (wt_out s) /\ complete (wt_err s) \/ t0 + kOutputFirst <= wt_clock s
          | _ => True
          end;
  wo_before : match wt_at s with AtFirst _ | AtProcess => wt_shut s = false | _ => True end
}.

Lemma complete_write shut b o : complete o -> out_write shut b o = o.
Proof. intros (He & _). unfold out_write. by rewrite He. Qed.

Lemma complete_end o : complete o -> complete (out_end o).
Proof. by intros (_ & Hp & Hr). Qed.

Lemma complete_read shut n o : complete o -> complete (out_read shut n o).
Proof.
  intros (He & Hp & Hr). unfold out_read, complete. destruct (shut || ou_done o); [done|]. cbn. by rewrite Hp, take_nil, drop_nil, app_nil_r.
Qed.

Lemma complete_return shut o : complete o -> complete (out_return shut o).
Proof. intros Ho. unfold out_return. by case_match. Qed.

Lemma out_write_ok b o : output_ok o -> output_ok (out_write false b o).
Proof.
  intros [Hk Hd]. unfold out_write. destruct (ou_ended o) eqn:E; [done|]. split.
  - unfold kept in *. cbn. by rewrite app_assoc, Hk.
  - cbn. intros H%Hd. by destruct H as [? _]; congruence.
Qed.

Lemma out_end_ok o : output_ok o -> output_ok (out_end o).
Proof. intros [Hk Hd]. split; [done|]. intros H%Hd. by apply complete_end. Qed.

Lemma out_read_ok n o : output_ok o -> output_ok (out_read false n o).
Proof.
  intros [Hk Hd]. unfold out_read. cbn [orb]. destruct (ou_done o) eqn:E; [split; [done|]; intros _; by apply Hd|].
  split; [|done]. unfold kept in *. cbn. by rewrite <- app_assoc, take_drop.
Qed.

Lemma out_return_ok o : output_ok o -> output_ok (out_return false o).
Proof.
  intros [Hk Hd]. unfold out_return. cbn [orb]. destruct (ou_ended o) eqn:E, (decide (ou_pipe o = [])) as [Hp|Hp]; cbn [andb]; try by split.
  - rewrite bool_decide_eq_true_2 by done. split; [done|]. intros _. split; [done|]. split; [done|]. cbn. unfold kept in Hk. by rewrite Hp, app_nil_r in Hk.
  - rewrite bool_decide_eq_false_2 by done. by split.
Qed.

Lemma on_output_ok k t0 err f s :
  (forall o, complete o -> complete (f o)) -> (forall o, wt_shut s = false -> output_ok o -> output_ok (f o)) ->
  waiting_ok k t0 s -> waiting_ok k t0 (on_output err f s).
Proof.
  intros Hc Ho [Hopen Hshut Hat Hbefore].
  assert (Hboth : complete (wt_out s) /\ complete (wt_err s) -> complete (wt_out (on_output err f s)) /\ complete (wt_err (on_output err f s))).
  { intros [H1 H2]. destruct err; cbn; auto. }
  split; cbn [on_output wt_shut wt_at wt_exited wt_clock].
  - intros Hs. destruct (Hopen Hs) as [H1 H2]. destruct err; cbn; auto.
  - intros Hs. destruct (Hshut Hs) as (? & ? & [H|H]); split_and!; try done; [left; by apply Hboth|by right].
  - destruct (wt_at s); try done. destruct Hat as [H|H]; [left; by apply Hboth|by right].
  - done.
Qed.

Lemma outputs_done_complete s : wt_shut s = false -> output_ok (wt_out s) /\ output_ok (wt_err s) -> outputs_done s = true ->
  complete (wt_out s) /\ complete (wt_err s).
Proof. intros Hs [[_ H1] [_ H2]] [Ho He]%andb_true_iff. auto. Qed.

Lemma Wait_step_ok k t0 s : waiting_ok k t0 s -> waiting_ok k t0 (Wait_step k s).
Proof.
  intros Hs. pose proof Hs as [Hopen Hshut Hat Hbefore]. unfold Wait_step. destruct (wt_at s) as [since| |since| | |] eqn:Ea; [..|done].
  - destruct (outputs_done s || _) eqn:Eg; [|done]. subst since. apply orb_true_iff in Eg. split; cbn; [done|done| |done].
    destruct Eg as [H|H%Z.leb_le]; [left; by apply outputs_done_complete; auto|by right].
  - destruct (wt_exited s) eqn:Ee; [|done]. split; cbn; [|destruct k; [intros; congruence..|]; intros _; by split_and!|done|done].
    destruct k; [done..|]. intros [=].
  - destruct (outputs_done s || _); [|done]. by split.
  - destruct (wt_exited s) eqn:Ee; [|done]. split; cbn; try done.
    + intros H. destruct (Hopen H). split; by apply out_end_ok.
    + intros H. destruct (Hshut H) as (? & ? & [[? ?]|?]); split_and!; try done; [left; split; by apply complete_end|by right].
  - destruct (outputs_done s); [|done]. by split.
Qed.

Lemma waiting_step_ok k t0 s e : waiting_ok k t0 s -> waiting_ok k t0 (waiting_step k s e).
Proof.
  intros Hs. pose proof Hs as [Hopen Hshut Hat Hbefore]. destruct e as [|ms| |err b|err|err n|err]; cbn [waiting_step].
  - by apply Wait_step_ok.
  - split; cbn; [done| | |done].
    + intros H. destruct (Hshut H) as (? & ? & [?|?]); split_and!; try done; [by left|right; lia].
    + destruct (wt_at s); try done. destruct Hat as [?|?]; [by left|right; lia].
  - split; cbn; try done. intros H. by destruct (Hshut H) as (? & ? & ?).
  - apply on_output_ok; [| |done]; [intros o Ho; by rewrite complete_write|]. intros o ->. apply out_write_ok.
  - apply on_output_ok; [apply complete_end|intros o _; apply out_end_ok|done].
  - apply on_output_ok; [intros o; apply complete_read| |done]. intros o ->. apply out_read_ok.
  - apply on_output_ok; [intros o; apply complete_return| |done]. intros o ->. apply out_return_ok.
Qed.

Lemma waiting_run_ok k t0 es s : waiting_ok k t0 s -> waiting_ok k t0 (waiting_run k es s).
Proof. revert s. induction es as [|e es IH]; intros s Hs; [done|]. by apply (IH (waiting_step k s e)), waiting_step_ok. Qed.

Lemma Wait_called_ok windows k now : waiting_ok k now (Wait_called windows k now).
Proof.
  assert (output_ok open_output /\ output_ok no_output) as [H1 H2] by (split; by split).
  split; [intros _; by destruct k|done|by destruct k, windows|by destruct k, windows].
Qed.

(** Nothing is read from a closed pipe. *)
Lemma shut_step k s e : wt_shut s = true ->
  wt_shut (waiting_step k s e) = true /\ ou_read (wt_out (waiting_step k s e)) = ou_read (wt_out s) /\
  ou_read (wt_err (waiting_step k s e)) = ou_read (wt_err s).
Proof.
  intros Hs. destruct e as [|ms| |err b|err|err n|err]; cbn [waiting_step]; try done.
  - unfold Wait_step. destruct (wt_at s), (wt_exited s), k; cbn; repeat case_match; done.
  - rewrite Hs. destruct err; cbn; unfold out_write; split_and!; try done; by destruct (ou_ended _).
  - by destruct err.
  - rewrite Hs. destruct err; cbn; done.
  - rewrite Hs. destruct err; cbn; done.
Qed.

Lemma shut_run k es s : wt_shut s = true ->
  ou_read (wt_out (waiting_run k es s)) = ou_read (wt_out s) /\ ou_read (wt_err (waiting_run k es s)) = ou_read (wt_err s).
Proof.
  revert s. induction es as [|e es IH]; intros s Hs; [done|]. destruct (shut_step k s e Hs) as (H1 & <- & <-). by apply IH.
Qed.

Lemma complete_kept o : complete o -> kept o.
Proof. intros (_ & Hp & Hr). unfold kept. by rewrite Hp, app_nil_r. Qed.


Lemma Wait_first k s since : wt_at s = AtFirst since -> since + kOutputFirst <= wt_clock s -> Wait_step k s = set_at AtProcess s.
Proof. intros Ha Ht%Z.leb_le. unfold Wait_step. by rewrite Ha, Ht, orb_true_r. Qed.

(** From its first [select], [Wait] returns within four seconds once the process
    has exited, though an output may not have ended. *)
Lemma session_wait_bounded k s :
  wt_exited s = true -> (exists since, wt_at s = AtFirst since /\ since <= wt_clock s) ->
  wt_at (waiting_run k [Pass 1000; StepWait; StepWait; Pass 3000; StepWait] s) = WaitOver.
Proof.
  intros He (since & Ha & Ht). unfold waiting_run. cbn [foldl].
  assert (H1 : waiting_step k (waiting_step k s (Pass 1000)) StepWait = set_at AtProcess (waiting_step k s (Pass 1000))).
  { apply (Wait_first _ _ since); [done|]. cbn [waiting_step wt_clock]. unfold kOutputFirst. lia. }
  rewrite H1. set (s2 := waiting_step k (set_at AtProcess _) StepWait).
  assert (H2 : wt_at s2 = AtLast (wt_clock s2)).
  { unfold s2. cbn [waiting_step]. unfold Wait_step. cbn [set_at wt_at wt_exited]. by rewrite He. }
  cbn [waiting_step]. unfold Wait_step. cbn [wt_at wt_clock]. rewrite H2.
  rewrite (proj2 (Z.leb_le _ _)) by (unfold kOutputLast; lia). by rewrite orb_true_r.
Qed.

(** A command prints a line just before it ends, two seconds after the start, while
    the forwarder still writes the one before to its client. *)
Example command_output_lost :
  let es := [Write false (bs "start"); Forward false 100; Pass 1000; StepWait; Pass 1000; Write false (bs "result");
             EndOutput false; EndOutput true; ProcExit; StepWait; Forward false 100; ForwardEnd false] in
  ou_read (wt_out (waiting_run KCmd es (Wait_called false KCmd 0))) = bs "start" /\
  ou_read (wt_out (waiting_run KPty es (Wait_called false KPty 0))) = bs "startresult".
Proof. split; reflexivity. Qed.

(** ** The message of the day *)

(** One line of a file, without its newline, as it is written to the stream: with
    [\r\n], unless it ends in [\r] already. *)
Definition motd_line (l : bytes) : bytes :=
  match l with
  | [] => [CR; LF]
  | _ => if bool_decide (last l = Some CR) then l ++ [LF] else l ++ [CR; LF]
  end.

(** The loop of [printMotd] over one file; [reader.ReadBytes] gives an error, and
    the function returns, when no newline is left. *)
Fixpoint motd_loop (acc : bytes) (content : bytes) : bytes :=
  match content with
  | [] => []
  | b :: content => if decide (b = LF) then motd_line acc ++ motd_loop [] content else motd_loop (acc ++ [b]) content
  end.

(** The first of the files that can be opened. *)
Fixpoint printMotd (files : list (option bytes)) : bytes :=
  match files with
  | [] => []
  | None :: files => printMotd files
  | Some content :: _ => motd_loop [] content
  end.

(** The files are [/run/motd.dynamic], [/var/run/motd.dynamic] and [/etc/motd]. *)
Definition showMotd (runDynamic varDynamic etcMotd : option bytes) : bytes :=
  printMotd [runDynamic; varDynamic] ++ printMotd [etcMotd].

Definition text (ls : list bytes) : bytes := concat ((fun l => l ++ [LF]) <$> ls).

Lemma motd_loop_line acc l content : (LF ∉ l) -> motd_loop acc (l ++ LF :: content) = motd_line (acc ++ l) ++ motd_loop [] content.
Proof.
  revert acc. induction l as [|b l IH]; intros acc Hl; cbn [app motd_loop]; [by rewrite decide_True, app_nil_r|].
  rewrite decide_False by set_solver. rewrite IH by set_solver. by rewrite <- app_assoc.
Qed.

Lemma motd_loop_rest acc rest : (LF ∉ rest) -> motd_loop acc rest = [].
Proof. revert acc. induction rest as [|b rest IH]; intros acc Hr; [done|]. cbn [motd_loop]. rewrite decide_False by set_solver. apply IH. set_solver. Qed.

(** Every line of the message of the day is written, with a carriage return
    and a newline; what follows the last newline of the file is not. *)
Theorem motd_lines (ls : list bytes) rest others : Forall (fun l => LF ∉ l) ls -> (LF ∉ rest) ->
  printMotd (Some (text ls ++ rest) :: others) = concat (motd_line <$> ls).
Proof.
  intros Hls Hrest. cbn [printMotd]. induction Hls as [|l ls Hl Hls IH]; [by apply motd_loop_rest|].
  unfold text in *. rewrite fmap_cons. cbn [concat]. rewrite <- !app_assoc. cbn [app]. rewrite motd_loop_line by done. rewrite IH. done.
Qed.

Lemma motd_lines_witness :
  printMotd [Some (text [bs "Welcome"; []; bs "to " ++ [CR]] ++ bs "unterminated"); None] =
  bs "Welcome" ++ [CR; LF; CR; LF] ++ bs "to " ++ [CR; LF].
Proof.
  apply (motd_lines [bs "Welcome"; []; bs "to " ++ [CR]] (bs "unterminated") [None]).
  - repeat constructor; by apply (bool_decide_eq_true_1 _).
  - by apply (bool_decide_eq_true_1 _).
Defined.

(** ** Starting and ending a session *)

(** What is left of a session: its place in [sessionMap], the flags [started] and
    [closed], whether the command or handler runs and whether it was waited for,
    with its exit code, the goroutine that feeds the screen, the exit messages
    sent, and whether the streams of an attachable session are closed. *)
Record life := Life {
  lf_kind : kind;
  lf_mapped : bool;
  lf_started : bool;
  lf_closed : bool;
  lf_running : bool;
  lf_reaped : option Z;
  lf_screen : bool;
  lf_exits : list Z;
  lf_streams : bool
}.

Definition with_started (l : life) : life :=
  Life (lf_kind l) (lf_mapped l) true (lf_closed l) true (lf_reaped l) (lf_screen l) (lf_exits l) (lf_streams l).

(** The streams of [forwardIO] for an attachable server. *)
Definition with_streams (b : bool) (l : life) : life :=
  Life (lf_kind l) (lf_mapped l) (lf_started l) (lf_closed l) (lf_running l) (lf_reaped l) (lf_screen l) (lf_exits l) b.

(** [Wait]: the process ends with [code], and the goroutine that waits for the
    output closes [screenBuf]. *)
Definition life_Wait (code : Z) (l : life) : life :=
  Life (lf_kind l) (lf_mapped l) (lf_started l) (lf_closed l) false (Some code) false (lf_exits l) (lf_streams l).

(** [Close].  The exit code is -1 while the process was not waited for;
    [attached]: whether the session has a server, to which the message is sent.
    Closing the handler's session ends it; closing the terminal or killing the
    process ends that, but does not wait for it. *)
Definition life_Close (attached : bool) (l : life) : life :=
  if lf_closed l then l
  else
    let code := default (-1) (lf_reaped l) in
    Life (lf_kind l) false (lf_started l) true (lf_running l && negb (lf_started l)) (lf_reaped l)
      (lf_screen l) (if attached then lf_exits l ++ [code] else lf_exits l) false.

(** What one run of the handler meets: the kind, the flags of the server, the
    errors of [newSessionContext] and of the start, whether the answer is sent,
    the exit code, and whether the session has a server when it ends. *)
Record session_env := SessionEnv {
  se_kind : kind;
  se_attachable : bool;
  se_socket : bool;
  se_shell : bool;
  se_newErr : option goerr;
  se_startErr : option goerr;
  se_ackOk : bool;
  se_exitCode : Z;
  se_attached : bool;
  se_motd : bytes
}.

Inductive start_reply := StartError (e : goerr) | StartOk | MotdSent (b : bytes).

(** [newSessionContext]. *)
Definition newLife (e : session_env) : life := Life (se_kind e) true false false false None (se_attachable e && se_socket e) [] false.

(** [StartMiddleware], [StartPty] or [StartCmd]. *)
Definition start (e : session_env) (l : life) : life * option goerr :=
  match se_startErr e with Some err => (l, Some err) | None => (with_started l, None) end.

(** [handleSessionEvent] of a session that is started, to its end: for an
    attachable server to the end of the goroutine that waits for the session. *)
Definition handleSessionEvent (e : session_env) : list start_reply * option life :=
  match se_newErr e with
  | Some err => ([StartError err], None)
  | None =>
      match start e (newLife e) with
      | (l, Some err) => ([StartError err], Some (life_Close (se_attached e) l))
      | (l, None) =>
          if negb (se_ackOk e) then ([], Some (life_Close (se_attached e) l))
          else
            let motd := if bool_decide (se_kind e <> KMiddleware) && se_shell e then [MotdSent (se_motd e)] else [] in
            let l := with_streams (se_attachable e) l in
            (StartOk :: motd, Some (life_Close (se_attached e) (life_Wait (se_exitCode e) l)))
      end
  end.

(** The session has left nothing behind. *)
Definition gone (l : life) : Prop :=
  lf_mapped l = false /\ lf_closed l = true /\ lf_running l = false /\ lf_streams l = false /\ lf_screen l = false /\
  (lf_started l = true -> lf_reaped l <> None).

(** When the handler of a session is done, the session is out of the map and
    closed, nothing of it runs, and its streams are closed; a client that is
    attached has been told the exit code, once.  A session that ran to its end
    has left nothing behind. *)
Theorem session_ends_gone e replies l : handleSessionEvent e = (replies, Some l) ->
  lf_mapped l = false /\ lf_closed l = true /\ lf_running l = false /\ lf_streams l = false /\
  (forall attached, life_Close attached l = l) /\
  (StartOk ∈ replies -> gone l /\ lf_exits l = if se_attached e then [se_exitCode e] else []) /\
  (StartOk ∉ replies -> lf_exits l = if se_attached e then [-1] else []).
Proof.
  unfold handleSessionEvent, start. destruct (se_newErr e); [done|]. destruct (se_startErr e) as [err|].
  - intros [= <- <-]. simpl. split_and!; try done; by intros ?%list_elem_of_singleton.
  - destruct (se_ackOk e) eqn:Ha; simpl; intros [= <- <-]; simpl.
    + split_and!; try done. intros Hn. destruct Hn. left.
    + split_and!; try done; by intros ?%elem_of_nil.
Qed.

(** A session whose start was not completed is not cleaned up: with a socket
    server the goroutine of its screen waits for ever, and the process or
    handler of a session whose answer could not be sent is ended but never waited
    for. *)
Theorem failed_start_leaks e l replies : se_newErr e = None -> handleSessionEvent e = (replies, Some l) -> (StartOk ∉ replies) ->
  lf_screen l = se_attachable e && se_socket e /\
  (se_startErr e = None -> lf_started l = true /\ lf_reaped l = None).
Proof.
  unfold handleSessionEvent, start. intros ->. destruct (se_startErr e) as [err|]; [by intros [= <- <-]|].
  destruct (se_ackOk e); simpl; intros [= <- <-] Hn; [destruct Hn; left|]. simpl. done.
Qed.

Module LifeExample.
Definition env : session_env := SessionEnv KPty true true true None None true 3 true (bs "hello").
Definition lost_answer : session_env := SessionEnv KCmd true true false None None false 0 true [].
End LifeExample.

Lemma session_ends_gone_witness :
  exists l, handleSessionEvent LifeExample.env = ([StartOk; MotdSent (bs "hello")], Some l) /\ gone l /\ lf_exits l = [3].
Proof.
  eexists. split; [reflexivity|]. eapply (session_ends_gone LifeExample.env [StartOk; MotdSent (bs "hello")]); [reflexivity|left].
Defined.

Lemma failed_start_leaks_witness :
  exists l, handleSessionEvent LifeExample.lost_answer = ([], Some l) /\ lf_screen l = true /\ lf_started l = true /\ lf_reaped l = None.
Proof.
  eexists. split; [reflexivity|].
  edestruct (failed_start_leaks LifeExample.lost_answer) as [H1 H2]; [reflexivity|reflexivity|apply not_elem_of_nil|].
  split; [exact H1|]. by apply H2.
Defined.
