(* ===== verification/Server.v ===== *)
(** * Server: client servers, sessions and their ownership
      ([server.go], [bus.go], [attach.go], [session.go])

    An attachable tsshd outlives its clients: each client connection has an
    [sshUdpServer], one of them is active, and sessions move from the old to
    the new one.  Here are
    - the life of a server: [newSshUdpServer], [initBusAndServer],
      [activateServer], [handleStream], [closeActiveStreams], [Close];
    - the sessions: [newSessionContext], [forwardIO], [Close], and their move:
      [attachSession], [detachAllSessions], [handleDetachEvent];
    - the streams they are moved between ([replaceableStream],
      [interruptibleStream]).

    A step that dereferences a nil pointer panics and ends the process; such a
    step is [None]. *)

From Stdlib Require Import ZArith Lia Ascii String.
From stdpp Require Import base list strings gmap.
From S2P Require Import Prelude.
Open Scope Z_scope.

(** ** State *)

(** [replaceableStream]: the stream it stands for at the moment. *)
Record rstream := RS { rs_stream : option Z; rs_closed : bool }.

Definition newReplaceableStream (s : Z) : rstream := RS (Some s) false.

(** [swap]: on a closed one the new stream is closed instead. *)
Definition rs_swap (r : rstream) (newStream : option Z) : rstream :=
  if rs_closed r then r else RS newStream false.

Definition rs_Close (r : rstream) : rstream := if rs_closed r then r else RS None true.

(** [ss_server] owns the session; [ss_checker] is the server whose checker the
    session's [replaceableTimeoutChecker] holds. *)
Record session := Sess {
  ss_server : option Z;
  ss_checker : option Z;
  ss_ioStream : option rstream;
  ss_errStream : option rstream;
  ss_pty : bool;
  ss_size : Z * Z;
  ss_discardMarker : option bytes;
  ss_waitCancel : bool
}.

(** [sv_checker]: whether [clientChecker] is set; [sv_streams] is [None] when
    [streamMap] is nil. *)
Record server := Srv {
  sv_closed : bool;
  sv_serving : bool;
  sv_checker : bool;
  sv_bus : option Z;
  sv_nextStreamID : Z;
  sv_streams : option (gmap Z Z)
}.

Record world := World {
  w_attachable : bool;
  w_kcp : bool;
  w_forwardings : bool;
  w_busClosing : bool;
  w_active : option Z;
  w_servers : gmap Z server;
  w_sessions : gmap Z session;
  w_maxSessionID : Z
}.

Definition set_servers (m : gmap Z server) (w : world) : world :=
  World (w_attachable w) (w_kcp w) (w_forwardings w) (w_busClosing w) (w_active w) m (w_sessions w) (w_maxSessionID w).

Definition set_sessions (m : gmap Z session) (w : world) : world :=
  World (w_attachable w) (w_kcp w) (w_forwardings w) (w_busClosing w) (w_active w) (w_servers w) m (w_maxSessionID w).

Definition set_active (a : option Z) (w : world) : world :=
  World (w_attachable w) (w_kcp w) (w_forwardings w) (w_busClosing w) a (w_servers w) (w_sessions w) (w_maxSessionID w).

Definition on_server (g : server -> server) (s : Z) (w : world) : world :=
  set_servers (alter g s (w_servers w)) w.

(** ** The life of a server *)

Definition newSshUdpServer (w : world) (s : Z) : world :=
  set_servers (<[s := Srv false false false None 0 (Some ∅)]> (w_servers w)) w.

(** One session of the loop of [detachAllSessions]. *)
Definition detach_session (oldServer : option Z) (sess : session) : session :=
  if decide (ss_server sess = oldServer) then
    Sess None None ((fun r => rs_swap r None) <$> ss_ioStream sess) ((fun r => rs_swap r None) <$> ss_errStream sess)
      (ss_pty sess) (ss_size sess) None false
  else sess.

Definition detachAllSessions (w : world) (oldServer : option Z) : world :=
  if w_attachable w then set_sessions (detach_session oldServer <$> w_sessions w) w else w.

Definition set_serving (v : server) : server :=
  Srv (sv_closed v) true (sv_checker v) (sv_bus v) (sv_nextStreamID v) (sv_streams v).

(** The old server is told to quit and closed later, by a goroutine. *)
Definition activateServer (w : world) (s : Z) : world * bool :=
  if negb (w_attachable w) then
    match w_active w with
    | None => (on_server set_serving s (set_active (Some s) w), true)
    | Some _ => (w, false)
    end
  else if w_busClosing w then (w, false)
  else
    let oldServer := w_active w in
    (on_server set_serving s (detachAllSessions (set_active (Some s) w) oldServer), true).

Definition initClientChecker (v : server) : server :=
  Srv (sv_closed v) (sv_serving v) true (sv_bus v) (sv_nextStreamID v) (sv_streams v).

Definition set_bus (b : Z) (v : server) : server :=
  Srv (sv_closed v) (sv_serving v) (sv_checker v) (Some b) (sv_nextStreamID v) (sv_streams v).

(** [false] when an error is returned. *)
Definition initBusAndServer (w : world) (s stream : Z) (ackOk : bool) : world * bool :=
  match w_servers w !! s with
  | None => (w, false)
  | Some v =>
      match sv_bus v with
      | Some _ => (w, false)
      | None =>
          let '(w, ok) := activateServer (on_server initClientChecker s w) s in
          if ok then (if ackOk then on_server (set_bus stream) s w else w, true) else (w, false)
      end
  end.

Definition closeActiveStreams (v : server) : server :=
  Srv (sv_closed v) (sv_serving v) (sv_checker v) (sv_bus v) (sv_nextStreamID v) None.

(** [Close] calls a method of [clientChecker] first. *)
Definition server_Close (v : server) : option server :=
  if sv_closed v then Some v
  else
    let v := Srv true (sv_serving v) (sv_checker v) (sv_bus v) (sv_nextStreamID v) (sv_streams v) in
    if sv_checker v then Some (closeActiveStreams v) else None.

(** The goroutine of [newSshUdpServer], after [ConnectTimeout]. *)
Definition connectTimeout (v : server) : option server :=
  if sv_serving v then Some v else server_Close v.

(** *** Streams of a client *)

Definition baseHandlers : list string := ["bus"; "session"; "stderr"]%string.

Definition forwardHandlers : list string :=
  ["dial"; "listen"; "accept"; "dial-udp"; "listen-udp"; "accept-udp"]%string.

Inductive dispatch :=
| ClosedAtOnce
| RecvFailed
| BusFirst
| NotActive
| ForwardingDisabled
| UnknownCommand
| HelloFailed
| RunHandler (command : string).

#[export] Instance dispatch_eq_dec : EqDecision dispatch.
Proof. solve_decision. Defined.

Definition set_streams (next : Z) (m : option (gmap Z Z)) (v : server) : server :=
  Srv (sv_closed v) (sv_serving v) (sv_checker v) (sv_bus v) next m.

(** [handleStream] from the command on. *)
Definition dispatch_command (w : world) (s : Z) (v : server) (command : string) (helloOk : bool) : dispatch :=
  let run := if helloOk then RunHandler command else HelloFailed in
  if bool_decide (command <> "bus"%string) && negb (sv_serving v) then BusFirst
  else if bool_decide (command <> "bus"%string) && negb (bool_decide (w_active w = Some s)) then NotActive
  else if bool_decide (command ∈ baseHandlers) then run
  else if bool_decide (command ∈ forwardHandlers) then if w_forwardings w then run else ForwardingDisabled
  else UnknownCommand.

(** [command] is [None] when it cannot be received.  The second result is the
    stream's id, if it was registered. *)
Definition handleStream (w : world) (s : Z) (v : server) (stream : Z) (command : option string) (helloOk : bool)
  : server * option Z * dispatch :=
  match sv_streams v with
  | None => (v, None, ClosedAtOnce)
  | Some m =>
      let id := u64 (sv_nextStreamID v + 1) in
      let v1 := set_streams id (Some (<[id := stream]> m)) v in
      match command with
      | None => (v1, Some id, RecvFailed)
      | Some c =>
          (if bool_decide (c = "bus"%string) then set_streams id (Some (delete id m)) v else v1,
           Some id, dispatch_command w s v1 c helloOk)
      end
  end.

(** The deferred function of [handleStream]: it asks [clientChecker] before
    it unregisters the stream. *)
Definition stream_done (v : server) (id : Z) : option server :=
  if negb (sv_checker v) then None
  else if sv_closed v then Some v
  else Some (set_streams (sv_nextStreamID v) (delete id <$> sv_streams v) v).

(** ** Sessions *)

Definition newSessionContext (w : world) (s id : Z) (pty : bool) (size : Z * Z) : world * bool :=
  match w_sessions w !! id with
  | Some _ => (w, false)
  | None =>
      (World (w_attachable w) (w_kcp w) (w_forwardings w) (w_busClosing w) (w_active w) (w_servers w)
         (<[id := Sess (Some s) (Some s) None None pty size None false]> (w_sessions w))
         (Z.max id (w_maxSessionID w)), true)
  end.

(** [forwardIO] of an attachable server; without stderr (a pty) the error
    stream is closed at once. *)
Definition forwardIO (w : world) (id io err : Z) (stderr : bool) : world :=
  if w_attachable w then
    let rerr := newReplaceableStream err in
    set_sessions (alter (fun sess =>
      Sess (ss_server sess) (ss_checker sess) (Some (newReplaceableStream io))
        (Some (if stderr then rerr else rs_Close rerr)) (ss_pty sess) (ss_size sess) (ss_discardMarker sess)
        (ss_waitCancel sess)) id (w_sessions w)) w
  else w.

(** [sessionContext.Close] takes the session out of the map. *)
Definition session_Close (w : world) (id : Z) : world := set_sessions (delete id (w_sessions w)) w.

Inductive attach_result :=
| NotAttachable | NotFound | ErrNotPty | ServerNotActive | AlreadyAttached | NoIoStream | NoErrStream | AckFailed
| Attached.

#[export] Instance attach_result_eq_dec : EqDecision attach_result.
Proof. solve_decision. Defined.

Record attach_msg := AttachMsg { am_id : Z; am_pty : bool; am_cols : Z; am_rows : Z }.

(** The new size if the redraw of a pty session succeeds. *)
Definition attach_size (sess : session) (msg : attach_msg) (resizeOk : bool) : Z * Z :=
  let cols := if 0 <? am_cols msg then am_cols msg else fst (ss_size sess) in
  let rows := if 0 <? am_rows msg then am_rows msg else snd (ss_size sess) in
  if ss_pty sess && resizeOk then (cols, rows) else ss_size sess.

(** A session in the map is not closed, so that check never fails here. *)
Definition attachSession (w : world) (s io err : Z) (msg : attach_msg) (ackOk resizeOk : bool)
  : world * attach_result :=
  if negb (w_attachable w) then (w, NotAttachable)
  else
    match w_sessions w !! am_id msg with
    | None => (w, NotFound)
    | Some sess =>
        if am_pty msg && negb (ss_pty sess) then (w, ErrNotPty)
        else if negb (bool_decide (w_active w = Some s)) then (w, ServerNotActive)
        else
          match ss_server sess, ss_ioStream sess, ss_errStream sess with
          | Some _, _, _ => (w, AlreadyAttached)
          | None, None, _ => (w, NoIoStream)
          | None, Some _, None => (w, NoErrStream)
          | None, Some rio, Some rerr =>
              if negb ackOk then (w, AckFailed)
              else
                (set_sessions (<[am_id msg :=
                   Sess (Some s) (Some s) (Some (rs_swap rio (Some io))) (Some (rs_swap rerr (Some err)))
                     (ss_pty sess) (attach_size sess msg resizeOk) (ss_discardMarker sess) (ss_waitCancel sess)]>
                   (w_sessions w)) w, Attached)
          end
    end.

(** The graceful detach of a client; the acknowledgement is not modelled. *)
Definition handleDetachEvent (w : world) (s : Z) : world :=
  if w_kcp w && bool_decide (w_active w = Some s) then detachAllSessions w (Some s) else w.

(** [cancellableWait], up to the wait. *)
Definition cancellableWait (w : world) (id : Z) : world :=
  set_sessions (alter (fun sess =>
    Sess (ss_server sess) (ss_checker sess) (ss_ioStream sess) (ss_errStream sess) (ss_pty sess) (ss_size sess)
      (ss_discardMarker sess) true) id (w_sessions w)) w.

(** ** Runs *)

(** [attachMutex] and [sessionMutex] make each of these one step. *)
Inductive world_event :=
| NewServer (s : Z)
| InitBus (s stream : Z) (ackOk : bool)
| NewSession (s id : Z) (pty : bool) (size : Z * Z)
| StartIO (id io err : Z) (stderr : bool)
| CloseSession (id : Z)
| Attach (s io err : Z) (msg : attach_msg) (ackOk resizeOk : bool)
| Detach (s : Z)
| WaitSession (id : Z).

Definition world_step (w : world) (e : world_event) : world :=
  match e with
  | NewServer s => match w_servers w !! s with None => newSshUdpServer w s | Some _ => w end
  | InitBus s stream ackOk => fst (initBusAndServer w s stream ackOk)
  | NewSession s id pty size => fst (newSessionContext w s id pty size)
  | StartIO id io err stderr => forwardIO w id io err stderr
  | CloseSession id => session_Close w id
  | Attach s io err msg ackOk resizeOk => fst (attachSession w s io err msg ackOk resizeOk)
  | Detach s => handleDetachEvent w s
  | WaitSession id => cancellableWait w id
  end.

Definition world_run (es : list world_event) (w : world) : world := fold_left world_step es w.

Definition start_world (kcp forwardings : bool) : world := World true kcp forwardings false None ∅ ∅ 0.

(** [handleSessionEvent] runs after [handleStream] has found its server
    active; in a timely run no other server is activated in between. *)
Fixpoint timely (es : list world_event) (w : world) : bool :=
  match es with
  | [] => true
  | e :: es' =>
      match e with NewSession s _ _ _ => bool_decide (w_active w = Some s) | _ => true end
      && timely es' (world_step w e)
  end.

(** ** Sessions belong to the active server *)

Definition owned (active : option Z) (sess : session) : Prop :=
  ss_checker sess = ss_server sess /\ (ss_server sess = None \/ ss_server sess = active).

Record own_inv (w : world) : Prop := OwnInv {
  own_attachable : w_attachable w = true;
  own_sessions : map_Forall (fun _ sess => owned (w_active w) sess) (w_sessions w)
}.

(** Changes of the servers alone. *)
Lemma own_inv_servers w g s : own_inv w -> own_inv (on_server g s w).
Proof. by intros [H1 H2]. Qed.

Lemma own_inv_alter w g id :
  own_inv w -> (forall sess, ss_server (g sess) = ss_server sess /\ ss_checker (g sess) = ss_checker sess) ->
  own_inv (set_sessions (alter g id (w_sessions w)) w).
Proof.
  intros [H1 H2] Hg. split; [done|]. intros i sess Hi. simpl in *.
  apply lookup_alter_Some in Hi as [(<- & s0 & Hs0 & ->)|[_ Hi]]; [|by eapply H2].
  apply H2 in Hs0 as [Hc Ho]. destruct (Hg s0) as [E1 E2]. split; rewrite ?E1, ?E2; done.
Qed.

Lemma own_inv_insert w id sess :
  own_inv w -> owned (w_active w) sess -> own_inv (set_sessions (<[id := sess]> (w_sessions w)) w).
Proof. intros [H1 H2] Ho. split; [done|]. by apply map_Forall_insert_2. Qed.

Lemma detach_session_owned active new sess :
  owned active sess -> owned new (detach_session active sess).
Proof.
  intros [Hc Ho]. unfold detach_session. destruct (decide _) as [|Hne]; [split; auto|].
  destruct Ho as [Ho|Ho]; [|done]. split; [done|auto].
Qed.

Lemma activateServer_inv w s : own_inv w -> own_inv (fst (activateServer w s)).
Proof.
  intros [H1 H2]. unfold activateServer. rewrite H1. simpl. destruct (w_busClosing w); [done|].
  simpl. apply own_inv_servers. unfold detachAllSessions. simpl. rewrite H1. split; [done|]. simpl.
  intros id sess. rewrite lookup_fmap. intros (s0 & Hs0 & ->)%fmap_Some.
  apply H2 in Hs0. by apply detach_session_owned.
Qed.

Lemma own_inv_step w e :
  own_inv w -> timely [e] w = true -> own_inv (world_step w e).
Proof.
  intros Hinv Ht. pose proof Hinv as [H1 H2]. destruct e as [s|s b ack|s id pty size|id io err st|id|s io err msg ack rs|s|id]; simpl in *.
  - by destruct (w_servers w !! s).
  - unfold initBusAndServer. repeat case_match; try done; simplify_eq; simpl;
      try apply own_inv_servers;
      match goal with H : activateServer ?w0 s = _ |- _ =>
        pose proof (activateServer_inv w0 s (own_inv_servers _ _ _ Hinv)) as Ha; by rewrite H in Ha end.
  - rewrite andb_true_r in Ht. apply bool_decide_eq_true in Ht.
    unfold newSessionContext. destruct (w_sessions w !! id); [done|].
    split; [done|]. apply map_Forall_insert_2; [|done]. split; [done|]. by right.
  - unfold forwardIO. rewrite H1. by apply own_inv_alter.
  - split; [done|]. by apply map_Forall_delete.
  - unfold attachSession. repeat case_match; try done. apply own_inv_insert; [done|]. split; [done|]. right. simpl.
    match goal with H : negb (bool_decide _) = false |- _ => by apply negb_false_iff, bool_decide_eq_true in H end.
  - unfold handleDetachEvent, detachAllSessions. repeat case_match; try done. split; [done|]. simpl.
    intros id sess. rewrite lookup_fmap. intros (s0 & Hs0 & ->)%fmap_Some. apply H2 in Hs0.
    match goal with H : _ && bool_decide _ = true |- _ => apply andb_true_iff in H as [_ Ha%bool_decide_eq_true] end.
    rewrite <- Ha. by apply detach_session_owned.
  - by apply own_inv_alter.
Qed.

Lemma own_inv_run es w : own_inv w -> timely es w = true -> own_inv (world_run es w).
Proof.
  revert w. induction es as [|e es IH]; intros w Hinv Ht; [done|]. simpl in *.
  apply andb_true_iff in Ht as [He Hes]. apply IH; [|done]. apply own_inv_step; [done|]. simpl. by rewrite He.
Qed.

Lemma start_inv kcp fwd : own_inv (start_world kcp fwd).
Proof. split; [done|]. apply map_Forall_empty. Qed.

(** C6: in every timely run each session is owned by the active server or by
    none, and its output is gated by the checker of its owner: no session
    ever writes to, or waits for, a client that has been replaced. *)
Theorem sessions_follow_active kcp fwd es :
  timely es (start_world kcp fwd) = true ->
  let w := world_run es (start_world kcp fwd) in
  map_Forall (fun _ sess => ss_checker sess = ss_server sess /\
                (ss_server sess = None \/ ss_server sess = w_active w)) (w_sessions w).
Proof. intros Ht. apply own_sessions, own_inv_run; [apply start_inv|done]. Qed.

Lemma rs_swap_closed r new : rs_closed (rs_swap r new) = rs_closed r.
Proof. unfold rs_swap. by destruct (rs_closed r) eqn:E. Qed.

(** A first bus message on an attachable server takes over. *)
Lemma initBus_takeover w s stream ackOk v :
  w_attachable w = true -> w_busClosing w = false -> w_servers w !! s = Some v -> sv_bus v = None ->
  let w1 := fst (initBusAndServer w s stream ackOk) in
  w_active w1 = Some s /\ w_attachable w1 = true /\
  w_sessions w1 = detach_session (w_active w) <$> w_sessions w.
Proof.
  intros Hatt Hbc Hv Hb. unfold initBusAndServer, activateServer, detachAllSessions. rewrite Hv, Hb. simpl.
  rewrite Hatt, Hbc. by destruct ackOk.
Qed.

(** C12: when a client takes over, every running session of the old one can be
    attached: the attach succeeds, the new server owns the session and its
    live streams are those of the new client. *)
Theorem takeover_attaches kcp fwd es s stream id sess rio rerr io err pty cols rows :
  timely es (start_world kcp fwd) = true ->
  let w := world_run es (start_world kcp fwd) in
  w_sessions w !! id = Some sess -> ss_ioStream sess = Some rio -> ss_errStream sess = Some rerr ->
  (pty = true -> ss_pty sess = true) ->
  forall v, w_servers w !! s = Some v -> sv_bus v = None -> w_busClosing w = false ->
  let w1 := fst (initBusAndServer w s stream true) in
  let '(w2, r) := attachSession w1 s io err (AttachMsg id pty cols rows) true true in
  r = Attached /\ w_active w2 = Some s /\
  exists sess', w_sessions w2 !! id = Some sess' /\ ss_server sess' = Some s /\ ss_checker sess' = Some s /\
    (rs_closed rio = false -> ss_ioStream sess' = Some (RS (Some io) false)) /\
    (rs_closed rerr = false -> ss_errStream sess' = Some (RS (Some err) false)).
Proof.
  intros Ht w Hs Hio Herr Hpty v Hv Hb Hbc w1.
  destruct (own_inv_run es _ (start_inv kcp fwd) Ht) as [Hatt Hown]. fold w in Hatt, Hown.
  apply Hown in Hs as Ho. destruct Ho as [_ Ho].
  destruct (initBus_takeover w s stream true v) as (Hact & Hatt1 & E1); [done..|]. fold w1 in Hact, Hatt1, E1.
  assert (Hsess1 : exists sess1, w_sessions w1 !! id = Some sess1 /\ ss_server sess1 = None /\
            ss_pty sess1 = ss_pty sess /\
            (exists rio', ss_ioStream sess1 = Some rio' /\ rs_closed rio' = rs_closed rio) /\
            (exists rerr', ss_errStream sess1 = Some rerr' /\ rs_closed rerr' = rs_closed rerr)).
  { exists (detach_session (w_active w) sess). rewrite E1, lookup_fmap, Hs. split; [done|]. unfold detach_session.
    destruct (decide _) as [|Hne]; simpl.
    - rewrite Hio, Herr. simpl. split_and!; [done..| |]; eexists; (split; [done|]);
        apply rs_swap_closed.
    - destruct Ho as [Ho|Ho]; [|done]. rewrite Hio, Herr. eauto 10. }
  destruct Hsess1 as (sess1 & Hs1 & Hsrv & Hp1 & (rio1 & Hio1 & Hc1) & (rerr1 & Herr1 & Hc2)).
  unfold attachSession. rewrite Hatt1. simpl. rewrite Hs1, Hsrv, Hio1, Herr1, Hact, Hp1.
  assert (pty && negb (ss_pty sess) = false) as -> by (destruct pty; simpl; [by rewrite Hpty|done]).
  rewrite bool_decide_eq_true_2 by done. simpl. split_and!; [done..|].
  eexists. rewrite lookup_insert_eq. split_and!; [done..| |]; simpl; unfold rs_swap; rewrite ?Hc1, ?Hc2;
    intros ->; done.
Qed.

(** ** A session created late is lost *)

Record orphan (s1 id : Z) (w : world) : Prop := Orphan {
  orphan_owner : exists sess, w_sessions w !! id = Some sess /\ ss_server sess = Some s1;
  orphan_active : exists a, w_active w = Some a /\ a <> s1;
  orphan_bus : exists v b, w_servers w !! s1 = Some v /\ sv_bus v = Some b
}.

Lemma orphan_servers s1 id g s w : orphan s1 id w -> s <> s1 -> orphan s1 id (on_server g s w).
Proof. intros [H1 H2 (v & b & Hv & Hb)] Hne. split; [done..|]. exists v, b. simpl. by rewrite lookup_alter_ne. Qed.

Lemma orphan_alter s1 id g i w :
  orphan s1 id w -> (forall sess, ss_server (g sess) = ss_server sess) ->
  orphan s1 id (set_sessions (alter g i (w_sessions w)) w).
Proof.
  intros [(sess & Hs & Ho) H2 H3] Hg. split; [|done..]. simpl. destruct (decide (i = id)) as [->|Hne].
  - exists (g sess). by rewrite lookup_alter_eq, Hs, Hg.
  - exists sess. by rewrite lookup_alter_ne.
Qed.

(** Sessions of another server are detached, not this one. *)
Lemma orphan_detach s1 id a w : orphan s1 id w -> a <> s1 -> orphan s1 id (detachAllSessions w (Some a)).
Proof.
  intros [(sess & Hs & Ho) H2 H3] Hne. unfold detachAllSessions. destruct (w_attachable w); [|by split; eauto].
  split; [|done..]. exists sess. simpl. rewrite lookup_fmap, Hs. simpl. unfold detach_session.
  by rewrite decide_False by congruence.
Qed.

Lemma orphan_activate s1 id s w : orphan s1 id w -> s <> s1 -> orphan s1 id (fst (activateServer w s)).
Proof.
  intros H Hne. unfold activateServer. destruct (orphan_active _ _ _ H) as (a & Ha & Hne'). rewrite Ha.
  destruct (w_attachable w); simpl; [|done]. destruct (w_busClosing w); [done|]. simpl.
  apply orphan_servers; [|done]. apply orphan_detach; [|done]. destruct H as [H1 H2 H3]. split; [done| |done]. by exists s.
Qed.

Lemma orphan_step s1 id w e : orphan s1 id w -> e <> CloseSession id -> orphan s1 id (world_step w e).
Proof.
  intros H He. pose proof H as [(sess & Hs & Ho) (a & Ha & Hne) (v & b & Hv & Hb)].
  destruct e as [s|s bus ack|s i pty size|i io err st|i|s io err msg ack rs|s|i]; simpl.
  - destruct (w_servers w !! s) eqn:E; [done|]. split; eauto. exists v, b. simpl.
    rewrite lookup_insert_ne; [done|]. congruence.
  - unfold initBusAndServer. destruct (w_servers w !! s) as [v'|] eqn:E; [|done].
    destruct (sv_bus v') eqn:Eb; [done|]. assert (Hs1 : s <> s1) by congruence.
    pose proof (orphan_activate s1 id s _ (orphan_servers s1 id initClientChecker s w H Hs1) Hs1) as Hact.
    destruct (activateServer _ s) as [w' [|]]; [|done]. destruct ack; [|done]. by apply orphan_servers.
  - unfold newSessionContext. destruct (w_sessions w !! i) eqn:E; [done|]. split; eauto. exists sess. simpl.
    rewrite lookup_insert_ne; [done|]. congruence.
  - unfold forwardIO. destruct (w_attachable w); [|done]. by apply orphan_alter.
  - split; eauto. exists sess. simpl. rewrite lookup_delete_ne; [done|]. congruence.
  - unfold attachSession. repeat case_match; try done. split; eauto. exists sess. simpl.
    rewrite lookup_insert_ne; [done|]. congruence.
  - unfold handleDetachEvent. destruct (_ && _) eqn:E; [|done].
    apply andb_true_iff in E as [_ E%bool_decide_eq_true]. apply orphan_detach; [done|]. congruence.
  - by apply orphan_alter.
Qed.

(** [newSessionContext] is not serialised with activation.  If another
    server is activated after [handleStream] has checked that its own is
    active, the new session belongs to a server that has been replaced, and
    no later activation detaches it: as long as it runs, no client can ever
    attach to it. *)
Theorem late_session_orphaned w s1 s2 v b id pty size es :
  w_active w = Some s2 -> s2 <> s1 -> w_servers w !! s1 = Some v -> sv_bus v = Some b ->
  w_sessions w !! id = None -> Forall (fun e => e <> CloseSession id) es ->
  let w' := world_run es (fst (newSessionContext w s1 id pty size)) in
  w_active w' <> Some s1 /\
  (exists sess, w_sessions w' !! id = Some sess /\ ss_server sess = Some s1) /\
  forall s io err p cols rows ackOk resizeOk,
    snd (attachSession w' s io err (AttachMsg id p cols rows) ackOk resizeOk) <> Attached.
Proof.
  intros Ha Hne Hv Hb Hid Hes w'.
  assert (Horp : orphan s1 id w').
  { unfold w'. assert (H0 : orphan s1 id (fst (newSessionContext w s1 id pty size))).
    { unfold newSessionContext. rewrite Hid. split; simpl; eauto. eexists. by rewrite lookup_insert_eq. }
    revert H0. generalize (fst (newSessionContext w s1 id pty size)). clear -Hes.
    induction Hes as [|e es He _ IH]; intros w0 H0; [done|]. apply IH. by apply orphan_step. }
  destruct Horp as [(sess & Hs & Ho) (a & Ha' & Hne') _]. split_and!; [congruence|by exists sess|].
  intros s io err p cols rows ackOk resizeOk. unfold attachSession. simpl. rewrite Hs, Ho.
  repeat case_match; done.
Qed.

(** ** A client that never speaks *)

(** C37: [clientChecker] is set only by the first bus message, but the connect
    timeout closes a server without one, and [handleStream] consults it after
    refusing a stream that came before the bus.  Both dereference nil: one
    client that completes the transport handshake and then stays silent, or
    opens any other stream first, brings the whole process down. *)
Theorem silent_client_panics w s :
  exists v, w_servers (newSshUdpServer w s) !! s = Some v /\ connectTimeout v = None /\
  forall stream command helloOk, command <> Some "bus"%string ->
    let '(v', id, d) := handleStream (newSshUdpServer w s) s v stream command helloOk in
    (forall c, d <> RunHandler c) /\ exists i, id = Some i /\ stream_done v' i = None.
Proof.
  eexists. simpl. rewrite lookup_insert_eq. split_and!; [done..|].
  intros stream [c|] helloOk Hc; simpl; [|by split; eauto].
  unfold dispatch_command. rewrite !bool_decide_eq_true_2 by congruence. simpl.
  rewrite bool_decide_eq_false_2 by congruence. split; [done|]. eauto.
Qed.

(** ** Writes across a swap *)

(** One attempt of [replaceableStream.do] to write.  [at_handed]: the buffer
    went to the writing goroutine before the close was seen; [at_taken]: how
    many bytes the stream took; [at_failed]: with an error; [at_acked]: the
    caller got the acknowledgement rather than the close; [at_switched]: the
    stream was replaced meanwhile. *)
Record attempt := Attempt {
  at_stream : Z;
  at_handed : bool;
  at_taken : nat;
  at_failed : bool;
  at_acked : bool;
  at_switched : bool
}.

(** A close is seen only on a stream that was replaced. *)
Definition at_possible (a : attempt) : bool := (at_handed a && at_acked a) || at_switched a.

(** [interruptibleStream.Write]: success or not, and what the stream took. *)
Definition interruptible_Write (buf : bytes) (a : attempt) : bool * bytes :=
  if negb (at_handed a) then (false, [])
  else (at_acked a && negb (at_failed a), take (at_taken a) buf).

(** [replaceableStream.Write]: the result, [None] while it still waits, and
    what each stream has taken. *)
Fixpoint replaceable_Write (buf : bytes) (attempts : list attempt) : option bool * list (Z * bytes) :=
  match attempts with
  | [] => (None, [])
  | a :: rest =>
      let '(ok, taken) := interruptible_Write buf a in
      if at_switched a && negb ok then
        let '(r, out) := replaceable_Write buf rest in (r, (at_stream a, taken) :: out)
      else (Some ok, [(at_stream a, taken)])
  end.

Lemma replaceable_Write_ok buf attempts out :
  replaceable_Write buf attempts = (Some true, out) ->
  exists a, a ∈ attempts /\ at_acked a = true /\ at_failed a = false /\
    last out = Some (at_stream a, take (at_taken a) buf).
Proof.
  revert out. induction attempts as [|a rest IH]; intros out; simpl; [done|].
  unfold interruptible_Write. destruct (at_handed a), (at_acked a) eqn:Ea, (at_failed a) eqn:Ef, (at_switched a); simpl.
  all: try (intros [= <-]; exists a; split_and!; [by left|done..]).
  all: try (intros [=]; done).
  all: destruct (replaceable_Write buf rest) as [r out'] eqn:E; intros [= -> <-];
    destruct (IH out' eq_refl) as (a' & Hin & ? & ? & Hl); exists a'; split_and!; [by right|done..|];
    by destruct out'; [|rewrite last_cons_cons].
Qed.

(** A write that succeeds was acknowledged by the stream of its last
    attempt.  But an earlier stream may have taken the bytes too: when it has
    written the buffer and the close is picked before the acknowledgement, the
    write fails for the caller and is repeated on the replacement, so the
    bytes land on both. *)
Theorem racing_write_lands_twice buf s1 s2 :
  (forall attempts out, replaceable_Write buf attempts = (Some true, out) ->
     exists a, a ∈ attempts /\ at_acked a = true /\ at_failed a = false /\
       last out = Some (at_stream a, take (at_taken a) buf)) /\
  exists attempts, forallb at_possible attempts = true /\
    replaceable_Write buf attempts = (Some true, [(s1, buf); (s2, buf)]).
Proof.
  split; [apply replaceable_Write_ok|].
  exists [Attempt s1 true (length buf) false false true; Attempt s2 true (length buf) false true false].
  split; [done|]. simpl. by rewrite firstn_all.
Qed.

(** ** The properties at work *)

Module Handover.
Definition first : list world_event :=
  [NewServer 1; InitBus 1 10 true; NewSession 1 7 true (80, 24); StartIO 7 11 12 false; WaitSession 7; NewServer 2].
Definition next : list world_event := first ++ [InitBus 2 20 true].
End Handover.

Lemma sessions_follow_active_witness :
  let w := world_run Handover.next (start_world true true) in
  map_Forall (fun _ sess => ss_checker sess = ss_server sess /\
                (ss_server sess = None \/ ss_server sess = w_active w)) (w_sessions w).
Proof. apply (sessions_follow_active true true Handover.next). reflexivity. Defined.

Lemma takeover_attaches_witness :
  let w1 := fst (initBusAndServer (world_run Handover.first (start_world true true)) 2 20 true) in
  let '(w2, r) := attachSession w1 2 21 22 (AttachMsg 7 true 100 0) true true in
  r = Attached /\ w_active w2 = Some 2 /\
  exists sess', w_sessions w2 !! 7 = Some sess' /\ ss_server sess' = Some 2 /\ ss_checker sess' = Some 2 /\
    (false = false -> ss_ioStream sess' = Some (RS (Some 21) false)) /\
    (true = false -> ss_errStream sess' = Some (RS (Some 22) false)).
Proof.
  apply (takeover_attaches true true Handover.first 2 20 7
           (Sess (Some 1) (Some 1) (Some (RS (Some 11) false)) (Some (RS None true)) true (80, 24) None true)
           (RS (Some 11) false) (RS None true) 21 22 true 100 0 eq_refl eq_refl eq_refl eq_refl (fun _ => eq_refl)
           (Srv false false false None 0 (Some ∅)) eq_refl eq_refl eq_refl).
Defined.

Lemma late_session_orphaned_witness :
  let w := world_run Handover.next (start_world true true) in
  let w' := world_run [NewServer 3; InitBus 3 30 true] (fst (newSessionContext w 1 8 true (80, 24))) in
  w_active w' <> Some 1 /\
  (exists sess, w_sessions w' !! 8 = Some sess /\ ss_server sess = Some 1) /\
  forall s io err p cols rows ackOk resizeOk,
    snd (attachSession w' s io err (AttachMsg 8 p cols rows) ackOk resizeOk) <> Attached.
Proof.
  apply (late_session_orphaned (world_run Handover.next (start_world true true)) 1 2
           (Srv false true true (Some 10) 0 (Some ∅)) 10); try reflexivity; [lia|by repeat constructor].
Defined.
