(* ===== verification/Transport.v ===== *)
(** * Transport: how the two ends of the transport are set up ([service.go], [proto.go])

    The secret of a KCP transport is made by the server ([listenKCP]), printed in
    hexadecimal in its description, and read back by the client ([newKcpClient]);
    [Rekey] begins where both have built their keys from it.  Then the accepting of
    connections and their streams ([handleKcpConn], [handleQuicConn]), and the
    queue of the datagrams of a KCP connection. *)

From Stdlib Require Import ZArith Lia Ascii String.
From stdpp Require Import base list strings gmap.
From S2P Require Import Prelude Wire Rekey Datagram Server.
Open Scope Z_scope.

(** ** Hexadecimal *)

(** A digit as [%x] prints it. *)
Definition hex_digit (n : Z) : byte := byte_of_Z (if n <? 10 then 48 + n else 87 + n).

Definition hex_encode (b : bytes) : bytes := b ≫= fun c => [hex_digit (Z_of_byte c / 16); hex_digit (Z_of_byte c mod 16)].

(** A digit as [hex.DecodeString] reads it, in either case. *)
Definition hex_value (c : byte) : option Z :=
  let z := Z_of_byte c in
  if (48 <=? z) && (z <=? 57) then Some (z - 48)
  else if (97 <=? z) && (z <=? 102) then Some (z - 87)
  else if (65 <=? z) && (z <=? 70) then Some (z - 55)
  else None.

(** [hex.DecodeString]: an odd length is an error too. *)
Fixpoint DecodeString (s : bytes) : option bytes :=
  match s with
  | [] => Some []
  | [_] => None
  | a :: b :: s => match hex_value a, hex_value b, DecodeString s with
                   | Some x, Some y, Some rest => Some (byte_of_Z (16 * x + y) :: rest)
                   | _, _, _ => None
                   end
  end.

(** ** The secret *)

(** What the server tells the client about itself. *)
Record ServerInfo := MkServerInfo {
  si_ServerVer : bytes;
  si_ProtoVer : Z;
  si_Port : Z;
  si_Mode : string;
  si_Pass : bytes;
  si_Salt : bytes;
  si_ServerCert : bytes;
  si_ClientCert : bytes;
  si_ClientKey : bytes;
  si_ProxyKey : bytes;
  si_ClientID : Z;
  si_ServerID : Z;
  si_ProxyMode : string;
  si_MTU : Z
}.

Definition kUdpModeKCP : string := "KCP".
Definition kUdpModeQUIC : string := "QUIC".

Definition with_secret (pass salt : bytes) (i : ServerInfo) : ServerInfo :=
  MkServerInfo (si_ServerVer i) (si_ProtoVer i) (si_Port i) kUdpModeKCP (hex_encode pass) (hex_encode salt) (si_ServerCert i)
    (si_ClientCert i) (si_ClientKey i) (si_ProxyKey i) (si_ClientID i) (si_ServerID i) (si_ProxyMode i) (si_MTU i).

Definition kRekeyBytesThreshold : Z := 2 ^ 30.
Definition kRekeyTimeThreshold : Z := 3600.

Section Keys.
Context `{!Crypto}.

(** The random bytes, if they can be had; whether KCP takes the connection. *)
Definition listenKCP (pass salt : option bytes) (serveOk : bool) (info : ServerInfo) (delegToProxy : bool) (now : Z)
  : option (ServerInfo * rotatingCrypto) :=
  match pass, salt with
  | Some pass, Some salt =>
      let crypto := (newRotatingCrypto false pass salt 0 0 delegToProxy now).1 in
      if serveOk then Some (with_secret pass salt info, crypto) else None
  | _, _ => None
  end.

(** [connOk]: the connection and the session over it can be made. *)
Definition newKcpClient (info : ServerInfo) (connOk : bool) (now : Z) : option rotatingCrypto :=
  match DecodeString (si_Pass info), DecodeString (si_Salt info) with
  | Some pass, Some salt =>
      let crypto := (newRotatingCrypto true pass salt kRekeyBytesThreshold kRekeyTimeThreshold false now).1 in
      if connOk then Some crypto else None
  | _, _ => None
  end.

(** ** Reading back what was printed *)

Lemma hex_value_digit n : 0 <= n < 16 -> hex_value (hex_digit n) = Some n.
Proof.
  intros Hn. unfold hex_value, hex_digit. destruct (Z.ltb_spec n 10); rewrite Z_of_byte_of_Z, Z.mod_small by lia; cbv zeta.
  - destruct (Z.leb_spec 48 (48 + n)); [|lia]. destruct (Z.leb_spec (48 + n) 57); [|lia]. cbn [andb]. f_equal. lia.
  - destruct (Z.leb_spec (87 + n) 57); [lia|]. rewrite andb_false_r.
    destruct (Z.leb_spec 97 (87 + n)); [|lia]. destruct (Z.leb_spec (87 + n) 102); [|lia]. cbn [andb]. f_equal. lia.
Qed.

Lemma DecodeString_encode b : DecodeString (hex_encode b) = Some b.
Proof.
  induction b as [|c b IH]; [done|]. pose proof (Z_of_byte_range c) as Hc.
  change (hex_encode (c :: b)) with (hex_digit (Z_of_byte c / 16) :: hex_digit (Z_of_byte c mod 16) :: hex_encode b).
  cbn [DecodeString]. rewrite !hex_value_digit, IH.
  - f_equal. f_equal. apply Z_of_byte_inj. pose proof (Z.div_mod (Z_of_byte c) 16 ltac:(lia)). rewrite Z_of_byte_of_Z, Z.mod_small by lia. lia.
  - apply Z.mod_pos_bound. lia.
  - split; [apply Z.div_pos; lia|apply Z.div_lt_upper_bound; lia].
Qed.

(** A client that is given the server's description builds its keys from the
    same secret: the two ends of a KCP transport begin in the state from which
    the rekeying of [Rekey] is shown to be safe. *)
Theorem ends_share_secret pass salt info0 now info srv :
  listenKCP (Some pass) (Some salt) true info0 false now = Some (info, srv) ->
  exists cl, newKcpClient info true now = Some cl /\
    Link cl srv 0 None None [derive pass salt] [] [] = rk_init pass salt kRekeyBytesThreshold kRekeyTimeThreshold now /\
    activeKey cl = activeKey srv.
Proof.
  unfold listenKCP. intros [= <- <-]. unfold newKcpClient. cbn [with_secret si_Pass si_Salt]. rewrite !DecodeString_encode.
  eexists. split_and!; done.
Qed.

End Keys.

(** ** The protocol of a client *)

Inductive proto_choice := NewKcp | NewQuic | PleaseUpgrade | UnknownMode.

Definition newProtoClient (info : ServerInfo) : proto_choice :=
  if bool_decide (si_Mode info = ""%string) then PleaseUpgrade
  else if bool_decide (si_Mode info = kUdpModeKCP) then NewKcp
  else if bool_decide (si_Mode info = kUdpModeQUIC) then NewQuic
  else UnknownMode.

(** ** Accepting connections *)

(** A server that is not attachable serves one client. *)
Definition busy (w : world) : bool :=
  negb (w_attachable w) &&
  match w_active w with
  | Some s => match w_servers w !! s with Some v => sv_serving v | None => false end
  | None => false
  end.

(** [handleKcpConn] for connection [s]: [smuxOk] is whether the session over it
    can be made, [bound] whether [newSshUdpServer] accepts the client, [streams]
    what [AcceptStream] gives until its error.  The world, the streams handled, and
    whether the connection is closed at the end. *)
Definition handleKcpConn (smuxOk bound : bool) (s : Z) (streams : list Z) (w : world) : world * list Z * bool :=
  if busy w then (w, [], true)
  else if negb smuxOk then (w, [], true)
  else if negb bound then (w, [], true)
  else (newSshUdpServer w s, streams, true).

Definition handleQuicConn (bound : bool) (s : Z) (streams : list Z) (w : world) : world * list Z * bool :=
  if busy w then (w, [], true)
  else if negb bound then (w, [], true)
  else (newSshUdpServer w s, streams, true).

(** The connections of [serveKCP] and [serveQUIC], one after the other. *)
Definition serve_conns (conns : list (bool * bool * Z * list Z)) (w : world) : world * list (Z * list Z) :=
  foldl (fun '(w, handled) '(smuxOk, bound, s, streams) =>
           let '(w', l, _) := if w_kcp w then handleKcpConn smuxOk bound s streams w else handleQuicConn bound s streams w in
           (w', handled ++ [(s, l)])) (w, []) conns.

(** Once a server that is not attachable serves its client, no later connection
    changes anything or has a stream handled. *)
Lemma second_client_refused w conns :
  busy w = true -> (serve_conns conns w).1 = w /\ Forall (fun x => x.2 = []) (serve_conns conns w).2.
Proof.
  intros Hb. unfold serve_conns.
  assert (H : forall handled : list (Z * list Z), Forall (fun x => x.2 = []) handled ->
    let r := foldl (fun '(w, handled) '(smuxOk, bound, s, streams) =>
               let '(w', l, _) := if w_kcp w then handleKcpConn smuxOk bound s streams w else handleQuicConn bound s streams w in
               (w', handled ++ [(s, l)])) (w, handled) conns in r.1 = w /\ Forall (fun x => x.2 = []) r.2); [|by apply H].
  induction conns as [|[[[smuxOk bound] s] streams] conns IH]; intros handled Hh; [done|]. cbn [foldl].
  replace (if w_kcp w then handleKcpConn smuxOk bound s streams w else handleQuicConn bound s streams w) with (w, [] : list Z, true)
    by (unfold handleKcpConn, handleQuicConn; rewrite Hb; by destruct (w_kcp w)).
  apply IH. apply Forall_app. by split; [|constructor].
Qed.

(** ** Datagrams *)

Definition kQuicShortHeaderSize : Z := 37.

(** What is left for a datagram, in 16 bits: of the largest out-of-band message
    of KCP, and of a QUIC packet. *)
Definition newKcpDatagramConn (oobMaxSize : Z) : Z := u16 (u16 oobMaxSize - Z.of_nat kUdpForwardChannelIdSize).
Definition newQuicDatagramConn (initialPacketSize : Z) : Z := u16 (initialPacketSize - kQuicShortHeaderSize - Z.of_nat kUdpForwardChannelIdSize).

(** The channel between the handler of KCP and [ReceiveDatagram]. *)
Definition kDatagramQueue : nat := 1024.

Inductive dgram_event := DArrives (b : bytes) | DReceive.

(** The queue, and what [ReceiveDatagram] has returned. *)
Definition dgram_step (st : list bytes * list bytes) (e : dgram_event) : list bytes * list bytes :=
  let '(queue, got) := st in
  match e with
  | DArrives b => if (length queue <? kDatagramQueue)%nat then (queue ++ [b], got) else (queue, got)
  | DReceive => match queue with [] => (queue, got) | b :: rest => (rest, got ++ [b]) end
  end.

Definition dgram_run (es : list dgram_event) : list bytes * list bytes := foldl dgram_step ([], []) es.

Definition arrivals (es : list dgram_event) : list bytes := omap (fun e => match e with DArrives b => Some b | DReceive => None end) es.

(** Datagrams are received in the order of their arrival, each at most once;
    one is dropped only when 1024 wait already. *)
Theorem datagrams_in_order es :
  let '(queue, got) := dgram_run es in
  (got ++ queue) `sublist_of` arrivals es /\ (length queue <= kDatagramQueue)%nat /\
  ((forall es' rest, es = es' ++ rest -> (length (dgram_run es').1 < kDatagramQueue)%nat) -> got ++ queue = arrivals es).
Proof.
  induction es as [|e es IH] using rev_ind; [cbn; split_and!; [done|lia|done]|]. unfold dgram_run, arrivals in *. rewrite foldl_snoc, omap_app.
  destruct (foldl dgram_step ([], []) es) as [queue got] eqn:E. destruct IH as (Hs & Hl & Hf).
  assert (Hf' : (forall es' rest, es ++ [e] = es' ++ rest -> (length (foldl dgram_step ([], []) es').1 < kDatagramQueue)%nat) ->
    got ++ queue = omap (fun e => match e with DArrives b => Some b | DReceive => None end) es).
  { intros H. apply Hf. intros es' rest ->. apply (H es' (rest ++ [e])). by rewrite app_assoc. }
  destruct e as [b|]; cbn [dgram_step omap list_omap].
  - destruct (Nat.ltb_spec (length queue) kDatagramQueue) as [Hlt|Hge].
    + split_and!; [rewrite app_assoc; by apply sublist_app|rewrite length_app; simpl; lia|].
      intros H. by rewrite app_assoc, (Hf' H).
    + split_and!; [by apply sublist_inserts_r|lia|]. intros H. specialize (H es [DArrives b] eq_refl). rewrite E in H. cbn in H. lia.
  - rewrite (app_nil_r (omap _ es)). destruct queue as [|b queue]; [by split_and!|]. rewrite <- app_assoc. cbn [app length] in *.
    split_and!; [done|lia|]. exact Hf'.
Qed.

(** ** Example *)

Import Toy.

Definition no_info : ServerInfo := MkServerInfo [] 0 0 "" [] [] [] [] [] [] 0 0 "" 0.

Lemma ends_share_secret_witness :
  exists info srv cl, listenKCP (Some (bs "k")) (Some (bs "salt")) true no_info false 0 = Some (info, srv) /\ si_Pass info = bs "6b" /\
    newKcpClient info true 0 = Some cl /\ activeKey cl = activeKey srv.
Proof.
  destruct (ends_share_secret (bs "k") (bs "salt") no_info 0 _ _ eq_refl) as (cl & Hcl & _ & Hk).
  eexists _, _, cl. split; [reflexivity|]. split; [reflexivity|]. split; [exact Hcl|exact Hk].
Defined.
