(* ===== verification/Frontend.v ===== *)
(** * Frontend: from the sockets to the server proxy ([proxy_server.go])

    The choice of the UDP socket on which the first client answers, the TCP
    frontend of an attachable server, whose connections take turns in handing
    their frames to one reader.  Client states and authentication are those of [ProxyAuth]. *)

From Stdlib Require Import ZArith Lia Ascii String.
From stdpp Require Import base list strings gmap relations.
From S2P Require Import Prelude Wire Rekey ProxyAuth.
Open Scope Z_scope.

(** ** Choosing a UDP socket *)

(** [pb_open]: the sockets, open or not; [pb_probing]: those on which
    [probeAuth] still reads; [pb_conn] is [udpFrontendConn.conn]. *)
Record probe := Probe {
  pb_open : list bool;
  pb_probing : list bool;
  pb_conn : option nat;
  pb_proxy : serverProxy
}.

Section Probing.
Context `{Crypto}.

(** The part of [initConn] for a client that has authenticated. *)
Definition initConn_auth (p : serverProxy) (a : addr) (clientID newSerialNumber : Z) : serverProxy :=
  let '(p, c) := getClient p clientID in
  if cs_closed c then p
  else
    let p := set_client p clientID (with_front true c) in
    if newSerialNumber <=? cs_serialNumber c then p
    else
      let p := modify_client p clientID (with_serial newSerialNumber) in
      let '(p, ap) := alloc_addr p a in
      setAuthedAddr p clientID None (Some ap).

(** [initConn] on the socket [i]; no client is given when it is the only
    socket. *)
Definition initConn (i : nat) (auth : option (addr * Z * Z)) (b : probe) : probe :=
  match pb_conn b with
  | Some _ => Probe (<[i := false]> (pb_open b)) (pb_probing b) (pb_conn b) (pb_proxy b)
  | None =>
      Probe (pb_open b) (pb_probing b) (Some i)
        (match auth with Some (a, id, s) => initConn_auth (pb_proxy b) a id s | None => pb_proxy b end)
  end.

Definition stop_probing (i : nat) (b : probe) : probe :=
  Probe (pb_open b) (<[i := false]> (pb_probing b)) (pb_conn b) (pb_proxy b).

(** [start] with these sockets. *)
Definition front_start (n : nat) (p : serverProxy) : probe :=
  let b := Probe (replicate n true) (replicate n true) None p in
  if (n =? 1)%nat then initConn 0 None (stop_probing 0 b) else b.

(** One pass of [probeAuth]: a datagram, or [None] for an error, which is also
    the deadline. *)
Definition probeAuth_pass (k : key) (i : nat) (r : option (addr * bytes)) (b : probe) : probe :=
  match pb_probing b !! i with
  | Some true =>
      match r with
      | None => let b := stop_probing i b in
                Probe (<[i := false]> (pb_open b)) (pb_probing b) (pb_conn b) (pb_proxy b)
      | Some (a, pkt) =>
          match openAuthPacket k (pb_proxy b) pkt with
          | Some (id, s) => initConn i (Some (a, id, s)) (stop_probing i b)
          | None => b
          end
      end
  | _ => b
  end.

Definition probe_run (k : key) (b : probe) (es : list (nat * option (addr * bytes))) : probe :=
  fold_left (fun b e => probeAuth_pass k e.1 e.2 b) es b.

(** A socket that is not probed any more is open exactly if it is the one. *)
Record probe_ok (b : probe) : Prop := {
  po_length : length (pb_open b) = length (pb_probing b);
  po_probing : forall i, pb_probing b !! i = Some true -> pb_open b !! i = Some true;
  po_done : forall i, pb_probing b !! i = Some false -> pb_open b !! i = Some (bool_decide (pb_conn b = Some i));
  po_conn : forall i, pb_conn b = Some i -> pb_probing b !! i = Some false
}.

Lemma insert_lookup_cases {A} (l : list A) i x j y :
  <[i := x]> l !! j = Some y -> j = i /\ y = x /\ (i < length l)%nat \/ j <> i /\ l !! j = Some y.
Proof. intros [(-> & -> & Hi)|[Hne Hj]]%list_lookup_insert_Some; auto. Qed.

Lemma lookup_lt_insert {A} (l : list A) i x y : l !! i = Some y -> <[i := x]> l !! i = Some x.
Proof. intros Hi%lookup_lt_Some. by apply list_lookup_insert_eq. Qed.

Lemma probe_ok_fail b i : probe_ok b -> pb_probing b !! i = Some true ->
  probe_ok (Probe (<[i := false]> (pb_open b)) (<[i := false]> (pb_probing b)) (pb_conn b) (pb_proxy b)).
Proof.
  intros [Hl Hp Hd Hc] Hi. split; simpl.
  - by rewrite !length_insert.
  - intros j [(_ & ? & _)|[Hne Hj]]%insert_lookup_cases; [done|]. rewrite list_lookup_insert_ne by done. auto.
  - intros j [(-> & _ & _)|[Hne Hj]]%insert_lookup_cases.
    + rewrite (lookup_lt_insert _ _ _ _ (Hp i Hi)). rewrite bool_decide_eq_false_2; [done|].
      intros Hci%Hc. congruence.
    + rewrite list_lookup_insert_ne by done. auto.
  - intros j Hj%Hc. destruct (decide (j = i)) as [->|]; [congruence|]. by rewrite list_lookup_insert_ne.
Qed.

Lemma probe_ok_init b i auth : probe_ok b -> pb_probing b !! i = Some true -> probe_ok (initConn i auth (stop_probing i b)).
Proof.
  intros Hb Hi. unfold initConn. cbn [pb_conn stop_probing pb_open pb_probing pb_proxy].
  destruct (pb_conn b) as [c|] eqn:Ec; [rewrite <- Ec; by apply probe_ok_fail|].
  destruct Hb as [Hl Hp Hd Hc]. split; simpl.
  - by rewrite length_insert.
  - intros j [(_ & ? & _)|[Hne Hj]]%insert_lookup_cases; [done|auto].
  - intros j [(-> & _ & _)|[Hne Hj]]%insert_lookup_cases.
    + by rewrite bool_decide_eq_true_2, (Hp i Hi).
    + rewrite (Hd j Hj), Ec. f_equal. by apply bool_decide_ext; split; [|intros [= ->]].
  - intros j [= <-]. by eapply lookup_lt_insert.
Qed.

Lemma probe_ok_step k i r b : probe_ok b -> probe_ok (probeAuth_pass k i r b).
Proof.
  intros Hb. unfold probeAuth_pass. destruct (pb_probing b !! i) as [[|]|] eqn:Hi; try done.
  destruct r as [[a pkt]|]; [|exact (probe_ok_fail b i Hb Hi)].
  destruct (openAuthPacket k (pb_proxy b) pkt) as [[id s]|]; [by apply probe_ok_init|done].
Qed.

Lemma probe_ok_start n p : probe_ok (front_start n p).
Proof.
  assert (H0 : probe_ok (Probe (replicate n true) (replicate n true) None p)).
  { split; simpl; try done; by intros i [? _]%lookup_replicate. }
  unfold front_start. destruct (Nat.eqb_spec n 1) as [->|]; [by apply probe_ok_init|done].
Qed.

End Probing.

(** Whatever arrives on the sockets of a server and in whatever order, once
    no socket is probed any more the sockets that are open are the chosen one
    alone, or none at all if nobody has authenticated. *)
Theorem one_socket_remains `{Crypto} (k : key) (n : nat) (p : serverProxy) (es : list (nat * option (addr * bytes))) :
  let b := probe_run k (front_start n p) es in
  (forall i, pb_probing b !! i <> Some true) ->
  forall i, pb_open b !! i = Some true <-> pb_conn b = Some i.
Proof.
  intros b Hend i.
  assert (probe_ok b) as [Hl Hp Hd Hc].
  { subst b. unfold probe_run. generalize (probe_ok_start n p). generalize (front_start n p). clear.
    induction es as [|e es IH]; intros b Hb; [done|]. by apply IH, probe_ok_step. }
  split.
  - intros Hi. assert (pb_probing b !! i = Some false) as Hf.
    { apply lookup_lt_Some in Hi as Hlt. rewrite Hl in Hlt. apply lookup_lt_is_Some in Hlt as [[|] Hx]; [by destruct (Hend i)|done]. }
    rewrite (Hd i Hf) in Hi. injection Hi as Hi. by apply bool_decide_eq_true in Hi.
  - intros Hi. rewrite (Hd i (Hc i Hi)). by rewrite bool_decide_eq_true_2.
Qed.

(** Three sockets: junk on the first, a client on the second, the others run
    into their deadline. *)
Definition example_probes : list (nat * option (addr * bytes)) :=
  [(0%nat, Some (Handshake.X, bs "junk")); (1%nat, Some (Handshake.X, Handshake.auth 1)); (0%nat, None); (2%nat, None)].

Lemma one_socket_remains_witness :
  let b := probe_run Handshake.K (front_start 3 Handshake.start) example_probes in
  pb_open b !! 1%nat = Some true <-> pb_conn b = Some 1%nat.
Proof.
  apply (one_socket_remains Handshake.K 3 Handshake.start example_probes).
  intros [|[|[|i]]]; vm_compute; discriminate.
Defined.

(** The socket is initialised as if its packet had been read afterwards by
    [readFrom], but for the answer. *)
Lemma initConn_auth_reads `{Crypto} k p a pkt id s : front_getClient p a = (p, Unknown) -> openAuthPacket k p pkt = Some (id, s) ->
  initConn_auth p a id s = (readFrom_step k p None a pkt).1.
Proof.
  intros Hg Ho. unfold readFrom_step, initConn_auth. rewrite Hg, Ho. destruct (getClient p id) as [p1 c].
  destruct (cs_closed c); [done|]. destruct (s <=? cs_serialNumber c); [done|].
  by destruct (alloc_addr _ a).
Qed.

(** The packet that chooses the socket is not answered, but the client
    repeats it, and the repetition is: the client accepts the answer. *)
Theorem probed_client_answered `{CryptoOk} (k : key) (p : serverProxy) (cp : clientProxy) (a : addr) (i : nat) (b : probe)
    (n1 n2 : bytes) (pkt : bytes) :
  proxy_wf p -> front_getClient p a = (p, Unknown) -> unknown_addr p a ->
  pb_proxy b = p -> pb_conn b = None -> pb_probing b !! i = Some true ->
  (px_attachable p = true \/ cp_clientID cp = px_clientID p) -> cp_serverID cp = px_serverID p ->
  (forall c, px_clients p !! cp_clientID cp = Some c -> cs_closed c = false) ->
  serialOf p (cp_clientID cp) < cp_serialNumber cp ->
  is_u64 (px_serverID p) -> is_u64 (cp_clientID cp) -> is_u64 (cp_serialNumber cp) ->
  length n1 = gcm_nonceSize -> length n2 = gcm_nonceSize -> sendAuthPacket k cp (Some n1) = Some pkt ->
  let b' := probeAuth_pass k i (Some (a, pkt)) b in
  pb_conn b' = Some i /\
  exists p2 resp, readFrom_step k (pb_proxy b') (Some n2) a pkt = (p2, FrontOut None None (Some (resp, a))) /\
    isAuthSuccessful k cp resp = (cp, true).
Proof.
  intros Hwf Hg Hun Hp Hconn Hi Hor Hsv Hopen Hser Hsi Hci Hcs Hn1 Hn2 Hpkt b'. subst b'.
  pose proof (open_client_auth k p cp n1 pkt Hpkt Hn1 Hci Hcs Hor) as Ho.
  unfold probeAuth_pass, initConn. rewrite Hi, Hp, Ho. cbn [pb_conn stop_probing]. rewrite Hconn. cbn [pb_proxy pb_conn stop_probing].
  rewrite Hp, (initConn_auth_reads k p a pkt _ _ Hg Ho). split; [done|].
  destruct (readFrom_fresh_auth k p None a pkt _ _ Hwf Hun Ho Hser Hopen) as (p1 & Hst & Hat & Hs1 & Hcfg).
  pose proof (readFrom_progress k p None a pkt Hwf) as (Hwf1 & _). rewrite Hst in Hwf1 |- *. cbn [fst] in *.
  destruct (front_getClient_authed p1 a _ Hwf1 Hat) as (p2 & Hg2 & Hv). unfold readFrom_step. rewrite Hg2.
  pose proof (quiet_view p1 p2 Hv) as (_ & _ & _ & Hcfg2).
  assert (Hcfg' : same_config p p2) by (by eapply same_config_trans).
  rewrite (openAuthPacket_config k p p2 pkt Hcfg'), Ho, Z.eqb_refl. cbn [negb].
  destruct (authed_at_view p1 p2 a _ Hv Hat) as (c & q & Hc & Hq). rewrite Hc.
  assert (Hsc : cs_serialNumber c = cp_serialNumber cp).
  { destruct Hv as (_ & _ & _ & Hv & _). unfold serialOf in Hs1. rewrite <- Hs1, <- Hv, Hc. done. }
  rewrite Hsc, Z.ltb_irrefl. unfold respond. destruct (sealAuthPacket k _ (Some n2) _) as [resp|] eqn:Eseal;
    [|unfold sealAuthPacket, aesEncrypt in Eseal; done].
  eexists _, resp. split; [done|]. destruct Hcfg' as (_ & _ & Hsid).
  eapply (client_accepts k _ cp n2); [exact Eseal|done| | |done]; simpl; rewrite Hsid; done.
Qed.

Lemma probed_client_answered_witness :
  let b' := probeAuth_pass Handshake.K 1 (Some (Handshake.X, Handshake.auth 1)) (front_start 3 Handshake.start) in
  pb_conn b' = Some 1%nat /\
  exists p2 resp, readFrom_step Handshake.K (pb_proxy b') (Some (bs "m")) Handshake.X (Handshake.auth 1)
                    = (p2, FrontOut None None (Some (resp, Handshake.X))) /\
    isAuthSuccessful Handshake.K (Handshake.alice 1) resp = (Handshake.alice 1, true).
Proof.
  apply (@probed_client_answered Toy.toy_crypto Toy.toy_ok Handshake.K Handshake.start (Handshake.alice 1) Handshake.X 1 (front_start 3 Handshake.start)
           (bs "n") (bs "m") (Handshake.auth 1)); try reflexivity.
  - apply newServerProxy_wf.
  - intros j. split; intros (c & q & Hc & _); discriminate Hc.
  - by left.
  - intros c Hc. discriminate Hc.
  - split; [discriminate|reflexivity].
  - split; [discriminate|reflexivity].
  - split; [discriminate|reflexivity].
Defined.

(** ** The TCP frontend of an attachable server *)

(** Where the goroutine [readLoop] of a connection is. *)
Inductive loop_phase := LoopTop | Signalling (length : nat) | WaitAck | Ending | Ended.

(** [tn_sent] is what the peer has sent, [tn_pos] how much of it was read. *)
Record tconn := TConn {
  tn_client : Z;
  tn_sent : bytes;
  tn_pos : nat;
  tn_eof : bool;
  tn_open : bool;
  tn_phase : loop_phase
}.

(** [tf_queue] is [frameSignalCh]; [tf_reading] is the signal [readFrom] holds.
    [tf_delivered], the connection, the client and the packet of each return of
    [readFrom], is history. *)
Record tcpFront := TcpFront {
  tf_proxy : serverProxy;
  tf_conns : gmap Z tconn;
  tf_queue : list (Z * nat);
  tf_reading : option (Z * nat);
  tf_delivered : list (Z * Z * bytes)
}.

Definition set_conn (c : Z) (t : tconn) (f : tcpFront) : tcpFront :=
  TcpFront (tf_proxy f) (<[c := t]> (tf_conns f)) (tf_queue f) (tf_reading f) (tf_delivered f).

Definition with_phase (ph : loop_phase) (t : tconn) : tconn :=
  TConn (tn_client t) (tn_sent t) (tn_pos t) (tn_eof t) (tn_open t) ph.

Definition advance (n : nat) (t : tconn) : tconn :=
  TConn (tn_client t) (tn_sent t) (tn_pos t + n) (tn_eof t) (tn_open t) (tn_phase t).

Definition with_open (b : bool) (t : tconn) : tconn :=
  TConn (tn_client t) (tn_sent t) (tn_pos t) (tn_eof t) b (tn_phase t).

Definition unread (t : tconn) : bytes := drop (tn_pos t) (tn_sent t).

(** [io.ReadFull]: the bytes, an error, or [None] while it blocks. *)
Definition read_full (n : nat) (t : tconn) : option (option bytes) :=
  if negb (tn_open t) then Some None
  else if (n <=? length (unread t))%nat then Some (Some (take n (unread t)))
  else if tn_eof t then Some None
  else None.

Definition close_if (o : option Z) (f : tcpFront) : tcpFront :=
  match o with
  | Some c => match tf_conns f !! c with Some t => set_conn c (with_open false t) f | None => f end
  | None => f
  end.

(** [setClientConn] with the connection that it closes. *)
Definition tcp_setClientConn (id : Z) (old new : option Z) (f : tcpFront) : tcpFront :=
  let '(p, gone) := setClientConn (tf_proxy f) id old new in
  close_if gone (TcpFront p (tf_conns f) (tf_queue f) (tf_reading f) (tf_delivered f)).

Definition kFrameSignals : nat := 10.

(** [conn == client.clientConn.Load()]. *)
Definition is_current (c : Z) (id : Z) (f : tcpFront) : bool :=
  match px_clients (tf_proxy f) !! id with
  | Some s => bool_decide (cs_clientConn s = Some c)
  | None => false
  end.

(** One step of [readLoop] of the connection [c]. *)
Definition readLoop_step (c : Z) (f : tcpFront) : tcpFront :=
  match tf_conns f !! c with
  | None => f
  | Some t =>
      match tn_phase t with
      | LoopTop =>
          if negb (is_current c (tn_client t) f) then set_conn c (with_phase Ending t) f
          else match read_full 2 t with
               | None => f
               | Some None => set_conn c (with_phase Ending t) f
               | Some (Some h) => set_conn c (with_phase (Signalling (Z.to_nat (be_get h))) (advance 2 t)) f
               end
      | Signalling n =>
          if (length (tf_queue f) <? kFrameSignals)%nat then
            let f := set_conn c (with_phase WaitAck t) f in
            TcpFront (tf_proxy f) (tf_conns f) (tf_queue f ++ [(c, n)]) (tf_reading f) (tf_delivered f)
          else f
      | WaitAck => f
      | Ending => tcp_setClientConn (tn_client t) (Some c) None (set_conn c (with_phase Ended t) f)
      | Ended => f
      end
  end.

(** [readFrom] takes the next signal. *)
Definition take_signal (f : tcpFront) : tcpFront :=
  match tf_reading f, tf_queue f with
  | None, s :: q => TcpFront (tf_proxy f) (tf_conns f) q (Some s) (tf_delivered f)
  | _, _ => f
  end.

(** The signal is acknowledged, with an error or not; [readLoop] goes on. *)
Definition ack (c : Z) (ph : loop_phase) (t : tconn) (out : list (Z * Z * bytes)) (f : tcpFront) : tcpFront :=
  TcpFront (tf_proxy f) (<[c := with_phase ph t]> (tf_conns f)) (tf_queue f) None (tf_delivered f ++ out).

(** [readFrom] reads the frame of the signal it holds into a buffer. *)
Definition read_frame (size : nat) (f : tcpFront) : tcpFront :=
  match tf_reading f with
  | None => f
  | Some (c, n) =>
      match tf_conns f !! c with
      | None => f
      | Some t =>
          if (size <? n)%nat then ack c Ending t [] f
          else match read_full n t with
               | None => f
               | Some None => ack c Ending t [] f
               | Some (Some b) => ack c LoopTop (advance n t) [(c, tn_client t, b)] f
               end
      end
  end.

(** The end of [handshake] on a new connection of a client. *)
Definition tcp_accepted (c id : Z) (f : tcpFront) : tcpFront :=
  match tf_conns f !! c with
  | Some _ => f
  | None => tcp_setClientConn id None (Some c) (set_conn c (TConn id [] 0 false true LoopTop) f)
  end.

(** [tcpFrontendConn.writeTo]: the connection written to, [None] for the error.
    [sendOk]: whether the write succeeds. *)
Definition tcp_writeTo (id : Z) (sendOk : bool) (f : tcpFront) : tcpFront * option Z :=
  match px_clients (tf_proxy f) !! id with
  | None => (f, None)
  | Some s => match cs_clientConn s with
              | None => (f, None)
              | Some c => if sendOk then (f, Some c) else (tcp_setClientConn id (Some c) None f, None)
              end
  end.

Inductive tcp_event :=
| PeerSends (c : Z) (b : bytes)
| PeerCloses (c : Z)
| Accepted (c id : Z)
| LoopStep (c : Z)
| TakeSignal
| ReadFrame (size : nat)
| WriteFails (id : Z)
| ClearConn (id : Z) (old : option Z).

Definition tcp_step (f : tcpFront) (e : tcp_event) : tcpFront :=
  match e with
  | PeerSends c b =>
      match tf_conns f !! c with
      | Some t => if tn_eof t then f
                  else set_conn c (TConn (tn_client t) (tn_sent t ++ b) (tn_pos t) (tn_eof t) (tn_open t) (tn_phase t)) f
      | None => f
      end
  | PeerCloses c =>
      match tf_conns f !! c with
      | Some t => set_conn c (TConn (tn_client t) (tn_sent t) (tn_pos t) true (tn_open t) (tn_phase t)) f
      | None => f
      end
  | Accepted c id => tcp_accepted c id f
  | LoopStep c => readLoop_step c f
  | TakeSignal => take_signal f
  | ReadFrame size => read_frame size f
  | WriteFails id => (tcp_writeTo id false f).1
  | ClearConn id old => tcp_setClientConn id old None f
  end.

Definition tcp_run (f : tcpFront) (es : list tcp_event) : tcpFront := fold_left tcp_step es f.

Definition newTcpFront (p : serverProxy) : tcpFront := TcpFront p ∅ [] None [].

(** *** Frames stay whole *)

Definition frame (b : bytes) : bytes := be_put 2 (Z.of_nat (length b)) ++ b.

(** The packets delivered from a connection. *)
Definition packets_of (c : Z) (d : list (Z * Z * bytes)) : list bytes := (filter (fun e => e.1.1 = c) d).*2.

Definition chunk (t : tconn) : bytes := take (tn_pos t) (tn_sent t).

(** What was read of a connection: the packets delivered, and the header of the
    one that is under way. *)
Definition consumed (ds : list bytes) (t : tconn) : Prop :=
  (tn_pos t <= length (tn_sent t))%nat /\
  match tn_phase t with
  | LoopTop => chunk t = concat (frame <$> ds)
  | Signalling n => Z.of_nat n < 65536 /\ chunk t = concat (frame <$> ds) ++ be_put 2 (Z.of_nat n)
  | _ => concat (frame <$> ds) `prefix_of` chunk t
  end.

(** Over the connections, the signals in flight and the deliveries. *)
Record front_ok (conns : gmap Z tconn) (sigs : list (Z * nat)) (d : list (Z * Z * bytes)) : Prop := FrontOk {
  fr_conn : forall c t, conns !! c = Some t -> consumed (packets_of c d) t;
  fr_sig : forall c n, (c, n) ∈ sigs -> exists t, conns !! c = Some t /\ tn_phase t = WaitAck /\ Z.of_nat n < 65536 /\
             chunk t = concat (frame <$> packets_of c d) ++ be_put 2 (Z.of_nat n);
  fr_once : NoDup sigs.*1;
  fr_client : forall c id b, (c, id, b) ∈ d -> exists t, conns !! c = Some t /\ tn_client t = id /\ Z.of_nat (length b) < 65536
}.

Definition signals (f : tcpFront) : list (Z * nat) := option_list (tf_reading f) ++ tf_queue f.

Definition tcp_ok (f : tcpFront) : Prop := front_ok (tf_conns f) (signals f) (tf_delivered f).

(** The update of one connection: [fr_sig] holds of it if it has a signal. *)
Lemma front_ok_update conns sigs d c t t' :
  front_ok conns sigs d -> conns !! c = Some t -> tn_client t' = tn_client t -> consumed (packets_of c d) t' ->
  (c ∈ sigs.*1 -> tn_phase t' = tn_phase t /\ chunk t' = chunk t) -> front_ok (<[c := t']> conns) sigs d.
Proof.
  intros [Hc Hs Ho Hd] Ht Hcl Hcons Hsig. split; [| |done|].
  - intros c' t0 [[<- <-]|[Hne H0]]%lookup_insert_Some; eauto.
  - intros c' n Hin. destruct (Hs c' n Hin) as (t0 & H0 & Hph & Hch). destruct (decide (c' = c)) as [->|Hne].
    + exists t'. rewrite lookup_insert_eq. assert (t0 = t) as -> by congruence.
      destruct Hsig as [-> ->]; [|done]. apply list_elem_of_fmap. by exists (c, n).
    + exists t0. by rewrite lookup_insert_ne.
  - intros c' id b Hin. destruct (Hd c' id b Hin) as (t0 & H0 & Hid & Hlen). destruct (decide (c' = c)) as [->|Hne].
    + exists t'. rewrite lookup_insert_eq. split_and!; [done|congruence|done].
    + exists t0. by rewrite lookup_insert_ne.
Qed.

(** A connection that is not waiting for an acknowledgement has no signal. *)
Lemma front_ok_idle conns sigs d c t : front_ok conns sigs d -> conns !! c = Some t -> tn_phase t <> WaitAck -> c ∉ sigs.*1.
Proof.
  intros [_ Hs _ _] Ht Hph ([c' n] & -> & Hin)%list_elem_of_fmap. destruct (Hs _ _ Hin) as (t0 & H0 & Hw & _).
  simpl in *. congruence.
Qed.

(** More bytes, the end of the stream, a closed connection. *)
Lemma consumed_similar ds t sent eof op : tn_sent t `prefix_of` sent -> consumed ds t ->
  let t' := TConn (tn_client t) sent (tn_pos t) eof op (tn_phase t) in chunk t' = chunk t /\ consumed ds t'.
Proof.
  intros [more ->] [Hp Hc]. unfold consumed, chunk in *. simpl. rewrite take_app_le by done. split; [done|].
  rewrite length_app. split; [lia|done].
Qed.

Lemma tcp_ok_similar f c t sent eof op : tcp_ok f -> tf_conns f !! c = Some t -> tn_sent t `prefix_of` sent ->
  tcp_ok (set_conn c (TConn (tn_client t) sent (tn_pos t) eof op (tn_phase t)) f).
Proof.
  intros Hf Ht Hp. destruct (consumed_similar _ t sent eof op Hp (fr_conn _ _ _ Hf c t Ht)) as [Hch Hcons].
  eapply (front_ok_update _ _ _ c t); [exact Hf|done|done|exact Hcons|done].
Qed.

Lemma tcp_ok_close o f : tcp_ok f -> tcp_ok (close_if o f).
Proof.
  intros Hf. destruct o as [c|]; [|done]. simpl. destruct (tf_conns f !! c) as [t|] eqn:Ht; [|done].
  by apply tcp_ok_similar.
Qed.

Lemma tcp_ok_setClientConn id old new f : tcp_ok f -> tcp_ok (tcp_setClientConn id old new f).
Proof. intros Hf. unfold tcp_setClientConn. destruct (setClientConn _ _ _ _) as [p gone]. by apply tcp_ok_close. Qed.

Lemma consumed_end ds t ph : consumed ds t -> ph = Ending \/ ph = Ended -> consumed ds (with_phase ph t).
Proof.
  intros [Hp Hc] Hph. split; [done|]. unfold chunk in *. simpl.
  assert (concat (frame <$> ds) `prefix_of` take (tn_pos t) (tn_sent t)) as Hpre.
  { destruct (tn_phase t); try done; [by rewrite Hc|]. destruct Hc as [_ ->]. by apply prefix_app_r. }
  by destruct Hph as [-> | ->].
Qed.

Lemma tcp_ok_end f c t ph : tcp_ok f -> tf_conns f !! c = Some t -> tn_phase t <> WaitAck -> ph = Ending \/ ph = Ended ->
  tcp_ok (set_conn c (with_phase ph t) f).
Proof.
  intros Hf Ht Hw Hph. eapply (front_ok_update _ _ _ c t); [exact Hf|done|done| |].
  - apply consumed_end; [by apply (fr_conn _ _ _ Hf)|done].
  - intros Hin. by destruct (front_ok_idle _ _ _ c t Hf Ht Hw).
Qed.

Lemma read_full_Some n t b : read_full n t = Some (Some b) -> b = take n (unread t) /\ (n <= length (unread t))%nat /\ length b = n.
Proof.
  unfold read_full. destruct (tn_open t); [|done]. destruct (Nat.leb_spec n (length (unread t))); simpl; [|by destruct (tn_eof t)].
  intros [= <-]. rewrite length_take. split_and!; [done|lia|lia].
Qed.

Lemma chunk_advance n t : chunk (advance n t) = chunk t ++ take n (unread t).
Proof. unfold chunk, unread. simpl. by rewrite take_take_drop. Qed.

Lemma be_put_get2 h : length h = 2%nat -> be_put 2 (be_get h) = h.
Proof.
  destruct h as [|a [|b [|]]]; try done. intros _. rewrite !be_get_cons. cbn [length be_put be_get be_get_from].
  pose proof (Z_of_byte_range a). pose proof (Z_of_byte_range b).
  replace (Z.shiftr _ (8 * Z.of_nat 1)) with (Z_of_byte a) by (rewrite Z.shiftr_div_pow2 by lia; simpl; Z.div_mod_to_equations; lia).
  rewrite byte_of_Z_of_byte. do 2 f_equal.
  apply Z_of_byte_inj. rewrite Z_of_byte_of_Z.
  change (256 ^ Z.of_nat 1) with 256. change (256 ^ Z.of_nat 0) with 1. rewrite Z.shiftr_0_r.
  Z.div_mod_to_equations. lia.
Qed.

Lemma tcp_ok_header f c t h : tcp_ok f -> tf_conns f !! c = Some t -> tn_phase t = LoopTop -> read_full 2 t = Some (Some h) ->
  tcp_ok (set_conn c (with_phase (Signalling (Z.to_nat (be_get h))) (advance 2 t)) f).
Proof.
  intros Hf Ht Hph (-> & Hle & Hlen)%read_full_Some. eapply (front_ok_update _ _ _ c t); [exact Hf|done|done| |].
  - destruct (fr_conn _ _ _ Hf c t Ht) as [Hp Hc]. rewrite Hph in Hc. split.
    + unfold unread in Hle. rewrite length_drop in Hle. simpl. lia.
    + cbn [tn_phase with_phase]. change (chunk (with_phase _ (advance 2 t))) with (chunk (advance 2 t)).
      pose proof (be_get_range (take 2 (unread t))) as Hr. rewrite Hlen in Hr.
      rewrite Z2Nat.id by lia. split; [exact (proj2 Hr)|]. by rewrite chunk_advance, Hc, be_put_get2.
  - intros Hin. destruct (front_ok_idle _ _ _ c t Hf Ht); [congruence|done].
Qed.

Lemma tcp_ok_push f c t n : tcp_ok f -> tf_conns f !! c = Some t -> tn_phase t = Signalling n ->
  tcp_ok (TcpFront (tf_proxy f) (<[c := with_phase WaitAck t]> (tf_conns f)) (tf_queue f ++ [(c, n)]) (tf_reading f) (tf_delivered f)).
Proof.
  intros Hf Ht Hph. destruct (fr_conn _ _ _ Hf c t Ht) as [Hp Hc]. rewrite Hph in Hc.
  assert (Hidle : c ∉ (signals f).*1) by (eapply front_ok_idle; [exact Hf|done|congruence]).
  assert (Hup : front_ok (<[c := with_phase WaitAck t]> (tf_conns f)) (signals f) (tf_delivered f)).
  { eapply (front_ok_update _ _ _ c t); [exact Hf|done|done| |done]. split; [done|]. simpl.
    destruct Hc as [_ Hc]. unfold chunk in *. simpl. rewrite Hc. by apply prefix_app_r. }
  destruct Hup as [Hc' Hs' Ho' Hd']. unfold tcp_ok, signals. simpl. rewrite app_assoc. fold (signals f). split; [done| | |done].
  - intros c' m [Hin|[= -> ->]%list_elem_of_singleton]%elem_of_app; [by apply Hs'|].
    exists (with_phase WaitAck t). rewrite lookup_insert_eq. by destruct Hc.
  - rewrite fmap_app. apply NoDup_app. split_and!; [done| |by apply NoDup_singleton].
    intros x Hx ->%list_elem_of_singleton. done.
Qed.

Lemma packets_of_app c d e : packets_of c (d ++ e) = packets_of c d ++ packets_of c e.
Proof. unfold packets_of. by rewrite filter_app, fmap_app. Qed.

Lemma packets_of_none c d : Forall (fun e => e.1.1 <> c) d -> packets_of c d = [].
Proof. induction 1 as [|e d He Hd IH]; [done|]. unfold packets_of. by rewrite filter_cons, decide_False. Qed.

(** The acknowledgement of the signal that is being read. *)
Lemma tcp_ok_ack f c n t t' ph out : tcp_ok f -> tf_reading f = Some (c, n) -> tf_conns f !! c = Some t ->
  tn_client t' = tn_client t -> consumed (packets_of c (tf_delivered f ++ out)) (with_phase ph t') -> ph <> WaitAck ->
  Forall (fun e => e.1 = (c, tn_client t) /\ Z.of_nat (length e.2) < 65536) out -> tcp_ok (ack c ph t' out f).
Proof.
  intros [Hc Hs Ho Hd] Hr Ht Hcl Hcons Hph Hout. unfold signals in *. rewrite Hr in Hs, Ho. simpl in Hs, Ho.
  apply NoDup_cons in Ho as [Hnot Ho].
  assert (Hother : forall c', c' <> c -> packets_of c' (tf_delivered f ++ out) = packets_of c' (tf_delivered f)).
  { intros c' Hne. rewrite packets_of_app, (packets_of_none c' out); [by rewrite app_nil_r|].
    eapply Forall_impl; [exact Hout|]. intros [[x y] b] [[= -> ->] _] [= ->]. done. }
  unfold tcp_ok, ack, signals. simpl. split; [| |done|].
  - intros c' t0 [[<- <-]|[Hne H0]]%lookup_insert_Some; [done|]. rewrite Hother by done. by apply Hc.
  - intros c' m Hin. assert (Hne : c' <> c) by (intros ->; apply Hnot; apply list_elem_of_fmap; by exists (c, m)).
    destruct (Hs c' m) as (t0 & H0 & Hw & Hch); [by right|]. exists t0. rewrite lookup_insert_ne, Hother by done. done.
  - intros c' id b [Hin|Hin]%elem_of_app.
    + destruct (Hd c' id b Hin) as (t0 & H0 & Hid & Hb). destruct (decide (c' = c)) as [->|Hne].
      * exists (with_phase ph t'). rewrite lookup_insert_eq. split_and!; [done|simpl; congruence|done].
      * exists t0. by rewrite lookup_insert_ne.
    + rewrite Forall_forall in Hout. apply Hout in Hin as [Hin Hb]. simpl in Hin, Hb. injection Hin as -> ->.
      exists (with_phase ph t'). rewrite lookup_insert_eq. done.
Qed.

Lemma tcp_ok_read size f : tcp_ok f -> tcp_ok (read_frame size f).
Proof.
  intros Hf. unfold read_frame. destruct (tf_reading f) as [[c n]|] eqn:Hr; [|done].
  destruct (tf_conns f !! c) as [t|] eqn:Ht; [|done].
  assert (Hin : (c, n) ∈ signals f) by (unfold signals; rewrite Hr; simpl; by left).
  destruct (fr_sig _ _ _ Hf c n Hin) as (t0 & H0 & Hw & Hn & Hch). assert (t0 = t) as -> by congruence.
  assert (Hend : tcp_ok (ack c Ending t [] f)).
  { eapply tcp_ok_ack; [done|done|done|done| |done|by constructor]. rewrite app_nil_r.
    apply consumed_end; [by apply (fr_conn _ _ _ Hf)|by left]. }
  destruct (size <? n)%nat; [done|]. destruct (read_full n t) as [[b|]|] eqn:Hb; [|done|done].
  apply read_full_Some in Hb as (-> & Hle & Hlen).
  eapply tcp_ok_ack; [done|done|done|done| |done|constructor; [split; [done|cbn [snd]; by rewrite Hlen]|constructor]].
  split; [unfold unread in Hle; rewrite length_drop in Hle; pose proof (proj1 (fr_conn _ _ _ Hf c t Ht)); simpl; lia|].
  cbn [tn_phase with_phase]. change (chunk (with_phase _ (advance n t))) with (chunk (advance n t)).
  rewrite chunk_advance, Hch, packets_of_app, fmap_app, concat_app, <- app_assoc. f_equal.
  unfold packets_of. rewrite filter_cons, decide_True by done. simpl. unfold frame. by rewrite app_nil_r, Hlen.
Qed.

Lemma tcp_ok_step f e : tcp_ok f -> tcp_ok (tcp_step f e).
Proof.
  intros Hf. destruct e as [c b|c|c id|c| |size|id|id old]; simpl.
  - destruct (tf_conns f !! c) as [t|] eqn:Ht; [|done]. destruct (tn_eof t); [done|]. apply tcp_ok_similar; [done|done|by apply prefix_app_r].
  - destruct (tf_conns f !! c) as [t|] eqn:Ht; [|done]. by apply tcp_ok_similar.
  - unfold tcp_accepted. destruct (tf_conns f !! c) as [t|] eqn:Ht; [done|]. apply tcp_ok_setClientConn.
    destruct Hf as [Hc Hs Ho Hd]. split; simpl; [| |done|].
    + intros c' t0 [[<- <-]|[Hne H0]]%lookup_insert_Some; [|by apply Hc]. split; [simpl; lia|]. simpl.
      rewrite packets_of_none; [done|]. apply Forall_forall. intros [[x y] b] Hin [= ->].
      destruct (Hd _ _ _ Hin) as (t0 & H0 & _). congruence.
    + intros c' n Hin. destruct (Hs c' n Hin) as (t0 & H0 & ?). exists t0. rewrite lookup_insert_ne; [done|congruence].
    + intros c' i b Hin. destruct (Hd c' i b Hin) as (t0 & H0 & ?). exists t0. rewrite lookup_insert_ne; [done|congruence].
  - unfold readLoop_step. destruct (tf_conns f !! c) as [t|] eqn:Ht; [|done]. destruct (tn_phase t) eqn:Hph; try done.
    + destruct (is_current c (tn_client t) f); simpl; [|apply tcp_ok_end; auto; congruence].
      destruct (read_full 2 t) as [[h|]|] eqn:Hh; [by apply tcp_ok_header|apply tcp_ok_end; auto; congruence|done].
    + destruct (_ <? _)%nat; [exact (tcp_ok_push f c t _ Hf Ht Hph)|done].
    + apply tcp_ok_setClientConn, tcp_ok_end; auto. congruence.
  - unfold take_signal. destruct (tf_reading f) eqn:Hr; [done|]. destruct (tf_queue f) as [|s q] eqn:Hq; [done|].
    unfold tcp_ok, signals in *. rewrite Hr, Hq in Hf. done.
  - by apply tcp_ok_read.
  - unfold tcp_writeTo. destruct (px_clients (tf_proxy f) !! id) as [s|]; [|done].
    destruct (cs_clientConn s); [by apply tcp_ok_setClientConn|done].
  - by apply tcp_ok_setClientConn.
Qed.

Lemma tcp_ok_run es f : tcp_ok f -> tcp_ok (tcp_run f es).
Proof. revert f. induction es as [|e es IH]; intros f Hf; [done|]. by apply IH, tcp_ok_step. Qed.

Lemma newTcpFront_ok p : tcp_ok (newTcpFront p).
Proof.
  split; simpl; [intros c t Hc; by rewrite lookup_empty in Hc|intros c n Hin; by apply elem_of_nil in Hin|
    constructor|intros c id b Hin; by apply elem_of_nil in Hin].
Qed.

(** Frames are uniquely decodable. *)
Lemma frames_inj ds es : Forall (fun b => Z.of_nat (length b) < 65536) ds -> Forall (fun b => Z.of_nat (length b) < 65536) es ->
  concat (frame <$> ds) `prefix_of` concat (frame <$> es) -> ds `prefix_of` es.
Proof.
  intros Hds. revert es. induction Hds as [|d ds Hd Hds IH]; intros es Hes [k Hk]; [by exists es|].
  destruct Hes as [|e es He Hes].
  { discriminate Hk. }
  rewrite !fmap_cons in Hk. cbn [concat] in Hk. unfold frame at 1 3 in Hk. rewrite <- !app_assoc in Hk.
  apply app_inj_1 in Hk as [Hlen Hk]; [|by rewrite !length_be_put].
  apply (f_equal be_get) in Hlen. rewrite !be_get_put_small in Hlen by (change (256 ^ Z.of_nat 2) with 65536; lia).
  apply app_inj_1 in Hk as [-> Hk]; [|lia]. destruct (IH es Hes) as [m ->]; [by exists k|]. by exists m.
Qed.

(** C9: over TCP an attachable server takes the packets of all clients through one
    reader, which shares the reading of a connection with the goroutine of that
    connection.  Whatever the order in which they run, connections are replaced
    and closed and bytes arrive, the packets returned for a connection are the
    first packets its peer framed, whole, in order and none twice; and each is
    returned as the packet of the client that authenticated the connection. *)
Theorem tcp_frames_intact p es c t (sent : list bytes) : let f := tcp_run (newTcpFront p) es in
  tf_conns f !! c = Some t -> Forall (fun b => Z.of_nat (length b) < 65536) sent -> tn_sent t `prefix_of` concat (frame <$> sent) ->
  packets_of c (tf_delivered f) `prefix_of` sent /\
  (forall id b, (c, id, b) ∈ tf_delivered f -> id = tn_client t).
Proof.
  intros f Ht Hsent Hpre. assert (Hf : tcp_ok f) by (apply tcp_ok_run, newTcpFront_ok). split.
  - apply frames_inj; [|done|].
    + apply Forall_forall. intros b ([[c' id] b'] & -> & [_ Hin]%list_elem_of_filter)%list_elem_of_fmap.
      destruct (fr_client _ _ _ Hf _ _ _ Hin) as (? & _ & _ & Hb). exact Hb.
    + etransitivity; [|exact Hpre]. destruct (consumed_end _ t Ended (fr_conn _ _ _ Hf c t Ht)) as [_ Hc]; [by right|].
      simpl in Hc. etransitivity; [exact Hc|]. apply prefix_take.
  - intros id b Hin. destruct (fr_client _ _ _ Hf _ _ _ Hin) as (t0 & H0 & Hid & _). congruence.
Qed.

Module TcpExample.
Import Handshake.

(** Two clients; the frames of the first arrive in pieces, and the second one's
    connection is replaced. *)
Definition proxy : serverProxy :=
  set_client (set_client start 1 (CS false false 0 None None None false)) 2 (CS false false 0 None None None false).

Definition events : list tcp_event :=
  [Accepted 10 1; Accepted 20 2; PeerSends 10 ([byte_of_Z 0; byte_of_Z 2] ++ bs "a"); PeerSends 20 (frame (bs "x"));
   LoopStep 10; LoopStep 20; LoopStep 20; LoopStep 10; TakeSignal; ReadFrame 1500; Accepted 21 2; LoopStep 20;
   TakeSignal; ReadFrame 1500; PeerSends 10 (bs "b"); ReadFrame 1500; LoopStep 20; PeerSends 21 (frame (bs "yy"));
   LoopStep 21; LoopStep 21; TakeSignal; ReadFrame 1500].

(** The first client sends the length of a frame; [readFrom] waits for the rest. *)
Definition stalling : tcpFront :=
  tcp_run (newTcpFront proxy) [Accepted 10 1; Accepted 20 2; PeerSends 10 [byte_of_Z 0; byte_of_Z 2]; LoopStep 10; LoopStep 10; TakeSignal].

Definition meanwhile : list tcp_event :=
  [PeerSends 20 (frame (bs "x")); LoopStep 20; LoopStep 20; TakeSignal; ReadFrame 1500; Accepted 21 2; LoopStep 20; ReadFrame 1500].
End TcpExample.

Lemma tcp_frames_intact_witness :
  let f := tcp_run (newTcpFront TcpExample.proxy) TcpExample.events in
  (packets_of 10 (tf_delivered f) `prefix_of` [bs "ab"]) /\
  (forall id b, (10, id, b) ∈ tf_delivered f -> id = 1).
Proof.
  apply (tcp_frames_intact TcpExample.proxy TcpExample.events 10
           (TConn 1 (frame (bs "ab")) 4 false true LoopTop) [bs "ab"]); [reflexivity|by repeat constructor|].
  exists []. reflexivity.
Defined.

Lemma tcp_example_delivers :
  (fun e => (e.1.1, e.1.2, string_of_list_ascii e.2)) <$> tf_delivered (tcp_run (newTcpFront TcpExample.proxy) TcpExample.events)
  = [(20, 2, "x"); (10, 1, "ab"); (21, 2, "yy")].
Proof. reflexivity. Qed.

(** *** One reader for all clients *)

(** [readFrom] waits for the rest of a frame of the connection [c] of client [id]. *)
Definition stalled (c id : Z) (n : nat) (f : tcpFront) : Prop :=
  tf_reading f = Some (c, n) /\
  (exists t, tf_conns f !! c = Some t /\ tn_open t = true /\ tn_eof t = false /\ tn_phase t = WaitAck /\ (length (unread t) < n)%nat) /\
  (exists s, px_clients (tf_proxy f) !! id = Some s /\ cs_clientConn s = Some c) /\
  (forall j s, px_clients (tf_proxy f) !! j = Some s -> cs_clientConn s = Some c -> j = id).

(** What happens to other clients. *)
Definition spares (c id : Z) (n : nat) (e : tcp_event) : Prop :=
  match e with
  | PeerSends c' _ | PeerCloses c' => c' <> c
  | Accepted _ j | WriteFails j | ClearConn j _ => j <> id
  | ReadFrame size => (n <= size)%nat
  | LoopStep _ | TakeSignal => True
  end.

Lemma stalled_conn c id n f c' t : stalled c id n f -> c' <> c -> stalled c id n (set_conn c' t f).
Proof. intros (Hr & Hc & Hcl) Hne. split; [done|]. split; [|done]. simpl. by rewrite lookup_insert_ne. Qed.

Lemma stalled_close c id n f o : stalled c id n f -> o <> Some c -> stalled c id n (close_if o f).
Proof.
  intros Hs Hne. destruct o as [c'|]; [|done]. simpl. destruct (tf_conns f !! c'); [|done]. apply stalled_conn; [done|congruence].
Qed.

Lemma stalled_setClientConn c id n f j old new : stalled c id n f -> new <> Some c ->
  j <> id \/ (exists c', old = Some c' /\ c' <> c) -> stalled c id n (tcp_setClientConn j old new f).
Proof.
  intros (Hr & Hc & (s & Hs & Hsc) & Hown) Hnew Hj. unfold tcp_setClientConn, setClientConn.
  destruct (px_clients (tf_proxy f) !! j) as [s'|] eqn:Hs'; [|by split_and!; eauto].
  assert (Hgone : forall cur gone, swap_ptr (cs_clientConn s') old new = (cur, gone) ->
            gone <> Some c /\ (j = id -> cur = Some c) /\ (cur = Some c -> j = id)).
  { intros cur gone. unfold swap_ptr. destruct Hj as [Hj|(c' & -> & Hc')].
    - assert (cs_clientConn s' <> Some c) by eauto.
      destruct old; [destruct (decide _) as [Hd|_]|]; intros [= <- <-]; split_and!; congruence.
    - destruct (decide _) as [Hd|Hd]; intros [= <- <-]; (split_and!; [congruence| |]).
      + intros ->. congruence.
      + congruence.
      + intros ->. congruence.
      + eauto. }
  destruct (swap_ptr _ _ _) as [cur gone] eqn:Hsw. destruct (Hgone _ _ eq_refl) as (Hg & Hto & Hfrom).
  apply stalled_close; [|done]. split_and!; [done|done| |]; simpl.
  - destruct (decide (j = id)) as [->|Hne]; [|exists s; by rewrite lookup_insert_ne].
    eexists. rewrite lookup_insert_eq. split; [done|]. by apply Hto.
  - intros k s0 [[<- <-]|[_ Hk]]%lookup_insert_Some; [exact Hfrom|eauto].
Qed.

Lemma tf_delivered_setClientConn j old new f : tf_delivered (tcp_setClientConn j old new f) = tf_delivered f.
Proof.
  unfold tcp_setClientConn. destruct (setClientConn _ _ _ _) as [p [c|]]; [|done]. simpl. by destruct (tf_conns f !! c).
Qed.

Lemma stalled_step c id n f e : stalled c id n f -> spares c id n e ->
  stalled c id n (tcp_step f e) /\ tf_delivered (tcp_step f e) = tf_delivered f.
Proof.
  intros Hs Hsp. pose proof Hs as (Hr & (t & Ht & Ho & He & Hph & Hlen) & _). destruct e as [c' b|c'|c' j|c'| |size|j|j old]; simpl in Hsp |- *.
  - destruct (tf_conns f !! c') as [t'|]; [|done]. destruct (tn_eof t'); [done|]. split; [by apply stalled_conn|done].
  - destruct (tf_conns f !! c') as [t'|]; [|done]. split; [by apply stalled_conn|done].
  - unfold tcp_accepted. destruct (tf_conns f !! c') eqn:Hc'; [done|]. rewrite tf_delivered_setClientConn.
    assert (c' <> c) by congruence. split; [|done]. apply stalled_setClientConn; [by apply stalled_conn|congruence|by left].
  - unfold readLoop_step. destruct (tf_conns f !! c') as [t'|] eqn:Hc'; [|done].
    destruct (decide (c' = c)) as [->|Hne]; [assert (t' = t) as -> by congruence; by rewrite Hph|].
    pose proof (fun t0 => stalled_conn c id n f c' t0 Hs Hne) as Hset.
    destruct (tn_phase t') as [|m| | |].
    + destruct (negb _); [by split|]. destruct (read_full 2 t') as [[h|]|]; by split.
    + destruct (_ <? _)%nat; [|done]. split; [|done]. exact (Hset (with_phase WaitAck t')).
    + done.
    + rewrite tf_delivered_setClientConn. split; [|done]. apply stalled_setClientConn; [done|done|eauto].
    + done.
  - unfold take_signal. by rewrite Hr.
  - unfold read_frame. rewrite Hr, Ht. destruct (Nat.ltb_spec size n); [lia|].
    unfold read_full. rewrite Ho, He. simpl. destruct (Nat.leb_spec n (length (unread t))); [lia|]. done.
  - unfold tcp_writeTo. destruct (px_clients (tf_proxy f) !! j) as [s|]; [|done]. destruct (cs_clientConn s); [|done]. simpl.
    rewrite tf_delivered_setClientConn. split; [|done]. apply stalled_setClientConn; [done|done|by left].
  - rewrite tf_delivered_setClientConn. split; [|done]. apply stalled_setClientConn; [done|done|by left].
Qed.

(** The packets of all clients of an attachable TCP server pass through one
    reader, which waits for the whole of a frame.  When a client has sent the
    length of a frame and not its bytes, no packet of any client is delivered:
    not when other clients connect, send, leave or are written to, but only when
    that client's connection goes on or is closed. *)
Theorem stalled_frame_blocks c id n f es : stalled c id n f -> Forall (spares c id n) es ->
  tf_delivered (tcp_run f es) = tf_delivered f /\ stalled c id n (tcp_run f es).
Proof.
  intros Hs Hes. revert f Hs. induction Hes as [|e es He Hes IH]; intros f Hs; [done|].
  destruct (stalled_step c id n f e Hs He) as [Hs' Hd]. unfold tcp_run. simpl. fold (tcp_run (tcp_step f e) es).
  destruct (IH _ Hs') as [-> ?]. done.
Qed.

Lemma stalled_frame_blocks_witness :
  tf_delivered (tcp_run TcpExample.stalling TcpExample.meanwhile) = tf_delivered TcpExample.stalling /\
  stalled 10 1 2 (tcp_run TcpExample.stalling TcpExample.meanwhile).
Proof.
  apply stalled_frame_blocks.
  - split; [reflexivity|]. split; [eexists; repeat split; vm_compute; lia|]. split; [eexists; split; reflexivity|].
    assert (Hm : px_clients (tf_proxy TcpExample.stalling) =
              <[1 := CS false false 0 (Some 10) None None false]> (<[2 := CS false false 0 (Some 20) None None false]> ∅)) by reflexivity.
    rewrite Hm. intros j s [[<- <-]|[_ [[<- <-]|[_ Hj]]%lookup_insert_Some]]%lookup_insert_Some Hc; [done|discriminate Hc|].
    by rewrite lookup_empty in Hj.
  - repeat constructor; simpl; lia.
Defined.
