(* ===== verification/ProxyIO.v ===== *)
(** The packets of the server's proxy ([proxy_server.go]) between a frontend and
    QUIC or KCP: the loop of [ReadFrom] over the packets of all clients with the
    encryption of [Rekey]; the reader of the only client over TCP; the accept
    loop of a listener; and [ReadFrom], [WriteTo] and [Close] of one client,
    interleaved. *)
From Stdlib Require Import ZArith Lia Ascii String.
From stdpp Require Import base list strings gmap.
From S2P Require Import Prelude Wire Rekey ProxyAuth.
Open Scope Z_scope.

(** ** The accept loop *)

(** What [AcceptTCP] returns: a connection, a timeout, another error. *)
Inductive accept := Accepted (conn : Z) | TimedOut | Failed.

(** 10 ms, in nanoseconds. *)
Definition kAcceptSlack : Z := 10000000.

(** [serve], over the results of [AcceptTCP] with the time since its start: the
    connections handed to [handshake], and whether the listener was closed. *)
Fixpoint serve (connectTimeout : Z) (neverAccepted : bool) (rs : list (Z * accept)) : list Z * bool :=
  match rs with
  | [] => ([], false)
  | (_, Accepted c) :: rs => let '(cs, e) := serve connectTimeout false rs in (c :: cs, e)
  | (since, TimedOut) :: rs =>
      if neverAccepted && (connectTimeout - kAcceptSlack <? since) then ([], true) else serve connectTimeout neverAccepted rs
  | (_, Failed) :: _ => ([], true)
  end.

Definition accepted_conns (rs : list (Z * accept)) : list Z := omap (fun r => match r.2 with Accepted c => Some c | _ => None end) rs.

(** A listener that nobody reached is closed at its first deadline; one that was
    reached once stays open until an error that is not a timeout. *)
Lemma serve_first_deadline T since rs : T <= since -> serve T true ((since, TimedOut) :: rs) = ([], true).
Proof. intros Hs. simpl. unfold kAcceptSlack. by rewrite (proj2 (Z.ltb_lt _ _)) by lia. Qed.

Lemma serve_reached T rs : Forall (fun r => r.2 <> Failed) rs -> serve T false rs = (accepted_conns rs, false).
Proof. induction 1 as [|[t [c| |]] rs Hr Hrs IH]; simpl in *; [done|by rewrite IH|done|done]. Qed.

Section Code.
Context `{Crypto}.

(** ** [serverProxy.ReadFrom] *)

(** [pi_crypto] is [kcpCrypto] of each client, absent where it is nil;
    [pi_alive] is the time of the last sign of life in the [clientChecker] of
    the server of each client, absent where the client has no server. *)
Record proxyIO := ProxyIO {
  pi_crypto : gmap Z rotatingCrypto;
  pi_alive : gmap Z Z
}.

(** [server.clientChecker.updateNow()]. *)
Definition saw (id now : Z) (p : proxyIO) : proxyIO :=
  match pi_alive p !! id with
  | Some _ => ProxyIO (pi_crypto p) (<[id := now]> (pi_alive p))
  | None => p
  end.

Definition with_crypto (id : Z) (r : rotatingCrypto) (p : proxyIO) : proxyIO :=
  ProxyIO (<[id := r]> (pi_crypto p)) (pi_alive p).

(** [ins] is what [frontendConn.readFrom] returns, call by call: a client and a
    packet, or no client.  [None] while it waits for another packet; the result
    [Some None] is [io.EOF]. *)
Fixpoint ReadFrom (now : Z) (p : proxyIO) (ins : list (option (Z * bytes)))
  : proxyIO * option (list (option (Z * bytes)) * option (Z * bytes)) :=
  match ins with
  | [] => (p, None)
  | None :: ins => (p, Some (ins, None))
  | Some (id, buf) :: ins =>
      match pi_crypto p !! id with
      | None => (saw id now p, Some (ins, Some (id, buf)))
      | Some kcpCrypto =>
          match openPacket kcpCrypto buf with
          | (r, Err _) => ReadFrom now (with_crypto id r p) ins
          | (r, Ok b) => (saw id now (with_crypto id r p), Some (ins, Some (id, b)))
          end
      end
  end.

(** A packet that its client's keys do not open. *)
Definition forged (p : proxyIO) (i : option (Z * bytes)) : Prop :=
  exists id buf r e, i = Some (id, buf) /\ pi_crypto p !! id = Some r /\ (openPacket r buf).2 = Err e.

Lemma Open_loop_err r i gl n c r' e : Open_loop r i gl n c = (r', Err e) -> r' = r.
Proof. revert i. induction gl as [|k gl IH]; intros i; simpl; [by intros [= <- _]|]. destruct (gcm_Open k n c); [done|]. apply IH. Qed.

Lemma openPacket_err r buf r' e : openPacket r buf = (r', Err e) -> r' = r.
Proof.
  unfold openPacket, Open. destruct (_ <? _)%nat; [by intros [= <- _]|]. destruct (rc_delegatedToProxy r); [done|].
  destruct (Open_loop _ _ _ _ _) as [r1 [b|e1]] eqn:Ho; intros [= <- <-]. by apply Open_loop_err in Ho.
Qed.

Lemma with_crypto_same id r p : pi_crypto p !! id = Some r -> with_crypto id r p = p.
Proof. intros Hr. unfold with_crypto. rewrite insert_id by done. by destruct p. Qed.

(** Forged packets leave no trace. *)
Lemma ReadFrom_forged now p fs ins : Forall (forged p) fs -> ReadFrom now p (fs ++ ins) = ReadFrom now p ins.
Proof.
  induction 1 as [|i fs (id & buf & r & e & -> & Hr & He) Hfs IH]; [done|]. simpl. rewrite Hr.
  destruct (openPacket r buf) as [r' [b|e']] eqn:Ho; simpl in He; [done|].
  apply openPacket_err in Ho as ->. by rewrite with_crypto_same.
Qed.

Lemma saw_alive id now p j : pi_alive (saw id now p) !! j = if decide (j = id) then (fun _ => now) <$> pi_alive p !! id else pi_alive p !! j.
Proof.
  unfold saw. destruct (pi_alive p !! id) as [t|] eqn:Ht; destruct (decide (j = id)) as [->|Hne]; simpl; try done.
  - by rewrite lookup_insert_eq.
  - by rewrite lookup_insert_ne.
Qed.

(** ** The reader of the only client over TCP *)

(** [waitClientConn]: [None] while it waits on the condition, which [Close]
    takes away. *)
Definition waitClientConn (p : serverProxy) (id : Z) : option (option Z) :=
  match px_clients p !! id with
  | None => None
  | Some c => match cs_clientConn c with
              | Some conn => Some (Some conn)
              | None => if cs_closed c then Some None else None
              end
  end.

Inductive sole_out := SoleWaits | SoleEOF | SoleRetry | SolePacket (b : bytes).

(** One pass of the loop of [tcpFrontendConn.readFrom] for the sole client.
    [conns] is what each connection has to read; a connection that is not
    in it is closed. *)
Definition sole_pass (p : serverProxy) (conns : gmap Z reader) (size : nat) : serverProxy * gmap Z reader * sole_out :=
  match waitClientConn p (px_clientID p) with
  | None => (p, conns, SoleWaits)
  | Some None => (p, conns, SoleEOF)
  | Some (Some conn) =>
      match conns !! conn with
      | None => (fst (setClientConn p (px_clientID p) (Some conn) None), conns, SoleRetry)
      | Some rd =>
          match recvUdpPacket rd size with
          | (rd, Err _) => (fst (setClientConn p (px_clientID p) (Some conn) None), delete conn conns, SoleRetry)
          | (rd, Ok b) => (p, <[conn := rd]> conns, SolePacket b)
          end
      end
  end.

Fixpoint sole_run (p : serverProxy) (conns : gmap Z reader) (size passes : nat) : list bytes * sole_out :=
  match passes with
  | O => ([], SoleRetry)
  | S passes =>
      match sole_pass p conns size with
      | (p, conns, SolePacket b) => let '(bs, o) := sole_run p conns size passes in (b :: bs, o)
      | (p, conns, SoleRetry) => sole_run p conns size passes
      | (_, _, o) => ([], o)
      end
  end.

Lemma sole_run_packets p conns size conn rd pkts rest passes :
  waitClientConn p (px_clientID p) = Some (Some conn) -> conns !! conn = Some rd ->
  Forall (fun b => (length b <= size)%nat /\ Z.of_nat (length b) < 2 ^ 16) pkts ->
  rd_bytes rd = concat (packet_frame <$> pkts) ++ rest ->
  exists rd', rd_bytes rd' = rest /\
    sole_run p conns size (length pkts + passes) =
      let '(bs, o) := sole_run p (<[conn := rd']> conns) size passes in (pkts ++ bs, o).
Proof.
  intros Hw Hc Hp. revert conns rd Hc. induction Hp as [|b pkts [Hb Hb'] Hp IH]; intros conns rd Hc Hrd.
  - exists rd. split; [done|]. rewrite insert_id by done. simpl. by destruct (sole_run _ _ _ _).
  - rewrite fmap_cons in Hrd. cbn [concat] in Hrd. rewrite <- app_assoc in Hrd.
    destruct (recvUdpPacket_frame rd b _ size Hb Hb' Hrd) as (rd1 & Hrecv & Hrd1).
    destruct (IH (<[conn := rd1]> conns) rd1 (lookup_insert_eq _ _ _) Hrd1) as (rd' & Hr' & Hrun). exists rd'. split; [done|].
    simpl. unfold sole_pass. rewrite Hw, Hc, Hrecv, Hrun, insert_insert_eq.
    destruct (sole_run p (<[conn := rd']> conns) size passes) as [l o]. reflexivity.
Qed.

(** The connection that fails is dropped, and the reader waits for the next; for
    a closed client it reports the end. *)
Lemma sole_run_fails p conns size conn c passes :
  px_clients p !! px_clientID p = Some c -> cs_clientConn c = Some conn ->
  (match conns !! conn with Some rd => match (recvUdpPacket rd size).2 with Err _ => true | Ok _ => false end | None => true end) = true ->
  sole_run p conns size (S (S passes)) = ([], if cs_closed c then SoleEOF else SoleWaits).
Proof.
  intros Hcl Hconn Hfail. assert (Hw : waitClientConn p (px_clientID p) = Some (Some conn)).
  { unfold waitClientConn. by rewrite Hcl, Hconn. }
  assert (Hset : fst (setClientConn p (px_clientID p) (Some conn) None) =
    set_client p (px_clientID p) (CS (cs_closed c) (cs_sealed c) (cs_serialNumber c) None (cs_clientAddr c) (cs_authedAddr c) (cs_udpFrontConn c))).
  { unfold setClientConn. rewrite Hcl. unfold swap_ptr. by rewrite decide_True. }
  assert (Hnext : waitClientConn (fst (setClientConn p (px_clientID p) (Some conn) None)) (px_clientID p) = if cs_closed c then Some None else None).
  { rewrite Hset. unfold waitClientConn. simpl. by rewrite lookup_insert_eq. }
  assert (Hid : px_clientID (fst (setClientConn p (px_clientID p) (Some conn) None)) = px_clientID p) by (by rewrite Hset).
  cbn [sole_run]. unfold sole_pass at 1. rewrite Hw. destruct (conns !! conn) as [rd|].
  - destruct (recvUdpPacket rd size) as [rd' [b|e]]; [done|]. unfold sole_pass. rewrite Hid, Hnext. by destruct (cs_closed c).
  - unfold sole_pass. rewrite Hid, Hnext. by destruct (cs_closed c).
Qed.

End Code.

(** ** [ReadFrom], [WriteTo] and [Close] of one client, interleaved *)

(** Where a call of [WriteTo] is: before it loads [kcpCrypto], before
    [sealPacket], before it looks at [closed], before [writeTo], at its end. *)
Inductive write_phase := WLoad (buf : bytes) | WSeal (buf : bytes) | WCheck (buf : bytes) | WSend (buf : bytes) | WDone.

(** Where [ReadFrom], which holds [readMutex], is: waiting for the frontend,
    before it loads [kcpCrypto], before [openPacket]. *)
Inductive read_phase := RWait | RLoad (buf : bytes) | ROpen (buf : bytes).

Section Race.
Context `{Crypto}.

(** A client of an attachable KCP server.  [cl_crypto] is whether the pointer
    [kcpCrypto] is set; [cl_obj] is what it points or pointed to.  [cl_closing]:
    [Close] has set [closed] and not yet cleared [kcpCrypto].  [cl_wire] is what
    [writeTo] sent and [cl_upper] what [ReadFrom] returned; [cl_keys], the keys
    ever held, is history. *)
Record clientIO := ClientIO {
  cl_closed : bool;
  cl_crypto : bool;
  cl_obj : rotatingCrypto;
  cl_closing : bool;
  cl_writers : list write_phase;
  cl_reader : read_phase;
  cl_wire : list bytes;
  cl_upper : list bytes;
  cl_keys : list key
}.

Definition with_writer (i : nat) (w : write_phase) (c : clientIO) : clientIO :=
  ClientIO (cl_closed c) (cl_crypto c) (cl_obj c) (cl_closing c) (<[i := w]> (cl_writers c)) (cl_reader c) (cl_wire c) (cl_upper c) (cl_keys c).

Definition with_reader (r : read_phase) (c : clientIO) : clientIO :=
  ClientIO (cl_closed c) (cl_crypto c) (cl_obj c) (cl_closing c) (cl_writers c) r (cl_wire c) (cl_upper c) (cl_keys c).

Definition with_obj (o : rotatingCrypto) (c : clientIO) : clientIO :=
  ClientIO (cl_closed c) (cl_crypto c) o (cl_closing c) (cl_writers c) (cl_reader c) (cl_wire c) (cl_upper c) (cl_keys c ++ rc_gcmList o).

Definition put_wire (b : bytes) (c : clientIO) : clientIO :=
  ClientIO (cl_closed c) (cl_crypto c) (cl_obj c) (cl_closing c) (cl_writers c) (cl_reader c) (cl_wire c ++ [b]) (cl_upper c) (cl_keys c).

Definition put_upper (b : bytes) (c : clientIO) : clientIO :=
  ClientIO (cl_closed c) (cl_crypto c) (cl_obj c) (cl_closing c) (cl_writers c) (cl_reader c) (cl_wire c) (cl_upper c ++ [b]) (cl_keys c).

(** One step of a call of [WriteTo]; [None] is a panic.  [sendOk]: whether the
    frontend has an address or a connection of the client and the write succeeds. *)
Definition write_step (i : nat) (sendOk : bool) (c : clientIO) : option clientIO :=
  match cl_writers c !! i with
  | None | Some WDone => Some c
  | Some (WLoad buf) => Some (with_writer i (if cl_crypto c then WSeal buf else WCheck buf) c)
  | Some (WSeal buf) =>
      match sealPacket (cl_obj c) buf with
      | None => None
      | Some (o, Err _) => Some (with_writer i WDone (with_obj o c))
      | Some (o, Ok b) => Some (with_writer i (WCheck b) (with_obj o c))
      end
  | Some (WCheck buf) => Some (with_writer i (if cl_closed c then WDone else WSend buf) c)
  | Some (WSend buf) => Some (with_writer i WDone (if sendOk then put_wire buf c else c))
  end.

(** One step of [ReadFrom] after the frontend returned a packet. *)
Definition read_step (c : clientIO) : clientIO :=
  match cl_reader c with
  | RWait => c
  | RLoad buf => if cl_crypto c then with_reader (ROpen buf) c else with_reader RWait (put_upper buf c)
  | ROpen buf =>
      match openPacket (cl_obj c) buf with
      | (o, Err _) => with_reader RWait (with_obj o c)
      | (o, Ok b) => with_reader RWait (put_upper b (with_obj o c))
      end
  end.

(** [Close], up to the clearing of [kcpCrypto]. *)
Definition close_step (c : clientIO) : clientIO :=
  if cl_closing c
  then ClientIO (cl_closed c) false (cl_obj c) false (cl_writers c) (cl_reader c) (cl_wire c) (cl_upper c) (cl_keys c)
  else if cl_closed c then c
  else ClientIO true (cl_crypto c) (cl_obj c) true (cl_writers c) (cl_reader c) (cl_wire c) (cl_upper c) (cl_keys c).

Inductive io_event :=
| StartWrite (buf : bytes)
| WriteStep (i : nat) (sendOk : bool)
| Receive (buf : bytes)
| ReadStep
| CloseStep
| RekeyStep (gen : option priv) (pubKey : bytes) (now : Z).

Definition io_step (c : clientIO) (e : io_event) : option clientIO :=
  match e with
  | StartWrite buf =>
      Some (ClientIO (cl_closed c) (cl_crypto c) (cl_obj c) (cl_closing c) (cl_writers c ++ [WLoad buf]) (cl_reader c) (cl_wire c) (cl_upper c) (cl_keys c))
  | WriteStep i sendOk => write_step i sendOk c
  | Receive buf => Some (match cl_reader c with RWait => with_reader (RLoad buf) c | _ => c end)
  | ReadStep => Some (read_step c)
  | CloseStep => Some (close_step c)
  | RekeyStep gen pubKey now => Some (if cl_crypto c then with_obj (fst (handleServerRekey (cl_obj c) gen pubKey now)) c else c)
  end.

Fixpoint io_run (c : clientIO) (es : list io_event) : option clientIO :=
  match es with
  | [] => Some c
  | e :: es => match io_step c e with Some c => io_run c es | None => None end
  end.

(** [newClientState] of an attachable KCP server. *)
Definition newClientIO (pass salt : bytes) (now : Z) : clientIO :=
  let o := fst (newRotatingCrypto false pass salt 0 0 false now) in
  ClientIO false true o false [] RWait [] [] (rc_gcmList o).

(** Sealed with one of the keys, opened with one of the keys. *)
Definition sealed (ks : list key) (b : bytes) : Prop :=
  exists k nonce p, (k ∈ ks) /\ length nonce = gcm_nonceSize /\ b = nonce ++ gcm_Seal k nonce p.

Definition opened (ks : list key) (b : bytes) : Prop :=
  exists k nonce ct p, (k ∈ ks) /\ gcm_Open k nonce ct = Some p /\ b = nonce ++ p.

Definition write_ok (c : clientIO) (w : write_phase) : Prop :=
  match w with
  | WCheck b => sealed (cl_keys c) b \/ cl_closed c = true
  | WSend b => sealed (cl_keys c) b
  | _ => True
  end.

Record io_ok (c : clientIO) : Prop := IoOk {
  ik_obj : rc_wf (cl_obj c) /\ rc_delegatedToProxy (cl_obj c) = false /\ rc_gcmList (cl_obj c) ⊆ cl_keys c;
  ik_crypto : cl_crypto c = false -> cl_closed c = true;
  ik_closing : cl_closing c = true -> cl_closed c = true;
  ik_writers : Forall (write_ok c) (cl_writers c);
  ik_wire : Forall (sealed (cl_keys c)) (cl_wire c);
  ik_upper : cl_closed c = false -> Forall (opened (cl_keys c)) (cl_upper c)
}.

(** What sealing and opening keep of the keys. *)
Definition obj_ok (o : rotatingCrypto) : Prop := rc_wf o /\ rc_delegatedToProxy o = false.

Lemma obj_ok_same r r' : same_keys r r' -> obj_ok r -> obj_ok r'.
Proof. intros (Hg & Ha & _ & _ & _ & Hd) [Hw Hdel]. unfold obj_ok, rc_wf. rewrite Hg, Ha, Hd. done. Qed.

Lemma sealPacket_effect r buf : obj_ok r -> exists o out, sealPacket r buf = Some (o, out) /\ obj_ok o /\
  forall b, out = Ok b -> sealed (rc_gcmList r) b.
Proof.
  intros Hok. pose proof Hok as [Hw Hd]. unfold sealPacket. destruct (Nat.ltb_spec (length buf) gcm_nonceSize).
  - by exists r, (Err ErrShortBuffer).
  - destruct (lookup_lt_is_Some_2 _ _ Hw) as [k Hk].
    destruct (Seal_spec r (take gcm_nonceSize buf) (take gcm_nonceSize buf) (drop gcm_nonceSize buf) k Hd Hk) as (r' & -> & Hs).
    eexists _, _. split_and!; [done|by eapply obj_ok_same|]. intros b [= <-].
    exists k, (take gcm_nonceSize buf), (drop gcm_nonceSize buf). split_and!; [by eapply list_elem_of_lookup_2|apply length_take_le; lia|done].
Qed.

Lemma Open_loop_effect r i gl n ct r' p : (i + length gl = length (rc_gcmList r))%nat -> obj_ok r ->
  Open_loop r i gl n ct = (r', Ok p) -> obj_ok r' /\ exists k, (k ∈ gl) /\ gcm_Open k n ct = Some p.
Proof.
  revert i. induction gl as [|k gl IH]; intros i Hi Hr; simpl; [done|]. destruct (gcm_Open k n ct) as [q|] eqn:Ho.
  - intros [= <- <-]. split; [|exists k; split; [by left|done]]. simpl in Hi. destruct (Nat.ltb_spec 0 i).
    + destruct Hr as [Hw Hd]. destruct (promoteKey_spec r i) as (Hg & Ha & (_ & _ & _ & Hdel)); [lia|].
      unfold obj_ok, rc_wf. rewrite Hg, Ha, Hdel, length_drop. split; [lia|done].
    + eapply obj_ok_same; [apply consumeBytes_same|done].
  - intros Hl. simpl in Hi. destruct (IH (S i)) as [H1 (k' & Hk & Hk')]; [lia|done|done|]. split; [done|]. exists k'. split; [by right|done].
Qed.

Lemma openPacket_effect r buf o b : obj_ok r -> openPacket r buf = (o, Ok b) -> obj_ok o /\ opened (rc_gcmList r) b.
Proof.
  intros Hok. unfold openPacket, Open. destruct (_ <? _)%nat; [done|]. rewrite (proj2 Hok).
  destruct (Open_loop _ _ _ _ _) as [r1 [q|e]] eqn:Ho; intros [= <- <-].
  destruct (Open_loop_effect r 0 (rc_gcmList r) _ _ _ _ eq_refl Hok Ho) as [H1 (k & Hk & Hk')]. split; [done|].
  eexists k, _, _, q. done.
Qed.

Lemma rekey_effect r gen pk now : obj_ok r -> obj_ok (handleServerRekey r gen pk now).1.
Proof.
  intros [Hw Hd]. unfold handleServerRekey. destruct gen as [g|]; [|done]. destruct (NewPublicKey pk); [|done].
  destruct (ECDH g _); [|done]. destruct r. unfold obj_ok, rc_wf in *. simpl in *. rewrite length_app. simpl. split; [lia|done].
Qed.

Lemma sealed_mono ks ks' b : ks ⊆ ks' -> sealed ks b -> sealed ks' b.
Proof. intros Hs (k & n & p & Hk & ?). exists k, n, p. split; [by apply Hs|done]. Qed.

Lemma opened_mono ks ks' b : ks ⊆ ks' -> opened ks b -> opened ks' b.
Proof. intros Hs (k & n & ct & p & Hk & ?). exists k, n, ct, p. split; [by apply Hs|done]. Qed.

(** The keys grow; [closed] is never taken back. *)
Lemma io_ok_obj o c : io_ok c -> obj_ok o -> io_ok (with_obj o c).
Proof.
  intros [Ho Hc Hcl Hw Hs Hu] [Hwf Hd].
  assert (Hk : cl_keys c ⊆ cl_keys c ++ rc_gcmList o) by set_solver. split; simpl; [|done|done| | |].
  - split_and!; [done|done|set_solver].
  - eapply Forall_impl; [exact Hw|]. intros [| |b|b|]; simpl; eauto using sealed_mono. intros [?|?]; eauto using sealed_mono.
  - eapply Forall_impl; [exact Hs|]. intros b. by apply sealed_mono.
  - intros Hcf. eapply Forall_impl; [exact (Hu Hcf)|]. intros b. by apply opened_mono.
Qed.

Lemma io_ok_writer i w c : io_ok c -> write_ok c w -> io_ok (with_writer i w c).
Proof. intros [Ho Hc Hcl Hw Hs Hu] Hok. split; [done..| |done|done]. simpl. by apply Forall_insert. Qed.

Lemma io_ok_reader r c : io_ok c -> io_ok (with_reader r c).
Proof. by intros []. Qed.

Lemma io_ok_wire b c : io_ok c -> sealed (cl_keys c) b -> io_ok (put_wire b c).
Proof. intros [Ho Hc Hcl Hw Hs Hu] Hb. split; [done..| |done]. simpl. apply Forall_app. split; [done|by constructor]. Qed.

Lemma io_ok_upper b c : io_ok c -> cl_closed c = true \/ opened (cl_keys c) b -> io_ok (put_upper b c).
Proof.
  intros [Ho Hc Hcl Hw Hs Hu] Hb. split; [done..|]. simpl. intros Hcf. apply Forall_app. split; [by apply Hu|].
  constructor; [|done]. destruct Hb; [congruence|done].
Qed.

Lemma write_step_ok i sendOk c : io_ok c -> exists c', write_step i sendOk c = Some c' /\ io_ok c'.
Proof.
  intros Hc. unfold write_step. destruct (cl_writers c !! i) as [w|] eqn:Hi; [|by eauto].
  assert (Hw : write_ok c w) by (by eapply (Forall_lookup_1 _ _ _ _ (ik_writers _ Hc))).
  destruct (ik_obj _ Hc) as (Hwf & Hd & Hk). destruct w as [buf|buf|buf|buf|]; [| | | |by eauto]; eauto.
  - eexists. split; [done|]. apply io_ok_writer; [done|]. destruct (cl_crypto c) eqn:Hcr; [done|]. right. by apply (ik_crypto _ Hc).
  - destruct (sealPacket_effect (cl_obj c) buf (conj Hwf Hd)) as (o & [b|e] & -> & Ho & Hb); eexists; (split; [done|]).
    + apply io_ok_writer; [by apply io_ok_obj|]. left. simpl. eapply sealed_mono; [|by apply Hb]. set_solver.
    + apply io_ok_writer; [by apply io_ok_obj|done].
  - eexists. split; [done|]. apply io_ok_writer; [done|]. destruct (cl_closed c) eqn:Hcl; [done|]. simpl in *. destruct Hw; [done|congruence].
  - eexists. split; [done|]. apply io_ok_writer; [|done]. destruct sendOk; [by apply io_ok_wire|done].
Qed.

Lemma read_step_ok c : io_ok c -> io_ok (read_step c).
Proof.
  intros Hc. unfold read_step. destruct (ik_obj _ Hc) as (Hwf & Hd & Hk). destruct (cl_reader c) as [|buf|buf]; [done| |].
  - destruct (cl_crypto c) eqn:Hcr; [by apply io_ok_reader|]. apply io_ok_reader, io_ok_upper; [done|]. left. by apply (ik_crypto _ Hc).
  - destruct (openPacket (cl_obj c) buf) as [o [b|e]] eqn:Ho.
    + destruct (openPacket_effect _ _ _ _ (conj Hwf Hd) Ho) as [Hok Hb]. apply io_ok_reader, io_ok_upper; [by apply io_ok_obj|].
      right. simpl. eapply opened_mono; [|exact Hb]. set_solver.
    + apply openPacket_err in Ho as ->. apply io_ok_reader. by apply io_ok_obj.
Qed.

Lemma io_step_ok c e : io_ok c -> exists c', io_step c e = Some c' /\ io_ok c'.
Proof.
  intros Hc. destruct e as [buf|i ok|buf| | |gen pk now]; simpl; [|by apply write_step_ok|..]; eexists; (split; [done|]).
  - destruct Hc as [Ho Hcr Hcl Hw Hs Hu]. split; [done..| |done|done]. simpl. apply Forall_app. split; [done|by constructor].
  - destruct (cl_reader c); [by apply io_ok_reader|done|done].
  - by apply read_step_ok.
  - unfold close_step. destruct Hc as [Ho Hcr Hcl Hw Hs Hu]. destruct (cl_closing c) eqn:Hcg; [by split; auto|].
    destruct (cl_closed c) eqn:Hcd; [by split; try congruence|]. split; simpl; [done|done|done| |done|done].
    eapply Forall_impl; [exact Hw|]. intros [| |b|b|]; simpl; auto.
  - destruct (cl_crypto c); [|done]. apply io_ok_obj; [done|]. apply rekey_effect. by destruct (ik_obj _ Hc) as (? & ? & _).
Qed.

Lemma io_run_ok c es : io_ok c -> exists c', io_run c es = Some c' /\ io_ok c'.
Proof.
  revert c. induction es as [|e es IH]; intros c Hc; simpl; [by eauto|]. destruct (io_step_ok c e Hc) as (c' & -> & Hc'). by apply IH.
Qed.

Lemma newClientIO_ok pass salt now : io_ok (newClientIO pass salt now).
Proof. split; simpl; try done. split_and!; [unfold rc_wf; simpl; lia|done|set_solver]. Qed.

(** C15: however the calls of [WriteTo], [ReadFrom], [Close] and the changes of keys
    of a client interleave, no step panics, and everything that reaches the wire
    is sealed with a key of the client: a write that found the encryption already
    cleared finds the client closed.  As long as the client is not closed,
    everything that [ReadFrom] returns was opened with such a key. *)
Theorem close_leaks_no_plaintext pass salt now es :
  exists c, io_run (newClientIO pass salt now) es = Some c /\ Forall (sealed (cl_keys c)) (cl_wire c) /\
    (cl_closed c = false -> Forall (opened (cl_keys c)) (cl_upper c)).
Proof.
  destruct (io_run_ok _ es (newClientIO_ok pass salt now)) as (c & Hrun & Hc). exists c. split; [done|]. split; apply Hc.
Qed.

(** [ReadFrom] has no such check: a packet, from anywhere, that the frontend
    returned before [Close] cleared the encryption is returned unopened after it. *)
Theorem closing_read_unopened pass salt now buf :
  exists c, io_run (newClientIO pass salt now) [Receive buf; CloseStep; CloseStep; ReadStep] = Some c /\ cl_upper c = [buf].
Proof. by eexists. Qed.

End Race.

Section EndToEnd.
Context `{CryptoOk}.

(** Whatever packets the keys of their clients do not open come first, the
    packet that a client sealed with a key the server holds is returned by
    [ReadFrom] as that client's, with the bytes the client wrote; only the
    sealed packet counts as a sign of life, and only of that client. *)
Theorem forged_packets_skipped now p fs ins id r c buf k pre post :
  Forall (forged p) fs -> pi_crypto p !! id = Some r -> rc_delegatedToProxy r = false -> rc_gcmList r = pre ++ k :: post -> (k ∉ pre) ->
  rc_delegatedToProxy c = false -> activeKey c = Some k -> (gcm_nonceSize <= length buf)%nat ->
  exists c' wire p', sealPacket c buf = Some (c', Ok wire) /\
    ReadFrom now p (fs ++ Some (id, wire) :: ins) = (p', Some (ins, Some (id, buf))) /\
    forall j, pi_alive p' !! j = if decide (j = id) then (fun _ => now) <$> pi_alive p !! id else pi_alive p !! j.
Proof.
  intros Hfs Hr Hdr Hgl Hpre Hdc Hk Hlen.
  destruct (sealPacket_spec c buf k Hdc Hk Hlen) as (c' & nonce & q & -> & Hn & -> & _).
  destruct (openPacket_known r k nonce q pre post Hdr Hn Hgl Hpre) as (r' & Hopen & _).
  eexists _, _, _. split; [done|]. rewrite ReadFrom_forged by done. simpl. rewrite Hr, Hopen. split; [done|].
  intros j. by rewrite saw_alive.
Qed.

End EndToEnd.

Import Toy.

Lemma forged_packets_skipped_witness :
  let p := ProxyIO {[7 := Toy.server; 8 := Toy.server]} {[7 := 0; 8 := 0]} in
  exists c' wire p', sealPacket Toy.client (bs "n-data") = Some (c', Ok wire) /\
    ReadFrom 5 p ([Some (8, bs "nxspoofed"); Some (7, bs "n")] ++ Some (7, wire) :: [None]) = (p', Some ([None], Some (7, bs "n-data"))) /\
    forall j, pi_alive p' !! j = if decide (j = 7) then (fun _ => 5) <$> pi_alive p !! 7 else pi_alive p !! j.
Proof.
  apply (@forged_packets_skipped Toy.toy_crypto Toy.toy_ok 5 _ _ _ 7 Toy.server Toy.client (bs "n-data") "k"%char [] []); try reflexivity.
  - repeat constructor; eexists _, _, _, _; split_and!; reflexivity.
  - apply not_elem_of_nil.
  - simpl. lia.
Defined.

(** Two writes around [Close]: the first is sealed and sent, the second finds
    the encryption gone and the client closed, and sends nothing. *)
Lemma close_race_example :
  cl_wire <$> io_run (newClientIO (bs "k") (bs "salt") 0)
    [StartWrite (bs "n-1"); WriteStep 0 true; CloseStep; StartWrite (bs "n-2"); CloseStep; WriteStep 0 true; WriteStep 1 true; WriteStep 0 true;
     WriteStep 1 true; WriteStep 0 true; WriteStep 1 true] = Some [] /\
  cl_wire <$> io_run (newClientIO (bs "k") (bs "salt") 0)
    [StartWrite (bs "n-1"); WriteStep 0 true; WriteStep 0 true; WriteStep 0 true; CloseStep; CloseStep; WriteStep 0 true] = Some [bs "nk-1"].
Proof. split; reflexivity. Qed.
