(* ===== verification/Relay.v ===== *)
(** * Relay: forwarded connections ([forward.go], [datagram.go])

    - the two directions of a forwarded connection ([forwardConnection]);
    - the handlers that listen for the client ([handleListenEvent],
      [handleListenUdpEvent]) with the socket file they create, over the files
      of [Socket], the parked connections of [Forward] and the UDP sessions of
      [Datagram];
    - the handlers that dial for it ([handleDialEvent], [handleDialUdpEvent],
      [dialUDP]) and the forwarding of packets ([forwardUDP]). *)

From Stdlib Require Import ZArith Lia Ascii String.
From stdpp Require Import base list strings gmap.
From S2P Require Import Prelude GoStrings Decimal Config Forward Socket Datagram.
Open Scope Z_scope.

(** ** The two directions of a connection *)

(** One direction: what was read and what was written, and whether it ended;
    [h_broken], that a write failed or was given up, is history. *)
Record half := Half { h_read : bytes; h_written : bytes; h_done : bool; h_broken : bool }.

(** [forwardConnInput]: the direction from the stream to the connection, and
    which ends it closed. *)
Record inputSide := InputSide { in_half : half; in_connWriteClosed : bool; in_streamReadClosed : bool }.

(** [forwardConnOutput].  [out_waiting] is a chunk, and whether an error came with
    it, that is held until the client is back. *)
Record outputSide := OutputSide {
  out_half : half;
  out_waiting : option (bytes * bool);
  out_streamWriteClosed : bool;
  out_connReadClosed : bool
}.

Record relay := Relay { rl_in : inputSide; rl_out : outputSide }.

Definition newRelay : relay := Relay (InputSide (Half [] [] false false) false false) (OutputSide (Half [] [] false false) None false false).

(** [writeAll] of a chunk, which fails after [k] bytes if [fail = Some k]. *)
Definition write_chunk (b : bytes) (fail : option nat) (h : half) : half :=
  match fail with
  | None => Half (h_read h) (h_written h ++ b) (h_done h) (h_broken h)
  | Some k => Half (h_read h) (h_written h ++ take k b) (h_done h) true
  end.

Definition read_chunk (b : bytes) (h : half) : half := Half (h_read h ++ b) (h_written h) (h_done h) (h_broken h).
Definition end_half (h : half) : half := Half (h_read h) (h_written h) true (h_broken h).
Definition break_half (h : half) : half := Half (h_read h) (h_written h) true true.

Section Conn.
(** Whether the connection has [CloseWrite] and [CloseRead]. *)
Variables (hasCloseWrite hasCloseRead : bool).

Definition input_end (h : half) : inputSide := InputSide (end_half h) hasCloseWrite true.

(** One pass of [forwardConnInput]: [stream.Read] returns [b] and an error or
    not. *)
Definition forwardConnInput (b : bytes) (err : bool) (fail : option nat) (s : inputSide) : inputSide :=
  if h_done (in_half s) then s
  else
    let h := read_chunk b (in_half s) in
    match b with
    | [] => if err then input_end h else InputSide h (in_connWriteClosed s) (in_streamReadClosed s)
    | _ => let h := write_chunk b fail h in
           if err || bool_decide (fail <> None) then input_end h else InputSide h (in_connWriteClosed s) (in_streamReadClosed s)
    end.

Definition output_end (h : half) : outputSide := OutputSide (end_half h) None true hasCloseRead.

Definition output_write (b : bytes) (err : bool) (fail : option nat) (h : half) (s : outputSide) : outputSide :=
  let h := write_chunk b fail h in
  if err || bool_decide (fail <> None) then output_end h
  else OutputSide h None (out_streamWriteClosed s) (out_connReadClosed s).

(** One pass of [forwardConnOutput]: [conn.Read] returns; [lost]: the client is
    in a timeout. *)
Definition forwardConnOutput (b : bytes) (err lost : bool) (fail : option nat) (s : outputSide) : outputSide :=
  if h_done (out_half s) || bool_decide (out_waiting s <> None) then s
  else
    let h := read_chunk b (out_half s) in
    match b with
    | [] => if err then output_end h else OutputSide h None (out_streamWriteClosed s) (out_connReadClosed s)
    | _ => if lost then OutputSide h (Some (b, err)) (out_streamWriteClosed s) (out_connReadClosed s)
           else output_write b err fail h s
    end.

(** [waitUntilReconnected] returns, with an error if the client is gone. *)
Definition output_resumed (ok : bool) (fail : option nat) (s : outputSide) : outputSide :=
  match out_waiting s with
  | None => s
  | Some (b, err) => if ok then output_write b err fail (out_half s) s else output_end (break_half (out_half s))
  end.

Inductive relay_event :=
| FromStream (b : bytes) (err : bool) (fail : option nat)
| FromConn (b : bytes) (err lost : bool) (fail : option nat)
| Resumed (ok : bool) (fail : option nat).

Definition relay_step (r : relay) (e : relay_event) : relay :=
  match e with
  | FromStream b err fail => Relay (forwardConnInput b err fail (rl_in r)) (rl_out r)
  | FromConn b err lost fail => Relay (rl_in r) (forwardConnOutput b err lost fail (rl_out r))
  | Resumed ok fail => Relay (rl_in r) (output_resumed ok fail (rl_out r))
  end.

Definition relay_run (es : list relay_event) : relay := fold_left relay_step es newRelay.

(** [forwardConnection] has returned. *)
Definition forwardConnection_returned (r : relay) : bool := h_done (in_half (rl_in r)) && h_done (out_half (rl_out r)).

(** A direction writes what it reads, [w] being on its way; a write that fails
    ends it. *)
Definition half_ok (w : bytes) (h : half) : Prop :=
  (h_written h `prefix_of` h_read h) /\ (h_broken h = false -> h_read h = h_written h ++ w).

Definition input_ok (s : inputSide) : Prop :=
  half_ok [] (in_half s) /\ (h_broken (in_half s) = true -> h_done (in_half s) = true) /\
  in_connWriteClosed s = h_done (in_half s) && hasCloseWrite /\ in_streamReadClosed s = h_done (in_half s).

Definition output_ok (s : outputSide) : Prop :=
  half_ok (from_option fst [] (out_waiting s)) (out_half s) /\ (h_broken (out_half s) = true -> h_done (out_half s) = true) /\
  (out_waiting s <> None -> h_done (out_half s) = false) /\
  out_streamWriteClosed s = h_done (out_half s) /\ out_connReadClosed s = h_done (out_half s) && hasCloseRead.

Lemma half_ok_write b fail h : half_ok b h -> h_broken h = false -> half_ok [] (write_chunk b fail h).
Proof.
  intros [_ Hr] Hb. specialize (Hr Hb). destruct fail as [k|]; split; simpl; try done.
  - rewrite Hr. apply prefix_app, prefix_take.
  - by rewrite Hr.
  - intros _. by rewrite app_nil_r.
Qed.

Lemma half_ok_read b h : half_ok [] h -> half_ok b (read_chunk b h).
Proof. intros [Hp Hr]. split; simpl; [by apply prefix_app_r|]. intros Hb. rewrite (Hr Hb). by rewrite app_nil_r. Qed.

Lemma half_ok_end w h : half_ok w h -> half_ok w (end_half h).
Proof. done. Qed.

Lemma open_unbroken (b : bool) : (b = true -> false = true) -> b = false.
Proof. destruct b; [|done]. intros Hb. by specialize (Hb eq_refl). Qed.

Lemma input_ok_step b err fail s : input_ok s -> input_ok (forwardConnInput b err fail s).
Proof.
  intros Hs. pose proof Hs as (Hh & Hb & Hc1 & Hc2). unfold forwardConnInput. destruct (h_done (in_half s)) eqn:Hd; [done|].
  pose proof (open_unbroken _ Hb) as Hub. pose proof (half_ok_read b _ Hh) as Hr.
  destruct b as [|x b]; [destruct err; split_and!; simpl; rewrite ?Hd; try done; congruence|].
  pose proof (half_ok_write (x :: b) fail _ Hr Hub) as Hw. destruct (err || _) eqn:Hbr; [by split_and!|].
  destruct fail; [rewrite bool_decide_eq_true_2 in Hbr by done; by destruct err|]. split_and!; simpl in *; rewrite ?Hd; try done; congruence.
Qed.

Lemma output_ok_write b err fail h s : half_ok b h -> h_broken h = false -> h_done h = false ->
  out_streamWriteClosed s = false -> out_connReadClosed s = false -> output_ok (output_write b err fail h s).
Proof.
  intros Hh Hub Hd Hs Hc. unfold output_write. pose proof (half_ok_write b fail _ Hh Hub) as Hw. destruct (err || _) eqn:Hbr; [by split_and!|].
  destruct fail; [rewrite bool_decide_eq_true_2 in Hbr by done; by destruct err|]. split_and!; simpl in *; try done; try congruence.
  by rewrite Hd.
Qed.

Lemma output_ok_step b err lost fail s : output_ok s -> output_ok (forwardConnOutput b err lost fail s).
Proof.
  intros Hs. pose proof Hs as (Hh & Hb & Hw & Hc1 & Hc2). unfold forwardConnOutput. destruct (h_done (out_half s)) eqn:Hd; [done|].
  destruct (out_waiting s) eqn:Ew; [by rewrite bool_decide_eq_true_2|].
  rewrite bool_decide_eq_false_2 by auto. pose proof (open_unbroken _ Hb) as Hub. simpl in Hh, Hc2 |- *.
  pose proof (half_ok_read b _ Hh) as Hr. destruct b as [|x b]; [destruct err; split_and!; simpl; rewrite ?Hd; try done; congruence|].
  destruct lost; [split_and!; simpl; rewrite ?Hd; try done; congruence|]. by apply output_ok_write.
Qed.

Lemma output_ok_resumed ok fail s : output_ok s -> output_ok (output_resumed ok fail s).
Proof.
  intros Hs. pose proof Hs as (Hh & Hb & Hw & Hc1 & Hc2). unfold output_resumed. destruct (out_waiting s) as [[b err]|]; [|done].
  specialize (Hw ltac:(done)). rewrite Hw in *. pose proof (open_unbroken _ Hb) as Hub. destruct ok; [by apply output_ok_write|].
  split_and!; simpl; try done. split; simpl; [apply Hh|done].
Qed.

Lemma relay_run_ok es : input_ok (rl_in (relay_run es)) /\ output_ok (rl_out (relay_run es)).
Proof.
  unfold relay_run. assert (H0 : input_ok (rl_in newRelay) /\ output_ok (rl_out newRelay)) by (by repeat split).
  revert H0. generalize newRelay. induction es as [|e es IH]; intros r [Hi Ho]; [done|]. apply IH.
  destruct e; simpl; split; auto using input_ok_step, output_ok_step, output_ok_resumed.
Qed.

(** C28: a forwarded connection carries the bytes of each direction in order: what
    was written is the beginning of what was read, and all of it, but for the
    chunk held while the client is away, unless a write failed or the client
    never came back, which ends that direction.  The end of one direction closes
    the writing end of the other side and nothing else: the opposite direction
    is still open, and the handler returns when both have ended. *)
Theorem relay_keeps_streams es : let r := relay_run es in
  let i := in_half (rl_in r) in let o := out_half (rl_out r) in
  (h_written i `prefix_of` h_read i) /\ (h_broken i = false -> h_written i = h_read i) /\
  (h_written o `prefix_of` h_read o) /\ (h_broken o = false -> h_written o ++ from_option fst [] (out_waiting (rl_out r)) = h_read o) /\
  in_connWriteClosed (rl_in r) = h_done i && hasCloseWrite /\ in_streamReadClosed (rl_in r) = h_done i /\
  out_streamWriteClosed (rl_out r) = h_done o /\ out_connReadClosed (rl_out r) = h_done o && hasCloseRead /\
  (forwardConnection_returned r = true <-> in_streamReadClosed (rl_in r) = true /\ out_streamWriteClosed (rl_out r) = true).
Proof.
  intros r i o. destruct (relay_run_ok es) as [((Hp & Hr) & _ & Hc1 & Hc2) ((Hp' & Hr') & _ & _ & Hc3 & Hc4)].
  fold r in Hp, Hr, Hc1, Hc2, Hp', Hr', Hc3, Hc4. split_and!; try done.
  - intros Hb. specialize (Hr Hb). by rewrite app_nil_r in Hr.
  - intros Hb. symmetry. by apply Hr'.
  - unfold forwardConnection_returned. rewrite Hc2, Hc3. apply andb_true_iff.
Qed.

End Conn.

(** ** Listening for the client *)

(** What [os.Lstat] tells [unlinkStaleUnixSocket]. *)
Definition lstat_of (f : fs) (path : string) : lstat :=
  match f !! path with
  | None => NotExist
  | Some i => if bool_decide (f_kind i = SockFile) then IsSocket else NotSocket
  end.

Definition unlink_stale (c : sshd_config) (e : env) (f : fs) (path : string) : fs * option goerr :=
  let '(gone, err) := unlinkStaleUnixSocket c path (lstat_of f path)
                        (if remove_ok e path then None else Some (Plain "remove failed")) in
  (if gone then delete path f else f, err).

(** The part that both handlers share: the stale file, the socket, its mode.
    [netOk]: whether a listener that is not a file can be opened; [cl]: what
    closing the listener does to the file. *)
Definition open_listener (c : sshd_config) (e : env) (f : fs) (unix : bool) (path : string) (cl : closer) (netOk : bool)
  : (goerr + option unlinker) * fs :=
  if unix then
    match unlink_stale c e f path with
    | (f, Some err) => (inl err, f)
    | (f, None) =>
        match Listen e f path with
        | (false, f) => (inl (Plain "listen failed"), f)
        | (true, f) =>
            match Chmod e f path (socket_mode c) with
            | (false, f) => (inl (Plain ("chmod unix socket [" +:+ path +:+ "] failed")), (Socket.Remove e (close_resource e f cl) path).2)
            | (true, f) => (inr (Some (newFileUnlinker f path cl)), f)
            end
        end
    end
  else (if netOk then inr None else inl (Plain "listen failed"), f).

(** The deferred calls: [newFileUnlinker] or the plain [Close]. *)
Definition close_listener (e : env) (f : fs) (u : option unlinker) : fs :=
  match u with Some u => (cleanup e f u).1 | None => f end.

Inductive reply := RefusedBy (option : string) | ReplyError (e : goerr) | AckSent | AcceptSent (id : Z).

(** The loop of [handleListenEvent] over the connections that [Accept] returns,
    until it fails: for each, what else happens to the parked connections before
    the message is sent, and whether it is sent. *)
Fixpoint accept_loop (s : fwd_accept) (conns : list (nat * list accept_event * bool)) : fwd_accept * list reply :=
  match conns with
  | [] => (s, [])
  | (conn, others, sendOk) :: conns =>
      let '(s, id) := addAcceptConn s conn in
      let s := fold_left accept_step others s in
      if sendOk then let '(s, rs) := accept_loop s conns in (s, AcceptSent id :: rs)
      else (reapAcceptConn s id, [])
  end.

Definition handleListenEvent (c : sshd_config) (e : env) (net : bytes) (addr : string) (netOk ackOk : bool)
  (conns : list (nat * list accept_event * bool)) (s : fwd_accept) (f : fs) : fwd_accept * fs * list reply :=
  match listen_policy c net with
  | Prohibited opt => (s, f, [RefusedBy opt])
  | _ =>
      match open_listener c e f (bool_decide (net = bs "unix")) addr (UnixListener addr) netOk with
      | (inl err, f) => (s, f, [ReplyError err])
      | (inr u, f) =>
          if ackOk then let '(s, rs) := accept_loop s conns in (s, close_listener e f u, AckSent :: rs)
          else (s, close_listener e f u, [])
      end
  end.

(** The key of a peer, whose address may be missing. *)
Definition sessionKey (listenerID : Z) (addr : option string) : string :=
  (str (decimal listenerID) ++ "_" ++ default "nil" addr)%string.

Inductive send_result := SendOk | SendClosed | SendErr.

(** The loop of [handleListenUdpEvent]. *)
Fixpoint packet_loop (t : udp_server) (listenerID : Z) (packets : list (option string * bytes * send_result)) : udp_server * list reply :=
  match packets with
  | [] => (t, [])
  | (addr, data, sent) :: packets =>
      match listenUdp_packet t (sessionKey listenerID addr) data with
      | (t, None) => packet_loop t listenerID packets
      | (t, Some id) =>
          match sent with
          | SendOk => let '(t, rs) := packet_loop t listenerID packets in (t, AcceptSent id :: rs)
          | SendClosed => (listenUdp_sendFailed t id id, [])
          | SendErr => packet_loop (listenUdp_sendFailed t id id) listenerID packets
          end
      end
  end.

Definition handleListenUdpEvent (c : sshd_config) (e : env) (net : bytes) (addr : string) (netOk ackOk : bool) (nextListenerID : Z)
  (packets : list (option string * bytes * send_result)) (t : udp_server) (f : fs) : udp_server * fs * Z * list reply :=
  match listenUdp_policy c net with
  | Prohibited opt => (t, f, nextListenerID, [RefusedBy opt])
  | _ =>
      match open_listener c e f (bool_decide (net = bs "unixgram")) addr UnixConn netOk with
      | (inl err, f) => (t, f, nextListenerID, [ReplyError err])
      | (inr u, f) =>
          if ackOk then
            let listenerID := u64 (nextListenerID + 1) in
            let '(t, rs) := packet_loop t listenerID packets in (t, close_listener e f u, listenerID, AckSent :: rs)
          else (t, close_listener e f u, nextListenerID, [])
      end
  end.

(** *** The socket file *)

Lemma Stat_sock f path i : f !! path = Some i -> f_kind i = SockFile -> Stat f path = Some i.
Proof. intros Hf Hk. unfold Stat. simpl. rewrite Hf. by destruct i; simpl in *; subst. Qed.

Lemma Stat_none f path : f !! path = None -> Stat f path = None.
Proof. intros Hf. unfold Stat. simpl. by rewrite Hf. Qed.

Lemma open_listener_ok c e f unix path cl netOk u f' : f !! path = None \/ unix = false ->
  open_listener c e f unix path cl netOk = (inr u, f') ->
  if unix then exists i, u = Some (Unlinker path cl (Some i) false) /\ f' = <[path := i]> f /\ f_kind i = SockFile /\
                 f_uid i = uid e /\ f_perm i = socket_mode c
  else u = None /\ f' = f.
Proof.
  intros Hf. unfold open_listener. destruct unix; [|by destruct netOk; intros [= <- <-]]. destruct Hf as [Hf|]; [|done].
  unfold unlink_stale, lstat_of. rewrite Hf. unfold unlinkStaleUnixSocket.
  destruct (negb _); unfold Listen; rewrite Hf; (destruct (listen_ok e path); [|done]);
    unfold Chmod; rewrite lookup_insert_eq; (destruct (chmod_ok e path); [|done]); rewrite insert_insert_eq; intros [= <- <-];
    (eexists; split_and!; [unfold newFileUnlinker; rewrite (Stat_sock _ path (File SockFile (uid e) (socket_mode c) (next_ino e))) by
       (simpl; by rewrite ?lookup_insert_eq); done|done..]).
Qed.

Lemma open_listener_err c e f unix path cl netOk err f' : f !! path = None \/ unix = false -> remove_ok e path = true ->
  (cl = UnixListener path \/ cl = UnixConn) -> open_listener c e f unix path cl netOk = (inl err, f') -> f' = f.
Proof.
  intros Hf Hr Hcl. unfold open_listener. destruct unix; [|by destruct netOk; intros [= _ <-]]. destruct Hf as [Hf|]; [|done].
  unfold unlink_stale, lstat_of. rewrite Hf. unfold unlinkStaleUnixSocket.
  assert (Hdel : forall i, (Socket.Remove e (close_resource e (<[path := i]> f) cl) path).2 = f).
  { intros i. destruct Hcl as [-> | ->]; simpl; unfold Socket.Remove; rewrite lookup_insert_eq, Hr; simpl.
    - rewrite delete_insert_eq, lookup_delete_eq. simpl. by rewrite (delete_id f).
    - by rewrite delete_insert_eq, (delete_id f). }
  destruct (negb _); unfold Listen; rewrite Hf; (destruct (listen_ok e path); [|by intros [= _ <-]]);
    unfold Chmod; rewrite lookup_insert_eq; (destruct (chmod_ok e path); [done|]); intros [= _ <-]; apply Hdel.
Qed.

Lemma close_listener_gone e f path i cl : f !! path = None -> remove_ok e path = true -> f_kind i = SockFile ->
  (cl = UnixListener path \/ cl = UnixConn) -> close_listener e (<[path := i]> f) (Some (Unlinker path cl (Some i) false)) = f.
Proof.
  intros Hf Hr Hk Hcl. unfold close_listener, cleanup. simpl.
  destruct Hcl as [-> | ->]; simpl.
  - unfold Socket.Remove. rewrite lookup_insert_eq, Hr. simpl. rewrite delete_insert_eq, (delete_id f) by done. by rewrite Stat_none.
  - rewrite (Stat_sock _ _ i) by (by rewrite ?lookup_insert_eq). unfold SameFile. rewrite Z.eqb_refl. unfold Socket.Remove.
    rewrite lookup_insert_eq, Hr. simpl. by rewrite delete_insert_eq, (delete_id f).
Qed.

(** A stale socket is removed first, when the configuration says so. *)
Definition unlinks (c : sshd_config) (f : fs) (unix : bool) (path : string) : bool :=
  unix && EqualFold (getSshdConfig c (bs "StreamLocalBindUnlink")) "yes" &&
  match f !! path with Some i => bool_decide (f_kind i = SockFile) | None => false end.

Definition without_stale (c : sshd_config) (f : fs) (unix : bool) (path : string) : fs :=
  if unlinks c f unix path then delete path f else f.

Lemma open_listener_stale c e f unix path cl netOk : remove_ok e path = true -> unlinks c f unix path = true ->
  open_listener c e f unix path cl netOk = open_listener c e (delete path f) unix path cl netOk.
Proof.
  unfold unlinks. intros Hr Hu. apply andb_true_iff in Hu as [Hu Hs]. apply andb_true_iff in Hu as [-> Hy].
  unfold open_listener, unlink_stale, lstat_of, unlinkStaleUnixSocket. rewrite lookup_delete_eq, Hy, Hr. simpl.
  destruct (f !! path) as [i|]; [|done]. by rewrite Hs.
Qed.

(** A file that is not removed makes [Listen] fail. *)
Lemma open_listener_taken c e f path cl netOk i : f !! path = Some i -> unlinks c f true path = false ->
  exists err, open_listener c e f true path cl netOk = (inl err, f).
Proof.
  unfold unlinks. intros Hf Hu. unfold open_listener, unlink_stale, lstat_of, unlinkStaleUnixSocket. rewrite Hf in *. simpl in Hu.
  destruct (EqualFold _ _); simpl in *; [rewrite Hu; simpl; by eexists|]. unfold Listen. rewrite Hf. by eexists.
Qed.

(** Opening from any file system: as from one without the stale socket, or not
    at all. *)
Lemma open_listener_cases c e f unix path cl netOk : remove_ok e path = true ->
  let f0 := without_stale c f unix path in
  (f0 !! path = None \/ unix = false) /\ open_listener c e f unix path cl netOk = open_listener c e f0 unix path cl netOk
  \/ (unix = true /\ f0 = f /\ exists err, open_listener c e f unix path cl netOk = (inl err, f)).
Proof.
  intros Hr. unfold without_stale. destruct (unlinks c f unix path) eqn:Hu.
  - left. split; [left; apply lookup_delete_eq|by apply open_listener_stale].
  - destruct unix; [|left; by split; [right|]]. destruct (f !! path) as [i|] eqn:Hf; [|left; split; [by left|done]].
    right. split_and!; [done..|]. by eapply open_listener_taken.
Qed.

(** *** The accepted connections *)

(** The loop as steps of [Forward]. *)
Fixpoint loop_events (s : fwd_accept) (conns : list (nat * list accept_event * bool)) : list accept_event :=
  match conns with
  | [] => []
  | (conn, others, sendOk) :: conns =>
      let '(s, id) := addAcceptConn s conn in
      Accepted conn :: others ++ (if sendOk then loop_events (fold_left accept_step others s) conns else [SendFailed id])
  end.

Lemma accept_loop_events s conns : (accept_loop s conns).1 = fold_left accept_step (loop_events s conns) s.
Proof.
  revert s. induction conns as [|[[conn others] ok] conns IH]; intros s; [done|]. cbn [accept_loop loop_events].
  destruct (addAcceptConn s conn) as [s1 id] eqn:E. cbn [fold_left accept_step]. rewrite E, fold_left_app. simpl. destruct ok; [|done].
  rewrite <- IH. by destruct (accept_loop _ _).
Qed.

(** What the listener handled while it was open. *)
Definition listening (c : sshd_config) (e : env) (net : bytes) (addr : string) (netOk ackOk : bool) (f : fs) : bool :=
  match listen_policy c net, open_listener c e f (bool_decide (net = bs "unix")) addr (UnixListener addr) netOk with
  | Prohibited _, _ | _, (inl _, _) => false
  | _, (inr _, _) => ackOk
  end.

(** What the handler leaves of the listener. *)
Lemma listener_undone c e f unix path netOk : remove_ok e path = true ->
  let f0 := without_stale c f unix path in
  match open_listener c e f unix path (UnixListener path) netOk with
  | (inl _, f1) => f1 = f0
  | (inr u, f1) => close_listener e f1 u = f0 /\ (unix = true -> f_perm <$> f1 !! path = Some (socket_mode c))
  end.
Proof.
  intros Hr f0. destruct (open_listener_cases c e f unix path (UnixListener path) netOk Hr) as [[Hf ->]|(-> & E & err & ->)];
    [|done]. fold f0 in Hf |- *. destruct (open_listener c e f0 unix path _ netOk) as [[err|u] f1] eqn:Ho.
  - apply open_listener_err in Ho as ->; [done|done|done|by left].
  - apply open_listener_ok in Ho; [|done]. destruct unix; [|by destruct Ho as [-> ->]].
    destruct Hf as [Hf|]; [|done]. destruct Ho as (i & -> & -> & Hk & _ & Hp). split.
    + apply close_listener_gone; auto.
    + intros _. rewrite lookup_insert_eq. simpl. by rewrite Hp.
Qed.


(** *** The sessions of UDP peers *)

Lemma bs_append a b : bs (a ++ b)%string = bs a ++ bs b.
Proof. unfold bs. induction a as [|x a IH]; [done|]. simpl. by rewrite IH. Qed.

Lemma bs_str l : bs (str l) = l.
Proof. apply list_ascii_of_string_of_list_ascii. Qed.

Lemma cut_unique {A} (x : A) (l1 l2 r1 r2 : list A) : (x ∉ l1) -> (x ∉ l2) -> l1 ++ x :: r1 = l2 ++ x :: r2 -> l1 = l2 /\ r1 = r2.
Proof.
  revert l2. induction l1 as [|a l1 IH]; intros [|b l2] H1 H2 Heq; simplify_eq/=; [done|set_solver|set_solver|].
  destruct (IH l2) as [-> ->]; [set_solver|set_solver|done|done].
Qed.

(** Peers of different listeners, and different peers of one, have different
    keys, except that a peer without an address shares the key of a socket
    named [nil]. *)
Lemma sessionKey_inj l1 l2 a1 a2 : 0 <= l1 < 2 ^ 64 -> 0 <= l2 < 2 ^ 64 -> sessionKey l1 a1 = sessionKey l2 a2 ->
  l1 = l2 /\ default "nil"%string a1 = default "nil"%string a2.
Proof.
  intros H1 H2 Heq. apply (f_equal bs) in Heq. unfold sessionKey in Heq. rewrite !bs_append, !bs_str in Heq. cbn [bs list_ascii_of_string app] in Heq.
  apply cut_unique in Heq as [Hd Ha]; [|by apply decimal_not_in; [lia|]..]. split.
  - apply (f_equal (ParseUint 64)) in Hd. rewrite !ParseUint_decimal in Hd by lia. by injection Hd.
  - apply (f_equal string_of_list_ascii) in Ha. by rewrite !string_of_list_ascii_of_string in Ha.
Qed.

(** A new peer whose accept message could not be sent is forgotten. *)
Lemma listenUdp_undo t key data t1 id : udp_wf t -> nextUdpFwdChannelID t + 1 < 2 ^ 64 -> udpFwdSessionMap t !! key = None ->
  listenUdp_packet t key data = (t1, Some id) ->
  let t2 := listenUdp_sendFailed t1 id id in
  udp_wf t2 /\ nextUdpFwdChannelID t2 = nextUdpFwdChannelID t + 1 /\ udpFwdSessionMap t2 = udpFwdSessionMap t /\
  forall i, i <= nextUdpFwdChannelID t -> udpFwdPendingMap t2 !! i = udpFwdPendingMap t !! i.
Proof.
  intros Hwf Hlt Hnone E t2. pose proof (listenUdp_new t key data Hwf Hlt Hnone) as Hnew. rewrite E in Hnew.
  destruct Hnew as ([= ->] & Hn & Hm & Hp & conn & Hs). set (id := nextUdpFwdChannelID t + 1) in *.
  assert (Ht2 : exists conn' f, t2 = UdpServer id (udpFwdSessionMap t) (delete id (<[id := id]> (udpFwdPendingMap t)))
                  (<[id := UdpSession key conn' [data] true []]> (udp_sessions t)) f).
  { unfold t2, listenUdp_sendFailed, takeUdpFwdPendingSession. rewrite Hp, lookup_insert_eq. simpl.
    unfold releaseUdpForwardSession. simpl. rewrite Hs, lookup_insert_eq. simpl. destruct (packet_Close _ _) as [conn' f].
    exists conn', f. by rewrite Hm, Hn, delete_insert_id, insert_insert_eq. }
  destruct Ht2 as (conn' & f & ->). simpl. destruct Hwf as [H0 H]. split_and!; [|done|done|].
  - split; simpl; [lia|]. intros k i (Hle & s & Hs' & Hkey)%H. split; [lia|]. exists s. by rewrite lookup_insert_ne by lia.
  - intros i Hi. by rewrite lookup_delete_ne, lookup_insert_ne by lia.
Qed.

(** The session of a peer and its place among the sessions to be accepted last
    as long as the listener. *)
Lemma packet_loop_keeps t l ps key id : udp_wf t -> nextUdpFwdChannelID t + Z.of_nat (length ps) < 2 ^ 64 ->
  udpFwdSessionMap t !! key = Some id -> udpFwdPendingMap t !! id = Some id ->
  udpFwdSessionMap (packet_loop t l ps).1 !! key = Some id /\ udpFwdPendingMap (packet_loop t l ps).1 !! id = Some id.
Proof.
  revert t. induction ps as [|[[addr data] sent] ps IH]; intros t Hwf Hlt Hk Hp; [done|]. cbn [packet_loop length] in *.
  destruct (proj2 Hwf _ _ Hk) as [Hle _].
  destruct (udp_wf_packet t (sessionKey l addr) data Hwf ltac:(lia)) as [Hwf1 Hn1].
  destruct (udpFwdSessionMap t !! sessionKey l addr) as [j|] eqn:Hj.
  - rewrite (listenUdp_known _ _ j) in * by done. apply IH; simpl in *; [done|lia|done|done].
  - pose proof (listenUdp_undo t (sessionKey l addr) data) as Hundo.
    pose proof (listenUdp_new t (sessionKey l addr) data Hwf ltac:(lia) Hj) as Hnew.
    destruct (listenUdp_packet t (sessionKey l addr) data) as [t1 ann]. destruct Hnew as (-> & Hn & Hm & Hpend & _). simpl in Hwf1, Hn1.
    assert (Hk1 : udpFwdSessionMap t1 !! key = Some id) by (rewrite Hm, lookup_insert_ne; [done|congruence]).
    assert (Hp1 : udpFwdPendingMap t1 !! id = Some id) by (rewrite Hpend, lookup_insert_ne by lia; done).
    destruct (Hundo _ _ Hwf ltac:(lia) Hj eq_refl) as (Hwf2 & Hn2 & Hm2 & Hp2). destruct sent.
    + destruct (IH t1 Hwf1 ltac:(lia) Hk1 Hp1) as [H1 H2]. by destruct (packet_loop t1 l ps).
    + simpl. by rewrite Hm2, Hp2.
    + apply IH; [done|lia|by rewrite Hm2|by rewrite Hp2].
Qed.

(** A UDP peer that was announced to the client and never accepted is kept for
    ever: whatever packets follow, when the listener is gone its session is
    still in the table and still waits to be accepted.  A TCP connection in that
    position is closed after the connect timeout. *)
Theorem udp_unclaimed_kept c e net laddr nextListenerID addr data packets t f :
  udp_wf t -> nextUdpFwdChannelID t + 1 + Z.of_nat (length packets) < 2 ^ 64 -> listenUdp_policy c net = Allowed -> net <> bs "unixgram" ->
  udpFwdSessionMap t !! sessionKey (u64 (nextListenerID + 1)) addr = None ->
  let '(t', f', l, rs) := handleListenUdpEvent c e net laddr true true nextListenerID ((addr, data, SendOk) :: packets) t f in
  exists id rs', rs = AckSent :: AcceptSent id :: rs' /\ udpFwdSessionMap t' !! sessionKey l addr = Some id /\ udpFwdPendingMap t' !! id = Some id.
Proof.
  intros Hwf Hlt Hpol Hnet Hnone. unfold handleListenUdpEvent, open_listener. rewrite Hpol, bool_decide_eq_false_2 by done.
  set (l := u64 (nextListenerID + 1)) in *. cbn [packet_loop].
  pose proof (listenUdp_new t (sessionKey l addr) data Hwf ltac:(lia) Hnone) as Hnew.
  destruct (udp_wf_packet t (sessionKey l addr) data Hwf ltac:(lia)) as [Hwf1 _].
  destruct (listenUdp_packet t (sessionKey l addr) data) as [t1 ann]. destruct Hnew as (-> & Hn & Hm & Hp & _). simpl in Hwf1.
  destruct (packet_loop_keeps t1 l packets (sessionKey l addr) (nextUdpFwdChannelID t + 1)) as [H1 H2];
    [done|lia|by rewrite Hm, lookup_insert_eq|by rewrite Hp, lookup_insert_eq|].
  destruct (packet_loop t1 l packets) as [t2 rs2]. eauto.
Qed.

(** ** Dialling for the client *)

(** What a handler did, in order. *)
Inductive dial_act :=
| SentProhibited (option : string)
| SentError (e : goerr)
| Dialled (timeout : option Z) (conn : nat)
| Responded (remote : option string)
| Forwarded (conn : nat)
| ClosedConn (conn : nat).

(** [handleDialEvent]; [dial] is [net.DialTimeout] or [net.Dial], with the
    address of the peer of a TCP connection. *)
Definition handleDialEvent (c : sshd_config) (net : bytes) (timeout : Z) (dial : option Z -> res (nat * option string)) (respOk : bool)
  : list dial_act :=
  match dial_policy c net with
  | UseDialUDP => [SentError (Plain ("use DialUDP for [" +:+ str net +:+ "]"))]
  | Prohibited opt => [SentProhibited opt]
  | Allowed =>
      let limit := if 0 <? timeout then Some timeout else None in
      match dial limit with
      | Err e => [SentError e]
      | Ok (conn, remote) =>
          Dialled limit conn :: (if respOk then [Responded remote; Forwarded conn; ClosedConn conn] else [ClosedConn conn])
      end
  end.

(** *** Datagram sockets with a name *)

(** How [net.DialUnix] ends: the local name cannot be taken, or the peer cannot be
    reached once it is. *)
Inductive unix_dial := DialOk | BindFailed | ConnectFailed.

(** [dialUDP] for [unixgram]: [tmp] is the name that [os.CreateTemp] chose. *)
Definition dialUnixgram (e : env) (f : fs) (tmp : option string) (closeOk : bool) (dial : unix_dial) : (goerr + unlinker) * fs :=
  match tmp with
  | None => (inl (Plain "create temp file failed"), f)
  | Some path =>
      let f := <[path := File Regular (uid e) m0600 (next_ino e)]> f in
      if negb closeOk then (inl (Plain "close temp file failed"), f)
      else match Socket.Remove e f path with
      | (false, f) => (inl (Plain "remove temp file failed"), f)
      | (true, f) =>
          let bound := <[path := File SockFile (uid e) (Z.ldiff 511 (umask e)) (next_ino e + 1)]> f in
          match dial with
          | BindFailed => (inl (Plain "dial failed"), match Stat f path with Some _ => (Socket.Remove e f path).2 | None => f end)
          | ConnectFailed => (inl (Plain "dial failed"), match Stat bound path with Some _ => (Socket.Remove e bound path).2 | None => bound end)
          | DialOk => (inr (newFileUnlinker bound path NoCloser), bound)
          end
      end
  end.

(** [unixgramConn.Close]. *)
Definition unixgram_Close (e : env) (f : fs) (u : unlinker) : fs * unlinker := cleanup e f u.

(** A named datagram socket leaves no file: not when it cannot be made, and not
    when it was closed. *)
Lemma unixgram_leaves_nothing e f path dial : f !! path = None -> remove_ok e path = true ->
  match dialUnixgram e f (Some path) true dial with
  | (inl _, f') => f' = f
  | (inr u, f') => f_kind <$> f' !! path = Some SockFile /\ (unixgram_Close e f' u).1 = f
  end.
Proof.
  intros Hf Hr. assert (Hrm : forall i, Socket.Remove e (<[path := i]> f) path = (true, f)).
  { intros i. unfold Socket.Remove. rewrite lookup_insert_eq, Hr, delete_insert_eq. by rewrite (delete_id f). }
  unfold dialUnixgram. cbn [negb]. rewrite Hrm. destruct dial.
  - split; [by rewrite lookup_insert_eq|]. unfold unixgram_Close, cleanup, newFileUnlinker. simpl.
    rewrite (Stat_sock _ path (File SockFile (uid e) (Z.ldiff 511 (umask e)) (next_ino e + 1))) by (rewrite ?lookup_insert_eq; done).
    unfold SameFile. by rewrite Z.eqb_refl, Hrm.
  - by rewrite Stat_none.
  - rewrite (Stat_sock _ path (File SockFile (uid e) (Z.ldiff 511 (umask e)) (next_ino e + 1))) by (rewrite ?lookup_insert_eq; done).
    by rewrite Hrm.
Qed.

(** *** Forwarding packets *)

(** How a write to the dialled socket ends. *)
Inductive conn_write := Written | WriteClosed | WriteError.

(** [forwardUDP].  [ur_in] and [ur_out] are what reached the socket and the
    client. *)
Record udpRelay := UdpRelay {
  ur_in : list bytes;
  ur_out : list bytes;
  ur_clientDone : bool;
  ur_serverDone : bool;
  ur_conn : packetConn;
  ur_forwarder : udpForwarder;
  ur_connClosed : bool
}.

Inductive udp_relay_event :=
| Consumed (b : bytes) (w : conn_write)
| ConsumeReturned
| ConnRead (b : bytes) (env : write_env)
| ConnReadErr
| Return.

Definition udp_relay_step (r : udpRelay) (e : udp_relay_event) : udpRelay :=
  match r with UdpRelay i o cd sd c f cc =>
    match e with
    | Consumed b w =>
        if cd then r
        else match w with
             | Written => UdpRelay (i ++ [b]) o cd sd c f cc
             | WriteClosed => UdpRelay i o true sd c f cc
             | WriteError => r
             end
    | ConsumeReturned => UdpRelay i o true sd c f cc
    | ConnRead b env =>
        if sd then r
        else match packet_Write c f b env with
             | (_, Some _) => UdpRelay i o cd true c f cc
             | (NoEffect, None) => r
             | (_, None) => UdpRelay i (o ++ [b]) cd sd c f cc
             end
    | ConnReadErr => UdpRelay i o cd true c f cc
    | Return => if (cd || sd) && negb cc then let '(c, f) := packet_Close c f in UdpRelay i o cd sd c f true else r
    end
  end.

Definition udp_relay_run (r : udpRelay) (es : list udp_relay_event) : udpRelay := fold_left udp_relay_step es r.

(** [handleDialUdpEvent] on a dialled socket, with the end of [forwardUDP]. *)
Definition handleDialUdpEvent (c : sshd_config) (net : bytes) (dialled : res nat) (respOk readyOk : bool) (es : list udp_relay_event) (t : udp_server)
  : udp_server * list dial_act * option udpRelay :=
  match dialUdp_policy c net with
  | Prohibited opt => (t, [SentProhibited opt], None)
  | _ =>
      match dialled with
      | Err e => (t, [SentError e], None)
      | Ok conn =>
          let id := u64 (nextUdpFwdChannelID t + 1) in
          let '(pconn, f) := newPacketConn true id (Some (udp_forwarder t)) in
          let f := default (udp_forwarder t) f in
          let t := UdpServer id (udpFwdSessionMap t) (udpFwdPendingMap t) (udp_sessions t) f in
          if negb respOk then (t, [Dialled None conn], None)
          else if negb readyOk then (t, [Dialled None conn; Responded None], None)
          else
            let r := udp_relay_run (UdpRelay [] [] false false pconn f false) (es ++ [Return]) in
            (UdpServer id (udpFwdSessionMap t) (udpFwdPendingMap t) (udp_sessions t) (ur_forwarder r),
             [Dialled None conn; Responded None; Forwarded conn] ++ (if ur_connClosed r then [ClosedConn conn] else []), Some r)
      end
  end.

(** A TCP connection dialled for the client is closed when the handler
    returns, on every path, and nothing is dialled that the configuration
    prohibits. *)
Theorem dial_closes_conn c net timeout dial respOk conn limit :
  Dialled limit conn ∈ handleDialEvent c net timeout dial respOk ->
  dial_policy c net = Allowed /\ last (handleDialEvent c net timeout dial respOk) = Some (ClosedConn conn).
Proof.
  unfold handleDialEvent. destruct (dial_policy c net); [|intros ?%list_elem_of_singleton; discriminate..].
  destruct (dial _) as [[conn' remote]|err]; [|intros ?%list_elem_of_singleton; discriminate].
  intros [[= -> ->]|Hin]%elem_of_cons; [by destruct respOk|]. destruct respOk; repeat (apply elem_of_cons in Hin as [Hin|Hin]; [discriminate|]);
    by apply elem_of_nil in Hin.
Qed.

(** A UDP socket dialled for the client is closed only if the client gets the
    answer and says it is ready.  Otherwise the handler returns and leaves the
    socket open, and the channel of packets for it in the forwarder. *)
Theorem unready_dial_leaks c net conn respOk readyOk es t :
  dialUdp_policy c net = Allowed -> uf_closed (udp_forwarder t) = false -> respOk && readyOk = false ->
  let '(t', acts, r) := handleDialUdpEvent c net (Ok conn) respOk readyOk es t in
  Dialled None conn ∈ acts /\ (ClosedConn conn ∉ acts) /\ r = None /\
  exists ch, channelMap (udp_forwarder t') !! nextUdpFwdChannelID t' = Some ch /\
    uf_heap (udp_forwarder t') !! ch = Some (Chan [] false (nextUdpFwdChannelID t') []).
Proof.
  intros Hpol Hopen Hno. unfold handleDialUdpEvent, newPacketConn, addChannel. rewrite Hpol, Hopen. cbn -[u64].
  assert (Hch : forall (l : list channel) x, (l ++ [x]) !! length l = Some x) by (intros; by apply list_lookup_middle).
  destruct respOk; cbn [negb]; [destruct readyOk; [done|]|]; cbn -[u64]; (split_and!; [set_solver|set_solver|done|]);
    eexists; rewrite lookup_insert_eq; (split; [done|apply Hch]).
Qed.

(** The packets that reached the socket and the client are among those taken and
    read, in order. *)
Definition taken (es : list udp_relay_event) : list bytes := es ≫= fun e => match e with Consumed b _ => [b] | _ => [] end.
Definition conn_read (es : list udp_relay_event) : list bytes := es ≫= fun e => match e with ConnRead b _ => [b] | _ => [] end.

Lemma udp_relay_run_app r es es' : udp_relay_run r (es ++ es') = udp_relay_run (udp_relay_run r es) es'.
Proof. apply fold_left_app. Qed.

Lemma sublist_more {A} (l : list A) (k : list A) x : l `sublist_of` k -> l `sublist_of` k ++ x.
Proof. intros H. etransitivity; [exact H|]. apply sublist_inserts_r. done. Qed.

Lemma udp_relay_packets pconn f es : let r := udp_relay_run (UdpRelay [] [] false false pconn f false) es in
  (ur_in r `sublist_of` taken es) /\ (ur_out r `sublist_of` conn_read es) /\ (ur_connClosed r = true -> pc_closed (ur_conn r) = true).
Proof.
  induction es as [|e es IH] using rev_ind; [done|]. rewrite udp_relay_run_app. unfold taken, conn_read. rewrite !bind_app.
  fold (taken es) (conn_read es). simpl in IH. destruct (udp_relay_run _ es) as [i o cd sd c g cc]. simpl in IH |- *.
  destruct IH as (Hi & Ho & Hc). destruct e as [b w| |b env| |]; simpl; rewrite ?app_nil_r; try done.
  - destruct cd; [by auto using sublist_more|]. destruct w; simpl; auto using sublist_more. split; [by apply sublist_app|done].
  - destruct sd; [by auto using sublist_more|]. destruct (packet_Write c g b env) as [[|d|d] [er|]]; simpl; auto using sublist_more;
      (split_and!; [done|by apply sublist_app|done]).
  - destruct ((cd || sd) && negb cc) eqn:E; [|done]. destruct (packet_Close c g) as [c' g'] eqn:Ecl. simpl. split_and!; try done.
    intros _. unfold packet_Close in Ecl. by destruct (pc_closed c) eqn:Ep; injection Ecl as <- <-.
Qed.

Lemma udp_relay_done r es : ur_clientDone r || ur_serverDone r = true -> let r' := udp_relay_run r es in ur_clientDone r' || ur_serverDone r' = true.
Proof.
  revert r. induction es as [|e es IH]; intros r Hr; [done|]. apply IH. destruct r as [i o cd sd c f cc]. simpl in *.
  destruct e as [b w| |b env| |]; simpl; rewrite ?orb_true_r; try done.
  - destruct cd; [done|]. by destruct w.
  - destruct sd; [by rewrite orb_true_r|]. destruct (packet_Write c f b env) as [[] []]; simpl; rewrite ?orb_true_r; done.
  - destruct ((cd || sd) && negb cc); [|done]. by destruct (packet_Close c f).
Qed.

(** [forwardUDP] forwards packets, in order and within their bounds, until
    either side ends; then the socket and the packet connection are closed. *)
Theorem udp_relay_closes_both pconn f es e es' : e = ConsumeReturned \/ e = ConnReadErr ->
  let r := udp_relay_run (UdpRelay [] [] false false pconn f false) (es ++ e :: es' ++ [Return]) in
  ur_connClosed r = true /\ pc_closed (ur_conn r) = true /\
  (ur_in r `sublist_of` taken (es ++ e :: es')) /\ (ur_out r `sublist_of` conn_read (es ++ e :: es')).
Proof.
  intros He r. destruct (udp_relay_packets pconn f (es ++ e :: es' ++ [Return])) as (Hi & Ho & Hc). fold r in Hi, Ho, Hc.
  assert (Hnil : taken (es ++ e :: es' ++ [Return]) = taken (es ++ e :: es') /\ conn_read (es ++ e :: es' ++ [Return]) = conn_read (es ++ e :: es')).
  { rewrite !app_comm_cons, !app_assoc. unfold taken, conn_read. by rewrite !(bind_app _ _ [Return]), !app_nil_r. }
  destruct Hnil as [Ht Hr]. rewrite Ht in Hi. rewrite Hr in Ho.
  assert (Hclosed : ur_connClosed r = true); [|by auto].
  unfold r. rewrite (app_comm_cons es'), app_assoc, udp_relay_run_app.
  assert (Hdone : let r' := udp_relay_run (UdpRelay [] [] false false pconn f false) (es ++ e :: es') in ur_clientDone r' || ur_serverDone r' = true).
  { rewrite udp_relay_run_app. simpl. apply (udp_relay_done (udp_relay_step _ e)).
    destruct (udp_relay_run _ es) as [i o cd sd c g cc]. destruct He as [-> | ->]; simpl; by rewrite ?orb_true_r. }
  destruct (udp_relay_run _ (es ++ e :: es')) as [i o cd sd c g cc]. simpl in Hdone |- *. rewrite Hdone. destruct cc; [done|].
  simpl. by destruct (packet_Close c g).
Qed.

(** ** The properties at work *)

Module RelayExample.
Definition config : sshd_config := parseSshdConfig (Some [bs "StreamLocalBindMask 0117"]) (bs "alice") [].
Definition server : udp_server := UdpServer 0 ∅ ∅ ∅ newForwarder.

Lemma server_ok : udp_wf server.
Proof. split; [done|]. intros k i Hk. discriminate Hk. Qed.
End RelayExample.

Import RelayExample.

(** A stale socket of another process is at the address. *)
Definition stale_fs : fs := <["/tmp/fwd"%string := File SockFile 1001 384 99]> example_fs.
Definition unlinking : sshd_config :=
  parseSshdConfig (Some [bs "StreamLocalBindMask 0117"; bs "StreamLocalBindUnlink yes"]) (bs "alice") [].


Lemma udp_unclaimed_kept_witness :
  let '(t', f', l, rs) := handleListenUdpEvent config example_env (bs "udp") "127.0.0.1:53" true true 0
      [(Some "10.0.0.1:99"%string, bs "q", SendOk); (None, bs "r", SendErr)] server example_fs in
  exists id rs', rs = AckSent :: AcceptSent id :: rs' /\ udpFwdSessionMap t' !! sessionKey l (Some "10.0.0.1:99"%string) = Some id /\
    udpFwdPendingMap t' !! id = Some id.
Proof.
  apply (udp_unclaimed_kept config example_env (bs "udp") "127.0.0.1:53" 0 (Some "10.0.0.1:99"%string) (bs "q") [(None, bs "r", SendErr)] server example_fs);
    [apply server_ok|simpl; lia|reflexivity|discriminate|reflexivity].
Defined.

Lemma dial_closes_conn_witness :
  dial_policy config (bs "tcp") = Allowed /\
  last (handleDialEvent config (bs "tcp") 5 (fun _ => Ok (3%nat, None)) false) = Some (ClosedConn 3).
Proof. apply (dial_closes_conn config (bs "tcp") 5 (fun _ => Ok (3%nat, None)) false 3 (Some 5)). vm_compute. left. Defined.

Lemma unready_dial_leaks_witness :
  let '(t', acts, r) := handleDialUdpEvent config (bs "udp") (Ok 3%nat) true false [] server in
  Dialled None 3 ∈ acts /\ (ClosedConn 3 ∉ acts) /\ r = None /\
  exists ch, channelMap (udp_forwarder t') !! nextUdpFwdChannelID t' = Some ch /\
    uf_heap (udp_forwarder t') !! ch = Some (Chan [] false (nextUdpFwdChannelID t') []).
Proof. apply (unready_dial_leaks config (bs "udp") 3 true false [] server); reflexivity. Defined.

Lemma udp_relay_closes_both_witness :
  let c := PacketConn true true 1 (Some 0%nat) false false in
  let f := fst (addChannel newForwarder 1) in
  let r := udp_relay_run (UdpRelay [] [] false false c f false) ([Consumed (bs "a") Written; Consumed (bs "b") WriteError] ++ ConnReadErr :: [] ++ [Return]) in
  ur_connClosed r = true /\ pc_closed (ur_conn r) = true /\
  (ur_in r `sublist_of` [bs "a"; bs "b"]) /\ (ur_out r `sublist_of` []).
Proof.
  apply (udp_relay_closes_both (PacketConn true true 1 (Some 0%nat) false false) (fst (addChannel newForwarder 1))
           [Consumed (bs "a") Written; Consumed (bs "b") WriteError] ConnReadErr []). by right.
Defined.
