(* ===== verification/Packets.v ===== *)
(** * Packets: reading from a packet connection ([datagram.go])

    A [packetConn] takes packets from two sides: the channel that the forwarder
    fills with datagrams, and a goroutine that reads packets off the stream
    ([startStreamReader]).  [Consume] gives each packet to a callback, which the
    goroutine calls directly; [Read] takes one packet.  Writing and the
    forwarder are in [Datagram]. *)

From Stdlib Require Import ZArith Lia Ascii String.
From stdpp Require Import base list strings gmap.
From S2P Require Import Prelude.
Open Scope Z_scope.

(** The goroutine: not started, receiving, blocked on [streamCh] with a packet,
    ended, which closes [streamCh]. *)
Inductive sreader := SNone | SReading | SHolding (b : bytes) | SEnded.

(** The call that holds [readMutex]. *)
Inductive pcall := PNone | PConsume | PRead (size : nat).

#[export] Instance pcall_eq_dec : EqDecision pcall.
Proof. solve_decision. Defined.

Inductive presult := PEOF | PError | PPacket (b : bytes).

(** [pr_channel] is [channelCh]: nil, or its packets and whether it is closed;
    [pr_stream] are the packets that the stream still has, and [pr_streamEnd]
    that nothing follows.  [pr_out], the packets given to the callback or
    returned, each with whether it came off the stream, and [pr_arrived], all
    that arrived on the stream, are history. *)
Record preader := PReader {
  pr_closed : bool;
  pr_forwarder : bool;
  pr_channel : option (list bytes * bool);
  pr_stream : list bytes;
  pr_streamEnd : bool;
  pr_reader : sreader;
  pr_streamCh : list bytes;
  pr_consumeFn : bool;
  pr_call : pcall;
  pr_result : option presult;
  pr_out : list (bool * bytes);
  pr_arrived : list bytes
}.

(** [c.readerOnce.Do(c.startStreamReader)]. *)
Definition start_reader (s : sreader) : sreader := match s with SNone => SReading | _ => s end.

(** [Consume], up to its loop. *)
Definition Consume_begin (p : preader) : preader :=
  match p with PReader cl fw ch st se r sc fn call res out arr =>
    match call with
    | PNone => if cl then PReader cl fw ch st se r sc fn PNone (Some PEOF) out arr
               else PReader cl fw ch st se (start_reader r) sc true PConsume res out arr
    | _ => p
    end
  end.

(** [Read], up to its [select]; without a forwarder it receives off the stream
    itself.  A packet that does not fit leaves the stream out of step: nothing
    more is taken off it. *)
Definition Read_begin (size : nat) (p : preader) : preader :=
  match p with PReader cl fw ch st se r sc fn call res out arr =>
    match call with
    | PNone => if cl then PReader cl fw ch st se r sc fn PNone (Some PEOF) out arr
               else if fw then PReader cl fw ch st se (start_reader r) sc fn (PRead size) res out arr
               else match st with
                    | b :: st' => if (length b <=? size)%nat
                                  then PReader cl fw ch st' se r sc fn PNone (Some (PPacket b)) (out ++ [(true, b)]) arr
                                  else PReader cl fw ch st' true r sc fn PNone (Some PError) out arr
                    | [] => if se then PReader cl fw ch st se r sc fn PNone (Some PError) out arr else p
                    end
    | _ => p
    end
  end.

(** A packet [b] reaches the call: the callback, which fails or not, or [Read],
    which copies what fits its buffer. *)
Definition deliver (fromStream ok : bool) (b : bytes) (p : preader) : preader :=
  match p with PReader cl fw ch st se r sc fn call res out arr =>
    match call with
    | PConsume => if ok then PReader cl fw ch st se r sc fn call res (out ++ [(fromStream, b)]) arr
                  else PReader cl fw ch st se r sc false PNone (Some PError) (out ++ [(fromStream, b)]) arr
    | PRead size => PReader cl fw ch st se r sc fn PNone (Some (PPacket (take size b))) (out ++ [(fromStream, b)]) arr
    | PNone => p
    end
  end.

(** The call ends at a closed channel. *)
Definition call_eof (p : preader) : preader :=
  match p with PReader cl fw ch st se r sc fn call res out arr =>
    match call with
    | PNone => p
    | PConsume => PReader cl fw ch st se r sc false PNone (Some PEOF) out arr
    | PRead _ => PReader cl fw ch st se r sc fn PNone (Some PEOF) out arr
    end
  end.

(** The [select] of the call takes from the channel or from [streamCh], if the
    one it chooses is ready. *)
Definition select_step (fromStream ok : bool) (p : preader) : preader :=
  match p with PReader cl fw ch st se r sc fn call res out arr =>
    match call with
    | PNone => p
    | _ =>
        if fromStream then
          match sc, r with
          | b :: sc', _ => deliver true ok b (PReader cl fw ch st se r sc' fn call res out arr)
          | [], SEnded => call_eof p
          | [], _ => p
          end
        else
          match ch with
          | Some (b :: q, e) => deliver false ok b (PReader cl fw (Some (q, e)) st se r sc fn call res out arr)
          | Some ([], true) => call_eof p
          | _ => p
          end
    end
  end.

(** One step of the goroutine; [ok]: whether the callback succeeds. *)
Definition reader_step (ok : bool) (p : preader) : preader :=
  match p with PReader cl fw ch st se r sc fn call res out arr =>
    match r with
    | SReading =>
        match st with
        | b :: st' =>
            if fn then PReader cl fw ch st' se (if ok then SReading else SEnded) sc fn call res (out ++ [(true, b)]) arr
            else if (length sc <? 1)%nat then PReader cl fw ch st' se SReading (sc ++ [b]) fn call res out arr
            else PReader cl fw ch st' se (SHolding b) sc fn call res out arr
        | [] => if se then PReader cl fw ch st se SEnded sc fn call res out arr else p
        end
    | SHolding b =>
        if (length sc <? 1)%nat then PReader cl fw ch st se SReading (sc ++ [b]) fn call res out arr
        else if cl then PReader cl fw ch st se SEnded sc fn call res out arr else p
    | _ => p
    end
  end.

(** [Close]: the stream ends and the forwarder will close the channel. *)
Definition conn_close (p : preader) : preader :=
  match p with PReader cl fw ch st se r sc fn call res out arr =>
    if cl then p else PReader true fw ch [] true r sc fn call res out arr
  end.

Inductive p_event :=
| StreamPacket (b : bytes)
| StreamEnds
| ChannelPacket (b : bytes)
| ChannelCloses
| CallConsume
| CallRead (size : nat)
| SelectStep (fromStream ok : bool)
| ReaderStep (ok : bool)
| CloseConn.

Definition p_step (p : preader) (e : p_event) : preader :=
  match e with
  | StreamPacket b =>
      match p with PReader cl fw ch st se r sc fn call res out arr =>
        if se then p else PReader cl fw ch (st ++ [b]) se r sc fn call res out (arr ++ [b]) end
  | StreamEnds => match p with PReader cl fw ch st se r sc fn call res out arr => PReader cl fw ch st true r sc fn call res out arr end
  | ChannelPacket b =>
      match p with PReader cl fw ch st se r sc fn call res out arr =>
        match ch with Some (q, false) => PReader cl fw (Some (q ++ [b], false)) st se r sc fn call res out arr | _ => p end end
  | ChannelCloses =>
      match p with PReader cl fw ch st se r sc fn call res out arr =>
        PReader cl fw ((fun c => (c.1, true)) <$> ch) st se r sc fn call res out arr end
  | CallConsume => Consume_begin p
  | CallRead size => Read_begin size p
  | SelectStep fromStream ok => select_step fromStream ok p
  | ReaderStep ok => reader_step ok p
  | CloseConn => conn_close p
  end.

Definition p_run (p : preader) (es : list p_event) : preader := fold_left p_step es p.

(** A connection made by [newPacketConn]; [ch] is false if it has no forwarder or
    the forwarder is closed. *)
Definition newReader (fw ch : bool) : preader := PReader false fw (if ch then Some ([], false) else None) [] false SNone [] false PNone None [] [].

(** ** Order *)

Definition off_stream (out : list (bool * bytes)) : list bytes := out ≫= fun x : bool * bytes => if x.1 then [x.2] else [].

Lemma off_stream_snoc out s b : off_stream (out ++ [(s, b)]) = off_stream out ++ (if s then [b] else []).
Proof. unfold off_stream. rewrite bind_app. simpl. by rewrite app_nil_r. Qed.

Definition held (r : sreader) : list bytes := match r with SHolding b => [b] | _ => [] end.

(** What a packet off the stream goes through, in order. *)
Definition pipeline (p : preader) : list bytes := off_stream (pr_out p) ++ pr_streamCh p ++ held (pr_reader p) ++ pr_stream p.

Record p_ok (p : preader) : Prop := POk {
  pk_prefix : pipeline p `prefix_of` pr_arrived p;
  pk_all : pr_streamEnd p = false -> pipeline p = pr_arrived p;
  pk_closed : pr_closed p = true -> pr_streamEnd p = true /\ pr_stream p = [];
  pk_consume : pr_consumeFn p = true -> pr_streamCh p = [] /\ held (pr_reader p) = [];
  pk_call : pr_consumeFn p = bool_decide (pr_call p = PConsume)
}.


(** Everything but the calls. *)
Definition quiet (e : p_event) : Prop := match e with CallConsume | CallRead _ => False | _ => True end.

Lemma p_ok_select s ok p : p_ok p -> p_ok (select_step s ok p).
Proof.
  destruct p as [cl fw ch st se r sc fn call res out arr]. intros [Hp Ha Hcl Hc Hk]. simpl in *.
  destruct call as [| |n]; [by split| |]; simpl in *; subst fn.
  - destruct (Hc eq_refl) as [-> Hh]. destruct s.
    + destruct r; simpl in *; by split.
    + destruct ch as [[[|b q] [|]]|]; simpl; try (by split); destruct ok; split; simpl; try done;
        unfold pipeline in *; simpl in *; rewrite off_stream_snoc, app_nil_r; done.
  - destruct s.
    + destruct sc as [|b sc]; [destruct r; simpl in *; by split|]. split; simpl; try done;
        unfold pipeline in *; simpl in *; rewrite off_stream_snoc, <- !app_assoc; done.
    + destruct ch as [[[|b q] [|]]|]; simpl; try (by split); split; simpl; try done;
        unfold pipeline in *; simpl in *; rewrite off_stream_snoc, app_nil_r; done.
Qed.

Lemma p_ok_reader ok p : p_ok p -> p_ok (reader_step ok p).
Proof.
  destruct p as [cl fw ch st se r sc fn call res out arr]. intros [Hp Ha Hcl Hc Hk]. unfold pipeline in *. simpl in *.
  destruct r as [| |b|]; [by split| | |by split].
  - destruct st as [|b st]; [destruct se; by split|]. destruct fn.
    + destruct (Hc eq_refl) as [-> _]. simpl in *. destruct ok; split; unfold pipeline; simpl in *; rewrite ?off_stream_snoc, <- ?app_assoc; try done;
        intros Hx; by destruct (Hcl Hx).
    + destruct (Nat.ltb_spec (length sc) 1); split; unfold pipeline; simpl in *; rewrite <- ?app_assoc; try done; intros Hx; by destruct (Hcl Hx).
  - destruct fn; [destruct (Hc eq_refl); done|]. destruct (Nat.ltb_spec (length sc) 1).
    + split; unfold pipeline; simpl in *; rewrite <- ?app_assoc; done.
    + destruct cl; [|by split]. destruct (Hcl eq_refl) as [-> ->]. split; unfold pipeline; simpl in *; try done.
      etransitivity; [|exact Hp]. apply prefix_app, prefix_app, prefix_nil.
Qed.

Lemma p_ok_quiet p e : quiet e -> p_ok p -> p_ok (p_step p e).
Proof.
  intros Hq Hp. destruct e as [b| |b| | |n|s ok|ok|]; try done; simpl.
  - destruct p as [cl fw ch st se r sc fn call res out arr]. destruct Hp as [Hp Ha Hcl Hc Hk]. unfold pipeline in *. simpl in *.
    destruct se; [by split|]. specialize (Ha eq_refl). split; unfold pipeline; simpl; try done.
    + by rewrite <- Ha, <- !app_assoc.
    + intros _. by rewrite <- Ha, <- !app_assoc.
    + intros Hx. by destruct (Hcl Hx).
  - destruct p, Hp as [Hp Ha Hcl Hc Hk]. split; simpl in *; try done. intros Hx. by destruct (Hcl Hx).
  - destruct p as [cl fw ch st se r sc fn call res out arr]. destruct ch as [[q [|]]|]; by destruct Hp; split.
  - by destruct p, Hp; split.
  - by apply p_ok_select.
  - by apply p_ok_reader.
  - destruct p as [cl fw ch st se r sc fn call res out arr]. simpl. destruct cl; [done|]. destruct Hp as [Hp Ha Hcl Hc Hk].
    unfold pipeline in *. split; unfold pipeline; simpl in *; try done. rewrite app_nil_r. etransitivity; [|exact Hp]. rewrite !app_assoc. by apply prefix_app_r.
Qed.

Lemma p_ok_run es p : Forall quiet es -> p_ok p -> p_ok (p_run p es).
Proof. intros Hes. revert p. induction Hes as [|e es He Hes IH]; intros p Hp; [done|]. by apply IH, p_ok_quiet. Qed.

(** Before a call nothing is read. *)
Lemma quiet_idle es p : Forall quiet es -> pr_call p = PNone -> pr_reader p = SNone -> pr_streamCh p = [] ->
  let p' := p_run p es in pr_call p' = PNone /\ pr_reader p' = SNone /\ pr_streamCh p' = [].
Proof.
  intros Hes. revert p. induction Hes as [|e es He Hes IH]; intros p H1 H2 H3; [done|]. unfold p_run. simpl. apply IH;
    destruct p as [cl fw ch st se r sc fn call res out arr]; simpl in *; subst; destruct e as [b| |b| | |n|s ok|ok|]; try done; simpl;
    try (by destruct se); try (by destruct cl); by destruct ch as [[q [|]]|].
Qed.

Lemma p_ok_consume p : p_ok p -> pr_reader p = SNone -> pr_streamCh p = [] -> p_ok (Consume_begin p).
Proof.
  destruct p as [cl fw ch st se r sc fn call res out arr]. intros [Hp Ha Hcl Hc Hk]. unfold pipeline in *. simpl in *. intros -> ->.
  destruct call; simpl; [|by split..]. destruct cl; by split.
Qed.

Lemma newReader_ok fw ch : p_ok (newReader fw ch).
Proof. by split. Qed.

(** C27: the packets that [Consume] passes on from the stream are the packets that
    arrived on it, from the first one, in order, none lost or repeated, although
    the goroutine of the stream and the loop of [Consume] both call the
    callback, whatever happens on the channel, and whatever the callback
    answers. *)
Theorem consume_in_order fw ch before after : Forall quiet before -> Forall quiet after ->
  let p := p_run (newReader fw ch) (before ++ CallConsume :: after) in
  (off_stream (pr_out p) `prefix_of` pr_arrived p) /\ (pr_call p = PConsume -> pr_streamCh p = []).
Proof.
  intros Hb Ha p. unfold p, p_run. rewrite fold_left_app. simpl. fold (p_run (newReader fw ch) before).
  destruct (quiet_idle before (newReader fw ch) Hb eq_refl eq_refl eq_refl) as (_ & Hr & Hs).
  assert (Hok : p_ok (p_run (Consume_begin (p_run (newReader fw ch) before)) after)).
  { apply p_ok_run; [done|]. apply p_ok_consume; [|done|done]. apply p_ok_run; [done|]. apply newReader_ok. }
  fold (p_run (Consume_begin (p_run (newReader fw ch) before)) after). split.
  - etransitivity; [|exact (pk_prefix _ Hok)]. unfold pipeline. by apply prefix_app_r.
  - intros Hcall. apply (pk_consume _ Hok). rewrite (pk_call _ Hok), Hcall. done.
Qed.

(** Closing the connection ends [Consume]: wherever it is, two steps later, of
    the goroutine and of the loop, it has returned. *)
Theorem close_ends_consume p oks : pr_call p = PConsume -> pr_consumeFn p = true -> pr_streamCh p = [] -> pr_closed p = false -> p_ok p ->
  pr_reader p <> SNone ->
  let p' := p_run p [CloseConn; ReaderStep (oks : bool); SelectStep true true] in pr_call p' = PNone /\ pr_result p' = Some PEOF.
Proof.
  intros Hcall Hfn Hsc Hcl Hok Hr. pose proof (pk_consume _ Hok Hfn) as [_ Hheld].
  destruct p as [cl fw ch st se r sc fn call res out arr]. simpl in *. subst. destruct r; done.
Qed.

Lemma consume_in_order_witness :
  let p := p_run (newReader true true) ([StreamPacket (bs "a")] ++ CallConsume ::
             [ChannelPacket (bs "d"); ReaderStep true; StreamPacket (bs "b"); SelectStep false true; ReaderStep true; CloseConn]) in
  (off_stream (pr_out p) `prefix_of` pr_arrived p) /\ (pr_call p = PConsume -> pr_streamCh p = []).
Proof.
  apply (consume_in_order true true [StreamPacket (bs "a")]
    [ChannelPacket (bs "d"); ReaderStep true; StreamPacket (bs "b"); SelectStep false true; ReaderStep true; CloseConn]); by repeat constructor.
Defined.

Lemma close_ends_consume_witness :
  let p := p_run (p_run (newReader true true) [StreamPacket (bs "a"); CallConsume; ReaderStep true]) [CloseConn; ReaderStep true; SelectStep true true] in
  pr_call p = PNone /\ pr_result p = Some PEOF.
Proof.
  apply (close_ends_consume (p_run (newReader true true) [StreamPacket (bs "a"); CallConsume; ReaderStep true]) true); try reflexivity; [|discriminate].
  change [StreamPacket (bs "a"); CallConsume; ReaderStep true] with ([StreamPacket (bs "a")] ++ CallConsume :: [ReaderStep true]).
  unfold p_run. rewrite fold_left_app. simpl. by split.
Defined.
