(* ===== verification/Checker.v ===== *)
(** * Checker: detecting a lost peer ([comm.go], [timeoutChecker])

    The checker holds the time the peer was last heard of and a flag that says
    whether it is considered lost.  Writers that find the flag set wait on a
    channel that is closed when the peer is heard of again.  The model is the
    event loop [handleEvent]; waiters see the flag and the channels.
    Times are in nanoseconds, [lastAliveTime] in milliseconds. *)

From Stdlib Require Import ZArith Lia.
From stdpp Require Import base list sets.
From S2P Require Import Prelude.
Open Scope Z_scope.

Inductive notice := TimeoutNotice | ReconnectedNotice.

(** [tc_chans]: whether each channel ever made is closed; [reconnectedCh] is
    an index into it.  [tc_notices] is the history of the callbacks run. *)
Record timeoutChecker := TC {
  tc_closed : bool;
  timeoutFlag : bool;
  lastAliveTime : Z;
  reconnectedCh : option nat;
  heartbeatTimeout : Z;
  tc_chans : list bool;
  tc_notices : list notice
}.

Definition ms : Z := 1000000.

Definition newTimeoutChecker (timeout now : Z) : timeoutChecker :=
  TC false false (now / ms) None timeout [] [].

Definition close_ch (ch : option nat) (chans : list bool) : list bool :=
  match ch with Some c => <[c := true]> chans | None => chans end.

Definition set_alive (msec : Z) (t : timeoutChecker) : timeoutChecker :=
  TC (tc_closed t) (timeoutFlag t) msec (reconnectedCh t) (heartbeatTimeout t) (tc_chans t) (tc_notices t).

Definition setReconnected (t : timeoutChecker) : timeoutChecker :=
  if timeoutFlag t then
    TC (tc_closed t) false (lastAliveTime t) None (heartbeatTimeout t)
      (close_ch (reconnectedCh t) (tc_chans t)) (tc_notices t ++ [ReconnectedNotice])
  else t.

Definition setTimeout (t : timeoutChecker) : timeoutChecker :=
  if timeoutFlag t then t
  else TC (tc_closed t) true (lastAliveTime t) (Some (length (tc_chans t))) (heartbeatTimeout t)
         (close_ch (reconnectedCh t) (tc_chans t) ++ [false]) (tc_notices t ++ [TimeoutNotice]).

Definition deadline (t : timeoutChecker) : Z := lastAliveTime t * ms + heartbeatTimeout t.

(** The events of the loop, with the clock when they are handled. *)
Inductive tc_event :=
| UpdateNow (now : Z)
| UpdateTime (msec now : Z)
| TimeoutEvent (now : Z)
| CloseChecker.

Definition handleEvent (t : timeoutChecker) (e : tc_event) : timeoutChecker :=
  if tc_closed t then t
  else
    match e with
    | UpdateNow now => setReconnected (set_alive (now / ms) t)
    | UpdateTime msec now =>
        if lastAliveTime t <? msec then
          let t := set_alive msec t in
          if now <? deadline t then setReconnected t else t
        else t
    | TimeoutEvent now => if deadline t <? now then setTimeout t else t
    | CloseChecker =>
        TC true (timeoutFlag t) (lastAliveTime t) (reconnectedCh t) (heartbeatTimeout t) (tc_chans t) (tc_notices t)
    end.

Definition tc_run (es : list tc_event) (t : timeoutChecker) : timeoutChecker := fold_left handleEvent es t.

Inductive wait_step := Returns | Blocks (ch : nat) | Polls.

(** What a round of [waitReconnect] does: it returns when the flag is clear,
    and waits on the channel otherwise. *)
Definition waitReconnect (t : timeoutChecker) : wait_step :=
  if timeoutFlag t then match reconnectedCh t with Some ch => Blocks ch | None => Polls end else Returns.

(** ** No waiter is forgotten *)

(** Timeouts and reconnections alternate, beginning with a timeout. *)
Fixpoint alternate (n : nat) : list notice :=
  match n with
  | O => []
  | S n' => alternate n' ++ [if Nat.odd n then TimeoutNotice else ReconnectedNotice]
  end.

Record tc_inv (t : timeoutChecker) : Prop := TcInv {
  inv_chan : if timeoutFlag t
             then exists n, tc_chans t = replicate n true ++ [false] /\ reconnectedCh t = Some n
             else reconnectedCh t = None /\ exists n, tc_chans t = replicate n true;
  inv_notices : exists n, tc_notices t = alternate n /\ Nat.odd n = timeoutFlag t
}.

Lemma alternate_snoc n (x : notice) :
  x = (if Nat.odd n then ReconnectedNotice else TimeoutNotice) -> alternate n ++ [x] = alternate (S n).
Proof. intros ->. cbn [alternate]. rewrite Nat.odd_succ, <- Nat.negb_odd. by destruct (Nat.odd n). Qed.

Lemma tc_inv_alive msec t : tc_inv t -> tc_inv (set_alive msec t).
Proof. by intros []. Qed.

Lemma tc_inv_reconnected t : tc_inv t -> tc_inv (setReconnected t).
Proof.
  intros [Hc (n & Hn & Ho)]. unfold setReconnected. destruct (timeoutFlag t) eqn:Hf; [|by split; rewrite ?Hf; eauto].
  destruct Hc as (k & Hk & ->). split; simpl.
  - split; [done|]. exists (S k). rewrite Hk, insert_app_r_alt by (rewrite length_replicate; lia).
    rewrite length_replicate, Nat.sub_diag. symmetry. apply replicate_S_end.
  - exists (S n). rewrite Hn, alternate_snoc by by rewrite Ho. split; [done|].
    by rewrite Nat.odd_succ, <- Nat.negb_odd, Ho.
Qed.

Lemma tc_inv_timeout t : tc_inv t -> tc_inv (setTimeout t).
Proof.
  intros [Hc (n & Hn & Ho)]. unfold setTimeout. destruct (timeoutFlag t) eqn:Hf; [by split; rewrite ?Hf; eauto|].
  destruct Hc as [-> (k & Hk)]. split; simpl.
  - exists k. by rewrite Hk, length_replicate.
  - exists (S n). rewrite Hn, alternate_snoc by by rewrite Ho. split; [done|].
    by rewrite Nat.odd_succ, <- Nat.negb_odd, Ho.
Qed.

Lemma tc_inv_step t e : tc_inv t -> tc_inv (handleEvent t e).
Proof.
  intros H. unfold handleEvent. destruct (tc_closed t); [done|].
  destruct e; repeat case_match; auto using tc_inv_alive, tc_inv_reconnected, tc_inv_timeout. by destruct H.
Qed.

Lemma tc_inv_run es t : tc_inv t -> tc_inv (tc_run es t).
Proof. revert t. induction es as [|e es IH]; intros t H; [done|]. apply IH. by apply tc_inv_step. Qed.

Lemma tc_inv_new timeout now : tc_inv (newTimeoutChecker timeout now).
Proof. split; simpl; [split; [done|]; by exists O|by exists O]. Qed.

(** A waiter is never forgotten and never misled.  At any moment of any
    run, if the peer is not lost, every channel a waiter may hold is closed and
    a new wait returns at once; if it is lost, a new wait blocks on the one
    open channel, which the next reconnection closes.  Timeout and
    reconnection callbacks alternate, the timeout first. *)
Theorem waiters_always_wake timeout now es :
  let t := tc_run es (newTimeoutChecker timeout now) in
  (if timeoutFlag t
   then exists ch, waitReconnect t = Blocks ch /\
          (forall c, tc_chans t !! c = Some false <-> c = ch) /\
          tc_chans (setReconnected t) !! ch = Some true
   else waitReconnect t = Returns /\ forall c b, tc_chans t !! c = Some b -> b = true) /\
  exists n, tc_notices t = alternate n.
Proof.
  intros t. destruct (tc_inv_run es _ (tc_inv_new timeout now)) as [Hc (n & Hn & _)]. fold t in Hc, Hn.
  split; [|by exists n]. unfold waitReconnect, setReconnected. destruct (timeoutFlag t).
  - destruct Hc as (k & Hk & ->). exists k. rewrite Hk. split_and!; [done| |].
    + intros c. rewrite lookup_app_Some, lookup_replicate, length_replicate, list_lookup_singleton_Some. split; [|lia || (intros ->; right; lia)].
      intros [[? ?]|[? [? _]]]; [done|lia].
    + simpl. apply list_lookup_insert_eq. rewrite length_app, length_replicate. simpl. lia.
  - destruct Hc as [_ (k & ->)]. split; [done|]. intros c b Hb. by apply lookup_replicate in Hb as [? _].
Qed.

(** ** The flag means silence *)

Definition event_time (e : tc_event) : option Z :=
  match e with UpdateNow now | UpdateTime _ now | TimeoutEvent now => Some now | CloseChecker => None end.

Lemma flag_means_silence_step t e (past : list tc_event) :
  (timeoutFlag t = true -> exists now, Some now ∈ event_time <$> past /\ deadline t <= now) ->
  timeoutFlag (handleEvent t e) = true ->
  exists now, Some now ∈ event_time <$> past ++ [e] /\ deadline (handleEvent t e) <= now.
Proof.
  intros H. rewrite fmap_app. setoid_rewrite elem_of_app. unfold handleEvent. destruct (tc_closed t).
  { intros (now & ? & ?)%H. eauto. }
  destruct e as [now|msec now|now|].
  - unfold setReconnected. simpl. destruct (timeoutFlag t) eqn:Hf; simpl; congruence.
  - destruct (_ <? msec); [|intros (n & ? & ?)%H; eauto].
    destruct (Z.ltb_spec now (deadline (set_alive msec t))) as [|Hd].
    + unfold setReconnected. simpl. destruct (timeoutFlag t) eqn:Hf; simpl; congruence.
    + intros _. exists now. split; [|done]. right. simpl. set_solver.
  - destruct (Z.ltb_spec (deadline t) now) as [Hd|]; [|intros (n & ? & ?)%H; eauto].
    intros _. exists now. split; [right; simpl; set_solver|]. unfold setTimeout. destruct (timeoutFlag t); unfold deadline in *; simpl; lia.
  - simpl. intros (n & ? & ?)%H. eauto.
Qed.

Lemma tc_run_heartbeat es t : heartbeatTimeout (tc_run es t) = heartbeatTimeout t.
Proof.
  revert t. induction es as [|e es IH]; intros t; [done|]. simpl. rewrite IH.
  unfold handleEvent, setReconnected, setTimeout. repeat case_match; done.
Qed.

(** The peer is considered lost only if at some moment the checker looked
    at the clock, and then at least [heartbeatTimeout] had passed since the
    last sign of life on record. *)
Theorem timeout_means_silence timeout start es :
  let t := tc_run es (newTimeoutChecker timeout start) in
  timeoutFlag t = true ->
  exists now, Some now ∈ event_time <$> es /\ lastAliveTime t * ms + timeout <= now.
Proof.
  intros t Hf. pose proof (tc_run_heartbeat es (newTimeoutChecker timeout start)) as Ht.
  simpl in Ht. rewrite <- Ht. fold t.
  change (lastAliveTime t * ms + heartbeatTimeout t) with (deadline t). revert Hf. unfold t. clear Ht t.
  induction es as [|e es IH] using rev_ind; [done|]. unfold tc_run in *. rewrite fold_left_app.
  cbn [fold_left]. apply flag_means_silence_step. exact IH.
Qed.

Lemma timeout_means_silence_witness :
  exists now, Some now ∈ event_time <$> [UpdateNow (5000 * ms); TimeoutEvent (8001 * ms)] /\ 5000 * ms + 3000 * ms <= now.
Proof.
  apply (timeout_means_silence (3000 * ms) 0 [UpdateNow (5000 * ms); TimeoutEvent (8001 * ms)]). reflexivity.
Defined.

(** ** Silence is noticed *)

(** 10 s, in nanoseconds. *)
Definition kCheckSleep : Z := 10000000000.

(** One pass of [checkTimeout], with the clock: a sleep, or a timeout event and a
    sleep.  [late]: how much longer than asked the sleep takes. *)
Definition check_pass (s : Z * timeoutChecker) (late : Z) : Z * timeoutChecker :=
  let '(now, t) := s in
  if tc_closed t then s
  else
    let sleepTime := deadline t - now in
    if 0 <? sleepTime then (now + Z.min sleepTime kCheckSleep + late, t)
    else (now + Z.min (heartbeatTimeout t) kCheckSleep + late, handleEvent t (TimeoutEvent now)).

Definition check_run (s : Z * timeoutChecker) (lates : list Z) : Z * timeoutChecker := fold_left check_pass lates s.

(** The passes needed when the deadline is [d] away. *)
Definition passes (d : Z) : nat :=
  if 0 <? d then S (S (S (Z.to_nat ((d - 1) / kCheckSleep)))) else if d =? 0 then 2%nat else 1%nat.

Lemma passes_less d late : 0 < d -> 0 <= late -> (passes (d - Z.min d kCheckSleep - late) < passes d)%nat.
Proof.
  intros Hd Hl. unfold passes at 2. rewrite (proj2 (Z.ltb_lt 0 d)) by done.
  unfold passes, kCheckSleep. destruct (Z.ltb_spec 0 (d - Z.min d 10000000000 - late)) as [H1|H1].
  - assert (Z.min d 10000000000 = 10000000000) as E by lia. rewrite E in *.
    assert ((d - 10000000000 - late - 1) / 10000000000 < (d - 1) / 10000000000) by (Z.div_mod_to_equations; lia).
    assert (0 <= (d - 10000000000 - late - 1) / 10000000000) by (apply Z.div_pos; lia). lia.
  - destruct (_ =? 0); lia.
Qed.

Lemma check_pass_sleeps now t late : tc_closed t = false -> 0 < deadline t - now ->
  check_pass (now, t) late = (now + Z.min (deadline t - now) kCheckSleep + late, t).
Proof. intros Hc Hs. unfold check_pass. by rewrite Hc, (proj2 (Z.ltb_lt _ _)). Qed.

Lemma check_pass_event now t late : tc_closed t = false -> deadline t <= now ->
  check_pass (now, t) late = (now + Z.min (heartbeatTimeout t) kCheckSleep + late, if deadline t <? now then setTimeout t else t).
Proof. intros Hc Hs. unfold check_pass, handleEvent. by rewrite Hc, (proj2 (Z.ltb_ge 0 _)) by lia. Qed.

Lemma setTimeout_flag t : timeoutFlag (setTimeout t) = true.
Proof. unfold setTimeout. by destruct (timeoutFlag t) eqn:Hf. Qed.

(** A peer that has gone silent is noticed.  When no sign of life arrives any
    more, the checker reports the peer as lost after a number of passes that
    depends only on how far the deadline is away, however late its sleeps end;
    and at the latest [heartbeatTimeout], or ten seconds if that is shorter,
    after the deadline, plus those delays. *)
Theorem silence_is_noticed t now lates :
  tc_closed t = false -> timeoutFlag t = false -> 0 < heartbeatTimeout t -> Forall (Z.le 0) lates -> (passes (deadline t - now) <= length lates)%nat ->
  exists pre late post, lates = pre ++ late :: post /\
    timeoutFlag (check_run (now, t) pre).2 = false /\ timeoutFlag (check_run (now, t) (pre ++ [late])).2 = true /\
    (check_run (now, t) pre).1 <= Z.max now (deadline t) + Z.min (heartbeatTimeout t) kCheckSleep + foldr Z.add 0 pre.
Proof.
  intros Hc Hf Ht Hl. revert now. induction Hl as [|late lates Hlate Hl IH]; intros now Hn.
  { unfold passes in Hn. simpl in Hn. destruct (0 <? _); [lia|]. destruct (_ =? 0); lia. }
  destruct (Z.ltb_spec 0 (deadline t - now)) as [Hs|Hs].
  - destruct (IH (now + Z.min (deadline t - now) kCheckSleep + late)) as (pre & l & post & -> & H1 & H2 & H3).
    { pose proof (passes_less (deadline t - now) late Hs Hlate) as Hp. simpl in Hn.
      replace (deadline t - (now + Z.min (deadline t - now) kCheckSleep + late)) with (deadline t - now - Z.min (deadline t - now) kCheckSleep - late) by lia. lia. }
    exists (late :: pre), l, post. unfold check_run in *. cbn [app fold_left foldr]. rewrite !check_pass_sleeps by done.
    split_and!; [done..|]. lia.
  - destruct (decide (now = deadline t)) as [->|Hne].
    + (* the deadline itself is not yet a timeout *)
      destruct lates as [|l lates]; [unfold passes in Hn; rewrite Z.sub_diag in Hn; simpl in Hn; lia|].
      exists [late], l, lates. unfold check_run. cbn [app fold_left foldr]. rewrite !check_pass_event by (done || lia).
      rewrite Z.ltb_irrefl. inversion_clear Hl. assert (0 < Z.min (heartbeatTimeout t) kCheckSleep) by (unfold kCheckSleep; lia).
      rewrite check_pass_event by (done || lia). rewrite (proj2 (Z.ltb_lt _ _)) by lia. cbn [fst snd]. rewrite setTimeout_flag. split_and!; [done..|]. lia.
    + exists [], late, lates. unfold check_run. cbn [app fold_left foldr]. rewrite check_pass_event by (done || lia).
      rewrite (proj2 (Z.ltb_lt _ _)) by lia. cbn [fst snd]. rewrite setTimeout_flag. split_and!; [done..|]. unfold kCheckSleep. lia.
Qed.

(** The timeout of 25 s after a sign of life at second 3, looked at from second 4. *)
Lemma silence_is_noticed_witness :
  let t := newTimeoutChecker (25000 * ms) (3000 * ms) in
  exists pre late post, [0; 0; 5; 0; 0; 0] = pre ++ late :: post /\
    timeoutFlag (check_run (4000 * ms, t) pre).2 = false /\ timeoutFlag (check_run (4000 * ms, t) (pre ++ [late])).2 = true /\
    (check_run (4000 * ms, t) pre).1 <= 28000 * ms + 10000 * ms + foldr Z.add 0 pre.
Proof.
  apply (silence_is_noticed (newTimeoutChecker (25000 * ms) (3000 * ms)) (4000 * ms) [0; 0; 5; 0; 0; 0]);
    [reflexivity|reflexivity|reflexivity|by repeat constructor|vm_compute; lia].
Defined.
