(* ===== verification/Attach.v ===== *)
(** * Attach: what a session waits on while it changes hands ([attach.go])

    A session outlives the connection of its client, so it holds a checker and
    streams that can be replaced.  Modelled here: [replaceableTimeoutChecker],
    with the goroutines that wait in [waitUntilReconnected] while the checker is
    replaced, and [interruptibleStream], the stream whose [Write] ends when it
    is closed.  Replacing streams is in [Server]. *)

From Stdlib Require Import ZArith Lia Ascii String.
From stdpp Require Import base list strings gmap.
From S2P Require Import Prelude.
Open Scope Z_scope.

(** ** The checker of a session *)

(** A [timeoutChecker] as its waiters see it: the peer is there, it is lost, or the
    checker was closed while it was lost. *)
Inductive health := Alive | Lost | ClosedLost.

#[export] Instance health_eq_dec : EqDecision health.
Proof. solve_decision. Defined.

(** Where a call of [waitUntilReconnected] is: at the top of the loop; with what it
    loaded, before it looks; waiting for [cancel] without a checker; waiting for
    the checker or for [cancel]; with the result of the checker; returned.
    A [cancel] channel is named by its number. *)
Inductive wait_phase :=
| WTop
| WLoaded (checker : option Z) (cancel : nat)
| WNoChecker (cancel : nat)
| WWaiting (checker : Z) (cancel : nat)
| WResult (checker : Z) (err : bool)
| WReturned (err : bool).

(** [rc_cancel] is the number of the current channel; those before it are closed. *)
Record rchecker := RC {
  rc_checker : option Z;
  rc_cancel : nat;
  rc_health : gmap Z health;
  rc_waiters : list wait_phase
}.

Definition health_of (k : Z) (r : rchecker) : health := default Alive (rc_health r !! k).

(** [swap]. *)
Definition swap (newChecker : option Z) (r : rchecker) : rchecker :=
  RC newChecker (S (rc_cancel r)) (rc_health r) (rc_waiters r).

(** [isTimeout]. *)
Definition isTimeout (r : rchecker) : bool :=
  match rc_checker r with None => true | Some k => bool_decide (health_of k r <> Alive) end.

(** One step of a waiter.  If both the checker and [cancel] are ready, the [select]
    may take either: [preferCancel]. *)
Definition wait_step (preferCancel : bool) (r : rchecker) (w : wait_phase) : wait_phase :=
  match w with
  | WTop => WLoaded (rc_checker r) (rc_cancel r)
  | WLoaded None c => WNoChecker c
  | WLoaded (Some k) c => if bool_decide (health_of k r = Alive) then WReturned false else WWaiting k c
  | WNoChecker c => if (c <? rc_cancel r)%nat then WTop else w
  | WWaiting k c =>
      let cancelled := (c <? rc_cancel r)%nat in
      match health_of k r with
      | Lost => if cancelled then WTop else w
      | Alive => if cancelled && preferCancel then WTop else WResult k false
      | ClosedLost => if cancelled && preferCancel then WTop else WResult k true
      end
  | WResult k err => if bool_decide (rc_checker r = Some k) then WReturned err else WTop
  | WReturned err => w
  end.

Inductive rc_event :=
| Swap (newChecker : option Z)
| Health (k : Z) (h : health)
| Waits
| WaitStep (i : nat) (preferCancel : bool).

Definition rc_step (r : rchecker) (e : rc_event) : rchecker :=
  match e with
  | Swap c => swap c r
  | Health k h => RC (rc_checker r) (rc_cancel r) (<[k := h]> (rc_health r)) (rc_waiters r)
  | Waits => RC (rc_checker r) (rc_cancel r) (rc_health r) (rc_waiters r ++ [WTop])
  | WaitStep i p => RC (rc_checker r) (rc_cancel r) (rc_health r) (alter (wait_step p r) i (rc_waiters r))
  end.

(** [newReplaceableTimeoutChecker]. *)
Definition newReplaceable (k : Z) : rchecker := RC (Some k) 0 ∅ [].

Definition rc_run (r : rchecker) (es : list rc_event) : rchecker := fold_left rc_step es r.

(** A waiter that holds the current channel waits for the current checker. *)
Definition waiter_ok (cur : option Z) (cancel : nat) (w : wait_phase) : Prop :=
  match w with
  | WLoaded k c => (c <= cancel)%nat /\ (c = cancel -> k = cur)
  | WNoChecker c => (c <= cancel)%nat /\ (c = cancel -> cur = None)
  | WWaiting k c => (c <= cancel)%nat /\ (c = cancel -> cur = Some k)
  | _ => True
  end.

Definition rc_ok (r : rchecker) : Prop := Forall (waiter_ok (rc_checker r) (rc_cancel r)) (rc_waiters r).

Lemma waiter_ok_step p r w : waiter_ok (rc_checker r) (rc_cancel r) w -> waiter_ok (rc_checker r) (rc_cancel r) (wait_step p r w).
Proof.
  intros Hw. destruct w as [|[k|] c|c|k c|k e|e]; simpl in *; repeat case_match; simpl; try done.
  all: destruct Hw as [Hle Hc]; split; [done|]; intros ->; symmetry; by apply Hc.
Qed.

Lemma waiter_ok_swap cur cur' cancel w : waiter_ok cur cancel w -> waiter_ok cur' (S cancel) w.
Proof. destruct w; simpl; try done; intros [Hle _]; (split; [lia|intros ->; lia]). Qed.

Lemma rc_ok_step r e : rc_ok r -> rc_ok (rc_step r e).
Proof.
  unfold rc_ok. intros Hr. destruct e as [c|k h| |i p]; simpl.
  - eapply Forall_impl; [exact Hr|]. intros w. apply waiter_ok_swap.
  - done.
  - apply Forall_app. split; [done|by constructor].
  - apply Forall_alter; [done|]. intros w _ Hw. by apply waiter_ok_step.
Qed.

Lemma rc_ok_run es r : rc_ok r -> rc_ok (rc_run r es).
Proof. revert r. induction es as [|e es IH]; intros r Hr; [done|]. by apply IH, rc_ok_step. Qed.

(** The steps of one waiter while nothing else happens. *)
Definition wait_steps (r : rchecker) (ps : list bool) (w : wait_phase) : wait_phase := fold_left (fun w p => wait_step p r w) ps w.

Lemma wait_steps_returned r ps e : wait_steps r ps (WReturned e) = WReturned e.
Proof. induction ps; [done|]. done. Qed.

(** From the top of the loop two steps are enough. *)
Lemma wait_from_top r k ps : rc_checker r = Some k -> health_of k r = Alive -> (2 <= length ps)%nat -> wait_steps r ps WTop = WReturned false.
Proof.
  intros Hk Ha Hl. destruct ps as [|p [|q ps]]; simpl in Hl; [lia|lia|]. unfold wait_steps. simpl. rewrite Hk, Ha. simpl. apply wait_steps_returned.
Qed.

(** A result of the current checker is that it is there. *)
Definition result_ok (r : rchecker) (w : wait_phase) : Prop :=
  match w with WResult k err => rc_checker r = Some k -> err = false | WReturned err => err = false | _ => True end.

(** A goroutine that waits for its client never misses the client's return.
    Whatever was swapped before, and wherever in its loop the goroutine is, once
    the session has a checker whose client is there, the goroutine returns
    without an error after at most six steps of its own: also one that waits on
    a checker that is gone, or that had none.  While the session has no
    checker it counts as timed out. *)
Theorem attached_waiter_returns k0 es i w k ps :
  let r := rc_run (newReplaceable k0) es in
  rc_waiters r !! i = Some w -> rc_checker r = Some k -> health_of k r = Alive -> result_ok r w -> (6 <= length ps)%nat ->
  wait_steps r ps w = WReturned false /\ isTimeout r = false /\ isTimeout (swap None r) = true.
Proof.
  intros r Hw Hk Ha Hres Hps. assert (Hr : rc_ok r) by (apply rc_ok_run; constructor).
  assert (Hwk : waiter_ok (rc_checker r) (rc_cancel r) w) by (by eapply (Forall_lookup_1 _ _ _ _ Hr)).
  assert (Htop : forall ps', (2 <= length ps')%nat -> wait_steps r ps' WTop = WReturned false) by (intros; by eapply wait_from_top).
  assert (Hresult : forall k' ps', (3 <= length ps')%nat -> wait_steps r ps' (WResult k' false) = WReturned false).
  { intros k' [|p ps'] Hl; simpl in Hl; [lia|]. unfold wait_steps. simpl. case_bool_decide; [apply wait_steps_returned|]. apply Htop. lia. }
  assert (Herr : forall k' ps', rc_checker r <> Some k' -> (3 <= length ps')%nat -> wait_steps r ps' (WResult k' true) = WReturned false).
  { intros k' [|p ps'] Hne Hl; simpl in Hl; [lia|]. unfold wait_steps. simpl. rewrite bool_decide_eq_false_2 by done. apply Htop. lia. }
  assert (Hwaiting : forall k' c ps', waiter_ok (rc_checker r) (rc_cancel r) (WWaiting k' c) -> (4 <= length ps')%nat -> wait_steps r ps' (WWaiting k' c) = WReturned false).
  { intros k' c [|p ps'] [Hle Hc] Hl; simpl in Hl; [lia|]. unfold wait_steps. simpl. destruct (Nat.ltb_spec c (rc_cancel r)) as [Hlt|Hge].
    - destruct (decide (rc_checker r = Some k')) as [Heq|Hne].
      + assert (k' = k) as -> by congruence. rewrite Ha. destruct p; [apply Htop|apply Hresult]; lia.
      + destruct (health_of k' r), p; simpl; first [apply Htop; lia | apply Hresult; lia | apply Herr; [done|lia]].
    - rewrite (Hc ltac:(lia)) in Hk. injection Hk as ->. rewrite Ha. apply Hresult. lia. }
  split_and!; [| |done]; [|unfold isTimeout; rewrite Hk; by rewrite bool_decide_eq_false_2 by auto].
  destruct w as [|k' c|c|k' c|k' e|e]; [apply Htop; lia| | |apply Hwaiting; [done|lia]| |].
  - destruct ps as [|p ps]; simpl in Hps; [lia|]. destruct k' as [k'|].
    + unfold wait_steps. simpl. case_bool_decide; [apply wait_steps_returned|]. apply Hwaiting; [|lia].
      destruct Hwk as [Hle Hc]. split; [done|]. intros ->. symmetry. by apply Hc.
    + destruct ps as [|q ps]; simpl in Hps; [lia|]. unfold wait_steps. simpl. destruct Hwk as [Hle Hc].
      destruct (Nat.ltb_spec c (rc_cancel r)); [apply Htop; lia|]. specialize (Hc ltac:(lia)). congruence.
  - destruct ps as [|p ps]; simpl in Hps; [lia|]. unfold wait_steps. simpl. destruct Hwk as [Hle Hc].
    destruct (Nat.ltb_spec c (rc_cancel r)); [apply Htop; lia|]. rewrite (Hc ltac:(lia)) in Hk. done.
  - simpl in Hres. destruct e; [|apply Hresult; lia]. apply Herr; [|lia]. intros Heq. by specialize (Hres Heq).
  - simpl in Hres. subst. apply wait_steps_returned.
Qed.

(** The goroutine waits for a lost client, the session is detached and attached to
    another client: before it notices, two swaps have happened. *)
Definition handover : list rc_event :=
  [Health 1 Lost; Waits; WaitStep 0 false; WaitStep 0 false; Swap None; Health 2 Alive; Swap (Some 2)].

Lemma attached_waiter_returns_witness :
  let r := rc_run (newReplaceable 1) handover in
  wait_steps r [false; false; true; true; false; false] (WWaiting 1 0) = WReturned false /\ isTimeout r = false /\ isTimeout (swap None r) = true.
Proof.
  apply (attached_waiter_returns 1 handover 0 (WWaiting 1 0) 2 [false; false; true; true; false; false]); [reflexivity|reflexivity|reflexivity|done|simpl; lia].
Defined.

(** ** A stream that can be closed under its writer *)

(** Where [Write] is: not called, before it hands over the buffer, waiting for the
    result of it, returned.  The result is the count, or an error. *)
Inductive iwrite := INone | IHand (buf : bytes) | IAck (buf : bytes) | IDone (buf : bytes) (r : option nat).

(** Where the goroutine of [newInterruptibleStream] is: in its [select], in the
    stream's [Write], about to acknowledge, ended. *)
Inductive iloop := LSelect | LWriting (buf : bytes) | LAck (r : option nat) | LEnded.

(** [is_ack] is [ackCh], which holds one result.  [is_results], the results of the
    stream's [Write] with the buffer of each, is history. *)
Record istream := IStream {
  is_closed : bool;
  is_write : iwrite;
  is_loop : iloop;
  is_ack : option (option nat);
  is_results : list (bytes * option nat)
}.

(** One writer at a time calls [Write]. *)
Inductive is_event :=
| CallWrite (buf : bytes)
| HandOver
| StreamWrote (r : option nat)
| LoopAcks
| WriterAcked
| WriterSeesClose
| LoopSeesClose
| CloseStream.

Definition is_step (s : istream) (e : is_event) : istream :=
  match s with IStream closed w l ack rs =>
    match e, w, l with
    | CallWrite buf, (INone | IDone _ _), _ => IStream closed (if closed then IDone buf None else IHand buf) l ack rs
    | HandOver, IHand buf, LSelect => IStream closed (IAck buf) (LWriting buf) ack rs
    | StreamWrote r, _, LWriting buf => IStream closed w (LAck r) ack (rs ++ [(buf, r)])
    | LoopAcks, _, LAck r => match ack with None => IStream closed w LSelect (Some r) rs | Some _ => s end
    | WriterAcked, IAck buf, _ => match ack with Some r => IStream closed (IDone buf r) l None rs | None => s end
    | WriterSeesClose, (IHand buf | IAck buf), _ => if closed then IStream closed (IDone buf None) l ack rs else s
    | LoopSeesClose, _, LSelect => if closed then IStream closed w LEnded ack rs else s
    | CloseStream, _, _ => IStream true w l ack rs
    | _, _, _ => s
    end
  end.

Definition newInterruptibleStream : istream := IStream false INone LSelect None [].

Definition is_run (es : list is_event) : istream := fold_left is_step es newInterruptibleStream.

(** Before it is closed, a result on its way is that of the buffer the writer waits
    for; after, the same holds or the writer will not take another. *)
Definition own_result (s : istream) : Prop :=
  match is_write s with
  | IAck buf =>
      (is_ack s = None /\ (is_loop s = LWriting buf \/ exists r, is_loop s = LAck r /\ (buf, r) ∈ is_results s)) \/
      (exists r, is_ack s = Some r /\ (is_loop s = LSelect \/ is_loop s = LEnded) /\ (buf, r) ∈ is_results s)
  | IHand _ => is_ack s = None /\ (is_loop s = LSelect \/ is_loop s = LEnded)
  | INone => is_ack s = None /\ (is_loop s = LSelect \/ is_loop s = LEnded)
  | IDone buf r =>
      ((is_ack s = None /\ (is_loop s = LSelect \/ is_loop s = LEnded)) \/ is_closed s = true) /\
      forall n, r = Some n -> (buf, Some n) ∈ is_results s
  end.

Lemma own_result_step s e : own_result s -> own_result (is_step s e).
Proof.
  destruct s as [closed w l ack rs]. intros Hs. unfold own_result in *. destruct e, w, l; simpl in *; try done.
  all: repeat case_match; simpl in *; try done; subst.
  all: try (by destruct closed).
  all: try solve [naive_solver].
  all: try solve [naive_solver set_solver].
Qed.

Lemma own_result_run es : own_result (is_run es).
Proof.
  unfold is_run. assert (H0 : own_result newInterruptibleStream) by (split; [done|by left]). revert H0. generalize newInterruptibleStream.
  induction es as [|e es IH]; intros s Hs; [done|]. by apply IH, own_result_step.
Qed.

(** A count that [Write] returns is the stream's own, for the same buffer; and once
    the stream is closed, a call that is under way can return at once. *)
Lemma interruptible_write es buf n : is_write (is_run es) = IDone buf (Some n) -> (buf, Some n) ∈ is_results (is_run es).
Proof. intros Hw. pose proof (own_result_run es) as Ho. unfold own_result in Ho. rewrite Hw in Ho. by apply Ho. Qed.

Lemma close_frees_writer es buf : is_closed (is_run es) = true -> is_write (is_run es) = IHand buf \/ is_write (is_run es) = IAck buf ->
  is_write (is_step (is_run es) WriterSeesClose) = IDone buf None.
Proof. destruct (is_run es) as [c w l a rs]. simpl. intros -> [-> | ->]; by destruct l. Qed.
