(* ===== verification/Path.v ===== *)
(** * Path: the client's way to the server ([proxy_client.go])

    The client proxy holds at most one connection to the server, the backend.
    When the connection is lost it is renewed: dial, authenticate, install.
    This file models the renewal over TCP and UDP, the use of the backend by
    the transport, and [tryToReconnect] of [client.go], which decides when to
    renew.  Authentication packets are those of [ProxyAuth]. *)

From Stdlib Require Import ZArith Lia Ascii String.
From stdpp Require Import base list strings gmap.
From S2P Require Import Prelude Rekey ProxyAuth Checker.
Open Scope Z_scope.

(** ** State *)

(** [cumulativeTraffic]: datagrams and bytes, in 64 bits. *)
Record cumulativeTraffic := Traffic {
  sentPackets : Z; sentBytes : Z; recvPackets : Z; recvBytes : Z
}.

(** Connections are numbered as they are dialled; [pt_conns] tells which are
    open. *)
Record path := Path {
  pt_proxy : clientProxy;
  pt_closed : bool;
  pt_backend : option nat;
  pt_conns : list bool;
  pt_checker : timeoutChecker;
  pt_traffic : cumulativeTraffic
}.

Definition set_backend (b : option nat) (p : path) : path :=
  Path (pt_proxy p) (pt_closed p) b (pt_conns p) (pt_checker p) (pt_traffic p).

Definition set_proxy (cp : clientProxy) (p : path) : path :=
  Path cp (pt_closed p) (pt_backend p) (pt_conns p) (pt_checker p) (pt_traffic p).

Definition set_conns (cs : list bool) (p : path) : path :=
  Path (pt_proxy p) (pt_closed p) (pt_backend p) cs (pt_checker p) (pt_traffic p).

Definition set_checker (t : timeoutChecker) (p : path) : path :=
  Path (pt_proxy p) (pt_closed p) (pt_backend p) (pt_conns p) t (pt_traffic p).

Definition set_traffic (c : cumulativeTraffic) (p : path) : path :=
  Path (pt_proxy p) (pt_closed p) (pt_backend p) (pt_conns p) (pt_checker p) c.

Definition close_conn (c : nat) (p : path) : path := set_conns (<[c := false]> (pt_conns p)) p.

Definition dial_conn (p : path) : path * nat := (set_conns (pt_conns p ++ [true]) p, length (pt_conns p)).

(** [clearBackendConn]; [None] is nil. *)
Definition clearBackendConn (oldConn : option nat) (p : path) : path :=
  match oldConn with
  | Some c => if bool_decide (pt_backend p = Some c) then close_conn c (set_backend None p) else p
  | None => match pt_backend p with
            | Some c => close_conn c (set_backend None p)
            | None => p
            end
  end.

(** [clientProxy.Close]; the key rotation it also stops is that of [Rekey]. *)
Definition path_Close (p : path) : path :=
  if pt_closed p then p
  else
    let p := clearBackendConn None (Path (pt_proxy p) true (pt_backend p) (pt_conns p) (pt_checker p) (pt_traffic p)) in
    set_checker (handleEvent (pt_checker p) CloseChecker) p.

(** What other goroutines do to the path during a renewal: the steps of [Close],
    a [ReadFrom] or [WriteTo] that had loaded the connection [c] fails on it,
    and an event of the checker. *)
Inductive other := OSetClosed | OClear | OFails (c : nat) | OChecker (e : tc_event).

Definition other_step (p : path) (o : other) : path :=
  match o with
  | OSetClosed => Path (pt_proxy p) true (pt_backend p) (pt_conns p) (pt_checker p) (pt_traffic p)
  | OClear => clearBackendConn None p
  | OFails c => clearBackendConn (Some c) p
  | OChecker e => set_checker (handleEvent (pt_checker p) e) p
  end.

Definition others (os : list other) (p : path) : path := fold_left other_step os p.

(** ** Renewal *)

Inductive renewal := Pending | Failed | Got (c : nat).

(** A dial through [doWithTimeout] may also succeed after the caller has given
    up: the connection is then open and nobody holds it. *)
Inductive dialled := DialOk | DialError | DialLate.

Definition dialStream (d : dialled) (p : path) : path * option nat :=
  let '(p1, c) := dial_conn p in
  match d with
  | DialOk => (p1, Some c)
  | DialError => (p, None)
  | DialLate => (p1, None)
  end.

Section Renew.
Context `{Crypto}.

(** [sent] and [received]: whether the authentication packet could be sent, and
    the packet read in time. *)
Definition renewTcpPath (k : key) (d : dialled) (sent : bool) (received : option bytes) (p : path) : path * renewal :=
  match dialStream d p with
  | (p1, None) => (p1, Failed)
  | (p1, Some c) =>
      if negb sent then (close_conn c p1, Failed)
      else match received with
           | None => (close_conn c p1, Failed)
           | Some buf =>
               let '(cp, ok) := isAuthSuccessful k (pt_proxy p1) buf in
               let p2 := set_proxy cp p1 in
               if ok then (p2, Got c) else (close_conn c p2, Failed)
           end
  end.

(** What the reading goroutine of [renewUdpPath] leaves in the channel [done]:
    a nil error, an error, or nothing at all before it closes the channel. *)
Inductive auth_done := DoneAuth | DoneError | DoneClosed.

(** One pass of its loop: whether the context has expired when it is checked,
    and what [Read] returns otherwise.  [None]: it still reads. *)
Fixpoint auth_reader (k : key) (cp : clientProxy) (passes : list (bool * option bytes)) : clientProxy * option auth_done :=
  match passes with
  | [] => (cp, None)
  | (expired, r) :: passes' =>
      if expired then (cp, Some DoneClosed)
      else match r with
           | None => (cp, Some DoneError)
           | Some buf => let '(cp', ok) := isAuthSuccessful k cp buf in
                         if ok then (cp', Some DoneAuth) else auth_reader k cp' passes'
           end
  end.

(** The branch that each [select] of [renewUdpPath] takes. *)
Inductive select_case := SelDone | SelTick (sent : bool) | SelTimeout.

(** The loop of selects: [None] while it goes on, else an error or not, and
    whether the connection was closed. *)
Fixpoint udp_select (done : option auth_done) (cases : list select_case) : option (bool * bool) :=
  match cases with
  | [] => None
  | SelDone :: cases' =>
      match done with
      | Some DoneAuth | Some DoneClosed => Some (true, false)
      | Some DoneError => Some (false, false)
      | None => udp_select done cases'
      end
  | SelTick true :: cases' => udp_select done cases'
  | SelTick false :: _ => Some (false, true)
  | SelTimeout :: _ => Some (false, true)
  end.

(** The reader runs from before the first packet is sent. *)
Definition renewUdpPath (k : key) (dialOk sent : bool) (passes : list (bool * option bytes)) (cases : list select_case)
    (p : path) : path * renewal :=
  if negb dialOk then (p, Failed)
  else
    let '(p1, c) := dial_conn p in
    let '(cp, done) := auth_reader k (pt_proxy p1) passes in
    let p2 := set_proxy cp p1 in
    if negb sent then (close_conn c p2, Failed)
    else match udp_select done cases with
         | None => (p2, Pending)
         | Some (ok, closed) => (if closed then close_conn c p2 else p2, if ok then Got c else Failed)
         end.

(** The attempt that one call of [renewTransportPath] makes, by its proxy mode;
    [UdpCommand] is a proxy command outside TCP mode. *)
Inductive attempt :=
| ByTcp (d : dialled) (sent : bool) (received : option bytes)
| ByUdp (dialOk sent : bool) (passes : list (bool * option bytes)) (cases : list select_case)
| UdpCommand.

Definition dial_path (k : key) (a : attempt) (p : path) : path * renewal :=
  match a with
  | ByTcp d sent received => renewTcpPath k d sent received p
  | ByUdp dialOk sent passes cases => renewUdpPath k dialOk sent passes cases p
  | UdpCommand => (p, Failed)
  end.

(** [waitReconnect] under the heartbeat deadline: [os] is what happens before
    it.  A closed checker handles no event. *)
Fixpoint wait_ok (p : path) (os : list other) : path * bool :=
  match waitReconnect (pt_checker p) with
  | Returns => (p, true)
  | _ => match os with
         | [] => (p, false)
         | o :: os' => wait_ok (other_step p o) os'
         end
  end.

(** [os1] is what other goroutines do while the new connection is dialled, [os2]
    once it is stored. *)
Definition renewTransportPath (k : key) (a : attempt) (os1 os2 : list other) (p : path) : path * bool :=
  let p1 := clearBackendConn None (set_proxy (renew_serial (pt_proxy p)) p) in
  let '(p2, r) := dial_path k a p1 in
  let p2 := others os1 p2 in
  match r with
  | Got c =>
      let '(p3, ok) := wait_ok (set_backend (Some c) p2) os2 in
      if ok then (p3, true) else (clearBackendConn (Some c) p3, false)
  | _ => (p2, false)
  end.

End Renew.

(** ** Use *)

(** One pass of [ReadFrom]: the error, a packet, or another pass after a failed
    read ([None]) or a wait. *)
Inductive read_pass := ReadEOF | ReadPacket (b : bytes) | ReadAgain.

Definition ReadFrom_pass (result : option bytes) (now : Z) (p : path) : path * read_pass :=
  if pt_closed p then (p, ReadEOF)
  else match pt_backend p with
       | Some c =>
           match result with
           | Some b =>
               let tr := pt_traffic p in
               (set_traffic (Traffic (sentPackets tr) (sentBytes tr)
                               (u64 (recvPackets tr + 1)) (u64 (recvBytes tr + Z.of_nat (length b))))
                  (set_checker (handleEvent (pt_checker p) (UpdateNow now)) p), ReadPacket b)
           | None => (clearBackendConn (Some c) p, ReadAgain)
           end
       | None => (p, ReadAgain)
       end.

(** [WriteTo]: the length written, or [None] for the error.  [writeOk]: the
    backend takes the packet. *)
Definition WriteTo (buf : bytes) (writeOk : bool) (p : path) : path * option nat :=
  if pt_closed p then (p, None)
  else
    (match pt_backend p with
     | Some c =>
         if writeOk then
           let tr := pt_traffic p in
           set_traffic (Traffic (u64 (sentPackets tr + 1)) (u64 (sentBytes tr + Z.of_nat (length buf)))
                          (recvPackets tr) (recvBytes tr)) p
         else clearBackendConn (Some c) p
     | None => p
     end, Some (length buf)).

(** ** Connections are not lost *)

(** Every open connection is the backend. *)
Definition no_leak (p : path) : Prop := forall c, pt_conns p !! c = Some true -> pt_backend p = Some c.

(** Every open connection but [c]. *)
Definition no_leak_but (c : nat) (p : path) : Prop :=
  forall c', pt_conns p !! c' = Some true -> c' = c \/ pt_backend p = Some c'.

Lemma close_conn_other c c' p : pt_conns (close_conn c p) !! c' = Some true -> c' <> c /\ pt_conns p !! c' = Some true.
Proof.
  simpl. destruct (decide (c' = c)) as [->|Hne].
  - intros Hc. destruct (lt_dec c (length (pt_conns p))).
    + by rewrite list_lookup_insert_eq in Hc.
    + by rewrite list_insert_ge, lookup_ge_None_2 in Hc by lia.
  - by rewrite list_lookup_insert_ne by done.
Qed.

Lemma no_leak_clear old p : no_leak p -> no_leak (clearBackendConn old p).
Proof.
  intros Hp. unfold clearBackendConn. destruct old as [c|].
  - case_bool_decide as Hb; [|done]. intros c' [Hne Hc']%close_conn_other. apply Hp in Hc'. congruence.
  - destruct (pt_backend p) as [c|] eqn:Hb; [|done]. intros c' [Hne Hc']%close_conn_other. apply Hp in Hc'. congruence.
Qed.

Lemma clear_none p : pt_backend (clearBackendConn None p) = None.
Proof. unfold clearBackendConn. by destruct (pt_backend p) eqn:E. Qed.

Lemma clear_frame old p :
  pt_proxy (clearBackendConn old p) = pt_proxy p /\ length (pt_conns (clearBackendConn old p)) = length (pt_conns p).
Proof. unfold clearBackendConn. repeat case_match; split; try done; simpl; by rewrite length_insert. Qed.

(** [Close] is three steps. *)
Lemma path_Close_steps p :
  path_Close p = if pt_closed p then p else others [OSetClosed; OClear; OChecker CloseChecker] p.
Proof. unfold path_Close. by destruct (pt_closed p). Qed.

(** No step opens a connection, or stores one. *)
Lemma other_step_frame p o :
  (no_leak p -> no_leak (other_step p o)) /\
  (pt_backend (other_step p o) = pt_backend p \/ pt_backend (other_step p o) = None) /\
  (pt_backend p = None -> pt_conns (other_step p o) = pt_conns p).
Proof.
  destruct o as [| |c|e]; cbn [other_step]; try (split_and!; [done|by left|done]);
    (split_and!; [apply no_leak_clear|unfold clearBackendConn; repeat case_match; auto|]);
    unfold clearBackendConn; intros ->; done.
Qed.

Lemma others_idle os p : pt_backend p = None -> pt_backend (others os p) = None /\ pt_conns (others os p) = pt_conns p.
Proof.
  revert p. induction os as [|o os IH]; intros p Hb; [done|]. destruct (other_step_frame p o) as (_ & [E|E] & Hc);
    (destruct (IH (other_step p o)) as [? Hos]; [congruence|]); (split; [done|]); etrans; [exact Hos|auto|exact Hos|auto].
Qed.

Lemma no_leak_dial p : no_leak p -> no_leak_but (length (pt_conns p)) (dial_conn p).1.
Proof.
  intros Hp c Hc. simpl in Hc. apply lookup_app_Some in Hc as [Hc|[Hle Hc]]; [right; by apply Hp|].
  left. apply list_lookup_singleton_Some in Hc as [Hc _]. lia.
Qed.

Lemma no_leak_close_new c p : no_leak_but c p -> no_leak (close_conn c p).
Proof. intros Hp c' [Hne Hc']%close_conn_other. by destruct (Hp c' Hc'). Qed.

(** ** Attempts *)

Section Attempts.
Context `{Crypto}.

(** An attempt that has ended and in which no connection is dropped unclosed:
    no dial succeeds late, and no read error ends the UDP handshake. *)
Definition releases (k : key) (cp : clientProxy) (a : attempt) : Prop :=
  match a with
  | ByTcp d _ _ => d <> DialLate
  | ByUdp true true passes cases =>
      let r := udp_select (auth_reader k cp passes).2 cases in r <> None /\ r <> Some (false, false)
  | _ => True
  end.

(** What a dial leaves: the new connection apart, nothing open, and the backend
    as it was. *)
Definition dial_post (p : path) (p' : path) (r : renewal) : Prop :=
  pt_backend p' = pt_backend p /\ pt_checker p' = pt_checker p
  /\ match r with Got c => no_leak_but c p' | _ => no_leak p' end.

Lemma dial_path_post k a p p' r : no_leak p -> releases k (pt_proxy p) a -> dial_path k a p = (p', r) -> dial_post p p' r.
Proof.
  intros Hp Hr. pose proof (no_leak_dial p Hp) as Hd.
  destruct a as [d sent received|dialOk sent passes cases|]; simpl.
  - unfold renewTcpPath. destruct d; simpl; [|by intros [= <- <-]|done].
    destruct sent; simpl; [|intros [= <- <-]; repeat split; by apply no_leak_close_new].
    destruct received as [buf|]; simpl; [|intros [= <- <-]; repeat split; by apply no_leak_close_new].
    destruct (isAuthSuccessful k (pt_proxy p) buf) as [cp [|]]; simpl; intros [= <- <-]; repeat split.
    + by intros c' Hc'; apply Hd.
    + by apply no_leak_close_new.
  - unfold renewUdpPath. destruct dialOk; simpl; [|by intros [= <- <-]].
    destruct (auth_reader k (pt_proxy p) passes) as [cp done] eqn:Er.
    destruct sent; simpl; [|intros [= <- <-]; repeat split; by apply no_leak_close_new].
    simpl in Hr. rewrite Er in Hr. simpl in Hr. destruct Hr as [Hn Hl].
    destruct (udp_select done cases) as [[ok cl]|] eqn:Es; [|done]. simpl.
    assert (ok = true /\ cl = false \/ ok = false /\ cl = true) as [[-> ->]|[-> ->]].
    { clear -Es Hl. induction cases as [|[|[|]|] cases IH]; simpl in Es; [done| | | |].
      all: try (destruct done as [[| |]|]); simplify_eq; auto. }
    + intros [= <- <-]. by repeat split.
    + intros [= <- <-]. repeat split. by apply no_leak_close_new.
  - by intros [= <- <-].
Qed.

Lemma dial_path_new k a p p' c : dial_path k a p = (p', Got c) -> c = length (pt_conns p).
Proof.
  destruct a as [d sent received|dialOk sent passes cases|]; simpl; [| |done].
  - unfold renewTcpPath, dialStream, dial_conn. intros E. repeat case_match; by simplify_eq/=.
  - unfold renewUdpPath, dial_conn. intros E. repeat case_match; by simplify_eq/=.
Qed.

Lemma store_no_leak c p : pt_backend p = None -> no_leak_but c p -> no_leak (set_backend (Some c) p).
Proof. intros Hb Hp c' Hc'. simpl. destruct (Hp c' Hc') as [->|Hb']; [done|congruence]. Qed.

(** The wait keeps the connection [c] or loses it. *)
Lemma wait_ok_keeps c p os p' ok :
  wait_ok p os = (p', ok) -> no_leak p -> pt_backend p = Some c \/ pt_backend p = None ->
  no_leak p' /\ (pt_backend p' = Some c \/ pt_backend p' = None) /\
  (tc_closed (pt_checker p) = true -> timeoutFlag (pt_checker p) = true -> ok = false).
Proof.
  revert p. induction os as [|o os IH]; intros p; simpl; unfold waitReconnect.
  - destruct (timeoutFlag (pt_checker p)); [destruct (reconnectedCh (pt_checker p))|]; intros [= <- <-] ? ?; by split_and!.
  - destruct (other_step_frame p o) as (Hn & Hb & _). destruct (timeoutFlag (pt_checker p)) eqn:Hf.
    2: { intros [= <- <-] ? ?. by split_and!. }
    intros Hw Hp Hbp. assert (Hw' : wait_ok (other_step p o) os = (p', ok)) by (by destruct (reconnectedCh (pt_checker p))).
    destruct (IH _ Hw' (Hn Hp)) as (? & ? & Hcl); [destruct Hb, Hbp; rewrite ?H1 in *; naive_solver congruence|].
    split_and!; [done..|]. intros Hc _.
    assert (Hsame : pt_checker (other_step p o) = pt_checker p).
    { destruct o as [| |c'|e]; simpl; try done; [unfold clearBackendConn; by repeat case_match..|].
      unfold handleEvent. by rewrite Hc. }
    rewrite Hsame in Hcl. auto.
Qed.

End Attempts.

(** C13: a renewal of the transport path loses no connection, whatever the
    authentication does and whatever other goroutines meanwhile do (close the
    proxy, fail to read or write, hear of the server), when the attempt neither
    dials late nor ends in a read error: a renewal that fails leaves no connection
    open at all; one that succeeds leaves at most the one it dialled, as the
    backend.  If the proxy's checker is closed with the server timed out when
    the new connection is stored, the renewal fails. *)
Theorem renewal_keeps_conns `{Crypto} (k : key) (a : attempt) (os1 os2 : list other) (p : path) :
  no_leak p -> releases k (renew_serial (pt_proxy p)) a ->
  let '(p', ok) := renewTransportPath k a os1 os2 p in
  (forall c, pt_conns p' !! c = Some true -> ok = true /\ pt_backend p' = Some c /\ (length (pt_conns p) <= c)%nat) /\
  (ok = false -> pt_backend p' = None) /\
  (let t := pt_checker (others os1 (dial_path k a (clearBackendConn None (set_proxy (renew_serial (pt_proxy p)) p))).1) in
   tc_closed t = true -> timeoutFlag t = true -> ok = false).
Proof.
  intros Hp Hr. unfold renewTransportPath.
  set (p1 := clearBackendConn None _).
  pose proof (clear_none (set_proxy (renew_serial (pt_proxy p)) p)) as Hb1. fold p1 in Hb1.
  destruct (clear_frame None (set_proxy (renew_serial (pt_proxy p)) p)) as (Hpr1 & Hl1). fold p1 in Hpr1, Hl1. simpl in Hpr1, Hl1.
  assert (no_leak p1) as Hp1 by (apply no_leak_clear; exact Hp).
  rewrite <- Hpr1 in Hr. destruct (dial_path k a p1) as [p2 r] eqn:Ed.
  destruct (dial_path_post k a p1 p2 r Hp1 Hr Ed) as (Hb2 & Hch2 & Hn2). rewrite Hb1 in Hb2. cbn [fst].
  destruct (others_idle os1 p2 Hb2) as [Hbo Hco].
  assert (Hnone : forall q, pt_backend q = None -> no_leak q -> forall c, pt_conns q !! c = Some true -> False)
    by (intros q Hq Hn c Hc; apply Hn in Hc; congruence).
  assert (Hnl : match r with Got c => no_leak_but c (others os1 p2) | _ => no_leak (others os1 p2) end).
  { destruct r; intros c'; rewrite Hco, Hbo, <- Hb2; apply Hn2. }
  destruct r as [| |c]; try (split_and!; [intros c Hc; by edestruct (Hnone (others os1 p2))|done|done]).
  pose proof (dial_path_new k a p1 p2 c Ed) as Hc2. rewrite Hl1 in Hc2.
  pose proof (store_no_leak c _ Hbo Hnl) as Hst.
  destruct (wait_ok (set_backend (Some c) (others os1 p2)) os2) as [p3 ok] eqn:Ew.
  destruct (wait_ok_keeps c _ _ _ _ Ew Hst ltac:(by left)) as (Hn3 & Hb3 & Hcl3).
  destruct ok.
  - split_and!; [|done|done]. intros c' Hc'. pose proof (Hn3 c' Hc') as E. split_and!; [done..|].
    destruct Hb3 as [E3|E3]; [|congruence]. assert (c' = c) as -> by congruence. lia.
  - assert (Hcb : pt_backend (clearBackendConn (Some c) p3) = None).
    { unfold clearBackendConn. destruct Hb3 as [E|E]; rewrite E;
        [by rewrite bool_decide_eq_true_2|by rewrite bool_decide_eq_false_2]. }
    split_and!; [|done|done]. intros c' Hc'. exfalso. eapply Hnone; [exact Hcb|by apply no_leak_clear|done].
Qed.

(** The server's answer to a client that asks with this serial number. *)
Definition answer (serial : Z) : bytes := default [] (aesEncrypt Handshake.K (Some (bs "n")) (be_put 8 99 ++ be_put 8 serial)).

Definition example_path (serial : Z) (timedOut : bool) : path :=
  Path (Handshake.alice serial) false None [] (TC false timedOut 0 (if timedOut then Some 0%nat else None) 1 [false] [])
    (Traffic 0 0 0 0).

Definition example_attempt : attempt :=
  ByUdp true true [(false, Some (bs "junk")); (false, Some (answer 1))] [SelTick true; SelDone].

(** [Close] comes between the dial and the store, and a write fails. *)
Lemma renewal_keeps_conns_witness :
  exists p', renewTransportPath Handshake.K example_attempt [OSetClosed; OClear; OChecker CloseChecker]
               [OChecker (UpdateNow 5); OFails 3] (example_path 0 true) = (p', false) /\
    pt_closed p' = true /\ pt_backend p' = None /\ (forall c, pt_conns p' !! c <> Some true).
Proof.
  pose proof (renewal_keeps_conns Handshake.K example_attempt
    [OSetClosed; OClear; OChecker CloseChecker] [OChecker (UpdateNow 5); OFails 3] (example_path 0 true)
    ltac:(by intros c Hc) ltac:(vm_compute; split; discriminate)) as Hk.
  destruct (renewTransportPath _ _ _ _ _) as [p' ok] eqn:E. destruct Hk as (Hopen & Hb & Hfail).
  assert (Hok : ok = false) by (apply Hfail; vm_compute; reflexivity). exists p'. split; [by rewrite Hok|].
  split; [vm_compute in E; injection E as <- _; reflexivity|]. split; [exact (Hb Hok)|].
  intros c Hc. destruct (Hopen c Hc) as [Ht _]. rewrite Ht in Hok. discriminate Hok.
Defined.

(** The same attempt on an open path succeeds, over UDP and over TCP. *)
Example renewal_succeeds :
  (renewTransportPath Handshake.K (ByUdp true true [(false, Some (bs "junk")); (false, Some (answer 1))] [SelTick true; SelDone])
     [] [OChecker (UpdateNow 5)] (example_path 0 true)).2 = true
  /\ (renewTransportPath Handshake.K (ByTcp DialOk true (Some (answer 1))) [] [OChecker (UpdateNow 5)] (example_path 0 true)).2 = true
  /\ (renewTransportPath Handshake.K (ByTcp DialOk true (Some (bs "junk"))) [] [OChecker (UpdateNow 5)] (example_path 0 true)).2 = false.
Proof. by vm_compute. Qed.

(** A proxy that is closed during its first connection, when no server has timed
    out, keeps the connection that is then stored. *)
Example closed_proxy_keeps_backend :
  let '(p', ok) := renewTransportPath Handshake.K (ByTcp DialOk true (Some (answer 1))) [OSetClosed; OClear; OChecker CloseChecker] []
                     (example_path 0 false) in
  pt_closed p' = true /\ ok = true /\ pt_backend p' = Some 0%nat /\ pt_conns p' = [true].
Proof. by vm_compute. Qed.

(** A read error during the UDP handshake (a refused datagram, for one)
    drops the socket without closing it: after any number of such attempts all
    their sockets are still open, and the path has no backend. *)
Theorem refused_reads_leak `{Crypto} (k : key) (n : nat) (p : path) :
  pt_backend p = None ->
  let attempt p := (renewTransportPath k (ByUdp true true [(false, None)] [SelDone]) [] [] p).1 in
  let p' := Nat.iter n attempt p in
  pt_backend p' = None /\ pt_conns p' = pt_conns p ++ replicate n true.
Proof.
  intros Hb. simpl. induction n as [|n [IHb IHc]]; simpl; [by rewrite app_nil_r|].
  set (q := Nat.iter n _ p) in *. unfold renewTransportPath, clearBackendConn. simpl. rewrite IHb. simpl. split; [done|].
  rewrite IHc, <- app_assoc. f_equal. by rewrite <- replicate_S_end.
Qed.

Lemma refused_reads_leak_witness :
  let attempt p := (renewTransportPath Handshake.K (ByUdp true true [(false, None)] [SelDone]) [] [] p).1 in
  let p' := Nat.iter 3 attempt (example_path 0 true) in
  pt_backend p' = None /\ pt_conns p' = [] ++ replicate 3 true.
Proof. by apply (refused_reads_leak Handshake.K 3 (example_path 0 true)). Defined.

(** ** Authentication *)

Section Authenticated.
Context `{Crypto}.

(** Some packet read by the attempt proves that the server knows the key. *)
Definition answered (k : key) (cp : clientProxy) (bufs : list bytes) : Prop :=
  exists buf cp', In buf bufs /\ cp_serverID cp' = cp_serverID cp /\ isAuthSuccessful k cp' buf = (cp', true).

Lemma isAuthSuccessful_ids k cp buf cp' ok : isAuthSuccessful k cp buf = (cp', ok) ->
  cp_serverID cp' = cp_serverID cp /\ (ok = true -> cp' = cp).
Proof. unfold isAuthSuccessful. intros E. repeat case_match; by simplify_eq. Qed.

(** The datagrams of the passes. *)
Definition packets (passes : list (bool * option bytes)) : list bytes := omap snd passes.

Lemma auth_reader_answered k cp passes cp' : auth_reader k cp passes = (cp', Some DoneAuth) -> answered k cp (packets passes).
Proof.
  revert cp. induction passes as [|[[|] [buf|]] passes IH]; intros cp; simpl; try done.
  destruct (isAuthSuccessful k cp buf) as [cp1 ok] eqn:E. destruct (isAuthSuccessful_ids _ _ _ _ _ E) as [Hid Hok].
  destruct ok.
  - intros _. exists buf, cp. specialize (Hok eq_refl) as ->. split_and!; [by left|done|done].
  - intros (b & cp2 & Hb & Hs & Ha)%IH. exists b, cp2. split_and!; [by right|congruence|done].
Qed.

Lemma udp_select_ok done cases : udp_select done cases = Some (true, false) -> done = Some DoneAuth \/ done = Some DoneClosed.
Proof. induction cases as [|[|[|]|] cases IH]; simpl; try done. destruct done as [[| |]|]; auto; done. Qed.

Lemma udp_select_shape done cases cl : udp_select done cases = Some (true, cl) -> cl = false.
Proof. induction cases as [|[|[|]|] cases IH]; simpl; try done. destruct done as [[| |]|]; auto; intros [=]; auto. Qed.

End Authenticated.

(** C32: a dialled connection is handed over to be the backend only after the
    server has proved that it knows the key, by a packet received on it, the case apart in which the
    reader of a UDP handshake stops because its time is over. *)
Theorem dialled_path_answered `{Crypto} (k : key) (a : attempt) (p : path) (c : nat) :
  (dial_path k a p).2 = Got c ->
  match a with
  | ByTcp _ _ received => answered k (pt_proxy p) (option_list received)
  | ByUdp _ _ passes _ => answered k (pt_proxy p) (packets passes) \/ (auth_reader k (pt_proxy p) passes).2 = Some DoneClosed
  | UdpCommand => False
  end.
Proof.
  destruct a as [d sent received|dialOk sent passes cases|]; simpl; [| |done].
  - unfold renewTcpPath. destruct d; simpl; [|done|done]. destruct sent; simpl; [|done].
    destruct received as [buf|]; simpl; [|done].
    destruct (isAuthSuccessful k (pt_proxy p) buf) as [cp ok] eqn:E.
    destruct (isAuthSuccessful_ids _ _ _ _ _ E) as [_ Hok]. destruct ok; [|done]. intros _.
    specialize (Hok eq_refl) as ->. exists buf, (pt_proxy p). split_and!; [by left|done|done].
  - unfold renewUdpPath. destruct dialOk; simpl; [|done].
    destruct (auth_reader k (pt_proxy p) passes) as [cp done] eqn:E. destruct sent; simpl; [|done].
    destruct (udp_select done cases) as [[[|] cl]|] eqn:Es; try done. intros _.
    pose proof (udp_select_shape _ _ _ Es) as ->.
    destruct (udp_select_ok _ _ Es) as [-> | ->]; [left; by eapply auth_reader_answered|by right].
Qed.

Lemma dialled_path_answered_witness :
  answered Handshake.K (Handshake.alice 1) (option_list (Some (answer 1))).
Proof. by apply (dialled_path_answered Handshake.K (ByTcp DialOk true (Some (answer 1))) (example_path 1 false) 0). Defined.

(** On the first connection, when no server has timed out yet, a UDP
    handshake whose time is over may succeed although no packet was accepted:
    the reader closes its channel without a value, and the receive of the zero
    value is taken for success if the select prefers it to the deadline. *)
Theorem expired_handshake_installs `{Crypto} (k : key) (passes : list (bool * option bytes)) (os : list other) (p : path) :
  pt_backend p = None -> timeoutFlag (pt_checker p) = false ->
  (auth_reader k (renew_serial (pt_proxy p)) passes).2 = Some DoneClosed ->
  let '(p', ok) := renewTransportPath k (ByUdp true true passes [SelTick true; SelDone]) [] os p in
  ok = true /\ pt_backend p' = Some (length (pt_conns p)) /\ pt_conns p' = pt_conns p ++ [true].
Proof.
  intros Hb Hf Hr. unfold renewTransportPath, clearBackendConn. simpl. rewrite Hb. unfold renewUdpPath. simpl.
  destruct (auth_reader k (renew_serial (pt_proxy p)) passes) as [cp done]. simpl in Hr. subst done. simpl.
  assert (forall q, timeoutFlag (pt_checker q) = false -> wait_ok q os = (q, true)) as Hw
    by (intros q Hq; destruct os; simpl; unfold waitReconnect; by rewrite Hq).
  by rewrite Hw.
Qed.

Lemma expired_handshake_installs_witness :
  let '(p', ok) := renewTransportPath Handshake.K (ByUdp true true [(false, Some (bs "junk")); (true, None)] [SelTick true; SelDone])
                     [] [] (example_path 0 false) in
  ok = true /\ pt_backend p' = Some 0%nat /\ pt_conns p' = [] ++ [true].
Proof. by apply (expired_handshake_installs Handshake.K [(false, Some (bs "junk")); (true, None)] [] (example_path 0 false)). Defined.

(** ** Reads and writes *)

(** The transport above the proxy sees an error only when the proxy is
    closed: a failed write is reported as a success and a failed read is tried
    again, and either gives up the connection that failed and no other. *)
Theorem only_close_is_reported (buf : bytes) (writeOk : bool) (result : option bytes) (now : Z) (p : path) :
  ((WriteTo buf writeOk p).2 = None <-> pt_closed p = true)
  /\ ((ReadFrom_pass result now p).2 = ReadEOF <-> pt_closed p = true)
  /\ (no_leak p -> no_leak (WriteTo buf writeOk p).1 /\ no_leak (ReadFrom_pass result now p).1)
  /\ (pt_closed p = false -> writeOk = false -> pt_backend (WriteTo buf writeOk p).1 = None)
  /\ (pt_closed p = false -> result = None -> pt_backend (ReadFrom_pass result now p).1 = None).
Proof.
  unfold WriteTo, ReadFrom_pass. destruct (pt_closed p); [split_and!; try done; by intros|].
  destruct (pt_backend p) as [c|] eqn:Hb.
  - assert (pt_backend (clearBackendConn (Some c) p) = None) as Hcl
      by (unfold clearBackendConn; by rewrite Hb, bool_decide_eq_true_2).
    split_and!; [done|by destruct result| | |].
    + intros Hp. pose proof (no_leak_clear (Some c) p Hp). destruct writeOk, result; split; first [exact Hp | assumption].
    + by intros _ ->.
    + by intros _ ->.
  - split_and!; try done; by intros.
Qed.

(** ** When to reconnect *)

(** What [tryToReconnect] observes in one pass of one of its loops. *)
Record tick := Tick {
  tk_server : bool;     (** [serverChecker.isTimeout()] *)
  tk_active : bool;     (** [activeChecker.isTimeout()] *)
  tk_proxyOk : bool;    (** the proxy client is connected, or reconnects *)
  tk_closed : bool;     (** [IsClosed()] before the renewal *)
  tk_renewed : bool;    (** [renewTransportPath] succeeds *)
  tk_closedAfter : bool (** [IsClosed()] after a failed renewal *)
}.

(** Its loops: waiting for the server to time out, for the proxy client, the
    renewals, and waiting for the heartbeat after a success. *)
Inductive phase := AwaitServer | AwaitProxy | Renewing | Settling | Returned.

(** [rc_error] is [reconnectError]; [rc_log] is the history of the renewals:
    the pass and the result. *)
Record reconnect := Reconnect {
  rc_phase : phase;
  rc_error : bool;
  rc_log : list (tick * bool)
}.

Definition to_phase (f : phase) (r : reconnect) : reconnect := Reconnect f (rc_error r) (rc_log r).

Definition reconnect_pass (hasProxy : bool) (r : reconnect) (t : tick) : reconnect :=
  match rc_phase r with
  | AwaitServer =>
      if tk_server t then to_phase (if hasProxy then AwaitProxy else Renewing) r
      else if tk_active t then r else to_phase Returned r
  | AwaitProxy => to_phase (if tk_proxyOk t then Renewing else Returned) r
  | Renewing =>
      if tk_active t && negb (tk_closed t) then
        let log := rc_log r ++ [(t, tk_renewed t)] in
        if tk_renewed t then Reconnect Settling false log
        else if tk_closedAfter t then Reconnect Returned (rc_error r) log
        else Reconnect Renewing true log
      else to_phase Returned r
  | Settling =>
      if negb (tk_active t) then to_phase Returned r
      else if tk_server t then to_phase Renewing r
      else r
  | Returned => r
  end.

Definition tryToReconnect (hasProxy : bool) (r : reconnect) (ts : list tick) : reconnect :=
  fold_left (reconnect_pass hasProxy) ts r.

(** How often the server was seen timed out, and renewals that succeeded. *)
Definition server_timeouts (ts : list tick) : nat := length (filter (fun t => tk_server t = true) ts).

Definition successes (r : reconnect) : nat := length (filter (fun e => e.2 = true) (rc_log r)).

(** A renewal that is due has been paid for by a timeout of the server. *)
Definition due (f : phase) : nat := match f with AwaitProxy | Renewing => 1 | _ => 0 end.

Lemma reconnect_pass_paid hasProxy r t :
  (successes (reconnect_pass hasProxy r t) + due (rc_phase (reconnect_pass hasProxy r t))
   <= successes r + due (rc_phase r) + server_timeouts [t])%nat.
Proof.
  assert (forall b, length (filter (fun e : tick * bool => e.2 = true) (rc_log r ++ [(t, b)]))
            = (successes r + if b then 1 else 0)%nat) as Hl.
  { intros b. rewrite filter_app, length_app. by destruct b. }
  assert (server_timeouts [t] = if tk_server t then 1 else 0)%nat as ->.
  { unfold server_timeouts. rewrite filter_cons. by destruct (tk_server t). }
  unfold reconnect_pass. destruct (rc_phase r) eqn:Ep; destruct (tk_server t), (tk_active t); simpl; rewrite ?Ep; simpl;
    repeat case_match; unfold successes in *; simpl; rewrite ?Ep, ?Hl; simpl; lia.
Qed.

Lemma reconnect_logged hasProxy r ts : Forall (fun e => tk_active e.1 = true /\ tk_closed e.1 = false) (rc_log r) ->
  Forall (fun e => tk_active e.1 = true /\ tk_closed e.1 = false) (rc_log (tryToReconnect hasProxy r ts)).
Proof.
  revert r. induction ts as [|t ts IH]; intros r Hr; [done|]. apply IH. unfold reconnect_pass.
  destruct (rc_phase r); simpl; repeat case_match; simpl; try done.
  all: apply Forall_app; split; [done|]; constructor; [|constructor]; simpl;
    destruct (tk_active t), (tk_closed t); naive_solver.
Qed.

(** [tryToReconnect] renews the path only while the heartbeat is timed out
    and the client is open, and it needs a timeout of the server for each
    renewal that succeeds: a path that delivers packets is never replaced. *)
Theorem renewals_need_timeouts (hasProxy : bool) (ts : list tick) :
  let r := tryToReconnect hasProxy (Reconnect AwaitServer false []) ts in
  (successes r <= server_timeouts ts)%nat
  /\ Forall (fun e => tk_active e.1 = true /\ tk_closed e.1 = false) (rc_log r).
Proof.
  simpl. split; [|by apply reconnect_logged].
  assert (forall r, successes (tryToReconnect hasProxy r ts) <= successes r + due (rc_phase r) + server_timeouts ts)%nat as Hg.
  { induction ts as [|t ts IH]; intros r; [simpl; lia|]. specialize (IH (reconnect_pass hasProxy r t)).
    pose proof (reconnect_pass_paid hasProxy r t). change (t :: ts) with ([t] ++ ts).
    unfold server_timeouts in *. rewrite filter_app, length_app. simpl in *. lia. }
  specialize (Hg (Reconnect AwaitServer false [])). simpl in Hg. exact Hg.
Qed.

(** Once the heartbeat is back, [tryToReconnect] returns within three
    passes, from any of its loops, and attempts no further renewal. *)
Theorem reconnect_returns (hasProxy : bool) (r : reconnect) (t1 t2 t3 : tick) :
  tk_active t1 = false -> tk_active t2 = false -> tk_active t3 = false ->
  let r' := tryToReconnect hasProxy r [t1; t2; t3] in
  rc_phase r' = Returned /\ rc_log r' = rc_log r.
Proof.
  destruct t1 as [s1 ? p1], t2 as [s2 ? p2], t3 as [s3 ? p3], r as [f e l]. simpl. intros -> -> ->.
  destruct f; [destruct s1, hasProxy; [destruct p2| | |]|destruct p1| | |]; done.
Qed.

Lemma reconnect_returns_witness :
  let t := Tick true false true false true false in
  let r' := tryToReconnect true (Reconnect AwaitServer true []) [t; t; t] in
  rc_phase r' = Returned /\ rc_log r' = [].
Proof. by apply (reconnect_returns true (Reconnect AwaitServer true [])). Defined.

(** ** The last error *)

(** [GetLastReconnectError]: the errors of the client and of the proxy clients
    behind it; the one farthest away is reported. *)
Definition GetLastReconnectError {A} (errs : list (option A)) : option A :=
  fold_left (fun err e => match e with Some _ => e | None => err end) errs None.
