(* ===== verification/Bus.v ===== *)
(** * Bus: the control stream of a client ([bus.go])

    The stream that carries the client's commands to its server: the version
    check, the loop over the commands with its handlers (the handler of resizes
    and [SetSize] are in [session.go]), and the queue of log messages for the
    client ([debug] and [warning] of [comm.go]).  Sessions and servers are
    those of [Server], frames those of [Wire]. *)

From Stdlib Require Import ZArith Lia Ascii String.
From stdpp Require Import base list strings gmap.
From S2P Require Import Prelude GoStrings Decimal Wire Marker Output Config Main Server.
Open Scope Z_scope.

(** ** Messages ([proto.go]) *)

Record busMessage := BusMessage {
  bm_ClientVer : bytes;
  bm_ProtoVer : Z;
  bm_AliveTimeout : Z;
  bm_IntervalTime : Z;
  bm_HeartbeatTimeout : Z
}.

Record exitMessage := ExitMessage { xm_ID : Z; xm_ExitCode : Z }.

Record aliveMessage := AliveMessage { al_Time : Z }.

Record resizeMessage := ResizeMessage {
  rm_ID : Z;
  rm_Cols : Z;
  rm_Rows : Z;
  rm_Redraw : bool;
  rm_Marker : option bytes
}.

Record settingsMessage := SettingsMessage { sm_KeepPendingInput : option bool; sm_KeepPendingOutput : option bool }.

Record rekeyMessage := RekeyMessage { rk_PubKey : bytes }.

(** ** Resizing *)

(** The session as [SetSize] of [Output] sees it; a session in the map is not
    closed. *)
Definition view_of (id : Z) (sess : session) : sess_view :=
  SessView false (ss_pty sess) (bool_decide (ss_server sess <> None)) id (ss_size sess).1 (ss_size sess).2.

Definition with_size (v : sess_view) (sess : session) : session :=
  Sess (ss_server sess) (ss_checker sess) (ss_ioStream sess) (ss_errStream sess) (ss_pty sess) (sv_cols v, sv_rows v)
    (ss_discardMarker sess) (ss_waitCancel sess).

(** ** The state of the loop *)

(** What the handlers do beyond the world of [Server]. *)
Inductive bus_effect :=
| SessionClosed (id : Z)
| Resized (id : Z) (request : discard_request) (calls : list (Z * Z))
| AliveReply (t : Z)
| RekeyRequest (pubKey : bytes)
| DetachAck
| Exiting.

(** [bs_effects] is history. *)
Record bus_state := BusState {
  bs_world : world;
  bs_clientAliveTime : Z;
  bs_keepPendingInput : bool;
  bs_keepPendingOutput : bool;
  bs_effects : list bus_effect
}.

Definition set_world (w : world) (st : bus_state) : bus_state :=
  BusState w (bs_clientAliveTime st) (bs_keepPendingInput st) (bs_keepPendingOutput st) (bs_effects st).

Definition emit (e : bus_effect) (st : bus_state) : bus_state :=
  BusState (bs_world st) (bs_clientAliveTime st) (bs_keepPendingInput st) (bs_keepPendingOutput st)
    (bs_effects st ++ [e]).

(** What the loop meets while it handles a command: what other goroutines have
    done to the world since the last one, the time, and whether a resize
    succeeds. *)
Record bus_env := BusEnv { be_others : list world_event; be_now : Z; be_resizeOk : bool }.

Section Loop.
Context `{!Codec exitMessage, !Codec resizeMessage, !Codec aliveMessage, !Codec settingsMessage, !Codec rekeyMessage,
          !Codec unit, !Codec busMessage}.

(** *** What a message does once it has been received *)

Definition closeSession (id : Z) (st : bus_state) : bus_state :=
  match w_sessions (bs_world st) !! id with
  | Some _ => emit (SessionClosed id) (set_world (session_Close (bs_world st) id) st)
  | None => st
  end.

Definition on_exit (m : exitMessage) (st : bus_state) : bus_state := closeSession (xm_ID m) st.

Definition on_resize (s : Z) (e : bus_env) (m : resizeMessage) (st : bus_state) : bus_state :=
  if (rm_Cols m <=? 0) || (rm_Rows m <=? 0) then st
  else
    match w_sessions (bs_world st) !! rm_ID m with
    | None => st
    | Some sess =>
        if negb (bool_decide (ss_server sess = Some s)) then st
        else
          let '(v, _, request, calls) := SetSize (view_of (rm_ID m) sess) (rm_Cols m) (rm_Rows m) (rm_Redraw m) false
                                           (rm_Marker m) (fun _ _ => be_resizeOk e) in
          emit (Resized (rm_ID m) request calls)
            (set_world (set_sessions (<[rm_ID m := with_size v sess]> (w_sessions (bs_world st))) (bs_world st)) st)
    end.

Definition on_alive (e : bus_env) (m : aliveMessage) (st : bus_state) : bus_state :=
  emit (AliveReply (al_Time m))
    (BusState (bs_world st) (be_now e) (bs_keepPendingInput st) (bs_keepPendingOutput st) (bs_effects st)).

Definition on_setting (m : settingsMessage) (st : bus_state) : bus_state :=
  BusState (bs_world st) (bs_clientAliveTime st) (default (bs_keepPendingInput st) (sm_KeepPendingInput m))
    (default (bs_keepPendingOutput st) (sm_KeepPendingOutput m)) (bs_effects st).

(** The key exchange itself is the subject of [Rekey]. *)
Definition on_rekey (m : rekeyMessage) (st : bus_state) : bus_state := emit (RekeyRequest (rk_PubKey m)) st.

(** *** The handlers: a message that cannot be received changes nothing *)

Definition receive {M} `{!Codec M} (r : reader) (f : M -> bus_state -> bus_state) (st : bus_state) : reader * bus_state :=
  match recvMessage r with
  | (r', Ok m) => (r', f m st)
  | (r', Err _) => (r', st)
  end.

Definition handleExitEvent (r : reader) (st : bus_state) := receive r on_exit st.

Definition handleResizeEvent (s : Z) (e : bus_env) (r : reader) (st : bus_state) := receive r (on_resize s e) st.

Definition handleAliveEvent (e : bus_env) (r : reader) (st : bus_state) := receive r (on_alive e) st.

Definition handleSettingEvent (r : reader) (st : bus_state) := receive r on_setting st.

Definition handleRekeyEvent (r : reader) (st : bus_state) := receive r on_rekey st.

Definition handleUnknownEvent (r : reader) (st : bus_state) := receive (M := unit) r (fun _ st => st) st.

Definition bus_detach (s : Z) (st : bus_state) : bus_state :=
  emit DetachAck (set_world (handleDetachEvent (bs_world st) s) st).

(** Every session is closed, [busClosing] set, and the process told to exit. *)
Definition handleCloseEvent (st : bus_state) : bus_state :=
  let w := bs_world st in
  emit Exiting
    (set_world (World (w_attachable w) (w_kcp w) (w_forwardings w) true (w_active w) (w_servers w) ∅ (w_maxSessionID w)) st).

(** *** The loop *)

Definition before (e : bus_env) (st : bus_state) : bus_state := set_world (world_run (be_others e) (bs_world st)) st.

(** [envs i] is what the [i]th pass meets.  [None]: out of fuel. *)
Fixpoint bus_loop (fuel : nat) (s : Z) (envs : nat -> bus_env) (i : nat) (r : reader) (st : bus_state) : option bus_state :=
  match fuel with
  | O => None
  | S fuel' =>
      match recvCommand r with
      | (_, Err _) => Some st
      | (r1, Ok command) =>
          let e := envs i in
          let st1 := before e st in
          let continue (p : reader * bus_state) := bus_loop fuel' s envs (S i) p.1 p.2 in
          if negb (bool_decide (w_active (bs_world st1) = Some s)) then Some st1
          else if bool_decide (command = "exit"%string) then continue (handleExitEvent r1 st1)
          else if bool_decide (command = "resize"%string) then continue (handleResizeEvent s e r1 st1)
          else if bool_decide (command = "close"%string) then Some (handleCloseEvent st1)
          else if bool_decide (command = "alive"%string) then continue (handleAliveEvent e r1 st1)
          else if bool_decide (command = "setting"%string) then continue (handleSettingEvent r1 st1)
          else if bool_decide (command = "rekey"%string) then continue (handleRekeyEvent r1 st1)
          else if bool_decide (command = "detach"%string) then continue (r1, bus_detach s st1)
          else continue (handleUnknownEvent r1 st1)
      end
  end.

(** *** The beginning *)

Inductive bus_refusal := BadMessage | BadVersion | TooOld | NotInitialised.

(** The check of old clients, which announce no protocol version. *)
Definition version_gate (m : busMessage) : option bus_refusal :=
  if bm_ProtoVer m =? 0 then
    match parseTsshdVersion (bm_ClientVer m) with
    | None => Some BadVersion
    | Some v => if compare v (0, 1, 6) <? 0 then Some TooOld else None
    end
  else None.

(** [handleBusEvent] on a new stream of the server [s]; [ackOk] is whether the
    acknowledgement can be sent. *)
Definition handleBusEvent (fuel : nat) (s stream : Z) (envs : nat -> bus_env) (now : Z) (ackOk : bool) (r : reader)
    (w : world) : bus_refusal * world + option bus_state :=
  match recvMessage r with
  | (_, Err _) => inl (BadMessage, w)
  | (r1, Ok m) =>
      match version_gate m with
      | Some why => inl (why, w)
      | None =>
          let '(w1, ok) := initBusAndServer w s stream ackOk in
          if ok && ackOk then inr (bus_loop fuel s envs 0 r1 (BusState w1 now false false []))
          else inl (NotInitialised, w1)
      end
  end.

(** ** The specification: commands, not bytes *)

Inductive bus_command :=
| CExit (m : exitMessage)
| CResize (m : resizeMessage)
| CAlive (m : aliveMessage)
| CSetting (m : settingsMessage)
| CRekey (m : rekeyMessage)
| CDetach
| CClose
| CUnknown (command : string) (body : bytes).

Definition known_commands : list string :=
  ["exit"; "resize"; "close"; "alive"; "setting"; "rekey"; "detach"]%string.

(** What the client writes to the stream for a command: [sendCommandAndMessage],
    or [sendCommand] for the two without a message. *)
Definition encode_body (command : string) (body : bytes) : option bytes :=
  if Z.of_nat (length body) <? 2 ^ 32 then Some (command_frame command ++ message_frame body) else None.

Definition encode_message {M} `{!Codec M} (command : string) (m : M) : option bytes :=
  match json_Marshal m with Ok body => encode_body command body | Err _ => None end.

Definition encode (c : bus_command) : option bytes :=
  match c with
  | CExit m => encode_message "exit" m
  | CResize m => encode_message "resize" m
  | CAlive m => encode_message "alive" m
  | CSetting m => encode_message "setting" m
  | CRekey m => encode_message "rekey" m
  | CDetach => Some (command_frame "detach")
  | CClose => Some (command_frame "close")
  | CUnknown command body =>
      if bool_decide (command ∈ known_commands) || (255 <? String.length command)%nat then None
      else encode_body command body
  end.

Definition perform (s : Z) (e : bus_env) (c : bus_command) (st : bus_state) : bus_state :=
  match c with
  | CExit m => on_exit m st
  | CResize m => on_resize s e m st
  | CAlive m => on_alive e m st
  | CSetting m => on_setting m st
  | CRekey m => on_rekey m st
  | CDetach => bus_detach s st
  | CClose => handleCloseEvent st
  | CUnknown _ _ => st
  end.

(** Commands are performed in order while the server is the active one, up to
    the command to close. *)
Fixpoint perform_all (s : Z) (envs : nat -> bus_env) (i : nat) (cs : list bus_command) (st : bus_state) : bus_state :=
  match cs with
  | [] => st
  | c :: cs' =>
      let st1 := before (envs i) st in
      if negb (bool_decide (w_active (bs_world st1) = Some s)) then st1
      else match c with
           | CClose => perform s (envs i) c st1
           | _ => perform_all s envs (S i) cs' (perform s (envs i) c st1)
           end
  end.

(** ** Receiving what was sent *)

Lemma recvMessage_body {M} `{!Codec M} r body rest :
  Z.of_nat (length body) < 2 ^ 32 -> rd_bytes r = message_frame body ++ rest -> proper r ->
  exists r', rd_bytes r' = rest /\ proper r' /\
    recvMessage r = (r', match json_Unmarshal body with
                         | Err e => Err (Wrap "recv message unmarshal failed" e)
                         | Ok m => @Ok M m
                         end).
Proof.
  intros Hlen Hr Hp. unfold recvMessage, message_frame in *. rewrite <- app_assoc in Hr.
  destruct (ReadFull_app r _ _ Hr) as (r1 & Heq & Hb1 & Hp1). rewrite length_be_put in Heq. rewrite Heq.
  rewrite be_get_put_small by (rewrite uwrap_small by lia; change (256 ^ Z.of_nat 4) with (2 ^ 32); lia).
  rewrite uwrap_small, Nat2Z.id by lia.
  destruct (ReadFull_app r1 _ _ Hb1) as (r2 & -> & Hb2 & Hp2). exists r2.
  split_and!; [done|auto|]. by destruct (json_Unmarshal body).
Qed.

Lemma receive_message {M} `{!Codec M, !CodecOk M} command (m : M) frame r rest f st :
  encode_message command m = Some (command_frame command ++ frame) ->
  rd_bytes r = frame ++ rest -> proper r ->
  exists r', receive r f st = (r', f m st) /\ rd_bytes r' = rest /\ proper r'.
Proof.
  unfold encode_message, encode_body. destruct (json_Marshal m) as [body|] eqn:Em; [|done].
  destruct (Z.ltb_spec (Z.of_nat (length body)) (2 ^ 32)) as [Hlen|]; [|done].
  intros [= E]. apply app_inv_head in E as <-. intros Hr Hp.
  destruct (recvMessage_body (M := M) r body rest Hlen Hr Hp) as (r' & Hb & Hp' & E).
  exists r'. unfold receive. by rewrite E, (json_roundtrip _ _ Em).
Qed.

Lemma encode_message_frame {M} `{!Codec M} command (m : M) b :
  encode_message command m = Some b -> exists frame, b = command_frame command ++ frame.
Proof. unfold encode_message, encode_body. repeat case_match; intros; simplify_eq; eauto. Qed.

Lemma receive_unknown command body b r rest st :
  encode_body command body = Some b ->
  exists frame, b = command_frame command ++ frame /\
    (rd_bytes r = frame ++ rest -> proper r ->
     exists r', handleUnknownEvent r st = (r', st) /\ rd_bytes r' = rest /\ proper r').
Proof.
  unfold encode_body. destruct (Z.ltb_spec (Z.of_nat (length body)) (2 ^ 32)) as [Hlen|]; [|done].
  intros [= <-]. eexists. split; [done|]. intros Hr Hp.
  destruct (recvMessage_body (M := unit) r body rest Hlen Hr Hp) as (r' & Hb & Hp' & E).
  exists r'. unfold handleUnknownEvent, receive. rewrite E. by destruct (json_Unmarshal body).
Qed.

End Loop.

(** ** The loop implements the specification *)

Lemma recvCommand_end r : rd_bytes r = [] -> proper r -> exists r' e, recvCommand r = (r', Err e).
Proof.
  unfold rd_bytes, proper. intros Hr Hp. destruct (rd_chunks r) as [|ch chs] eqn:E.
  - unfold recvCommand, read. rewrite E. eauto.
  - inv Hp. apply app_eq_nil in Hr as [-> _]. done.
Qed.

(** A command with a message: [Hgo] reads the command, the handler [h] reads
    the message. *)
Ltac known_command Hgo name frame h :=
  let r1 := fresh "r1" in
  destruct (Hgo name frame h) as (r1 & ? & -> & Hh & ? & ?);
  [done|simpl; lia|intros; cbn [perform]; by eapply receive_message|dispatch; eexists; by rewrite Hh].

Section Refine.
Context `{!Codec exitMessage, !Codec resizeMessage, !Codec aliveMessage, !Codec settingsMessage, !Codec rekeyMessage,
          !Codec unit, !Codec busMessage}.
Context `{!CodecOk exitMessage, !CodecOk resizeMessage, !CodecOk aliveMessage, !CodecOk settingsMessage,
          !CodecOk rekeyMessage}.

Lemma encode_command c b r rest :
  encode c = Some b -> rd_bytes r = b ++ rest -> proper r -> exists r1 command, recvCommand r = (r1, Ok command).
Proof.
  intros Henc Hr Hp.
  assert (Hb : exists command frame, b = command_frame command ++ frame /\ (String.length command <= 255)%nat).
  { destruct c as [m|m|m|m|m| | |command body]; cbn [encode] in Henc.
    1-5: destruct (encode_message_frame _ _ _ Henc) as [frame ->]; eexists _, frame; split; [reflexivity|simpl; lia].
    1-2: injection Henc as <-; eexists _, []; rewrite app_nil_r; split; [reflexivity|simpl; lia].
    destruct (bool_decide _); [done|]. destruct (Nat.ltb_spec 255 (String.length command)); [done|].
    destruct (receive_unknown command body b r rest (BusState (start_world false false) 0 false false []) Henc) as (frame & -> & _).
    by exists command, frame. }
  destruct Hb as (command & frame & -> & Hlen). rewrite <- app_assoc in Hr.
  destruct (recvCommand_frame r command _ Hr Hp Hlen) as (r1 & E & _). eauto.
Qed.

(** One pass of an active server over a command that is not the last. *)
Lemma bus_loop_pass fuel s envs i c b r rest st :
  encode c = Some b -> c <> CClose -> rd_bytes r = b ++ rest -> proper r ->
  w_active (bs_world (before (envs i) st)) = Some s ->
  exists r', bus_loop (S fuel) s envs i r st =
               bus_loop fuel s envs (S i) r' (perform s (envs i) c (before (envs i) st)) /\
    rd_bytes r' = rest /\ proper r'.
Proof.
  intros Henc Hc Hr Hp Hact.
  assert (Hgo : forall command frame (h : reader -> bus_state -> reader * bus_state),
    b = command_frame command ++ frame -> (String.length command <= 255)%nat ->
    (forall r1, rd_bytes r1 = frame ++ rest -> proper r1 ->
       exists r', h r1 (before (envs i) st) = (r', perform s (envs i) c (before (envs i) st)) /\
         rd_bytes r' = rest /\ proper r') ->
    exists r1 r', recvCommand r = (r1, Ok command) /\
      h r1 (before (envs i) st) = (r', perform s (envs i) c (before (envs i) st)) /\ rd_bytes r' = rest /\ proper r').
  { intros command frame h -> Hlen Hh. rewrite <- app_assoc in Hr.
    destruct (recvCommand_frame r command _ Hr Hp Hlen) as (r1 & E1 & Hb1 & Hp1).
    destruct (Hh r1 Hb1 Hp1) as (r' & ? & ? & ?). eauto 10. }
  cbn [bus_loop]. cbv zeta. rewrite (bool_decide_eq_true_2 _ Hact). cbn [negb].
  destruct c as [m|m|m|m|m| | |command body]; try done; cbn [encode] in Henc.
  1-5: destruct (encode_message_frame _ _ _ Henc) as [frame ->].
  - known_command Hgo "exit"%string frame handleExitEvent.
  - known_command Hgo "resize"%string frame (handleResizeEvent s (envs i)).
  - known_command Hgo "alive"%string frame (handleAliveEvent (envs i)).
  - known_command Hgo "setting"%string frame handleSettingEvent.
  - known_command Hgo "rekey"%string frame handleRekeyEvent.
  - injection Henc as <-. destruct (Hgo "detach"%string [] (fun r1 st1 => (r1, bus_detach s st1))) as (r1 & r' & -> & Hh & Hrest & Hp').
    + by rewrite app_nil_r.
    + simpl. lia.
    + intros r1 Hr1 Hp1. by exists r1.
    + dispatch. exists r'. injection Hh as <-. done.
  - destruct (bool_decide_reflect (command ∈ known_commands)) as [|Hk]; [done|].
    destruct (Nat.ltb_spec 255 (String.length command)); [done|]. cbn [orb] in Henc.
    destruct (receive_unknown command body b r rest (before (envs i) st) Henc) as (frame & -> & _).
    destruct (Hgo command frame (fun r1 st1 => handleUnknownEvent r1 st1)) as (r1 & r' & -> & Hh & Hrest & Hp'); [done|lia| |].
    + intros r1 Hr1 Hp1. destruct (receive_unknown command body _ r1 rest (before (envs i) st) Henc) as (frame' & Hf & Hh).
      apply app_inv_head in Hf as <-. by apply Hh.
    + unfold known_commands in Hk. repeat (rewrite not_elem_of_cons in Hk). destruct Hk as (? & ? & ? & ? & ? & ? & ? & _).
      dispatch. exists r'. by rewrite Hh.
Qed.

(** C2: however the transport cuts the client's commands into reads, the loop
    performs them one by one and in order, skips the ones it does not know, and
    stops after the command to close or when another server has become the
    active one.  The fuel is one pass per command and one for the end. *)
Theorem bus_loop_refines s envs i cs frames r st :
  mapM encode cs = Some frames -> rd_bytes r = concat frames -> proper r ->
  bus_loop (S (length cs)) s envs i r st = Some (perform_all s envs i cs st).
Proof.
  revert frames r st i. induction cs as [|c cs IH]; intros frames r st i Henc Hr Hp.
  { injection Henc as <-. cbn [bus_loop length]. by destruct (recvCommand_end r Hr Hp) as (r' & e & ->). }
  cbn [mapM] in Henc. apply bind_Some in Henc as (b & Hb & (bs' & Hbs & [= <-])%bind_Some).
  cbn [concat length perform_all] in *. cbv zeta.
  destruct (bool_decide_reflect (w_active (bs_world (before (envs i) st)) = Some s)) as [Hact|Hact]; cbn [negb].
  - assert (Hcc : c = CClose \/ c <> CClose) by (destruct c; first [by left | by right]). destruct Hcc as [->|Hc].
    + injection Hb as <-. destruct (recvCommand_frame r "close" _ Hr Hp ltac:(simpl; lia)) as (r1 & E1 & _).
      cbn [bus_loop]. rewrite E1. cbv zeta. rewrite (bool_decide_eq_true_2 _ Hact). cbn [negb]. dispatch. done.
    + destruct (bus_loop_pass (S (length cs)) s envs i c b r (concat bs') st Hb Hc Hr Hp Hact) as (r' & -> & Hr' & Hp').
      rewrite (IH bs' r' _ (S i) Hbs Hr' Hp'). by destruct c.
  - assert (Hcmd : exists r1 command, recvCommand r = (r1, Ok command)) by (by eapply encode_command).
    destruct Hcmd as (r1 & command & E1). cbn [bus_loop]. rewrite E1. cbv zeta.
    by rewrite (bool_decide_eq_false_2 _ Hact).
Qed.

End Refine.

(** ** The loop ends *)

Lemma ReadFull_length r n r' x : ReadFull r n = (r', x) -> (length (rd_bytes r') <= length (rd_bytes r))%nat.
Proof.
  intros H. destruct (Nat.le_gt_cases n (length (rd_bytes r))) as [Hn|Hn].
  - destruct (ReadFull_enough r n Hn) as (r1 & E & Hb & _). rewrite E in H. simplify_eq. rewrite Hb, length_drop. lia.
  - rewrite (ReadFull_short r n Hn) in H. simplify_eq. simpl. lia.
Qed.

Lemma ReadFull_proper r n r' x : ReadFull r n = (r', x) -> proper r -> proper r'.
Proof.
  intros H Hp. destruct (Nat.le_gt_cases n (length (rd_bytes r))) as [Hn|Hn].
  - destruct (ReadFull_enough r n Hn) as (r1 & E & _ & _ & Hp1). rewrite E in H. simplify_eq. auto.
  - rewrite (ReadFull_short r n Hn) in H. simplify_eq. constructor.
Qed.

Lemma recvCommand_shrinks r r' command :
  recvCommand r = (r', Ok command) -> proper r -> (length (rd_bytes r') < length (rd_bytes r))%nat /\ proper r'.
Proof.
  unfold recvCommand. intros H Hp. destruct (rd_bytes r) as [|b rest] eqn:Hr.
  - unfold read in H. assert (Hnil : rd_chunks r = []).
    { unfold rd_bytes, proper in *. destruct (rd_chunks r) as [|c cs]; [done|]. inv Hp.
      by apply app_eq_nil in Hr as [-> _]. }
    by rewrite Hnil in H.
  - destruct (read_one r b rest Hr Hp) as (r1 & E & Hb & Hp1). rewrite E in H.
    destruct (ReadFull r1 _) as [r2 [c|e]] eqn:E2; [|done]. injection H as <- _.
    pose proof (ReadFull_length _ _ _ _ E2). rewrite Hb in H. split; [simpl; lia|by eapply ReadFull_proper].
Qed.

Lemma recvMessage_shrinks {M} `{!Codec M} r r' (x : res M) :
  recvMessage r = (r', x) -> proper r -> (length (rd_bytes r') <= length (rd_bytes r))%nat /\ proper r'.
Proof.
  unfold recvMessage. intros H Hp. destruct (ReadFull r 4) as [r1 [l|e]] eqn:E1.
  2: { injection H as <- _. eauto using ReadFull_length, ReadFull_proper. }
  pose proof (ReadFull_length _ _ _ _ E1). pose proof (ReadFull_proper _ _ _ _ E1 Hp) as Hp1.
  destruct (ReadFull r1 _) as [r2 [body|e]] eqn:E2; pose proof (ReadFull_length _ _ _ _ E2);
    pose proof (ReadFull_proper _ _ _ _ E2 Hp1) as Hp2; repeat case_match; simplify_eq; (split; [lia|done]).
Qed.

Section Ends.
Context `{!Codec exitMessage, !Codec resizeMessage, !Codec aliveMessage, !Codec settingsMessage, !Codec rekeyMessage,
          !Codec unit, !Codec busMessage}.

Lemma receive_shrinks {M} `{!Codec M} r (f : M -> bus_state -> bus_state) st r' st' :
  receive r f st = (r', st') -> proper r -> (length (rd_bytes r') <= length (rd_bytes r))%nat /\ proper r'.
Proof.
  unfold receive. destruct (recvMessage r) as [r1 [m|e]] eqn:E; intros [= <- _]; by eapply recvMessage_shrinks.
Qed.

(** Whatever bytes arrive, valid or not, the loop ends: it never makes more
    passes than there are bytes, and one. *)
Theorem bus_loop_ends fuel s envs i r st :
  proper r -> (length (rd_bytes r) < fuel)%nat -> exists st', bus_loop fuel s envs i r st = Some st'.
Proof.
  revert i r st. induction fuel as [|fuel IH]; intros i r st Hp Hlen; [lia|].
  cbn [bus_loop]. destruct (recvCommand r) as [r1 [command|e]] eqn:E; [|eauto].
  apply recvCommand_shrinks in E as [Hlt Hp1]; [|done].
  assert (Hgo : forall p : reader * bus_state, (length (rd_bytes p.1) <= length (rd_bytes r1))%nat /\ proper p.1 ->
    exists st', bus_loop fuel s envs (S i) p.1 p.2 = Some st').
  { intros [r2 st2] [Hle Hp2]. apply IH; [done|]. simpl in *. lia. }
  assert (Hrecv : forall M (HM : Codec M) (f : M -> bus_state -> bus_state) st1,
    exists st', bus_loop fuel s envs (S i) (receive r1 f st1).1 (receive r1 f st1).2 = Some st').
  { intros M HM f st1. apply Hgo. destruct (receive r1 f st1) as [r2 st2] eqn:E2. by eapply receive_shrinks. }
  cbv zeta. repeat case_bool_decide; cbn [negb]; eauto; first [apply Hrecv | apply (Hgo (_, _)); simpl; auto].
Qed.

(** ** Who gets in *)

(** A client that announces no protocol version and a version before 0.1.6,
    or none that can be read, is refused before it can touch anything: the
    active server and its sessions stay as they are. *)
Theorem old_client_refused fuel s stream envs now ackOk r w m r1 :
  recvMessage (M := busMessage) r = (r1, Ok m) -> bm_ProtoVer m = 0 ->
  (forall v, parseTsshdVersion (bm_ClientVer m) = Some v -> version_number v < version_number (0, 1, 6)) ->
  exists why, handleBusEvent fuel s stream envs now ackOk r w = inl (why, w).
Proof.
  intros E Hp Hold. unfold handleBusEvent. rewrite E. unfold version_gate. rewrite Hp. simpl.
  destruct (parseTsshdVersion (bm_ClientVer m)) as [v|] eqn:Ev; [|eauto].
  specialize (Hold v eq_refl). rewrite compare_number; [|by eapply parse_version_ok|by unfold version_ok; simpl; lia].
  rewrite Z.sgn_neg by lia. simpl. eauto.
Qed.

End Ends.

(** ** Discarding pending input *)

Definition with_marker (m : bytes) (sess : session) : session :=
  Sess (ss_server sess) (ss_checker sess) (ss_ioStream sess) (ss_errStream sess) (ss_pty sess) (ss_size sess)
    (Some m) (ss_waitCancel sess).

(** [enablePendingInputDiscard] of the server [s]; [idx] is what
    [getNextDiscardMarkerIndex] returns, the marker that of [Marker].  The
    marker sent to the client, if any. *)
Definition enablePendingInputDiscard (s : Z) (keepPendingInput : bool) (idx : Z) (w : world) : world * option bytes :=
  if keepPendingInput then (w, None)
  else if bool_decide (w_sessions w = ∅) then (w, None)
  else
    let marker := discard_marker idx in
    (set_sessions ((fun sess => if bool_decide (ss_server sess = Some s) then with_marker marker sess else sess)
                     <$> w_sessions w) w, Some marker).

(** Only the sessions of the server are told to discard, and only with the
    marker that the client is told about. *)
Lemma discard_own_sessions s keep idx w w' m :
  enablePendingInputDiscard s keep idx w = (w', m) ->
  forall id sess', w_sessions w' !! id = Some sess' ->
  exists sess, w_sessions w !! id = Some sess /\ ss_server sess' = ss_server sess /\
    (sess' = sess \/ ss_server sess = Some s /\ ss_discardMarker sess' = m).
Proof.
  unfold enablePendingInputDiscard. destruct keep; [intros [= <- <-]; eauto|].
  case_bool_decide; [intros [= <- <-]; eauto|]. intros [= <- <-] id sess'. simpl. rewrite lookup_fmap.
  intros (sess & Hs & ->)%fmap_Some. exists sess. split; [done|]. case_bool_decide; simpl; eauto.
Qed.

(** ** Log messages for the client *)

(** The queue of [debug] or [warning]: the channel exists once the first
    message was logged.  [lq_dropped] is history. *)
Record log_queue := LogQueue {
  lq_chan : option (list string);
  lq_closed : bool;
  lq_dropped : nat
}.

(** Logging with [busClosingMu] held; [None] is the panic of sending on a
    closed channel. *)
Definition log_message (cap : nat) (busClosing : bool) (q : log_queue) (msg : string) : option log_queue :=
  let buf := default [] (lq_chan q) in
  let q1 := LogQueue (Some buf) (lq_closed q) (lq_dropped q) in
  if busClosing then Some q1
  else if lq_closed q then None
  else if (length buf <? cap)%nat then Some (LogQueue (Some (buf ++ [msg])) false (lq_dropped q))
  else Some (LogQueue (Some buf) false (S (lq_dropped q))).

(** The two kinds of messages, with the sizes of their channels; what they also
    write to the log file is not modelled. *)
Definition debug := log_message 100.
Definition warning := log_message 10.

(** The part of [handleCloseEvent] under the same mutex; [None] is the panic of
    closing a channel twice. *)
Definition log_close (busClosing : bool) (q : log_queue) : option (bool * log_queue) :=
  if busClosing then Some (true, q)
  else match lq_chan q with
       | None => Some (true, q)
       | Some _ => if lq_closed q then None else Some (true, LogQueue (lq_chan q) true (lq_dropped q))
       end.

Inductive log_event := LogMsg (msg : string) | LogTake | LogClose.

Definition log_step (cap : nat) (st : bool * log_queue) (e : log_event) : option (bool * log_queue) :=
  match e with
  | LogMsg msg => match log_message cap st.1 st.2 msg with Some q => Some (st.1, q) | None => None end
  | LogTake => Some (st.1, LogQueue (tail <$> lq_chan st.2) (lq_closed st.2) (lq_dropped st.2))
  | LogClose => log_close st.1 st.2
  end.

Definition log_ok (cap : nat) (st : bool * log_queue) : Prop :=
  (lq_closed st.2 = true -> st.1 = true) /\ (length (default [] (lq_chan st.2)) <= cap)%nat.

Lemma log_step_ok cap st e : log_ok cap st -> exists st', log_step cap st e = Some st' /\ log_ok cap st'.
Proof.
  destruct st as [closing [ch closed dropped]]. intros [Hc Hlen]. simpl in *. destruct e as [msg| |]; simpl.
  - unfold log_message. simpl. destruct closing; [eexists; split; [done|]; by split|].
    destruct closed; [by specialize (Hc eq_refl)|]. destruct (Nat.ltb_spec (length (default [] ch)) cap).
    + eexists. split; [done|]. split; [done|]. simpl. rewrite length_app. simpl. lia.
    + eexists. split; [done|]. by split.
  - eexists. split; [done|]. split; [done|]. simpl. destruct ch as [[|x l]|]; simpl in *; lia.
  - unfold log_close. simpl. destruct closing; [eexists; split; [done|]; by split|].
    destruct ch as [l|]; [|eexists; split; [done|]; by split].
    destruct closed; [by specialize (Hc eq_refl)|]. eexists. split; [done|]. by split.
Qed.

(** No sequence of log messages, deliveries and closings makes the process
    panic on a closed channel, and the queue never grows beyond its size. *)
Theorem logging_never_panics cap es :
  exists st, foldl (fun st e => st ≫= fun st => log_step cap st e) (Some (false, LogQueue None false 0)) es = Some st /\
    log_ok cap st.
Proof.
  assert (H : log_ok cap (false, LogQueue None false 0)) by (split; simpl; [done|lia]).
  revert H. generalize (false, LogQueue None false 0). induction es as [|e es IH]; intros st H; simpl; [eauto|].
  destruct (log_step_ok cap st e H) as (st' & -> & H'). by apply IH.
Qed.

(** ** Examples

    A compact encoding in the place of JSON; it only knows messages of a simple
    form. *)

Definition fits (n v : Z) : bool := (0 <=? v) && (v <? 2 ^ n).

#[local] Instance exit_codec : Codec exitMessage := {
  json_Marshal m := if fits 64 (xm_ID m) && (xm_ExitCode m =? 0) then Ok (be_put 8 (xm_ID m)) else Err (Plain "unsupported");
  json_Unmarshal b := Ok (ExitMessage (be_get b) 0)
}.

#[local] Instance alive_codec : Codec aliveMessage := {
  json_Marshal m := if fits 64 (al_Time m) then Ok (be_put 8 (al_Time m)) else Err (Plain "unsupported");
  json_Unmarshal b := Ok (AliveMessage (be_get b))
}.

#[local] Instance rekey_codec : Codec rekeyMessage := {
  json_Marshal m := Ok (rk_PubKey m);
  json_Unmarshal b := Ok (RekeyMessage b)
}.

#[local] Instance setting_codec : Codec settingsMessage := {
  json_Marshal m := match sm_KeepPendingInput m, sm_KeepPendingOutput m with
                    | Some true, None => Ok (bs "i")
                    | None, Some true => Ok (bs "o")
                    | _, _ => Err (Plain "unsupported")
                    end;
  json_Unmarshal b := if bool_decide (b = bs "i") then Ok (SettingsMessage (Some true) None)
                      else Ok (SettingsMessage None (Some true))
}.

#[local] Instance resize_codec : Codec resizeMessage := {
  json_Marshal m := if fits 64 (rm_ID m) && fits 16 (rm_Cols m) && fits 16 (rm_Rows m) && negb (rm_Redraw m)
                       && bool_decide (rm_Marker m = None)
                    then Ok (be_put 2 (rm_Cols m) ++ be_put 2 (rm_Rows m) ++ be_put 8 (rm_ID m))
                    else Err (Plain "unsupported");
  json_Unmarshal b := Ok (ResizeMessage (be_get (drop 4 b)) (be_get (take 2 b)) (be_get (take 2 (drop 2 b))) false None)
}.

#[local] Instance unit_codec : Codec unit := { json_Marshal _ := Ok []; json_Unmarshal _ := Ok tt }.

(** Old clients only: the body is the version. *)
#[local] Instance bus_codec : Codec busMessage := {
  json_Marshal m := Ok (bm_ClientVer m);
  json_Unmarshal b := Ok (BusMessage b 0 0 0 0)
}.

Lemma fits_spec n v : fits n v = true -> 0 <= v < 2 ^ n.
Proof. unfold fits. lia. Qed.

#[local] Instance exit_codec_ok : CodecOk exitMessage.
Proof.
  intros [id code] b. cbn -[be_put be_get]. destruct (fits 64 id && (code =? 0)) eqn:E; [|done]. intros Hb.
  assert (b = be_put 8 id) as -> by congruence.
  apply andb_true_iff in E as [Hid%fits_spec ->%Z.eqb_eq]. by rewrite be_get_put_small.
Qed.

#[local] Instance alive_codec_ok : CodecOk aliveMessage.
Proof.
  intros [t] b. cbn -[be_put be_get]. destruct (fits 64 t) eqn:E; [|done]. intros Hb.
  assert (b = be_put 8 t) as -> by congruence. apply fits_spec in E. by rewrite be_get_put_small.
Qed.

#[local] Instance rekey_codec_ok : CodecOk rekeyMessage.
Proof. intros [k] b. simpl. by intros [= <-]. Qed.

#[local] Instance setting_codec_ok : CodecOk settingsMessage.
Proof. intros [[[]|] [[]|]] b; simpl; intros [= <-]; done. Qed.

#[local] Instance resize_codec_ok : CodecOk resizeMessage.
Proof.
  intros [id cols rows redraw marker] b. cbn -[be_put be_get take drop]. destruct (_ && _) eqn:E; [|done]. intros Hb.
  assert (b = be_put 2 cols ++ be_put 2 rows ++ be_put 8 id) as -> by congruence. clear Hb.
  rewrite !andb_true_iff in E. destruct E as ((((Hid & Hc) & Hr) & Hre) & Hm).
  apply fits_spec in Hid, Hc, Hr. apply bool_decide_eq_true in Hm as ->. destruct redraw; [done|].
  rewrite (drop_app_length' _ _ 2), (take_app_length' _ _ 2) by (by rewrite length_be_put).
  change 4%nat with (2 + 2)%nat. rewrite <- drop_drop. rewrite (drop_app_length' (be_put 2 cols)) by (by rewrite length_be_put).
  rewrite (drop_app_length' (be_put 2 rows)), (take_app_length' (be_put 2 rows)) by (by rewrite length_be_put).
  by rewrite !be_get_put_small.
Qed.

Definition quiet : nat -> bus_env := fun i => BusEnv [] (1000 + Z.of_nat i) true.

(** Server 1 is active and has a session. *)
Definition example_world : world :=
  world_run [NewServer 1; InitBus 1 10 true; Server.NewSession 1 5 true (80, 24)] (start_world true true).

Definition example_commands : list bus_command :=
  [CAlive (AliveMessage 99); CUnknown "future" (bs "data"); CResize (ResizeMessage 5 100 30 false None);
   CSetting (SettingsMessage None (Some true)); CExit (ExitMessage 5 0); CDetach; CClose; CAlive (AliveMessage 100)].

Definition example_bytes : bytes := concat (default [] (mapM encode example_commands)).

Lemma bus_loop_refines_witness :
  exists st, bus_loop 9 1 quiet 0 (Reader ((fun b => [b]) <$> example_bytes) EOF) (BusState example_world 0 false false []) = Some st /\
    bs_effects st = [AliveReply 99; Resized 5 NoRequest [(100, 30)]; SessionClosed 5; DetachAck; Exiting] /\
    bs_keepPendingOutput st = true /\ bs_clientAliveTime st = 1000.
Proof.
  eexists. split.
  - apply (bus_loop_refines 1 quiet 0 example_commands (default [] (mapM encode example_commands))).
    + vm_compute. reflexivity.
    + vm_compute. reflexivity.
    + apply (bool_decide_unpack _). vm_compute. exact I.
  - vm_compute. auto.
Defined.

Lemma bus_loop_ends_witness :
  exists st, bus_loop 5 1 quiet 0 (Reader [["000"%char; "003"%char]; bs "xy"] EOF) (BusState example_world 0 false false []) = Some st.
Proof.
  apply (bus_loop_ends 5 1 quiet 0); [|vm_compute; lia]. apply (bool_decide_unpack _). vm_compute. exact I.
Defined.

Lemma old_client_refused_witness :
  exists why, handleBusEvent 9 2 20 quiet 0 true (Reader [message_frame (bs "0.1.5")] EOF) example_world = inl (why, example_world).
Proof.
  eapply (old_client_refused 9 2 20 quiet 0 true _ example_world (BusMessage (bs "0.1.5") 0 0 0 0)).
  - vm_compute. reflexivity.
  - reflexivity.
  - intros v Hv. vm_compute in Hv. injection Hv as <-. vm_compute. reflexivity.
Defined.
