(* ===== verification/Middleware.v ===== *)
(** * Middleware: sessions served by the embedding program ([middleware.go])

    A [middlewareSession] stands for the process of a session: its window size
    changes reach the handler through a channel of ten, which drops the oldest
    when it is full, and it is closed once, with the first exit code given. *)

From Stdlib Require Import ZArith Lia.
From stdpp Require Import base list sets.
From S2P Require Import Prelude.
Open Scope Z_scope.

Abbreviation Window := (Z * Z)%type.

(** [WithMiddleware] applies the middleware to the empty handler in turn. *)
Definition WithMiddleware {Handler : Type} (h0 : Handler) (mw : list (Handler -> Handler)) : Handler :=
  foldl (fun h m => m h) h0 mw.

Inductive resource := Context_ | StderrStream | StdoutStream | StdinStream | WaitCh.

#[export] Instance resource_eq_dec : EqDecision resource.
Proof. solve_decision. Defined.

(** [ms_released] lists what [Close] has closed, [ms_issued], [ms_delivered]
    and [ms_dropped] the window sizes given to [Resize], received by the
    handler and dropped; all four are history. *)
Record middlewareSession := MwSession {
  ms_window : Window;
  ms_sizeCh : list Window;
  ms_closed : bool;
  ms_exitCode : option Z;
  ms_released : list resource;
  ms_issued : list Window;
  ms_delivered : list Window;
  ms_dropped : list Window
}.

Definition newMiddlewareSession (cols rows : Z) : middlewareSession :=
  MwSession (cols, rows) [] false None [] [] [] [].

Definition kSizeChCap : nat := 10.

Definition set_channel (ch delivered dropped : list Window) (s : middlewareSession) : middlewareSession :=
  MwSession (ms_window s) ch (ms_closed s) (ms_exitCode s) (ms_released s) (ms_issued s) delivered dropped.

(** The handler receives [n] window sizes, or as many as there are. *)
Definition receive (n : nat) (s : middlewareSession) : middlewareSession :=
  set_channel (drop n (ms_sizeCh s)) (ms_delivered s ++ take n (ms_sizeCh s)) (ms_dropped s) s.

(** A send that does not block: [None] when the channel is full. *)
Definition try_send (w : Window) (s : middlewareSession) : option middlewareSession :=
  if (length (ms_sizeCh s) <? kSizeChCap)%nat
  then Some (set_channel (ms_sizeCh s ++ [w]) (ms_delivered s) (ms_dropped s) s) else None.

(** The receive that makes room. *)
Definition drop_oldest (s : middlewareSession) : middlewareSession :=
  match ms_sizeCh s with
  | [] => s
  | w :: ch => set_channel ch (ms_delivered s) (ms_dropped s ++ [w]) s
  end.

(** [Resize]; the handler receives [r1] sizes before the channel is drained and
    [r2] before the second attempt.  [false] is the error. *)
Definition Resize (cols rows : Z) (r1 r2 : nat) (s : middlewareSession) : middlewareSession * bool :=
  let w := (cols, rows) in
  let s0 := MwSession w (ms_sizeCh s) (ms_closed s) (ms_exitCode s) (ms_released s) (ms_issued s ++ [w])
              (ms_delivered s) (ms_dropped s) in
  match try_send w s0 with
  | Some s1 => (s1, true)
  | None =>
      let s2 := receive r2 (drop_oldest (receive r1 s0)) in
      match try_send w s2 with Some s3 => (s3, true) | None => (s2, false) end
  end.

Definition Close (s : middlewareSession) : middlewareSession :=
  if ms_closed s then s
  else MwSession (ms_window s) (ms_sizeCh s) true (ms_exitCode s)
         (ms_released s ++ [Context_; StderrStream; StdoutStream; StdinStream; WaitCh])
         (ms_issued s) (ms_delivered s) (ms_dropped s).

Definition Exit (code : Z) (s : middlewareSession) : middlewareSession :=
  Close (MwSession (ms_window s) (ms_sizeCh s) (ms_closed s)
           (match ms_exitCode s with None => Some code | c => c end)
           (ms_released s) (ms_issued s) (ms_delivered s) (ms_dropped s)).

(** The code that [sessionContext.Close] reports to the client. *)
Definition reported_code (s : middlewareSession) : Z := default (-1) (ms_exitCode s).

(** [resizeMutex] of the session makes the resizes one after the other. *)
Inductive mw_event :=
| MwResize (cols rows : Z) (r1 r2 : nat)
| MwReceive
| MwExit (code : Z)
| MwClose.

Definition mw_step (s : middlewareSession) (e : mw_event) : middlewareSession :=
  match e with
  | MwResize cols rows r1 r2 => (Resize cols rows r1 r2 s).1
  | MwReceive => receive 1 s
  | MwExit code => Exit code s
  | MwClose => Close s
  end.

Definition mw_run (s : middlewareSession) (es : list mw_event) : middlewareSession := foldl mw_step s es.

(** ** Window sizes *)

(** The last middleware of the list is outermost. *)
Lemma WithMiddleware_last {H} (h0 : H) mw m : WithMiddleware h0 (mw ++ [m]) = m (WithMiddleware h0 mw).
Proof. unfold WithMiddleware. by rewrite foldl_app. Qed.

(** What was received or is waiting: in order, ending with the current size. *)
Record sizes_ok (s : middlewareSession) : Prop := {
  so_cap : (length (ms_sizeCh s) <= kSizeChCap)%nat;
  so_order : ms_delivered s ++ ms_sizeCh s `sublist_of` ms_issued s;
  so_latest : ms_issued s <> [] -> last (ms_delivered s ++ ms_sizeCh s) = Some (ms_window s);
  so_count : length (ms_issued s) = (length (ms_delivered s) + length (ms_sizeCh s) + length (ms_dropped s))%nat
}.

Lemma receive_pending n s : ms_delivered (receive n s) ++ ms_sizeCh (receive n s) = ms_delivered s ++ ms_sizeCh s.
Proof. simpl. by rewrite <- app_assoc, take_drop. Qed.

Lemma receive_ok n s : sizes_ok s -> sizes_ok (receive n s).
Proof.
  intros [Hcap Hord Hlast Hcount]. split.
  - simpl. rewrite length_drop. lia.
  - by rewrite receive_pending.
  - by rewrite receive_pending.
  - simpl. rewrite Hcount, length_app, length_take, length_drop. lia.
Qed.

(** The channel that a second attempt finds has room. *)
Lemma room_after_drop r1 r2 s :
  (length (ms_sizeCh s) <= kSizeChCap)%nat ->
  (length (ms_sizeCh (receive r2 (drop_oldest (receive r1 s)))) < kSizeChCap)%nat.
Proof.
  intros Hcap. unfold drop_oldest. unfold kSizeChCap in *.
  destruct (ms_sizeCh (receive r1 s)) as [|w ch] eqn:E; simpl in *.
  - rewrite E, drop_nil. simpl. lia.
  - apply (f_equal length) in E. rewrite length_drop in *. simpl in E. lia.
Qed.

Lemma drop_oldest_pending s :
  ms_delivered (drop_oldest s) ++ ms_sizeCh (drop_oldest s) `sublist_of` ms_delivered s ++ ms_sizeCh s /\
  (length (ms_delivered (drop_oldest s)) + length (ms_sizeCh (drop_oldest s)) + length (ms_dropped (drop_oldest s)) =
   length (ms_delivered s) + length (ms_sizeCh s) + length (ms_dropped s))%nat /\
  ms_issued (drop_oldest s) = ms_issued s /\ ms_window (drop_oldest s) = ms_window s.
Proof.
  unfold drop_oldest. destruct (ms_sizeCh s) as [|w ch] eqn:E; [by rewrite E|]. simpl. split_and!; try done.
  - apply sublist_app; [done|]. by apply sublist_cons.
  - rewrite length_app. simpl. lia.
Qed.

(** A size that finds room is the last of those waiting. *)
Lemma try_send_ok w issued s :
  (length (ms_sizeCh s) < kSizeChCap)%nat -> ms_delivered s ++ ms_sizeCh s `sublist_of` issued ->
  ms_issued s = issued ++ [w] -> ms_window s = w ->
  length issued = (length (ms_delivered s) + length (ms_sizeCh s) + length (ms_dropped s))%nat ->
  exists s', try_send w s = Some s' /\ sizes_ok s'.
Proof.
  intros Hroom Hsub Hi Hw Hcnt. unfold try_send. rewrite (proj2 (Nat.ltb_lt _ _) Hroom). eexists. split; [done|].
  split; simpl; rewrite ?app_assoc, ?Hi, ?Hw, ?length_app; simpl.
  - lia.
  - by apply sublist_app.
  - intros _. apply last_snoc.
  - lia.
Qed.

Lemma Resize_ok cols rows r1 r2 s : sizes_ok s -> sizes_ok (Resize cols rows r1 r2 s).1 /\ (Resize cols rows r1 r2 s).2 = true.
Proof.
  intros [Hcap Hord Hlast Hcount]. unfold Resize. set (w := (cols, rows)). set (s0 := MwSession w _ _ _ _ _ _ _).
  destruct (try_send w s0) as [s1|] eqn:E1.
  - destruct (Nat.ltb_spec (length (ms_sizeCh s0)) kSizeChCap) as [Hlt|Hge].
    + destruct (try_send_ok w (ms_issued s) s0) as (s' & E & Hok); [done..|]. rewrite E in E1. by simplify_eq.
    + unfold try_send in E1. by rewrite (proj2 (Nat.ltb_ge _ _) Hge) in E1.
  - pose proof (room_after_drop r1 r2 s0 Hcap) as Hroom.
    destruct (drop_oldest_pending (receive r1 s0)) as (Hsub & Hlen & Hiss & Hwin).
    rewrite receive_pending in Hsub.
    destruct (try_send_ok w (ms_issued s) (receive r2 (drop_oldest (receive r1 s0)))) as (s' & -> & Hok); [done|..|done].
    + rewrite receive_pending. by etrans.
    + exact Hiss.
    + exact Hwin.
    + rewrite Hcount. revert Hlen. generalize (drop_oldest (receive r1 s0)). intros d Hlen. simpl in *.
      rewrite length_app, length_take, length_drop in *. lia.
Qed.

Lemma mw_run_sizes es s : sizes_ok s -> sizes_ok (mw_run s es).
Proof.
  revert s. induction es as [|e es IH]; intros s Hs; [done|]. apply IH. destruct e as [cols rows r1 r2| |code|]; simpl.
  - by apply Resize_ok.
  - by apply receive_ok.
  - unfold Exit, Close. simpl. destruct Hs. by destruct (ms_closed s).
  - unfold Close. destruct Hs. by destruct (ms_closed s).
Qed.

Lemma new_sizes_ok cols rows : sizes_ok (newMiddlewareSession cols rows).
Proof. split; simpl; [lia|constructor|done|done]. Qed.

(** However the handler's receives interleave with resizes, no resize
    fails, the handler sees sizes in the order they were set, and when it has
    received everything that is waiting the last size it saw is the current
    one.  At most ten wait. *)
Theorem resize_latest_delivered cols rows es cols' rows' r1 r2 :
  let s := mw_run (newMiddlewareSession cols rows) es in
  let '(s1, ok) := Resize cols' rows' r1 r2 s in
  ok = true /\ (length (ms_sizeCh s1) <= 10)%nat /\
  let s2 := receive 10 s1 in
  ms_sizeCh s2 = [] /\ last (ms_delivered s2) = Some (cols', rows') /\ ms_delivered s2 `sublist_of` ms_issued s2.
Proof.
  intros s. pose proof (Resize_ok cols' rows' r1 r2 s (mw_run_sizes es _ (new_sizes_ok cols rows))) as [Hok Hr].
  assert (Hw : ms_issued (Resize cols' rows' r1 r2 s).1 <> [] /\ ms_window (Resize cols' rows' r1 r2 s).1 = (cols', rows')).
  { clear. unfold Resize, try_send, drop_oldest. repeat case_match; simplify_eq; simpl; (split; [by destruct (ms_issued s)|done]). }
  destruct (Resize cols' rows' r1 r2 s) as [s1 ok]. simpl in *. destruct Hw as [Hne Hw].
  destruct Hok as [Hcap Hord Hlast _]. unfold kSizeChCap in Hcap. split_and!; [done|done| | |].
  - apply drop_ge. lia.
  - rewrite take_ge by lia. by rewrite Hlast, Hw.
  - by rewrite take_ge by lia.
Qed.

(** ** Closing *)

Lemma Resize_fields cols rows r1 r2 s :
  let s' := (Resize cols rows r1 r2 s).1 in
  ms_closed s' = ms_closed s /\ ms_released s' = ms_released s /\ ms_exitCode s' = ms_exitCode s.
Proof. unfold Resize, try_send, drop_oldest. simpl. repeat case_match; by simplify_eq. Qed.

Record closed_ok (s : middlewareSession) : Prop := {
  co_once : ms_released s = if ms_closed s then [Context_; StderrStream; StdoutStream; StdinStream; WaitCh] else []
}.

Lemma mw_run_closed es s : closed_ok s -> closed_ok (mw_run s es).
Proof.
  revert s. induction es as [|e es IH]; intros s Hs; [done|]. apply IH. destruct Hs as [Hs]. split.
  destruct e as [cols rows r1 r2| |code|]; simpl.
  - destruct (Resize_fields cols rows r1 r2 s) as (-> & -> & _). done.
  - done.
  - unfold Exit, Close. simpl. destruct (ms_closed s) eqn:E; simpl; rewrite ?E; by rewrite Hs.
  - unfold Close. destruct (ms_closed s) eqn:E; simpl; rewrite ?E; by rewrite Hs.
Qed.

Lemma Exit_code code s : ms_exitCode (Exit code s) = match ms_exitCode s with None => Some code | c => c end.
Proof. unfold Exit, Close. simpl. by destruct (ms_closed s). Qed.

Lemma mw_step_code s e :
  ms_exitCode (mw_step s e) =
  match e with MwExit code => match ms_exitCode s with None => Some code | c => c end | _ => ms_exitCode s end.
Proof.
  destruct e as [cols rows r1 r2| |code|]; simpl.
  - by destruct (Resize_fields cols rows r1 r2 s) as (_ & _ & ->).
  - done.
  - apply Exit_code.
  - unfold Close. by destruct (ms_closed s).
Qed.

(** Each stream of the session is closed at most once, and the client is
    told the first exit code the handler gave, or -1. *)
Theorem first_exit_code_reported cols rows es :
  let s := mw_run (newMiddlewareSession cols rows) es in
  NoDup (ms_released s) /\
  reported_code s = default (-1) (head (omap (fun e => match e with MwExit code => Some code | _ => None end) es)).
Proof.
  intros s. split.
  - destruct (mw_run_closed es (newMiddlewareSession cols rows)) as [H]; [done|]. fold s in H. rewrite H.
    destruct (ms_closed s); [|constructor]. apply (bool_decide_unpack _). vm_compute. exact I.
  - unfold reported_code. f_equal. unfold s. clear s.
    assert (H : forall st, ms_exitCode (mw_run st es) =
      match ms_exitCode st with
      | Some c => Some c
      | None => head (omap (fun e => match e with MwExit code => Some code | _ => None end) es)
      end).
    { induction es as [|e es IH]; intros st; simpl; [by destruct (ms_exitCode st)|].
      change (mw_run st (e :: es)) with (mw_run (mw_step st e) es). rewrite IH, mw_step_code.
      destruct e; destruct (ms_exitCode st) as [c|] eqn:E; done. }
    by rewrite H.
Qed.
