(* ===== verification/Handler.v ===== *)
(** * Handler: a session that is served by the embedding program
    ([middleware.go], [StartMiddleware] of [session.go])

    The handler is a program that reads, writes and ends a session: a tree of
    operations that branches on their answers.  It runs beside the goroutines
    that forward the session's streams, joined to them by three pipes, and beside
    the resizing and the closing of the session.  Shown here: what the handler
    writes reaches the forwarders, whole and in order, the session ends with the
    handler, and closing the session releases a handler wherever it waits, but
    for one that waits for a window size.

    A handler is one goroutine of finitely many operations; the goroutines that
    it may start itself are not part of this file. *)

From Stdlib Require Import ZArith Lia Ascii String.
From stdpp Require Import base list strings sets.
From S2P Require Import Prelude Config Start Requests Middleware.
Open Scope Z_scope.

(** ** Pipes ([io.Pipe]) *)

(** [pp_pending]: what is left of the write that waits, and whether a reader has
    met it; [pp_read]: everything that was read, is history. *)
Record pipe := Pipe { pp_pending : option (bytes * bool); pp_werr : bool; pp_rerr : bool; pp_read : bytes }.

Definition newPipe : pipe := Pipe None false false [].

Definition pipe_done (p : pipe) : bool := pp_werr p || pp_rerr p.

Definition close_writer (p : pipe) : pipe := Pipe (pp_pending p) true (pp_rerr p) (pp_read p).
Definition close_reader (p : pipe) : pipe := Pipe (pp_pending p) (pp_werr p) true (pp_read p).

(** A read into a buffer of [n] bytes; [None]: it waits. *)
Definition pipe_read (n : nat) (p : pipe) : option (pipe * res bytes) :=
  if pipe_done p then Some (p, Err (if pp_rerr p then ErrClosedPipe else EOF))
  else match pp_pending p with
       | None | Some ([], true) => None
       | Some (b, _) => Some (Pipe (Some (drop n b, true)) (pp_werr p) (pp_rerr p) (pp_read p ++ take n b), Ok (take n b))
       end.

(** A step of a write of [b]; [None]: it waits.  A write is over when a reader has
    taken all of it. *)
Definition pipe_write (b : bytes) (p : pipe) : pipe * option (res bytes) :=
  match pp_pending p with
  | Some ([], true) => (Pipe None (pp_werr p) (pp_rerr p) (pp_read p), Some (Ok []))
  | _ => if pipe_done p then (Pipe None (pp_werr p) (pp_rerr p) (pp_read p), Some (Err ErrClosedPipe))
         else match pp_pending p with
              | None => (Pipe (Some (b, false)) (pp_werr p) (pp_rerr p) (pp_read p), None)
              | Some _ => (p, None)
              end
  end.

(** ** Handlers *)

(** The methods of [Session] that do something; [ODone] waits for the end of
    [Context()], [OCtxErr] asks whether it has come, and [OSize] receives from the
    channel of [Pty()]. *)
Inductive sess_op :=
| OWrite (b : bytes)
| OStderr (b : bytes)
| ORead (n : nat)
| OCloseWrite
| OCloseErr
| OExit (code : Z)
| OClose
| ODone
| OCtxErr
| OSize.

Inductive answer := Res (a : res bytes) | Size (w : Window).

Definition as_res (x : answer) : res bytes := match x with Res a => a | Size _ => Ok [] end.

Inductive tree (A : Type) :=
| Ret (a : A)
| Vis (o : sess_op) (k : answer -> tree A).
Arguments Ret {A} a.
Arguments Vis {A} o k.

Fixpoint tree_bind {A B} (f : A -> tree B) (t : tree A) : tree B :=
  match t with
  | Ret a => f a
  | Vis o k => Vis o (fun r => tree_bind f (k r))
  end.

#[export] Instance tree_mret : MRet tree := fun A a => Ret a.
#[export] Instance tree_mbind : MBind tree := fun A B f t => tree_bind f t.

Definition call (o : sess_op) : tree (res bytes) := Vis o (fun x => Ret (as_res x)).

(** What [Session] tells about itself; [sd_window] is the first size. *)
Record session_data := SessionData {
  sd_pty : bool;
  sd_Subsystem : bytes;
  sd_Command : list bytes;
  sd_Environ : list bytes;
  sd_Term : bytes;
  sd_window : Window
}.

(** The last of the entries for a name of the map of variables. *)
Definition map_value (name : bytes) (envs : list (bytes * bytes)) : bytes :=
  default [] (snd <$> last (filter (fun nv : bytes * bytes => nv.1 = name) envs)).

(** [newMiddlewareSession]; the channels and streams are those of [Middleware]. *)
Definition newMiddlewareData (e : start_env) (q : start_request) : session_data :=
  let msg := sq_Msg q in
  SessionData (sq_Pty q) (st_Subs msg) (if st_Shell msg then [] else st_Name msg :: st_Args msg) (getEnvironments e msg)
    (map_value (bs "TERM") (st_Envs msg)) (sq_Cols q, sq_Rows q).

(** [handleX11Request] and [handleAgentRequest] add a variable. *)
Definition mw_append_env (env : bytes) (d : session_data) : session_data :=
  SessionData (sd_pty d) (sd_Subsystem d) (sd_Command d) (sd_Environ d ++ [env]) (sd_Term d) (sd_window d).

Abbreviation handler := (session_data -> tree unit).

Definition no_handler : handler := fun _ => Ret tt.

(** ** A running session *)

(** [rn_prog]: what the handler has still to do, [None] when its goroutine has
    ended.  [rn_ms]: the session without its streams.  [rn_log], what the handler
    has done and the answers, is history. *)
Record running := Running {
  rn_prog : option (tree unit);
  rn_in : pipe;
  rn_out : pipe;
  rn_err : pipe;
  rn_ms : middlewareSession;
  rn_log : list (sess_op * answer)
}.

Definition rn_closed (r : running) : bool := ms_closed (rn_ms r).
Definition rn_code (r : running) : option Z := ms_exitCode (rn_ms r).

(** [StartMiddleware]; [None] without a handler. *)
Definition StartMiddleware (h : option handler) (d : session_data) : option running :=
  match h with
  | None => None
  | Some h => Some (Running (Some (h d)) newPipe newPipe newPipe (newMiddlewareSession (sd_window d).1 (sd_window d).2) [])
  end.

Definition set_prog (p : option (tree unit)) (r : running) : running :=
  Running p (rn_in r) (rn_out r) (rn_err r) (rn_ms r) (rn_log r).
Definition set_in (p : pipe) (r : running) : running :=
  Running (rn_prog r) p (rn_out r) (rn_err r) (rn_ms r) (rn_log r).
Definition set_out (p : pipe) (r : running) : running :=
  Running (rn_prog r) (rn_in r) p (rn_err r) (rn_ms r) (rn_log r).
Definition set_err (p : pipe) (r : running) : running :=
  Running (rn_prog r) (rn_in r) (rn_out r) p (rn_ms r) (rn_log r).
Definition set_ms (s : middlewareSession) (r : running) : running :=
  Running (rn_prog r) (rn_in r) (rn_out r) (rn_err r) s (rn_log r).

(** The streams of a session that is closed are closed with it. *)
Definition mw_Close (r : running) : running :=
  if rn_closed r then r
  else Running (rn_prog r) (close_reader (rn_in r)) (close_writer (rn_out r)) (close_writer (rn_err r)) (Close (rn_ms r)) (rn_log r).

Definition swap_code (code : Z) (s : middlewareSession) : middlewareSession :=
  MwSession (ms_window s) (ms_sizeCh s) (ms_closed s) (match ms_exitCode s with None => Some code | c => c end)
    (ms_released s) (ms_issued s) (ms_delivered s) (ms_dropped s).

Definition mw_Exit (code : Z) (r : running) : running := mw_Close (set_ms (swap_code code (rn_ms r)) r).

(** The operation has its answer. *)
Definition answered (o : sess_op) (a : answer) (k : answer -> tree unit) (r : running) : running :=
  Running (Some (k a)) (rn_in r) (rn_out r) (rn_err r) (rn_ms r) (rn_log r ++ [(o, a)]).

Definition canceled (s : middlewareSession) : bool := bool_decide (Context_ ∈ ms_released s).

(** A step of the goroutine of [StartMiddleware]: the handler, then [Exit(0)]. *)
Definition handler_step (r : running) : running :=
  match rn_prog r with
  | None => r
  | Some (Ret _) => mw_Exit 0 (set_prog None r)
  | Some (Vis o k) =>
      match o with
      | OWrite b => match pipe_write b (rn_out r) with
                    | (p, None) => set_out p r
                    | (p, Some a) => answered o (Res a) k (set_out p r)
                    end
      | OStderr b => match pipe_write b (rn_err r) with
                     | (p, None) => set_err p r
                     | (p, Some a) => answered o (Res a) k (set_err p r)
                     end
      | ORead n => match pipe_read n (rn_in r) with
                   | None => r
                   | Some (p, a) => answered o (Res a) k (set_in p r)
                   end
      | OCloseWrite => answered o (Res (Ok [])) k (set_out (close_writer (rn_out r)) r)
      | OCloseErr => answered o (Res (Ok [])) k (set_err (close_writer (rn_err r)) r)
      | OExit code => answered o (Res (Ok [])) k (mw_Exit code r)
      | OClose => answered o (Res (Ok [])) k (mw_Close r)
      | ODone => if canceled (rn_ms r) then answered o (Res (Ok [])) k r else r
      | OCtxErr => answered o (Res (if canceled (rn_ms r) then Err (Plain "context canceled") else Ok [])) k r
      | OSize => match ms_sizeCh (rn_ms r) with
                 | [] => r
                 | w :: _ => answered o (Size w) k (set_ms (receive 1 (rn_ms r)) r)
                 end
      end
  end.

Definition handler_steps (n : nat) (r : running) : running := Nat.iter n handler_step r.

(** [Resize], while the handler makes [h1] steps before the channel is drained
    and [h2] before the second attempt to send. *)
Definition mw_Resize (cols rows : Z) (h1 h2 : nat) (r : running) : running :=
  let w := (cols, rows) in
  let s0 := MwSession w (ms_sizeCh (rn_ms r)) (ms_closed (rn_ms r)) (ms_exitCode (rn_ms r)) (ms_released (rn_ms r))
              (ms_issued (rn_ms r) ++ [w]) (ms_delivered (rn_ms r)) (ms_dropped (rn_ms r)) in
  match try_send w s0 with
  | Some s1 => set_ms s1 r
  | None =>
      let r1 := handler_steps h1 (set_ms s0 r) in
      let r2 := handler_steps h2 (set_ms (drop_oldest (rn_ms r1)) r1) in
      match try_send w (rn_ms r2) with Some s3 => set_ms s3 r2 | None => r2 end
  end.

(** The handler's goroutine, the forwarders that read its two outputs, the one
    that writes to its input and ends, the resizing of the session, and its
    closing. *)
Inductive run_event :=
| EHandler | EOut (n : nat) | EErr (n : nat) | EIn (b : bytes) | EInEnd | EResize (cols rows : Z) (h1 h2 : nat) | ESessionClose.

Definition run_step (r : running) (e : run_event) : running :=
  match e with
  | EHandler => handler_step r
  | EOut n => match pipe_read n (rn_out r) with None => r | Some (p, _) => set_out p r end
  | EErr n => match pipe_read n (rn_err r) with None => r | Some (p, _) => set_err p r end
  | EIn b => set_in (pipe_write b (rn_in r)).1 r
  | EInEnd => set_in (close_writer (rn_in r)) r
  | EResize cols rows h1 h2 => mw_Resize cols rows h1 h2 r
  | ESessionClose => mw_Close r
  end.

Definition run (es : list run_event) (r : running) : running := foldl run_step r es.

(** ** What the client sees *)

#[export] Instance sess_op_eq_dec : EqDecision sess_op.
Proof. solve_decision. Defined.

(** The rest of a program after the operations of a log. *)
Fixpoint follow {A} (t : tree A) (log : list (sess_op * answer)) {struct log} : option (tree A) :=
  match log with
  | [] => Some t
  | (o, a) :: log => match t with
                     | Ret _ => None
                     | Vis o' k => if decide (o = o') then follow (k a) log else None
                     end
  end.

Definition to_out (o : sess_op) : option bytes := match o with OWrite b => Some b | _ => None end.
Definition to_err (o : sess_op) : option bytes := match o with OStderr b => Some b | _ => None end.
Definition exits (o : sess_op) : option Z := match o with OExit code => Some code | _ => None end.

Definition written (sel : sess_op -> option bytes) (log : list (sess_op * answer)) : bytes := concat (omap (fun x => sel x.1) log).
Definition first_exit (log : list (sess_op * answer)) : option Z := head (omap (fun x => exits x.1) log).

Definition ending (o : sess_op) : bool := match o with OCloseWrite | OCloseErr | OExit _ | OClose => true | _ => false end.
Definition writes (o : sess_op) : bool := match o with OWrite _ | OStderr _ => true | _ => false end.

(** A program that writes nothing more. *)
Inductive silent : tree unit -> Prop :=
| silent_Ret a : silent (Ret a)
| silent_Vis o k : writes o = false -> (forall a, silent (k a)) -> silent (Vis o k).

(** A program that writes nothing after it has ended one of its outputs. *)
Inductive polite : tree unit -> Prop :=
| polite_Ret a : polite (Ret a)
| polite_Vis o k : ending o = false -> (forall a, polite (k a)) -> polite (Vis o k)
| polite_end o k : ending o = true -> (forall a, silent (k a)) -> polite (Vis o k).

Lemma follow_snoc {A} (t : tree A) log o a k : follow t log = Some (Vis o k) -> follow t (log ++ [(o, a)]) = Some (k a).
Proof.
  revert t. induction log as [|[o' a'] log IH]; intros t.
  - cbn. intros [= ->]. by rewrite decide_True.
  - cbn [app follow]. destruct t as [|o'' k']; [done|]. case_decide; [|done]. apply IH.
Qed.

Lemma written_snoc sel log o a : written sel (log ++ [(o, a)]) = written sel log ++ default [] (sel o).
Proof. unfold written. rewrite omap_app, concat_app. f_equal. cbn. by destruct (sel o); cbn; rewrite ?app_nil_r. Qed.

Lemma first_exit_snoc log o a : first_exit (log ++ [(o, a)]) = match first_exit log with Some c => Some c | None => exits o end.
Proof. unfold first_exit. rewrite omap_app. cbn. destruct (omap _ log); cbn; [by destruct (exits o)|done]. Qed.

(** The write that the program is at, and what its pipe holds of it. *)
Definition at_write (sel : sess_op -> option bytes) (t : tree unit) : option bytes :=
  match t with Vis o _ => sel o | Ret _ => None end.

Definition pipe_ok (sel : sess_op -> option bytes) (t : tree unit) (log : list (sess_op * answer)) (p : pipe) : Prop :=
  pipe_done p = false /\
  match pp_pending p with
  | None => pp_read p = written sel log
  | Some (rest, _) => exists b, at_write sel t = Some b /\ pp_read p ++ rest = written sel log ++ b
  end.

Definition pipe_quiet (sel : sess_op -> option bytes) (log : list (sess_op * answer)) (p : pipe) : Prop :=
  pp_pending p = None /\ pp_rerr p = false /\ pp_read p = written sel log.

(** A session before its output has ended, and after. *)
Inductive run_ok (t0 : tree unit) (r : running) : Prop :=
| run_open t : rn_prog r = Some t -> follow t0 (rn_log r) = Some t -> polite t -> rn_closed r = false -> rn_code r = None ->
    first_exit (rn_log r) = None -> pipe_ok to_out t (rn_log r) (rn_out r) -> pipe_ok to_err t (rn_log r) (rn_err r) -> run_ok t0 r
| run_ended t : rn_prog r = Some t -> follow t0 (rn_log r) = Some t -> silent t -> rn_code r = first_exit (rn_log r) ->
    (rn_closed r = true -> pp_werr (rn_out r) = true /\ pp_werr (rn_err r) = true) ->
    pipe_quiet to_out (rn_log r) (rn_out r) -> pipe_quiet to_err (rn_log r) (rn_err r) -> run_ok t0 r
| run_over u : rn_prog r = None -> follow t0 (rn_log r) = Some (Ret u) -> rn_closed r = true ->
    rn_code r = Some (default 0 (first_exit (rn_log r))) -> pp_werr (rn_out r) = true -> pp_werr (rn_err r) = true ->
    pipe_quiet to_out (rn_log r) (rn_out r) -> pipe_quiet to_err (rn_log r) (rn_err r) -> run_ok t0 r.

Lemma pipe_ok_quiet sel t log p : pipe_ok sel t log p -> at_write sel t = None -> pipe_quiet sel log p.
Proof.
  intros [Hd Hp] Ha. apply orb_false_iff in Hd as [_ Hr]. destruct (pp_pending p) as [[rest met]|] eqn:E; [|done].
  destruct Hp as (b & Hb & _). congruence.
Qed.

Lemma pipe_quiet_snoc sel log p o a : pipe_quiet sel log p -> sel o = None -> pipe_quiet sel (log ++ [(o, a)]) p.
Proof. intros (Hp & Hr & Hw) Ho. split_and!; [done|done|]. by rewrite written_snoc, Ho, app_nil_r. Qed.

(** Another operation follows. *)
Lemma pipe_ok_snoc sel o k log p a : pipe_ok sel (Vis o k) log p -> sel o = None -> pipe_ok sel (k a) (log ++ [(o, a)]) p.
Proof.
  intros Hp Ho. destruct (pipe_ok_quiet _ _ _ _ Hp Ho) as (Hn & _ & Hw). split; [apply Hp|].
  by rewrite Hn, written_snoc, Ho, app_nil_r.
Qed.

Lemma pipe_ok_close sel o k log p : pipe_ok sel (Vis o k) log p -> sel o = None -> pipe_quiet sel log (close_writer p).
Proof. intros Hp Ho. destruct (pipe_ok_quiet _ _ _ _ Hp Ho) as (Hn & Hr & Hw). done. Qed.

(** The two ends of a pipe with an open writer. *)
Lemma pipe_ok_read sel t log p n p' a : pipe_ok sel t log p -> pipe_read n p = Some (p', a) -> pipe_ok sel t log p'.
Proof.
  intros [Hd Hp]. unfold pipe_read. rewrite Hd. destruct (pp_pending p) as [[rest met]|] eqn:E; [|done].
  destruct Hp as (b & Hb & Hw). intros Hr. assert (p' = Pipe (Some (drop n rest, true)) (pp_werr p) (pp_rerr p) (pp_read p ++ take n rest)) as ->
    by (by destruct rest, met; simplify_eq).
  split; [done|]. exists b. cbn. split; [done|]. by rewrite <- app_assoc, take_drop.
Qed.

Lemma pipe_ok_write sel o b k log p : sel o = Some b -> pipe_ok sel (Vis o k) log p ->
  match pipe_write b p with
  | (p', None) => pipe_ok sel (Vis o k) log p'
  | (p', Some a) => a = Ok [] /\ pipe_ok sel (k (Res a)) (log ++ [(o, Res a)]) p'
  end.
Proof.
  intros Ho [Hd Hp]. unfold pipe_write. rewrite Hd. destruct (pp_pending p) as [[rest met]|] eqn:E.
  - destruct Hp as (b' & Hb & Hw). cbn [at_write] in Hb. rewrite Ho in Hb. injection Hb as <-.
    assert (Hsame : pipe_ok sel (Vis o k) log p) by (split; [done|]; rewrite E; by exists b).
    destruct rest as [|c rest], met; try done. split; [done|]. split; [done|]. cbn. rewrite written_snoc, Ho. cbn. by rewrite app_nil_r in Hw.
  - split; [done|]. exists b. cbn. split; [done|]. by rewrite Hp.
Qed.

(** The first [Close]. *)
Definition shut (s : middlewareSession) : middlewareSession :=
  MwSession (ms_window s) (ms_sizeCh s) true (ms_exitCode s)
    (ms_released s ++ [Context_; StderrStream; StdoutStream; StdinStream; WaitCh]) (ms_issued s) (ms_delivered s) (ms_dropped s).

Lemma mw_Close_open r : rn_closed r = false ->
  mw_Close r = Running (rn_prog r) (close_reader (rn_in r)) (close_writer (rn_out r)) (close_writer (rn_err r)) (shut (rn_ms r)) (rn_log r).
Proof. unfold mw_Close, rn_closed, Close. by intros ->. Qed.

Lemma mw_Exit_open c r : rn_closed r = false ->
  mw_Exit c r = Running (rn_prog r) (close_reader (rn_in r)) (close_writer (rn_out r)) (close_writer (rn_err r))
                  (shut (swap_code c (rn_ms r))) (rn_log r).
Proof. intros Hr. unfold mw_Exit. by rewrite mw_Close_open. Qed.

Lemma mw_Close_closed r : rn_closed r = true -> mw_Close r = r.
Proof. unfold mw_Close. by intros ->. Qed.

Lemma mw_Exit_closed c r : rn_closed r = true -> mw_Exit c r = set_ms (swap_code c (rn_ms r)) r.
Proof. intros Hr. unfold mw_Exit. by rewrite mw_Close_closed. Qed.

(** The goroutine's steps, while the output is open. *)
Lemma handler_step_open t0 r t :
  rn_prog r = Some t -> follow t0 (rn_log r) = Some t -> polite t -> rn_closed r = false -> rn_code r = None -> first_exit (rn_log r) = None ->
  pipe_ok to_out t (rn_log r) (rn_out r) -> pipe_ok to_err t (rn_log r) (rn_err r) -> run_ok t0 (handler_step r).
Proof.
  intros Hp Hf Hpol Hcl Hc Hx Ho He. destruct r as [prog inp out err ms log]. cbn in *. subst prog. unfold handler_step. cbn [rn_prog].
  unfold rn_closed, rn_code in Hc, Hcl. cbn in Hc, Hcl. destruct Hpol as [u|o k Hend Hk|o k Hend Hk].
  - pose proof (pipe_ok_quiet _ _ _ _ Ho eq_refl) as (? & ? & ?). pose proof (pipe_ok_quiet _ _ _ _ He eq_refl) as (? & ? & ?).
    rewrite mw_Exit_open by done. eapply run_over; cbn; try done. unfold rn_code. cbn. by rewrite Hx, Hc.
  - destruct o as [b|b|n| | | | | | |]; try done; cbn [rn_out rn_err rn_in rn_ms].
    + pose proof (pipe_ok_write to_out (OWrite b) b k log out eq_refl Ho) as Hw. destruct (pipe_write b out) as [p [a|]].
      * destruct Hw as [-> Hw]. eapply run_open; cbn; try done; [by eapply follow_snoc|by rewrite first_exit_snoc, Hx|by apply pipe_ok_snoc].
      * by eapply run_open; cbn; [done|done|apply polite_Vis|..].
    + pose proof (pipe_ok_write to_err (OStderr b) b k log err eq_refl He) as Hw. destruct (pipe_write b err) as [p [a|]].
      * destruct Hw as [-> Hw]. eapply run_open; cbn; try done; [by eapply follow_snoc|by rewrite first_exit_snoc, Hx|by apply pipe_ok_snoc].
      * by eapply run_open; cbn; [done|done|apply polite_Vis|..].
    + destruct (pipe_read n inp) as [[p a]|]; [|by eapply run_open; [done|done|apply polite_Vis|..]].
      eapply run_open; cbn; try done; [by eapply follow_snoc|by rewrite first_exit_snoc, Hx|by apply pipe_ok_snoc..].
    + destruct (canceled ms); [|by eapply run_open; [done|done|apply polite_Vis|..]].
      eapply run_open; cbn; try done; [by eapply follow_snoc|by rewrite first_exit_snoc, Hx|by apply pipe_ok_snoc..].
    + eapply run_open; cbn; try done; [by eapply follow_snoc|by rewrite first_exit_snoc, Hx|by apply pipe_ok_snoc..].
    + destruct (ms_sizeCh ms) as [|w ch]; [by eapply run_open; [done|done|apply polite_Vis|..]|].
      eapply run_open; cbn; try done; [by eapply follow_snoc|by rewrite first_exit_snoc, Hx|by apply pipe_ok_snoc..].
  - assert (to_out o = None /\ to_err o = None) as [Hto Hte] by (by destruct o).
    destruct (pipe_ok_close _ _ _ _ _ Ho Hto) as (Ho1 & Ho2 & Ho3). destruct (pipe_ok_close _ _ _ _ _ He Hte) as (He1 & He2 & He3).
    destruct o as [| | | | |c| | | |]; try done; rewrite ?mw_Exit_open, ?mw_Close_open by done; cbn; (eapply run_ended; cbn; [done|by eapply follow_snoc|done|unfold rn_code; cbn; by rewrite first_exit_snoc, Hx, Hc|
      unfold rn_closed; cbn; by rewrite ?Hcl| |];
      (split_and!; cbn; [done|done|]; by rewrite written_snoc, app_nil_r)).
Qed.

Lemma handler_step_ended t0 r t :
  rn_prog r = Some t -> follow t0 (rn_log r) = Some t -> silent t -> rn_code r = first_exit (rn_log r) ->
  (rn_closed r = true -> pp_werr (rn_out r) = true /\ pp_werr (rn_err r) = true) ->
  pipe_quiet to_out (rn_log r) (rn_out r) -> pipe_quiet to_err (rn_log r) (rn_err r) -> run_ok t0 (handler_step r).
Proof.
  intros Hp Hf Hs Hc Hcl Ho He. destruct r as [prog inp out err ms log]. cbn in *. subst prog. unfold handler_step. cbn [rn_prog].
  unfold rn_closed, rn_code in Hc, Hcl. cbn in Hc, Hcl.
  destruct Hs as [u|o k Hw Hk].
  - destruct (ms_closed ms) eqn:Hm; [destruct (Hcl eq_refl); rewrite mw_Exit_closed by done|rewrite mw_Exit_open by done];
      (eapply run_over; cbn; try done; rewrite Hc; by destruct (first_exit log)).
  - assert (to_out o = None /\ to_err o = None) as [Hto Hte] by (by destruct o).
    pose proof (fun a => pipe_quiet_snoc _ _ _ o a Ho Hto) as Ho'. pose proof (fun a => pipe_quiet_snoc _ _ _ o a He Hte) as He'.
    assert (Hfe : forall a, first_exit (log ++ [(o, a)]) = match first_exit log with Some c => Some c | None => exits o end)
      by (intros; apply first_exit_snoc).
    destruct o as [|b|n| | |c| | | |]; try done; cbn.
    + destruct (pipe_read n inp) as [[p a]|]; [|by eapply run_ended; [done|done|apply silent_Vis|..]].
      eapply run_ended; cbn; try done; [by eapply follow_snoc|unfold rn_code; cbn; rewrite Hfe, <- Hc; by destruct (ms_exitCode ms)].
    + eapply run_ended; cbn; try done; [by eapply follow_snoc|unfold rn_code; cbn; rewrite Hfe, <- Hc; by destruct (ms_exitCode ms)|by intros []%Hcl|apply Ho'].
    + eapply run_ended; cbn; try done; [by eapply follow_snoc|unfold rn_code; cbn; rewrite Hfe, <- Hc; by destruct (ms_exitCode ms)|by intros []%Hcl|apply He'].
    + destruct (ms_closed ms) eqn:Hm; [rewrite mw_Exit_closed by done|rewrite mw_Exit_open by done];
        (eapply run_ended; cbn; [done|by eapply follow_snoc|done|unfold rn_code; cbn; rewrite Hfe, <- Hc; by destruct (ms_exitCode ms)|auto|apply Ho'|apply He']).
    + destruct (ms_closed ms) eqn:Hm; [rewrite mw_Close_closed by done|rewrite mw_Close_open by done];
        (eapply run_ended; cbn; [done|by eapply follow_snoc|done|unfold rn_code; cbn; rewrite Hfe, <- Hc; by destruct (ms_exitCode ms)|auto|apply Ho'|apply He']).
    + destruct (canceled ms); [|by eapply run_ended; [done|done|apply silent_Vis|..]].
      eapply run_ended; cbn; try done; [by eapply follow_snoc|unfold rn_code; cbn; rewrite Hfe, <- Hc; by destruct (ms_exitCode ms)].
    + eapply run_ended; cbn; try done; [by eapply follow_snoc|unfold rn_code; cbn; rewrite Hfe, <- Hc; by destruct (ms_exitCode ms)].
    + destruct (ms_sizeCh ms) as [|w ch]; [by eapply run_ended; [done|done|apply silent_Vis|..]|].
      eapply run_ended; cbn; try done; [by eapply follow_snoc|unfold rn_code; cbn; rewrite Hfe, <- Hc; by destruct (ms_exitCode ms)].
Qed.

Lemma pipe_quiet_read sel log p n p' a : pipe_quiet sel log p -> pipe_read n p = Some (p', a) -> p' = p.
Proof. intros (Hp & _ & _). unfold pipe_read. rewrite Hp. by destruct (pipe_done p); intros; simplify_eq. Qed.

Lemma handler_step_ok t0 r : run_ok t0 r -> run_ok t0 (handler_step r).
Proof.
  intros [t|t|u Hp]; [by eapply handler_step_open|by eapply handler_step_ended|]. unfold handler_step. rewrite Hp. by eapply run_over.
Qed.

(** [Resize] keeps what its parts keep: the handler's steps, and changes of the
    sizes of a session. *)
Definition same_but_sizes (s s' : middlewareSession) : Prop :=
  ms_closed s' = ms_closed s /\ ms_exitCode s' = ms_exitCode s /\ ms_released s' = ms_released s.

Lemma try_send_same w s s' : try_send w s = Some s' -> same_but_sizes s s'.
Proof. unfold try_send. case_match; [|done]. by intros [= <-]. Qed.

Lemma drop_oldest_same s : same_but_sizes s (drop_oldest s).
Proof. unfold drop_oldest. by destruct (ms_sizeCh s). Qed.

Section Resizing.
Context (P : running -> Prop) (Hstep : forall r, P r -> P (handler_step r))
  (Hsizes : forall r s, same_but_sizes (rn_ms r) s -> P r -> P (set_ms s r)).

Lemma handler_steps_keep n r : P r -> P (handler_steps n r).
Proof. intros Hr. unfold handler_steps. induction n as [|n IH]; [done|]. cbn. by apply Hstep. Qed.

Lemma mw_Resize_keeps cols rows h1 h2 r : P r -> P (mw_Resize cols rows h1 h2 r).
Proof using All.
  intros Hr. unfold mw_Resize. cbv zeta. set (s0 := MwSession _ _ _ _ _ _ _ _).
  assert (H0 : same_but_sizes (rn_ms r) s0) by done.
  destruct (try_send (cols, rows) s0) as [s1|] eqn:E1.
  - apply Hsizes; [|done]. by apply try_send_same in E1.
  - set (r2 := handler_steps h2 _). assert (H2 : P r2).
    { apply handler_steps_keep, Hsizes; [apply drop_oldest_same|]. by apply handler_steps_keep, Hsizes. }
    destruct (try_send (cols, rows) (rn_ms r2)) as [s3|] eqn:E3; [|done]. apply Hsizes; [|done]. by apply try_send_same in E3.
Qed.

End Resizing.

Lemma run_ok_sizes t0 r s : same_but_sizes (rn_ms r) s -> run_ok t0 r -> run_ok t0 (set_ms s r).
Proof.
  intros (Hcl & Hcd & _). unfold rn_closed, rn_code.
  intros [t|t|u]; [eapply run_open|eapply run_ended|eapply run_over]; cbn; unfold rn_closed, rn_code in *; cbn; rewrite ?Hcl, ?Hcd; done.
Qed.

Lemma run_step_ok t0 r e : e <> ESessionClose -> run_ok t0 r -> run_ok t0 (run_step r e).
Proof.
  intros He Hr. destruct e as [|n|n|b| |cols rows h1 h2|]; [|..|done]; cbn [run_step].
  - by apply handler_step_ok.
  - destruct (pipe_read n (rn_out r)) as [[p a]|] eqn:E; [|done]. destruct Hr as [t ? ? ? ? ? ? Ho ?|t ? ? ? ? ? Ho ?|u ? ? ? ? ? ? Ho ?].
    + eapply run_open; cbn; try done. by eapply pipe_ok_read.
    + pose proof (pipe_quiet_read _ _ _ _ _ _ Ho E) as ->. by eapply run_ended.
    + pose proof (pipe_quiet_read _ _ _ _ _ _ Ho E) as ->. by eapply run_over.
  - destruct (pipe_read n (rn_err r)) as [[p a]|] eqn:E; [|done]. destruct Hr as [t ? ? ? ? ? ? ? Ho|t ? ? ? ? ? ? Ho|u ? ? ? ? ? ? ? Ho].
    + eapply run_open; cbn; try done. by eapply pipe_ok_read.
    + pose proof (pipe_quiet_read _ _ _ _ _ _ Ho E) as ->. by eapply run_ended.
    + pose proof (pipe_quiet_read _ _ _ _ _ _ Ho E) as ->. by eapply run_over.
  - destruct Hr; [by eapply run_open|by eapply run_ended|by eapply run_over].
  - destruct Hr; [by eapply run_open|by eapply run_ended|by eapply run_over].
  - apply mw_Resize_keeps; [intros; by apply handler_step_ok|intros; by apply run_ok_sizes|done].
Qed.

Lemma run_run_ok t0 es r : ESessionClose ∉ es -> run_ok t0 r -> run_ok t0 (run es r).
Proof.
  revert r. induction es as [|e es IH]; intros r Hin Hr; [done|]. apply not_elem_of_cons in Hin as [Hne Hin].
  apply (IH (run_step r e)); [done|]. by apply run_step_ok.
Qed.

Lemma start_ok h d r : StartMiddleware (Some h) d = Some r -> polite (h d) -> run_ok (h d) r.
Proof. intros [= <-] Hp. by eapply run_open. Qed.

Lemma handler_delivers h d es r0 :
  StartMiddleware (Some h) d = Some r0 -> polite (h d) -> ESessionClose ∉ es ->
  let r := run es r0 in
  rn_prog r = None ->
  (exists u, follow (h d) (rn_log r) = Some (Ret u)) /\
  pp_read (rn_out r) = written to_out (rn_log r) /\ pp_read (rn_err r) = written to_err (rn_log r) /\
  (forall n, pipe_read n (rn_out r) = Some (rn_out r, Err EOF) /\ pipe_read n (rn_err r) = Some (rn_err r, Err EOF)) /\
  rn_closed r = true /\ rn_code r = Some (default 0 (first_exit (rn_log r))).
Proof.
  intros Hs Hp Hes. cbv zeta. intros Hend.
  destruct (run_run_ok (h d) es r0 Hes (start_ok h d r0 Hs Hp)) as [t Ht|t Ht|u _ Hf Hcl Hc Ho He [_ [Hro Hrd]] [_ [Hre Hed]]]; [congruence..|].
  split_and!; [by exists u|done|done| |done|done].
  intros n. unfold pipe_read, pipe_done. by rewrite Ho, He, Hro, Hre.
Qed.


Lemma run_app es es' r : run (es ++ es') r = run es' (run es r).
Proof. unfold run. by rewrite foldl_app. Qed.

(** ** Release *)

(** A program that waits for no window size. *)
Inductive sizeless : tree unit -> Prop :=
| sizeless_Ret a : sizeless (Ret a)
| sizeless_Vis o k : o <> OSize -> (forall a, sizeless (k a)) -> sizeless (Vis o k).

(** The steps that a program makes in a closed session with these outputs. *)
Fixpoint steps_left (t : tree unit) (out err : pipe) : nat :=
  match t with
  | Ret _ => 1
  | Vis o k =>
      S match o with
        | OWrite b => match pipe_write b out with (p, Some a) => steps_left (k (Res a)) p err | _ => 0 end
        | OStderr b => match pipe_write b err with (p, Some a) => steps_left (k (Res a)) out p | _ => 0 end
        | ORead _ => steps_left (k (Res (Err ErrClosedPipe))) out err
        | OCtxErr => steps_left (k (Res (Err (Plain "context canceled")))) out err
        | _ => steps_left (k (Res (Ok []))) out err
        end
  end.

Definition left_of (r : running) : nat := match rn_prog r with None => 0 | Some t => steps_left t (rn_out r) (rn_err r) end.

(** A closed session has closed all that a handler may wait for but the sizes. *)
Definition released (r : running) : Prop :=
  rn_closed r = true -> pp_werr (rn_out r) = true /\ pp_werr (rn_err r) = true /\ pp_rerr (rn_in r) = true /\ canceled (rn_ms r) = true.

Definition code_told (r : running) : Prop :=
  rn_code r = match rn_prog r with None => Some (default 0 (first_exit (rn_log r))) | Some _ => first_exit (rn_log r) end.

Definition sizeless_run (r : running) : Prop := match rn_prog r with None => True | Some t => sizeless t end.

Record holds (r : running) : Prop := { hd_released : released r; hd_code : code_told r; hd_sizeless : sizeless_run r }.

Lemma pipe_write_flags b p : pp_werr (pipe_write b p).1 = pp_werr p /\ pp_rerr (pipe_write b p).1 = pp_rerr p.
Proof. unfold pipe_write. destruct p as [[[[|c rest] []]|] w r rd]; cbn; try done; by destruct (pipe_done _). Qed.

Lemma pipe_read_flags n p p' a : pipe_read n p = Some (p', a) -> pp_werr p' = pp_werr p /\ pp_rerr p' = pp_rerr p.
Proof. unfold pipe_read. destruct p as [[[[|c rest] []]|] w r rd]; cbn; destruct (pipe_done _); intros; by simplify_eq. Qed.

Lemma pipe_write_done b p : pp_werr p = true -> exists p' a, pipe_write b p = (p', Some a).
Proof.
  intros Hw. unfold pipe_write, pipe_done. rewrite Hw. cbn.
  destruct (pp_pending p) as [[[|c rest] []]|]; by eexists _, _.
Qed.

Lemma pipe_read_done n p p' a : pp_werr p = true -> pipe_read n p = Some (p', a) -> p' = p.
Proof. intros Hw. unfold pipe_read, pipe_done. rewrite Hw. by intros [= <- _]. Qed.

Lemma mw_Close_holds r : holds r -> holds (mw_Close r).
Proof.
  intros Hr. destruct (rn_closed r) eqn:E; [by rewrite mw_Close_closed|]. rewrite mw_Close_open by done. destruct Hr as [_ Hc Hs].
  split; [|done..]. intros _. split_and!; try done. unfold canceled. cbn. apply bool_decide_eq_true_2. set_solver.
Qed.

(** An operation that has its answer; [r] has the effects. *)
Lemma answered_holds r o a k : rn_prog r = Some (Vis o k) -> sizeless (Vis o k) -> released r ->
  rn_code r = match first_exit (rn_log r) with Some c => Some c | None => exits o end -> holds (answered o a k r).
Proof.
  intros Hp Hs Hr Hc. inversion Hs as [|? ? ? Hk]; subst. split; [done| |apply Hk].
  unfold code_told, rn_code in *. cbn. by rewrite first_exit_snoc.
Qed.

Lemma mw_Exit_holds c r : released r -> released (mw_Exit c r) /\ rn_prog (mw_Exit c r) = rn_prog r /\
  rn_log (mw_Exit c r) = rn_log r /\ rn_code (mw_Exit c r) = match rn_code r with Some c => Some c | None => Some c end.
Proof.
  intros Hr. destruct (rn_closed r) eqn:E.
  - rewrite mw_Exit_closed by done. by split_and!.
  - rewrite mw_Exit_open by done. split_and!; try done.
    intros _. split_and!; try done. unfold canceled. cbn. apply bool_decide_eq_true_2. set_solver.
Qed.

(** A change of the rest. *)
Lemma holds_other r r' : holds r -> rn_prog r' = rn_prog r -> rn_log r' = rn_log r -> rn_code r' = rn_code r -> released r' -> holds r'.
Proof. intros [_ Hc Hs] Hp Hl Hcd Hr. unfold code_told, sizeless_run in *. split; unfold code_told, sizeless_run; rewrite ?Hp, ?Hl, ?Hcd; done. Qed.

Lemma handler_step_holds r : holds r -> holds (handler_step r).
Proof.
  intros Hr. pose proof Hr as [Hrel Hc Hs]. unfold sizeless_run, code_told in Hs, Hc. unfold handler_step.
  destruct (rn_prog r) as [[u|o k]|] eqn:Hp; [| |done].
  { destruct (mw_Exit_holds 0 (set_prog None r) Hrel) as (H1 & H2 & H3 & H4). split; [done| |].
    - unfold code_told. rewrite H2, H3, H4. cbn. change (rn_code (set_prog None r)) with (rn_code r). rewrite Hc. by destruct (first_exit _).
    - unfold sizeless_run. by rewrite H2. }
  assert (Hcode : exits o = None -> rn_code r = match first_exit (rn_log r) with Some c => Some c | None => exits o end).
  { intros ->. rewrite Hc. by destruct (first_exit _). }
  destruct o as [b|b|n| | |c| | | |].
  - pose proof (pipe_write_flags b (rn_out r)) as [Hw _]. destruct (pipe_write b (rn_out r)) as [p [a|]]; cbn in Hw.
    + apply answered_holds; try done; [|by apply Hcode]. intros H. destruct (Hrel H) as (? & ? & ? & ?). cbn. by rewrite Hw.
    + apply (holds_other r); try done. intros H. destruct (Hrel H) as (? & ? & ? & ?). cbn. by rewrite Hw.
  - pose proof (pipe_write_flags b (rn_err r)) as [Hw _]. destruct (pipe_write b (rn_err r)) as [p [a|]]; cbn in Hw.
    + apply answered_holds; try done; [|by apply Hcode]. intros H. destruct (Hrel H) as (? & ? & ? & ?). cbn. by rewrite Hw.
    + apply (holds_other r); try done. intros H. destruct (Hrel H) as (? & ? & ? & ?). cbn. by rewrite Hw.
  - destruct (pipe_read n (rn_in r)) as [[p a]|] eqn:E; [|done]. destruct (pipe_read_flags _ _ _ _ E) as [_ Hf].
    apply answered_holds; try done; [|by apply Hcode]. intros H. destruct (Hrel H) as (? & ? & ? & ?). cbn. by rewrite Hf.
  - apply answered_holds; try done; [|by apply Hcode]. intros H. by destruct (Hrel H) as (? & ? & ? & ?).
  - apply answered_holds; try done; [|by apply Hcode]. intros H. by destruct (Hrel H) as (? & ? & ? & ?).
  - destruct (mw_Exit_holds c r Hrel) as (H1 & H2 & H3 & H4).
    apply answered_holds; [congruence|done|done|]. rewrite H3, H4, Hc. cbn. by destruct (first_exit _).
  - destruct (mw_Close_holds r Hr) as [H1 H2 H3]. apply answered_holds; try done; unfold mw_Close; destruct (rn_closed r); cbn; try done.
    + by apply Hcode.
    + unfold rn_code, Close in *. destruct (ms_closed _); cbn; by apply Hcode.
  - destruct (canceled (rn_ms r)); [|done]. apply answered_holds; try done. by apply Hcode.
  - apply answered_holds; try done. by apply Hcode.
  - destruct (ms_sizeCh (rn_ms r)) as [|w ch]; [done|]. apply answered_holds; try done. by apply Hcode.
Qed.

(** In a closed session every step of the handler is one of its last. *)
Lemma handler_step_left r : holds r -> rn_closed r = true ->
  rn_closed (handler_step r) = true /\ left_of (handler_step r) = pred (left_of r).
Proof.
  intros [Hrel _ Hs] Hcl. destruct (Hrel Hcl) as (Hwo & Hwe & Hri & Hca). unfold handler_step, left_of at 2.
  unfold sizeless_run in Hs. destruct (rn_prog r) as [[u|o k]|] eqn:Hp; [| |split; [done|]; unfold left_of; by rewrite Hp].
  { rewrite mw_Exit_closed by done. done. }
  destruct o as [b|b|n| | |c| | | |]; cbn [steps_left pred].
  - destruct (pipe_write_done b (rn_out r) Hwo) as (p & a & E). by rewrite E.
  - destruct (pipe_write_done b (rn_err r) Hwe) as (p & a & E). by rewrite E.
  - unfold pipe_read, pipe_done. rewrite Hri, orb_true_r. done.
  - split; [done|]. unfold left_of. cbn. by replace (close_writer (rn_out r)) with (rn_out r) by (unfold close_writer; rewrite <- Hwo; by destruct (rn_out r)).
  - split; [done|]. unfold left_of. cbn. by replace (close_writer (rn_err r)) with (rn_err r) by (unfold close_writer; rewrite <- Hwe; by destruct (rn_err r)).
  - by rewrite mw_Exit_closed.
  - by rewrite mw_Close_closed.
  - by rewrite Hca.
  - by rewrite Hca.
  - by inversion Hs.
Qed.

Lemma holds_sizes r s : same_but_sizes (rn_ms r) s -> holds r -> holds (set_ms s r).
Proof.
  intros (Hcl & Hcd & Hre) Hr. apply (holds_other r); try done. destruct Hr as [Hrel _ _]. unfold released, rn_closed, canceled in *. cbn.
  by rewrite Hcl, Hre.
Qed.

Lemma run_step_holds r e : holds r -> holds (run_step r e).
Proof.
  intros Hr. pose proof (hd_released r Hr) as Hrel. destruct e as [|n|n|b| |cols rows h1 h2|]; cbn [run_step].
  - by apply handler_step_holds.
  - destruct (pipe_read n (rn_out r)) as [[p a]|] eqn:E; [|done]. destruct (pipe_read_flags _ _ _ _ E) as [Hf _].
    apply (holds_other r); try done. intros H. destruct (Hrel H) as (? & ? & ? & ?). cbn. by rewrite Hf.
  - destruct (pipe_read n (rn_err r)) as [[p a]|] eqn:E; [|done]. destruct (pipe_read_flags _ _ _ _ E) as [Hf _].
    apply (holds_other r); try done. intros H. destruct (Hrel H) as (? & ? & ? & ?). cbn. by rewrite Hf.
  - apply (holds_other r); try done. intros H. destruct (Hrel H) as (? & ? & ? & ?). cbn. by rewrite (proj2 (pipe_write_flags _ _)).
  - by apply (holds_other r).
  - apply mw_Resize_keeps; [apply handler_step_holds|intros; by apply holds_sizes|done].
  - by apply mw_Close_holds.
Qed.

Lemma run_holds es r : holds r -> holds (run es r).
Proof. revert r. induction es as [|e es IH]; intros r Hr; [done|]. by apply (IH (run_step r e)), run_step_holds. Qed.

Definition is_turn (e : run_event) : nat := match e with EHandler => 1 | _ => 0 end.

(** The steps of the handler's goroutine in a schedule. *)
Definition turns (es : list run_event) : nat := list_sum (is_turn <$> es).

Lemma run_step_left r e : holds r -> rn_closed r = true ->
  rn_closed (run_step r e) = true /\ (left_of (run_step r e) <= left_of r - is_turn e)%nat.
Proof.
  intros Hr Hcl. destruct (hd_released r Hr Hcl) as (Hwo & Hwe & _ & _). destruct e as [|n|n|b| |cols rows h1 h2|]; cbn [run_step is_turn];
    rewrite ?Nat.sub_0_r.
  - destruct (handler_step_left r Hr Hcl) as [? ->]. split; [done|lia].
  - destruct (pipe_read n (rn_out r)) as [[p a]|] eqn:E; [|done]. by rewrite (pipe_read_done _ _ _ _ Hwo E).
  - destruct (pipe_read n (rn_err r)) as [[p a]|] eqn:E; [|done]. by rewrite (pipe_read_done _ _ _ _ Hwe E).
  - done.
  - done.
  - apply (mw_Resize_keeps (fun r' => holds r' /\ rn_closed r' = true /\ (left_of r' <= left_of r)%nat)); [| |done].
    + intros r' (H1 & H2 & H3). destruct (handler_step_left r' H1 H2) as [H4 H5]. split_and!; [by apply handler_step_holds|done|lia].
    + intros r' s' Hs (H1 & H2 & H3). split_and!; [by apply holds_sizes| |done]. unfold rn_closed. cbn. by rewrite (proj1 Hs).
  - by rewrite mw_Close_closed.
Qed.

Lemma run_left es r : holds r -> rn_closed r = true -> rn_closed (run es r) = true /\ (left_of (run es r) <= left_of r - turns es)%nat.
Proof.
  revert r. induction es as [|e es IH]; intros r Hr Hcl; [cbn; split; [done|lia]|].
  destruct (run_step_left r e Hr Hcl) as [H1 H2]. destruct (IH _ (run_step_holds r e Hr) H1) as [H3 H4].
  split; [done|]. change (run (e :: es) r) with (run es (run_step r e)).
  change (turns (e :: es)) with (is_turn e + turns es)%nat. lia.
Qed.

Lemma left_of_zero r : left_of r = O -> rn_prog r = None.
Proof. unfold left_of. by destruct (rn_prog r) as [[u|o k]|]. Qed.


(** The channel of sizes is never closed: a handler that has taken all of them
    waits for the next, closed or not, until there is one. *)
Lemma size_waits r k es :
  rn_prog r = Some (Vis OSize k) -> ms_sizeCh (rn_ms r) = [] -> (forall cols rows h1 h2, EResize cols rows h1 h2 ∉ es) ->
  rn_prog (run es r) = Some (Vis OSize k).
Proof.
  revert r. induction es as [|e es IH]; intros r Hp Hch Hes; [done|].
  assert (Hone : rn_prog (run_step r e) = Some (Vis OSize k) /\ ms_sizeCh (rn_ms (run_step r e)) = []).
  { destruct e as [|n|n|b| |cols rows h1 h2|]; cbn [run_step]; try done.
    - unfold handler_step. by rewrite Hp, Hch.
    - by destruct (pipe_read n (rn_out r)) as [[p a]|].
    - by destruct (pipe_read n (rn_err r)) as [[p a]|].
    - exfalso. apply (Hes cols rows h1 h2). left.
    - unfold mw_Close, Close. by destruct (rn_closed r), (ms_closed (rn_ms r)). }
  destruct Hone as [H1 H2]. apply (IH (run_step r e)); [done|done|]. intros cols rows h1 h2 Hin. apply (Hes cols rows h1 h2). by right.
Qed.

(** ** Programs in parts *)

Lemma follow_bind {A B} (t : tree A) (f : A -> tree B) log b :
  follow (t ≫= f) log = Some (Ret b) ->
  exists log1 log2 a, log = log1 ++ log2 /\ follow t log1 = Some (Ret a) /\ follow (f a) log2 = Some (Ret b).
Proof.
  revert log. induction t as [a|o k IH]; intros log.
  - intros Hf. by exists [], log, a.
  - destruct log as [|[o' x] log]; cbn; [done|]. case_decide as Ho; [|done]. subst o'. intros Hf.
    destruct (IH x log Hf) as (log1 & log2 & a & -> & H1 & H2). exists ((o, x) :: log1), log2, a. cbn. by rewrite decide_True.
Qed.

(** A part that ends no output. *)
Inductive plain {A} : tree A -> Prop :=
| plain_Ret a : plain (Ret a)
| plain_Vis o k : ending o = false -> (forall a, plain (k a)) -> plain (Vis o k).

Lemma polite_bind {A} (t : tree A) (f : A -> tree unit) : plain t -> (forall a, polite (f a)) -> polite (t ≫= f).
Proof. intros Ht Hf. induction Ht as [a|o k Ho _ IH]; [apply Hf|]. by apply polite_Vis. Qed.

Lemma plain_call o : ending o = false -> plain (call o).
Proof. intros Ho. apply plain_Vis; [done|]. intros a. constructor. Qed.

Lemma follow_call o log r : follow (call o) log = Some (Ret r) -> exists x, log = [(o, x)] /\ as_res x = r.
Proof.
  destruct log as [|[o' x] log]; cbn; [done|]. case_decide as Ho; [subst o'|done].
  destruct log as [|[o' y] log]; cbn; [by intros [= <-]; exists x|done].
Qed.

Lemma plain_exits {A} (t : tree A) log a : plain t -> follow t log = Some (Ret a) -> first_exit log = None.
Proof.
  intros Ht. revert log. induction Ht as [a'|o k Ho _ IH]; intros log.
  - destruct log as [|[o x] log]; [done|]. by cbn.
  - destruct log as [|[o' x] log]; cbn; [done|]. case_decide as Heq; [subst o'|done]. intros Hf. unfold first_exit. cbn.
    destruct o; (done || by apply (IH x)).
Qed.

Lemma first_exit_app log log' : first_exit (log ++ log') = match first_exit log with Some c => Some c | None => first_exit log' end.
Proof. unfold first_exit. rewrite omap_app. by destruct (omap _ log). Qed.

Lemma written_app sel log log' : written sel (log ++ log') = written sel log ++ written sel log'.
Proof. unfold written. by rewrite omap_app, concat_app. Qed.

(** ** Example *)

Definition example_handler : handler := fun _ =>
  call (OWrite (bs "out")) ≫= fun _ => call (OStderr (bs "err")) ≫= fun _ => call (OExit 7) ≫= fun _ => mret tt.

Definition example_data : session_data := SessionData false [] [] [] [] (80, 24).

(** The client reads the output in two parts. *)
Definition example_run : list run_event :=
  [EHandler; EOut 2; EHandler; EOut 2; EHandler; EHandler; EErr 100; EHandler; EHandler; EHandler].

Lemma example_polite : polite (example_handler example_data).
Proof.
  repeat (apply polite_bind; [by apply plain_call|]; intros _). apply polite_end; [done|]. intros _. apply silent_Ret.
Qed.

(** A handler that waits for the end of its session, and then writes. *)
Definition waiting_handler : handler := fun _ =>
  call (OWrite (bs "ready")) ≫= fun _ => call ODone ≫= fun _ => call (OWrite (bs "bye")) ≫= fun _ => mret tt.


