(* ===== verification/Examples.v ===== *)
(** * Examples: the programs under [src/examples]

    [hello] greets and asks for a name, [sshd] runs the command of the session,
    [wish] does the first of these in two servers and hands a session over to a
    tsshd of its own.  Their handlers are programs of [Handler]. *)

From Stdlib Require Import ZArith Lia Ascii String.
From stdpp Require Import base list strings sets.
From S2P Require Import Prelude GoStrings Decimal Config Start Requests Ports Main Middleware Handler.
Open Scope Z_scope.

Definition CRLF : bytes := [CR; LF].

(** ** A conversation ([hello], [wish]) *)

Section Conversation.
(** [term.ReadLine] with a prompt, and the text of an error. *)
Context (ReadLine : bytes -> tree (res bytes)) (err_text : goerr -> bytes).

Definition kPrompt : bytes := bs "What's your name? ".

Definition nice_to_meet (name : bytes) : bytes := bs "Nice to meet you, " ++ name ++ bs ". Goodbye!" ++ CRLF.

Definition helloMiddleware (next : handler) : handler := fun _ =>
  call (OWrite (bs "Hello!" ++ CRLF)) ≫= fun _ =>
  ReadLine kPrompt ≫= fun line =>
  match line with
  | Err err => call (OWrite (bs "ReadLine error: " ++ err_text err ++ CRLF)) ≫= fun _ => mret tt
  | Ok name => call (OWrite (nice_to_meet name)) ≫= fun _ => mret tt
  end.

(** [typ] is the name of the session's type. *)
Definition handleBusiness (typ : bytes) : tree bool :=
  call (OWrite (bs "Hello! My type is " ++ typ ++ bs "." ++ CRLF)) ≫= fun _ =>
  ReadLine kPrompt ≫= fun line =>
  match line with
  | Err err => call (OWrite (bs "term.ReadLine error: " ++ err_text err)) ≫= fun _ => mret true
  | Ok name => call (OWrite (nice_to_meet name)) ≫= fun _ => mret true
  end.

(** The middleware of [wish] in either server: [next] only if the business is
    not done. *)
Definition businessMiddleware (typ : bytes) (next : handler) : handler := fun d =>
  handleBusiness typ ≫= fun handled => if handled : bool then mret tt else next d.

Definition hello_reply (line : res bytes) : bytes :=
  match line with Err err => bs "ReadLine error: " ++ err_text err ++ CRLF | Ok name => nice_to_meet name end.

(** A client of [hello] reads the greeting, what the terminal writes while the
    line is read, and the answer to that line; the exit code is 0. *)
Theorem hello_conversation d es r0 :
  plain (ReadLine kPrompt) -> StartMiddleware (Some (WithMiddleware no_handler [helloMiddleware])) d = Some r0 -> ESessionClose ∉ es ->
  rn_prog (run es r0) = None ->
  exists log line, follow (ReadLine kPrompt) log = Some (Ret line) /\
    pp_read (rn_out (run es r0)) = bs "Hello!" ++ CRLF ++ written to_out log ++ hello_reply line /\ rn_code (run es r0) = Some 0.
Proof.
  intros Hpl Hs Hes Hend. set (h := WithMiddleware no_handler [helloMiddleware]) in *.
  assert (Hpol : polite (h d)).
  { apply polite_bind; [by apply plain_call|]. intros _. apply polite_bind; [done|].
    intros [name|err]; (apply polite_bind; [by apply plain_call|]; intros _; apply polite_Ret). }
  destruct (handler_delivers h d es r0 Hs Hpol Hes Hend) as ((u & Hf) & Ho & _ & _ & _ & Hc).
  destruct (follow_bind _ _ _ _ Hf) as (l1 & l2 & a1 & El & H1 & H2). apply follow_call in H1 as (x1 & H1 & _).
  destruct (follow_bind _ _ _ _ H2) as (l3 & l4 & line & -> & H3 & H4). exists l3, line. split; [done|].
  assert (exists a, l4 = [(OWrite (hello_reply line), a)]) as (a & ->).
  { destruct line; destruct (follow_bind _ _ _ _ H4) as (l5 & l6 & a2 & -> & (x2 & H5 & _)%follow_call & H6); exists x2; subst l5; by destruct l6 as [|[]]. }
  rewrite Ho, Hc, El, H1, !written_app, !first_exit_app, (plain_exits _ _ _ Hpl H3). split; [|done].
  unfold written at 1 3. cbn. by rewrite app_nil_r.
Qed.

End Conversation.

(** ** Running a command ([sshd]) *)

Inductive wait_result := WaitOk | WaitExit (code : Z) | WaitError.

(** The environment of the example, and what starting and waiting for the
    command meets. *)
Record sshd_env := SshdEnv {
  sh_SHELL : bytes;
  sh_windows : bool;
  sh_ptyErr : option bytes;
  sh_stdinErr : option bytes;
  sh_startErr : option bytes;
  sh_wait : wait_result
}.

Definition sshd_cmd (e : sshd_env) (d : session_data) : Cmd :=
  match sd_Command d with
  | [] => let shell := match sh_SHELL e with
                       | [] => if sh_windows e then bs "powershell" else bs "/bin/sh"
                       | s => s
                       end in Command shell [shell] (Some (sd_Environ d))
  | name :: args => Command name (name :: args) (Some (sd_Environ d))
  end.

(** [pty.Winsize]: sixteen bits each. *)
Definition winsize (w : Window) : Z * Z := (u16 w.1, u16 w.2).

Definition exit_with (msg : bytes) (code : Z) : tree unit :=
  call (OStderr msg) ≫= fun _ => call (OExit code) ≫= fun _ => mret tt.

(** After [cmd.Wait]. *)
Definition sshd_finish (w : wait_result) : tree unit :=
  match w with
  | WaitOk => mret tt
  | WaitExit code => call (OExit code) ≫= fun _ => mret tt
  | WaitError => call (OExit 204) ≫= fun _ => mret tt
  end.

(** The handler; the goroutines that copy its input and output are below. *)
Definition sshdMiddleware (e : sshd_env) (next : handler) : handler := fun d =>
  call (OWrite (bs "--- Welcome to tsshd (Custom SSH Application) ---" ++ CRLF)) ≫= fun _ =>
  if sd_pty d then
    match sh_ptyErr e with
    | Some err => exit_with (bs "start pty failed: " ++ err ++ [LF]) 201
    | None => call OCloseErr ≫= fun _ => sshd_finish (sh_wait e)
    end
  else
    match sh_stdinErr e with
    | Some err => exit_with (bs "stdin pipe failed: " ++ err ++ [LF]) 202
    | None =>
        match sh_startErr e with
        | Some err => exit_with (bs "start cmd failed: " ++ err ++ [LF]) 203
        | None => sshd_finish (sh_wait e)
        end
    end.

(** The code that the client should be told. *)
Definition sshd_code (e : sshd_env) (d : session_data) : Z :=
  let waited := match sh_wait e with WaitOk => 0 | WaitExit code => code | WaitError => 204 end in
  if sd_pty d then match sh_ptyErr e with Some _ => 201 | None => waited end
  else match sh_stdinErr e, sh_startErr e with
       | Some _, _ => 202
       | None, Some _ => 203
       | None, None => waited
       end.

Lemma first_exit_call (o : sess_op) log (f : res bytes -> tree unit) u :
  follow (call o ≫= f) log = Some (Ret u) ->
  exists a log', follow (f a) log' = Some (Ret u) /\ first_exit log = match exits o with Some c => Some c | None => first_exit log' end.
Proof.
  intros (l1 & l2 & a & -> & (x & -> & _)%follow_call & H2)%follow_bind. exists a, l2. split; [done|].
  rewrite first_exit_app. unfold first_exit at 1. cbn. by destruct (exits o).
Qed.

Lemma first_exit_ret log u : follow (mret tt : tree unit) log = Some (Ret u) -> first_exit log = None.
Proof. by destruct log as [|[]]. Qed.

Ltac chase := repeat match goal with
  | H : follow (call _ ≫= _) _ = Some (Ret _) |- _ => apply first_exit_call in H as (? & ? & H & ->)
  | H : follow (mret tt) _ = Some (Ret _) |- _ => apply first_exit_ret in H as ->
  end.

Lemma sshd_polite e next d : polite (sshdMiddleware e next d).
Proof.
  assert (Hsil : forall w, silent (sshd_finish w)) by (by intros []; repeat (constructor; intros)).
  assert (Hfin : forall w, polite (sshd_finish w)) by (intros []; [constructor|apply polite_end; [done|]; intros; constructor..]).
  assert (Hex : forall m c, polite (exit_with m c)).
  { intros m c. apply polite_bind; [by apply plain_call|]. intros _. apply polite_end; [done|]. intros; constructor. }
  apply polite_bind; [by apply plain_call|]. intros _. destruct (sd_pty d).
  - destruct (sh_ptyErr e); [apply Hex|]. apply polite_end; [done|]. intros a. apply Hsil.
  - destruct (sh_stdinErr e); [apply Hex|]. destruct (sh_startErr e); [apply Hex|apply Hfin].
Qed.

(** The client is told the exit code of the command, or which step failed. *)
Theorem sshd_exit_code e d es r0 :
  StartMiddleware (Some (WithMiddleware no_handler [sshdMiddleware e])) d = Some r0 -> ESessionClose ∉ es ->
  rn_prog (run es r0) = None -> rn_code (run es r0) = Some (sshd_code e d).
Proof.
  intros Hs Hes Hend. set (h := WithMiddleware no_handler [sshdMiddleware e]) in *.
  destruct (handler_delivers h d es r0 Hs (sshd_polite e _ d) Hes Hend) as ((u & Hf) & _ & _ & _ & _ & ->).
  f_equal. change (h d) with (sshdMiddleware e no_handler d) in Hf. unfold sshdMiddleware in Hf. unfold sshd_code.
  apply first_exit_call in Hf as (a & log & Hf & ->). cbn [exits].
  destruct (sd_pty d); [destruct (sh_ptyErr e)|destruct (sh_stdinErr e); [|destruct (sh_startErr e)]];
    unfold exit_with in Hf; chase; try done; unfold sshd_finish in Hf; (destruct (sh_wait e); chase; done).
Qed.

(** A subsystem is asked for with no command: the session says it has one, of one
    empty word, and the example tries to run a program without a name. *)
Lemma subsystem_command e name s q :
  RequestSubsystem name s = Some q -> sd_Command (newMiddlewareData e q) = [[]] /\ sd_Subsystem (newMiddlewareData e q) = name.
Proof. unfold RequestSubsystem, start_with. destruct (pr_started s); [done|]. by intros [= <-]. Qed.

(** *** The terminal's output *)

(** [tm_master]: what the command has written to the terminal and nobody has
    read; [tm_held]: what [io.Copy] has read and is writing; [tm_produced] is
    history. *)
Record terminal := Terminal { tm_master : bytes; tm_held : option bytes; tm_out : pipe; tm_produced : bytes }.

Definition new_terminal : terminal := Terminal [] None newPipe [].

(** The command writes; [io.Copy] takes a step, with a buffer of [n] bytes; the
    forwarder of the session reads. *)
Inductive term_event := TProduce (b : bytes) | TCopy (n : nat) | TRead (n : nat).

Definition term_step (s : terminal) (e : term_event) : terminal :=
  match e with
  | TProduce b => Terminal (tm_master s ++ b) (tm_held s) (tm_out s) (tm_produced s ++ b)
  | TCopy n =>
      match tm_held s with
      | None => match take n (tm_master s) with
                | [] => s
                | b => Terminal (drop n (tm_master s)) (Some b) (tm_out s) (tm_produced s)
                end
      | Some b => match pipe_write b (tm_out s) with
                  | (p, None) => Terminal (tm_master s) (Some b) p (tm_produced s)
                  | (p, Some _) => Terminal (tm_master s) None p (tm_produced s)
                  end
      end
  | TRead n => match pipe_read n (tm_out s) with
               | None => s
               | Some (p, _) => Terminal (tm_master s) (tm_held s) p (tm_produced s)
               end
  end.

Definition term_run (es : list term_event) : terminal := foldl term_step new_terminal es.

(** The command has ended and [cmd.Wait] has returned: the handler returns, which
    closes the terminal, and then the session. *)
Definition handler_returns (s : terminal) : terminal := Terminal [] (tm_held s) (close_writer (tm_out s)) (tm_produced s).

Definition unread (s : terminal) : bytes :=
  match tm_held s with
  | None => []
  | Some b => match pp_pending (tm_out s) with None => b | Some (rest, _) => rest end
  end.

Record term_ok (s : terminal) : Prop := {
  to_all : pp_read (tm_out s) ++ unread s ++ tm_master s = tm_produced s;
  to_open : pipe_done (tm_out s) = false;
  to_idle : tm_held s = None -> pp_pending (tm_out s) = None
}.

Lemma term_step_ok s e : term_ok s -> term_ok (term_step s e).
Proof.
  destruct s as [m held [pend w r rd] prod]. intros [Ha Hd Hi]. unfold unread in Ha. cbn in *. destruct e as [b|n|n]; cbn.
  - split; unfold unread; cbn; [|done|done]. by rewrite <- Ha, <- !app_assoc.
  - destruct held as [b|].
    + unfold pipe_write. cbn. rewrite Hd. destruct pend as [[[|c rest] []]|]; (split; unfold unread; cbn; done).
    + specialize (Hi eq_refl) as ->. destruct (take n m) as [|c b] eqn:E; [by split|].
      split; unfold unread; cbn; [|done|done]. rewrite <- Ha. cbn. f_equal. rewrite app_comm_cons, <- E. apply take_drop.
  - unfold pipe_read. cbn. rewrite Hd. destruct pend as [[rest met]|]; [|by split].
    destruct held as [b|]; [|by specialize (Hi eq_refl)].
    assert (Hr : term_ok (Terminal m (Some b) (Pipe (Some (drop n rest, true)) w r (rd ++ take n rest)) prod)).
    { split; unfold unread; cbn; [|done|done]. rewrite <- Ha, <- !app_assoc. f_equal. by rewrite app_assoc, take_drop. }
    destruct rest as [|c rest], met; [by split|done..].
Qed.

Lemma term_run_ok es : term_ok (term_run es).
Proof.
  unfold term_run. assert (H : forall s, term_ok s -> term_ok (foldl term_step s es)).
  { induction es as [|e es IH]; intros s Hs; [done|]. by apply IH, term_step_ok. }
  apply H. by split.
Qed.

(** Nothing waits for the goroutine that copies the terminal's output: the client
    gets all that the command wrote exactly when it was all copied and read by
    the time [cmd.Wait] returned. *)
Theorem sshd_pty_output_kept_iff es more :
  let s := handler_returns (term_run es) in
  (forall n, pp_read (tm_out (foldl term_step s ((fun n => TRead n) <$> more))) = pp_read (tm_out s) /\ pipe_read n (tm_out s) = Some (tm_out s, Err EOF)) /\
  (pp_read (tm_out s) = tm_produced s <-> tm_master (term_run es) = [] /\ unread (term_run es) = []).
Proof.
  intros s. destruct (term_run_ok es) as [Ha Hd _]. unfold s, handler_returns. destruct (term_run es) as [m held [pend w r rd] prod]. cbn in *.
  apply orb_false_iff in Hd as [Hw Hr]. cbn in Hw, Hr. subst w r. split.
  - intros n. split; [|done]. induction more as [|k more IH]; cbn; [done|]. exact IH.
  - set (u := unread _) in *. clearbody u. subst prod. split.
    + intros H. assert (u ++ m = []) as [-> ->]%app_nil; [|done]. apply (app_inv_head rd). by rewrite app_nil_r.
    + intros [-> ->]. by rewrite !app_nil_r.
Qed.

(** ** The adapter of [wish] *)

(** [wa_winCh]: the channel of window sizes that the adapter has made, if it has;
    [wa_converters]: the goroutines that fill one from the library's. *)
Record wishSessionAdapter := WishSessionAdapter { wa_winCh : option nat; wa_converters : list nat }.

(** What the library says of the terminal; [fresh]: a new channel. *)
Definition wish_Pty (state : option (bytes * Window)) (fresh : nat) (a : wishSessionAdapter) :
    wishSessionAdapter * option (bytes * Window * option nat) :=
  match state with
  | None => (a, None)
  | Some (term, w) =>
      let a' := match wa_winCh a with
                | None => WishSessionAdapter (Some fresh) (wa_converters a ++ [fresh])
                | Some _ => a
                end in
      (a', Some (term, w, wa_winCh a'))
  end.

(** The goroutine: it takes a size when the channel, of one place, is empty.  The
    sizes of the library, the channel, and what the handler has taken. *)
Record converter := Converter { cv_in : list Window; cv_out : option Window; cv_taken : list Window }.

Definition convert_step (c : converter) (handler : bool) : converter :=
  if handler then match cv_out c with
                  | Some w => Converter (cv_in c) None (cv_taken c ++ [w])
                  | None => c
                  end
  else match cv_in c, cv_out c with
       | w :: ws, None => Converter ws (Some w) (cv_taken c)
       | _, _ => c
       end.

(** However often the handler asks for its terminal there is one goroutine, and
    one channel, on which the sizes arrive in order, none lost. *)
Lemma wish_sizes_in_order calls sizes steps :
  let a := foldl (fun a c => (wish_Pty c.1 c.2 a).1) (WishSessionAdapter None []) calls in
  (length (wa_converters a) <= 1)%nat /\ (forall ch, ch ∈ wa_converters a -> wa_winCh a = Some ch) /\
  let c := foldl convert_step (Converter sizes None []) steps in cv_taken c ++ option_list (cv_out c) ++ cv_in c = sizes.
Proof.
  intros a. assert (Ha : match wa_winCh a with None => wa_converters a = [] | Some ch => wa_converters a = [ch] end).
  { unfold a. assert (H0 : match wa_winCh (WishSessionAdapter None []) with None => wa_converters (WishSessionAdapter None []) = [] | Some ch => wa_converters (WishSessionAdapter None []) = [ch] end) by done.
    revert H0. generalize (WishSessionAdapter None []). induction calls as [|[[[t w]|] fresh] calls IH]; intros [[ch|] cs] H0; cbn in *; [done..| | | |]; subst; by apply IH. }
  split_and!; [by destruct (wa_winCh a); rewrite Ha; cbn; lia|destruct (wa_winCh a); rewrite Ha; set_solver|].
  intros c. unfold c. induction steps as [|h steps IH] using rev_ind; [done|]. rewrite foldl_app. cbn [foldl]. revert IH.
  generalize (foldl convert_step (Converter sizes None []) steps). intros [ins out taken] IH. cbn in IH.
  destruct h, out, ins; cbn in *; rewrite <- ?app_assoc; done.
Qed.

(** ** Handing a session over ([wish]) *)

Definition COLON : byte := ":"%char.

(** [strings.LastIndexByte]. *)
Definition LastIndexByte (s : bytes) (c : byte) : option nat := (fun k => (length s - 1 - k)%nat) <$> bytes_IndexByte (reverse s) c.

(** [net.SplitHostPort]; [None] is an error. *)
Definition SplitHostPort (s : bytes) : option (bytes * bytes) :=
  match LastIndexByte s COLON with
  | None => None
  | Some i =>
      if bool_decide (head s = Some "["%char) then
        match bytes_IndexByte s "]"%char with
        | None => None
        | Some e =>
            if negb (S e =? i)%nat then None
            else if bool_decide ("["%char ∈ drop 1 s) || bool_decide ("]"%char ∈ drop (S e) s) then None
            else Some (drop 1 (take e s), drop (S i) s)
        end
      else if bool_decide (COLON ∈ take i s) then None
      else if bool_decide ("["%char ∈ s) || bool_decide ("]"%char ∈ s) then None
      else Some (take i s, drop (S i) s)
  end.

(** [net.JoinHostPort], which prints the address of a connection. *)
Definition JoinHostPort (host port : bytes) : bytes :=
  if bool_decide (COLON ∈ host) then "["%char :: host ++ "]"%char :: COLON :: port else host ++ COLON :: port.

Definition addrToString (addr : bytes) : bytes :=
  match SplitHostPort addr with None => addr | Some (host, port) => host ++ " "%char :: port end.

Definition SSH_CONNECTION_EQ : bytes := bs "SSH_CONNECTION=".

(** The environment of the launcher. *)
Definition launch_env (environ : list bytes) (remote local : bytes) : list bytes :=
  filter (fun env => has_prefix env SSH_CONNECTION_EQ = false) environ ++
  [SSH_CONNECTION_EQ ++ addrToString remote ++ " "%char :: addrToString local].

(** [exe]: the path of this program; [output]: what the launcher prints, if it
    succeeds.  What is run, and what the session is told. *)
Definition launchTsshServer (exe : res bytes) (environ : list bytes) (args : list bytes) (remote local : bytes) (output : res bytes)
    (err_text : goerr -> bytes) : option Cmd * tree unit :=
  match exe with
  | Err err => (None, call (OWrite (bs "failed to get current executable path: " ++ err_text err ++ CRLF)) ≫= fun _ => mret tt)
  | Ok exePath =>
      (Some (Command exePath (exePath :: args) (Some (launch_env environ remote local))),
       match output with
       | Err err => call (OWrite (bs "failed to run subprocess: " ++ err_text err ++ CRLF)) ≫= fun _ => mret tt
       | Ok out => call (OWrite out) ≫= fun _ => call (OExit 0) ≫= fun _ => mret tt
       end)
  end.

(** The second middleware of the wish server. *)
Definition launchMiddleware (launch : list bytes -> tree unit) (next : handler) : handler := fun d =>
  if bool_decide (head (sd_Command d) = Some (bs "tsshd")) then launch (sd_Command d) else next d.

(** Whether [main] runs as tsshd. *)
Definition runs_as_tsshd (args : list bytes) : bool := bool_decide (args !! 1%nat = Some (bs "tsshd")).

Lemma LastIndexByte_app a c b : c ∉ b -> LastIndexByte (a ++ c :: b) c = Some (length a).
Proof.
  intros Hb. unfold LastIndexByte. rewrite reverse_app, reverse_cons, <- app_assoc. cbn [app].
  rewrite bytes_IndexByte_app by (by rewrite elem_of_reverse). cbn [fmap option_fmap option_map]. f_equal. rewrite length_reverse, length_app. cbn. lia.
Qed.

(** A host name, perhaps with colons, and a port. *)
Definition host_word (h : bytes) : Prop := no_space h /\ h <> [] /\ ("["%char ∉ h) /\ ("]"%char ∉ h).
Definition port_word (p : bytes) : Prop := no_space p /\ p <> [] /\ (COLON ∉ p) /\ ("["%char ∉ p) /\ ("]"%char ∉ p).

Lemma drop_past (a : bytes) c b : drop (S (length a)) (a ++ c :: b) = b.
Proof. replace (S (length a)) with (length a + 1)%nat by lia. by rewrite drop_app_add. Qed.

Lemma SplitHostPort_Join h p : host_word h -> port_word p -> SplitHostPort (JoinHostPort h p) = Some (h, p).
Proof.
  intros (_ & _ & Hl & Hr) (_ & _ & Hc & Hpl & Hpr). unfold SplitHostPort, JoinHostPort. case_bool_decide as Hcol.
  - set (s := "["%char :: h ++ "]"%char :: COLON :: p).
    assert (H1 : s = ("["%char :: h ++ ["]"%char]) ++ COLON :: p) by (unfold s; cbn; by rewrite <- app_assoc).
    assert (H2 : s = ("["%char :: h) ++ "]"%char :: COLON :: p) by done.
    assert (Hi : LastIndexByte s COLON = Some (S (S (length h)))) by (rewrite H1, LastIndexByte_app by done; cbn; rewrite length_app; cbn; f_equal; lia).
    assert (He : bytes_IndexByte s "]"%char = Some (S (length h))) by (rewrite H2, bytes_IndexByte_app; [done|by apply not_elem_of_cons]).
    rewrite Hi, He. rewrite bool_decide_eq_true_2 by done. rewrite Nat.eqb_refl. cbn [negb].
    assert (Hd1 : drop (S (S (length h))) s = COLON :: p) by (rewrite H2; apply drop_past).
    assert (Hd2 : drop (S (S (S (length h)))) s = p) by (replace (S (S (S (length h)))) with (S (S (length h)) + 1)%nat by lia; by rewrite <- drop_drop, Hd1).
    rewrite Hd1, Hd2, !bool_decide_eq_false_2 by (cbn; set_solver). cbn [orb]. f_equal. f_equal. cbn. apply take_app_length.
  - assert (head (h ++ COLON :: p) <> Some "["%char) by (destruct h; cbn; [done|intros [= ->]; set_solver]).
    rewrite LastIndexByte_app by done. rewrite take_app_length, !bool_decide_eq_false_2 by (done || set_solver). cbn [orb].
    by rewrite drop_past.
Qed.

Lemma addrToString_Join h p : host_word h -> port_word p -> addrToString (JoinHostPort h p) = h ++ " "%char :: p.
Proof. intros. unfold addrToString. by rewrite SplitHostPort_Join. Qed.

Lemma value_of_connection v : value_of (bs "SSH_CONNECTION") (SSH_CONNECTION_EQ ++ v) = Some v.
Proof.
  unfold value_of. replace (SSH_CONNECTION_EQ ++ v) with (env_entry (bs "SSH_CONNECTION") v) by done.
  rewrite Cut_entry; [done|]. apply (bool_decide_unpack _). vm_compute. exact I.
Qed.

Lemma parse_unknown w words : flag no_args w = None -> (forall v, option_value no_args w v = None) -> parseTsshdArgs (w :: words) = parseTsshdArgs words.
Proof.
  intros Hf Ho. unfold parseTsshdArgs at 1. cbn [parse_from]. rewrite Hf. destruct words as [|v words]; [done|].
  rewrite Ho. by destruct (has_prefix v (bs "-")).
Qed.

(** The program that is launched for a session runs as tsshd, with the arguments
    of the session's command; it finds one [SSH_CONNECTION], whose third word,
    the address on which it looks for a port first, is the session's own. *)
Theorem launched_at_session_address exe environ words rh rp lh lp output err_text :
  host_word rh -> port_word rp -> host_word lh -> port_word lp -> has_prefix (ToLower lh) (bs "::ffff:") = false ->
  let remote := JoinHostPort rh rp in let local := JoinHostPort lh lp in
  exists env, (launchTsshServer (Ok exe) environ (bs "tsshd" :: words) remote local output err_text).1 =
      Some (Command exe (exe :: bs "tsshd" :: words) (Some env)) /\
    runs_as_tsshd (exe :: bs "tsshd" :: words) = true /\ parseTsshdArgs (bs "tsshd" :: words) = parseTsshdArgs words /\
    length (omap (value_of (bs "SSH_CONNECTION")) env) = 1%nat /\
    exists conn, env_value (bs "SSH_CONNECTION") env = Some conn /\ ssh_connection_addr conn = Some (JoinHostPort lh (bs "0")).
Proof.
  intros Hrh Hrp Hlh Hlp Hff remote local. eexists. split; [done|]. split; [done|]. split; [by apply parse_unknown|].
  assert (Hnone : omap (value_of (bs "SSH_CONNECTION")) (filter (fun env => has_prefix env SSH_CONNECTION_EQ = false) environ) = []).
  { apply omap_filter_none. intros x v Hv Hp. unfold value_of in Hv. destruct (Cut EQ x) as [m [v'|]] eqn:Ec; [|done].
    case_bool_decide as Hm; [|done]. subst m. unfold Cut in Ec. destruct (bytes_IndexByte x EQ) as [pos|] eqn:Ei; [|done].
    apply bytes_IndexByte_split in Ei as [Hx _]. injection Ec as Hm _. rewrite Hm in Hx.
    enough (has_prefix x SSH_CONNECTION_EQ = true) by congruence. apply has_prefix_spec. by exists (drop (S pos) x). }
  unfold launch_env, env_value. rewrite omap_app, Hnone. cbn [app omap list_omap]. rewrite value_of_connection. split; [done|].
  eexists. split; [done|]. unfold remote, local. rewrite !addrToString_Join by done. unfold ssh_connection_addr.
  replace ((rh ++ " "%char :: rp) ++ " "%char :: lh ++ " "%char :: lp) with (join " "%char [rh; rp; lh; lp])
    by (cbn; by rewrite <- app_assoc).
  destruct Hrh as (? & ? & _), Hrp as (? & ? & _), Hlh as (Hs & Hn & Hl & _), Hlp as (? & ? & _).
  rewrite Fields_join by (repeat constructor; done). rewrite Hff. f_equal. unfold JoinHostPort, COLON.
  assert (has_prefix lh (bs "[") = false) as ->.
  { apply not_true_iff_false. intros [rest ->]%has_prefix_spec. set_solver. }
  cbn [negb andb]. case_bool_decide; cbn; by rewrite <- ?app_assoc.
Qed.

Lemma launched_at_session_address_witness :
  exists env, (launchTsshServer (Ok (bs "/usr/bin/app")) [bs "HOME=/root"; bs "SSH_CONNECTION=1.2.3.4 5 6.7.8.9 22"] [bs "tsshd"; bs "--kcp"]
      (bs "[2001:db8::1]:40000") (bs "192.0.2.7:56789") (Ok []) (fun _ => [])).1 = Some (Command (bs "/usr/bin/app") [bs "/usr/bin/app"; bs "tsshd"; bs "--kcp"] (Some env)) /\
    env = [bs "HOME=/root"; bs "SSH_CONNECTION=2001:db8::1 40000 192.0.2.7 56789"].
Proof.
  destruct (launched_at_session_address (bs "/usr/bin/app") [bs "HOME=/root"; bs "SSH_CONNECTION=1.2.3.4 5 6.7.8.9 22"] [bs "--kcp"]
    (bs "2001:db8::1") (bs "40000") (bs "192.0.2.7") (bs "56789") (Ok []) (fun _ => [])) as (env & E & _).
  1-4: repeat split; try done; apply (bool_decide_unpack _); vm_compute; exact I.
  - reflexivity.
  - vm_compute in E. injection E as <-. eexists. split; reflexivity.
Defined.
