(* ===== verification/Windows.v ===== *)
(** * Windows: the platform functions of [utils_windows.go]

    The pseudo console of a session ([safeConPty], [tsshdPty]), the named pipes
    that stand for the Unix sockets of [Socket], and the process that a session
    is named after, which is found otherwise than in [Process]. *)

From Stdlib Require Import ZArith Lia Ascii String.
From stdpp Require Import base list strings gmap.
From S2P Require Import Prelude GoStrings Decimal Process.
Open Scope Z_scope.

(** ** The pseudo console *)

(** The calls that reach [conpty.ConPty]. *)
Inductive conpty_call := ConClose | ConResize (width height : Z).

(** [sp_calls]: history, the latest call last. *)
Record safeConPty := SafeConPty { sp_closed : bool; sp_calls : list conpty_call }.

(** Both run under the mutex. *)
Definition sp_Close (p : safeConPty) : safeConPty :=
  if sp_closed p then p else SafeConPty true (sp_calls p ++ [ConClose]).

Definition sp_Resize (width height : Z) (p : safeConPty) : safeConPty :=
  if sp_closed p then p else SafeConPty false (sp_calls p ++ [ConResize width height]).

(** Its [stdin] and [stdout] are the console as well. *)
Record tsshdPty := TsshdPty { tp_spty : safeConPty; tp_code : Z }.

(** [code], [err]: what waiting for the process returns; the code is 32 bits
    wide. *)
Definition Wait (code : Z) (err : option goerr) (p : tsshdPty) : tsshdPty * option goerr :=
  (TsshdPty (sp_Close (tp_spty p)) code, err).

Definition Close (p : tsshdPty) : tsshdPty := TsshdPty (sp_Close (tp_spty p)) (tp_code p).

Inductive resize_error := TooSmall (cols rows : Z).

Definition Resize (cols rows : Z) (p : tsshdPty) : tsshdPty * option resize_error :=
  if (cols <? 1) || (rows <? 1) then (p, Some (TooSmall cols rows))
  else (TsshdPty (sp_Resize cols rows (tp_spty p)) (tp_code p), None).

Section CommandLine.
(** [windows.EscapeArg], which quotes an argument. *)
Context (EscapeArg : bytes -> bytes).

(** The [strings.Builder] loop. *)
Definition cmdLine (args : list bytes) : bytes :=
  foldl (fun b arg => (if (0 <? length b)%nat then b ++ [" "%char] else b) ++ EscapeArg arg) [] args.

(** [start]: whether [conpty.Start] succeeds with a command line, a size and an
    environment. *)
Definition newTsshdPty (start : bytes -> Z -> Z -> list bytes -> option goerr) (args env : list bytes) (cols rows : Z) : res tsshdPty :=
  match start (cmdLine args) cols rows env with
  | Some err => Err err
  | None => Ok (TsshdPty (SafeConPty false []) (-1))
  end.

End CommandLine.

(** What the goroutines of a session do to the terminal. *)
Inductive pty_op := POWait (code : Z) | POClose | POResize (cols rows : Z).

Definition pty_step (p : tsshdPty) (o : pty_op) : tsshdPty :=
  match o with
  | POWait code => (Wait code None p).1
  | POClose => Close p
  | POResize cols rows => (Resize cols rows p).1
  end.

Definition closes (o : pty_op) : bool := match o with POResize _ _ => false | _ => true end.

(** The resizes that count: those before the first close, of a size of at least
    one by one. *)
Fixpoint wanted (ops : list pty_op) : list conpty_call :=
  match ops with
  | [] => []
  | POResize c r :: ops => if (c <? 1) || (r <? 1) then wanted ops else ConResize c r :: wanted ops
  | _ :: _ => [ConClose]
  end.

Lemma closed_run ops p : sp_closed (tp_spty p) = true -> tp_spty (foldl pty_step p ops) = tp_spty p.
Proof.
  revert p. induction ops as [|o ops IH]; intros [[cl calls] code] Hc; [done|]. cbn in Hc. subst cl. cbn [foldl]. rewrite IH.
  - destruct o as [c| |c r]; cbn; [done..|]. unfold Resize. by destruct (_ || _).
  - destruct o as [c| |c r]; cbn; [done..|]. unfold Resize. by destruct (_ || _).
Qed.

Lemma open_run ops p : sp_closed (tp_spty p) = false -> sp_calls (tp_spty (foldl pty_step p ops)) = sp_calls (tp_spty p) ++ wanted ops.
Proof.
  revert p. induction ops as [|o ops IH]; intros [[cl calls] code] Hc; cbn in Hc; subst cl; cbn [foldl]; [by rewrite app_nil_r|].
  destruct o as [c| |c r]; cbn; [by rewrite closed_run..|]. unfold Resize. destruct (_ || _); rewrite IH; cbn; [done..| |done].
  by rewrite <- app_assoc.
Qed.

(** C34: the library crashes if a console is closed twice or resized after it was
    closed.  However the goroutines' calls interleave, what reaches it is the
    resizes up to the first close, and that close; all the sizes are positive. *)
Theorem conpty_used_safely EscapeArg start args env cols rows p ops :
  newTsshdPty EscapeArg start args env cols rows = Ok p ->
  let calls := sp_calls (tp_spty (foldl pty_step p ops)) in
  calls = wanted ops /\
  (forall c r, ConResize c r ∈ calls -> 0 < c /\ 0 < r) /\
  exists resizes, (ConClose ∉ resizes) /\ calls = resizes ++ (if existsb closes ops then [ConClose] else []).
Proof.
  unfold newTsshdPty. destruct (start _ _ _ _); [done|]. intros [= <-]. cbv zeta. rewrite open_run by done. cbn [tp_spty sp_calls app].
  split; [done|]. induction ops as [|[c| |c r] ops [IH1 (rs & IH2 & IH3)]]; cbn.
  - split; [by intros ? ? ?%elem_of_nil|]. exists []. split; [apply not_elem_of_nil|done].
  - split; [intros ? ? ?%list_elem_of_singleton; done|]. exists []. split; [apply not_elem_of_nil|done].
  - split; [intros ? ? ?%list_elem_of_singleton; done|]. exists []. split; [apply not_elem_of_nil|done].
  - destruct (Z.ltb_spec c 1), (Z.ltb_spec r 1); cbn; [by split; [|by exists rs]..|]. split.
    + intros c' r' [[= -> ->]|H']%elem_of_cons; [lia|by apply IH1].
    + exists (ConResize c r :: rs). split; [by apply not_elem_of_cons|]. by rewrite IH3.
Qed.

Lemma conpty_used_safely_witness :
  sp_calls (tp_spty (foldl pty_step (TsshdPty (SafeConPty false []) (-1)) [POResize 80 24; POResize 0 9; POWait 1; POResize 90 30; POClose])) =
  [ConResize 80 24; ConClose].
Proof.
  destruct (conpty_used_safely (fun a => a) (fun _ _ _ _ => None) [] [] 80 24 (TsshdPty (SafeConPty false []) (-1))
    [POResize 80 24; POResize 0 9; POWait 1; POResize 90 30; POClose] eq_refl) as [-> _]. reflexivity.
Defined.

Lemma cmdLine_from (EscapeArg : bytes -> bytes) (b : bytes) (args : list bytes) : (forall a, EscapeArg a <> []) -> b <> [] ->
  foldl (fun b arg => (if (0 <? length b)%nat then b ++ [" "%char] else b) ++ EscapeArg arg) b args = join " "%char (b :: (EscapeArg <$> args)).
Proof.
  intros Hne. revert b. induction args as [|x args IH]; intros b Hb; [done|]. cbn [foldl]. destruct b as [|c b]; [done|].
  change (0 <? length (c :: b))%nat with true. cbv iota. rewrite IH by (by destruct b). destruct args; cbn; by rewrite <- ?app_assoc.
Qed.

(** The builder adds a space when it holds something already; as a quoted
    argument is never empty, the command line is the quoted arguments joined by
    spaces. *)
Theorem cmdLine_join EscapeArg args : (forall a, EscapeArg a <> []) -> cmdLine EscapeArg args = join " "%char (EscapeArg <$> args).
Proof. intros Hne. destruct args as [|a args]; [done|]. apply (cmdLine_from EscapeArg (EscapeArg a) args); done. Qed.

(** ** Named pipes *)

Definition PIPE : bytes := bs "\\.\pipe\".

(** [fmt.Sprintf] of the security descriptor: all access for the user, none for
    others. *)
Definition security_descriptor (uid : bytes) : bytes := bs "D:P(A;;GA;;;" ++ uid ++ bs ")".

Definition pipe_name (uid name : bytes) : bytes := bs "tsshd\" ++ uid ++ bs "\" ++ name.

Definition socket_name (pid : Z) : bytes := bs "socket-" ++ decimal pid.

Inductive pipe_error := NoUser | ListenFailed (path : bytes) (err : goerr).

(** [user]: the current user, if known; [ListenPipe]: what happens with a path
    and a descriptor.  The result is the path of the listener; that it is closed
    on exit is in [Boot]. *)
Definition listenOnPipe (user : option bytes) (ListenPipe : bytes -> bytes -> option goerr) (name : bytes) : bytes + pipe_error :=
  match user with
  | None => inr NoUser
  | Some uid =>
      let pipePath := PIPE ++ pipe_name uid name in
      match ListenPipe pipePath (security_descriptor uid) with
      | Some err => inr (ListenFailed pipePath err)
      | None => inl pipePath
      end
  end.

Definition listenForSocketServer (user : option bytes) (ListenPipe : bytes -> bytes -> option goerr) (self : Z) : bytes + pipe_error :=
  listenOnPipe user ListenPipe (socket_name self).

Definition listenForAgent (user : option bytes) (ListenPipe : bytes -> bytes -> option goerr) (self id : Z) : bytes + pipe_error :=
  listenOnPipe user ListenPipe (bs "agent-" ++ decimal self ++ bs "-" ++ decimal id).

Definition getSocketPath (user : option bytes) (pid : Z) : option bytes :=
  (fun uid => PIPE ++ pipe_name uid (socket_name pid)) <$> user.

Inductive win_error := FILE_NOT_FOUND | NO_MORE_FILES | OtherError.

#[export] Instance win_error_eq_dec : EqDecision win_error.
Proof. solve_decision. Defined.

(** The enumeration of the pipes: whether it starts, the names it gives, and the
    error that ends it. *)
Record find := Find { fd_first : option win_error; fd_names : list bytes; fd_end : win_error }.

(** One pass of the loop. *)
Definition socket_of (uid name : bytes) : option (Z * bytes) :=
  let prefix := bs "tsshd\" ++ uid ++ bs "\socket-" in
  if has_prefix name prefix then (fun pid => (pid, PIPE ++ name)) <$> Atoi (drop (length prefix) name) else None.

(** [None]: an error. *)
Definition listSocketPaths (user : option bytes) (f : find) : option (list (Z * bytes)) :=
  match user with
  | None => None
  | Some uid =>
      match fd_first f with
      | Some FILE_NOT_FOUND => Some []
      | Some _ => None
      | None => if bool_decide (fd_end f = NO_MORE_FILES) then Some (omap (socket_of uid) (fd_names f)) else None
      end
  end.

Lemma socket_of_name uid pid : 0 <= pid < 2 ^ 63 -> socket_of uid (pipe_name uid (socket_name pid)) = Some (pid, PIPE ++ pipe_name uid (socket_name pid)).
Proof.
  intros Hp. unfold socket_of. set (prefix := bs "tsshd\" ++ uid ++ bs "\socket-").
  assert (E : pipe_name uid (socket_name pid) = prefix ++ decimal pid).
  { unfold pipe_name, socket_name, prefix. rewrite <- !app_assoc. f_equal. }
  rewrite !E, has_prefix_app, drop_app_length. by rewrite Atoi_decimal.
Qed.

(** A server's pipe is found under its pid, where a client looks it up; and the
    list has nothing but such names, of pipes that there are. *)
Theorem pipe_listed uid ListenPipe self path f paths :
  0 <= self < 2 ^ 63 -> listenForSocketServer (Some uid) ListenPipe self = inl path -> listSocketPaths (Some uid) f = Some paths ->
  getSocketPath (Some uid) self = Some path /\
  (drop (length PIPE) path ∈ fd_names f -> fd_first f = None -> (self, path) ∈ paths) /\
  (forall pid p, (pid, p) ∈ paths -> exists digits, Atoi digits = Some pid /\ pipe_name uid (bs "socket-" ++ digits) ∈ fd_names f /\
    p = PIPE ++ pipe_name uid (bs "socket-" ++ digits)).
Proof.
  intros Hs Hl Hp. unfold listenForSocketServer, listenOnPipe in Hl. destruct (ListenPipe _ _); [done|].
  assert (path = PIPE ++ pipe_name uid (socket_name self)) as -> by congruence. clear Hl. split; [done|]. rewrite drop_app_length. unfold listSocketPaths in Hp. split.
  - intros Hin Hf. rewrite Hf in Hp. case_bool_decide; [|done]. injection Hp as <-.
    apply list_elem_of_omap. eexists. split; [done|]. by apply socket_of_name.
  - destruct (fd_first f) as [[]|]; [injection Hp as <-; by intros ? ? ?%elem_of_nil|done..|]. case_bool_decide; [|done]. injection Hp as <-.
    intros pid p (n & Hn & Hso)%list_elem_of_omap. unfold socket_of in Hso. destruct (has_prefix n _) eqn:Hpre; [|done].
    apply has_prefix_spec in Hpre as [digits ->]. rewrite drop_app_length in Hso. destruct (Atoi digits) as [v|] eqn:Ha; [|done]. injection Hso as <- Hp.
    exists digits. assert (E : pipe_name uid (bs "socket-" ++ digits) = (bs "tsshd\" ++ uid ++ bs "\socket-") ++ digits).
    { unfold pipe_name. rewrite <- !app_assoc. f_equal. }
    rewrite E. split_and!; [done..|by rewrite <- Hp].
Qed.

(** ** The foreground process *)

(** One [ProcessEntry32]: two numbers of 32 bits, and a name. *)
Record entry := Entry { en_pid : Z; en_parent : Z; en_exe : bytes }.

(** [snapshot]: the entries and the error that ends them, or no snapshot at
    all. *)
Definition getProcInfos (snapshot : option (list entry * win_error)) : option procs_map :=
  match snapshot with
  | None | Some ([], _) => None
  | Some (entries, end_error) =>
      let procs := foldl (fun m e => <[en_pid e := Proc (en_pid e) (en_parent e) 0 (en_exe e)]> m) ∅ entries in
      if bool_decide (end_error = NO_MORE_FILES) then Some procs else None
  end.

Definition conhost : bytes := bs "conhost.exe".

(** The inner loop: up from a console host to what it serves.  [None]: out of
    fuel; [Some None]: [continue out]. *)
Fixpoint console_owner (fuel : nat) (procs : procs_map) (p : procInfo) : option (option procInfo) :=
  if bool_decide (name p = conhost) then
    match fuel with
    | O => None
    | S fuel => match procs !! ppid p with Some parent => console_owner fuel procs parent | None => Some None end
    end
  else Some (Some p).

Definition newer (best : option procInfo) (p : procInfo) : option procInfo :=
  match best with
  | None => Some p
  | Some b => if pid b <? pid p then Some p else best
  end.

(** One pass of the outer loop. *)
Definition consider (fuel : nat) (procs : procs_map) (best : option (option procInfo)) (p : procInfo) : option (option procInfo) :=
  best ≫= fun best => match console_owner fuel procs p with
                      | None => None
                      | Some None => Some best
                      | Some (Some q) => Some (newer best q)
                      end.

(** The result: out of fuel, or the name, [None] being "no leaf process". *)
Definition getForegroundProcess (range_values : procs_map -> list procInfo) (fuel : nat) (procs : procs_map) (self : Z) : option (option bytes) :=
  match findAllDescendants range_values fuel procs self with
  | None => None
  | Some ds =>
      match foldl (consider fuel ds) (Some None) (findLeafProcesses range_values ds) with
      | None => None
      | Some best => Some (name <$> best)
      end
  end.

(** *** What it means *)

(** [q] is the first process from [p] upwards that is not a console host. *)
Inductive serves (procs : procs_map) : procInfo -> procInfo -> Prop :=
  | serves_self p : name p <> conhost -> serves procs p p
  | serves_up p q r : name p = conhost -> procs !! ppid p = Some q -> serves procs q r -> serves procs p r.

Lemma console_owner_serves fuel procs p r :
  console_owner fuel procs p = Some r -> match r with Some q => serves procs p q | None => forall q, ~ serves procs p q end.
Proof.
  revert p. induction fuel as [|fuel IH]; intros p; cbn [console_owner]; case_bool_decide as Hn;
    [done|intros [= <-]; by constructor| |intros [= <-]; by constructor].
  destruct (procs !! ppid p) as [q|] eqn:Hq.
  - intros H%IH. destruct r as [r|]; [by eapply serves_up|]. intros r Hs. inv Hs.
    simplify_eq. by destruct (H r).
  - intros [= <-] q Hs. inv Hs; congruence.
Qed.

Lemma serves_fun procs p q r : serves procs p q -> serves procs p r -> q = r.
Proof. intros Hq. revert r. induction Hq as [p Hn|p x q Hn Hx _ IH]; intros r Hr; inv Hr; try done. apply IH. by simplify_eq. Qed.

(** A parent was visited before its child, so the walk ends. *)
Lemma console_owner_ends procs root visited ds fuel p l1 l2 :
  progress procs root visited [] ds -> ~ descendant procs root root -> keyed procs ->
  visited = l1 ++ pid p :: l2 -> procs !! pid p = Some p -> (length l1 < fuel)%nat -> is_Some (console_owner fuel ds p).
Proof.
  intros Hpg Hroot Hk. revert p l1 l2. induction fuel as [|fuel IH]; intros p l1 l2 Hv Hp Hl; [lia|]. cbn [console_owner].
  case_bool_decide; [|eauto]. destruct (ds !! ppid p) as [q|] eqn:Hq; [|eauto].
  apply (pg_result _ _ _ _ _ Hpg) in Hq as [Hin Hq]. assert (Hid : pid q = ppid p) by (by apply (Hk (ppid p))).
  destruct (pg_order _ _ _ _ _ Hpg l1 (pid p) l2 (ppid p) Hv) as [E|Hin1]; [by exists p| |].
  - destruct Hroot. apply (progress_done _ _ _ _ _ Hpg). by rewrite <- E.
  - apply list_elem_of_split in Hin1 as (l3 & l4 & ->). rewrite <- Hid in Hv, Hq. apply (IH q l3 (l4 ++ pid p :: l2)); [|done|].
    + by rewrite Hv, <- app_assoc.
    + rewrite length_app in Hl. cbn in Hl. lia.
Qed.

Lemma newer_spec l best :
  match foldl newer best l with
  | None => best = None /\ l = []
  | Some p => (best = Some p \/ p ∈ l) /\ (forall q, best = Some q \/ q ∈ l -> pid q <= pid p)
  end.
Proof.
  revert best. induction l as [|x l IH]; intros best; simpl.
  - destruct best; [|done]. split; [by left|]. intros q [[= <-]|Hq]; [lia|]. by apply not_elem_of_nil in Hq.
  - specialize (IH (newer best x)). destruct (foldl newer (newer best x) l) as [p|].
    + destruct IH as [Hp Hmax]. assert (Hx : pid x <= pid p /\ forall b, best = Some b -> pid b <= pid p).
      { unfold newer in Hmax. destruct best as [b|]; [|split; [by apply Hmax; left|done]].
        destruct (Z.ltb_spec (pid b) (pid x)); [specialize (Hmax x)|specialize (Hmax b)]; (split; [|intros ? [= <-]]);
          specialize (Hmax (or_introl eq_refl)); lia. }
      split; [|intros q [Hb|[->|Hq]%elem_of_cons]; [by apply (proj2 Hx)|by apply (proj1 Hx)|by apply Hmax; right]].
      unfold newer in Hp. destruct best as [b|]; [destruct (pid b <? pid x)|]; set_solver.
    + destruct IH as [IH _]. unfold newer in IH. repeat case_match; done.
Qed.

(** The two loops choose as one would from the list of the processes served. *)
Lemma consider_fold fuel procs l best :
  Forall (fun p => is_Some (console_owner fuel procs p)) l ->
  foldl (consider fuel procs) (Some best) l = Some (foldl newer best (omap (fun p => default None (console_owner fuel procs p)) l)).
Proof.
  intros Hl. revert best. induction Hl as [|p l [r Hr] _ IH]; intros best; [done|]. cbn [foldl omap list_omap]. unfold consider at 2. cbn [mbind option_bind].
  rewrite Hr. cbn [default]. destruct r; cbn; apply IH.
Qed.

(** [q] is what a descendant [p] of the server without children is, or is the
    console host of. *)
Definition in_front (procs : procs_map) (self : Z) (q : procInfo) : Prop :=
  exists ds p, (forall k x, ds !! k = Some x <-> descendant procs self k /\ procs !! k = Some x) /\
    ds !! pid p = Some p /\ (forall c, ~ child ds (pid p) c) /\ serves ds p q.

Lemma foreground_found range_values procs self :
  (forall m, range_values m ≡ₚ (map_to_list m).*2) -> keyed procs -> ~ descendant procs self self ->
  exists r, getForegroundProcess range_values (size procs) procs self = Some r /\
    match r with
    | None => forall q, ~ in_front procs self q
    | Some n => exists q, name q = n /\ in_front procs self q /\ forall q', in_front procs self q' -> pid q' <= pid q
    end.
Proof.
  intros Hr Hk Hself. destruct (findAllDescendants_correct range_values Hr procs self Hk Hself) as (v & ds & E & Hpg & Hds).
  assert (Hkd : keyed ds) by (intros k p [_ Hp]%Hds; by apply (Hk k)).
  unfold getForegroundProcess. rewrite E. set (leaves := findLeafProcesses range_values ds). set (own := fun p => default None (console_owner (size procs) ds p)).
  assert (Hends : Forall (fun p => is_Some (console_owner (size procs) ds p)) leaves).
  { apply Forall_forall. intros p [Hp _]%(findLeafProcesses_spec _ Hr _ _ Hkd). apply (pg_result _ _ _ _ _ Hpg) in Hp as [Hv Hp].
    pose proof (progress_bound _ _ _ _ _ Hpg) as Hb. apply list_elem_of_split in Hv as (l1 & l2 & ->). rewrite app_nil_r, length_app in Hb. cbn in Hb.
    eapply console_owner_ends; [exact Hpg|done..|lia]. }
  assert (Hfront : forall q, q ∈ omap own leaves <-> in_front procs self q).
  { intros q. rewrite list_elem_of_omap. split.
    - intros (p & Hp & Hq). exists ds, p. unfold own in Hq. destruct (console_owner (size procs) ds p) as [[q'|]|] eqn:Ec; [|done..].
      injection Hq as ->. apply console_owner_serves in Ec. apply (findLeafProcesses_spec _ Hr _ _ Hkd) in Hp as [Hp Hc]. done.
    - intros (ds' & p & Hds' & Hp & Hc & Hs). assert (ds' = ds) as ->.
      { apply map_eq. intros k. apply option_eq. intros x. by rewrite Hds', Hds. }
      assert (Hl : p ∈ leaves) by (by apply (findLeafProcesses_spec _ Hr _ _ Hkd)). exists p. split; [done|].
      rewrite Forall_forall in Hends. destruct (Hends p Hl) as [r Ec]. unfold own. rewrite Ec. apply console_owner_serves in Ec.
      destruct r as [q'|]; [|by destruct (Ec q)]. cbn. f_equal. by eapply serves_fun. }
  rewrite consider_fold by done. eexists. split; [done|]. pose proof (newer_spec (omap own leaves) None) as Hn. unfold own in *.
  destruct (foldl newer None _) as [q|]; cbn.
  - destruct Hn as [[?|Hq%Hfront] Hmax]; [done|]. exists q. split_and!; [done..|]. intros q' Hq'%Hfront. apply Hmax. by right.
  - destruct Hn as [_ Hnil]. intros q Hq%Hfront. rewrite Hnil in Hq. by apply elem_of_nil in Hq.
Qed.

(** C30: whatever the order of the map, the loops that name a session end exactly
    when the table of processes does not make the server a descendant of
    itself.  Then the session is named after the newest process, by pid, that
    is in front, if there is one. *)
Theorem foreground_process_newest range_values procs self :
  (forall m, range_values m ≡ₚ (map_to_list m).*2) -> keyed procs ->
  (descendant procs self self -> forall fuel, getForegroundProcess range_values fuel procs self = None) /\
  (~ descendant procs self self ->
   exists r, getForegroundProcess range_values (size procs) procs self = Some r /\
     match r with
     | None => forall q, ~ in_front procs self q
     | Some n => exists q, name q = n /\ in_front procs self q /\ forall q', in_front procs self q' -> pid q' <= pid q
     end).
Proof.
  intros Hr Hk. split; [|by apply foreground_found].
  intros Hc fuel. unfold getForegroundProcess. by rewrite descendants_cycle_diverges.
Qed.

(** *** Examples *)

(** A server (pid 10), the console host of its terminal, a shell, and a program
    with a console host of its own. *)
Definition snapshot : list entry :=
  [Entry 4 0 (bs "System"); Entry 10 4 (bs "tsshd.exe"); Entry 15 10 conhost; Entry 20 10 (bs "powershell.exe");
   Entry 30 20 (bs "vim.exe"); Entry 31 30 conhost].

Definition win_table : procs_map := default ∅ (getProcInfos (Some (snapshot, NO_MORE_FILES))).

Lemma foreground_process_newest_witness :
  getForegroundProcess values (size win_table) win_table 10 = Some (Some (bs "vim.exe")).
Proof.
  destruct (foreground_process_newest values win_table 10) as [_ (r & E & _)].
  - done.
  - apply (bool_decide_unpack _). vm_compute. exact I.
  - intros H. apply ordered_descendant in H; [lia|]. apply (bool_decide_unpack _). vm_compute. exact I.
  - rewrite E. vm_compute in E. injection E as <-. reflexivity.
Defined.

(** The parent of a process is not cleared when it ends, and pids are used
    again: a child of a session may get the pid of the program that launched
    the server. *)
Definition reused_snapshot : list entry :=
  [Entry 10 5 (bs "tsshd.exe"); Entry 20 10 (bs "powershell.exe"); Entry 5 20 (bs "vim.exe")].

(** Then the search never ends. *)
Lemma reused_pid_hangs fuel :
  match getProcInfos (Some (reused_snapshot, NO_MORE_FILES)) with
  | Some procs => getForegroundProcess values fuel procs 10 = None
  | None => False
  end.
Proof.
  cbn [getProcInfos reused_snapshot]. rewrite bool_decide_eq_true_2 by done. unfold getForegroundProcess.
  rewrite descendants_cycle_diverges; [done|done|..].
  - apply (bool_decide_unpack _). vm_compute. exact I.
  - apply (tc_l _ _ 20); [|apply (tc_l _ _ 5); [|apply tc_once]]; eexists; split; reflexivity.
Qed.
