(* ===== verification/Boot.v ===== *)
(** * Boot: the launcher, the daemon, and its end

    [background] of [main.go] starts the program a second time; what the two
    processes do, seen together, is here, as are the functions that run on exit
    ([initDebugLogging] of [comm.go] adds one), the signals, and the text of the
    version ([version.go]). *)

From Stdlib Require Import ZArith Lia Ascii String.
From stdpp Require Import base list strings sets.
From S2P Require Import Prelude GoStrings Decimal Config Forward Start Main.
Open Scope Z_scope.

(** ** Environments *)

(** [os.Getenv]: the first entry for a name that is not empty. *)
Definition Getenv (n : bytes) (environ : list bytes) : bytes :=
  match n with [] => [] | _ => default [] (head (omap (value_of n) environ)) end.

Definition key_of (x : bytes) : option bytes := match Cut EQ x with (m, Some _) => Some m | _ => None end.

(** [os.Environ] of a process started with [raw]: later entries for a name that
    was [seen] are left out, and so are empty ones. *)
Fixpoint Environ_from (seen raw : list bytes) : list bytes :=
  match raw with
  | [] => []
  | x :: rest => match key_of x with
                 | Some k => if bool_decide (k ∈ seen) then Environ_from seen rest else x :: Environ_from (k :: seen) rest
                 | None => match x with [] => Environ_from seen rest | _ => x :: Environ_from seen rest end
                 end
  end.

Definition Environ (raw : list bytes) : list bytes := Environ_from [] raw.

(** What [exec] makes of [cmd.Env]: of several entries for a name the last is
    kept, in its place.  (Names that begin with an equals sign, which Windows
    has, aside.) *)
Fixpoint dedupEnv (env : list bytes) : list bytes :=
  match env with
  | [] => []
  | x :: rest => match key_of x with
                 | Some k => if bool_decide (k ∈ omap key_of rest) then dedupEnv rest else x :: dedupEnv rest
                 | None => x :: dedupEnv rest
                 end
  end.

Lemma value_of_key n x v : value_of n x = Some v -> key_of x = Some n.
Proof. unfold value_of, key_of. destruct (Cut EQ x) as [m [w|]]; [|done]. case_bool_decide; [|done]. by subst. Qed.

Lemma value_of_none n env : n ∉ omap key_of env -> omap (value_of n) env = [].
Proof.
  induction env as [|x env IH]; intros Hn; [done|]. cbn in *. destruct (value_of n x) as [v|] eqn:E.
  - apply value_of_key in E. rewrite E in Hn. set_solver.
  - apply IH. destruct (key_of x); set_solver.
Qed.

Lemma dedup_values n env : omap (value_of n) (dedupEnv env) = option_list (env_value n env).
Proof.
  unfold env_value. induction env as [|x env IH]; [done|]. cbn [dedupEnv omap list_omap].
  destruct (value_of n x) as [v|] eqn:E.
  - rewrite (value_of_key _ _ _ E). case_bool_decide as Hin.
    + rewrite IH. destruct (omap (value_of n) env) as [|w l] eqn:El; [|by rewrite last_cons_cons].
      exfalso. apply list_elem_of_omap in Hin as (y & Hy & Ey). assert (exists w, value_of n y = Some w) as [w Hw].
      { unfold key_of in Ey. unfold value_of. destruct (Cut EQ y) as [m [w|]]; [|done]. injection Ey as ->. rewrite bool_decide_eq_true_2 by done. eauto. }
      enough (w ∈ @nil bytes) by (by apply elem_of_nil in H). rewrite <- El. apply list_elem_of_omap. eauto.
    + cbn [omap list_omap]. rewrite E, IH. by rewrite (value_of_none n env Hin).
  - destruct (key_of x); [case_bool_decide|]; cbn [omap list_omap]; rewrite ?E; done.
Qed.

(** The program that is run finds the last value given for it. *)
Lemma Getenv_dedup n env : n <> [] -> Getenv n (dedupEnv env) = default [] (env_value n env).
Proof. intros Hn. unfold Getenv. destruct n as [|b n]; [done|]. rewrite dedup_values. by destruct (env_value (b :: n) env). Qed.

Lemma value_of_no_key n x : key_of x = None -> value_of n x = None.
Proof. intros Hk. destruct (value_of n x) as [v|] eqn:E; [|done]. by rewrite (value_of_key _ _ _ E) in Hk. Qed.

Lemma Environ_values n seen raw :
  omap (value_of n) (Environ_from seen raw) = if bool_decide (n ∈ seen) then [] else option_list (head (omap (value_of n) raw)).
Proof.
  revert seen. induction raw as [|x raw IH]; intros seen; [by case_bool_decide|]. cbn [Environ_from].
  destruct (key_of x) as [k|] eqn:Ek.
  - assert (Hne : k <> n -> value_of n x = None).
    { intros Hk. destruct (value_of n x) as [v|] eqn:E; [|done]. apply value_of_key in E. congruence. }
    destruct (bool_decide (k ∈ seen)) eqn:Hs; [apply bool_decide_eq_true in Hs|apply bool_decide_eq_false in Hs];
      cbn [omap list_omap]; rewrite IH.
    + case_bool_decide; [done|]. by rewrite Hne by congruence.
    + destruct (decide (k = n)) as [->|Hk].
      * rewrite (bool_decide_eq_true_2 (n ∈ n :: seen)), (bool_decide_eq_false_2 (n ∈ seen)) by set_solver.
        by destruct (value_of n x) eqn:E; [|exfalso; unfold key_of in Ek; unfold value_of in E; destruct (Cut EQ x) as [m [w|]];
          simplify_eq; rewrite bool_decide_eq_true_2 in E by done].
      * rewrite (Hne Hk). by rewrite (bool_decide_ext (n ∈ k :: seen) (n ∈ seen)) by set_solver.
  - assert (Hn := value_of_no_key n x Ek). destruct x as [|b x]; cbn [omap list_omap]; by rewrite ?Hn, IH.
Qed.

Lemma value_of_entry n m v : EQ ∉ m -> value_of n (env_entry m v) = if bool_decide (m = n) then Some v else None.
Proof. intros Hm. unfold value_of. by rewrite Cut_entry. Qed.

Lemma background_name : EQ ∉ kEnvTsshdBackground.
Proof. apply (bool_decide_unpack _). vm_compute. exact I. Qed.

(** ** Two processes *)

(** The operating system's answers in [background]. *)
Record bg_env := BgEnv { bg_Executable : res bytes; bg_stdoutPipe : bool; bg_stderrPipe : bool; bg_start : bool }.

Inductive bg_error := StdoutPipeFailed | StderrPipeFailed | StartFailed.

(** This is the child; this is the parent, and there is an error or a child. *)
Inductive bg_result := BgChild | BgError (err : bg_error) | BgParent (child : Cmd).

(** [args] is [os.Args], [environ] what the process was started with. *)
Definition background (b : bg_env) (args environ : list bytes) : bg_result :=
  if bool_decide (Getenv kEnvTsshdBackground environ = bs "TRUE") then BgChild
  else
    let exePath := match bg_Executable b with Ok p => p | Err _ => default [] (head args) end in
    let cmd := Command exePath (exePath :: drop 1 args) (Some (Environ environ ++ [env_entry kEnvTsshdBackground (bs "TRUE")])) in
    if negb (bg_stdoutPipe b) then BgError StdoutPipeFailed
    else if negb (bg_stderrPipe b) then BgError StderrPipeFailed
    else if negb (bg_start b) then BgError StartFailed
    else BgParent cmd.

(** What a process of this program is started with. *)
Record image := Image { im_args : list bytes; im_environ : list bytes }.

Definition image_of (c : Cmd) : image := Image (cmd_Argv c) (dedupEnv (default [] (cmd_Env c))).

(** [RunMain] in one process: [e] with the fork as [background] finds it,
    [copied] whether the parent can forward its child's output.  The second
    result is the child, of a parent that comes to start it. *)
Definition run_process (b : bg_env) (copied : bool) (e : main_env) (p : image) : main_result * option image :=
  let bg := background b (im_args p) (im_environ p) in
  let e' := MainEnv (me_opts e) (me_list e) (me_view e) (me_attach e)
              (match bg with BgChild => Child | BgError _ => BackgroundFailed | BgParent _ => Parent copied end)
              (me_config e) (me_init e) (me_exit e) in
  let r := (RunMain false e' (drop 1 (im_args p))).2 in
  (r, match r, bg with Launched _, BgParent c => Some (image_of c) | _, _ => None end).

(** What the child prints. *)
Definition published (init : bytes + bytes) : bytes :=
  match init with
  | inl infoStr => "007"%char :: infoStr ++ [LF]
  | inr err => err ++ [LF]
  end.

Lemma background_child b args environ : background b args (dedupEnv (environ ++ [env_entry kEnvTsshdBackground (bs "TRUE")])) = BgChild.
Proof.
  unfold background. rewrite bool_decide_eq_true_2; [done|]. rewrite Getenv_dedup by done. unfold env_value. rewrite omap_app, last_app. cbn [omap list_omap].
  rewrite value_of_entry by apply background_name. by rewrite bool_decide_eq_true_2.
Qed.

(** The command line asks for a server: no help, no version, no query. *)
Definition asks_server (args : tsshdArgs) : Prop :=
  Help args = false /\ VerShort args = false /\ VerDetailed args = false /\ List_ args = false /\ View args = [] /\ Attach args = [].

Lemma RunMain_fork e words :
  forallb id (me_opts e) = true -> asks_server (parseTsshdArgs words) ->
  (RunMain false e words).2 =
    match me_background e with
    | BackgroundFailed => Returned kExitCodeBackground
    | Parent copied => Launched (if copied then kExitCodeNormal else kExitCodeOutputFail)
    | Child => let a := server_args e (parseTsshdArgs words) in
               if me_init e then Served a (warnings_enabled e a) (Attachable a && Socket a) (me_exit e) else Returned kExitCodeInitServer
    end.
Proof.
  intros Hopts (Hh & Hv & Hd & Hl & Hvw & Hat). unfold RunMain. rewrite Hopts. cbn [negb snd]. cbv zeta.
  by rewrite Hh, Hv, Hd, Hl, Hvw, Hat, !bool_decide_eq_true_2.
Qed.

Lemma RunMain_launched e words code :
  (RunMain false e words).2 = Launched code ->
  forallb id (me_opts e) = true /\ asks_server (parseTsshdArgs words) /\ exists copied, me_background e = Parent copied.
Proof.
  unfold RunMain, asks_server. cbv zeta. cbn [snd]. destruct (forallb id (me_opts e)); [|done]. cbn [negb].
  destruct (Help _), (VerShort _), (VerDetailed _), (List_ _); try done. cbn [orb].
  destruct (decide (View (parseTsshdArgs words) = [])) as [Hv|Hv];
    [rewrite (bool_decide_eq_true_2 _ Hv)|by rewrite (bool_decide_eq_false_2 _ Hv)]. cbn [negb].
  destruct (decide (Attach (parseTsshdArgs words) = [])) as [Ha|Ha];
    [rewrite (bool_decide_eq_true_2 _ Ha)|by rewrite (bool_decide_eq_false_2 _ Ha)]. cbn [negb].
  destruct (me_background e) as [|copied|]; [done| |by destruct (me_init e)]. intros _. split_and!; try done. by exists copied.
Qed.

(** The environment of the child, but for the mark. *)
Lemma child_environ n environ :
  n <> kEnvTsshdBackground ->
  Getenv n (dedupEnv (Environ environ ++ [env_entry kEnvTsshdBackground (bs "TRUE")])) = Getenv n environ.
Proof.
  intros Hn. destruct n as [|b n]; [done|]. rewrite Getenv_dedup by done. unfold Getenv, env_value, Environ.
  rewrite omap_app, Environ_values. cbn [omap list_omap]. rewrite value_of_entry by apply background_name.
  rewrite bool_decide_eq_false_2 by set_solver. rewrite bool_decide_eq_false_2 by congruence.
  rewrite app_nil_r. by destruct (head _).
Qed.

(** C26: a daemon is started with two processes and no more.  A process starts a
    child exactly when the caller's options are accepted, the command line asks
    for a server, the environment has no mark, and the operating system gives
    the pipes and starts it.  It then ends with code 0, or with 92 if the child's
    output cannot be forwarded; the child has the words and, but for the mark,
    the environment of its parent, serves with the arguments as they were given,
    or ends with code 93 when the server cannot be set up, and starts no process
    itself. *)
Theorem daemon_starts_once b copied e args environ :
  let '(r, child) := run_process b copied e (Image args environ) in
  (is_Some child <->
     forallb id (me_opts e) = true /\ asks_server (parseTsshdArgs (drop 1 args)) /\
     Getenv kEnvTsshdBackground environ <> bs "TRUE" /\ bg_stdoutPipe b && bg_stderrPipe b && bg_start b = true) /\
  match child with
  | None => forall code, r <> Launched code
  | Some c =>
      r = Launched (if copied then kExitCodeNormal else kExitCodeOutputFail) /\
      drop 1 (im_args c) = drop 1 args /\
      (forall n, n <> kEnvTsshdBackground -> Getenv n (im_environ c) = Getenv n environ) /\
      forall b2 copied2, exists warnings socket,
        run_process b2 copied2 e c =
          (if me_init e then Served (server_args e (parseTsshdArgs (drop 1 args))) warnings socket (me_exit e)
           else Returned kExitCodeInitServer, None)
  end.
Proof.
  unfold run_process at 1. cbn [im_args im_environ]. set (bg := background b args environ). set (e' := MainEnv _ _ _ _ _ _ _ _).
  assert (Hbg : (exists c, bg = BgParent c /\ drop 1 (cmd_Argv c) = drop 1 args /\
      cmd_Env c = Some (Environ environ ++ [env_entry kEnvTsshdBackground (bs "TRUE")])) /\
      Getenv kEnvTsshdBackground environ <> bs "TRUE" /\ bg_stdoutPipe b && bg_stderrPipe b && bg_start b = true \/
    (forall c, bg <> BgParent c) /\
      ~ (Getenv kEnvTsshdBackground environ <> bs "TRUE" /\ bg_stdoutPipe b && bg_stderrPipe b && bg_start b = true)).
  { unfold bg, background. case_bool_decide as Hm; [right; naive_solver|].
    destruct (bg_stdoutPipe b), (bg_stderrPipe b), (bg_start b); cbn [negb]; try (right; naive_solver).
    left. split; [|done]. eexists. split_and!; [done|cbn; by rewrite drop_0|done]. }
  destruct Hbg as [((c & Ec & Hargs & Henv) & Hun & Hos)|[Hno Hcond]].
  - destruct ((RunMain false e' (drop 1 args)).2) as [code|code|] eqn:Er.
    2: { destruct (RunMain_launched _ _ _ Er) as (Ho & Ha & _). rewrite Ec. split; [by split; [|eauto]|].
         rewrite (RunMain_fork e' _ Ho Ha) in Er. cbn [me_background e'] in Er. rewrite Ec in Er. split_and!; [by injection Er as <-|done| |].
         - intros n Hn. cbn [image_of im_environ]. rewrite Henv. by apply child_environ.
         - intros b2 copied2. unfold run_process. cbn [image_of im_args im_environ]. rewrite Henv. cbn [default from_option id].
           rewrite background_child, Hargs. rewrite RunMain_fork by done. cbn [me_background me_init].
           eexists _, _. by destruct (me_init e). }
    all: split; [|done]; split; [by intros []|]; intros (Ho & Ha & _).
    all: rewrite (RunMain_fork e' _ Ho Ha) in Er; cbn [me_background e'] in Er; by rewrite Ec in Er.
  - assert (Hr : forall code, (RunMain false e' (drop 1 args)).2 <> Launched code).
    { intros code Er. destruct (RunMain_launched _ _ _ Er) as (_ & _ & cp & Hp). cbn in Hp. destruct bg; naive_solver. }
    destruct ((RunMain false e' (drop 1 args)).2) as [code|code|]; [|by destruct (Hr code)|];
      (split; [|done]); (split; [by intros []|]); intros (_ & _ & H1 & H2); by destruct Hcond.
Qed.

(** A tsshd that is started from a session is a launcher again: the mark is taken
    out of the environment, unless the client is allowed to set it. *)
Theorem session_starts_daemon b e msg args :
  accepted e kEnvTsshdBackground = false -> Forall (fun nv => EQ ∉ nv.1) (st_Envs msg) ->
  background b args (dedupEnv (getEnvironments e msg)) <> BgChild.
Proof.
  intros Ha Hq. assert (E : env_value kEnvTsshdBackground (getEnvironments e msg) = None).
  { unfold env_value, getEnvironments. rewrite omap_app, omap_filter_none, app_nil_r.
    - assert (Hc : omap (value_of kEnvTsshdBackground) ((fun nv => env_entry nv.1 nv.2) <$> client_envs e (st_Envs msg)) = []); [|by rewrite Hc].
      unfold client_envs. induction Hq as [|[n v] l Hn _ IH]; [done|]. rewrite filter_cons. cbn [fst]. case_decide as Hac; [|done].
      cbn [fmap list_fmap omap list_omap fst snd]. rewrite value_of_entry by done. rewrite bool_decide_eq_false_2; [done|]. intros ->. congruence.
    - intros x v Hv Hk. revert Hk. unfold keeps_env. unfold value_of, Cut in Hv. destruct (bytes_IndexByte x EQ) as [pos|]; [|done].
      case_bool_decide as Hm; [|done]. rewrite Hm. destruct pos; done. }
  unfold background. rewrite Getenv_dedup, E by done. cbn. repeat case_match; done.
Qed.

Definition quiet_main : main_env := MainEnv [true] 98 (fun _ => 99) (fun _ => 100) Child (me_config example_env) true 0.

(** Of the two values of [HOME] the first counts, in both processes. *)
Lemma daemon_starts_once_witness :
  exists child, run_process (BgEnv (Ok (bs "/usr/bin/tsshd")) true true true) true quiet_main
      (Image [bs "tsshd"; bs "--kcp"] [bs "HOME=/root"; bs "TRZSZ-SSHD-BACKGROUND=no"; bs "HOME=/tmp"]) = (Launched 0, Some child) /\
    child = Image [bs "/usr/bin/tsshd"; bs "--kcp"] [bs "HOME=/root"; bs "TRZSZ-SSHD-BACKGROUND=TRUE"] /\
    Getenv (bs "HOME") (im_environ child) = bs "/root".
Proof.
  pose proof (daemon_starts_once (BgEnv (Ok (bs "/usr/bin/tsshd")) true true true) true quiet_main
    [bs "tsshd"; bs "--kcp"] [bs "HOME=/root"; bs "TRZSZ-SSHD-BACKGROUND=no"; bs "HOME=/tmp"]) as H.
  destruct (run_process _ _ _ _) as [r child] eqn:E. vm_compute in E. injection E as <- <-. destruct H as (_ & _ & _ & Henv & _).
  eexists. split; [reflexivity|]. split; [reflexivity|]. rewrite Henv; [vm_compute; reflexivity|discriminate].
Defined.

(** ** Leaving *)

(** The exit functions that the debug log depends on, and others. *)
Inductive exit_fn := CloseLog | CloseServer | OtherFn (n : nat).

(** [dl_file]: the log, open or not, if it is there.  [dl_enabled] is
    [enableDebugLogging], [dl_cleanup] is [cleanupDebugLog]. *)
Record daemon := Daemon {
  dl_enabled : bool;
  dl_file : option bool;
  dl_cleanup : bool;
  dl_funcs : list exit_fn
}.

Definition no_daemon : daemon := Daemon false None false [].

Definition add_fn (fn : exit_fn) (d : daemon) : daemon := Daemon (dl_enabled d) (dl_file d) (dl_cleanup d) (dl_funcs d ++ [fn]).

(** [created]: whether the file can be created. *)
Definition initDebugLogging (created : bool) (d : daemon) : daemon :=
  if created then add_fn CloseLog (Daemon true (Some true) (dl_cleanup d) (dl_funcs d))
  else Daemon true (dl_file d) (dl_cleanup d) (dl_funcs d).

(** [alive]: whether there is an active server, and whether its client is alive
    after it was closed. *)
Definition run_fn (alive : option bool) (d : daemon) (fn : exit_fn) : daemon :=
  match fn with
  | CloseLog => Daemon (dl_enabled d) (if dl_cleanup d then None else (fun _ => false) <$> dl_file d) (dl_cleanup d) (dl_funcs d)
  | CloseServer => match alive with
                   | Some true => if dl_enabled d then Daemon true (dl_file d) true (dl_funcs d) else d
                   | _ => d
                   end
  | OtherFn _ => d
  end.

Definition run_on_exit (alive : option bool) (d : daemon) : daemon :=
  foldl (run_fn alive) (Daemon (dl_enabled d) (dl_file d) (dl_cleanup d) []) (reverse (dl_funcs d)).

(** The functions as [RunMain] and what it starts add them: those of the
    transport, that of the server, those of the sessions. *)
Definition registered (debug created : bool) (before after : list nat) : daemon :=
  let d0 := if debug then initDebugLogging created no_daemon else no_daemon in
  let d1 := foldl (fun d n => add_fn (OtherFn n) d) d0 before in
  foldl (fun d n => add_fn (OtherFn n) d) (add_fn CloseServer d1) after.

Lemma add_others l d : foldl (fun d n => add_fn (OtherFn n) d) d l = Daemon (dl_enabled d) (dl_file d) (dl_cleanup d) (dl_funcs d ++ (OtherFn <$> l)).
Proof. revert d. induction l as [|n l IH]; intros []; cbn; [by rewrite app_nil_r|]. rewrite IH. cbn. by rewrite <- app_assoc. Qed.

Lemma run_others alive l d : foldl (run_fn alive) d (reverse (OtherFn <$> l)) = d.
Proof. induction l as [|n l IH] using rev_ind; [done|]. by rewrite fmap_app, reverse_app. Qed.

(** The log of a daemon is closed at its end, and is deleted exactly if its
    client is still there, because the function that finds out runs before the
    one that closes the log, which was added first. *)
Theorem debug_log_deleted_iff debug created before after alive :
  let d := run_on_exit alive (registered debug created before after) in
  dl_file d = (if debug && created && negb (bool_decide (alive = Some true)) then Some false else None) /\ dl_funcs d = [].
Proof.
  intros d. unfold d, registered, run_on_exit. rewrite !add_others. destruct debug, created; cbn [initDebugLogging no_daemon add_fn dl_funcs dl_enabled dl_file dl_cleanup];
    rewrite !reverse_app, !foldl_app, run_others; cbn [reverse app]; cbn;
    destruct alive as [[]|]; cbn; rewrite ?run_others; cbn; split; done.
Qed.

(** *** Signals *)

Definition kExitCodeSignalKill : Z := 96.

(** A call of [exitWithCode], at a time. *)
Record exit_call := ExitCall { xc_at : Z; xc_code : Z }.

(** What the handler of a signal at [t] does: the forced exit a second later, and
    the message to the client, if there is one. *)
Definition handleExitSignals (t : Z) (active : bool) : exit_call * bool := (ExitCall (t + second) kExitCodeSignalKill, active).

(** The code that [RunMain] returns, the calls being in the order of time. *)
Definition exit_code (calls : list exit_call) : option Z := foldl exitWithCode None (xc_code <$> calls).

Lemma exit_code_first calls : exit_code calls = xc_code <$> head calls.
Proof.
  destruct calls as [|c calls]; [done|]. unfold exit_code. cbn. induction calls as [|x calls IH]; [done|]. exact IH.
Qed.

(** A signal ends the process within a second, with the code of whatever was
    first to end it. *)
Theorem signal_ends_daemon t active before after :
  let kill := (handleExitSignals t active).1 in
  Forall (fun c => xc_at c <= xc_at kill) before ->
  exists c, head (before ++ kill :: after) = Some c /\ exit_code (before ++ kill :: after) = Some (xc_code c) /\ xc_at c <= t + second /\
    (before = [] -> xc_code c = kExitCodeSignalKill).
Proof. intros kill Hb. destruct before as [|c before]; eexists; rewrite exit_code_first; cbn; (split_and!; [done..| |done]); [apply Z.le_refl|by inv Hb]. Qed.

(** ** The version *)

Definition kTsshdVersion : bytes := bs "0.1.9".

(** The loop over [info.Settings]: the last value of a key. *)
Definition setting (key : string) (settings : list (bytes * bytes)) : bytes :=
  default [] (last (omap (fun kv => if bool_decide (kv.1 = bs key) then Some kv.2 else None) settings)).

Definition DASH : byte := "-"%char.

Definition is_lower_hex (b : byte) : bool :=
  let v := Z_of_byte b in ((48 <=? v) && (v <=? 57)) || ((97 <=? v) && (v <=? 102)).

(** [FindStringSubmatch] of [^tsshd@[^-]+-[^-]+-([0-9a-f]{12,})$]. *)
Definition pseudo_hash (name : bytes) : option bytes :=
  match Split DASH name with
  | [a; b; h] =>
      if has_prefix a (bs "tsshd@") && negb (bool_decide (drop 6 a = [])) && negb (bool_decide (b = []))
         && forallb is_lower_hex h && (12 <=? length h)%nat then Some h else None
  | _ => None
  end.

(** [file]: the path of the source, of which only the directory above its own is
    used, [moduleDir]. *)
Definition getTsshdVersion (buildTag : bytes) (info : option (list (bytes * bytes))) (file moduleDir : bytes) : bytes :=
  bs "trzsz sshd " ++ kTsshdVersion ++
  (match buildTag with [] => [] | _ => bs "(" ++ buildTag ++ bs ")" end) ++
  match info with
  | None => []
  | Some settings =>
      if bool_decide (setting "vcs" settings = bs "git") then
        match setting "vcs.revision" settings with
        | [] => []
        | revision => DASH :: take 7 revision ++ (if EqualFold (setting "vcs.modified" settings) "true" then bs "-m" else [])
        end
      else match bytes_Index file (bs "/pkg/mod/github.com/trzsz/tsshd@") with
           | None => []
           | Some _ => match pseudo_hash moduleDir with None => [] | Some h => bs "." ++ take 7 h end
           end
  end.

(** What the expression says. *)
Definition pseudo_version (name h : bytes) : Prop :=
  exists a b, name = bs "tsshd@" ++ a ++ DASH :: b ++ DASH :: h /\ a <> [] /\ (DASH ∉ a) /\ b <> [] /\ (DASH ∉ b) /\
    Forall (fun c => is_lower_hex c = true) h /\ (12 <= length h)%nat.

Lemma split_from_length sep cur s l : split_from sep cur s = l -> exists w l', l = (cur ++ w) :: l' /\ (sep ∉ w) /\ s = join sep (w :: l') /\ Forall (fun x => sep ∉ x) l'.
Proof.
  revert cur l. induction s as [|b s IH]; intros cur l; cbn [split_from].
  - intros <-. exists [], []. rewrite app_nil_r. split_and!; [done|apply not_elem_of_nil|done|constructor].
  - destruct (ascii_dec b sep) as [->|Hb].
    + intros <-. destruct (IH [] _ eq_refl) as (w & l' & E & Hw & Hs & Hl). exists [], (w :: l'). rewrite app_nil_r, E. cbn [app].
      split_and!; [done|apply not_elem_of_nil|by rewrite Hs|by constructor].
    + intros (w & l' & -> & Hw & Hs & Hl)%IH. exists (b :: w), l'. rewrite <- app_assoc. cbn [app]. split_and!; [done|set_solver| |done].
      rewrite Hs. by destruct l'.
Qed.

(** The parts of a name are found as the expression would. *)
Theorem pseudo_hash_equiv name h : pseudo_hash name = Some h <-> pseudo_version name h.
Proof.
  unfold pseudo_hash, pseudo_version. split.
  - unfold Split. destruct (split_from DASH [] name) as [|a [|b [|h' [|]]]] eqn:E; try done.
    apply split_from_length in E as (w & l' & El & Hw & Hs & Hl). cbn [app] in El. injection El as <- <-.
    destruct (has_prefix a (bs "tsshd@")) eqn:Hp; [|done]. destruct (bool_decide_reflect (drop 6 a = [])); [done|].
    destruct (bool_decide_reflect (b = [])); [done|]. destruct (forallb is_lower_hex h') eqn:Hh; [|done].
    destruct (Nat.leb_spec 12 (length h')); [|done]. intros [= ->]. apply has_prefix_spec in Hp as [a' ->]. exists a', b.
    apply Forall_cons in Hl as [Hb _]. cbn in Hs. split_and!; [by rewrite Hs| |set_solver|done|done| |done].
    + by intros ->.
    + apply Forall_forall. intros x Hx. rewrite forallb_forall in Hh. by apply Hh, list_elem_of_In.
  - intros (a & b & -> & Ha & Hda & Hb & Hdb & Hh & Hl).
    assert (E : Split DASH (bs "tsshd@" ++ a ++ DASH :: b ++ DASH :: h) = [bs "tsshd@" ++ a; b; h]).
    { rewrite app_assoc. apply (Split_join DASH [bs "tsshd@" ++ a; b; h]); [done|]. repeat constructor; [| |].
      - cbn. set_solver.
      - done.
      - intros Hin. rewrite Forall_forall in Hh. by specialize (Hh _ Hin). }
    rewrite E, has_prefix_app. replace (drop 6 (bs "tsshd@" ++ a)) with a by done. rewrite !bool_decide_eq_false_2 by done. cbn [negb andb].
    assert (forallb is_lower_hex h = true) as -> by (apply forallb_forall; intros x Hx; rewrite Forall_forall in Hh; by apply Hh, list_elem_of_In).
    by rewrite (proj2 (Nat.leb_le _ _) Hl).
Qed.
