(* ===== verification/Client.v ===== *)
(** * Client: the client library ([client.go])

    Sessions, connections and listeners of a [SshUdpClient]; the wait group
    that [Wait] waits for; the commands it writes to the bus; [Detach] and
    [Close].  A call of the library is one step, and so is a message from the
    server.  A command for the bus is written in a step of its own, when its
    sender gets the lock of the bus. *)

From Stdlib Require Import ZArith Lia Ascii String.
From stdpp Require Import base list strings gmap.
From S2P Require Import Prelude GoStrings Decimal Wire Output Config Main Datagram Server Bus.
Open Scope Z_scope.

(** ** State *)

Definition kTsshdProtocol : Z := 2.

(** [cs_exitWG]: the counter of the session's wait group, apart from its
    output forwarders; [cs_outputMarker]: the marker stored in those forwarders,
    where the session has them. *)
Record SshUdpSession := CSession {
  cs_id : Z;
  cs_exitWG : Z;
  cs_started : bool;
  cs_closed : bool;
  cs_height : Z;
  cs_width : Z;
  cs_code : Z;
  cs_inputMarker : option bytes;
  cs_pty : bool;
  cs_envs : gmap string string;
  cs_outputMarker : option bytes
}.

(** A connection, a channel or a listener; [cn_udp] is the packet connection of
    a UDP one. *)
Record conn := Conn { cn_closed : bool; cn_udp : option packetConn }.

(** A goroutine on its way to the bus: one that has found [detached] unset and
    will write the command, or the one of [Detach] with its notice. *)
Inductive sender := Send (cmd : bus_command) | Notice.

(** Sessions and connections are known by their position in the lists.
    [c_sent], what was written to the bus, is history; [c_pending] are the
    senders that wait for [busMutex]. *)
Record SshUdpClient := Client {
  c_protoVersion : Z;
  c_kcp : bool;
  c_bus : bool;
  c_closed : bool;
  c_detached : bool;
  c_quited : bool;
  c_sessionID : Z;
  c_sessionMap : gmap Z nat;
  c_sessions : list SshUdpSession;
  c_conns : list conn;
  c_exitWG : Z;
  c_channelMap : gmap string unit;
  c_forwarder : udpForwarder;
  c_sent : list bus_command;
  c_keepPendingInput : bool;
  c_pending : list sender
}.

(** [None]: the server is too old.  [serverProto] is the protocol the server
    announces, [nextSessionID] its answer on the bus. *)
Definition NewSshUdpClient (serverProto : Z) (serverVer : bytes) (kcp : bool) (nextSessionID : Z) : option SshUdpClient :=
  match version_gate (BusMessage serverVer serverProto 0 0 0) with
  | Some _ => None
  | None => Some (Client (Z.min serverProto kTsshdProtocol) kcp true false false false nextSessionID ∅ [] [] 0 ∅ newForwarder [] false [])
  end.

(** ** Updates *)

Definition set_sessions (m : gmap Z nat) (l : list SshUdpSession) (wg : Z) (c : SshUdpClient) : SshUdpClient :=
  Client (c_protoVersion c) (c_kcp c) (c_bus c) (c_closed c) (c_detached c) (c_quited c) (c_sessionID c) m l
    (c_conns c) wg (c_channelMap c) (c_forwarder c) (c_sent c) (c_keepPendingInput c) (c_pending c).

Definition set_conns (l : list conn) (wg : Z) (c : SshUdpClient) : SshUdpClient :=
  Client (c_protoVersion c) (c_kcp c) (c_bus c) (c_closed c) (c_detached c) (c_quited c) (c_sessionID c) (c_sessionMap c)
    (c_sessions c) l wg (c_channelMap c) (c_forwarder c) (c_sent c) (c_keepPendingInput c) (c_pending c).

Definition set_flags (closed detached quited : bool) (c : SshUdpClient) : SshUdpClient :=
  Client (c_protoVersion c) (c_kcp c) (c_bus c) closed detached quited (c_sessionID c) (c_sessionMap c)
    (c_sessions c) (c_conns c) (c_exitWG c) (c_channelMap c) (c_forwarder c) (c_sent c) (c_keepPendingInput c) (c_pending c).

(** [sendCommand] on the bus stream. *)
Definition write_bus (cmd : bus_command) (c : SshUdpClient) : SshUdpClient :=
  Client (c_protoVersion c) (c_kcp c) (c_bus c) (c_closed c) (c_detached c) (c_quited c) (c_sessionID c) (c_sessionMap c)
    (c_sessions c) (c_conns c) (c_exitWG c) (c_channelMap c) (c_forwarder c) (c_sent c ++ [cmd]) (c_keepPendingInput c) (c_pending c).

Definition set_pending (l : list sender) (c : SshUdpClient) : SshUdpClient :=
  Client (c_protoVersion c) (c_kcp c) (c_bus c) (c_closed c) (c_detached c) (c_quited c) (c_sessionID c) (c_sessionMap c)
    (c_sessions c) (c_conns c) (c_exitWG c) (c_channelMap c) (c_forwarder c) (c_sent c) (c_keepPendingInput c) l.

(** [sendBusCommand] and [sendBusMessage] up to [busMutex]: the check of
    [detached] comes before the lock. *)
Definition sendBus (cmd : bus_command) (c : SshUdpClient) : SshUdpClient :=
  if c_detached c then c else set_pending (c_pending c ++ [Send cmd]) c.

(** [exitWG.Done]; [None] is the panic of a negative counter. *)
Definition Done (wg : Z) : option Z := if wg <=? 0 then None else Some (wg - 1).

Definition on_session (g : SshUdpSession -> SshUdpSession) (h : nat) (c : SshUdpClient) : SshUdpClient :=
  set_sessions (c_sessionMap c) (alter g h (c_sessions c)) (c_exitWG c) c.

(** ** Opening *)

(** [streamOk]: the stream could be opened and acknowledged. *)
Definition NewSession (streamOk : bool) (c : SshUdpClient) : SshUdpClient :=
  if negb streamOk then c
  else
    let id := c_sessionID c in
    let h := length (c_sessions c) in
    Client (c_protoVersion c) (c_kcp c) (c_bus c) (c_closed c) (c_detached c) (c_quited c) (u64 (id + 1))
      (<[id := h]> (c_sessionMap c)) (c_sessions c ++ [CSession id 1 false false 0 0 0 None false ∅ None]) (c_conns c)
      (c_exitWG c + 1) (c_channelMap c) (c_forwarder c) (c_sent c) (c_keepPendingInput c) (c_pending c).

Definition set_forwarder (f : udpForwarder) (c : SshUdpClient) : SshUdpClient :=
  Client (c_protoVersion c) (c_kcp c) (c_bus c) (c_closed c) (c_detached c) (c_quited c) (c_sessionID c)
    (c_sessionMap c) (c_sessions c) (c_conns c) (c_exitWG c) (c_channelMap c) f (c_sent c) (c_keepPendingInput c) (c_pending c).

Definition add_conn (udp : option packetConn) (c : SshUdpClient) : SshUdpClient :=
  set_conns (c_conns c ++ [Conn false udp]) (c_exitWG c + 1) c.

(** [DialTimeout], [Listen], [ListenUDP], [sshUdpListener.Accept] and
    [sshUdpNewChannel.Accept]: open a stream, send the request, receive the
    answer; the stream is closed when either fails. *)
Definition open_conn (streamOk sendOk recvOk : bool) (c : SshUdpClient) : SshUdpClient :=
  if streamOk && sendOk && recvOk then add_conn None c else c.

(** [newPacketConn] with the forwarder of the client. *)
Definition udp_conn (id : Z) (c : SshUdpClient) : packetConn * udpForwarder :=
  let '(f, ch) := addChannel (c_forwarder c) id in (PacketConn true true id ch false false, f).

(** [dialUDP]: the packet connection is closed when the ready message cannot be
    sent. *)
Definition dialUDP (streamOk sendOk recvOk : bool) (id : Z) (readyOk : bool) (c : SshUdpClient) : SshUdpClient :=
  if streamOk && sendOk && recvOk then
    let '(pc, f) := udp_conn id c in
    if readyOk then add_conn (Some pc) (set_forwarder f c) else set_forwarder (packet_Close pc f).2 c
  else c.

(** [AcceptUDP]: after a failure only the stream is closed. *)
Definition AcceptUDP (msgOk streamOk : bool) (id : Z) (sendOk recvOk : bool) (c : SshUdpClient) : SshUdpClient :=
  if msgOk && streamOk then
    let '(pc, f) := udp_conn id c in
    if sendOk && recvOk then add_conn (Some pc) (set_forwarder f c) else set_forwarder f c
  else c.

(** [Close] of any of them. *)
Definition conn_Close (i : nat) (c : SshUdpClient) : option SshUdpClient :=
  match c_conns c !! i with
  | None => Some c
  | Some k =>
      if cn_closed k then Some c
      else
        let '(udp, f) := match cn_udp k with
                         | Some pc => let '(pc', f) := packet_Close pc (c_forwarder c) in (Some pc', f)
                         | None => (None, c_forwarder c)
                         end in
        match Done (c_exitWG c) with
        | None => None
        | Some wg => Some (set_conns (<[i := Conn true udp]> (c_conns c)) wg (set_forwarder f c))
        end
  end.

Definition kAgentChannelType : string := "auth-agent@openssh.com".
Definition kX11ChannelType : string := "x11".

(** [true]: a channel is returned. *)
Definition HandleChannelOpen (channelType : string) (c : SshUdpClient) : SshUdpClient * bool :=
  match c_channelMap c !! channelType with
  | Some _ => (c, false)
  | None =>
      if bool_decide (channelType = kAgentChannelType) || bool_decide (channelType = kX11ChannelType)
      then (Client (c_protoVersion c) (c_kcp c) (c_bus c) (c_closed c) (c_detached c) (c_quited c) (c_sessionID c)
              (c_sessionMap c) (c_sessions c) (c_conns c) (c_exitWG c) (<[channelType := tt]> (c_channelMap c))
              (c_forwarder c) (c_sent c) (c_keepPendingInput c) (c_pending c), true)
      else (c, false)
  end.

(** ** Sessions *)

Definition start (s : SshUdpSession) : SshUdpSession :=
  CSession (cs_id s) (cs_exitWG s) true (cs_closed s) (cs_height s) (cs_width s) (cs_code s) (cs_inputMarker s) (cs_pty s) (cs_envs s) (cs_outputMarker s).

(** What [startSession] answers. *)
Inductive start_result := AlreadyStarted | StartFailed | Started.

(** [serverOk]: the message was sent and the server answered success. *)
Definition startSession (h : nat) (serverOk : bool) (c : SshUdpClient) : SshUdpClient * start_result :=
  match c_sessions c !! h with
  | None => (c, AlreadyStarted)
  | Some s =>
      if cs_started s then (c, AlreadyStarted)
      else (on_session start h c, if serverOk then Started else StartFailed)
  end.

Definition with_id (id : Z) (s : SshUdpSession) : SshUdpSession :=
  CSession id (cs_exitWG s) (cs_started s) (cs_closed s) (cs_height s) (cs_width s) (cs_code s) (cs_inputMarker s) (cs_pty s) (cs_envs s) (cs_outputMarker s).

Definition Attach (h : nat) (id : Z) (serverOk : bool) (c : SshUdpClient) : SshUdpClient * start_result :=
  match c_sessions c !! h with
  | None => (c, AlreadyStarted)
  | Some s =>
      let m := delete (cs_id s) (<[id := h]> (c_sessionMap c)) in
      startSession h serverOk (set_sessions m (alter (with_id id) h (c_sessions c)) (c_exitWG c) c)
  end.

Definition close_session (s : SshUdpSession) : SshUdpSession :=
  CSession (cs_id s) (cs_exitWG s) (cs_started s) true (cs_height s) (cs_width s) (cs_code s) (cs_inputMarker s) (cs_pty s) (cs_envs s) (cs_outputMarker s).

(** [SshUdpSession.Close]: the server is asked to end the session unless it has
    exited already.  [drained]: the output forwarders, which the session's wait
    group also counts, have ended within the time allowed. *)
Definition session_Close (h : nat) (drained : bool) (c : SshUdpClient) : SshUdpClient :=
  match c_sessions c !! h with
  | None => c
  | Some s =>
      if cs_closed s then c
      else
        let c1 := on_session close_session h c in
        if c_detached c then c1
        else if (cs_exitWG s =? 0) && drained then c1
        else sendBus (CExit (ExitMessage (cs_id s) 0)) c1
  end.

Definition resize_session (height width : Z) (s : SshUdpSession) : SshUdpSession :=
  CSession (cs_id s) (cs_exitWG s) (cs_started s) (cs_closed s) height width (cs_code s) (cs_inputMarker s) (cs_pty s) (cs_envs s) (cs_outputMarker s).

Definition WindowChange (h : nat) (height width : Z) (c : SshUdpClient) : SshUdpClient :=
  match c_sessions c !! h with
  | None => c
  | Some s => sendBus (CResize (ResizeMessage (cs_id s) width height false None)) (on_session (resize_session height width) h c)
  end.

(** [RequestPty] sets the size without telling the server. *)
Definition request_pty (term : string) (height width : Z) (s : SshUdpSession) : SshUdpSession :=
  CSession (cs_id s) (cs_exitWG s) (cs_started s) (cs_closed s) height width (cs_code s) (cs_inputMarker s) true
    (<["TERM"%string := term]> (cs_envs s)) (cs_outputMarker s).

Definition RequestPty (h : nat) (term : string) (height width : Z) (c : SshUdpClient) : SshUdpClient :=
  on_session (request_pty term height width) h c.

Definition output_mark (m : bytes) (s : SshUdpSession) : SshUdpSession :=
  CSession (cs_id s) (cs_exitWG s) (cs_started s) (cs_closed s) (cs_height s) (cs_width s) (cs_code s) (cs_inputMarker s)
    (cs_pty s) (cs_envs s) (Some m).

(** [marker] is the random marker, used if the protocol allows. *)
Definition RedrawScreen (h : nat) (discardPreviousOutput : bool) (marker : bytes) (c : SshUdpClient) : SshUdpClient :=
  match c_sessions c !! h with
  | None => c
  | Some s =>
      if (cs_height s <=? 0) || (cs_width s <=? 0) then c
      else
        let m := if discardPreviousOutput && (1 <=? c_protoVersion c) then Some marker else None in
        sendBus (CResize (ResizeMessage (cs_id s) (cs_width s) (cs_height s) true m))
          match m with Some mk => on_session (output_mark mk) h c | None => c end
  end.

Definition SetKeepPendingInput (keep : bool) (c : SshUdpClient) : SshUdpClient :=
  sendBus (CSetting (SettingsMessage (Some keep) None))
    (Client (c_protoVersion c) (c_kcp c) (c_bus c) (c_closed c) (c_detached c) (c_quited c) (c_sessionID c) (c_sessionMap c)
       (c_sessions c) (c_conns c) (c_exitWG c) (c_channelMap c) (c_forwarder c) (c_sent c) keep (c_pending c)).

Definition SetKeepPendingOutput (keep : bool) (c : SshUdpClient) : SshUdpClient :=
  sendBus (CSetting (SettingsMessage None (Some keep))) c.

(** One tick of [keepAlive]. *)
Definition keepAlive_tick (now : Z) (c : SshUdpClient) : SshUdpClient :=
  if c_closed c then c else sendBus (CAlive (AliveMessage now)) c.

(** ** Leaving *)

(** Closing the transport and the proxy below is the subject of [Path]. *)
Definition Close (c : SshUdpClient) : SshUdpClient :=
  if c_closed c then c
  else
    let c1 := set_flags true (c_detached c) (c_quited c) c in
    if c_bus c && negb (c_detached c) then sendBus CClose c1 else c1.

(** [notifyServerDetach] up to [busMutex]; [true]: it waits for it. *)
Definition notifyServerDetach (c : SshUdpClient) : SshUdpClient * bool :=
  if c_protoVersion c <? 2 then (c, false)
  else if negb (c_kcp c) then (c, false)
  else (set_pending (c_pending c ++ [Notice]) c, true).

Definition Detach (c : SshUdpClient) : SshUdpClient :=
  if c_detached c then c
  else
    let '(c1, waits) := notifyServerDetach (set_flags (c_closed c) true (c_quited c) c) in
    if waits then c1 else Close c1.

(** The [i]th waiting sender gets [busMutex]; [ok]: the write succeeds.  The one
    of [Detach] closes the client afterwards; what it waits for in between
    changes nothing here. *)
Definition locked (i : nat) (ok : bool) (c : SshUdpClient) : SshUdpClient :=
  match c_pending c !! i with
  | None => c
  | Some p =>
      let c1 := set_pending (delete i (c_pending c)) c in
      match p with
      | Send cmd => if ok then write_bus cmd c1 else c1
      | Notice => Close (if c_bus c && ok then write_bus CDetach c1 else c1)
      end
  end.

(** ** Messages from the server *)

Definition exit (code : Z) (s : SshUdpSession) : option SshUdpSession :=
  match Done (cs_exitWG s) with
  | None => None
  | Some wg => Some (CSession (cs_id s) wg (cs_started s) (cs_closed s) (cs_height s) (cs_width s) code (cs_inputMarker s) (cs_pty s) (cs_envs s) (cs_outputMarker s))
  end.

Definition handleExitEvent (id code : Z) (c : SshUdpClient) : option SshUdpClient :=
  match c_sessionMap c !! id with
  | None => Some c
  | Some h =>
      match c_sessions c !! h with
      | None => Some c
      | Some s =>
          match exit code s, Done (c_exitWG c) with
          | Some s', Some wg => Some (set_sessions (delete id (c_sessionMap c)) (<[h := s']> (c_sessions c)) wg c)
          | _, _ => None
          end
      end
  end.

Definition handleQuitEvent (c : SshUdpClient) : SshUdpClient := set_flags (c_closed c) (c_detached c) true c.

Definition mark (m : bytes) (s : SshUdpSession) : SshUdpSession :=
  CSession (cs_id s) (cs_exitWG s) (cs_started s) (cs_closed s) (cs_height s) (cs_width s) (cs_code s) (Some m) (cs_pty s) (cs_envs s) (cs_outputMarker s).

(** Every session of the map gets the marker. *)
Definition handleDiscardEvent (marker : bytes) (c : SshUdpClient) : SshUdpClient :=
  match marker with
  | [] => c
  | _ => set_sessions (c_sessionMap c)
           (imap (fun h s => if bool_decide (map_Exists (fun _ h' => h' = h) (c_sessionMap c)) then mark marker s else s)
              (c_sessions c)) (c_exitWG c) c
  end.

(** ** Runs *)

Inductive client_event :=
| ENewSession (streamOk : bool)
| EOpen (streamOk sendOk recvOk : bool)
| EDialUDP (streamOk sendOk recvOk : bool) (id : Z) (readyOk : bool)
| EAcceptUDP (msgOk streamOk : bool) (id : Z) (sendOk recvOk : bool)
| EConnClose (i : nat)
| EChannelOpen (channelType : string)
| EStart (h : nat) (serverOk : bool)
| EAttach (h : nat) (id : Z) (serverOk : bool)
| ESessionClose (h : nat) (drained : bool)
| EWindowChange (h : nat) (height width : Z)
| ERequestPty (h : nat) (term : string) (height width : Z)
| ERedraw (h : nat) (discard : bool) (marker : bytes)
| EKeepInput (keep : bool)
| EKeepOutput (keep : bool)
| ETick (now : Z)
| EClose
| EDetach
| ELocked (i : nat) (ok : bool)
| MExit (id code : Z)
| MQuit
| MDiscard (marker : bytes).

Definition client_step (c : SshUdpClient) (e : client_event) : option SshUdpClient :=
  match e with
  | ENewSession streamOk => Some (NewSession streamOk c)
  | EOpen streamOk sendOk recvOk => Some (open_conn streamOk sendOk recvOk c)
  | EDialUDP streamOk sendOk recvOk id readyOk => Some (dialUDP streamOk sendOk recvOk id readyOk c)
  | EAcceptUDP msgOk streamOk id sendOk recvOk => Some (AcceptUDP msgOk streamOk id sendOk recvOk c)
  | EConnClose i => conn_Close i c
  | EChannelOpen ty => Some (HandleChannelOpen ty c).1
  | EStart h serverOk => Some (startSession h serverOk c).1
  | EAttach h id serverOk => Some (Attach h id serverOk c).1
  | ESessionClose h drained => Some (session_Close h drained c)
  | EWindowChange h height width => Some (WindowChange h height width c)
  | ERequestPty h term height width => Some (RequestPty h term height width c)
  | ERedraw h discard marker => Some (RedrawScreen h discard marker c)
  | EKeepInput keep => Some (SetKeepPendingInput keep c)
  | EKeepOutput keep => Some (SetKeepPendingOutput keep c)
  | ETick now => Some (keepAlive_tick now c)
  | EClose => Some (Close c)
  | EDetach => Some (Detach c)
  | ELocked i ok => Some (locked i ok c)
  | MExit id code => handleExitEvent id code c
  | MQuit => Some (handleQuitEvent c)
  | MDiscard marker => Some (handleDiscardEvent marker c)
  end.

Fixpoint client_run (es : list client_event) (c : SshUdpClient) : option SshUdpClient :=
  match es with
  | [] => Some c
  | e :: es' => match client_step c e with Some c' => client_run es' c' | None => None end
  end.

(** Ids are fresh: a new session's is not in use, and a session that attaches
    is one that has not exited and moves to an id the client does not use. *)
Definition fresh_id (c : SshUdpClient) (e : client_event) : bool :=
  match e with
  | ENewSession _ => bool_decide (c_sessionMap c !! c_sessionID c = None)
  | EAttach h id _ =>
      bool_decide (c_sessionMap c !! id = None) &&
      match c_sessions c !! h with
      | Some s => bool_decide (c_sessionMap c !! cs_id s = Some h)
      | None => true
      end
  | _ => true
  end.

Fixpoint fresh_ids (es : list client_event) (c : SshUdpClient) : bool :=
  match es with
  | [] => true
  | e :: es' => fresh_id c e && match client_step c e with Some c' => fresh_ids es' c' | None => true end
  end.

(** ** The wait group counts what is open *)

Definition open_conns (l : list conn) : Z := Z.of_nat (length (filter (fun k => cn_closed k = false) l)).

Record accounted (c : SshUdpClient) : Prop := {
  ac_wg : c_exitWG c = Z.of_nat (size (c_sessionMap c)) + open_conns (c_conns c);
  ac_map : forall id h, c_sessionMap c !! id = Some h ->
           exists s, c_sessions c !! h = Some s /\ cs_exitWG s = 1 /\ cs_id s = id
}.

Lemma open_conns_app l k : cn_closed k = false -> open_conns (l ++ [k]) = open_conns l + 1.
Proof.
  intros Hk. unfold open_conns. rewrite filter_app, length_app. cbn. rewrite decide_True by done. simpl. lia.
Qed.

Lemma open_conns_close l i k udp :
  l !! i = Some k -> cn_closed k = false -> open_conns (<[i := Conn true udp]> l) = open_conns l - 1.
Proof.
  intros Hi Hk. apply list_elem_of_split_length in Hi as (l1 & l2 & -> & ->).
  unfold open_conns. rewrite insert_app_r_alt by lia. rewrite Nat.sub_diag. cbn [insert list_insert].
  rewrite !filter_app, !length_app. cbn. rewrite decide_False by done. rewrite decide_True by done. simpl. lia.
Qed.

Lemma open_conns_nonneg l : 0 <= open_conns l.
Proof. unfold open_conns. lia. Qed.

(** Changing the sessions without their ids and counters keeps the account. *)
Lemma accounted_sessions c l :
  accounted c ->
  (forall h s, c_sessions c !! h = Some s -> exists s', l !! h = Some s' /\ cs_exitWG s' = cs_exitWG s /\ cs_id s' = cs_id s) ->
  accounted (set_sessions (c_sessionMap c) l (c_exitWG c) c).
Proof.
  intros [Hwg Hmap] Hl. split; [done|]. simpl. intros id h Hid. destruct (Hmap id h Hid) as (s & Hs & Hw & Hi).
  destruct (Hl h s Hs) as (s' & ? & ? & ?). exists s'. split_and!; [done|congruence..].
Qed.

Lemma accounted_on_session g h c :
  (forall s, cs_exitWG (g s) = cs_exitWG s /\ cs_id (g s) = cs_id s) -> accounted c -> accounted (on_session g h c).
Proof.
  intros Hg Hc. apply accounted_sessions; [done|]. intros h' s Hs. destruct (decide (h' = h)) as [->|Hne].
  - exists (g s). rewrite list_lookup_alter_eq, Hs. destruct (Hg s). by split_and!.
  - exists s. by rewrite list_lookup_alter_ne.
Qed.

Lemma accounted_same c c' :
  c_exitWG c' = c_exitWG c -> c_sessionMap c' = c_sessionMap c -> c_sessions c' = c_sessions c -> c_conns c' = c_conns c ->
  accounted c -> accounted c'.
Proof. intros E1 E2 E3 E4 [Hwg Hmap]. split; rewrite ?E1, ?E2, ?E3, ?E4; done. Qed.

Lemma accounted_sendBus cmd c : accounted c -> accounted (sendBus cmd c).
Proof. unfold sendBus. destruct (c_detached c); [done|]. by apply accounted_same. Qed.

Lemma accounted_Close c : accounted c -> accounted (Close c).
Proof.
  intros Hc. unfold Close. destruct (c_closed c); [done|]. destruct (_ && _); [apply accounted_sendBus|]; by apply (accounted_same c).
Qed.

Lemma accounted_add_conn udp c : accounted c -> accounted (add_conn udp c).
Proof. intros [Hwg Hmap]. split; simpl; [|done]. rewrite open_conns_app by done. lia. Qed.

Lemma accounted_startSession h ok c : accounted c -> accounted (startSession h ok c).1.
Proof.
  intros Hc. unfold startSession. destruct (c_sessions c !! h) as [s|]; [|done].
  destruct (cs_started s); [done|]. by apply accounted_on_session.
Qed.

Lemma accounted_NewSession ok c : c_sessionMap c !! c_sessionID c = None -> accounted c -> accounted (NewSession ok c).
Proof.
  intros Hfresh [Hwg Hmap]. unfold NewSession. destruct ok; [|by split]. simpl. split; simpl.
  - rewrite map_size_insert_None by done. lia.
  - intros id h [[<- <-]|[Hne Hid]]%lookup_insert_Some.
    + eexists. split; [by apply list_lookup_middle|]. by simpl.
    + destruct (Hmap id h Hid) as (s & Hs & ?). exists s. split; [by apply lookup_app_l_Some|done].
Qed.

Lemma accounted_Attach h id ok c :
  fresh_id c (EAttach h id ok) = true -> accounted c -> accounted (Attach h id ok c).1.
Proof.
  unfold fresh_id. intros [Hid Hh]%andb_true_iff Hc. apply bool_decide_eq_true in Hid. unfold Attach.
  destruct (c_sessions c !! h) as [s|] eqn:Hs; [|done]. apply bool_decide_eq_true in Hh.
  apply accounted_startSession. destruct Hc as [Hwg Hmap].
  assert (Hne : id <> cs_id s) by congruence.
  split; simpl.
  - rewrite map_size_delete_Some by (rewrite lookup_insert_ne by done; by exists h).
    rewrite map_size_insert_None by done. lia.
  - intros id' h' [Hne' [[<- <-]|[Hne2 Hid']]%lookup_insert_Some]%lookup_delete_Some.
    + exists (with_id id s). rewrite list_lookup_alter_eq, Hs. destruct (Hmap _ _ Hh) as (s' & Hs' & Hw & _).
      simplify_eq. by split_and!.
    + destruct (Hmap id' h' Hid') as (s' & Hs' & Hw & Hi). exists s'. split; [|done].
      rewrite list_lookup_alter_ne; [done|]. intros <-. simplify_eq.
Qed.

Lemma accounted_exit id code c :
  accounted c -> exists c', handleExitEvent id code c = Some c' /\ accounted c'.
Proof.
  intros Hc. pose proof Hc as [Hwg Hmap]. unfold handleExitEvent. destruct (c_sessionMap c !! id) as [h|] eqn:Hid; [|eauto].
  destruct (Hmap id h Hid) as (s & Hs & Hw & Hi). rewrite Hs. unfold exit, Done. rewrite Hw. cbn [Z.leb Z.compare].
  assert (Hsize : (0 < size (c_sessionMap c))%nat).
  { destruct (size (c_sessionMap c)) eqn:E; [|lia].
    apply map_size_empty_inv in E. rewrite E, lookup_empty in Hid. done. }
  pose proof (open_conns_nonneg (c_conns c)). destruct (Z.leb_spec (c_exitWG c) 0); [lia|].
  eexists. split; [done|]. split; simpl.
  - rewrite map_size_delete_Some by done. lia.
  - intros id' h' [Hne Hid']%lookup_delete_Some. destruct (Hmap id' h' Hid') as (s' & Hs' & Hw' & Hi').
    exists s'. split; [|done]. rewrite list_lookup_insert_ne; [done|]. intros <-. simplify_eq.
Qed.

Lemma accounted_conn_Close i c : accounted c -> exists c', conn_Close i c = Some c' /\ accounted c'.
Proof.
  intros Hc. pose proof Hc as [Hwg Hmap]. unfold conn_Close. destruct (c_conns c !! i) as [k|] eqn:Hk; [|eauto].
  destruct (cn_closed k) eqn:Ek; [eauto|].
  destruct (match cn_udp k with Some _ => _ | None => _ end) as [udp f].
  pose proof (open_conns_close _ _ _ udp Hk Ek) as Hop. pose proof (open_conns_nonneg (<[i:=Conn true udp]> (c_conns c))).
  unfold Done. destruct (Z.leb_spec (c_exitWG c) 0); [lia|]. eexists. split; [done|]. split; simpl; [lia|done].
Qed.

Lemma accounted_session_Close h drained c : accounted c -> accounted (session_Close h drained c).
Proof.
  intros Hc. unfold session_Close. destruct (c_sessions c !! h) as [s|]; [|done]. destruct (cs_closed s); [done|].
  destruct (c_detached c); [by apply accounted_on_session|].
  destruct ((cs_exitWG s =? 0) && drained); [by apply accounted_on_session|]. by apply accounted_sendBus, accounted_on_session.
Qed.

Lemma accounted_Detach c : accounted c -> accounted (Detach c).
Proof.
  intros Hc. unfold Detach, notifyServerDetach. destruct (c_detached c); [done|].
  repeat case_match; simplify_eq; try apply accounted_Close; by apply (accounted_same c).
Qed.

Lemma accounted_locked i ok c : accounted c -> accounted (locked i ok c).
Proof.
  intros Hc. unfold locked. repeat case_match; try done; try apply accounted_Close; by apply (accounted_same c).
Qed.

Lemma accounted_discard m c : accounted c -> accounted (handleDiscardEvent m c).
Proof.
  intros Hc. unfold handleDiscardEvent. destruct m as [|b m]; [done|]. apply accounted_sessions; [done|].
  intros h s Hs. rewrite list_lookup_imap, Hs. simpl. eexists. split; [done|]. by case_bool_decide.
Qed.

Lemma accounted_step c e :
  fresh_id c e = true -> accounted c -> exists c', client_step c e = Some c' /\ accounted c'.
Proof.
  intros Hf Hc. destruct e; cbn [client_step]; try (eexists; split; [done|]).
  - apply accounted_NewSession; [by apply bool_decide_eq_true in Hf|done].
  - unfold open_conn. destruct (_ && _); [by apply accounted_add_conn|done].
  - unfold dialUDP. destruct (_ && _); [|done]. destruct (udp_conn id c).
    destruct readyOk; [apply accounted_add_conn|]; by apply (accounted_same c).
  - unfold AcceptUDP. destruct (_ && _); [|done]. destruct (udp_conn id c).
    destruct (_ && _); [apply accounted_add_conn|]; by apply (accounted_same c).
  - by apply accounted_conn_Close.
  - unfold HandleChannelOpen. repeat case_match; try done; by apply (accounted_same c).
  - by apply accounted_startSession.
  - by apply accounted_Attach.
  - by apply accounted_session_Close.
  - unfold WindowChange. destruct (c_sessions c !! h); [|done]. by apply accounted_sendBus, accounted_on_session.
  - by apply accounted_on_session.
  - unfold RedrawScreen. destruct (c_sessions c !! h); [|done]. destruct (_ || _); [done|]. apply accounted_sendBus.
    destruct (_ && _); [by apply accounted_on_session|done].
  - apply accounted_sendBus. by apply (accounted_same c).
  - by apply accounted_sendBus.
  - unfold keepAlive_tick. destruct (c_closed c); [done|by apply accounted_sendBus].
  - by apply accounted_Close.
  - by apply accounted_Detach.
  - by apply accounted_locked.
  - by apply accounted_exit.
  - by apply (accounted_same c).
  - by apply accounted_discard.
Qed.

Lemma client_run_accounted es c :
  accounted c -> fresh_ids es c = true -> exists c', client_run es c = Some c' /\ accounted c'.
Proof.
  revert c. induction es as [|e es IH]; intros c Hc Hf; [by exists c|]. cbn [client_run fresh_ids] in *.
  apply andb_true_iff in Hf as [Hf Hes]. destruct (accounted_step c e Hf Hc) as (c1 & E & Hc1). rewrite E in *. by apply IH.
Qed.

Lemma NewSshUdpClient_accounted proto ver kcp next c : NewSshUdpClient proto ver kcp next = Some c -> accounted c.
Proof. unfold NewSshUdpClient. destruct (version_gate _); [done|]. intros [= <-]. by split. Qed.

(** C24: in every run with fresh ids the wait group never panics, and [Wait]
    returns (its counter is zero) exactly when every session has exited and
    every connection and listener is closed. *)
Theorem wait_group_accounted proto ver kcp next c es :
  NewSshUdpClient proto ver kcp next = Some c -> fresh_ids es c = true ->
  exists c', client_run es c = Some c' /\
    (c_exitWG c' = 0 <-> c_sessionMap c' = ∅ /\ Forall (fun k => cn_closed k = true) (c_conns c')).
Proof.
  intros Hnew Hf. destruct (client_run_accounted es c (NewSshUdpClient_accounted _ _ _ _ _ Hnew) Hf) as (c' & E & [Hwg _]).
  exists c'. split; [done|]. rewrite Hwg. pose proof (open_conns_nonneg (c_conns c')) as Hnn. split.
  - intros H0. split.
    + apply map_size_empty_inv. lia.
    + assert (Ho : length (filter (fun k => cn_closed k = false) (c_conns c')) = O) by (unfold open_conns in *; lia).
      apply length_zero_iff_nil in Ho. apply Forall_forall. intros k Hk. destruct (cn_closed k) eqn:Ek; [done|].
      assert (Hin : k ∈ filter (fun k => cn_closed k = false) (c_conns c')) by (by apply list_elem_of_filter).
      rewrite Ho in Hin. by apply not_elem_of_nil in Hin.
  - intros [-> Hall]. rewrite map_size_empty. unfold open_conns.
    assert (Ho : filter (fun k => cn_closed k = false) (c_conns c') = []).
    { clear -Hall. induction Hall as [|k l Hk _ IH]; [done|]. cbn. rewrite decide_False by congruence. apply IH. }
    by rewrite Ho.
Qed.

(** ** A session that never started *)

(** The session stays in the map until the server says it has exited or it
    attaches elsewhere. *)
Lemma tracked_step c c' e id h :
  accounted c -> fresh_id c e = true -> client_step c e = Some c' -> c_sessionMap c !! id = Some h ->
  (forall code, e <> MExit id code) -> (forall id' ok, e <> EAttach h id' ok) ->
  c_sessionMap c' !! id = Some h.
Proof.
  intros Hc Hf Hstep Hid Hexit Hatt.
  assert (Hsend : forall cmd c0, c_sessionMap (sendBus cmd c0) = c_sessionMap c0)
    by (intros cmd c0; unfold sendBus; by destruct (c_detached c0)).
  destruct e; cbn [client_step] in Hstep; simplify_eq; try done.
  - apply bool_decide_eq_true in Hf. unfold NewSession. destruct streamOk; [|done]. simpl.
    rewrite lookup_insert_ne; [done|]. congruence.
  - unfold open_conn. by destruct (_ && _).
  - unfold dialUDP, udp_conn. by repeat case_match.
  - unfold AcceptUDP, udp_conn. by repeat case_match.
  - unfold conn_Close in Hstep. repeat case_match; by simplify_eq.
  - unfold HandleChannelOpen. by repeat case_match.
  - unfold startSession. by repeat case_match.
  - unfold Attach. destruct (c_sessions c !! h0) as [s|] eqn:Hs; [|done].
    apply andb_true_iff in Hf as [Hnew Hh]. rewrite Hs in Hh. apply bool_decide_eq_true in Hnew, Hh.
    assert (Hne : h0 <> h) by (intros ->; by eapply Hatt).
    assert (Hmap : forall ok c0, c_sessionMap (startSession h0 ok c0).1 = c_sessionMap c0)
      by (intros ok c0; unfold startSession; by repeat case_match).
    rewrite Hmap. simpl. rewrite lookup_delete_ne by congruence. rewrite lookup_insert_ne; [done|congruence].
  - unfold session_Close. repeat case_match; by rewrite ?Hsend.
  - unfold WindowChange. destruct (c_sessions c !! h0); [|done]. by rewrite Hsend.
  - unfold RedrawScreen. repeat case_match; by rewrite ?Hsend.
  - unfold SetKeepPendingInput. by rewrite Hsend.
  - unfold SetKeepPendingOutput. by rewrite Hsend.
  - unfold keepAlive_tick. destruct (c_closed c); [done|]. by rewrite Hsend.
  - unfold Close. repeat case_match; by rewrite ?Hsend.
  - unfold Detach, Close, notifyServerDetach. repeat case_match; simplify_eq; by rewrite ?Hsend.
  - unfold locked, Close. repeat case_match; by rewrite ?Hsend.
  - unfold handleExitEvent in Hstep. repeat case_match; simplify_eq; try done. simpl.
    rewrite lookup_delete_ne; [done|]. intros ->. by eapply Hexit.
  - unfold handleDiscardEvent. by destruct marker.
Qed.

(** A session whose start or attach failed is taken out of the count only
    by an exit message.  As long as the server sends none (it sends none after a
    refused attach, or when it cannot create the session at all) [Wait] of the
    client blocks, whatever the program closes. *)
Theorem refused_session_blocks_wait c h s es c' :
  accounted c -> c_sessions c !! h = Some s -> c_sessionMap c !! cs_id s = Some h -> cs_started s = false ->
  let '(c1, r) := startSession h false c in
  fresh_ids es c1 = true -> (forall code, MExit (cs_id s) code ∉ es) -> (forall id ok, EAttach h id ok ∉ es) ->
  client_run es c1 = Some c' -> r = StartFailed /\ 0 < c_exitWG c'.
Proof.
  intros Hc Hs Hid Hstart. unfold startSession. rewrite Hs, Hstart. intros Hf Hexit Hatt Hrun. split; [done|].
  assert (Hc1 : accounted (on_session start h c)) by (by apply accounted_on_session).
  assert (Hid1 : c_sessionMap (on_session start h c) !! cs_id s = Some h) by done.
  revert Hc1 Hid1 Hf Hrun. generalize (on_session start h c). clear Hc Hs Hid Hstart.
  induction es as [|e es IH]; intros c1 Hc1 Hid1 Hf Hrun; cbn [client_run fresh_ids] in *.
  - injection Hrun as <-. destruct Hc1 as [Hwg _]. pose proof (open_conns_nonneg (c_conns c1)).
    destruct (size (c_sessionMap c1)) eqn:E; [|lia]. apply map_size_empty_inv in E. by rewrite E, lookup_empty in Hid1.
  - apply andb_true_iff in Hf as [Hfe Hf]. destruct (accounted_step c1 e Hfe Hc1) as (c2 & E & Hc2). rewrite E in *.
    apply (IH ltac:(set_solver) ltac:(set_solver) c2); [done| |done|done].
    apply (tracked_step c1 c2 e); [done..| |]; intros; intros ->; set_solver.
Qed.

(** ** Detaching *)

(** What the waiting senders will write. *)
Definition sender_command (p : sender) : bus_command := match p with Send cmd => cmd | Notice => CDetach end.

Definition pending_commands (c : SshUdpClient) : list bus_command := sender_command <$> c_pending c.

Lemma locked_detached i ok c :
  c_detached c = true ->
  c_detached (locked i ok c) = true /\
  exists w, c_sent (locked i ok c) = c_sent c ++ w /\ w ++ pending_commands (locked i ok c) ⊆+ pending_commands c.
Proof.
  intros Hd. unfold locked, pending_commands. destruct (c_pending c !! i) as [p|] eqn:Hp.
  2: { split; [done|]. exists []. by rewrite app_nil_r. }
  assert (Hperm : sender_command p :: (sender_command <$> delete i (c_pending c)) ⊆+ sender_command <$> c_pending c).
  { rewrite <- fmap_cons. apply fmap_submseteq. by rewrite <- delete_Permutation. }
  assert (Hdrop : sender_command <$> delete i (c_pending c) ⊆+ sender_command <$> c_pending c).
  { etrans; [|exact Hperm]. by apply submseteq_cons. }
  assert (Hcl : forall c0, c_detached c0 = true -> c_detached (Close c0) = true /\ c_sent (Close c0) = c_sent c0 /\ c_pending (Close c0) = c_pending c0).
  { intros c0 H0. unfold Close. rewrite H0, andb_false_r. by case_match. }
  destruct p as [cmd|]; [destruct ok; (split; [done|])|].
  - exists [cmd]. by split.
  - exists []. by rewrite app_nil_r.
  - cbv zeta. match goal with |- context [Close ?c0] => destruct (Hcl c0) as (-> & -> & ->) end; [by case_match|].
    split; [done|]. destruct (c_bus c && ok); simpl; [by exists [CDetach]|exists []; by rewrite app_nil_r].
Qed.

Lemma detached_step c e c' :
  client_step c e = Some c' -> c_detached c = true ->
  c_detached c' = true /\
  exists w, c_sent c' = c_sent c ++ w /\ w ++ pending_commands c' ⊆+ pending_commands c.
Proof.
  intros Hstep Hd.
  assert (Hsend : forall cmd c0, c_detached c0 = true -> sendBus cmd c0 = c0) by (intros cmd c0 H0; unfold sendBus; by rewrite H0).
  assert (Hsame : forall c0, c_detached c0 = true -> c_sent c0 = c_sent c -> c_pending c0 = c_pending c ->
    c_detached c0 = true /\ exists w, c_sent c0 = c_sent c ++ w /\ w ++ pending_commands c0 ⊆+ pending_commands c).
  { intros c0 H0 Hs Hp. split; [done|]. exists []. unfold pending_commands. rewrite app_nil_r, Hs, Hp. done. }
  destruct e; cbn [client_step] in Hstep; simplify_eq.
  - apply Hsame; unfold NewSession; by destruct streamOk.
  - apply Hsame; unfold open_conn; by destruct (_ && _).
  - apply Hsame; unfold dialUDP, udp_conn; by repeat case_match.
  - apply Hsame; unfold AcceptUDP, udp_conn; by repeat case_match.
  - unfold conn_Close in Hstep. repeat case_match; simplify_eq; by apply Hsame.
  - apply Hsame; unfold HandleChannelOpen; by repeat case_match.
  - apply Hsame; unfold startSession; by repeat case_match.
  - apply Hsame; unfold Attach, startSession; by repeat case_match.
  - unfold session_Close. repeat case_match; rewrite ?Hsend by done; by apply Hsame.
  - unfold WindowChange. case_match; rewrite ?Hsend by done; by apply Hsame.
  - by apply Hsame.
  - unfold RedrawScreen. repeat case_match; rewrite ?Hsend by done; by apply Hsame.
  - unfold SetKeepPendingInput. rewrite Hsend by done. by apply Hsame.
  - unfold SetKeepPendingOutput. rewrite Hsend by done. by apply Hsame.
  - unfold keepAlive_tick. rewrite Hsend by done. apply Hsame; by case_match.
  - unfold Close. rewrite Hd, andb_false_r. apply Hsame; by case_match.
  - unfold Detach. rewrite Hd. by apply Hsame.
  - by apply locked_detached.
  - unfold handleExitEvent in Hstep. repeat case_match; simplify_eq; by apply Hsame.
  - by apply Hsame.
  - apply Hsame; unfold handleDiscardEvent; by destruct marker.
Qed.

Lemma detached_run es c c' :
  client_run es c = Some c' -> c_detached c = true ->
  exists w, c_sent c' = c_sent c ++ w /\ w ++ pending_commands c' ⊆+ pending_commands c.
Proof.
  revert c. induction es as [|e es IH]; intros c Hrun Hd; cbn [client_run] in Hrun.
  { simplify_eq. exists []. by rewrite app_nil_r. }
  destruct (client_step c e) as [c1|] eqn:E; [|done]. destruct (detached_step _ _ _ E Hd) as (Hd1 & w1 & Hs1 & Hp1).
  destruct (IH c1 Hrun Hd1) as (w2 & -> & Hp2). exists (w1 ++ w2). rewrite Hs1, <- !app_assoc. split; [done|].
  etrans; [|exact Hp1]. by apply submseteq_skips_l.
Qed.

Definition announces (c : SshUdpClient) : bool := (2 <=? c_protoVersion c) && c_kcp c.

Lemma Detach_sends c :
  c_detached c = false ->
  c_detached (Detach c) = true /\ c_sent (Detach c) = c_sent c /\
  pending_commands (Detach c) = pending_commands c ++ (if announces c then [CDetach] else []).
Proof.
  intros Hd. unfold Detach, notifyServerDetach, announces, pending_commands. rewrite Hd. simpl.
  destruct (Z.ltb_spec (c_protoVersion c) 2), (Z.leb_spec 2 (c_protoVersion c)); try lia;
    destruct (c_kcp c); simpl; unfold Close; simpl; try (destruct (c_closed c); simpl);
    rewrite ?andb_false_r, ?app_nil_r, ?fmap_app; done.
Qed.

(** *** What the server does with it *)

Definition spares (id : Z) (c : bus_command) : Prop := c <> CClose /\ forall code, c <> CExit (ExitMessage id code).

(** The other goroutines of the server do not end the session, and nothing else
    of the client of [s] attaches. *)
Definition leaves (s id : Z) (e : world_event) : Prop :=
  e <> CloseSession id /\ forall io err msg ackOk resizeOk, e <> Server.Attach s io err msg ackOk resizeOk.

(** The session is there, with an owner that satisfies [P]. *)
Definition present (P : option Z -> Prop) (id : Z) (w : world) : Prop :=
  exists sess, w_sessions w !! id = Some sess /\ P (ss_server sess).

Definition same_setup (w w' : world) : Prop := w_attachable w' = w_attachable w /\ w_kcp w' = w_kcp w.

(** An owner that [s] cannot take from a session, and the owner of a session that
    follows the active server. *)
Definition not_of (s : Z) (o : option Z) : Prop := o <> Some s.
Definition follows (active o : option Z) : Prop := o = None \/ o = active.

Lemma present_alter (P : option Z -> Prop) id i g w :
  (forall sess, P (ss_server sess) -> P (ss_server (g sess))) ->
  present P id w -> present P id (Server.set_sessions (alter g i (w_sessions w)) w).
Proof.
  intros Hg (sess & Hs & HP). destruct (decide (i = id)) as [->|Hne].
  - exists (g sess). simpl. by rewrite lookup_alter_eq, Hs; eauto.
  - exists sess. simpl. by rewrite lookup_alter_ne.
Qed.

Lemma detach_session_owner o sess : ss_server (detach_session o sess) = (if decide (ss_server sess = o) then None else ss_server sess).
Proof. unfold detach_session. by destruct (decide _). Qed.

Lemma present_detachAll (P Q : option Z -> Prop) o id w :
  (forall x, P x -> Q (if decide (x = o) then None else x)) -> (forall x, P x -> w_attachable w = false -> Q x) ->
  present P id w -> present Q id (detachAllSessions w o).
Proof.
  intros HPQ Hno (sess & Hs & HP). unfold detachAllSessions. destruct (w_attachable w); [|exists sess; auto].
  exists (detach_session o sess). simpl. rewrite lookup_fmap, Hs. split; [done|]. rewrite detach_session_owner. auto.
Qed.

Lemma activateServer_present (P Q : option Z -> Prop) s id w :
  (forall x, P x -> Q x) -> (forall x, P x -> Q (if decide (x = w_active w) then None else x)) ->
  present P id w -> present Q id (activateServer w s).1.
Proof.
  intros HPQ Hd Hw. unfold activateServer. destruct Hw as (sess & Hs & HP).
  repeat case_match; try (exists sess; by auto).
  apply (present_detachAll P); [done|auto|]. by exists sess.
Qed.

(** Any event of the other goroutines. *)
Lemma world_step_present (P Q : option Z -> Prop) s id e w :
  leaves s id e -> (forall x, P x -> Q x) -> Q None ->
  (forall s', s' <> s -> w_active w = Some s' -> Q (Some s')) -> present P id w -> present Q id (world_step w e).
Proof.
  intros [Hclose Hatt] HPQ HN Hnew Hw. assert (HQ : present Q id w) by (destruct Hw as (sess & ? & ?); exists sess; auto).
  destruct e as [s'|s' stream ackOk|s' i pty size|i io err stderr|i|s' io err msg ackOk resizeOk|s'|i]; cbn [world_step].
  - by destruct (w_servers w !! s').
  - unfold initBusAndServer. destruct (w_servers w !! s') as [v|]; [|done]. destruct (sv_bus v); [done|].
    assert (Ha : present Q id (activateServer (on_server initClientChecker s' w) s').1).
    { apply (activateServer_present P); [done| |done]. intros x Hx. case_decide; auto. }
    destruct (activateServer _ _) as [w1 ok]. by destruct ok, ackOk.
  - unfold newSessionContext. destruct (w_sessions w !! i) eqn:Ei; [done|]. destruct HQ as (sess & Hs & ?). exists sess.
    simpl. rewrite lookup_insert_ne; [done|]. congruence.
  - unfold forwardIO. destruct (w_attachable w); [|done]. by apply present_alter.
  - destruct HQ as (sess & Hs & ?). exists sess. simpl. rewrite lookup_delete_ne; [done|]. congruence.
  - assert (Hne : s' <> s) by (intros ->; by eapply Hatt). unfold attachSession.
    destruct (negb (w_attachable w)); [done|]. destruct (w_sessions w !! am_id msg) as [sess|] eqn:Em; [|done].
    destruct (_ && _); [done|]. case_bool_decide as Hact; [|done]. cbn [negb].
    destruct (ss_server sess), (ss_ioStream sess), (ss_errStream sess), ackOk; try done. cbn [negb fst].
    destruct (decide (id = am_id msg)) as [->|Hid].
    + eexists. simpl. rewrite lookup_insert_eq. split; [done|]. simpl. auto.
    + destruct HQ as (sess' & ? & ?). exists sess'. simpl. by rewrite lookup_insert_ne.
  - unfold handleDetachEvent. destruct (_ && _); [|done]. apply (present_detachAll P); [|auto|done].
    intros x Hx. case_decide; auto.
  - by apply present_alter.
Qed.

Lemma world_step_active w e : (forall s' stream ackOk, e <> InitBus s' stream ackOk) -> w_active (world_step w e) = w_active w.
Proof.
  intros Hne. destruct e; cbn [world_step];
    unfold newSessionContext, forwardIO, attachSession, handleDetachEvent, detachAllSessions;
    repeat (case_match; simplify_eq); try done. by edestruct Hne.
Qed.

Lemma world_step_follows s id e w :
  leaves s id e -> w_attachable w = true -> present (follows (w_active w)) id w ->
  present (follows (w_active (world_step w e))) id (world_step w e).
Proof.
  intros Hl Ha Hw.
  assert (Hother : (forall s' stream ackOk, e <> InitBus s' stream ackOk) ->
                   present (follows (w_active (world_step w e))) id (world_step w e)).
  { intros Hne. rewrite world_step_active by done. eapply (world_step_present _ _ s id e w Hl); [done|by left| |done].
    intros s' _ ->. by right. }
  destruct e as [|s' stream ackOk| | | | | |]; try (by apply Hother). clear Hother Hl. cbn [world_step].
  unfold initBusAndServer. destruct (w_servers w !! s') as [v|]; [|done]. destruct (sv_bus v); [done|].
  unfold activateServer. change (w_attachable (on_server _ _ w)) with (w_attachable w). rewrite Ha. cbn [negb].
  change (w_busClosing (on_server _ _ w)) with (w_busClosing w). destruct (w_busClosing w); [done|].
  set (w1 := detachAllSessions _ _).
  assert (Hd : present (eq None) id w1).
  { apply (present_detachAll (follows (w_active w))); [|simpl; congruence|done].
    intros x [->| ->]; by case_decide. }
  assert (Hact : w_active w1 = Some s') by (unfold w1, detachAllSessions; by case_match).
  destruct Hd as (sess & Hs & HN). destruct ackOk; exists sess; (split; [done|by left]).
Qed.

Lemma world_step_setup w e : same_setup w (world_step w e).
Proof.
  destruct e; cbn [world_step];
    unfold initBusAndServer, activateServer, newSessionContext, forwardIO, attachSession, handleDetachEvent, detachAllSessions;
    repeat (case_match; simplify_eq); done.
Qed.

(** Between two commands. *)
Lemma others_present (P : option Z -> Prop) s id es w :
  Forall (leaves s id) es -> P None -> (forall s', s' <> s -> P (Some s')) -> present P id w -> present P id (world_run es w).
Proof.
  intros Hes HN Hnew. revert w. induction Hes as [|e es He _ IH]; intros w Hw; [done|]. apply IH.
  eapply world_step_present; eauto.
Qed.

Lemma others_follow s id es w :
  Forall (leaves s id) es -> w_attachable w = true -> present (follows (w_active w)) id w ->
  present (follows (w_active (world_run es w))) id (world_run es w).
Proof.
  intros Hes. revert w. induction Hes as [|e es He _ IH]; intros w Ha Hw; [done|].
  apply IH; [destruct (world_step_setup w e); congruence|by eapply world_step_follows].
Qed.

Lemma others_setup es w : same_setup w (world_run es w).
Proof.
  revert w. induction es as [|e es IH]; intros w; [done|]. destruct (world_step_setup w e), (IH (world_step w e)).
  split; simpl; congruence.
Qed.

(** A command of the client. *)
Lemma perform_present (P : option Z -> Prop) s e c st id :
  spares id c -> P None -> present P id (bs_world st) -> present P id (bs_world (perform s e c st)).
Proof.
  intros [Hclose Hexit] HN Hw. destruct c as [m|m|m|m|m| | |command body]; cbn [perform]; try done.
  - unfold on_exit, closeSession. destruct (w_sessions (bs_world st) !! xm_ID m) eqn:E; [|done].
    destruct Hw as (sess & Hs & HP). exists sess. simpl. rewrite lookup_delete_ne; [done|]. intros Heq.
    apply (Hexit (xm_ExitCode m)). destruct m; simpl in *; congruence.
  - unfold on_resize. destruct (_ || _); [done|]. destruct (w_sessions (bs_world st) !! rm_ID m) as [x|] eqn:E; [|done].
    destruct (negb _); [done|]. destruct (SetSize _ _ _ _ _ _ _) as [[[v err] req] calls].
    destruct Hw as (sess & Hs & HP). destruct (decide (id = rm_ID m)) as [->|Hne].
    + exists (with_size v x). simpl. rewrite lookup_insert_eq. split; [done|]. simpl. congruence.
    + exists sess. simpl. by rewrite lookup_insert_ne.
  - unfold bus_detach, handleDetachEvent. simpl. destruct (_ && _); [|done]. apply (present_detachAll P); [|auto|done].
    intros y Hy. case_decide; auto.
Qed.

Lemma perform_setup s e c st : c <> CClose -> same_setup (bs_world st) (bs_world (perform s e c st)) /\ w_active (bs_world (perform s e c st)) = w_active (bs_world st).
Proof.
  intros Hc. destruct c; cbn [perform]; try done;
    unfold on_exit, closeSession, on_resize, bus_detach, handleDetachEvent, detachAllSessions; simpl;
    repeat case_match; done.
Qed.

Lemma perform_all_present (P : option Z -> Prop) s envs i cs st id :
  (forall j, Forall (leaves s id) (be_others (envs j))) -> Forall (spares id) cs ->
  P None -> (forall s', s' <> s -> P (Some s')) ->
  present P id (bs_world st) -> present P id (bs_world (perform_all s envs i cs st)).
Proof.
  intros Hq Hcs HN Hnew. revert i st. induction Hcs as [|c cs Hc Hcs IH]; intros i st Hw; [done|].
  cbn [perform_all]. cbv zeta.
  assert (H1 : present P id (bs_world (before (envs i) st))) by (by apply (others_present P s)).
  case_bool_decide; [|done]. cbn [negb]. pose proof (perform_present P s (envs i) c _ id Hc HN H1).
  destruct c; try (by apply IH). by destruct Hc.
Qed.

(** Once the notice is read, or another server is active, the session is not
    the client's any more. *)
Lemma perform_all_frees s envs i cs st id :
  (forall j, Forall (leaves s id) (be_others (envs j))) -> Forall (spares id) cs -> CDetach ∈ cs ->
  w_attachable (bs_world st) = true -> w_kcp (bs_world st) = true -> present (follows (w_active (bs_world st))) id (bs_world st) ->
  present (not_of s) id (bs_world (perform_all s envs i cs st)).
Proof.
  intros Hq Hcs. revert i st. induction Hcs as [|c cs Hc Hcs IH]; intros i st Hin Ha Hk Hw; [by apply not_elem_of_nil in Hin|].
  cbn [perform_all]. cbv zeta. destruct (others_setup (be_others (envs i)) (bs_world st)) as [Ha1 Hk1].
  pose proof (others_follow s id _ _ (Hq i) Ha Hw) as H1. set (w1 := world_run _ _) in *.
  change (bs_world (before (envs i) st)) with w1. case_bool_decide as Hact; cbn [negb].
  2: { destruct H1 as (sess & Hs & [Hn|Hn]); exists sess; (split; [done|]); unfold not_of; congruence. }
  assert (Hkeep : c <> CDetach -> present (not_of s) id (bs_world (perform_all s envs (S i) cs (perform s (envs i) c (before (envs i) st))))).
  { intros Hne. destruct (perform_setup s (envs i) c (before (envs i) st)) as [[Ha2 Hk2] Hact2]; [by destruct Hc|].
    apply IH; [set_solver|etrans; [exact Ha2|by etrans; [exact Ha1|]]|etrans; [exact Hk2|by etrans; [exact Hk1|]]|].
    rewrite Hact2. apply perform_present; [done|by left|done]. }
  destruct c; try (by apply Hkeep); [|by destruct Hc]. clear Hkeep. cbn [perform].
  apply perform_all_present; [done..|by intros ? ? [= ->]|].
  unfold bus_detach. cbn [bs_world emit set_world]. change (bs_world (before (envs i) st)) with w1.
  unfold handleDetachEvent. rewrite Hk1, Hk, bool_decide_eq_true_2 by done. cbn [andb].
  apply (present_detachAll (follows (w_active w1))); [|intros ? _ Hf; change (w_attachable w1 = false) in Hf; congruence|done].
  rewrite Hact.
  intros x [->| ->]; by case_decide.
Qed.


(** ** Channels of the UDP forwarder *)

(** A channel that is registered and not about to be removed stays registered
    until somebody removes it. *)
Lemma channel_stays es f id ch :
  channelMap f !! id = Some ch -> id ∉ closingCh f -> Forall (fun e => e <> Datagram.Remove id /\ e <> Add id) es ->
  channelMap (fold_left uf_step es f) !! id = Some ch.
Proof.
  intros Hch Hcl Hes. revert f Hch Hcl. induction Hes as [|e es [Hrm Hadd] _ IH]; intros f Hch Hcl; [done|].
  cbn [fold_left]. apply IH; clear IH.
  - assert (Hwork : forall ids i, closingCh f = i :: ids -> channelMap (closeId (pop_closing ids f) i) !! id = Some ch).
    { intros ids i E. unfold closeId. simpl. destruct (channelMap f !! i); [|done]. simpl.
      rewrite lookup_delete_ne; [done|]. intros ->. rewrite E in Hcl. set_solver. }
    destruct e as [i|i|buf| | | | |c]; simpl; try done.
    + unfold addChannel, startWorker. destruct (uf_closed f); [done|]. simpl.
      destruct (uf_worker f); simpl; (rewrite lookup_insert_ne; [done|congruence]).
    + unfold removeChannel, startWorker. destruct (uf_closed f); [done|]. by destruct (uf_worker f).
    + unfold receiveDatagram. repeat case_match; done.
    + unfold worker_step. destruct (uf_worker f); try done;
        (destruct (closingCh f) as [|i ids]; [by destruct (uf_closed f)|by apply Hwork]).
    + unfold worker_connErr. by repeat case_match.
    + unfold forwarder_Close. by destruct (uf_closed f).
  - assert (Hwork : forall ids i, closingCh f = i :: ids -> id ∉ closingCh (closeId (pop_closing ids f) i)).
    { intros ids i E. unfold closeId. simpl. rewrite E in Hcl. destruct (channelMap f !! i); simpl; set_solver. }
    destruct e as [i|i|buf| | | | |c]; simpl; try done.
    + unfold addChannel, startWorker. destruct (uf_closed f); [done|]. by destruct (uf_worker f).
    + unfold removeChannel, startWorker. destruct (uf_closed f); [done|].
      assert (Hi : i <> id) by congruence. destruct (uf_worker f); simpl; set_solver.
    + unfold receiveDatagram. repeat case_match; done.
    + unfold worker_step. destruct (uf_worker f); try done;
        (destruct (closingCh f) as [|i ids] eqn:E; [destruct (uf_closed f); simpl; by rewrite ?E|by apply Hwork]).
    + unfold worker_connErr. by repeat case_match.
    + unfold forwarder_Close. by destruct (uf_closed f).
Qed.

Lemma udp_conn_registers id c :
  uf_closed (c_forwarder c) = false ->
  exists ch, channelMap (udp_conn id c).2 !! id = Some ch /\ closingCh (udp_conn id c).2 = closingCh (c_forwarder c).
Proof.
  intros Hcl. unfold udp_conn, addChannel, startWorker. rewrite Hcl.
  destruct (uf_worker (c_forwarder c)); simpl; eexists; (split; [apply lookup_insert_eq|done]).
Qed.

(** A UDP connection that fails while it is accepted leaves its channel in
    the forwarder, where datagrams go on being queued for nobody; the caller
    has no connection to close it with. *)
Theorem failed_accept_leaks_channel id sendOk recvOk c es :
  uf_closed (c_forwarder c) = false -> id ∉ closingCh (c_forwarder c) -> sendOk && recvOk = false ->
  Forall (fun e => e <> Datagram.Remove id /\ e <> Add id) es ->
  let c' := AcceptUDP true true id sendOk recvOk c in
  c_conns c' = c_conns c /\ exists ch, channelMap (fold_left uf_step es (c_forwarder c')) !! id = Some ch.
Proof.
  intros Hopen Hcl Hfail Hes c'. unfold c', AcceptUDP. simpl. rewrite Hfail.
  destruct (udp_conn_registers id c Hopen) as (ch & Hch & Hclosing). destruct (udp_conn id c) as [pc f]. simpl in *.
  split; [done|]. exists ch. apply channel_stays; [done|by rewrite Hclosing|done].
Qed.

(** ** Examples *)

Definition example_client : SshUdpClient := Client 2 true true false false false 7 ∅ [] [] 0 ∅ newForwarder [] false [].

(** Two sessions, one of which attaches to session 3 of the server, and a
    forwarded connection. *)
Definition example_calls : list client_event :=
  [ENewSession true; EStart 0 true; EWindowChange 0 30 100; ENewSession true; EAttach 1 3 true; EOpen true true true;
   MExit 7 0; MExit 3 1; EConnClose 0; EConnClose 0].

Lemma wait_group_accounted_witness :
  exists c', client_run example_calls example_client = Some c' /\ c_exitWG c' = 0 /\
    c_sessionMap c' = ∅ /\ Forall (fun k => cn_closed k = true) (c_conns c').
Proof.
  destruct (wait_group_accounted 2 [] true 7 example_client example_calls) as (c' & E & H);
    [reflexivity|vm_compute; reflexivity|].
  exists c'. split; [exact E|]. assert (H0 : c_exitWG c' = 0) by (vm_compute in E; injection E as <-; reflexivity).
  split; [exact H0|apply H, H0].
Defined.

Definition one_session : SshUdpClient := default example_client (client_run [ENewSession true] example_client).

Lemma one_session_accounted : accounted one_session.
Proof.
  split; [reflexivity|]. intros id h Hid. change (c_sessionMap one_session) with ({[7 := O]} : gmap Z nat) in Hid.
  apply lookup_singleton_Some in Hid as [<- <-]. by eexists.
Qed.

Lemma refused_session_blocks_wait_witness :
  exists c', client_run [ESessionClose 0 true; EClose; MQuit] (startSession 0 false one_session).1 = Some c' /\ 0 < c_exitWG c'.
Proof.
  eexists. split; [vm_compute; reflexivity|].
  refine (proj2 (refused_session_blocks_wait one_session 0 (CSession 7 1 false false 0 0 0 None false ∅ None) [ESessionClose 0 true; EClose; MQuit]
    _ one_session_accounted _ _ _ _ _ _ _)); try (vm_compute; reflexivity).
  - intros code Hin. repeat (apply elem_of_cons in Hin as [Hin|Hin]; [discriminate Hin|]). by apply not_elem_of_nil in Hin.
  - intros id ok Hin. repeat (apply elem_of_cons in Hin as [Hin|Hin]; [discriminate Hin|]). by apply not_elem_of_nil in Hin.
Defined.

Definition example_server : bus_state :=
  BusState (world_run [NewServer 1; InitBus 1 10 true; Server.NewSession 1 7 true (80, 24); StartIO 7 20 21 false]
    (start_world true true)) 0 false false [].

(** A resize is written; the sender of a heartbeat waits. *)
Definition client_with_traffic : SshUdpClient :=
  default example_client (client_run [ENewSession true; EStart 0 true; EWindowChange 0 30 100; ELocked 0 true; ETick 5] example_client).

(** The notice overtakes the heartbeat. *)
Definition example_leave : list client_event := [ESessionClose 0 true; ELocked 1 true; EClose; ELocked 0 true; ETick 6].

(** Another client takes over after the second command. *)
Definition takeover (i : nat) : bus_env := BusEnv (if decide (i = 2%nat) then [NewServer 2; InitBus 2 11 true] else []) 0 true.


Lemma failed_accept_leaks_channel_witness :
  let c' := AcceptUDP true true 9 true false example_client in
  c_conns c' = [] /\ exists ch, channelMap (fold_left uf_step [Work; ReceiveFails; NoticeFailure; Work] (c_forwarder c')) !! 9 = Some ch.
Proof.
  apply (failed_accept_leaks_channel 9 true false example_client [Work; ReceiveFails; NoticeFailure; Work]);
    [reflexivity|apply not_elem_of_nil|reflexivity|repeat constructor; discriminate].
Defined.
