(* ===== verification/Inbox.v ===== *)
(** * Inbox: what the server tells its client ([client.go])

    The loop of the client over the messages of the bus ([handleBusEvent]) with
    its handlers, and the heartbeat ([keepAlive]) that it feeds.  The client is
    that of [Client], frames are those of [Wire], the other direction of the
    stream is in [Bus]. *)

From Stdlib Require Import ZArith Lia Ascii String.
From stdpp Require Import base list strings gmap.
From S2P Require Import Prelude Wire Main Server Bus Client.
Open Scope Z_scope.

(** ** Messages ([proto.go]) *)

Record quitMessage := QuitMessage { qm_Msg : string }.
Record debugMessage := DebugMessage { dm_Msg : string; dm_Time : Z }.
Record channelMessage := ChannelMessage { ch_ChannelType : string; ch_ID : Z }.
Record detachAckMessage := DetachAckMessage {}.
Record discardMessage := DiscardMessage {
  dc_DiscardMarker : bytes;
  dc_DiscardedInput : bytes;
  dc_DiscardedOutputLines : Z;
  dc_DiscardedOutputBytes : Z
}.

(** ** State *)

(** The calls of the user's functions and what else leaves the client. *)
Inductive client_effect :=
| QuitCallback (msg : string)
| WarningCall (msg : string)
| DebugCall (time : Z) (msg : string)
| DiscardCallback (input : bytes) (lines count : Z)
| NewChannel (channelType : string) (id : Z)
| ClientRekey (pubKey : bytes)
| DetachAcknowledged.

(** [ib_ackChan] is [activeAckChan]; [ib_detachAck]: whether [detachAckChan] is set.
    [ib_funcs]: the functions that the user has given.  [ib_effects] is history. *)
Record client_funcs := ClientFuncs { cf_quit : bool; cf_discard : bool; cf_debug : bool }.

Record inbox := Inbox {
  ib_funcs : client_funcs;
  ib_client : SshUdpClient;
  ib_ackChan : list Z;
  ib_detachAck : bool;
  ib_busClosed : bool;
  ib_effects : list client_effect
}.

(** The loop goes on, panics, or must wait until [keepAlive] takes an
    acknowledgement; [heartbeat_never_blocks] shows that it need not. *)
Inductive outcome := Runs (st : inbox) | Panicked | Blocked.

Definition obind (o : outcome) (f : inbox -> outcome) : outcome := match o with Runs st => f st | o => o end.

Definition with_client (c : SshUdpClient) (st : inbox) : inbox :=
  Inbox (ib_funcs st) c (ib_ackChan st) (ib_detachAck st) (ib_busClosed st) (ib_effects st).

Definition produce (e : client_effect) (st : inbox) : inbox :=
  Inbox (ib_funcs st) (ib_client st) (ib_ackChan st) (ib_detachAck st) (ib_busClosed st) (ib_effects st ++ [e]).

(** What the loop meets at a message: what the user and other messages' effects
    have done to the client since the last one, whether [keepAlive] has taken an
    acknowledgement, whether [Detach] has begun to wait, and the clock. *)
Record inbox_env := InboxEnv { ie_calls : list client_event; ie_takeAck : bool; ie_detaching : bool; ie_now : Z }.

Definition between (e : inbox_env) (st : inbox) : outcome :=
  match client_run (ie_calls e) (ib_client st) with
  | None => Panicked
  | Some c => Runs (Inbox (ib_funcs st) c (if ie_takeAck e then tail (ib_ackChan st) else ib_ackChan st) (ib_detachAck st || ie_detaching e)
                      (ib_busClosed st) (ib_effects st))
  end.

(** ** The handlers, once a message is received *)

Definition on_quit (m : quitMessage) (st : inbox) : outcome :=
  let st := with_client (handleQuitEvent (ib_client st)) st in
  Runs (produce (if cf_quit (ib_funcs st) then QuitCallback (qm_Msg m) else WarningCall ("quit due to " +:+ qm_Msg m)) st).

Definition on_session_exit (m : exitMessage) (st : inbox) : outcome :=
  match c_sessionMap (ib_client st) !! xm_ID m with
  | None => Runs (produce (WarningCall "invalid or exited session id") st)
  | Some _ => match handleExitEvent (xm_ID m) (xm_ExitCode m) (ib_client st) with
              | None => Panicked
              | Some c => Runs (with_client c st)
              end
  end.

Definition on_debug (now : Z) (m : debugMessage) (st : inbox) : outcome :=
  Runs (if cf_debug (ib_funcs st)
        then produce (DebugCall (if dm_Time m =? 0 then now else dm_Time m) ("[server] " +:+ dm_Msg m)) st
        else st).

Definition on_error (m : errorMessage) (st : inbox) : outcome := Runs (produce (WarningCall (em_Msg m)) st).

Definition on_channel (m : channelMessage) (st : inbox) : outcome :=
  Runs (match c_channelMap (ib_client st) !! ch_ChannelType m with
        | Some _ => produce (NewChannel (ch_ChannelType m) (ch_ID m)) st
        | None => produce (WarningCall ("channel [" +:+ ch_ChannelType m +:+ "] has no handler")) st
        end).

(** The channel holds one acknowledgement. *)
Definition on_alive_ack (m : aliveMessage) (st : inbox) : outcome :=
  match ib_ackChan st with
  | [] => Runs (Inbox (ib_funcs st) (ib_client st) [al_Time m] (ib_detachAck st) (ib_busClosed st) (ib_effects st))
  | _ => Blocked
  end.

Definition on_discard (m : discardMessage) (st : inbox) : outcome :=
  let st := if cf_discard (ib_funcs st) &&
               ((0 <? length (dc_DiscardedInput m))%nat || (0 <? dc_DiscardedOutputLines m) || (0 <? dc_DiscardedOutputBytes m))
            then produce (DiscardCallback (dc_DiscardedInput m) (dc_DiscardedOutputLines m) (dc_DiscardedOutputBytes m)) st else st in
  Runs (with_client (handleDiscardEvent (dc_DiscardMarker m) (ib_client st)) st).

(** The key exchange is in [Rekey]; QUIC has none. *)
Definition on_client_rekey (m : rekeyMessage) (st : inbox) : outcome :=
  Runs (if c_kcp (ib_client st) then produce (ClientRekey (rk_PubKey m)) st else st).

Definition on_detachAck (m : detachAckMessage) (st : inbox) : outcome :=
  Runs (if ib_detachAck st
        then produce DetachAcknowledged (Inbox (ib_funcs st) (ib_client st) (ib_ackChan st) false (ib_busClosed st) (ib_effects st))
        else st).

(** ** The loop *)

(** The bus has ended: [busClosed] is closed. *)
Definition bus_ended (st : inbox) : inbox :=
  let st := if c_closed (ib_client st) || c_quited (ib_client st) then st else produce (WarningCall "recv bus command failed") st in
  Inbox (ib_funcs st) (ib_client st) (ib_ackChan st) (ib_detachAck st) true (ib_effects st).

Section Loop.
Context `{!Codec quitMessage, !Codec exitMessage, !Codec debugMessage, !Codec errorMessage, !Codec channelMessage, !Codec aliveMessage,
          !Codec discardMessage, !Codec rekeyMessage, !Codec detachAckMessage, !Codec unit}.

(** A message that cannot be received is a warning. *)
Definition take_message {M} `{!Codec M} (f : M -> inbox -> outcome) (r : reader) (st : inbox) : reader * outcome :=
  match recvMessage r with
  | (r', Ok m) => (r', f m st)
  | (r', Err _) => (r', Runs (produce (WarningCall "recv message failed") st))
  end.

(** Always an error, which is a warning here. *)
Definition unknown_command (command : string) (r : reader) (st : inbox) : reader * outcome :=
  ((recvMessage (M := unit) r).1, Runs (produce (WarningCall ("handle bus command [" +:+ command +:+ "] failed")) st)).

(** The [switch] of [handleBusEvent]. *)
Definition handle_command (now : Z) (command : string) : reader -> inbox -> reader * outcome :=
  if bool_decide (command = "quit"%string) then take_message on_quit
  else if bool_decide (command = "exit"%string) then take_message on_session_exit
  else if bool_decide (command = "debug"%string) then take_message (on_debug now)
  else if bool_decide (command = "error"%string) then take_message on_error
  else if bool_decide (command = "channel"%string) then take_message on_channel
  else if bool_decide (command = "alive"%string) then take_message on_alive_ack
  else if bool_decide (command = "discard"%string) then take_message on_discard
  else if bool_decide (command = "rekey"%string) then take_message on_client_rekey
  else if bool_decide (command = "detachAck"%string) then take_message on_detachAck
  else unknown_command command.

(** [envs i] is what the [i]th pass meets.  [None]: out of fuel. *)
Fixpoint inbox_loop (fuel : nat) (envs : nat -> inbox_env) (i : nat) (r : reader) (st : inbox) : option outcome :=
  match fuel with
  | O => None
  | S fuel' =>
      match recvCommand r with
      | (_, Err _) => Some (Runs (bus_ended st))
      | (r1, Ok command) =>
          match between (envs i) st with
          | Runs st1 =>
              match handle_command (ie_now (envs i)) command r1 st1 with
              | (r2, Runs st2) => inbox_loop fuel' envs (S i) r2 st2
              | (_, o) => Some o
              end
          | o => Some o
          end
      end
  end.

(** ** The specification *)

Inductive server_message :=
| SQuit (m : quitMessage)
| SExit (m : exitMessage)
| SDebug (m : debugMessage)
| SError (m : errorMessage)
| SChannel (m : channelMessage)
| SAlive (m : aliveMessage)
| SDiscard (m : discardMessage)
| SRekey (m : rekeyMessage)
| SDetachAck (m : detachAckMessage)
| SUnknown (command : string) (body : bytes).

Definition server_commands : list string :=
  ["quit"; "exit"; "debug"; "error"; "channel"; "alive"; "discard"; "rekey"; "detachAck"]%string.

(** What [sendBusMessage] of the server writes. *)
Definition encode_server (m : server_message) : option bytes :=
  match m with
  | SQuit m => encode_message "quit" m
  | SExit m => encode_message "exit" m
  | SDebug m => encode_message "debug" m
  | SError m => encode_message "error" m
  | SChannel m => encode_message "channel" m
  | SAlive m => encode_message "alive" m
  | SDiscard m => encode_message "discard" m
  | SRekey m => encode_message "rekey" m
  | SDetachAck m => encode_message "detachAck" m
  | SUnknown command body =>
      if bool_decide (command ∈ server_commands) || (255 <? String.length command)%nat then None else encode_body command body
  end.

Definition obey (now : Z) (m : server_message) (st : inbox) : outcome :=
  match m with
  | SQuit m => on_quit m st
  | SExit m => on_session_exit m st
  | SDebug m => on_debug now m st
  | SError m => on_error m st
  | SChannel m => on_channel m st
  | SAlive m => on_alive_ack m st
  | SDiscard m => on_discard m st
  | SRekey m => on_client_rekey m st
  | SDetachAck m => on_detachAck m st
  | SUnknown command _ => Runs (produce (WarningCall ("handle bus command [" +:+ command +:+ "] failed")) st)
  end.

Fixpoint obey_all (envs : nat -> inbox_env) (i : nat) (ms : list server_message) (st : inbox) : outcome :=
  match ms with
  | [] => Runs (bus_ended st)
  | m :: ms => obind (between (envs i) st) (fun st => obind (obey (ie_now (envs i)) m st) (obey_all envs (S i) ms))
  end.

End Loop.

(** ** The loop implements the specification *)

Section Refine.
Context `{!Codec quitMessage, !Codec exitMessage, !Codec debugMessage, !Codec errorMessage, !Codec channelMessage, !Codec aliveMessage,
          !Codec discardMessage, !Codec rekeyMessage, !Codec detachAckMessage, !Codec unit}.
Context `{!CodecOk quitMessage, !CodecOk exitMessage, !CodecOk debugMessage, !CodecOk errorMessage, !CodecOk channelMessage,
          !CodecOk aliveMessage, !CodecOk discardMessage, !CodecOk rekeyMessage, !CodecOk detachAckMessage}.

(** What handles [command] takes exactly its message off the stream. *)
Definition takes (h : reader -> inbox -> reader * outcome) (frame : bytes) (f : inbox -> outcome) : Prop :=
  forall r rest st, rd_bytes r = frame ++ rest -> proper r -> exists r', h r st = (r', f st) /\ rd_bytes r' = rest /\ proper r'.

Lemma take_message_takes {M} `{!Codec M, !CodecOk M} command (m : M) b :
  encode_message command m = Some b ->
  exists frame, b = command_frame command ++ frame /\ forall f, takes (take_message f) frame (f m).
Proof.
  unfold encode_message, encode_body. destruct (json_Marshal m) as [body|] eqn:Em; [|done].
  destruct (Z.ltb_spec (Z.of_nat (length body)) (2 ^ 32)) as [Hlen|]; [|done]. intros [= <-].
  eexists. split; [done|]. intros f r rest st Hr Hp.
  destruct (recvMessage_body (M := M) r body rest Hlen Hr Hp) as (r' & Hb & Hp' & E).
  exists r'. unfold take_message. by rewrite E, (json_roundtrip _ _ Em).
Qed.

Lemma unknown_takes command body b :
  encode_body command body = Some b ->
  exists frame, b = command_frame command ++ frame /\ takes (unknown_command command) frame (obey 0 (SUnknown command body)).
Proof.
  unfold encode_body. destruct (Z.ltb_spec (Z.of_nat (length body)) (2 ^ 32)) as [Hlen|]; [|done]. intros [= <-].
  eexists. split; [done|]. intros r rest st Hr Hp.
  destruct (recvMessage_body (M := unit) r body rest Hlen Hr Hp) as (r' & Hb & Hp' & E).
  exists r'. unfold unknown_command. by rewrite E.
Qed.

(** A message begins with its command, and the [switch] takes it from there. *)
Lemma handle_command_takes now m b :
  encode_server m = Some b ->
  exists command frame, b = command_frame command ++ frame /\ (String.length command <= 255)%nat /\
    takes (handle_command now command) frame (obey now m).
Proof.
  destruct m as [m|m|m|m|m|m|m|m|m|command body]; cbn [encode_server]; intros Henc.
  1-9: destruct (take_message_takes _ m b Henc) as (frame & -> & Ht);
    eexists _, frame; split_and!; [reflexivity|simpl; lia|unfold handle_command; dispatch; apply Ht].
  destruct (bool_decide_reflect (command ∈ server_commands)) as [|Hk]; [done|].
  destruct (Nat.ltb_spec 255 (String.length command)); [done|]. cbn [orb] in Henc.
  destruct (unknown_takes command body b Henc) as (frame & -> & Ht).
  exists command, frame. split_and!; [done|lia|].
  unfold server_commands in Hk. repeat (rewrite not_elem_of_cons in Hk). destruct_and! Hk.
  unfold handle_command. dispatch. exact Ht.
Qed.

(** C8: whatever the cuts of the stream, the client performs the messages of the
    server one after the other, in their order, and closes [busClosed] when the
    stream ends; a panic or a block of a handler ends it there. *)
Theorem inbox_loop_refines envs i ms frames r st :
  mapM encode_server ms = Some frames -> rd_bytes r = concat frames -> proper r ->
  inbox_loop (S (length ms)) envs i r st = Some (obey_all envs i ms st).
Proof.
  revert i frames r st. induction ms as [|m ms IH]; intros i frames r st Hf Hr Hp.
  - injection Hf as <-. cbn [inbox_loop length]. by destruct (recvCommand_end r Hr Hp) as (r' & e & ->).
  - cbn [mapM] in Hf. destruct (encode_server m) as [b|] eqn:Em; [|done].
    change (mapM encode_server ms ≫= (fun l => Some (b :: l)) = Some frames) in Hf.
    destruct (mapM encode_server ms) as [fs|]; [|done]. injection Hf as <-. simpl in Hr.
    destruct (handle_command_takes (ie_now (envs i)) m b Em) as (command & frame & -> & Hlen & Ht).
    rewrite <- app_assoc in Hr. destruct (recvCommand_frame r command _ Hr Hp Hlen) as (r1 & E1 & Hb1 & Hp1).
    cbn [length]. remember (S (length ms)) as n eqn:En. cbn [inbox_loop obey_all]. rewrite E1.
    destruct (between (envs i) st) as [st1| |]; [|done|done]. cbn [obind].
    destruct (Ht r1 _ st1 Hb1 Hp1) as (r2 & -> & Hb2 & Hp2).
    destruct (obey (ie_now (envs i)) m st1) as [st2| |]; [|done|done]. subst n. by apply (IH _ fs).
Qed.

End Refine.

(** ** The heartbeat *)

(** [keepAlive] and what it waits for: [ka_waiting] after it has sent,
    [ka_flight] are the times on their way to the server and back.  It runs
    beside the loop, which hands it the answers. *)
Record heartbeat := Heartbeat { ka_waiting : bool; ka_ended : bool; ka_flight : list Z; ka_inbox : inbox }.

(** A tick of the ticker (with whether the send worked), an answer of the
    server, the taking of an acknowledgement, the loss of what is on its way, or
    anything that others do to the client. *)
Inductive heartbeat_event := KTick (now : Z) (sendOk : bool) | KAnswer | KTake | KLost | KClient (c : SshUdpClient).

(** [None]: the loop over the bus blocks. *)
Definition heartbeat_step (k : heartbeat) (e : heartbeat_event) : option heartbeat :=
  match e with
  | KTick now sendOk =>
      if ka_waiting k || ka_ended k then Some k
      else let c := ib_client (ka_inbox k) in
           if c_closed c then Some (Heartbeat false true (ka_flight k) (ka_inbox k))
           else Some (Heartbeat true false (if sendOk && negb (c_detached c) then ka_flight k ++ [now] else ka_flight k)
                        (with_client (keepAlive_tick now c) (ka_inbox k)))
  | KAnswer =>
      match ka_flight k with
      | [] => Some k
      | t :: rest => match on_alive_ack (AliveMessage t) (ka_inbox k) with
                     | Runs st => Some (Heartbeat (ka_waiting k) (ka_ended k) rest st)
                     | _ => None
                     end
      end
  | KTake =>
      match ib_ackChan (ka_inbox k) with
      | t :: rest =>
          if ka_waiting k
          then Some (Heartbeat false (ka_ended k) (ka_flight k)
                       (Inbox (ib_funcs (ka_inbox k)) (ib_client (ka_inbox k)) rest (ib_detachAck (ka_inbox k)) (ib_busClosed (ka_inbox k))
                          (ib_effects (ka_inbox k))))
          else Some k
      | [] => Some k
      end
  | KLost => Some (Heartbeat (ka_waiting k) (ka_ended k) [] (ka_inbox k))
  | KClient c => Some (Heartbeat (ka_waiting k) (ka_ended k) (ka_flight k) (with_client c (ka_inbox k)))
  end.

Fixpoint heartbeat_run (es : list heartbeat_event) (k : heartbeat) : option heartbeat :=
  match es with
  | [] => Some k
  | e :: es => match heartbeat_step k e with Some k' => heartbeat_run es k' | None => None end
  end.

(** At most one heartbeat is under way. *)
Definition one_beat (k : heartbeat) : Prop :=
  (length (ka_flight k) + length (ib_ackChan (ka_inbox k)) <= (if ka_waiting k then 1 else 0))%nat.

Lemma one_beat_step k e : one_beat k -> exists k', heartbeat_step k e = Some k' /\ one_beat k'.
Proof.
  unfold one_beat. intros H. destruct e as [now ok| | | |c]; cbn [heartbeat_step].
  - destruct (ka_waiting k || ka_ended k) eqn:E; [eauto|]. apply orb_false_iff in E as [Ew _]. rewrite Ew in H.
    destruct (c_closed _); (eexists; split; [reflexivity|]); cbn; [lia|]. destruct (_ && _); rewrite ?length_app; cbn; lia.
  - destruct (ka_flight k) as [|t rest] eqn:Ef; [exists k; by rewrite Ef|]. cbn [length] in H. unfold on_alive_ack.
    destruct (ib_ackChan (ka_inbox k)); [|cbn in H; destruct (ka_waiting k); lia].
    eexists. split; [done|]. cbn in *. lia.
  - destruct (ib_ackChan (ka_inbox k)) as [|t rest] eqn:E; [eexists; split; [done|]; by rewrite E|].
    destruct (ka_waiting k) eqn:Ew; eexists; (split; [done|]); cbn in *; rewrite ?E, ?Ew; cbn; lia.
  - eexists. split; [done|]. cbn. destruct (ka_waiting k); lia.
  - eexists. by split.
Qed.

(** The loop over the bus never blocks on an acknowledgement of the
    heartbeat, whatever the ticks, failed sends, lost heartbeats and calls of the
    user: [keepAlive] never has two heartbeats under way, and [activeAckChan]
    has room for one. *)
Theorem heartbeat_never_blocks f c es :
  exists k, heartbeat_run es (Heartbeat false false [] (Inbox f c [] false false [])) = Some k /\ one_beat k.
Proof.
  assert (H : one_beat (Heartbeat false false [] (Inbox f c [] false false []))) by (cbv; lia).
  revert H. generalize (Heartbeat false false [] (Inbox f c [] false false [])).
  induction es as [|e es IH]; intros k H; [by exists k|]. cbn [heartbeat_run].
  destruct (one_beat_step k e H) as (k' & -> & H'). by apply IH.
Qed.

(** A tick that finds the client detached but not yet closed (as it is while
    [Detach] waits for the server), or one whose send fails, leaves [keepAlive]
    waiting for an answer to a message never sent: it does not end, whatever
    follows, also once the client is closed. *)
Theorem unsent_heartbeat_waits now ok c f es k' :
  c_closed c = false -> c_detached c = true \/ ok = false ->
  heartbeat_run (KTick now ok :: es) (Heartbeat false false [] (Inbox f c [] false false [])) = Some k' ->
  ka_waiting k' = true /\ ka_ended k' = false.
Proof.
  intros Hc Hd. cbn [heartbeat_run heartbeat_step ka_waiting ka_ended orb ka_inbox ib_client ka_flight]. rewrite Hc.
  replace (ok && negb (c_detached c)) with false by (destruct Hd as [->| ->]; [by destruct ok|done]).
  assert (Hstuck : forall k, ka_waiting k = true -> ka_ended k = false -> ka_flight k = [] -> ib_ackChan (ka_inbox k) = [] ->
    heartbeat_run es k = Some k' -> ka_waiting k' = true /\ ka_ended k' = false); [|by apply Hstuck].
  induction es as [|e es IH]; intros k Hw He Hf Ha; cbn [heartbeat_run]; [by intros [= <-]|].
  destruct e; cbn [heartbeat_step]; rewrite ?Hw, ?Hf, ?Ha; cbn [orb]; intros Hr; by eapply IH; [..|exact Hr].
Qed.

(** ** Examples *)

Lemma string_bytes s : string_of_list_ascii (bs s) = s.
Proof. apply string_of_list_ascii_of_string. Qed.

#[local] Existing Instances exit_codec alive_codec rekey_codec unit_codec exit_codec_ok alive_codec_ok rekey_codec_ok.

#[local] Instance quit_codec : Codec quitMessage := {
  json_Marshal m := Ok (bs (qm_Msg m));
  json_Unmarshal b := Ok (QuitMessage (string_of_list_ascii b))
}.

#[local] Instance debug_codec : Codec debugMessage := {
  json_Marshal m := if dm_Time m =? 0 then Ok (bs (dm_Msg m)) else Err (Plain "unsupported");
  json_Unmarshal b := Ok (DebugMessage (string_of_list_ascii b) 0)
}.

#[local] Instance error_codec : Codec errorMessage := {
  json_Marshal m := if em_Code m =? 0 then Ok (bs (em_Msg m)) else Err (Plain "unsupported");
  json_Unmarshal b := Ok (ErrorMessage 0 (string_of_list_ascii b))
}.

#[local] Instance channel_codec : Codec channelMessage := {
  json_Marshal m := if ch_ID m =? 0 then Ok (bs (ch_ChannelType m)) else Err (Plain "unsupported");
  json_Unmarshal b := Ok (ChannelMessage (string_of_list_ascii b) 0)
}.

#[local] Instance discard_codec : Codec discardMessage := {
  json_Marshal m := match dc_DiscardedInput m with
                    | [] => if (dc_DiscardedOutputLines m =? 0) && (dc_DiscardedOutputBytes m =? 0) then Ok (dc_DiscardMarker m)
                            else Err (Plain "unsupported")
                    | _ => Err (Plain "unsupported")
                    end;
  json_Unmarshal b := Ok (DiscardMessage b [] 0 0)
}.

#[local] Instance detachAck_codec : Codec detachAckMessage := {
  json_Marshal _ := Ok [];
  json_Unmarshal _ := Ok DetachAckMessage
}.

Ltac text_codec := intros []; intros ?; cbn -[string_of_list_ascii bs]; repeat case_match; intros; simplify_eq;
  rewrite ?string_bytes; repeat match goal with H : (_ =? 0) = true |- _ => apply Z.eqb_eq in H as -> end; done.

#[local] Instance quit_codec_ok : CodecOk quitMessage.
Proof. text_codec. Qed.

#[local] Instance debug_codec_ok : CodecOk debugMessage.
Proof. text_codec. Qed.

#[local] Instance error_codec_ok : CodecOk errorMessage.
Proof. text_codec. Qed.

#[local] Instance channel_codec_ok : CodecOk channelMessage.
Proof. text_codec. Qed.

#[local] Instance discard_codec_ok : CodecOk discardMessage.
Proof.
  intros [mk inp l n] b. cbn. destruct inp; [|done]. destruct (_ && _) eqn:E; [|done].
  apply andb_true_iff in E as [->%Z.eqb_eq ->%Z.eqb_eq]. by intros [= ->].
Qed.

#[local] Instance detachAck_codec_ok : CodecOk detachAckMessage.
Proof. by intros [] b _. Qed.

Definition example_messages : list server_message :=
  [SDebug (DebugMessage "hello" 0); SAlive (AliveMessage 42); SExit (ExitMessage 7 0); SUnknown "future" (bs "data");
   SDetachAck DetachAckMessage; SQuit (QuitMessage "takeover")].

Definition calm : nat -> inbox_env := fun i => InboxEnv [] false (Nat.eqb i 4) 1000.

Lemma inbox_loop_refines_witness :
  exists st, inbox_loop 7 calm 0 (Reader ((fun b => [b]) <$> concat (default [] (mapM encode_server example_messages))) EOF)
               (Inbox (ClientFuncs true true true) one_session [] false false []) = Some (Runs st) /\
    ib_effects st = [DebugCall 1000 "[server] hello"; WarningCall "handle bus command [future] failed"; DetachAcknowledged;
                     QuitCallback "takeover"] /\
    ib_ackChan st = [42] /\ ib_busClosed st = true /\ c_exitWG (ib_client st) = 0 /\ c_sessionMap (ib_client st) !! 7 = None.
Proof.
  eexists. split.
  - etransitivity; [apply (inbox_loop_refines calm 0 example_messages (default [] (mapM encode_server example_messages)))|].
    + vm_compute. reflexivity.
    + vm_compute. reflexivity.
    + apply (bool_decide_unpack _). vm_compute. exact I.
    + vm_compute. reflexivity.
  - vm_compute. auto 6.
Defined.

Definition detached_client : SshUdpClient := set_flags false true false example_client.

Lemma unsent_heartbeat_waits_witness :
  exists k, heartbeat_run [KTick 5 true; KClient (set_flags true true false example_client); KAnswer; KTake; KTick 6 true]
              (Heartbeat false false [] (Inbox (ClientFuncs true true true) detached_client [] false false [])) = Some k /\
    ka_waiting k = true /\ ka_ended k = false.
Proof.
  eexists. split; [reflexivity|].
  eapply (unsent_heartbeat_waits 5 true detached_client _ [KClient (set_flags true true false example_client); KAnswer; KTake; KTick 6 true]).
  - reflexivity.
  - left. reflexivity.
  - reflexivity.
Defined.
