(* ===== verification/Leave.v ===== *)
(** * Leave: how long it takes to set a client up and to leave ([client.go], [comm.go], [output.go])

    The waits of [Close], [Detach] and of a session's [Close], with the times at
    which what they wait for happens, and the steps of [NewSshUdpClient] with what
    they hold.  Times are in milliseconds. *)

From Stdlib Require Import ZArith Lia Ascii String.
From stdpp Require Import base list strings.
From S2P Require Import Prelude.
Open Scope Z_scope.

(** ** Waiting with a bound *)

(** When something happens, if ever; [ev_tie] is the choice of a [select] that
    finds both it and the end of the wait. *)
Record event := Event { ev_at : option Z; ev_tie : bool }.

(** [select] between an event and a timer: when it returns, and whether with the
    event. *)
Definition select_at (now : Z) (e : event) (deadline : Z) : Z * bool :=
  let td := Z.max now deadline in
  match ev_at e with
  | None => (td, false)
  | Some t => let te := Z.max now t in
              if te <? td then (te, true) else if te =? td then (te, ev_tie e) else (td, false)
  end.

(** The task goes on when the wait is over. *)
Definition doWithTimeout (now : Z) (task : event) (timeout : Z) : Z * bool := select_at now task (now + timeout).

Lemma select_at_range now e deadline : now <= (select_at now e deadline).1 <= Z.max now deadline.
Proof. unfold select_at. cbv zeta. repeat case_match; simpl; lia. Qed.

Lemma select_at_happened now e deadline t :
  select_at now e deadline = (t, true) -> exists u, ev_at e = Some u /\ u <= t.
Proof. unfold select_at. cbv zeta. repeat case_match; intros; simplify_eq; eexists; split; try done; lia. Qed.

Lemma select_at_before now e deadline u :
  ev_at e = Some u -> now < deadline -> u < deadline -> select_at now e deadline = (Z.max now u, true).
Proof. unfold select_at. intros -> ? ?. cbv zeta. repeat case_match; simplify_eq; try done; lia. Qed.

(** ** Draining the output of the sessions *)

(** [clientOutputForwarder.waitDone]; [None] is a nil forwarder. *)
Definition waitDone (now deadline : Z) (f : option event) : Z * bool :=
  match f with None => (now, true) | Some done => select_at now done deadline end.

Fixpoint wait_all (now deadline : Z) (fs : list (option event)) : Z * bool :=
  match fs with
  | [] => (now, true)
  | f :: fs => match waitDone now deadline f with
               | (t, true) => wait_all t deadline fs
               | (t, false) => (t, false)
               end
  end.

(** [waitOutputDrained]: standard output, then the error output. *)
Definition waitOutputDrained (now deadline : Z) (sess : option event * option event) : Z * bool :=
  wait_all now deadline [sess.1; sess.2].

Fixpoint drain_sessions (now deadline : Z) (sessions : list (option event * option event)) : Z * bool :=
  match sessions with
  | [] => (now, true)
  | sess :: rest => match waitOutputDrained now deadline sess with
                    | (t, true) => drain_sessions t deadline rest
                    | (t, false) => (t, false)
                    end
  end.

Definition forwarders (sessions : list (option event * option event)) : list (option event) :=
  concat ((fun s => [s.1; s.2]) <$> sessions).

(** The forwarder has ended by [t]. *)
Definition ended_by (t : Z) (f : option event) : Prop :=
  match f with None => True | Some e => exists u, ev_at e = Some u /\ u <= t end.

Definition ends_before (t : Z) (f : option event) : Prop :=
  match f with None => True | Some e => exists u, ev_at e = Some u /\ u < t end.

Lemma wait_all_app now deadline fs gs :
  wait_all now deadline (fs ++ gs) =
    match wait_all now deadline fs with (t, true) => wait_all t deadline gs | (t, false) => (t, false) end.
Proof.
  revert now. induction fs as [|f fs IH]; intros now; [done|]. cbn [app wait_all].
  destruct (waitDone now deadline f) as [t []]; [apply IH|done].
Qed.

Lemma drain_sessions_flat now deadline sessions :
  drain_sessions now deadline sessions = wait_all now deadline (forwarders sessions).
Proof.
  revert now. induction sessions as [|s rest IH]; intros now; [done|].
  unfold forwarders. cbn [fmap list_fmap concat]. rewrite wait_all_app. cbn [drain_sessions]. unfold waitOutputDrained.
  destruct (wait_all _ _ _) as [t []]; [apply IH|done].
Qed.

Lemma waitDone_range now deadline f : now <= (waitDone now deadline f).1 <= Z.max now deadline.
Proof. destruct f; [apply select_at_range|simpl; lia]. Qed.

Lemma wait_all_range now deadline fs : now <= (wait_all now deadline fs).1 <= Z.max now deadline.
Proof.
  revert now. induction fs as [|f fs IH]; intros now; [simpl; lia|]. cbn [wait_all].
  pose proof (waitDone_range now deadline f). destruct (waitDone now deadline f) as [t []]; cbn [fst] in *; [|done].
  specialize (IH t). lia.
Qed.

Lemma wait_all_done now deadline fs t : wait_all now deadline fs = (t, true) -> Forall (ended_by t) fs.
Proof.
  revert now. induction fs as [|f fs IH]; intros now; [done|]. cbn [wait_all].
  destruct (waitDone now deadline f) as [t1 []] eqn:E; [|done]. intros Hw. constructor; [|by eapply IH].
  destruct f as [e|]; [|done]. apply select_at_happened in E as (u & Hu & Hle). exists u. split; [done|].
  pose proof (wait_all_range t1 deadline fs) as Hr. rewrite Hw in Hr. simpl in Hr. lia.
Qed.

Lemma wait_all_complete now deadline fs :
  now < deadline -> Forall (ends_before deadline) fs -> (wait_all now deadline fs).2 = true.
Proof.
  intros Hn Hf. revert now Hn. induction Hf as [|f fs Hu _ IH]; intros now Hn; [done|]. cbn [wait_all].
  destruct f as [e|]; [|by apply IH]. destruct Hu as (u & Hu & Hlt). cbn [waitDone].
  rewrite (select_at_before now e deadline u) by done. apply IH. lia.
Qed.

(** ** Detaching *)

Definition kDetachAckTimeout : Z := 3000.
Definition kDetachDrainTimeout : Z := 3000.

(** What the rendezvous with the server meets; [de_lock]: when [busMutex] is
    free for it, if ever, since another sender holds it while it writes;
    [de_sendOk]: the send, once over, had no error. *)
Record detach_env := DetachEnv {
  de_lock : option Z;
  de_send : event;
  de_sendOk : bool;
  de_ack : event;
  de_sessions : list (option event * option event)
}.

Inductive rendezvous := NotSupported | NoStream | SendFailed | NoAck | NotDrained | Drained.

(** The part of [notifyServerDetach] from [now], at which [busMutex] is locked. *)
Definition locked_detach (bus : bool) (e : detach_env) (now : Z) : Z * rendezvous :=
  if negb bus then (now, NoStream)
  else
    let '(t1, sent) := doWithTimeout now (de_send e) kDetachAckTimeout in
    if negb (sent && de_sendOk e) then (t1, SendFailed)
    else
      let '(t2, acked) := select_at t1 (de_ack e) (t1 + kDetachAckTimeout) in
      if negb acked then (t2, NoAck)
      else
        let '(t3, drained) := drain_sessions t2 (t2 + kDetachDrainTimeout) (de_sessions e) in
        (t3, if drained then Drained else NotDrained).

(** [notifyServerDetach], with [supported] for its guards on the protocol and
    [bus] for the one on the stream: when it returns and why; [None] when it
    waits for [busMutex] for ever. *)
Definition notify_detach (supported bus : bool) (e : detach_env) (now : Z) : option (Z * rendezvous) :=
  if negb supported then Some (now, NotSupported)
  else match de_lock e with
       | None => None
       | Some l => Some (locked_detach bus e (Z.max now l))
       end.

(** ** Closing *)

Definition kBusCloseTimeout : Z := 280.

(** [ce_send]: the command to close is written; [ce_busClosed]: the loop over the
    bus has ended; [ce_client]: [closeClient] of the protocol has returned. *)
Record close_env := CloseEnv { ce_send : event; ce_busClosed : event; ce_client : event }.

(** The task that ends the bus: when it is over. *)
Definition close_bus (e : close_env) (now : Z) : event :=
  match ev_at (ce_send e) with
  | None => Event None false
  | Some s => let t := Z.max now s in Event (Some (select_at t (ce_busClosed e) (t + kBusCloseTimeout)).1) (ev_tie (ce_send e))
  end.

(** [Close] of a client that is not closed yet, up to closing its path, which
    does not wait. *)
Definition close_client (bus proto detached : bool) (e : close_env) (now : Z) : Z :=
  let t1 := if bus && negb detached then (doWithTimeout now (close_bus e now) 300).1 else now in
  if proto && negb detached then (doWithTimeout t1 (ce_client e) 200).1 else t1.

(** [Detach] of a client with [bus] and [proto]: when the path is closed, if it
    ever is. *)
Definition detach_client (supported bus proto : bool) (e : detach_env) (c : close_env) (now : Z) : option (Z * rendezvous) :=
  match notify_detach supported bus e now with
  | None => None
  | Some (t, why) => Some (close_client bus proto true c t, why)
  end.

(** ** Closing a session *)

(** [xe_send]: when the request to exit is written and whether it worked. *)
Record exit_env := ExitEnv { xe_exited : event; xe_send : option Z; xe_sendOk : bool; xe_tie : bool }.

(** What the task does: whether it asks for the exit, and when it closes the
    stream. *)
Definition close_task (e : exit_env) (now : Z) : bool * option Z :=
  match select_at now (xe_exited e) (now + 100) with
  | (t1, true) => (false, Some t1)
  | (t1, false) =>
      (true, match xe_send e with
             | None => None
             | Some s => let t2 := Z.max t1 s in
                         Some (if xe_sendOk e then (select_at t2 (xe_exited e) (t2 + 350)).1 else t2)
             end)
  end.

(** [SshUdpSession.Close] returns at, having asked for the exit or not, and with
    the stream closed or not. *)
Definition close_udp_session (e : exit_env) (now : Z) : Z * bool * bool :=
  let '(asked, closed) := close_task e now in
  let '(t, over) := doWithTimeout now (Event closed (xe_tie e)) 500 in
  (t, asked, over).

(** ** Theorems *)

Lemma doWithTimeout_range now e timeout : 0 <= timeout -> now <= (doWithTimeout now e timeout).1 <= now + timeout.
Proof. intros H. pose proof (select_at_range now e (now + timeout)). unfold doWithTimeout. lia. Qed.

Lemma locked_detach_range bus e now : now <= (locked_detach bus e now).1 <= now + 9000.
Proof.
  unfold locked_detach. destruct bus; cbn [negb]; [|simpl; lia].
  pose proof (doWithTimeout_range now (de_send e) kDetachAckTimeout ltac:(done)) as H1.
  destruct (doWithTimeout now (de_send e) kDetachAckTimeout) as [t1 sent]. cbn [fst] in H1. unfold kDetachAckTimeout in H1.
  case_match; [simpl; lia|].
  pose proof (select_at_range t1 (de_ack e) (t1 + kDetachAckTimeout)) as H2. destruct (select_at _ _ _) as [t2 acked].
  cbn [fst] in H2. unfold kDetachAckTimeout in H2. case_match; [simpl; lia|].
  rewrite drain_sessions_flat. pose proof (wait_all_range t2 (t2 + kDetachDrainTimeout) (forwarders (de_sessions e))) as H3.
  destruct (wait_all _ _ _) as [t3 drained]. cbn [fst] in *. unfold kDetachDrainTimeout in H3. lia.
Qed.

Lemma locked_detach_drained bus e now t :
  locked_detach bus e now = (t, Drained) -> Forall (ended_by t) (forwarders (de_sessions e)).
Proof.
  unfold locked_detach. destruct bus; [|done]. cbn [negb].
  destruct (doWithTimeout _ _ _) as [t1 sent]. case_match; [done|].
  destruct (select_at _ _ _) as [t2 acked]. case_match; [done|].
  rewrite drain_sessions_flat. destruct (wait_all _ _ _) as [t3 drained] eqn:Ew.
  destruct drained; [|done]. intros [= <-]. by eapply wait_all_done.
Qed.

Lemma close_client_detached bus proto e now : close_client bus proto true e now = now.
Proof. unfold close_client. by rewrite !andb_false_r. Qed.

(** C23: [Detach] closes the path within nine seconds of having [busMutex],
    whatever the server and the readers of the output do, and at once when the
    protocol has no rendezvous; when it reports a drained rendezvous every
    output forwarder of the sessions had ended by then.  It never closes the path
    exactly when a sender never gives [busMutex] back: that wait has no bound. *)
Theorem detach_waits_for_output supported bus proto e c now :
  match detach_client supported bus proto e c now with
  | Some (t, why) =>
      (if supported then exists l, de_lock e = Some l /\ Z.max now l <= t <= Z.max now l + 9000 else t = now) /\
      (why = Drained -> Forall (ended_by t) (forwarders (de_sessions e)))
  | None => supported = true /\ de_lock e = None
  end.
Proof.
  unfold detach_client, notify_detach. destruct supported; cbn [negb]; [|by rewrite close_client_detached].
  destruct (de_lock e) as [l|]; [|done].
  pose proof (locked_detach_range bus e (Z.max now l)) as Hr.
  destruct (locked_detach bus e (Z.max now l)) as [t why] eqn:E. rewrite close_client_detached.
  split; [by exists l|]. intros ->. by eapply locked_detach_drained.
Qed.

(** When the server answers in time and the sessions' outputs end in time,
    the rendezvous is not cut short: [Detach] waits for the last byte. *)
Theorem detach_drains proto e c now l s a :
  de_lock e = Some l ->
  ev_at (de_send e) = Some s -> s < Z.max now l + kDetachAckTimeout -> de_sendOk e = true ->
  ev_at (de_ack e) = Some a -> a < Z.max (Z.max now l) s + kDetachAckTimeout ->
  Forall (ends_before (Z.max (Z.max (Z.max now l) s) a + kDetachDrainTimeout)) (forwarders (de_sessions e)) ->
  option_map snd (detach_client true true proto e c now) = Some Drained.
Proof.
  intros Hl Hs Hlt Hok Ha Halt Hf. unfold detach_client, notify_detach. cbn [negb]. rewrite Hl.
  set (n := Z.max now l) in *. unfold locked_detach, doWithTimeout. cbn [negb].
  rewrite (select_at_before n (de_send e) _ s) by (done || unfold kDetachAckTimeout in *; lia). rewrite Hok. cbn [andb negb].
  rewrite (select_at_before (Z.max n s) (de_ack e) _ a) by (done || unfold kDetachAckTimeout in *; lia). cbn [negb].
  rewrite drain_sessions_flat.
  assert (Hd : Z.max (Z.max n s) a < Z.max (Z.max n s) a + kDetachDrainTimeout) by (unfold kDetachDrainTimeout; lia).
  pose proof (wait_all_complete _ _ _ Hd Hf) as Hw.
  destruct (wait_all _ _ _) as [t drained]. cbn [snd] in Hw. by rewrite Hw.
Qed.

(** [Close] of a client takes half a second at most. *)
Lemma close_client_range bus proto detached e now : now <= close_client bus proto detached e now <= now + 500.
Proof.
  unfold close_client. cbv zeta. set (t1 := if bus && negb detached then _ else now).
  assert (H1 : now <= t1 <= now + 300).
  { unfold t1. destruct (bus && negb detached); [by apply doWithTimeout_range|lia]. }
  destruct (proto && negb detached); [|lia]. pose proof (doWithTimeout_range t1 (ce_client e) 200 ltac:(lia)). lia.
Qed.

(** Closing a session returns within half a second; it asks the server to end
    the session unless the session has exited within a tenth of one; and with a
    request written within 49 ms of that, the stream is closed on return. *)
Theorem session_close_bounded e now t asked closed :
  close_udp_session e now = (t, asked, closed) ->
  now <= t <= now + 500 /\
  (asked = false -> exists u, ev_at (xe_exited e) = Some u /\ u <= now + 100) /\
  ((exists s, xe_send e = Some s /\ s < now + 150) -> closed = true).
Proof.
  unfold close_udp_session. destruct (close_task e now) as [asked' closed'] eqn:Et.
  pose proof (doWithTimeout_range now (Event closed' (xe_tie e)) 500 ltac:(lia)) as Hr.
  destruct (doWithTimeout _ _ _) as [t' over] eqn:Ed. intros [= -> -> ->]. split; [exact Hr|].
  unfold close_task in Et. pose proof (select_at_range now (xe_exited e) (now + 100)) as Hr1.
  destruct (select_at now (xe_exited e) (now + 100)) as [t1 exited] eqn:Es. cbn [fst] in Hr1. split.
  - intros ->. destruct exited; [|done]. destruct (select_at_happened _ _ _ _ Es) as (u & ? & ?). exists u. split; [done|lia].
  - intros (s & Hs & Hlt).
    assert (Hu : exists u, closed' = Some u /\ u < now + 500).
    { destruct exited; injection Et as <- <-; [exists t1; split; [done|lia]|]. rewrite Hs.
      eexists. split; [done|]. destruct (xe_sendOk e); [|lia].
      pose proof (select_at_range (Z.max t1 s) (xe_exited e) (Z.max t1 s + 350)). lia. }
    destruct Hu as (u & -> & Hu). unfold doWithTimeout in Ed.
    rewrite (select_at_before now _ _ u) in Ed by (done || lia). congruence.
Qed.

(** ** Setting a client up ([NewSshUdpClient]) *)

(** What a client holds.  [rs_stream] is the stream of the bus. *)
Record resources := Resources { rs_checker : bool; rs_proxy : bool; rs_proto : bool; rs_stream : bool }.

(** The outcome of each step; [ns_stream] is when [newStream] is over and
    whether it has a stream; [ns_resp] is the answer on the bus. *)
Record setup_env := SetupEnv {
  ns_versionOk : bool;
  ns_proxyOk : bool;
  ns_pathOk : bool;
  ns_protoOk : bool;
  ns_stream : event;
  ns_streamOk : bool;
  ns_sendOk : bool;
  ns_resp : option Z
}.

(** The deferred [Close]: [busStream] is not set yet, so the bus is not told. *)
Definition close_all (r : resources) : resources := Resources false false false (rs_stream r && negb (rs_proto r)).

(** The session id of the server, if the client is made, and what is held. *)
Definition setup_client (e : setup_env) (connectTimeout now : Z) : option Z * resources :=
  let failed r := (None, close_all r) in
  if negb (ns_versionOk e) then (None, Resources false false false false)
  else if negb (ns_proxyOk e) then failed (Resources true false false false)
  else if negb (ns_pathOk e) then failed (Resources true true false false)
  else if negb (ns_protoOk e) then failed (Resources true true false false)
  else
    let '(_, inTime) := doWithTimeout now (ns_stream e) connectTimeout in
    if negb inTime then failed (Resources true true true (ns_streamOk e))
    else if negb (ns_streamOk e) then failed (Resources true true true false)
    else if negb (ns_sendOk e) then failed (Resources true true true false)
    else match ns_resp e with
         | None => failed (Resources true true true false)
         | Some id => (Some id, Resources true true true true)
         end.

(** A client is made exactly when all the steps work, and the stream for the
    bus comes in time; otherwise nothing that was opened stays open, a stream
    that comes after the time included: it ends with its connection. *)
Lemma setup_all_or_nothing e connectTimeout now :
  match setup_client e connectTimeout now with
  | (Some id, r) =>
      r = Resources true true true true /\ ns_resp e = Some id /\
      (ns_versionOk e && ns_proxyOk e && ns_pathOk e && ns_protoOk e && ns_streamOk e && ns_sendOk e)%bool = true
  | (None, r) => r = Resources false false false false
  end.
Proof.
  unfold setup_client. destruct e as [v p pa pr st so se resp]. cbn [ns_versionOk ns_proxyOk ns_pathOk ns_protoOk ns_stream ns_streamOk ns_sendOk ns_resp].
  destruct v, p, pa, pr; try done. cbn [negb]. destruct (doWithTimeout _ _ _) as [t []]; cbn [negb]; [|by destruct so].
  destruct so, se, resp; done.
Qed.

(** ** Examples *)

(** The bus is free; the server answers after 40 ms; one of two sessions ends its output 700 ms
    later, the other has no output. *)
Definition example_detach : detach_env :=
  DetachEnv (Some 0) (Event (Some 10) false) true (Event (Some 50) false) [(Some (Event (Some 750) false), None); (None, None)].

Definition no_close : close_env := CloseEnv (Event None false) (Event None false) (Event None false).

Example detach_example : detach_client true true true example_detach no_close 0 = Some (750, Drained).
Proof. reflexivity. Qed.

Lemma detach_drains_witness : option_map snd (detach_client true true true example_detach no_close 0) = Some Drained.
Proof.
  apply (detach_drains true example_detach no_close 0 0 10 50); try (reflexivity || (vm_compute; reflexivity)).
  repeat constructor; simpl; exists 750; split; [reflexivity|vm_compute; reflexivity].
Defined.

Lemma session_close_bounded_witness :
  close_udp_session (ExitEnv (Event (Some 300) false) (Some 110) true false) 0 = (300, true, true) /\ 0 <= 300 <= 500.
Proof.
  split; [reflexivity|].
  apply (proj1 (session_close_bounded (ExitEnv (Event (Some 300) false) (Some 110) true false) 0 300 true true eq_refl)).
Defined.
