(* ===== verification/Remote.v ===== *)
(** * Remote: remote forwarding from end to end ([client.go], [forward.go])

    How the client opens the streams behind its listeners and connections, and
    the way of a connection that the server accepts for it: parked at the server
    ([Forward]), announced on the listener's stream, claimed by [Accept] on a
    stream of its own. *)

From Stdlib Require Import ZArith Lia String.
From stdpp Require Import base list strings gmap.
From S2P Require Import Prelude Forward Datagram Client.
Open Scope Z_scope.

(** ** Opening streams *)

(** Whether a stream opens, the command is sent and acknowledged, and the
    message after it is sent and acknowledged. *)
Record open_env := OpenEnv { oe_stream : bool; oe_command : bool; oe_ack : bool; oe_send : bool; oe_recv : bool }.

(** Whether there is a stream, and how many are left open. *)
Definition newStream (e : open_env) : bool * Z :=
  if negb (oe_stream e) then (false, 0)
  else if negb (oe_command e) then (false, 1 - 1)
  else if negb (oe_ack e) then (false, 1 - 1)
  else (true, 1).

(** The message and its answer; the stream is closed when either fails. *)
Definition exchange (e : open_env) : bool * Z :=
  let '(ok, n) := newStream e in
  if negb ok then (false, n)
  else if negb (oe_send e) then (false, n - 1)
  else if negb (oe_recv e) then (false, n - 1)
  else (true, n).

(** The client after the call, and how many streams the call leaves open. *)
Definition open_with (e : open_env) (c : SshUdpClient) : SshUdpClient * Z :=
  let '(ok, n) := exchange e in (if ok then add_conn None c else c, n).

Definition Listen (e : open_env) (c : SshUdpClient) : SshUdpClient * Z := open_with e c.
Definition ListenUDP (e : open_env) (c : SshUdpClient) : SshUdpClient * Z := open_with e c.
Definition channel_Accept (e : open_env) (c : SshUdpClient) : SshUdpClient * Z := open_with e c.

(** A call leaves a stream open exactly when it counts it, and does what [Client]
    has it do. *)
Lemma open_with_spec e c :
  open_with e c = (open_conn (oe_stream e && oe_command e && oe_ack e) (oe_send e) (oe_recv e) c,
                   c_exitWG (open_with e c).1 - c_exitWG c).
Proof. unfold open_with, exchange, newStream, open_conn. destruct e as [[] [] [] [] []]; cbn; f_equal; lia. Qed.

(** ** The two ends *)

(** [rm_line]: the ids on the listener's stream.  History: [rm_issued], the
    connections of the listener with their ids, [rm_got], those that [Accept] has
    returned.  [rm_streams] counts the client's open streams. *)
Record remote := Remote {
  rm_server : fwd_accept;
  rm_line : list Z;
  rm_issued : list (Z * nat);
  rm_client : SshUdpClient;
  rm_streams : Z;
  rm_got : list (Z * nat)
}.

(** [VAccepted]: the server's listener accepts and announces; [VAccept]: a call of
    the client's [Accept]; [VOther]: what else happens to the parked connections of
    the server (channels for X11 and the agent, timers, ends of forwarding). *)
Inductive remote_event := VAccepted (conn : nat) (sendOk : bool) | VAccept (acked : bool) (e : open_env) | VOther (e : accept_event).

(** One pass of the loop of [handleListenEvent]. *)
Definition announce (conn : nat) (sendOk : bool) (m : remote) : remote :=
  let '(s, id) := addAcceptConn (rm_server m) conn in
  let issued := rm_issued m ++ [(id, conn)] in
  if sendOk then Remote s (rm_line m ++ [id]) issued (rm_client m) (rm_streams m) (rm_got m)
  else Remote (reapAcceptConn s id) (rm_line m) issued (rm_client m) (rm_streams m) (rm_got m).

(** [sshUdpListener.Accept], with the server's [handleAcceptEvent] at the other
    end, as one step.  [acked]: the server sends its acknowledgement; [oe_recv]: it
    gets through to the client. *)
Definition Accept (acked : bool) (e : open_env) (m : remote) : remote :=
  match rm_line m with
  | [] => m
  | id :: line =>
      let '(ok, n) := newStream e in
      if negb ok then Remote (rm_server m) line (rm_issued m) (rm_client m) (rm_streams m + n) (rm_got m)
      else if negb (oe_send e) then Remote (rm_server m) line (rm_issued m) (rm_client m) (rm_streams m + n - 1) (rm_got m)
      else
        let conn := fwdAcceptMap (rm_server m) !! id in
        let '(s, valid) := handleAcceptEvent (rm_server m) id acked in
        match conn with
        | Some c => if valid && acked && oe_recv e
                    then Remote s line (rm_issued m) (add_conn None (rm_client m)) (rm_streams m + n) (rm_got m ++ [(id, c)])
                    else Remote s line (rm_issued m) (rm_client m) (rm_streams m + n - 1) (rm_got m)
        | None => Remote s line (rm_issued m) (rm_client m) (rm_streams m + n - 1) (rm_got m)
        end
  end.

(** Claims of other ids than those on the line are the channels'. *)
Definition allowed (m : remote) (e : remote_event) : bool :=
  match e with
  | VOther (Accepted _) => false
  | VOther (Claim id _) => negb (bool_decide (id ∈ rm_line m))
  | _ => true
  end.

Definition remote_step (m : remote) (e : remote_event) : remote :=
  match e with
  | VAccepted conn sendOk => announce conn sendOk m
  | VAccept acked oe => Accept acked oe m
  | VOther a => if allowed m e then Remote (accept_step (rm_server m) a) (rm_line m) (rm_issued m) (rm_client m) (rm_streams m) (rm_got m)
                else m
  end.

Definition remote_run (es : list remote_event) (m : remote) : remote := foldl remote_step m es.

Definition new_remote (c : SshUdpClient) : remote := Remote (FwdAccept 0 ∅ [] []) [] [] c 0 [].

(** ** Order is kept *)

Lemma accept_step_map n s a :
  ids_below n s -> Z.of_nat n < 2 ^ 64 - 1 ->
  nextFwdAcceptID s <= nextFwdAcceptID (accept_step s a) /\
  forall id c, fwdAcceptMap (accept_step s a) !! id = Some c -> fwdAcceptMap s !! id = Some c \/ id = nextFwdAcceptID s.
Proof.
  intros Hinv Hlt.
  assert (Hadd : forall conn, nextFwdAcceptID s <= nextFwdAcceptID (addAcceptConn s conn).1 /\
    forall id c, fwdAcceptMap (addAcceptConn s conn).1 !! id = Some c -> fwdAcceptMap s !! id = Some c \/ id = nextFwdAcceptID s).
  { intros conn. erewrite addAcceptConn_id by done. simpl. split; [lia|]. intros id c [[<- _]|[_ ?]]%lookup_insert_Some; auto. }
  destruct a; simpl; unfold channelAccept, reapAcceptConn, handleAcceptEvent, takeAcceptConn, forwardDone, close_conn;
    repeat case_match; simplify_eq; try apply Hadd; simpl; (split; [done|]); intros ? ? ?; simplify_eq; auto;
    left; by eapply lookup_delete_Some.
Qed.

(** The ids on the line follow those claimed, in the order of issue. *)
Record remote_ok (n : nat) (wg : Z) (m : remote) : Prop := {
  ro_ids : ids_below n (rm_server m);
  ro_fresh : NoDup (rm_issued m).*1;
  ro_issued : forall id, id ∈ (rm_issued m).*1 -> 0 <= id < nextFwdAcceptID (rm_server m);
  ro_map : forall id c, fwdAcceptMap (rm_server m) !! id = Some c -> id ∈ (rm_issued m).*1 -> (id, c) ∈ rm_issued m;
  ro_order : exists a b, rm_issued m = a ++ b /\ rm_got m `sublist_of` a /\ rm_line m `sublist_of` b.*1;
  ro_streams : rm_streams m = Z.of_nat (length (rm_got m));
  ro_wg : c_exitWG (rm_client m) = wg + Z.of_nat (length (rm_got m))
}.

(** A step of the server that is none of the listener's. *)
Lemma ok_other n wg m a line :
  remote_ok n wg m -> Z.of_nat n < 2 ^ 64 - 1 ->
  line `sublist_of` rm_line m ->
  remote_ok (S n) wg (Remote (accept_step (rm_server m) a) line (rm_issued m) (rm_client m) (rm_streams m) (rm_got m)).
Proof.
  intros [Hi Hf Hs Hm (x & y & E & Hg & Hl) Hst Hwg] Hlt Hline. destruct (accept_step_map n (rm_server m) a Hi Hlt) as [Hn Hk].
  split; cbn; try done.
  - by apply ids_below_step.
  - intros id Hid. specialize (Hs id Hid). lia.
  - intros id c Hc Hid. destruct (Hk id c Hc) as [?| ->]; [by apply Hm|]. specialize (Hs _ Hid). lia.
  - exists x, y. split_and!; [done|done|]. by etransitivity.
Qed.

Lemma ok_announce n wg m conn ok :
  remote_ok n wg m -> Z.of_nat n + 1 < 2 ^ 64 - 1 -> remote_ok (S (S n)) wg (announce conn ok m).
Proof.
  intros Hok Hlt. pose proof Hok as [Hi Hf Hs Hm (x & y & E & Hg & Hl) Hst Hwg].
  unfold announce. rewrite (addAcceptConn_id n) by (done || lia).
  set (s := FwdAccept _ _ _ _). set (id := nextFwdAcceptID (rm_server m)) in *.
  assert (Hs' : s = accept_step (rm_server m) (Accepted conn)).
  { cbn [accept_step]. by rewrite (addAcceptConn_id n) by (done || lia). }
  assert (Hnot : id ∉ (rm_issued m).*1) by (intros H; specialize (Hs id H); lia).
  assert (Hok1 : remote_ok (S n) wg (Remote s (rm_line m ++ [id]) (rm_issued m ++ [(id, conn)]) (rm_client m) (rm_streams m) (rm_got m))).
  { split; cbn; try done.
    - rewrite Hs'. apply ids_below_step; [done|lia].
    - rewrite fmap_app. apply NoDup_app. split_and!; [done| |apply NoDup_singleton]. cbn. set_solver.
    - intros i. rewrite fmap_app, elem_of_app. cbn. destruct Hi as [Hn _]. fold id in Hn.
      intros [Hin|Hin]; [specialize (Hs i Hin); lia|]. apply list_elem_of_singleton in Hin. lia.
    - intros i c [[<- <-]|[Hne Hc]]%lookup_insert_Some Hin; [set_solver|]. apply elem_of_app. left. apply Hm; [done|].
      rewrite fmap_app, elem_of_app in Hin. destruct Hin as [?|Hin]; [done|]. cbn in Hin. set_solver.
    - exists x, (y ++ [(id, conn)]). rewrite E, app_assoc. split_and!; [done|done|]. rewrite fmap_app. by apply sublist_app. }
  destruct ok.
  - destruct Hok1 as [H1 H2 H3 H4 H5 H6 H7]. split; try done. destruct H1 as [? ?]. split; [lia|done].
  - apply (ok_other (S n) wg _ (Reap id) (rm_line m)) in Hok1; [exact Hok1|lia|]. by apply sublist_inserts_r.
Qed.

Lemma ok_skip n wg m line :
  remote_ok n wg m -> line `sublist_of` rm_line m ->
  remote_ok (S n) wg (Remote (rm_server m) line (rm_issued m) (rm_client m) (rm_streams m) (rm_got m)).
Proof.
  intros [[Hi Hk] Hf Hs Hm (x & y & E & Hg & Hl) Hst Hwg] Hline. split; cbn; try done; [split; [lia|done]|].
  exists x, y. split_and!; [done|done|]. by etransitivity.
Qed.

(** The connection that an id on the line stands for is the next to be got. *)
Lemma claim_order m id line c :
  NoDup (rm_issued m).*1 -> (id, c) ∈ rm_issued m -> rm_line m = id :: line ->
  (exists a b, rm_issued m = a ++ b /\ rm_got m `sublist_of` a /\ rm_line m `sublist_of` b.*1) ->
  exists a b, rm_issued m = a ++ b /\ (rm_got m ++ [(id, c)]) `sublist_of` a /\ line `sublist_of` b.*1.
Proof.
  intros Hnd Hin Hline (a & b & E & Hg & Hl). rewrite Hline in Hl.
  apply sublist_cons_l in Hl as (k1 & k2 & Hb & Hl).
  apply fmap_app_inv in Hb as (b1 & b2 & -> & Hb2 & ->).
  destruct b2 as [|[id' c'] b2]; [done|]. cbn in Hb2. injection Hb2 as <- ->.
  assert (c' = c) as ->.
  { assert (Hin' : (id, c') ∈ rm_issued m) by (rewrite E; set_solver).
    apply (elem_of_list_to_map_1 (M := gmap Z)) in Hin, Hin'; [congruence|done..]. }
  exists (a ++ b1 ++ [(id, c)]), b2. rewrite E. split_and!; [by rewrite <- !app_assoc| |done].
  apply sublist_app; [done|]. by apply sublist_inserts_l.
Qed.

Lemma ok_accept n wg m acked e : remote_ok n wg m -> Z.of_nat n < 2 ^ 64 - 1 -> remote_ok (S n) wg (Accept acked e m).
Proof.
  intros Hok Hlt. unfold Accept. destruct (rm_line m) as [|id line] eqn:Hline.
  { pose proof (ok_skip n wg m (rm_line m) Hok ltac:(done)) as H. by destruct m. }
  assert (Hsub : line `sublist_of` rm_line m) by (rewrite Hline; by apply sublist_cons).
  assert (Hstay : forall k, k = 0 -> remote_ok (S n) wg (Remote (rm_server m) line (rm_issued m) (rm_client m) (rm_streams m + k) (rm_got m))).
  { intros k ->. rewrite Z.add_0_r. by apply ok_skip. }
  pose proof (ok_other n wg m (Claim id acked) line Hok Hlt Hsub) as Hclaim. cbn [accept_step] in Hclaim.
  unfold newStream. destruct (oe_stream e), (oe_command e), (oe_ack e); cbn [negb]; try (by apply Hstay).
  destruct (oe_send e); cbn [negb]; [|rewrite <- Z.add_sub_assoc; by apply Hstay].
  destruct (handleAcceptEvent (rm_server m) id acked) as [s valid] eqn:Eh. cbn [fst] in Hclaim.
  assert (Hfail : remote_ok (S n) wg (Remote s line (rm_issued m) (rm_client m) (rm_streams m + 1 - 1) (rm_got m)))
    by (replace (rm_streams m + 1 - 1) with (rm_streams m) by lia; done).
  destruct (fwdAcceptMap (rm_server m) !! id) as [c|] eqn:Ec; [|done]. destruct (valid && acked && oe_recv e); [|done].
  destruct Hclaim as [H1 H2 H3 H4 _ H6 H7]. pose proof Hok as [_ _ _ Hm Hord _ _].
  assert (Hiss : (id, c) ∈ rm_issued m).
  { apply Hm; [done|]. destruct Hord as (a & b & -> & _ & Hl). rewrite fmap_app, elem_of_app. right.
    apply (sublist_subseteq _ _ Hl). rewrite Hline. set_solver. }
  cbn in *. split; cbn; try done; [by apply claim_order| |]; rewrite length_app; cbn; lia.
Qed.

Lemma remote_run_ok wg es m n :
  remote_ok n wg m -> Z.of_nat n + 2 * Z.of_nat (length es) < 2 ^ 64 - 1 ->
  remote_ok (n + 2 * length es) wg (remote_run es m).
Proof.
  revert m n. induction es as [|e es IH]; intros m n Hok Hlt; [by rewrite Nat.mul_0_r, Nat.add_0_r|].
  cbn [length] in Hlt. replace (n + 2 * length (e :: es))%nat with (S (S n) + 2 * length es)%nat by (simpl; lia).
  apply IH; [|lia].
  assert (Hup : forall k m', remote_ok k wg m' -> remote_ok (S k) wg m').
  { intros k m' Hk. pose proof (ok_skip k wg m' (rm_line m') Hk ltac:(done)) as H. by destruct m'. }
  destruct e as [conn ok|acked oe|a]; cbn [remote_step].
  - apply ok_announce; [done|lia].
  - apply Hup, ok_accept; [done|lia].
  - destruct (allowed m (VOther a)); [|by apply Hup, Hup]. apply Hup. by apply ok_other; [|lia|].
Qed.

(** C17: the connections that the client's [Accept] returns are connections that
    the server's listener has accepted, each once and in the order in which it
    accepted them, whichever announcements, streams and acknowledgements fail
    and whichever connections are reaped; and the client holds a stream, and a
    count of its wait group, for exactly those. *)
Theorem remote_forward_in_order c es :
  2 * Z.of_nat (length es) < 2 ^ 64 - 1 ->
  let m := remote_run es (new_remote c) in
  rm_got m `sublist_of` rm_issued m /\ NoDup (rm_got m).*1 /\
  rm_streams m = Z.of_nat (length (rm_got m)) /\ c_exitWG (rm_client m) = c_exitWG c + Z.of_nat (length (rm_got m)).
Proof.
  intros Hlt m. assert (H0 : remote_ok 0 (c_exitWG c) (new_remote c)).
  { split; cbn; try done; try (by intros; set_solver); [apply NoDup_nil_2|by exists [], []|lia]. }
  destruct (remote_run_ok _ es _ 0 H0 ltac:(lia)) as [_ Hnd _ _ (a & b & E & Hg & _) Hst Hwg]. fold m in Hnd, E, Hg, Hst, Hwg.
  assert (Hsub : rm_got m `sublist_of` rm_issued m) by (rewrite E; by apply sublist_inserts_r).
  split_and!; try done. eapply sublist_NoDup; [exact Hnd|]. by apply fmap_sublist.
Qed.

(** ** Example: two connections announced, the second [Accept] fails to open its
    stream, a third connection is accepted. *)

Definition all_open : open_env := OpenEnv true true true true true.

Definition example_remote : list remote_event :=
  [VAccepted 10 true; VAccepted 11 true; VAccept true all_open; VAccept true (OpenEnv true true false true true); VAccepted 12 true; VAccept true all_open].

Lemma remote_forward_in_order_witness :
  let m := remote_run example_remote (new_remote example_client) in
  (rm_got m).*2 = [10%nat; 12%nat] /\ rm_got m `sublist_of` rm_issued m /\ rm_streams m = 2.
Proof.
  split; [vm_compute; reflexivity|].
  destruct (remote_forward_in_order example_client example_remote) as (H & _ & Hs & _); [vm_compute; reflexivity|].
  split; [exact H|]. etransitivity; [exact Hs|vm_compute; reflexivity].
Defined.
