(* ===== verification/Setup.v ===== *)
(** * Setup: what a server publishes and what a client makes of it
    ([service.go], [proto.go], [proxy_server.go], [proxy_client.go])

    [initServer] opens the port ([Ports]), starts the proxy ([startServerProxy]),
    makes the secret of KCP ([Transport]) or the certificates of QUIC
    ([listenQUIC]) and publishes it all as one [ServerInfo].  A client makes its
    proxy ([startClientProxy]) and its transport ([newKcpClient],
    [newQuicClient]) from it.  Shown here: the two ends fit together. *)

From Stdlib Require Import ZArith Lia Ascii String.
From stdpp Require Import base list strings gmap.
From S2P Require Import Prelude Wire Rekey ProxyAuth Ports Main Boot Transport Client.
Open Scope Z_scope.

Definition kDefaultMTU : Z := 1400.

Definition kProxyModeTCP : string := "TCP".

(** ** Certificates *)

Inductive key_usage := ServerAuth | ClientAuth.

#[export] Instance key_usage_eq_dec : EqDecision key_usage.
Proof. solve_decision. Defined.

(** A self-signed certificate; [ct_public] is its public key. *)
Record certificate := Certificate {
  ct_public : Z;
  ct_DNSNames : list string;
  ct_NotBefore : Z;
  ct_NotAfter : Z;
  ct_ExtKeyUsage : list key_usage
}.

#[export] Instance certificate_eq_dec : EqDecision certificate.
Proof. solve_decision. Defined.

(** Times are in nanoseconds; a certificate keeps whole seconds. *)
Definition kSecond : Z := 1000000000.
Definition kDay : Z := 86400 * kSecond.

Definition whole_second (t : Z) : Z := t / kSecond * kSecond.

Definition whole_seconds (c : certificate) : certificate :=
  Certificate (ct_public c) (ct_DNSNames c) (whole_second (ct_NotBefore c)) (whole_second (ct_NotAfter c)) (ct_ExtKeyUsage c).

(** Keys, signatures, their encodings and the calendar: the packages [ecdsa],
    [x509], [pem] and [time].  [cert_PEM]: [CreateCertificate] of a template, and
    its encoding. *)
Class Pki := {
  public : Z -> Z;
  sign : Z -> bytes -> bytes;           (* private key, text *)
  signed : Z -> bytes -> bytes -> bool; (* public key, text, signature *)
  cert_PEM : certificate -> bytes;
  key_PEM : Z -> bytes;
  parse_cert : bytes -> option certificate;
  parse_key : bytes -> option Z;
  AddDate : Z -> Z -> Z -> Z -> Z       (* time, years, months, days *)
}.

Class PkiOk `{Pki} := {
  public_inj : forall k k', public k = public k' -> k = k';
  signed_by : forall p m k, signed p m (sign k m) = true <-> p = public k;
  parse_cert_PEM : forall c, parse_cert (cert_PEM c) = Some (whole_seconds c);
  parse_key_PEM : forall k, parse_key (key_PEM k) = Some k;
  AddDate_back : forall t, AddDate t 0 0 (-1) <= t;
  AddDate_on : forall t, t + 2 * kDay <= AddDate t 1 0 0
}.

(** A [tls.Config]; [tls_pool] is [ClientCAs] of the server, which requires a
    client certificate, and [RootCAs] of the client.  With every certificate is
    the private key that its owner signs with. *)
Record tls_config := TlsConfig {
  tls_Certificates : list (certificate * Z);
  tls_pool : list certificate;
  tls_ServerName : option string
}.

(** [x509.Certificate.Verify] of a certificate that is its own issuer: it must be
    in the pool, valid now, and meant for this use and name. *)
Definition verify (pool : list certificate) (usage : key_usage) (name : option string) (now : Z) (c : certificate) : bool :=
  bool_decide (c ∈ pool) && (ct_NotBefore c <=? now) && (now <=? ct_NotAfter c) && bool_decide (usage ∈ ct_ExtKeyUsage c) &&
  match name with Some n => bool_decide (n ∈ ct_DNSNames c) | None => true end.

Section Quic.
Context `{!Pki}.

(** What one end checks of the other, which presents a certificate and signs the
    handshake so far, [m], with the key that it has. *)
Definition accepts (pool : list certificate) (usage : key_usage) (name : option string) (now : Z) (m : bytes) (p : certificate * Z) : bool :=
  verify pool usage name now p.1 && signed (ct_public p.1) m (sign p.2 m).

(** Whether the TLS handshake of QUIC succeeds: each end verifies the other. *)
Definition tls_handshake (srv cl : tls_config) (m : bytes) (now : Z) : bool :=
  match tls_Certificates srv, tls_Certificates cl with
  | s :: _, c :: _ => accepts (tls_pool cl) ServerAuth (tls_ServerName cl) now m s && accepts (tls_pool srv) ClientAuth (tls_ServerName srv) now m c
  | _, _ => false
  end.

(** [tls.X509KeyPair]: the key must be that of the certificate. *)
Definition X509KeyPair (certPEM keyPEM : bytes) : option (certificate * Z) :=
  match parse_cert certPEM, parse_key keyPEM with
  | Some c, Some k => if public k =? ct_public c then Some (c, k) else None
  | _, _ => None
  end.

Definition AppendCertsFromPEM (pem : bytes) : list certificate := option_list (parse_cert pem).

Definition template (key now : Z) : certificate :=
  Certificate (public key) ["tsshd"%string] (AddDate now 0 0 (-1)) (AddDate now 1 0 0) [ServerAuth; ClientAuth].

(** The key, if one can be generated; the time; whether the certificate can be
    created and the key marshalled. *)
Record key_env := KeyEnv { ke_key : option Z; ke_now : Z; ke_created : bool; ke_marshalled : bool }.

Definition generateCertKeyPair (e : key_env) : res (bytes * bytes) :=
  match ke_key e with
  | None => Err (Plain "ecdsa generate key failed")
  | Some key =>
      if negb (ke_created e) then Err (Plain "x509 create certificate failed")
      else if negb (ke_marshalled e) then Err (Plain "x509 marshal ec private key failed")
      else Ok (cert_PEM (template key (ke_now e)), key_PEM key)
  end.

(** [InitialPacketSize] and [DisablePathMTUDiscovery]. *)
Record packet_size := PacketSize { ps_initial : Z; ps_fixed : bool }.

Definition server_packet_size (mtu : Z) : packet_size := if 0 <? mtu then PacketSize mtu true else PacketSize kDefaultMTU false.

(** [proxySize]: the largest datagram of the client through which this one
    connects. *)
Definition client_packet_size (mtu : Z) (proxySize : option Z) : packet_size :=
  if negb (mtu =? 0) then PacketSize mtu true
  else match proxySize with Some n => PacketSize n true | None => PacketSize kDefaultMTU false end.

Definition with_certs (serverCert clientCert clientKey : bytes) (i : ServerInfo) : ServerInfo :=
  MkServerInfo (si_ServerVer i) (si_ProtoVer i) (si_Port i) kUdpModeQUIC (si_Pass i) (si_Salt i) (hex_encode serverCert)
    (hex_encode clientCert) (hex_encode clientKey) (si_ProxyKey i) (si_ClientID i) (si_ServerID i) (si_ProxyMode i) (si_MTU i).

(** What making either certificate meets; [qe_listen]: QUIC takes the connection. *)
Record quic_env := QuicEnv { qe_server : key_env; qe_client : key_env; qe_listen : bool }.

Definition listenQUIC (e : quic_env) (info : ServerInfo) (mtu : Z) : res (tls_config * packet_size * ServerInfo) :=
  match generateCertKeyPair (qe_server e) with
  | Err err => Err err
  | Ok (serverCertPEM, serverKeyPEM) =>
      match generateCertKeyPair (qe_client e) with
      | Err err => Err err
      | Ok (clientCertPEM, clientKeyPEM) =>
          match X509KeyPair serverCertPEM serverKeyPEM with
          | None => Err (Plain "x509 key pair failed")
          | Some serverTlsCert =>
              if qe_listen e
              then Ok (TlsConfig [serverTlsCert] (AppendCertsFromPEM clientCertPEM) None, server_packet_size mtu,
                       with_certs serverCertPEM clientCertPEM clientKeyPEM info)
              else Err (Plain "quic listen failed")
          end
      end
  end.

(** The configuration with which [quic.Dial] is called. *)
Definition newQuicClient (info : ServerInfo) (proxySize : option Z) : res (tls_config * packet_size) :=
  match DecodeString (si_ServerCert info), DecodeString (si_ClientCert info), DecodeString (si_ClientKey info) with
  | Some serverCert, Some clientCert, Some clientKey =>
      match X509KeyPair clientCert clientKey with
      | None => Err (Plain "x509 key pair failed")
      | Some clientTlsCert =>
          Ok (TlsConfig [clientTlsCert] (AppendCertsFromPEM serverCert) (Some "tsshd"%string), client_packet_size (si_MTU info) proxySize)
      end
  | None, _, _ => Err (Plain "decode server cert failed")
  | _, None, _ => Err (Plain "decode client cert failed")
  | _, _, None => Err (Plain "decode client key failed")
  end.

End Quic.

Section QuicTheory.
Context `{!Pki, !PkiOk}.

(** The certificate as the other end reads it, and the time of its validity. *)
Definition issued (key now : Z) : certificate := whole_seconds (template key now).

Definition valid_at (made now : Z) : Prop :=
  whole_second (AddDate made 0 0 (-1)) <= now <= whole_second (AddDate made 1 0 0).

Lemma whole_second_bounds t : t - kSecond < whole_second t <= t.
Proof. unfold whole_second, kSecond. pose proof (Z.div_mod t 1000000000 ltac:(lia)). pose proof (Z.mod_pos_bound t 1000000000 ltac:(lia)). lia. Qed.

(** In particular for a day. *)
Lemma valid_for_a_day made now : made <= now <= made + kDay -> valid_at made now.
Proof.
  intros Hn. pose proof (whole_second_bounds (AddDate made 0 0 (-1))). pose proof (whole_second_bounds (AddDate made 1 0 0)).
  pose proof (AddDate_back made). pose proof (AddDate_on made). unfold valid_at, kDay, kSecond in *. lia.
Qed.

Lemma X509KeyPair_generated key now : X509KeyPair (cert_PEM (template key now)) (key_PEM key) = Some (issued key now, key).
Proof. unfold X509KeyPair. rewrite parse_cert_PEM, parse_key_PEM. cbn [template whole_seconds ct_public]. by rewrite Z.eqb_refl. Qed.

(** Whoever is accepted by an end that knows one certificate has its key. *)
Lemma accepts_issued usage name now m key made p :
  (name = None \/ name = Some "tsshd"%string) ->
  accepts [issued key made] usage name now m p = true <-> p = (issued key made, key) /\ valid_at made now.
Proof.
  intros Hname. destruct p as [c k]. unfold accepts, verify, valid_at. cbn [fst snd].
  rewrite !andb_true_iff, !bool_decide_eq_true, list_elem_of_singleton, signed_by, !Z.leb_le. split.
  - intros [[[[[-> H1] H2] _] _] ->%public_inj]. done.
  - intros [[= -> ->] [H1 H2]]. split_and!; try done; [destruct usage; set_solver|].
    destruct Hname as [-> | ->]; [done|]. apply bool_decide_eq_true. set_solver.
Qed.

(** What [listenQUIC] returns, once it does. *)
Lemma listenQUIC_Ok e info mtu cfg size info' :
  listenQUIC e info mtu = Ok (cfg, size, info') ->
  exists sk ck, ke_key (qe_server e) = Some sk /\ ke_key (qe_client e) = Some ck /\ size = server_packet_size mtu /\
    cfg = TlsConfig [(issued sk (ke_now (qe_server e)), sk)] [issued ck (ke_now (qe_client e))] None /\
    info' = with_certs (cert_PEM (template sk (ke_now (qe_server e)))) (cert_PEM (template ck (ke_now (qe_client e)))) (key_PEM ck) info.
Proof.
  unfold listenQUIC, generateCertKeyPair. destruct (ke_key (qe_server e)) as [sk|], (ke_key (qe_client e)) as [ck|]; try (by repeat case_match).
  destruct (ke_created (qe_server e)), (ke_marshalled (qe_server e)); try done.
  destruct (ke_created (qe_client e)), (ke_marshalled (qe_client e)); try done. cbn [negb]. rewrite X509KeyPair_generated.
  destruct (qe_listen e); [|done]. unfold AppendCertsFromPEM. rewrite parse_cert_PEM. cbn [option_list].
  intros [= <- <- <-]. by exists sk, ck.
Qed.

Lemma newQuicClient_certs sk ck snow cnow info proxySize :
  newQuicClient (with_certs (cert_PEM (template sk snow)) (cert_PEM (template ck cnow)) (key_PEM ck) info) proxySize =
    Ok (TlsConfig [(issued ck cnow, ck)] [issued sk snow] (Some "tsshd"%string), client_packet_size (si_MTU info) proxySize).
Proof.
  unfold newQuicClient. cbn [with_certs si_ServerCert si_ClientCert si_ClientKey si_MTU]. rewrite !DecodeString_encode, X509KeyPair_generated.
  unfold AppendCertsFromPEM. by rewrite parse_cert_PEM.
Qed.

Lemma packet_sizes_agree mtu proxySize : 0 <= mtu -> proxySize = None \/ 0 < mtu -> client_packet_size mtu proxySize = server_packet_size mtu.
Proof.
  intros Hm Hp. unfold server_packet_size, client_packet_size. destruct (Z.ltb_spec 0 mtu), (Z.eqb_spec mtu 0); try lia; try done.
  destruct Hp as [-> |]; [done|lia].
Qed.

Lemma quic_handshake_works e info mtu cfg size info' :
  listenQUIC e info mtu = Ok (cfg, size, info') -> si_MTU info = mtu ->
  exists cl, (forall proxySize, newQuicClient info' proxySize = Ok (cl, client_packet_size mtu proxySize)) /\
    (forall m now, tls_handshake cfg cl m now = true <-> valid_at (ke_now (qe_server e)) now /\ valid_at (ke_now (qe_client e)) now) /\
    (forall srv' m now, tls_handshake srv' cl m now = true -> snd <$> head (tls_Certificates srv') = ke_key (qe_server e)).
Proof.
  intros Hl Hm. destruct (listenQUIC_Ok _ _ _ _ _ _ Hl) as (sk & ck & Hs & Hc & -> & -> & ->).
  eexists. split; [intros proxySize; rewrite newQuicClient_certs, Hm; done|]. split.
  - intros m now. unfold tls_handshake. cbn [tls_Certificates tls_pool tls_ServerName]. rewrite andb_true_iff, !accepts_issued by auto. naive_solver.
  - intros srv' m now. unfold tls_handshake. cbn [tls_Certificates tls_pool tls_ServerName].
    destruct (tls_Certificates srv') as [|p rest]; [done|]. rewrite andb_true_iff, accepts_issued by auto. by intros [[-> _] _].
Qed.

(** C19: a client that is given the server's description and the server authenticate
    each other as long as both certificates are valid, each from a day before
    it was made to a year after it in whole seconds, and at no other time.
    Whoever the server lets in signs with the published client key, and whoever
    that client takes for its server signs with the server's key.  Both ends
    begin with the same packet size, unless the client connects through another
    one and the server has no MTU set. *)
Theorem quic_mutual_authentication e info mtu cfg size info' :
  listenQUIC e info mtu = Ok (cfg, size, info') -> si_MTU info = mtu -> 0 <= mtu ->
  (exists cl, (forall proxySize, newQuicClient info' proxySize = Ok (cl, client_packet_size mtu proxySize)) /\
     (forall proxySize, proxySize = None \/ 0 < mtu -> client_packet_size mtu proxySize = size) /\
     (forall m now, tls_handshake cfg cl m now = true <-> valid_at (ke_now (qe_server e)) now /\ valid_at (ke_now (qe_client e)) now) /\
     (forall srv' m now, tls_handshake srv' cl m now = true -> snd <$> head (tls_Certificates srv') = ke_key (qe_server e))) /\
  (forall cl' m now, tls_handshake cfg cl' m now = true ->
     snd <$> head (tls_Certificates cl') = ke_key (qe_client e) /\ ke_key (qe_client e) <> None).
Proof.
  intros Hl Hm Hpos. destruct (quic_handshake_works _ _ _ _ _ _ Hl Hm) as (cl & Hcl & Hh & Hsrv).
  destruct (listenQUIC_Ok _ _ _ _ _ _ Hl) as (sk & ck & Hs & Hc & -> & -> & _). split.
  - exists cl. split_and!; [done| |done|done]. intros proxySize. by apply packet_sizes_agree.
  - intros cl' m now. unfold tls_handshake. cbn [tls_Certificates tls_pool tls_ServerName].
    destruct (tls_Certificates cl') as [|p rest]; [done|]. rewrite andb_true_iff, (accepts_issued ClientAuth) by auto.
    intros [_ [-> _]]. by rewrite Hc.
Qed.

End QuicTheory.

(** ** The proxies *)

(** [for id == 0]: random numbers are drawn until one is not zero.  [None]: the
    draws are not enough; a draw may fail. *)
Fixpoint draw_id (draws : list (option bytes)) (id : Z) : option (res Z) :=
  if negb (id =? 0) then Some (Ok id)
  else match draws with
       | [] => None
       | None :: _ => Some (Err (Plain "rand client id failed"))
       | Some b :: draws => draw_id draws (be_get b)
       end.

Definition with_proxy (proxyKey : bytes) (clientID serverID : Z) (tcp : bool) (i : ServerInfo) : ServerInfo :=
  MkServerInfo (si_ServerVer i) (si_ProtoVer i) (si_Port i) (si_Mode i) (si_Pass i) (si_Salt i) (si_ServerCert i) (si_ClientCert i)
    (si_ClientKey i) (hex_encode proxyKey) clientID serverID (if tcp then kProxyModeTCP else si_ProxyMode i) (si_MTU i).

Section Proxies.
Context `{!Crypto}.
(** [aes.NewCipher], and the splitting of a command line. *)
Context (NewCipher : bytes -> option key) (splitCommandLine : bytes -> option (list bytes)).

(** The random bytes that [startServerProxy] is given. *)
Record proxy_env := ProxyEnv { pe_key : option bytes; pe_clientIDs : list (option bytes); pe_serverID : option bytes }.

(** The key, the proxy and the description.  [newClientState] cannot fail for a
    server that is not attachable. *)
Definition startServerProxy (e : proxy_env) (args : tsshdArgs) (info : ServerInfo) : option (res (key * serverProxy * ServerInfo)) :=
  match pe_key e with
  | None => Some (Err (Plain "rand proxy key failed"))
  | Some proxyKey =>
      match NewCipher proxyKey with
      | None => Some (Err (Plain "aes new cipher failed"))
      | Some k =>
          let known := negb (Attachable args) || Socket args in
          match (if known then draw_id (pe_clientIDs e) (si_ClientID info) else Some (Ok (si_ClientID info))) with
          | None => None
          | Some (Err err) => Some (Err err)
          | Some (Ok clientID) =>
              match pe_serverID e with
              | None => Some (Err (Plain "rand server id failed"))
              | Some b =>
                  let serverID := be_get b in
                  Some (Ok (k, newServerProxy (Attachable args) (if known then clientID else 0) serverID,
                            with_proxy proxyKey clientID serverID (TCP args) info))
              end
          end
      end
  end.

(** The options of a client that its proxy is made from. *)
Record client_opts := ClientOpts {
  op_info : ServerInfo; op_IPv4 : bool; op_IPv6 : bool; op_TsshdAddr : bytes; op_ProxyCommand : bytes
}.

Definition network (o : client_opts) : bytes :=
  (if bool_decide (si_ProxyMode (op_info o) = kProxyModeTCP) then bs "tcp" else bs "udp") ++
  (if op_IPv4 o && negb (op_IPv6 o) then bs "4" else if op_IPv6 o && negb (op_IPv4 o) then bs "6" else []).

Record client_setup := ClientSetup {
  cl_key : key; cl_net : bytes; cl_addr : bytes; cl_proxy : clientProxy; cl_cmds : list bytes
}.

Definition startClientProxy (o : client_opts) (draws : list (option bytes)) : option (res client_setup) :=
  match DecodeString (si_ProxyKey (op_info o)) with
  | None => Some (Err (Plain "decode proxy key failed"))
  | Some proxyKey =>
      match NewCipher proxyKey with
      | None => Some (Err (Plain "aes new cipher failed"))
      | Some k =>
          match draw_id draws (si_ClientID (op_info o)) with
          | None => None
          | Some (Err err) => Some (Err err)
          | Some (Ok clientID) =>
              match (if bool_decide (op_ProxyCommand o = []) then Some [] else splitCommandLine (op_ProxyCommand o)) with
              | None => Some (Err (Plain "split proxy command failed"))
              | Some cmds =>
                  Some (Ok (ClientSetup k (network o) (op_TsshdAddr o) (ClientProxy clientID (si_ServerID (op_info o)) 0) cmds))
              end
          end
      end
  end.

(** ** The server *)

Context `{!Pki, !Codec ServerInfo}.

Record init_env := InitEnv {
  in_os : os;
  in_shuffle : list (Z * Z) -> list (Z * Z);
  in_intn : nat -> Z -> Z;
  in_proxy : proxy_env;
  in_pass : option bytes;
  in_salt : option bytes;
  in_serve : bool;
  in_quic : quic_env;
  in_now : Z
}.

Inductive transport := Kcp (crypto : rotatingCrypto) | Quic (cfg : tls_config) (size : packet_size).

Record tsshd_server := Server { sv_key : key; sv_proxy : serverProxy; sv_transport : transport; sv_port : Z }.

Definition listen_args_of (a : tsshdArgs) : listen_args := LArgs (TCP a) (IPv4 a) (IPv6 a) (Port a).

(** [None]: random numbers are still drawn. *)
Definition initServer (e : init_env) (args : tsshdArgs) : option (res (tsshd_server * ServerInfo * bytes)) :=
  match (listenOnFreePort (in_os e) (listen_args_of args) (in_shuffle e) (in_intn e)).1 with
  | inl _ => Some (Err (Plain "listen failed"))
  | inr (_, port) =>
      let info := MkServerInfo kTsshdVersion kTsshdProtocol port "" [] [] [] [] [] [] 0 0 "" (MTU args) in
      match startServerProxy (in_proxy e) args info with
      | None => None
      | Some (Err err) => Some (Err err)
      | Some (Ok (k, proxy, info)) =>
          let made := if KCP args
                      then match listenKCP (in_pass e) (in_salt e) (in_serve e) info (Attachable args) (in_now e) with
                           | Some (info, crypto) => Ok (Kcp crypto, info)
                           | None => Err (Plain "listen kcp failed")
                           end
                      else match listenQUIC (in_quic e) info (MTU args) with
                           | Ok (cfg, size, info) => Ok (Quic cfg size, info)
                           | Err err => Err err
                           end in
          match made with
          | Err err => Some (Err err)
          | Ok (t, info) => match json_Marshal info with
                            | Err err => Some (Err (Wrap "json marshal failed" err))
                            | Ok infoStr => Some (Ok (Server k proxy t port, info, infoStr))
                            end
          end
      end
  end.

(** The cipher of a client: that of the listener, or for an attachable server one
    of the client's own, from the same secret ([newClientState]). *)
Definition client_crypto (e : init_env) (args : tsshdArgs) (t : transport) : option rotatingCrypto :=
  match t with
  | Quic _ _ => None
  | Kcp crypto =>
      if Attachable args
      then match in_pass e, in_salt e with
           | Some pass, Some salt => Some (newRotatingCrypto false pass salt 0 0 false (in_now e)).1
           | _, _ => None
           end
      else Some crypto
  end.

End Proxies.

(** ** The two ends fit together *)

Lemma be_get_u64 b : length b = 8%nat -> is_u64 (be_get b).
Proof. intros Hb. pose proof (be_get_range b) as Hr. rewrite Hb in Hr. exact Hr. Qed.

(** [rand.Read] fills its buffer. *)
Definition draw_ok (d : option bytes) : Prop := exists b, d = Some b /\ length b = 8%nat.
Definition draw_nonzero (d : option bytes) : Prop := exists b, d = Some b /\ be_get b <> 0.

Lemma draw_id_nonzero draws id0 id : is_u64 id0 -> Forall draw_ok draws -> draw_id draws id0 = Some (Ok id) -> id <> 0 /\ is_u64 id.
Proof.
  revert id0. induction draws as [|d draws IH]; intros id0 H0 Hf; cbn [draw_id]; destruct (Z.eqb_spec id0 0) as [Hz|Hnz]; cbn [negb].
  - done.
  - by intros [= <-].
  - apply Forall_cons in Hf as [(b & -> & Hb) Hf]. by apply IH; [apply be_get_u64|].
  - by intros [= <-].
Qed.

Lemma draw_id_total draws id0 : Forall draw_ok draws -> id0 <> 0 \/ Exists draw_nonzero draws -> exists id, draw_id draws id0 = Some (Ok id).
Proof.
  revert id0. induction draws as [|d draws IH]; intros id0 Hf Hor; cbn [draw_id]; destruct (Z.eqb_spec id0 0) as [Hz|Hnz]; cbn [negb].
  - destruct Hor as [|Hex]; [done|by apply Exists_nil in Hex].
  - by eexists.
  - apply Forall_cons in Hf as [(b & -> & Hb) Hf]. apply IH; [done|]. destruct Hor as [|Hex]; [done|].
    apply Exists_cons in Hex as [(b' & [= <-] & Hn)|Hex]; [by left|by right].
  - by eexists.
Qed.

Section Fit.
Context `{!Crypto, !CryptoOk, !Pki, !PkiOk, !Codec ServerInfo, !CodecOk ServerInfo}.
Context (NewCipher : bytes -> option key) (splitCommandLine : bytes -> option (list bytes)).

Lemma new_proxy_unknown att ci si a : unknown_addr (newServerProxy att ci si) a.
Proof.
  intros id. split; intros (c & q & Hc & Hq); cbn [newServerProxy px_clients] in Hc; destruct att;
    (apply lookup_empty_Some in Hc || apply lookup_singleton_Some in Hc as [_ <-]); done.
Qed.

Lemma new_proxy_client att ci si id c : px_clients (newServerProxy att ci si) !! id = Some c -> c = newClientState.
Proof.
  cbn [newServerProxy px_clients]. destruct att; [by intros ?%lookup_empty_Some|]. by intros [_ <-]%lookup_singleton_Some.
Qed.

Lemma new_proxy_serial att ci si id : serialOf (newServerProxy att ci si) id = 0.
Proof. unfold serialOf. destruct (_ !! id) as [c|] eqn:E; [|done]. by rewrite (new_proxy_client _ _ _ _ _ E). Qed.

(** The first authentication of a client at a new proxy, over UDP and TCP. *)
Lemma first_authentication k att ci si cp n1 n2 a conn :
  (att = true \/ cp_clientID cp = ci) -> cp_serverID cp = si -> is_u64 si -> is_u64 (cp_clientID cp) -> cp_serialNumber cp = 1 ->
  length n1 = gcm_nonceSize -> length n2 = gcm_nonceSize ->
  let p := newServerProxy att ci si in
  exists pkt resp, sendAuthPacket k cp (Some n1) = Some pkt /\ isAuthSuccessful k cp resp = (cp, true) /\
    (exists p', readFrom_step k p (Some n2) a pkt = (p', FrontOut None None (Some (resp, a)))) /\
    (exists p', handshake k p (Some n2) conn pkt true = (p', Some resp, true)).
Proof.
  intros Hor Hsv Hsi Hci Hone Hn1 Hn2 p. destruct (sendAuthPacket k cp (Some n1)) as [pkt|] eqn:Hpkt; [|done].
  assert (Hu : is_u64 (cp_serialNumber cp)) by (rewrite Hone; unfold is_u64; lia).
  assert (Ho : openAuthPacket k p pkt = Some (cp_clientID cp, cp_serialNumber cp)) by (by apply (open_client_auth k p cp n1)).
  destruct (sealAuthPacket k p (Some n2) (cp_serialNumber cp)) as [resp|] eqn:Hresp; [|done].
  exists pkt, resp. split_and!; [done| | |].
  - by apply (client_accepts k p cp n2).
  - destruct (readFrom_fresh_auth k p (Some n2) a pkt (cp_clientID cp) (cp_serialNumber cp)) as (p' & -> & _ & _ & _ & _ & Hs);
      [apply newServerProxy_wf|apply new_proxy_unknown|done|by unfold p; rewrite new_proxy_serial, Hone|by intros c ->%new_proxy_client|].
    exists p'. unfold respond. unfold sealAuthPacket in Hresp |- *. by rewrite Hs, Hresp.
  - unfold handshake. rewrite Ho. destruct (getClient p (cp_clientID cp)) as [p1 c] eqn:Hg.
    assert (c = newClientState /\ px_serverID p1 = px_serverID p) as [-> Hs1].
    { unfold getClient in Hg. destruct (px_clients p !! cp_clientID cp) as [x|] eqn:E; [|by injection Hg as <- <-].
      injection Hg as <- <-. split; [by apply new_proxy_client in E|done]. }
    cbn [newClientState cs_closed cs_serialNumber]. rewrite Hone. cbn [Z.leb Z.compare Pos.compare Pos.compare_cont].
    unfold sealAuthPacket in Hresp |- *. cbn [set_client px_serverID]. rewrite Hs1, <- Hone, Hresp. cbn [negb]. by eexists.
Qed.

(** The random numbers of the server's proxy fill their buffers. *)
Definition well_drawn (e : proxy_env) : Prop :=
  Forall draw_ok (pe_clientIDs e) /\ forall b, pe_serverID e = Some b -> length b = 8%nat.

Lemma startServerProxy_Ok e args info k proxy info' :
  startServerProxy NewCipher e args info = Some (Ok (k, proxy, info')) -> well_drawn e -> si_ClientID info = 0 ->
  exists proxyKey clientID serverID,
    NewCipher proxyKey = Some k /\ info' = with_proxy proxyKey clientID serverID (TCP args) info /\ is_u64 serverID /\ is_u64 clientID /\
    proxy = newServerProxy (Attachable args) clientID serverID /\ (Attachable args = false -> clientID <> 0).
Proof.
  intros Hs [Hd Hb] Hz. unfold startServerProxy in Hs. destruct (pe_key e) as [proxyKey|]; [|done].
  destruct (NewCipher proxyKey) as [k'|] eqn:Ek; [|done]. rewrite Hz in Hs.
  destruct (negb (Attachable args) || Socket args) eqn:Eknown.
  - destruct (draw_id (pe_clientIDs e) 0) as [[clientID|]|] eqn:Ed; [|done..]. destruct (pe_serverID e) as [b|]; [|done].
    destruct (draw_id_nonzero _ 0 clientID ltac:(unfold is_u64; lia) Hd Ed) as [Hnz Hu]. injection Hs as <- <- <-.
    exists proxyKey, clientID, (be_get b). split_and!; try done; apply Hu || by apply be_get_u64, Hb.
  - destruct (pe_serverID e) as [b|]; [|done]. injection Hs as <- <- <-.
    exists proxyKey, 0, (be_get b). apply orb_false_iff in Eknown as [Ha%negb_false_iff _].
    split_and!; try done; [by apply be_get_u64, Hb|congruence].
Qed.

(** The transports of a client and its server. *)
Definition transports_fit (e : init_env) (args : tsshdArgs) (t : transport) (info : ServerInfo) : Prop :=
  match t with
  | Kcp _ => newProtoClient info = NewKcp /\
      exists c s, newKcpClient info true (in_now e) = Some c /\ client_crypto e args t = Some s /\ activeKey c = activeKey s /\ activeKey c <> None
  | Quic cfg size => newProtoClient info = NewQuic /\
      exists c, newQuicClient info None = Ok (c, size) /\
        forall m now, Z.max (ke_now (qe_server (in_quic e))) (ke_now (qe_client (in_quic e))) <= now <=
            Z.min (ke_now (qe_server (in_quic e))) (ke_now (qe_client (in_quic e))) + kDay ->
          tls_handshake cfg c m now = true
  end.

(** The description that the server of [initServer] publishes. *)
Lemma initServer_Ok e args srv info infoStr :
  initServer NewCipher e args = Some (Ok (srv, info, infoStr)) -> well_drawn (in_proxy e) -> 0 <= MTU args ->
  exists proxyKey clientID serverID,
    NewCipher proxyKey = Some (sv_key srv) /\ si_ProxyKey info = hex_encode proxyKey /\ si_ClientID info = clientID /\ si_ServerID info = serverID /\
    si_ProxyMode info = (if TCP args then kProxyModeTCP else "")%string /\ is_u64 serverID /\ is_u64 clientID /\
    sv_proxy srv = newServerProxy (Attachable args) clientID serverID /\ (Attachable args = false -> clientID <> 0) /\
    transports_fit e args (sv_transport srv) info /\ json_Unmarshal infoStr = Ok info.
Proof.
  intros Hi Hd Hm. unfold initServer in Hi. destruct (listenOnFreePort _ _ _ _).1 as [|[conns port]]; [done|].
  set (info0 := MkServerInfo _ _ _ _ _ _ _ _ _ _ _ _ _ _) in Hi.
  destruct (startServerProxy NewCipher (in_proxy e) args info0) as [[[[k proxy] info1]|]|] eqn:Hs; [|done..].
  destruct (startServerProxy_Ok _ _ _ _ _ _ Hs Hd eq_refl) as (pk & cid & sid & Hk & -> & Hus & Huc & -> & Hnz).
  exists pk, cid, sid. destruct (KCP args).
  - unfold listenKCP in Hi. destruct (in_pass e) as [pass|] eqn:Ep, (in_salt e) as [salt|] eqn:Es; try done. destruct (in_serve e); [|done].
    destruct (json_Marshal _) as [str|] eqn:Ej; [|done]. injection Hi as <- <- <-.
    split_and!; try done; [|by eapply json_roundtrip].
    split; [done|]. unfold newKcpClient. cbn [with_secret si_Pass si_Salt]. rewrite !DecodeString_encode. unfold client_crypto. rewrite Ep, Es.
    by destruct (Attachable args); eexists _, _.
  - destruct (listenQUIC _ _ _) as [[[cfg size] info2]|] eqn:El; [|done].
    destruct (json_Marshal _) as [str|] eqn:Ej; [|done]. injection Hi as <- <- <-.
    destruct (listenQUIC_Ok _ _ _ _ _ _ El) as (sk & ck & _ & _ & Hsize & _ & Hinfo).
    destruct (quic_handshake_works _ _ _ _ _ _ El eq_refl) as (cl & Hcl & Hh & _).
    split_and!; rewrite ?Hinfo; try done; [|rewrite <- Hinfo; by eapply json_roundtrip].
    rewrite <- Hinfo. split; [by rewrite Hinfo|]. exists cl. split.
    + rewrite Hcl, Hsize. f_equal. f_equal. by apply packet_sizes_agree; [|left].
    + intros m now Hn. apply Hh. split; apply valid_for_a_day; lia.
Qed.

(** C10: a client that is given what a started server has published ends up with the
    server's proxy key and network, its first authentication is answered and the
    answer accepted, whatever address it comes from and whether over UDP or TCP,
    and its transport has the server's secret or is authenticated by it. *)
Theorem published_client_connects e args srv info infoStr o draws :
  initServer NewCipher e args = Some (Ok (srv, info, infoStr)) -> well_drawn (in_proxy e) -> 0 <= MTU args ->
  json_Unmarshal infoStr = Ok (op_info o) -> op_ProxyCommand o = [] ->
  Forall draw_ok draws -> Exists draw_nonzero draws ->
  exists cl, startClientProxy NewCipher splitCommandLine o draws = Some (Ok cl) /\
    cl_key cl = sv_key srv /\ take 3 (cl_net cl) = (if TCP args then bs "tcp" else bs "udp") /\
    (forall n1 n2 a conn, length n1 = gcm_nonceSize -> length n2 = gcm_nonceSize ->
       let cp := renew_serial (cl_proxy cl) in
       exists pkt resp, sendAuthPacket (cl_key cl) cp (Some n1) = Some pkt /\ isAuthSuccessful (cl_key cl) cp resp = (cp, true) /\
         (exists p', readFrom_step (sv_key srv) (sv_proxy srv) (Some n2) a pkt = (p', FrontOut None None (Some (resp, a)))) /\
         (exists p', handshake (sv_key srv) (sv_proxy srv) (Some n2) conn pkt true = (p', Some resp, true))) /\
    transports_fit e args (sv_transport srv) (op_info o).
Proof.
  intros Hi Hd Hm Hu Hcmd Hf Hex.
  destruct (initServer_Ok _ _ _ _ _ Hi Hd Hm) as (pk & cid & sid & Hk & Hpk & Hci & Hsi & Hmode & Hus & Huc & Hpx & Hnz & Ht & Hj).
  rewrite Hj in Hu. assert (op_info o = info) as Ho by congruence. rewrite Ho.
  destruct (draw_id_total draws cid Hf (or_intror Hex)) as [id Hid]. destruct (draw_id_nonzero _ _ _ Huc Hf Hid) as [Hidnz Hidu].
  unfold startClientProxy. rewrite Ho, Hpk, DecodeString_encode, Hk, Hci, Hid, Hcmd, Hsi. rewrite bool_decide_eq_true_2 by done.
  eexists. split; [done|]. cbn [cl_key cl_net cl_proxy]. split_and!; [done| | |]; [..|done].
  - unfold network. rewrite Ho, Hmode. by destruct (TCP args), (op_IPv4 o), (op_IPv6 o).
  - intros n1 n2 a conn Hn1 Hn2. rewrite Hpx. apply first_authentication; try done.
    destruct (Attachable args) eqn:Ea; [by left|right]. cbn [renew_serial cp_clientID].
    destruct draws; cbn [draw_id] in Hid; (destruct (Z.eqb_spec cid 0) as [Hz|_]; [by destruct (Hnz eq_refl)|]); cbn [negb] in Hid; congruence.
Qed.

End Fit.

(** ** Examples *)

Module ToyPki.

(** A certificate in bits. *)
Fixpoint bits (p : positive) : bytes := match p with xI p => "1"%char :: bits p | xO p => "0"%char :: bits p | xH => [] end.

Fixpoint unbits (b : bytes) : positive :=
  match b with [] => xH | c :: b => if bool_decide (c = "1"%char) then xI (unbits b) else xO (unbits b) end.

Lemma unbits_bits p : unbits (bits p) = p.
Proof. induction p as [p IH|p IH|]; simpl; by rewrite ?IH. Qed.

#[export] Instance key_usage_countable : Countable key_usage.
Proof.
  refine (inj_countable' (fun u => match u with ServerAuth => true | ClientAuth => false end) (fun b : bool => if b then ServerAuth else ClientAuth) _).
  by intros [].
Defined.

#[export] Instance certificate_countable : Countable certificate.
Proof.
  refine (inj_countable' (fun c => (ct_public c, ct_DNSNames c, ct_NotBefore c, ct_NotAfter c, ct_ExtKeyUsage c))
            (fun '(p, d, b, a, u) => Certificate p d b a u) _).
  by intros [].
Defined.

#[export] Instance toy_pki : Pki := {
  public k := k;
  sign k m := bits (encode k) ++ m; signed p m s := bool_decide (s = bits (encode p) ++ m);
  cert_PEM c := bits (encode c); key_PEM k := bits (encode k);
  parse_cert b := whole_seconds <$> decode (unbits b); parse_key b := decode (unbits b);
  AddDate t y m d := t + (365 * y + 30 * m + d) * kDay
}.

#[export] Instance toy_pki_ok : PkiOk.
Proof.
  split; simpl; [done| |intros; by rewrite unbits_bits, decode_encode..|intros; unfold kDay, kSecond; lia|intros; unfold kDay, kSecond; lia].
  intros p m k. rewrite bool_decide_eq_true. split; [|by intros ->]. intros Hs%app_inv_tail.
  apply (f_equal unbits) in Hs. rewrite !unbits_bits in Hs. symmetry. by apply (inj encode).
Qed.

End ToyPki.

Import Toy ToyPki.

(** The two certificates are made a millisecond apart. *)
Definition example_quic : quic_env :=
  QuicEnv (KeyEnv (Some 11) (1000 * kDay + 1999999999) true true) (KeyEnv (Some 22) (1000 * kDay + 2000999999) true true) true.

(** Ten months later the client is let in, after two years it is not; nor is one
    with the right certificate and another key. *)
Lemma quic_mutual_authentication_witness :
  exists cfg size info' cl, listenQUIC example_quic no_info 0 = Ok (cfg, size, info') /\ newQuicClient info' None = Ok (cl, size) /\
    tls_handshake cfg cl (bs "hello") (1300 * kDay) = true /\ tls_handshake cfg cl (bs "hello") (1730 * kDay) = false /\
    tls_handshake cfg (TlsConfig ((fun p => (p.1, 33)) <$> tls_Certificates cl) (tls_pool cl) (tls_ServerName cl)) (bs "hello") (1300 * kDay) = false.
Proof.
  destruct (listenQUIC example_quic no_info 0) as [[[cfg size] info']|] eqn:El; [|exfalso; revert El; vm_compute; discriminate].
  destruct (quic_mutual_authentication example_quic no_info 0 cfg size info' El eq_refl ltac:(lia)) as [(cl & Hcl & Hsize & Hh & _) Hin].
  exists cfg, size, info', cl. split; [done|]. split; [rewrite Hcl, Hsize by auto; done|]. split; [apply Hh; vm_compute; intuition discriminate|].
  split; apply not_true_is_false.
  - intros [[_ H] _]%Hh. vm_compute in H. by apply H.
  - intros [H _]%Hin. cbn in H. destruct (tls_Certificates cl); discriminate.
Defined.

#[export] Instance ServerInfo_eq_dec : EqDecision ServerInfo.
Proof. solve_decision. Defined.

Definition toy_cipher (b : bytes) : option (@key toy_crypto) := head b.
Definition toy_split (b : bytes) : option (list bytes) := Some [b].

Definition example_init : init_env :=
  InitEnv (example_os (bs "192.0.2.1 4000 10.0.0.1 22")) id (fun _ _ => 0)
    (ProxyEnv (Some (bs "Kkkkkkkkkkkkkkkkkkkkkkkkkkkkkkkk")) [Some (replicate 8 "000"%char); Some (replicate 8 "007"%char)] (Some (replicate 8 "009"%char)))
    (Some (bs "p")) (Some (bs "s")) true example_quic 0.

Definition kcp_args : tsshdArgs :=
  TArgs false false false true false false false false false false false [] [] 0 [] 0 0 false.

(** What the server of the example publishes. *)
Definition example_info : ServerInfo :=
  MkServerInfo kTsshdVersion 2 61001 kUdpModeKCP (bs "70") (bs "73") [] [] [] (hex_encode (bs "Kkkkkkkkkkkkkkkkkkkkkkkkkkkkkkkk"))
    (be_get (replicate 8 "007"%char)) (be_get (replicate 8 "009"%char)) "" 0.

(** A codec that knows one message. *)
#[export] Instance info_codec : Codec ServerInfo := {
  json_Marshal i := if bool_decide (i = example_info) then Ok (bs "info") else Err (Plain "unknown");
  json_Unmarshal b := if bool_decide (b = bs "info") then Ok example_info else Err (Plain "unknown")
}.

#[export] Instance info_codec_ok : CodecOk ServerInfo.
Proof. intros i b. unfold json_Marshal, json_Unmarshal. cbn. case_bool_decide as Hi; [|done]. intros [= <-]. by rewrite bool_decide_eq_true_2, Hi. Qed.

Definition example_server : tsshd_server :=
  Server "K"%char (newServerProxy false (si_ClientID example_info) (si_ServerID example_info))
    (Kcp (newRotatingCrypto false (bs "p") (bs "s") 0 0 false 0).1) 61001.

Lemma example_started : initServer toy_cipher example_init kcp_args = Some (Ok (example_server, example_info, bs "info")).
Proof. vm_cast_no_check (eq_refl (Some (Ok (example_server, example_info, bs "info")))). Qed.

Lemma published_client_connects_witness :
  exists cl, startClientProxy toy_cipher toy_split (ClientOpts example_info false false (bs "192.0.2.9:61001") []) [Some (replicate 8 "001"%char)] =
      Some (Ok cl) /\ cl_key cl = sv_key example_server /\ take 3 (cl_net cl) = bs "udp".
Proof.
  destruct (published_client_connects toy_cipher toy_split example_init kcp_args example_server example_info (bs "info")
              (ClientOpts example_info false false (bs "192.0.2.9:61001") []) [Some (replicate 8 "001"%char)] example_started)
    as (cl & Hcl & Hk & Hn & _).
  - split; [repeat (constructor; [eexists; split; [reflexivity|reflexivity]|]); constructor|]. intros b [= <-]. reflexivity.
  - simpl. lia.
  - reflexivity.
  - reflexivity.
  - constructor; [eexists; split; reflexivity|constructor].
  - constructor. eexists. split; [reflexivity|]. vm_compute. discriminate.
  - exists cl. split; [exact Hcl|]. split; [exact Hk|exact Hn].
Defined.
