(* ===== verification/Traffic.v ===== *)
(** * Traffic: counting packets

    The windowed counters of the debug log ([trafficStats] of [proxy.go]), atomic
    one by one: each access is a step of its own; and the statistics that a
    client reports ([stats.go]), made of the counters of its [Path]. *)

From Stdlib Require Import ZArith Lia Ascii String.
From stdpp Require Import base list strings gmap.
From S2P Require Import Prelude Decimal Checker Path Transport.
Open Scope Z_scope.

(** ** The counters *)

Record trafficStats := TrafficStats {
  ts_recFlag : bool;
  ts_sendCount : Z;
  ts_sendBytes : Z;
  ts_recvCount : Z;
  ts_recvBytes : Z;
  ts_lastMilli : Z
}.

Definition resetStats (now : Z) (s : trafficStats) : trafficStats := TrafficStats (ts_recFlag s) 0 0 0 0 now.

(** [flushLog] without anything in between: the line, if there is one, and the
    counters after it.  A duration in milliseconds and four counters. *)
Definition log_line (duration sc sb rc rb : Z) : bytes :=
  bs "udp traffic: duration=" ++ decimal duration ++ bs "ms, send=" ++ decimal sc ++ bs "(" ++ decimal sb ++ bs "B), recv="
    ++ decimal rc ++ bs "(" ++ decimal rb ++ bs "B)".

Definition flushLog (now : Z) (s : trafficStats) : trafficStats * option bytes :=
  (resetStats now s,
   if (ts_sendCount s =? 0) && (ts_recvCount s =? 0) then None
   else Some (log_line (now - ts_lastMilli s) (ts_sendCount s) (ts_sendBytes s) (ts_recvCount s) (ts_recvBytes s))).

(** ** Interleavings *)

(** One direction.  A goroutine that has counted a packet adds its bytes in a
    second step, [tf_adding]; the goroutine of the log takes the count, then the
    bytes, [tf_taken].  [tf_logged] and [tf_dropped] are history: what went into
    lines, and what was taken and went into none. *)
Record traffic := Window {
  tf_count : Z;
  tf_bytes : Z;
  tf_adding : list Z;
  tf_taken : option Z;
  tf_logged : Z * Z;
  tf_dropped : Z
}.

Definition new_traffic : traffic := Window 0 0 [] None (0, 0) 0.

(** [TakeBytes other]: [other] says that the count of the other direction makes a
    line even if this one does not. *)
Inductive traffic_event := AddCount (n : Z) | AddBytes (i : nat) | TakeCount | TakeBytes (other : bool).

Definition traffic_step (s : traffic) (e : traffic_event) : traffic :=
  match e with
  | AddCount n => Window (tf_count s + 1) (tf_bytes s) (tf_adding s ++ [n]) (tf_taken s) (tf_logged s) (tf_dropped s)
  | AddBytes i => match tf_adding s !! i with
                  | None => s
                  | Some n => Window (tf_count s) (tf_bytes s + n) (delete i (tf_adding s)) (tf_taken s) (tf_logged s) (tf_dropped s)
                  end
  | TakeCount => match tf_taken s with
                 | Some _ => s
                 | None => Window 0 (tf_bytes s) (tf_adding s) (Some (tf_count s)) (tf_logged s) (tf_dropped s)
                 end
  | TakeBytes other =>
      match tf_taken s with
      | None => s
      | Some c =>
          if (c =? 0) && negb other then Window (tf_count s) 0 (tf_adding s) None (tf_logged s) (tf_dropped s + tf_bytes s)
          else Window (tf_count s) 0 (tf_adding s) None ((tf_logged s).1 + c, (tf_logged s).2 + tf_bytes s) (tf_dropped s)
      end
  end.

Definition traffic_run (es : list traffic_event) : traffic := foldl traffic_step new_traffic es.

Definition packets (es : list traffic_event) : list Z := omap (fun e => match e with AddCount n => Some n | _ => None end) es.

Definition sum (l : list Z) : Z := foldr Z.add 0 l.

Lemma sum_app l k : sum (l ++ k) = sum l + sum k.
Proof. unfold sum. induction l as [|x l IH]; cbn [app foldr]; lia. Qed.

Lemma sum_delete l i n : l !! i = Some n -> sum l = n + sum (delete i l).
Proof.
  unfold sum. revert i. induction l as [|x l IH]; intros [|i] Hi; [done..|by injection Hi as ->|]. change (delete (S i) (x :: l)) with (x :: delete i l).
  cbn [foldr]. rewrite (IH i Hi). lia.
Qed.

#[local] Arguments Z.add : simpl never.
#[local] Arguments Z.of_nat : simpl never.
#[local] Arguments sum : simpl never.

Lemma sum_one n : sum [n] = n.
Proof. unfold sum. cbn [foldr]. lia. Qed.

(** Every packet is in a line or in the counter, or has been taken out of it;
    every byte is in a line or in the counter or not added yet, or was dropped. *)
Theorem traffic_accounted es :
  let s := traffic_run es in
  (tf_logged s).1 + default 0 (tf_taken s) + tf_count s = Z.of_nat (length (packets es)) /\
  (tf_logged s).2 + tf_bytes s + sum (tf_adding s) + tf_dropped s = sum (packets es).
Proof.
  unfold traffic_run. induction es as [|e es IH] using rev_ind; [done|]. unfold packets in *. rewrite foldl_app, omap_app, length_app, sum_app. cbn [foldl].
  destruct IH as [IH1 IH2]. revert IH1 IH2. generalize (foldl traffic_step new_traffic es). intros [c b ad tk [lc lb] dr]. cbn. intros H1 H2.
  destruct e as [n|i| |other]; cbn.
  - rewrite sum_app, !sum_one. lia.
  - change (sum []) with 0. destruct (ad !! i) as [n|] eqn:Hi; cbn; [|lia]. pose proof (sum_delete _ _ _ Hi). lia.
  - change (sum []) with 0. destruct tk; cbn in *; lia.
  - change (sum []) with 0. destruct tk as [t|]; cbn in *; [|lia]. destruct (Z.eqb_spec t 0), other; cbn; lia.
Qed.

(** Bytes are dropped when a packet is counted between the two steps of the
    log. *)
Lemma bytes_dropped n : tf_dropped (traffic_run [TakeCount; AddCount n; AddBytes 0; TakeBytes false]) = n.
Proof. done. Qed.

(** Without packets in between, [flushLog] is the two steps. *)
Lemma flushLog_steps now s : 0 <= ts_sendCount s ->
  let t := foldl traffic_step (Window (ts_sendCount s) (ts_sendBytes s) [] None (0, 0) 0) [TakeCount; TakeBytes (negb (ts_recvCount s =? 0))] in
  tf_count t = ts_sendCount (flushLog now s).1 /\ tf_bytes t = ts_sendBytes (flushLog now s).1 /\
  ((flushLog now s).2 = None -> tf_logged t = (0, 0)).
Proof.
  intros Hc. cbn. destruct (Z.eqb_spec (ts_sendCount s) 0) as [->|], (Z.eqb_spec (ts_recvCount s) 0); cbn; done.
Qed.

(** ** The client's statistics *)

Record TransportStats := MkTransportStats {
  st_Mode : string;
  st_SRTTMs : Z; st_RTTVarMs : Z; st_MinRTTMs : Z; st_LatestRTTMs : Z; st_RTOMs : Z;
  st_BytesSent : Z; st_BytesReceived : Z; st_PacketsSent : Z; st_PacketsReceived : Z;
  st_BytesLost : Z; st_PacketsLost : Z; st_RetransSegs : Z;
  st_HasMinRTT : bool; st_HasRTO : bool; st_HasLoss : bool; st_RetransIsGlobal : bool
}.

(** [int64] of an unsigned number of 64 bits. *)
Definition to_int64 (v : Z) : Z := if v <? 2 ^ 63 then v else v - 2 ^ 64.

(** What the libraries report: times in milliseconds for KCP, in nanoseconds for
    QUIC. *)
Record kcp_info := KcpInfo { ki_SRTT : Z; ki_SRTTVar : Z; ki_RTO : Z; ki_RetransSegs : Z }.

Record quic_info := QuicInfo {
  qi_SmoothedRTT : Z; qi_MeanDeviation : Z; qi_MinRTT : Z; qi_LatestRTT : Z;
  qi_BytesSent : Z; qi_BytesReceived : Z; qi_PacketsSent : Z; qi_PacketsReceived : Z; qi_BytesLost : Z; qi_PacketsLost : Z
}.

Definition kcp_stats (i : kcp_info) : TransportStats :=
  MkTransportStats kUdpModeKCP (ki_SRTT i) (ki_SRTTVar i) 0 0 (ki_RTO i) 0 0 0 0 0 0 (to_int64 (ki_RetransSegs i)) false true false true.

(** [time.Duration.Milliseconds] truncates. *)
Definition Milliseconds (d : Z) : Z := Z.quot d (10 ^ 6).

Definition quic_stats (i : quic_info) : TransportStats :=
  MkTransportStats kUdpModeQUIC (Milliseconds (qi_SmoothedRTT i)) (Milliseconds (qi_MeanDeviation i)) (Milliseconds (qi_MinRTT i))
    (Milliseconds (qi_LatestRTT i)) 0 (to_int64 (qi_BytesSent i)) (to_int64 (qi_BytesReceived i)) (to_int64 (qi_PacketsSent i))
    (to_int64 (qi_PacketsReceived i)) (to_int64 (qi_BytesLost i)) (to_int64 (qi_PacketsLost i)) 0 true false true false.

(** [proto]: the protocol of the client, if it has one; [proxy]: its
    proxy, if it has one. *)
Definition GetTransportStats (closed : bool) (proto : option (kcp_info + quic_info)) (proxy : option path) : option TransportStats :=
  if closed then None
  else match proto with
       | None => None
       | Some p =>
           let s := match p with inl i => kcp_stats i | inr i => quic_stats i end in
           Some (if bool_decide (st_Mode s = kUdpModeKCP) then
                   match proxy with
                   | Some q => let c := pt_traffic q in MkTransportStats (st_Mode s) (st_SRTTMs s) (st_RTTVarMs s) (st_MinRTTMs s) (st_LatestRTTMs s) (st_RTOMs s)
                                 (to_int64 (sentBytes c)) (to_int64 (recvBytes c)) (to_int64 (sentPackets c)) (to_int64 (recvPackets c))
                                 (st_BytesLost s) (st_PacketsLost s) (st_RetransSegs s) (st_HasMinRTT s) (st_HasRTO s) (st_HasLoss s) (st_RetransIsGlobal s)
                   | None => s
                   end
                 else s)
       end.

(** *** What is counted *)

(** The transport's calls of the proxy; [Elsewhere]: whatever else happens to it,
    which leaves the counters alone. *)
Inductive io_call := CallWrite (buf : bytes) (ok : bool) | CallRead (result : option bytes) (now : Z) | Elsewhere (q : path).

Definition call_step (p : path) (k : io_call) : path :=
  match k with
  | CallWrite buf ok => (WriteTo buf ok p).1
  | CallRead result now => (ReadFrom_pass result now p).1
  | Elsewhere q => set_traffic (pt_traffic p) q
  end.

Definition connected (p : path) : bool := negb (pt_closed p) && bool_decide (is_Some (pt_backend p)).

(** The packets that the backend takes, and those that it gives. *)
Definition sent_by (p : path) (k : io_call) : list bytes :=
  match k with CallWrite buf true => if connected p then [buf] else [] | _ => [] end.

Definition received_by (p : path) (k : io_call) : list bytes :=
  match k with CallRead (Some b) _ => if connected p then [b] else [] | _ => [] end.

Fixpoint passed (by_call : path -> io_call -> list bytes) (p : path) (ks : list io_call) : list bytes :=
  match ks with [] => [] | k :: ks => by_call p k ++ passed by_call (call_step p k) ks end.

Definition total (l : list bytes) : Z := Z.of_nat (length (concat l)).

Definition count (t : cumulativeTraffic) (sent received : list bytes) : cumulativeTraffic :=
  Traffic (u64 (sentPackets t + Z.of_nat (length sent))) (u64 (sentBytes t + total sent))
          (u64 (recvPackets t + Z.of_nat (length received))) (u64 (recvBytes t + total received)).

Record counters_ok (t : cumulativeTraffic) : Prop := {
  ck_sp : 0 <= sentPackets t < 2 ^ 64; ck_sb : 0 <= sentBytes t < 2 ^ 64;
  ck_rp : 0 <= recvPackets t < 2 ^ 64; ck_rb : 0 <= recvBytes t < 2 ^ 64
}.

Lemma u64_range v : 0 <= u64 v < 2 ^ 64.
Proof. apply Z.mod_pos_bound. lia. Qed.

Lemma u64_add v w : u64 (u64 v + w) = u64 (v + w).
Proof. unfold u64, uwrap. by rewrite Zplus_mod_idemp_l. Qed.

Lemma count_nil t : counters_ok t -> count t [] [] = t.
Proof. intros []. destruct t. unfold count, total, u64, uwrap in *. cbn in *. by rewrite !Z.add_0_r, !Z.mod_small. Qed.

Lemma clear_traffic c p : pt_traffic (clearBackendConn c p) = pt_traffic p.
Proof. unfold clearBackendConn. by repeat case_match. Qed.

Lemma call_step_count p k : counters_ok (pt_traffic p) -> pt_traffic (call_step p k) = count (pt_traffic p) (sent_by p k) (received_by p k).
Proof.
  destruct p as [proxy closed backend conns checker [sp sb rp rb]]. intros Hok. pose proof (count_nil _ Hok) as Hn. cbn in Hok, Hn.
  unfold sent_by, received_by, connected, call_step, WriteTo, ReadFrom_pass. cbn [pt_traffic pt_closed pt_backend].
  destruct closed; [destruct k as [? []|[] ?|?]; by rewrite count_nil|]. destruct backend as [c|]; [|destruct k as [? []|[] ?|?]; by rewrite count_nil].
  destruct k as [buf []|[b|] now|q]; cbn [fst negb andb]; rewrite ?clear_traffic; [|by rewrite count_nil| |by rewrite count_nil..];
    injection Hn as H1 H2 H3 H4; unfold count; cbn; rewrite ?H1, ?H2, ?H3, ?H4; unfold total; cbn [concat]; by rewrite app_nil_r.
Qed.

Lemma count_app t s1 r1 s2 r2 : count (count t s1 r1) s2 r2 = count t (s1 ++ s2) (r1 ++ r2).
Proof.
  unfold count, total. cbn [sentPackets sentBytes recvPackets recvBytes]. rewrite !u64_add, !concat_app, !length_app, !Nat2Z.inj_add, <- !Z.add_assoc. done.
Qed.

Lemma count_ok t s r : counters_ok (count t s r).
Proof. split; apply u64_range. Qed.

Lemma run_count ks p : counters_ok (pt_traffic p) ->
  pt_traffic (foldl call_step p ks) = count (pt_traffic p) (passed sent_by p ks) (passed received_by p ks).
Proof.
  revert p. induction ks as [|k ks IH]; intros p Hok; [by rewrite count_nil|]. cbn [foldl passed].
  rewrite IH; rewrite call_step_count by done; [|apply count_ok]. by rewrite count_app.
Qed.

(** A KCP client's statistics count the packets that its backends have taken and
    given since the client began, and their bytes, as long as the numbers fit;
    a client that is closed has no statistics. *)
Theorem stats_count_traffic ks p i :
  pt_traffic p = Traffic 0 0 0 0 ->
  let sent := passed sent_by p ks in let received := passed received_by p ks in
  Z.of_nat (length sent) < 2 ^ 63 -> total sent < 2 ^ 63 -> Z.of_nat (length received) < 2 ^ 63 -> total received < 2 ^ 63 ->
  GetTransportStats true (Some (inl i)) (Some (foldl call_step p ks)) = None /\
  exists s, GetTransportStats false (Some (inl i)) (Some (foldl call_step p ks)) = Some s /\
    st_PacketsSent s = Z.of_nat (length sent) /\ st_BytesSent s = total sent /\
    st_PacketsReceived s = Z.of_nat (length received) /\ st_BytesReceived s = total received.
Proof.
  intros Ht sent received H1 H2 H3 H4. split; [done|]. eexists. split; [done|]. rewrite bool_decide_eq_true_2 by done.
  rewrite run_count by (rewrite Ht; by split). rewrite Ht. fold sent received. unfold count. cbn [sentPackets sentBytes recvPackets recvBytes st_PacketsSent st_BytesSent st_PacketsReceived st_BytesReceived].
  assert (Hsmall : forall v, 0 <= v < 2 ^ 63 -> to_int64 (u64 (0 + v)) = v).
  { intros v Hv. unfold to_int64, u64, uwrap. rewrite Z.add_0_l, Z.mod_small by lia. by destruct (Z.ltb_spec v (2 ^ 63)); [|lia]. }
  unfold total in *. rewrite !Hsmall by lia. done.
Qed.
